(* ===== verification/_CoqProject ===== *)
-Q . S2P
Prelude.v
Decoy.v
ConnString.v
Grants.v
Rules.v
Registry.v
Import.v
Secrets.v
Config.v
Mint.v
Engine.v
Paths.v
Layers.v
Tproxy.v
SshLeg.v
Pki.v
TunRoute.v
Dial.v
Adapt.v
Kube.v
Stack.v
SshConfig.v
Git.v
Ambient.v
Compose.v
TomlEdit.v
Confine.v
Expose.v
Raw.v
Redis.v
Postgres.v
TlsLegs.v
Relay.v
HttpHead.v
HttpMachine.v
H2.v
H2Streams.v
Tun.v
Fwd.v
Tracker.v
Bypass.v
Ebpf.v
UdpRelay.v
Serve.v
Dispatch.v
PluginHost.v
