(* ===== verification/Prelude.v ===== *)
(** * hodor, verified

    hodor is a proxy that swaps decoy credentials for real ones on the way out
    and real ones for decoys on the way back, for the destinations its grants
    name and for no other. This library models the parts of it that decide
    what is swapped, where, and what becomes of every other byte, and the parts
    that prepare a workspace with decoys in the place of credentials. Paths below are under
    [src/]; [proxy/] stands for [crates/hodor-proxy/src/], [config/] for
    [crates/hodor-config/src/] and [compose/] for [crates/hodor-compose/src/].

    ** How the program's parts interact

    The configuration's layers are merged and validated ([Config]); resolution
    gives each rule its secret, its hosts and its decoy template from the
    secret source, whose own layers are found and merged first ([Layers]), and
    the provider registry, which can be extended from discovery documents
    ([Secrets], [Registry], [Import]). The rule
    table is then collected into grants ([Rules]); a grant pairs a credential
    (decoy and real value) with the endpoints it may travel to ([Grants],
    [ConnString]), the decoy being rendered from a pattern ([Decoy]). A guest
    connection arrives through the explicit listener, or is captured by the
    TUN gateway ([TunRoute], [Tun], [Tracker]), by the transparent proxy's rules
    ([Tproxy]) or by the eBPF programs ([Bypass], [Ebpf]); captured datagrams are
    relayed ([UdpRelay]), and hodor's own dials, which carry the mark of the
    backend ([Dial]), escape all three ([Serve]).
    Dispatch picks the arm its destination's grants state, reads as much of
    the opening as that arm needs, and settles whom to dial and which pair of
    machines to build ([Dispatch]), under leaves of the authority all processes
    of a host share ([Pki]) and the TLS configurations of each entry ([TlsLegs]);
    an ssh connection ends in a bridge that presents the real identity ([SshLeg]),
    and an http one may pass a sandboxed plugin ([PluginHost]). The relay pumps
    both directions through
    the pair ([Relay]): a machine is one of [Raw], [Redis], [Postgres], the
    HTTP/1 machine ([HttpHead], [HttpMachine]) and the HTTP/2 machine ([H2],
    [H2Streams]), all over the scan and replace primitives of [Engine] and,
    for HTTP token responses, the shared store of [Mint].

    The guest itself is generated from a workspace: its declared files are
    rewritten and its tools' own configurations adapted, each adapter giving
    the file the agent sees and the rules the proxy gets ([Paths], [Adapt],
    [Stack], [Kube], [SshConfig], [Git], [Ambient]); the rules become the grant
    layer the proxy reads, the rest a compose file ([Compose]). The workspace
    commands write, digest, start and stop these files ([Confine], with the
    in-place edits of [TomlEdit]), and publish ports through one registry that
    all workspaces share ([Expose]); in the running stack the sidecar makes the
    agent's loopback listeners reachable ([Fwd]).

    ** Files

    - [Prelude] (this file): bytes, Rust strings and slices, results, machine
      integers, big-endian codecs, the hint database [hodor] and the tactics.
    - [Decoy]: [config/config.rs], template validation ([validate_pattern]) and
      rendering ([fake_for], [render_template], [fill_encoding]).
    - [ConnString]: [config/grants/postgres.rs] and [redis.rs], both connection
      string parsers, their TLS loops and the scopes they build.
    - [Grants]: [config/grants/mod.rs], host patterns, [allow] entries, grants
      and their matching functions.
    - [Rules]: the [GrantCollector] of [config/grants/mod.rs], [collect] and
      [resolve_grants], with the rule data of [config/config.rs].
    - [Registry]: [config/registry.rs], the provider registry's layers, lookups
      and flow validation.
    - [Secrets]: [crates/hodor-fnox/src/lib.rs], the catalog and the pass that
      resolves each rule.
    - [Layers]: [crates/hodor-fnox/src/layers.rs], the discovery of fnox's own
      layers, their merge, and the stack of inherited profiles.
    - [Import]: [config/import.rs] and the command of [commands.rs] that prints
      its fragments.
    - [Config]: [config/config.rs] and [plugins.rs], the label merge, profile
      inheritance, referenced variables, validation and plugin scopes.
    - [Mint]: [proxy/mint.rs], the store (as one operation and as the two steps
      other threads can come between) and the burst guard over its two atomics.
    - [Engine]: [proxy/transports/engine/mod.rs], pair eligibility, mint plans,
      scanning, replacing and the hold-back window; the trait [Wire] is the
      class the relay is proved against, each machine giving an instance.
    - [Paths]: [compose/paths.rs], expansion, normalisation, translation into
      the container home and the collapse into mounts.
    - [Adapt]: [compose/adapt.rs] and the errors of [compose/error.rs]; what an
      adapter yields, and the grant layer.
    - [Stack]: [compose/stack.rs] and [expand.rs], the decoys, the environment,
      declared rewrites, and the mounts of the workspace and its profiles.
    - [Kube], [SshConfig], [Git]: [compose/kube.rs] with [talos.rs], [ssh.rs] and
      [git.rs], one adapter each.
    - [Ambient]: [compose/jj.rs] and the [AmbientDeriver] of [compose/stack.rs].
    - [Compose]: the builder and renderer of [compose/stack.rs].
    - [TomlEdit]: the edited documents of [compose/confine.rs] and [expose.rs].
    - [Confine], [Expose]: [compose/confine.rs] and [compose/expose.rs], the
      commands over a state that may fail and leave what was done before.
    - [Fwd]: [fwd.rs], the sidecar's tables, attribution and loop.
    - [Raw], [Redis], [Postgres]: the machines of
      [proxy/transports/{tcp,redis,postgres}/machine.rs]; [Postgres] also the
      opening, the upstream TLS decision and the certificate verifier of
      [postgres/mod.rs].
    - [TlsLegs]: the TLS halves of [proxy/transports/postgres/mod.rs] and
      [redis/mod.rs], with the trust files of [proxy/connection.rs].
    - [Pki]: [crates/hodor-pki/src/ca.rs], the CA file and the processes that race
      for it; [SshLeg]: [ssh.rs] there and [proxy/transports/ssh/], the bridge.
    - [Dial]: the dial and the replay of [proxy/connection.rs].
    - [Relay]: [proxy/relay.rs], the two pumps as a step relation.
    - [HttpHead], [HttpMachine]: [proxy/transports/http/machine.rs]; heads,
      framing and chunks, then the struct [Http] with one function per state.
    - [H2], [H2Streams]: [proxy/transports/http/h2.rs]; the frame machine, then
      what it promises.
    - [Tun], [Tracker]: [crates/hodor-tun/src/], classification, the UDP answer
      and session table; the connection tracker, the task streams, the loop.
    - [TunRoute]: [crates/hodor-tun/src/route.rs] and its use in [tun.rs], the
      policy routes over a kernel whose every state is kept.
    - [Tproxy]: [crates/hodor-tproxy/src/], the ruleset, its evaluation, the
      routes and a run with its guards.
    - [UdpRelay]: the UDP relays of [crates/hodor-ebpf/src/udp.rs], as interleaved
      tasks, and of [crates/hodor-tun/src/udp.rs].
    - [Serve]: what [main.rs] chooses and the run of a backend.
    - [Bypass], [Ebpf]: [crates/hodor-ebpf/src/lib.rs], [flow.rs], [udp.rs] and
      [crates/hodor-ebpf-programs/src/main.rs]; the bypass list, its watcher
      and the configuration entry, then the three programs over their maps.
    - [Dispatch]: [proxy/identity.rs], [lib.rs], [connection.rs], the serve arms
      of [proxy/transports/*/mod.rs] and plugin selection
      ([crates/hodor-plugin/src/lib.rs]); [PluginHost]: the rest of that file, the
      registry and the hook, which is an instance of the class [RewriteHook] the
      machines are proved against.

    ** Correspondence

    A struct is a [Record] with the source's fields, an enum an [Inductive]
    with its variants, a method a [Definition] that returns the new state. A
    byte string, a [String] or a path is a list of bytes; a [u16], [u32] or
    [usize] counter that can wrap is an [N] with its modulus written out, a
    length that cannot is a [nat]. A [HashMap], [DashMap] or kernel map is a
    [gmap], a [BTreeMap] read in order the list of its entries. A [Result] is
    [result], an early return the corresponding branch. A suspended task is a
    step relation or a list of what its reads answered ([ReadEvent]); a panic
    or a loop that does not end is [None].

    ** What the theorems show

    - Substitution: the hold-back window gives the left-to-right swap of the
      whole stream over any chunking of it ([Engine.window_split_invariant]);
      with a single pair and no plugin so do the bodies of the machines
      ([HttpMachine.fixed_body_swapped], [HttpMachine.chunked_body_swapped] for a
      body that arrives whole, [H2Streams.stream_bodies_swapped] for DATA frames,
      [Raw.token_rule_swaps_raw]); how the input is cut does not change what the
      frame machine emits ([H2.h2_split_invariant], which leaves out the
      fail-closed latch) nor what the redis machine does
      ([Redis.redis_split_invariant]); the in-place routines equal their
      reference definitions ([Engine.replace_bytes_correct],
      [HttpHead.head_swap_per_line], [H2Streams.h2_values_per_field]).
    - What a credential may reach, and through what: [Secrets.secrets_stay_in_scope],
      [Rules.resolved_grants_well_formed], [Engine.eligible_pairs_exact],
      [Dispatch.served_within_scope], [Dispatch.expect_exact],
      [Postgres.verifying_modes_verify], [TlsLegs.postgres_leg_verified],
      [SshLeg.identity_presented_safely], with host keys trusted on first use and
      kept as long as the file of known hosts is read and written whole
      ([SshLeg.host_keys_accept_new]; [SshLeg.append_loses_pins] without).
    - Secret sources: what is read for a directory is its layers merged, the
      nearest deciding ([Layers.discovered_exact]), and the search ends
      ([Layers.discovery_settles], [Layers.profiles_resolved]).
    - One authority per CA file, whoever races or is killed, when its split files
      are other files ([Pki.one_authority]; [Pki.split_overwrites_ca] when not).
    - Plugins: every start and call of a guest is under its full budgets and in its
      world, and only an answer lets a connection go on
      ([PluginHost.hook_calls_guarded], [PluginHost.selected_loaded]).
    - What enters the guest: no declared real value survives in a rewritten file
      without structure, unless a decoy meets one ([Stack.rewritten_files_clean]);
      the environment's decoys are those the proxy swaps, raw TCP entries apart
      ([Stack.agent_decoys_agree]); what an adapted kubeconfig has in the place of
      the host's credentials, and what it keeps ([Kube.kube_decoys_only]); ambient mounts come from the adapters' output
      ([Ambient.ambient_mounts_traced]), and the grant layer is what was derived
      ([Adapt.grant_layer_exact]).
    - Generated text reads back: [Git.shell_quote_roundtrip],
      [Compose.services_read_back] (no text without a quote or a line break can
      add or change a mount or a variable),
      [Compose.stack_marks_roundtrip], [Fwd.proc_row_roundtrip],
      [Import.fragment_reads_back].
    - The workspace lifecycle, each command on every branch:
      [Confine.init_exact], [Confine.init_settles], [Confine.up_exact],
      [Confine.agent_session_exact]. They are proved against the interface
      [GeneratorMarks], which the renderer implements ([Confine.rendered_marks]).
    - Exposed ports: [Expose.expose_exact] for one command; for any sequence of
      commands of any workspaces no claim is taken over ([Expose.claims_kept])
      and every mapping in place is claimed ([Expose.claims_backed]). The
      examples [Expose.overlapping_exposes_race] and
      [Expose.mapping_outlives_claim] bound these.
    - Configuration: [Registry.loaded_registry_well_formed] and
      [Registry.registry_layers], [Config.validate_exact],
      [Config.merged_by_label], [Config.profile_chain_ends]; together they make
      [Config.valid_config_resolves], and [Secrets.resolve_accounts] says what
      becomes of each rule.
    - Framing: [HttpHead.framing_unambiguous], [HttpMachine.fixed_body_never_drifts],
      [HttpMachine.plugin_bodies_never_unread], [H2Streams.h2_invariant],
      [H2Streams.header_frames_reassemble], [Redis.auth_array_reframed],
      [Postgres.greeting_relays_startup].
    - Conservation: nothing read is lost or repeated ([Dispatch.opening_replayed],
      [Tracker.relay_conserves], and [Relay.relay_delivers_in_order] until a pump
      ends: a write that is abandoned may even panic,
      [Relay.stopped_write_panics_reached]).
    - Invariants of every reachable state: [Tracker.gateway_invariant],
      [H2Streams.h2_invariant].
    - Concurrency: [Mint.burst_budget], [Mint.racing_mints_agree],
      [Relay.terminal_intent_honoured], [Relay.relay_ends].
    - Capture: [Ebpf.tables_refine_ledger] refines the flow tables to an
      unbounded ledger, [Ebpf.capture_resolves], [Ebpf.connect4_exact],
      [Bypass.watch_follows_file], [Bypass.bypass_tiers],
      [Tun.udp_answer_roundtrip]; the sidecar's pass is [Fwd.poll_exact]. The
      nftables rules capture exactly what they mean to ([Tproxy.capture_exact])
      and a run takes them away under a kernel that does what it is asked
      ([Tproxy.run_leaves]); where nothing else uses their table and priorities
      the policy routes leave every packet a route at any moment
      ([TunRoute.never_stranded]) and route what they mean to
      ([TunRoute.capture_routed]). Datagrams and replies stay paired
      ([UdpRelay.udp_paired], [UdpRelay.session_answers]). Hodor's own dials are
      bounded in time ([Dial.dial_within_budget]) and, under each backend's
      conditions, not captured ([Serve.own_dials_escape]).

    ** Fuel

    A loop that is not structural takes fuel, and a lemma of its file shows
    that what it is given is enough: one unit per byte still wanted
    ([Decoy.fill_go]), per byte of input ([Decoy.render_go], [Engine.replace_loop],
    [Engine.safe_emit_loop], [Redis.feed_commands], [Postgres.judge_opening],
    [HttpHead.dechunk], [H2.frame_loop], [Stack.rewrite_loop]), per state change
    and byte ([HttpMachine.substitute_loop], with [HttpMachine.substitute_total]),
    per entry of a fixed array ([Ebpf.bypass_loop]), or per profile directory and
    two more ([Config.chain_loop], with [Config.profile_chain_ends]). Profiles of
    the secret source are visited with one unit per profile and two more
    ([Layers.visit]), and its discovery runs one round per name that can be
    inherited and two more ([Layers.expand_stack], with
    [Layers.discovery_settles]).
    [Tracker.round] consumes the queues it is given.

    ** Parameters

    Code outside the repository is a class, instantiated by a concrete one for
    the witnesses: [Digests] with [DigestLaws] (sha2, hex, base62), [UrlCrate]
    (url), [TomlRegistry] (toml), [JsonCrate] with [JsonLaws] (serde_json), [Base64] with [Base64Laws],
    [HttpParse] and [RequestHead] (httparse), [Hpack] (httlib_hpack), [Pgwire]
    (pgwire), [CertChecks] (rustls), [TlsHello] (rama), [Smoltcp] with
    [SmoltcpLaws], [LruMaps] with [LruMapsOk] (the kernel's LRU maps),
    [RewriteHook] (a plugin's guest), [Expander] (xpanda, shellexpand), [Yaml]
    (serde_yaml), [Toml] and [TomlFragment] (toml), [TomlEdit] with
    [TomlEditLaws] (toml_edit), [ClaimJson] with [ClaimJsonLaws] (serde_json),
    [Gix] (gix), [Fnox] with [FnoxLaws] (fnox-core), [Russh] with
    [KnownHostsLaws] (russh), [Certs] with [CertLaws] (rcgen and the PEM readers),
    [TlsLibrary] (rustls), [Wasmtime] (wasmtime), [JsonDoc] (serde_json), [CaseTables] (the Unicode case
    tables behind [to_uppercase]). The
    kernel is [Tproxy.Kernel] with [KernelSpec], [Cooperative] and [Tables],
    [Nftables] with [NftablesLaws], and [TunRoute.Netlink] with [Fib]: what each
    request does to rules and routes, and how they are consulted, as documented;
    the network a dial meets is [Dial.Net]. The host's files and environment are [Ambient.HostEnv] and what
    [Confine] and [Expose] take of it: which writes it allows, and how docker's
    commands exit. [Dispatch.World] collects what an arm asks
    of the network; a file, a directory or the secret source is what its reads
    answer ([Config.LayerFile], [Config.ProfileLayer], [Registry.RulesDir],
    [Secrets.FnoxSource]).

    ** Not modelled

    TLS handshakes and the making, signing and parsing of certificates and keys
    (rustls, boring, rcgen), the ssh protocol itself (russh), the inside of a
    plugin's guest (Wasmtime), device and socket I/O with the relaying of the
    sidecar's sockets, the loading and attaching of the eBPF programs, the
    confique overlay, what the other commands print, the signal handler that lets
    a session outlive an interrupt, the command line and the rest of the wiring of
    [serve]: library calls and I/O. The files [live.rs] and [e2e.rs] are tests. Of
    a service's TLS client policy ([proxy/connection.rs], [client_auth_policy])
    only the identity and the trust it is built from are modelled.
    [to_lowercase] is the ASCII one, so that the few other letters whose lower case
    is an ASCII letter are not taken for it in a slug; the hasher of the build digest is a
    parameter, and the entries of a YAML mapping keep their order where one is
    removed. *)

From stdpp Require Export prelude list gmap.
From Stdlib Require Strings.Byte Strings.String.
From Stdlib Require Export NArith ZArith Lia.
Export String.StringSyntax.
#[global] Set Default Goal Selector "!".
#[global] Set Warnings "-notation-incompatible-prefix".
Open Scope list_scope.
Open Scope nat_scope.

(** ** Bytes, byte strings and Rust strings

    A [u8] is [Byte.byte]; a [Vec<u8>], [&[u8]], [String] or [&str] is a list
    of bytes (a Rust string is its UTF-8 encoding). *)

Abbreviation byte := Byte.byte.
Abbreviation bytes := (list Byte.byte).

#[export] Instance byte_eq_decision : EqDecision byte := Byte.byte_eq_dec.

#[export] Instance byte_countable : Countable byte :=
  inj_countable Byte.to_N Byte.of_N Byte.of_to_N.

(** A byte-string literal, Rust's [b"..."] and ["..."]. *)
Definition bs (s : String.string) : bytes := String.list_byte_of_string s.
Arguments bs s%_string_scope.

(** [u8] as a number, and the low 8 bits of a number as a [u8]. *)
Definition u8 (b : byte) : N := Byte.to_N b.
Definition byte_of (n : N) : byte := default Byte.x00 (Byte.of_N (n mod 256)).

Lemma u8_lt b : (u8 b < 256)%N.
Proof. pose proof (Byte.to_N_bounded b). unfold u8. lia. Qed.

Lemma byte_of_u8 b : byte_of (u8 b) = b.
Proof.
  unfold byte_of. rewrite N.mod_small by apply u8_lt.
  unfold u8. by rewrite Byte.of_to_N.
Qed.

Lemma u8_byte_of n : u8 (byte_of n) = (n mod 256)%N.
Proof.
  unfold byte_of. destruct (Byte.of_N (n mod 256)) as [b|] eqn:E; simpl.
  - unfold u8. by apply Byte.to_of_N.
  - apply Byte.of_N_None_iff in E. pose proof (N.mod_lt n 256). lia.
Qed.

Lemma u8_inj a b : u8 a = u8 b → a = b.
Proof. intros H. rewrite <- (byte_of_u8 a), <- (byte_of_u8 b). by rewrite H. Qed.

(** ** Machine integers *)

Definition usize_max : N := 2 ^ 64 - 1.
Definition u16_max : N := 65535.

(** [checked_add] and [checked_mul] at a width whose largest value is [m]. *)
Definition checked_add (m a b : N) : option N := if (a + b <=? m)%N then Some (a + b)%N else None.
Definition checked_mul (m a b : N) : option N := if (a * b <=? m)%N then Some (a * b)%N else None.

Definition CR : byte := Byte.x0d.
Definition LF : byte := Byte.x0a.
Definition crlf : bytes := [CR; LF].

(** ** Slices *)

(** [hay.starts_with(needle)]. *)
Definition starts_with (hay needle : bytes) : bool := bool_decide (needle `prefix_of` hay).

(** [iter().position(p)]. *)
Fixpoint position {A} (p : A → bool) (l : list A) : option nat :=
  match l with
  | [] => None
  | x :: l => if p x then Some 0 else S <$> position p l
  end.

(** [data.windows(n)], for [n > 0]. *)
Fixpoint windows_go (k n : nat) (data : bytes) : list bytes :=
  match k with
  | 0 => []
  | S k => take n data :: windows_go k n (drop 1 data)
  end.
Definition windows (n : nat) (data : bytes) : list bytes :=
  windows_go (S (length data) - n) n data.

(** [data.windows(w.len()).position(|x| x == w)]. *)
Definition find_window (w data : bytes) : option nat :=
  position (λ x, bool_decide (x = w)) (windows (length w) data).

(** [l.splitn] at a separator byte: all the pieces, in order ([split(|b| b == sep)]). *)
Fixpoint split_byte (sep : byte) (l : bytes) : list bytes :=
  match l with
  | [] => [[]]
  | c :: l =>
      if decide (c = sep) then [] :: split_byte sep l
      else match split_byte sep l with
           | [] => [[c]]
           | p :: ps => (c :: p) :: ps
           end
  end.

(** [s.split("\r\n")]. *)
Fixpoint split_crlf (l : bytes) : list bytes :=
  match l with
  | [] => [[]]
  | c :: l' =>
      match l' with
      | d :: l'' =>
          if bool_decide (c = Byte.x0d) && bool_decide (d = Byte.x0a) then [] :: split_crlf l''
          else match split_crlf l' with
               | [] => [[c]]
               | p :: ps => (c :: p) :: ps
               end
      | [] => [[c]]
      end
  end.

(** [s.split_once(sep)]. *)
Definition split_once (sep s : bytes) : option (bytes * bytes) :=
  i ← find_window sep s; Some (take i s, drop (i + length sep) s).

(** [s.strip_prefix(p)]. *)
Definition strip_prefix (p s : bytes) : option bytes :=
  if starts_with s p then Some (drop (length p) s) else None.
(** [s.strip_suffix(p)]. *)
Definition strip_suffix (p s : bytes) : option bytes := (λ r, rev r) <$> strip_prefix (rev p) (rev s).

(** [hay.contains(needle)]. *)
Definition str_contains (hay needle : bytes) : bool :=
  match needle with [] => true | _ => bool_decide (is_Some (find_window needle hay)) end.

(** ** ASCII *)

Definition is_digit (b : byte) : bool := ((48 <=? u8 b) && (u8 b <=? 57))%N.

Definition ascii_lower (b : byte) : byte :=
  if ((65 <=? u8 b) && (u8 b <=? 90))%N then byte_of (u8 b + 32) else b.

Definition eq_ignore_case (a b : bytes) : bool :=
  bool_decide (map ascii_lower a = map ascii_lower b).

(** ** UTF-8

    [utf8_step] reads one scalar value off the front, the way
    [core::str::lossy] does: [inl n] is a valid scalar of [n] bytes, [inr n]
    a maximal invalid sequence of [n] bytes. *)
Definition in_range (lo hi : N) (b : byte) : bool := ((lo <=? u8 b) && (u8 b <=? hi))%N.

Definition utf8_cont (lo hi : N) (rest : bytes) (k : nat) : nat + nat :=
  match rest with
  | b1 :: rest1 =>
      if in_range lo hi b1 then
        match k with
        | 1 => inl 2
        | _ =>
          match rest1 with
          | b2 :: rest2 =>
              if in_range 128 191 b2 then
                match k with
                | 2 => inl 3
                | _ =>
                  match rest2 with
                  | b3 :: _ => if in_range 128 191 b3 then inl 4 else inr 3
                  | [] => inr 3
                  end
                end
              else inr 2
          | [] => inr 2
          end
        end
      else inr 1
  | [] => inr 1
  end.

Definition utf8_step (l : bytes) : nat + nat :=
  match l with
  | [] => inr 0
  | b :: rest =>
      let n := u8 b in
      if (n <? 128)%N then inl 1
      else if in_range 194 223 b then utf8_cont 128 191 rest 1
      else if (n =? 224)%N then utf8_cont 160 191 rest 2
      else if (n =? 237)%N then utf8_cont 128 159 rest 2
      else if in_range 225 239 b then utf8_cont 128 191 rest 2
      else if (n =? 240)%N then utf8_cont 144 191 rest 3
      else if in_range 241 243 b then utf8_cont 128 191 rest 3
      else if (n =? 244)%N then utf8_cont 128 143 rest 3
      else inr 1
  end.

Fixpoint utf8_valid_go (fuel : nat) (l : bytes) : bool :=
  match l, fuel with
  | [], _ => true
  | _, 0 => false
  | _, S fuel =>
      match utf8_step l with
      | inl n => utf8_valid_go fuel (drop n l)
      | inr _ => false
      end
  end.
(** [std::str::from_utf8(l).is_ok()]. *)
Definition utf8_valid (l : bytes) : bool := utf8_valid_go (length l) l.

(** [String::from_utf8_lossy(l)]: each maximal invalid sequence becomes U+FFFD. *)
Definition replacement_char : bytes := [Byte.xef; Byte.xbf; Byte.xbd].
Fixpoint utf8_lossy_go (fuel : nat) (l : bytes) : bytes :=
  match l, fuel with
  | [], _ => []
  | _, 0 => []
  | _, S fuel =>
      match utf8_step l with
      | inl n => take n l ++ utf8_lossy_go fuel (drop n l)
      | inr n => replacement_char ++ utf8_lossy_go fuel (drop (Nat.max 1 n) l)
      end
  end.
Definition utf8_lossy (l : bytes) : bytes := utf8_lossy_go (length l) l.

(** ** Whitespace

    [char::is_whitespace] is Unicode [White_Space]; its members' UTF-8
    encodings, so that [trim] works on the encoded string. *)
Definition whitespace : list bytes :=
  map (λ n, [byte_of n]) [9; 10; 11; 12; 13; 32]%N ++
  map (λ n, [byte_of 194; byte_of n]) [133; 160]%N ++
  [[byte_of 225; byte_of 154; byte_of 128]] ++
  map (λ n, [byte_of 226; byte_of 128; byte_of n])
    [128; 129; 130; 131; 132; 133; 134; 135; 136; 137; 138; 168; 169; 175]%N ++
  [[byte_of 226; byte_of 129; byte_of 159]; [byte_of 227; byte_of 128; byte_of 128]].

(** Length of the whitespace scalar at the front, if there is one. *)
Definition ws_front (l : bytes) : option nat :=
  length <$> head (filter (λ w, starts_with l w = true) whitespace).

Fixpoint trim_start_go (fuel : nat) (l : bytes) : bytes :=
  match fuel, ws_front l with
  | S fuel, Some n => trim_start_go fuel (drop n l)
  | _, _ => l
  end.
Definition trim_start (l : bytes) : bytes := trim_start_go (length l) l.

Definition ws_back (l : bytes) : option nat :=
  length <$> head (filter (λ w, starts_with (rev l) (rev w) = true) whitespace).
Fixpoint trim_end_go (fuel : nat) (l : bytes) : bytes :=
  match fuel, ws_back l with
  | S fuel, Some n => trim_end_go fuel (take (length l - n) l)
  | _, _ => l
  end.
Definition trim_end (l : bytes) : bytes := trim_end_go (length l) l.

(** [s.trim()]. *)
Definition trim (l : bytes) : bytes := trim_end (trim_start l).

(** [b.trim_ascii()], on raw bytes: space, tab, LF, FF, CR. *)
Definition is_ascii_ws (b : byte) : bool := existsb (N.eqb (u8 b)) [9; 10; 12; 13; 32]%N.
Fixpoint drop_while {A} (p : A → bool) (l : list A) : list A :=
  match l with
  | [] => []
  | x :: l' => if p x then drop_while p l' else l
  end.
Definition trim_ascii (l : bytes) : bytes := rev (drop_while is_ascii_ws (rev (drop_while is_ascii_ws l))).

(** ** Numbers as text *)

Definition digit_value (radix : N) (b : byte) : option N :=
  let n := u8 b in
  let v := if is_digit b then Some (n - 48)%N
           else if in_range 97 122 b then Some (n - 87)%N
           else if in_range 65 90 b then Some (n - 55)%N
           else None in
  v ← v; if (v <? radix)%N then Some v else None.

(** Digits accumulated left to right, failing on overflow of [m]. *)
Fixpoint fold_digits (m radix acc : N) (l : bytes) : option N :=
  match l with
  | [] => Some acc
  | b :: l =>
      d ← digit_value radix b;
      acc ← checked_mul m acc radix;
      acc ← checked_add m acc d;
      fold_digits m radix acc l
  end.

(** [uN::from_str_radix(s, radix)] and, at radix 10, [s.parse::<uN>()]: one
    optional leading [+], at least one digit, no overflow. *)
Definition from_str_radix (m radix : N) (s : bytes) : option N :=
  let digits := match s with
                | c :: r => if decide (c = Byte.x2b) then r else s
                | [] => s
                end in
  match digits with [] => None | _ => fold_digits m radix 0 digits end.
Definition parse_usize (s : bytes) : option N := from_str_radix usize_max 10 s.

(** [n.to_string()] and [format!("{:X}", n)]. *)
Definition digit_char (d : N) : byte := byte_of (if (d <? 10)%N then d + 48 else d + 55).
Fixpoint digits_go (fuel : nat) (radix n : N) (acc : bytes) : bytes :=
  let acc' := digit_char (n mod radix) :: acc in
  match fuel with
  | 0 => acc'
  | S fuel => if (n <? radix)%N then acc' else digits_go fuel radix (n / radix) acc'
  end.
Definition to_digits (radix n : N) : bytes := digits_go (N.to_nat (N.size n)) radix n [].
Definition dec (n : N) : bytes := to_digits 10 n.
Definition hex_upper (n : N) : bytes := to_digits 16 n.
Definition u32_max : N := 2 ^ 32 - 1.
Definition hex_char (b : byte) : bool := is_digit b || in_range 65 70 b.

(** Big-endian words. *)
Definition be16 (n : N) : bytes := [byte_of (n / 256); byte_of n].
Definition be32 (n : N) : bytes :=
  [byte_of (n / 16777216); byte_of (n / 65536); byte_of (n / 256); byte_of n].
Definition of_be (l : bytes) : N := foldl (λ acc b, acc * 256 + u8 b)%N 0%N l.

(** ** [Result] *)

Inductive result (E A : Type) := Ok (a : A) | Err (e : E).
Arguments Ok {E A} a.
Arguments Err {E A} e.

#[export] Instance result_ret E : MRet (result E) := λ A, Ok.
#[export] Instance result_bind E : MBind (result E) := λ A B f m,
  match m with Ok a => f a | Err e => Err e end.
#[export] Instance result_fmap E : FMap (result E) := λ A B f m,
  match m with Ok a => Ok (f a) | Err e => Err e end.

Definition is_ok {E A} (r : result E A) : bool := match r with Ok _ => true | Err _ => false end.

(** [opt.ok_or(e)] and [res.map_err(f)]. *)
Definition ok_or {E A} (e : E) (o : option A) : result E A :=
  match o with Some a => Ok a | None => Err e end.
Definition map_err {E F A} (f : E → F) (r : result E A) : result F A :=
  match r with Ok a => Ok a | Err e => Err (f e) end.

(** [for x in xs { ... ? }]: the loop body on each element, stopping at the first error. *)
Fixpoint try_fold {E A B} (f : B → A → result E B) (acc : B) (xs : list A) : result E B :=
  match xs with
  | [] => Ok acc
  | x :: xs => acc ← f acc x; try_fold f acc xs
  end.

Definition bool_of_opt {A} (o : option A) : bool := match o with Some _ => true | None => false end.

(** A literal with [^] for the double quote, and lines of text. *)
Definition dq (s : String.string) : bytes := map (λ b, if bool_decide (b = Byte.x5e) then Byte.x22 else b) (bs s).
Arguments dq s%_string_scope.
Definition unlines (lines : list bytes) : bytes := concat (map (λ line, line ++ [LF]) lines).

(** ** Base64

    [base64]'s [STANDARD] engine, its round trip and its alphabet, are parameters. *)

Class Base64 := {
  b64_decode : bytes → option bytes;
  b64_encode : bytes → bytes;
}.
Class Base64Laws `{!Base64} : Prop := {
  b64_decode_encode l : b64_decode (b64_encode l) = Some l;
  b64_no_cr l : Forall (λ b, b ≠ CR) (b64_encode l);
}.

(** ** Words and lines *)

(** [s.find(char::is_whitespace)]. *)
Fixpoint find_whitespace (s : bytes) : option nat :=
  match s with
  | [] => None
  | _ :: s' => if bool_of_opt (ws_front s) then Some 0 else S <$> find_whitespace s'
  end.

(** [s.split_once(char::is_whitespace)]. *)
Definition split_once_ws (value : bytes) : option (bytes * bytes) :=
  i ← find_whitespace value;
  w ← ws_front (drop i value);
  Some (take i value, drop (i + w) value).
(** [s.split_whitespace()]. *)
Fixpoint words_go (fuel : nat) (s : bytes) : list bytes :=
  let s := trim_start s in
  match fuel, s with
  | 0, _ | _, [] => []
  | S fuel, _ =>
      match find_whitespace s with
      | Some i => take i s :: words_go fuel (drop i s)
      | None => [s]
      end
  end.
Definition words (s : bytes) : list bytes := words_go (S (length s)) s.

(** [s.lines()]: a carriage return goes only before a line feed. *)
Definition strip_cr (line : bytes) : bytes :=
  if bool_decide (last line = Some CR) then take (length line - 1) line else line.
Fixpoint lines_go (parts : list bytes) : list bytes :=
  match parts with
  | [] => []
  | [last] => if decide (last = []) then [] else [last]
  | line :: parts => strip_cr line :: lines_go parts
  end.
Definition str_lines (content : bytes) : list bytes := lines_go (split_byte LF content).

(** [s.split(sep).join(sep)]'s join. *)
Fixpoint join (sep : bytes) (ls : list bytes) : bytes :=
  match ls with
  | [] => []
  | [l] => l
  | l :: ls => l ++ sep ++ join sep ls
  end.

(** The scalar values of a string, as their encodings. *)
Fixpoint chars_go (fuel : nat) (s : bytes) : list bytes :=
  match s, fuel with
  | [], _ | _, 0 => []
  | _, S fuel =>
      let n := match utf8_step s with inl n => n | inr n => Nat.max 1 n end in
      take n s :: chars_go fuel (drop n s)
  end.
Definition chars (s : bytes) : list bytes := chars_go (length s) s.

Lemma bind_ok {E A B} (f : A → result E B) m b :
  (m ≫= f) = Ok b ↔ ∃ a, m = Ok a ∧ f a = Ok b.
Proof.
  destruct m as [a|e]; simpl; [|naive_solver].
  split; [by eauto|]. intros (a' & Ha & Hf). by injection Ha as ->.
Qed.

(** ** Automation *)

Create HintDb hodor discriminated.
#[export] Hint Constants Opaque : hodor.

(** Case analysis on the scrutinee of every [if] and [match] in sight. *)
Ltac case_all := repeat (case_match; simplify_eq/=).

(** Booleans built by [bool_decide], [andb], ... back to propositions. *)
Ltac to_prop :=
  repeat match goal with
  | H : bool_decide _ = true |- _ => apply bool_decide_eq_true_1 in H
  | H : bool_decide _ = false |- _ => apply bool_decide_eq_false_1 in H
  | H : _ && _ = true |- _ => apply andb_true_iff in H as [? ?]
  | H : _ && _ = false |- _ => apply andb_false_iff in H
  | H : _ || _ = true |- _ => apply orb_true_iff in H
  | H : _ || _ = false |- _ => apply orb_false_iff in H as [? ?]
  | H : negb _ = true |- _ => apply negb_true_iff in H
  | H : negb _ = false |- _ => apply negb_false_iff in H
  | H : (_ <=? _)%N = true |- _ => apply N.leb_le in H
  | H : (_ <=? _)%N = false |- _ => apply N.leb_gt in H
  | H : (_ <? _)%N = true |- _ => apply N.ltb_lt in H
  | H : (_ <? _)%N = false |- _ => apply N.ltb_ge in H
  | H : (_ =? _)%N = true |- _ => apply N.eqb_eq in H
  | H : (_ =? _)%N = false |- _ => apply N.eqb_neq in H
  | H : (_ <=? _) = true |- _ => apply Nat.leb_le in H
  | H : (_ <=? _) = false |- _ => apply Nat.leb_gt in H
  | H : (_ <? _) = true |- _ => apply Nat.ltb_lt in H
  | H : (_ <? _) = false |- _ => apply Nat.ltb_ge in H
  | H : (_ =? _) = true |- _ => apply Nat.eqb_eq in H
  | H : (_ =? _) = false |- _ => apply Nat.eqb_neq in H
  end.

(** ** Lemmas on slices *)

Section SliceLemmas.
Context {A : Type}.
Implicit Types (p : A → bool) (l : list A).

Lemma position_Some p l i :
  position p l = Some i ↔
  (∃ x, l !! i = Some x ∧ p x = true) ∧ ∀ j y, j < i → l !! j = Some y → p y = false.
Proof.
  revert i. induction l as [|x l IH]; intros i; simpl.
  { split; [done|]. by intros [(? & ? & ?) ?]. }
  destruct (p x) eqn:Hp.
  - split.
    + intros [= <-]. split; [by eauto|lia].
    + intros [(y & Hy & Hpy) Hlt]. destruct i as [|i]; [done|].
      specialize (Hlt 0 x). simpl in Hlt. rewrite Hlt in Hp; [done|lia|done].
  - rewrite fmap_Some. split.
    + intros (i' & Hi & ->). apply IH in Hi as [Hx Hlt]. split; [done|].
      intros [|j] y ? Hj; simplify_eq/=; [done|]. apply (Hlt j); [lia|done].
    + intros [(y & Hy & Hpy) Hlt]. destruct i as [|i]; simplify_eq/=; [congruence|].
      exists i. split; [|done]. apply IH. split; [by eauto|].
      intros j z ? Hj. apply (Hlt (S j)); [lia|done].
Qed.

Lemma position_None p l : position p l = None ↔ Forall (λ x, p x = false) l.
Proof.
  induction l as [|x l IH]; simpl; [by split|].
  rewrite Forall_cons. destruct (p x); [naive_solver|].
  rewrite fmap_None, IH. naive_solver.
Qed.

Lemma position_lt p l i : position p l = Some i → i < length l.
Proof. intros [(x & Hx & _) _]%position_Some. by eapply lookup_lt_Some. Qed.

Lemma take_app_le' n (l k : list A) : n ≤ length l → take n (l ++ k) = take n l.
Proof. intros. rewrite take_app, (proj2 (Nat.sub_0_le _ _)) by lia. by rewrite take_0, app_nil_r. Qed.

Lemma drop_app_le' n (l k : list A) : n ≤ length l → drop n (l ++ k) = drop n l ++ k.
Proof. intros. rewrite drop_app, (proj2 (Nat.sub_0_le _ _)) by lia. by rewrite drop_0. Qed.
End SliceLemmas.

Lemma starts_with_true hay needle : starts_with hay needle = true ↔ needle `prefix_of` hay.
Proof. apply bool_decide_eq_true. Qed.
Lemma starts_with_false hay needle : starts_with hay needle = false ↔ ¬ needle `prefix_of` hay.
Proof. apply bool_decide_eq_false. Qed.

Lemma prefix_take_iff (a l : bytes) : a `prefix_of` l ↔ take (length a) l = a.
Proof.
  split.
  - intros [k ->]. by rewrite take_app_length.
  - intros H. rewrite <- H. apply prefix_take.
Qed.

Lemma prefix_app_inv (a b c : bytes) : length a ≤ length b → a `prefix_of` b ++ c → a `prefix_of` b.
Proof. rewrite !prefix_take_iff. intros Hl H. by rewrite take_app_le' in H by done. Qed.

Lemma prefix_of_both (a b l : bytes) :
  length a ≤ length b → a `prefix_of` l → b `prefix_of` l → a `prefix_of` b.
Proof. intros Hl Ha [k ->]. by eapply prefix_app_inv. Qed.

Lemma prefix_drop_app (a l : bytes) : a `prefix_of` l → l = a ++ drop (length a) l.
Proof. intros [k ->]. by rewrite drop_app_length. Qed.

Lemma length_windows n data : length (windows n data) = S (length data) - n.
Proof.
  unfold windows. generalize (S (length data) - n) as k. intros k. revert data.
  induction k as [|k IH]; intros data; simpl; [done|]. by rewrite IH.
Qed.

Lemma windows_cons n b data : 0 < n → n ≤ S (length data) → windows n (b :: data) = take n (b :: data) :: windows n data.
Proof.
  intros Hn Hl. unfold windows. cbn [length].
  replace (S (S (length data)) - n) with (S (S (length data) - n)) by lia. done.
Qed.

Lemma windows_go_lookup k n data i :
  i < k → windows_go k n data !! i = Some (take n (drop i data)).
Proof.
  revert data i. induction k as [|k IH]; intros data i Hi; [lia|].
  destruct i as [|i]; simpl; [done|]. rewrite IH by lia. by rewrite drop_drop.
Qed.

Lemma windows_lookup n data i w :
  windows n data !! i = Some w ↔ i + n ≤ length data ∧ w = take n (drop i data) ∧ (0 < n ∨ i ≤ length data).
Proof.
  split.
  - intros H. pose proof (lookup_lt_Some _ _ _ H) as Hlt. rewrite length_windows in Hlt.
    unfold windows in H. rewrite windows_go_lookup in H by lia. simplify_eq. repeat split; lia.
  - intros (? & -> & ?). unfold windows. apply windows_go_lookup. lia.
Qed.

(** A window equal to a needle is an occurrence of the needle. *)
Lemma window_occurs needle data i :
  windows (length needle) data !! i = Some needle ↔
  i ≤ length data ∧ needle `prefix_of` drop i data.
Proof.
  rewrite windows_lookup, prefix_take_iff. split.
  - intros (? & ? & ?). split; [lia|done].
  - intros [Hi H]. assert (length needle ≤ length data - i).
    { rewrite <- H, length_take, length_drop. lia. }
    repeat split; [lia|done|]. lia.
Qed.

(** ** Lemmas on numerals *)

Lemma digits_go_nonempty fuel radix n acc : 0 < length (digits_go fuel radix n acc).
Proof.
  revert n acc. induction fuel as [|fuel IH]; intros n acc; simpl; [lia|].
  case_match; simpl; [lia|apply IH].
Qed.
Lemma dec_nonempty n : 0 < length (dec n).
Proof. apply digits_go_nonempty. Qed.

Lemma checked_mul_ok m a b : (a * b ≤ m)%N → checked_mul m a b = Some (a * b)%N.
Proof. intros. unfold checked_mul. by rewrite (proj2 (N.leb_le _ _)). Qed.
Lemma checked_add_ok m a b : (a + b ≤ m)%N → checked_add m a b = Some (a + b)%N.
Proof. intros. unfold checked_add. by rewrite (proj2 (N.leb_le _ _)). Qed.

Lemma digit_value_char radix d :
  (d < radix)%N → (radix ≤ 36)%N → digit_value radix (digit_char d) = Some d.
Proof.
  intros Hd Hr. unfold digit_value, digit_char, is_digit, in_range.
  rewrite u8_byte_of. destruct (N.ltb_spec d 10).
  - rewrite N.mod_small by lia.
    rewrite (proj2 (N.leb_le 48 (d + 48))), (proj2 (N.leb_le (d + 48) 57)) by lia. simpl.
    replace (d + 48 - 48)%N with d by lia. by rewrite (proj2 (N.ltb_lt _ _)) by lia.
  - rewrite N.mod_small by lia.
    rewrite (proj2 (N.leb_gt (d + 55) 57)) by lia. rewrite andb_false_r. simpl.
    rewrite (proj2 (N.leb_gt 97 (d + 55))) by lia. simpl.
    rewrite (proj2 (N.leb_le 65 (d + 55))), (proj2 (N.leb_le (d + 55) 90)) by lia. simpl.
    replace (d + 55 - 55)%N with d by lia. by rewrite (proj2 (N.ltb_lt _ _)) by lia.
Qed.

Lemma fold_digits_app m radix acc l k :
  fold_digits m radix acc (l ++ k) = acc' ← fold_digits m radix acc l; fold_digits m radix acc' k.
Proof.
  revert acc. induction l as [|b l IH]; intros acc; simpl; [done|].
  destruct (digit_value radix b); simpl; [|done].
  destruct (checked_mul m acc radix); simpl; [|done].
  destruct (checked_add m _ _); simpl; [apply IH|done].
Qed.

(** One more digit at the end of a numeral. *)
Lemma fold_digits_snoc m radix ds q d :
  (d < radix)%N → (radix ≤ 36)%N → (q * radix + d ≤ m)%N →
  fold_digits m radix 0 ds = Some q →
  fold_digits m radix 0 (ds ++ [digit_char d]) = Some (q * radix + d)%N.
Proof.
  intros Hd Hr Hm Hds. rewrite fold_digits_app, Hds. simpl.
  rewrite digit_value_char by done. simpl.
  rewrite checked_mul_ok by lia. simpl. by rewrite checked_add_ok by lia.
Qed.

(** The digits of [n] read back as [n]. *)
Lemma digits_go_spec fuel m radix n acc :
  (2 ≤ radix ≤ 36)%N → (n ≤ m)%N → (n < 2 ^ N.of_nat fuel)%N ∨ (n < radix)%N →
  ∃ ds, digits_go fuel radix n acc = ds ++ acc ∧ fold_digits m radix 0 ds = Some n.
Proof.
  intros Hr Hm. revert n acc Hm.
  assert (Hlast : ∀ n, (n ≤ m)%N → (n < radix)%N →
    fold_digits m radix 0 [digit_char (n mod radix)] = Some n).
  { intros n Hm Hn. rewrite N.mod_small by done.
    apply (fold_digits_snoc m radix [] 0 n); [lia..|done]. }
  induction fuel as [|fuel IH]; intros n acc Hm Hf.
  { exists [digit_char (n mod radix)]. split; [done|]. apply Hlast; [done|].
    destruct Hf as [Hf|Hf]; [change (2 ^ N.of_nat 0)%N with 1%N in Hf; lia|done]. }
  simpl. destruct (N.ltb_spec n radix) as [Hlt|Hge].
  { exists [digit_char (n mod radix)]. split; [done|]. by apply Hlast. }
  pose proof (N.div_mod n radix ltac:(lia)) as Hdm.
  pose proof (N.mod_lt n radix ltac:(lia)).
  assert (n / radix < 2 ^ N.of_nat fuel)%N.
  { destruct Hf as [Hf|]; [|lia]. apply N.Div0.div_lt_upper_bound.
    rewrite Nat2N.inj_succ, N.pow_succ_r' in Hf. nia. }
  assert (n / radix ≤ n)%N by (apply N.Div0.div_le_upper_bound; nia).
  destruct (IH (n / radix)%N (digit_char (n mod radix) :: acc)) as (ds & -> & Hds); [lia|auto|].
  exists (ds ++ [digit_char (n mod radix)]). split; [by rewrite <- app_assoc|].
  rewrite (fold_digits_snoc m radix ds (n / radix)) by (done || lia). f_equal. lia.
Qed.

(** [to_digits] and [from_str_radix] are inverse, at any width [n] fits in. *)
Lemma from_str_radix_to_digits m radix n :
  (2 ≤ radix ≤ 36)%N → (n ≤ m)%N → from_str_radix m radix (to_digits radix n) = Some n.
Proof.
  intros Hr Hm. unfold to_digits.
  destruct (digits_go_spec (N.to_nat (N.size n)) m radix n []) as (ds & E & Hds); [done|done| |].
  { left. rewrite N2Nat.id. apply N.size_gt. }
  pose proof (digits_go_nonempty (N.to_nat (N.size n)) radix n []) as Hne.
  rewrite E, app_nil_r in *. unfold from_str_radix.
  destruct ds as [|b ds]; [simpl in Hne; lia|].
  case_decide as Hb; [|done]. subst b. simpl in Hds.
  change (digit_value radix Byte.x2b) with (@None N) in Hds. done.
Qed.

(** A numeral is made of the digits of its radix. *)
Lemma to_digits_Forall (P : byte → Prop) radix n :
  (0 < radix)%N → (∀ d, (d < radix)%N → P (digit_char d)) → Forall P (to_digits radix n).
Proof.
  intros Hr HP. unfold to_digits. generalize (N.to_nat (N.size n)) as fuel. intros fuel.
  assert (Hd : ∀ k, P (digit_char (k mod radix))) by (intros k; apply HP, N.mod_lt; lia).
  generalize (Forall_nil_2 P). generalize (@nil byte) as acc.
  revert n. induction fuel as [|fuel IH]; intros n acc Hacc; simpl.
  - by constructor.
  - case_match; [by constructor|]. apply IH. by constructor.
Qed.

Lemma hex_digits n : Forall (λ b, hex_char b = true) (hex_upper n).
Proof.
  apply to_digits_Forall; [lia|]. intros d Hd. unfold hex_char, digit_char, is_digit, in_range. rewrite u8_byte_of.
  destruct (N.ltb_spec d 10); rewrite N.mod_small by lia; apply orb_true_iff; [left|right];
    apply andb_true_iff; split; apply N.leb_le; lia.
Qed.

Lemma dec_digits n : Forall (λ b, is_digit b = true) (dec n).
Proof.
  apply to_digits_Forall; [lia|]. intros d Hd. unfold digit_char, is_digit. rewrite (proj2 (N.ltb_lt _ _)) by lia.
  rewrite u8_byte_of, N.mod_small by lia. apply andb_true_iff. split; apply N.leb_le; lia.
Qed.
Lemma ws_front_digit b l : is_digit b = true → ws_front (b :: l) = None.
Proof. intros Hb. destruct b; try discriminate; reflexivity. Qed.
Lemma ws_back_digit b l : is_digit b = true → ws_back (l ++ [b]) = None.
Proof. intros Hb. unfold ws_back. rewrite rev_app_distr. cbn [rev app]. destruct b; try discriminate; reflexivity. Qed.

(** A number printed has no space at its ends, and loses the one before it. *)
Lemma trim_end_dec n : trim_end (dec n) = dec n.
Proof.
  pose proof (dec_digits n) as Hd. pose proof (dec_nonempty n) as Hne.
  destruct (dec n) as [|b l _] eqn:E using rev_ind; [simpl in Hne; lia|].
  apply Forall_app in Hd as [_ Hd]. apply Forall_cons in Hd as [Hb _]. unfold trim_end. rewrite length_app. cbn [length].
  rewrite Nat.add_1_r. cbn [trim_end_go]. by rewrite ws_back_digit.
Qed.
Lemma trim_dec n : trim (dec n) = dec n.
Proof.
  assert (trim_start (dec n) = dec n) as Hs; [|unfold trim; by rewrite Hs, trim_end_dec].
  pose proof (dec_digits n) as Hd. destruct (dec n) as [|b l]; [done|]. apply Forall_cons in Hd as [Hb _].
  unfold trim_start. cbn [length trim_start_go]. by rewrite ws_front_digit.
Qed.
Lemma trim_space_dec n : trim (bs " " ++ dec n) = dec n.
Proof.
  pose proof (dec_digits n) as Hd. pose proof (dec_nonempty n) as Hne. unfold trim.
  assert (trim_start (bs " " ++ dec n) = dec n) as ->; [|apply trim_end_dec].
  unfold trim_start. cbn [bs String.list_byte_of_string app length].
  destruct (dec n) as [|b l] eqn:E; [simpl in Hne; lia|]. apply Forall_cons in Hd as [Hb _].
  assert (∀ f, trim_start_go (S (S f)) (Byte.x20 :: b :: l) = b :: l) as Hgo; [|by apply Hgo].
  intros f. cbn [trim_start_go]. change (ws_front (_ :: b :: l)) with (Some 1). cbv iota beta. cbn [drop]. by rewrite (ws_front_digit b l Hb).
Qed.

Lemma parse_usize_dec n : (n ≤ usize_max)%N → parse_usize (dec n) = Some n.
Proof. intros. by apply from_str_radix_to_digits. Qed.

Lemma position_app {A} (p : A → bool) l k :
  Forall (λ x, p x = false) l → position p (l ++ k) = (λ i, length l + i) <$> position p k.
Proof.
  induction 1 as [|x l Hx _ IH]; simpl; [by destruct (position p k)|].
  rewrite Hx, IH. by destruct (position p k).
Qed.

(** The pieces of a split. *)
Lemma split_byte_nonempty sep l : split_byte sep l ≠ [].
Proof. destruct l as [|c l]; simpl; [done|]. repeat case_match; done. Qed.

Lemma split_byte_none sep l : Forall (λ b, b ≠ sep) l → split_byte sep l = [l].
Proof. induction 1 as [|b l Hb _ IH]; [done|]. cbn [split_byte]. rewrite decide_False by done. by rewrite IH. Qed.

(** The lines of a text. *)
Lemma split_byte_line l rest : LF ∉ l → split_byte LF (l ++ LF :: rest) = l :: split_byte LF rest.
Proof.
  induction l as [|b l IH]; intros Hl; cbn [app split_byte]; [by rewrite decide_True by done|].
  apply not_elem_of_cons in Hl as [Hb Hl]. rewrite decide_False by done. by rewrite IH.
Qed.

Lemma lines_go_cons l parts : parts ≠ [] → lines_go (l :: parts) = strip_cr l :: lines_go parts.
Proof. by destruct parts. Qed.

Lemma strip_cr_none l : CR ∉ l → strip_cr l = l.
Proof.
  intros Hl. unfold strip_cr. rewrite bool_decide_eq_false_2; [done|]. intros Hc. destruct Hl. apply last_Some in Hc as (l' & ->). set_solver.
Qed.

(** A text of lines without breaks has those lines. *)
Lemma str_lines_unlines ls : Forall (λ l, LF ∉ l ∧ CR ∉ l) ls → str_lines (unlines ls) = ls.
Proof.
  unfold str_lines, unlines. induction 1 as [|l ls [Hl Hc] _ IH]; [done|]. cbn [map concat].
  rewrite <- app_assoc. cbn [app]. rewrite split_byte_line by done.
  rewrite lines_go_cons; [by rewrite strip_cr_none, IH|apply split_byte_nonempty].
Qed.

(** Searching for a one-byte window is searching for the byte. *)
Lemma find_window_1 c l : find_window [c] l = position (λ x, bool_decide (x = c)) l.
Proof.
  unfold find_window, windows. replace (S (length l) - length [c]) with (length l) by (simpl; lia).
  induction l as [|x l IH]; [done|]. simpl.
  rewrite (bool_decide_ext ([x] = [c]) (x = c)) by naive_solver.
  destruct (bool_decide (x = c)); [done|]. f_equal. by rewrite <- IH.
Qed.

(** The first CRLF, when nothing before it holds a CR. *)
Lemma find_crlf_first l x : Forall (λ b, b ≠ CR) l → find_window crlf (l ++ crlf ++ x) = Some (length l).
Proof.
  unfold find_window. induction 1 as [|b l Hb _ IH]; cbn [app].
  - change (crlf ++ x) with (CR :: LF :: x). rewrite windows_cons by (simpl; lia). cbn [position].
    by rewrite bool_decide_eq_true_2.
  - rewrite windows_cons by (rewrite ?length_app; simpl; lia). cbn [position].
    rewrite bool_decide_eq_false_2 by (intros [=]; done). by rewrite IH.
Qed.

Lemma utf8_valid_ascii l : Forall (λ b, (u8 b < 128)%N) l → utf8_valid l = true.
Proof.
  unfold utf8_valid. induction 1 as [|b l Hb _ IH]; [done|].
  cbn [length utf8_valid_go utf8_step]. by rewrite (proj2 (N.ltb_lt _ _) Hb).
Qed.

Lemma utf8_lossy_valid l : utf8_valid l = true → utf8_lossy l = l.
Proof.
  unfold utf8_valid, utf8_lossy. generalize (length l) as fuel. intros fuel. revert l.
  induction fuel as [|fuel IH]; intros l Hv; destruct l as [|b l]; cbn [utf8_valid_go utf8_lossy_go] in *; try done.
  destruct (utf8_step (b :: l)) as [n|n]; [|done]. rewrite IH by done. apply take_drop.
Qed.

Lemma eq_ignore_case_spec a b :
  eq_ignore_case a b = true ↔ map ascii_lower a = map ascii_lower b.
Proof. apply bool_decide_eq_true. Qed.
Lemma eq_ignore_case_length a b : eq_ignore_case a b = true → length a = length b.
Proof.
  rewrite eq_ignore_case_spec. intros H%(f_equal length). by rewrite !length_map in H.
Qed.
Lemma eq_ignore_case_sym a b : eq_ignore_case a b = eq_ignore_case b a.
Proof. apply bool_decide_ext. naive_solver. Qed.

(** A fold that stops at the first error preserves what every step preserves. *)
Lemma try_fold_app {E A B} (f : B → A → result E B) acc xs ys :
  try_fold f acc (xs ++ ys) = (acc ← try_fold f acc xs; try_fold f acc ys).
Proof. revert acc. induction xs as [|x xs IH]; intros acc; simpl; [done|]. destruct (f acc x); simpl; [apply IH|done]. Qed.

Lemma try_fold_inv {E A B} (P : B → Prop) (f : B → A → result E B) xs acc r :
  (∀ b x b', x ∈ xs → P b → f b x = Ok b' → P b') →
  P acc → try_fold f acc xs = Ok r → P r.
Proof.
  revert acc. induction xs as [|x xs IH]; intros acc Hf Hacc; simpl.
  - by intros [= <-].
  - rewrite bind_ok. intros (b & Hb & Hr). apply (IH b); [|by eapply Hf; [left|..]|done].
    intros b0 y b1 Hy. apply Hf. by right.
Qed.

(** ** Lemmas on updated lists *)

(** [l[i]] where a length check put [i] in range. *)
Definition octet (l : bytes) (i : nat) : N := default 0%N (u8 <$> l !! i).

(** [remaining.min(l.len())] for a declared length and the bytes at hand. *)
Definition take_min (remaining : N) (l : bytes) : nat := N.to_nat (N.min remaining (N.of_nat (length l))).
Lemma take_min_le remaining l : take_min remaining l ≤ length l ∧ (N.of_nat (take_min remaining l) ≤ remaining)%N.
Proof. unfold take_min. lia. Qed.
Lemma take_min_rest remaining (rest : bytes) :
  (remaining - N.of_nat (take_min remaining rest) =? 0)%N = false → drop (take_min remaining rest) rest = [].
Proof. intros Hn%N.eqb_neq. apply drop_ge. unfold take_min in *. lia. Qed.

(** The record [m] with its field [f] set to [v]; [eta m] spells the record out. *)
Ltac set_field eta f m v :=
  let e := eval unfold eta in (eta m) in
  let p := eval pattern (f m) in e in
  match p with ?g _ => let r := eval cbv beta in (g v) in exact r end.

Lemma elem_of_insert {A} (l : list A) i x y : x ∈ <[i:=y]> l → x = y ∨ x ∈ l.
Proof.
  intros [j Hj]%list_elem_of_lookup. apply list_lookup_insert_Some in Hj as [(?&?&?)|[??]]; [by left|].
  right. by eapply list_elem_of_lookup_2.
Qed.

(** The sum of a measure over a list, one element updated. *)
Definition tally {A} (f : A → nat) (l : list A) : nat := sum_list (map f l).
Arguments tally : simpl never.

Lemma tally_insert {A} (f : A → nat) l i x y :
  l !! i = Some x → tally f (<[i:=y]> l) + f x = tally f l + f y.
Proof.
  unfold tally. revert i. induction l as [|z l IH]; intros [|i] H; simplify_eq/=; [lia|].
  specialize (IH i H). unfold sum_list in *. simpl in *. lia.
Qed.

Lemma tally_le {A} (f : A → nat) l : (∀ x, f x ≤ 1) → tally f l ≤ length l.
Proof.
  intros Hf. unfold tally. induction l as [|x l IH]; simpl; [lia|].
  specialize (Hf x). unfold sum_list in *. lia.
Qed.

(** ** Big-endian words *)

Lemma of_be_snoc l b : of_be (l ++ [b]) = (of_be l * 256 + u8 b)%N.
Proof. unfold of_be. by rewrite foldl_app. Qed.

Lemma be_digit n : (n / 256 * 256 + u8 (byte_of n) = n)%N.
Proof. rewrite u8_byte_of. pose proof (N.div_mod n 256 ltac:(lia)). lia. Qed.

Lemma of_be_be32 n : (n < 2 ^ 32)%N → of_be (be32 n) = n.
Proof.
  intros Hn. unfold be32.
  change [byte_of (n / 16777216); byte_of (n / 65536); byte_of (n / 256); byte_of n] with
    (((([] ++ [byte_of (n / 16777216)]) ++ [byte_of (n / 65536)]) ++ [byte_of (n / 256)]) ++ [byte_of n]).
  rewrite !of_be_snoc. change (of_be []) with 0%N. rewrite N.mul_0_l, N.add_0_l.
  assert (u8 (byte_of (n / 16777216)) = n / 65536 / 256)%N as ->.
  { rewrite u8_byte_of, N.mod_small by (apply N.Div0.div_lt_upper_bound; lia). by rewrite N.Div0.div_div. }
  rewrite be_digit. replace (n / 65536)%N with (n / 256 / 256)%N by (by rewrite N.Div0.div_div). by rewrite !be_digit.
Qed.

Lemma be_cons n b : (byte_of ((n * 256 + u8 b) / 256) = byte_of n ∧ byte_of (n * 256 + u8 b) = b)%N.
Proof.
  pose proof (u8_lt b). split.
  - rewrite N.div_add_l, (N.div_small (u8 b)), N.add_0_r by lia. done.
  - unfold byte_of at 1. rewrite N.add_comm, N.Div0.mod_add. apply byte_of_u8.
Qed.

Lemma be32_of_be l : length l = 4 → be32 (of_be l) = l.
Proof.
  intros Hl. destruct l as [|a [|b [|c [|d [|]]]]]; try done. unfold be32.
  change [a; b; c; d] with ((([a] ++ [b]) ++ [c]) ++ [d]). rewrite !of_be_snoc. set (n := of_be [a]).
  change 16777216%N with (256 * 65536)%N. change 65536%N with (256 * 256)%N.
  rewrite <- !N.Div0.div_div.
  assert (∀ m x, ((m * 256 + u8 x) / 256 = m)%N) as Hd.
  { intros m x. pose proof (u8_lt x). rewrite N.div_add_l, N.div_small, N.add_0_r by lia. done. }
  rewrite !Hd, !(proj2 (be_cons _ _)). cbn [app]. do 3 f_equal.
  unfold n, of_be. cbn [foldl]. rewrite N.mul_0_l, N.add_0_l. by rewrite byte_of_u8.
Qed.

Lemma of_be_lt l : (of_be l < 256 ^ N.of_nat (length l))%N.
Proof.
  induction l as [|b l IH] using rev_ind; [done|]. rewrite of_be_snoc, length_app. cbn [length].
  pose proof (u8_lt b). rewrite Nat.add_1_r, Nat2N.inj_succ, N.pow_succ_r'. lia.
Qed.

Lemma of_be_be16 n : (n < 65536)%N → of_be (be16 n) = n.
Proof.
  intros Hn. unfold be16. change [byte_of (n / 256); byte_of n] with (([] ++ [byte_of (n / 256)]) ++ [byte_of n]).
  rewrite !of_be_snoc. change (of_be []) with 0%N. rewrite N.mul_0_l, N.add_0_l.
  rewrite (u8_byte_of (n / 256)), N.mod_small by (apply N.Div0.div_lt_upper_bound; lia). apply be_digit.
Qed.

Lemma be16_of_be l : length l = 2 → be16 (of_be l) = l.
Proof.
  intros Hl. destruct l as [|a [|b [|]]]; try done. unfold be16.
  change [a; b] with ([a] ++ [b]). rewrite of_be_snoc, !(proj1 (be_cons _ _)), (proj2 (be_cons _ _)).
  unfold of_be. cbn [foldl app]. rewrite N.mul_0_l, N.add_0_l. by rewrite byte_of_u8.
Qed.
