(* ===== verification/Decoy.v ===== *)
(** * Decoys

    [crates/hodor-config/src/config.rs], the decoy half: pattern templates,
    their validation, and the deterministic fake rendered from a seed. The
    hash and the two text encodings come from other crates ([sha2], [hex],
    [base62]) and are the operations of the class [Digests]; what the
    rendering relies on about them is [DigestLaws]. *)

From S2P Require Import Prelude.

Class Digests := {
  sha256 : bytes → bytes;
  hex_encode : bytes → bytes;
  base62_encode : N → bytes;
}.

(** Documented behaviour of the three crates: a SHA-256 digest is 32 bytes,
    hex is two characters per byte, base62 of a number is never empty. *)
Class DigestLaws `{!Digests} : Prop := {
  sha256_length m : length (sha256 m) = 32;
  hex_encode_length l : length (hex_encode l) = 2 * length l;
  base62_encode_nonempty n : 0 < length (base62_encode n);
}.

Section Decoy.
Context `{!Digests}.

Definition DEFAULT_PATTERN : bytes := bs "{hex:32}".
Definition MAX_PATTERN_COUNT : N := 4096.

Definition open_brace : byte := Byte.x7b.
Definition close_brace : byte := Byte.x7d.
Definition is_byte (b c : byte) : bool := bool_decide (c = b).

(** A validated fake-template encoding. *)
Inductive Encoding := Hex | Decimal | Base62.

Definition Encoding_parse (kind : bytes) : option Encoding :=
  if bool_decide (kind = bs "hex") then Some Hex
  else if bool_decide (kind = bs "d") then Some Decimal
  else if bool_decide (kind = bs "base62") then Some Base62
  else None.

Definition Encoding_tag (e : Encoding) : bytes :=
  match e with Hex => bs "hex" | Decimal => bs "d" | Base62 => bs "base62" end.

(** One round of the fill loop: the text digest number [index] contributes. *)
Definition fill_round (seed : bytes) (e : Encoding) (index : N) : bytes :=
  let digest := sha256 (seed ++ bs ":" ++ Encoding_tag e ++ bs ":" ++ dec index) in
  match e with
  | Hex => hex_encode digest
  | Decimal =>
      dec (if 4 <=? length digest then of_be (take 4 digest) else 0%N)
  | Base62 =>
      base62_encode (if 16 <=? length digest then of_be (take 16 digest) else 0%N)
  end.

(** [while out.len() < count]; [None] when the fuel does not suffice. *)
Fixpoint fill_go (fuel : nat) (seed : bytes) (e : Encoding) (count : nat) (index : N) (out : bytes)
    : option bytes :=
  if length out <? count then
    match fuel with
    | 0 => None
    | S fuel => fill_go fuel seed e count (index + 1) (out ++ fill_round seed e index)
    end
  else Some out.

Definition fill_encoding (seed : bytes) (e : Encoding) (count : nat) : bytes :=
  take count (default [] (fill_go count seed e count 0 [])).

(** The encoding and count of one [{...}] body, when it is a known one. *)
Definition segment (body : bytes) : option (Encoding * N) :=
  match split_once (bs ":") body with
  | Some (kind, count_raw) =>
      if negb (bool_decide (count_raw = [])) && forallb is_digit count_raw then
        match Encoding_parse kind, parse_usize count_raw with
        | Some e, Some count => if (count <=? MAX_PATTERN_COUNT)%N then Some (e, count) else None
        | _, _ => None
        end
      else None
  | None => None
  end.

Fixpoint render_go (fuel : nat) (seed out rest : bytes) : option bytes :=
  match position (is_byte open_brace) rest with
  | None => Some (out ++ rest)
  | Some open =>
      match fuel with
      | 0 => None
      | S fuel =>
          let out := out ++ take open rest in
          let after := drop (open + 1) rest in
          match position (is_byte close_brace) after with
          | None => Some (out ++ drop open rest)
          | Some close =>
              let body := take close after in
              let piece := match segment body with
                           | Some (e, count) => fill_encoding seed e (N.to_nat count)
                           | None => [open_brace] ++ body ++ [close_brace]
                           end in
              render_go fuel seed (out ++ piece) (drop (close + 1) after)
          end
      end
  end.

Definition render_template (template seed : bytes) : bytes :=
  default [] (render_go (length template) seed [] template).

Definition fake_for (seed : bytes) (pattern : option bytes) : bytes :=
  let template := match pattern with
                  | Some p => if bool_decide (p = []) then DEFAULT_PATTERN else p
                  | None => DEFAULT_PATTERN
                  end in
  render_template template (hex_encode (sha256 seed)).

(** [validate_pattern]: every [{...}] names a known encoding with a nonzero count. *)
Definition segment_valid (body : bytes) : bool :=
  match split_once (bs ":") body with
  | Some (kind, count) =>
      bool_decide (is_Some (Encoding_parse kind)) &&
      (negb (bool_decide (count = [])) && forallb is_digit count) &&
      match parse_usize count with Some n => (0 <? n)%N | None => false end
  | None => false
  end.

Fixpoint validate_go (fuel : nat) (rest : bytes) : result bytes () :=
  match position (is_byte open_brace) rest with
  | None => Ok ()
  | Some open =>
      match fuel with
      | 0 => Err []
      | S fuel =>
          let after := drop (open + 1) rest in
          match position (is_byte close_brace) after with
          | None => Err (bs "unclosed `{`")
          | Some close =>
              let body := take close after in
              if segment_valid body then validate_go fuel (drop (close + 1) after)
              else Err (bs "bad encoding `{" ++ body ++
                        bs "}`: expected {hex:N}, {d:N}, or {base62:N} with N > 0")
          end
      end
  end.
Definition validate_pattern (pattern : bytes) : result bytes () := validate_go (length pattern) pattern.

End Decoy.

(** ** Properties *)

Section DecoyProperties.
Context `{!Digests, !DigestLaws}.

Lemma fill_round_nonempty seed e index : 0 < length (fill_round seed e index).
Proof.
  unfold fill_round. destruct e; simpl.
  - rewrite hex_encode_length, sha256_length. lia.
  - apply dec_nonempty.
  - apply base62_encode_nonempty.
Qed.

Lemma fill_go_enough fuel seed e count index out :
  count ≤ length out + fuel →
  ∃ r, fill_go fuel seed e count index out = Some r ∧ count ≤ length r ∧ out `prefix_of` r.
Proof.
  revert index out. induction fuel as [|fuel IH]; intros index out Hf; simpl.
  - rewrite (proj2 (Nat.ltb_ge _ _)) by lia. exists out. repeat split; [lia|done].
  - destruct (Nat.ltb_spec (length out) count).
    + destruct (IH (index + 1)%N (out ++ fill_round seed e index)) as (r & -> & ? & Hr).
      { rewrite length_app. pose proof (fill_round_nonempty seed e index). lia. }
      exists r. repeat split; [done|]. etrans; [|exact Hr]. by eexists.
    + exists out. repeat split; [lia|done].
Qed.

(** The fill loop ends and renders exactly [count] characters. *)
Lemma length_fill_encoding seed e count : length (fill_encoding seed e count) = count.
Proof.
  unfold fill_encoding. destruct (fill_go_enough count seed e count 0 []) as (r & -> & ? & _).
  { simpl. lia. } simpl. rewrite length_take. lia.
Qed.

(** What a template renders to, as a relation: text without [{] is literal, a
    known [{kind:count}] becomes [count] characters of its encoding, any other
    [{...}] and an unclosed [{] stay as written. *)
Inductive renders (seed : bytes) : bytes → bytes → Prop :=
| renders_literal rest :
    position (is_byte open_brace) rest = None → renders seed rest rest
| renders_unclosed rest open :
    position (is_byte open_brace) rest = Some open →
    position (is_byte close_brace) (drop (open + 1) rest) = None →
    renders seed rest rest
| renders_segment rest open close body e count tail :
    position (is_byte open_brace) rest = Some open →
    position (is_byte close_brace) (drop (open + 1) rest) = Some close →
    body = take close (drop (open + 1) rest) →
    segment body = Some (e, count) →
    renders seed (drop (close + 1) (drop (open + 1) rest)) tail →
    renders seed rest (take open rest ++ fill_encoding seed e (N.to_nat count) ++ tail)
| renders_unknown rest open close body tail :
    position (is_byte open_brace) rest = Some open →
    position (is_byte close_brace) (drop (open + 1) rest) = Some close →
    body = take close (drop (open + 1) rest) →
    segment body = None →
    renders seed (drop (close + 1) (drop (open + 1) rest)) tail →
    renders seed rest (take open rest ++ ([open_brace] ++ body ++ [close_brace]) ++ tail).

Lemma render_go_renders fuel seed out rest :
  length rest ≤ fuel →
  ∃ r, render_go fuel seed out rest = Some (out ++ r) ∧ renders seed rest r.
Proof.
  revert out rest. induction fuel as [|fuel IH]; intros out rest Hf.
  { destruct rest; [|simpl in Hf; lia]. exists []. by split; [|apply renders_literal]. }
  simpl. destruct (position (is_byte open_brace) rest) as [open|] eqn:Ho.
  2: { exists rest. by split; [|apply renders_literal]. }
  pose proof (position_lt _ _ _ Ho).
  destruct (position (is_byte close_brace) (drop (open + 1) rest)) as [close|] eqn:Hc.
  2: { exists rest. split; [|by eapply renders_unclosed].
       by rewrite <- app_assoc, take_drop. }
  destruct (segment (take close (drop (open + 1) rest))) as [[e count]|] eqn:Hs.
  - edestruct IH as (r' & -> & Hr); [rewrite !length_drop; lia|].
    eexists; split; [by rewrite <- !app_assoc|]. by eapply renders_segment.
  - edestruct IH as (r' & -> & Hr); [rewrite !length_drop; lia|].
    eexists; split; [by rewrite <- !app_assoc|].
    by eapply (renders_unknown _ _ _ _ _ _ Ho Hc eq_refl Hs Hr).
Qed.

(** The renderer ends on every template and does what [renders] says. *)
Lemma render_template_renders template seed : renders seed template (render_template template seed).
Proof.
  unfold render_template.
  destruct (render_go_renders (length template) seed [] template) as (r & -> & ?); done.
Qed.

(** The template [{hex:n}], which the raw-TCP fallback builds. *)
Definition hex_template (n : N) : bytes := bs "{hex:" ++ dec n ++ bs "}".

Lemma hex_template_body n :
  position (is_byte open_brace) (hex_template n) = Some 0 ∧
  position (is_byte close_brace) (drop 1 (hex_template n)) = Some (4 + length (dec n)) ∧
  take (4 + length (dec n)) (drop 1 (hex_template n)) = bs "hex:" ++ dec n ∧
  drop (4 + length (dec n) + 1) (drop 1 (hex_template n)) = [].
Proof.
  unfold hex_template. repeat split.
  - simpl. rewrite position_app; simpl; [by rewrite Nat.add_0_r|].
    eapply Forall_impl; [apply dec_digits|]. intros b Hb. simpl. unfold is_byte.
    apply bool_decide_eq_false. by intros ->.
  - simpl. by rewrite take_app_length.
  - apply drop_ge. simpl. rewrite length_app. simpl. lia.
Qed.

Lemma segment_hex n :
  (n ≤ usize_max)%N →
  segment (bs "hex:" ++ dec n) = if (n <=? MAX_PATTERN_COUNT)%N then Some (Hex, n) else None.
Proof.
  intros Hn. unfold segment, split_once. change (bs ":") with [Byte.x3a].
  rewrite find_window_1. simpl. rewrite drop_0.
  rewrite bool_decide_eq_false_2; simpl.
  2: { intros E. pose proof (dec_nonempty n) as Hne. rewrite E in Hne. simpl in Hne. lia. }
  replace (forallb is_digit (dec n)) with true.
  2: { symmetry. apply forallb_forall. intros b Hb. apply list_elem_of_In in Hb.
       by apply (proj1 (Forall_forall _ _) (dec_digits n)). }
  by rewrite parse_usize_dec.
Qed.

(** The fallback template renders exactly [n] characters up to the cap ... *)
Lemma length_fake_for_hex seed n :
  (n ≤ MAX_PATTERN_COUNT)%N → length (fake_for seed (Some (hex_template n))) = N.to_nat n.
Proof.
  intros Hn. unfold MAX_PATTERN_COUNT in Hn. unfold fake_for.
  rewrite bool_decide_eq_false_2 by done.
  destruct (hex_template_body n) as (Ho & Hc & Hb & Ht).
  pose proof (render_template_renders (hex_template n) (hex_encode (sha256 seed))) as Hr.
  revert Hr. generalize (render_template (hex_template n) (hex_encode (sha256 seed))) as r.
  intros r Hr. inversion Hr as [? Ho'|? open Ho' Hc'|? open close body e count tail Ho' Hc' Hb' Hs Hr'
    |? open close body tail Ho' Hc' Hb' Hs Hr']; simplify_eq; change (0 + 1) with 1 in *; simplify_eq.
  all: rewrite Hb, segment_hex in Hs by (unfold usize_max; lia).
  all: rewrite (proj2 (N.leb_le _ _)) in Hs by (unfold MAX_PATTERN_COUNT; lia); simplify_eq.
  rewrite Ht in Hr'. inversion Hr'; simplify_eq/=.
  by rewrite app_nil_r, length_fill_encoding.
Qed.

(** ... and past the cap it is left as written. *)
Lemma fake_for_hex_over_cap seed n :
  (MAX_PATTERN_COUNT < n ≤ usize_max)%N → fake_for seed (Some (hex_template n)) = hex_template n.
Proof.
  intros Hn. unfold MAX_PATTERN_COUNT in Hn. unfold fake_for.
  rewrite bool_decide_eq_false_2 by done.
  destruct (hex_template_body n) as (Ho & Hc & Hb & Ht).
  pose proof (render_template_renders (hex_template n) (hex_encode (sha256 seed))) as Hr.
  revert Hr. generalize (render_template (hex_template n) (hex_encode (sha256 seed))) as r.
  intros r Hr. inversion Hr as [? Ho'|? open Ho' Hc'|? open close body e count tail Ho' Hc' Hb' Hs Hr'
    |? open close body tail Ho' Hc' Hb' Hs Hr']; simplify_eq; change (0 + 1) with 1 in *; simplify_eq.
  all: rewrite Hb, segment_hex in Hs by lia.
  all: rewrite (proj2 (N.leb_gt _ _)) in Hs by (unfold MAX_PATTERN_COUNT; lia); simplify_eq.
  rewrite Ht in Hr'. inversion Hr'; simplify_eq/=.
  rewrite Hb. unfold hex_template. simpl. rewrite <- app_assoc. by rewrite app_nil_r.
Qed.
End DecoyProperties.

(** ** A concrete instance

    A digest that keeps the message's first 32 bytes, plain hex, and decimal
    in place of base62: enough to evaluate the definitions on an input. *)
Definition hex_digit (n : N) : byte := byte_of (if (n <? 10)%N then n + 48 else n + 87).
Definition sample_digests : Digests := {|
  sha256 := λ m, take 32 (m ++ replicate 32 Byte.x00);
  hex_encode := flat_map (λ b, [hex_digit (u8 b / 16); hex_digit (u8 b mod 16)]);
  base62_encode := dec;
|}.

Lemma sample_digest_laws : @DigestLaws sample_digests.
Proof.
  split; cbn [sha256 hex_encode base62_encode sample_digests].
  - intros m. rewrite length_take, length_app, length_replicate. lia.
  - intros l. induction l as [|b l IH]; simpl; [done|]. rewrite IH. lia.
  - apply dec_nonempty.
Qed.
