(* ===== verification/Grants.v ===== *)
(** * Grants

    [crates/hodor-config/src/grants/mod.rs]: host patterns, [allow] entries,
    grants and how a destination matches one, and the collection of rules
    into grants ([crates/hodor-config/src/config.rs] holds the rule table). *)

From S2P Require Import Prelude Decoy ConnString.

(** ** Host patterns *)

Inductive HostPat := Exact (h : bytes) | Wildcard (p : bytes) | Any.
#[export] Instance HostPat_eq_dec : EqDecision HostPat.
Proof. solve_decision. Defined.

Definition star_dot : bytes := bs "*.".

Definition HostPat_matches (pat : HostPat) (hostname : bytes) : bool :=
  match pat with
  | Exact h => eq_ignore_case hostname h
  | Wildcard pattern =>
      match strip_prefix star_dot pattern with
      | Some suffix =>
          (length suffix + 1 <? length hostname) &&
          bool_decide (hostname !! (length hostname - length suffix - 1) = Some Byte.x2e) &&
          eq_ignore_case (drop (length hostname - length suffix) hostname) suffix
      | None => eq_ignore_case hostname pattern
      end
  | Any => true
  end.

Definition HostPat_from_str (host : bytes) : HostPat :=
  if bool_decide (host = bs "*") then Any
  else if starts_with host star_dot then Wildcard host
  else Exact host.

(** ** Credentials, scopes, grants *)

Record Credential := {
  cr_label : bytes;
  cr_fake : bytes;
  cr_value : bytes;
}.

Record EndpointScope := {
  es_scheme : Scheme;
  es_host : HostPat;
  es_port : N;
  es_client_cert : option bytes;
  es_client_key : option bytes;
  es_root_cert : option bytes;
  es_guest_tls : GuestTlsMode;
}.

Record SshScope := {
  ss_host : HostPat;
  ss_port : N;
  ss_identity : bytes;
  ss_guest_key : bytes;
}.

(** [registry.rs]: the OAuth2 flow an entry declares. *)
Inductive FlowKind := ClientCredentials | AuthorizationCode | Refresh.

Record OAuthFlow := {
  of_flow : FlowKind;
  of_token_url : bytes;
  of_authorize_url : option bytes;
  of_refresh_url : option bytes;
  of_rotates_refresh : bool;
  of_token_fields : list bytes;
}.

Definition OAuthFlow_fields (f : OAuthFlow) : list bytes :=
  [bs "access_token"] ++
  (if (match of_flow f with AuthorizationCode => true | _ => false end) || of_rotates_refresh f
   then [bs "refresh_token"] else []).

Inductive Grant :=
| GToken (credential : Credential) (allow : list EndpointScope) (pattern : option bytes)
         (oauth2 : option OAuthFlow)
| GPostgres (credential : Credential) (scope : PostgresScope)
| GRedis (credential : Credential) (scope : RedisScope)
| GSsh (allow : list SshScope).

Definition Grant_credential (g : Grant) : option Credential :=
  match g with
  | GToken c _ _ _ | GPostgres c _ | GRedis c _ => Some c
  | GSsh _ => None
  end.

Definition host_port_match (pat : HostPat) (entry_port : N) (host : bytes) (port : N) : bool :=
  (entry_port =? port)%N && HostPat_matches pat host.

Definition endpoint_match (entry : EndpointScope) (scheme : Scheme) (host : bytes) (port : N) : bool :=
  bool_decide (es_scheme entry = scheme) && host_port_match (es_host entry) (es_port entry) host port.

Definition ssh_match (entry : SshScope) (scheme : Scheme) (host : bytes) (port : N) : bool :=
  bool_decide (scheme = SSsh) && (ss_port entry =? port)%N && HostPat_matches (ss_host entry) host.

Definition Grant_matches (g : Grant) (scheme : Scheme) (host : bytes) (port : N) : bool :=
  match g with
  | GToken _ allow _ _ => existsb (λ e, endpoint_match e scheme host port) allow
  | GPostgres _ scope => PostgresScope_matches scope scheme host port
  | GRedis _ scope => RedisScope_matches scope scheme host port
  | GSsh allow => existsb (λ e, ssh_match e scheme host port) allow
  end.

(** [host.is_none_or(p)]. *)
Definition is_none_or {A} (p : A → bool) (o : option A) : bool :=
  match o with Some a => p a | None => true end.

Definition Grant_endpoint (g : Grant) (scheme : Scheme) (host : option bytes) (port : N) : option EndpointScope :=
  match g with
  | GToken _ allow _ _ =>
      find (λ e, bool_decide (es_scheme e = scheme) && (es_port e =? port)%N &&
                 is_none_or (HostPat_matches (es_host e)) host) allow
  | _ => None
  end.

Definition Grant_postgres (g : Grant) (host : option bytes) (port : N) : option PostgresScope :=
  match g with
  | GPostgres _ scope =>
      if (pg_port (pg_downstream scope) =? port)%N &&
         is_none_or (eq_ignore_case (pg_host (pg_downstream scope))) host
      then Some scope else None
  | _ => None
  end.

Definition Grant_redis (g : Grant) (host : option bytes) (port : N) : option RedisScope :=
  match g with
  | GRedis _ scope =>
      if (rd_port (rd_downstream scope) =? port)%N &&
         is_none_or (eq_ignore_case (rd_host (rd_downstream scope))) host
      then Some scope else None
  | _ => None
  end.

Definition Grant_ssh (g : Grant) (host : option bytes) (port : N) : option SshScope :=
  match g with
  | GSsh allow =>
      find (λ e, (ss_port e =? port)%N && is_none_or (HostPat_matches (ss_host e)) host) allow
  | _ => None
  end.

(** [plugins.rs]: which legs a plugin rewrites. *)
Inductive PluginDirection := PdBoth | PdRequest | PdResponse.

(** Plugins match over raw parsed entries. *)
Definition uri_match (allow : list EndpointScope) (scheme : Scheme) (host : bytes) (port : N) : bool :=
  existsb (λ e, endpoint_match e scheme host port) allow.

(** ** Parsing one [allow] entry *)

Definition bad_entry (entry what : bytes) : bytes :=
  bs "bad allow entry `" ++ entry ++ bs "`: " ++ what.

(** The accumulators of [reject_endpoint_query]'s loop. *)
Record QuerySeen := {
  qs_negotiation : SslNegotiation;
  qs_root_cert : bool;
  qs_client_cert : bool;
  qs_client_key : bool;
  qs_ssl : bool;
}.

Definition reject_query_pair (entry : bytes) (q : QuerySeen) (kv : bytes * bytes) : result bytes QuerySeen :=
  let '(key, value) := kv in
  if bool_decide (key = bs "sslmode") || bool_decide (key = bs "ssl") then
    match ssl_mode_of value with
    | Some _ => Ok {| qs_negotiation := qs_negotiation q; qs_root_cert := qs_root_cert q;
                      qs_client_cert := qs_client_cert q; qs_client_key := qs_client_key q; qs_ssl := true |}
    | None => Err (bad_entry entry (bs "sslmode is disable, allow, prefer, require, verify-ca or verify-full"))
    end
  else if bool_decide (key = bs "sslnegotiation") then
    match negotiation_of value with
    | Some n => Ok {| qs_negotiation := n; qs_root_cert := qs_root_cert q;
                      qs_client_cert := qs_client_cert q; qs_client_key := qs_client_key q; qs_ssl := qs_ssl q |}
    | None => Err (bad_entry entry (bs "sslnegotiation is postgres or direct"))
    end
  else if bool_decide (key = bs "sslrootcert") then
    if bool_decide (value = []) then Err (bad_entry entry (bs "sslrootcert needs a path"))
    else Ok {| qs_negotiation := qs_negotiation q; qs_root_cert := true;
               qs_client_cert := qs_client_cert q; qs_client_key := qs_client_key q; qs_ssl := qs_ssl q |}
  else if bool_decide (key = bs "sslcert") then
    if bool_decide (value = []) then Err (bad_entry entry (bs "sslcert needs a path"))
    else Ok {| qs_negotiation := qs_negotiation q; qs_root_cert := qs_root_cert q;
               qs_client_cert := true; qs_client_key := qs_client_key q; qs_ssl := qs_ssl q |}
  else if bool_decide (key = bs "sslkey") then
    if bool_decide (value = []) then Err (bad_entry entry (bs "sslkey needs a path"))
    else Ok {| qs_negotiation := qs_negotiation q; qs_root_cert := qs_root_cert q;
               qs_client_cert := qs_client_cert q; qs_client_key := true; qs_ssl := qs_ssl q |}
  else Err (bad_entry entry (bs "unknown query `" ++ key ++ bs "`")).

Section Entries.
Context `{!UrlCrate}.

Definition reject_endpoint_query (entry : bytes) (url : Url) : result bytes () :=
  q ← try_fold (reject_query_pair entry)
        {| qs_negotiation := NegPostgres; qs_root_cert := false; qs_client_cert := false;
           qs_client_key := false; qs_ssl := false |} (url_query_pairs url);
  if xorb (qs_client_cert q) (qs_client_key q) then Err (bad_entry entry (bs "sslcert and sslkey come together"))
  else if negb (bool_decide (url_username url = [])) then Err (bad_entry entry (bs "userinfo is postgres-only"))
  else
    match strip_prefix slash (url_path url) with
    | Some (c :: p) => Err (bad_entry entry (bs "paths are postgres-only, found `/" ++ (c :: p) ++ bs "`"))
    | _ =>
        if qs_ssl q then Err (bad_entry entry (bs "sslmode is postgres-only"))
        else if negb (bool_decide (qs_negotiation q = NegPostgres)) then
          Err (bad_entry entry (bs "sslnegotiation is postgres-only"))
        else if qs_root_cert q then Err (bad_entry entry (bs "sslrootcert is postgres-only"))
        else if qs_client_cert q || qs_client_key q then
          Err (bad_entry entry (bs "sslcert and sslkey are postgres-only"))
        else Ok ()
    end.

Definition entry_scheme (entry : bytes) (s : bytes) : result bytes Scheme :=
  if bool_decide (s = bs "http") then Ok Http
  else if bool_decide (s = bs "https") then Ok Https
  else if bool_decide (s = bs "tcp") then Ok Tcp
  else if bool_decide (s = bs "ssh") then Ok SSsh
  else if bool_decide (s = bs "postgres") || bool_decide (s = bs "redis") || bool_decide (s = bs "rediss") then
    Err (bad_entry entry
      (bs "database rules state no allow entries — the connection string is the grant"))
  else Err (bs "unknown scheme `" ++ s ++ bs "`").

(** The text of a parsed host, unbracketed. *)
Definition host_text (h : Host) : bytes :=
  match h with Domain d => d | Ipv4 a => a | Ipv6 a => a end.

Definition entry_host (entry : bytes) (wildcard : bool) (parsed_host : bytes) : result bytes HostPat :=
  if wildcard then
    let tail := default parsed_host (strip_prefix (bs "w") parsed_host) in
    if bool_decide (tail = []) then Ok Any
    else if starts_with tail (bs ".") && (1 <? length tail) then Ok (Wildcard (bs "*" ++ tail))
    else Err (bad_entry entry (bs "`*` only leads `*` or `*.suffix`"))
  else Ok (Exact parsed_host).

Definition entry_port (port : option N) (scheme : Scheme) : result bytes N :=
  match port, scheme with
  | Some p, _ => Ok p
  | None, Http => Ok 80%N
  | None, Https => Ok 443%N
  | None, Tcp => Err (bs "tcp grant requires an explicit port")
  | None, SPostgres => Ok 5432%N
  | None, (SRedis | SRediss) => Ok 6379%N
  | None, SSsh => Ok 22%N
  end.

Definition EndpointScope_from_str (entry : bytes) : result bytes EndpointScope :=
  '(scheme_raw, rest) ← ok_or (bs "missing `://`") (split_once (bs "://") entry);
  let wildcard := starts_with rest (bs "*") in
  let probe := if wildcard then scheme_raw ++ bs "://w" ++ drop 1 rest else entry in
  url ← map_err (bad_entry entry) (url_parse probe);
  scheme ← entry_scheme entry (url_scheme url);
  if bool_of_opt (url_password url) then
    Err (bad_entry entry (bs "passwords live in values, never in match entries"))
  else
    parsed_host ← ok_or (bad_entry entry (bs "empty host")) (host_text <$> url_host url);
    host ← entry_host entry wildcard parsed_host;
    port ← entry_port (url_port url) scheme;
    _ ← reject_endpoint_query entry url;
    Ok {| es_scheme := scheme; es_host := host; es_port := port; es_client_cert := None;
          es_client_key := None; es_root_cert := None; es_guest_tls := Tls |}.

End Entries.

(** ** Properties *)

(** What a wildcard admits: a nonempty label, a dot, the suffix in any case. *)
Definition below (suffix hostname : bytes) : Prop :=
  ∃ label tail, hostname = label ++ bs "." ++ tail ∧ label ≠ [] ∧ eq_ignore_case tail suffix = true.

Lemma wildcard_below suffix hostname :
  HostPat_matches (Wildcard (star_dot ++ suffix)) hostname = true ↔ below suffix hostname.
Proof.
  unfold HostPat_matches, strip_prefix. rewrite (proj2 (starts_with_true _ _)) by by exists suffix.
  rewrite drop_app_length. rewrite !andb_true_iff, Nat.ltb_lt, bool_decide_eq_true. split.
  - intros [[Hlen Hdot] Heq]. exists (take (length hostname - length suffix - 1) hostname),
      (drop (length hostname - length suffix) hostname).
    split_and!; [| |done].
    + rewrite <- (take_drop_middle _ _ _ Hdot) at 1. simpl. do 3 f_equal. lia.
    + intros E. apply (f_equal length) in E. rewrite length_take in E. simpl in E. lia.
  - intros (label & tail & -> & Hne & Heq). pose proof (eq_ignore_case_length _ _ Heq) as Hl.
    assert (0 < length label) by (destruct label; [done|simpl; lia]).
    rewrite !length_app. simpl. split_and!.
    + lia.
    + replace (length label + S (length tail) - length suffix - 1) with (length label) by lia.
      by rewrite lookup_app_r, Nat.sub_diag by lia.
    + replace (length label + S (length tail) - length suffix) with (length (label ++ bs ".")).
      2: { rewrite length_app. simpl. lia. }
      change (Byte.x2e :: tail) with (bs "." ++ tail). by rewrite app_assoc, drop_app_length.
Qed.

(** A host pattern reads as documented: [*] admits every host,
    [*.suffix] exactly the hosts with a nonempty label and a dot before the
    suffix, in any case and never the bare suffix, and any other pattern the
    host itself in any case. *)
Theorem host_pattern_reads pattern hostname :
  HostPat_matches (HostPat_from_str pattern) hostname = true ↔
    pattern = bs "*" ∨
    (∃ suffix, pattern = star_dot ++ suffix ∧ below suffix hostname) ∨
    (pattern ≠ bs "*" ∧ ¬ star_dot `prefix_of` pattern ∧ eq_ignore_case hostname pattern = true).
Proof.
  unfold HostPat_from_str. case_bool_decide as Hstar.
  { subst. simpl. naive_solver. }
  destruct (starts_with pattern star_dot) eqn:Hs.
  - apply starts_with_true in Hs as [suffix ->]. rewrite wildcard_below. split.
    + intros Hb. right. left. by exists suffix.
    + intros [?|[(s & E & Hb)|(_ & Hno & _)]]; [done| |].
      * apply app_inv_head in E. by subst.
      * destruct Hno. by exists suffix.
  - apply starts_with_false in Hs. simpl. split.
    + intros He. right. right. done.
    + intros [?|[(s & -> & _)|(_ & _ & He)]]; [done| |done]. destruct Hs. by exists s.
Qed.

Lemma below_not_apex suffix : ¬ below suffix suffix.
Proof.
  intros (label & tail & E & Hne & Heq). apply eq_ignore_case_length in Heq.
  apply (f_equal length) in E. rewrite !length_app in E. simpl in E. lia.
Qed.

Lemma existsb_find {A} (p : A → bool) l : existsb p l = true ↔ is_Some (find p l).
Proof.
  induction l as [|x l IH]; simpl; [by split; [|intros [? ?]]|].
  destruct (p x); simpl; [by split; [eexists|]|done].
Qed.

Lemma existsb_ext {A} (p q : A → bool) l : (∀ x, p x = q x) → existsb p l = existsb q l.
Proof. intros Hpq. induction l as [|x l IH]; simpl; [done|]. by rewrite Hpq, IH. Qed.

(** A grant applies to a destination exactly when the lookup for its kind
    finds the entry that applies: the pair machinery, which asks [matches],
    and the connection layer, which asks for the entry, never disagree. *)
Theorem matches_iff_entry g scheme host port :
  Grant_matches g scheme host port = true ↔
  match g with
  | GToken _ _ _ _ => is_Some (Grant_endpoint g scheme (Some host) port)
  | GPostgres _ _ => scheme = SPostgres ∧ is_Some (Grant_postgres g (Some host) port)
  | GRedis _ scope => (scheme = SRedis ∨ scheme = SRediss) ∧ is_Some (Grant_redis g (Some host) port)
  | GSsh _ => scheme = SSsh ∧ is_Some (Grant_ssh g (Some host) port)
  end.
Proof.
  destruct g as [c allow p o|c scope|c scope|allow]; simpl.
  - rewrite <- existsb_find. apply eq_iff_eq_true, existsb_ext. intros e.
    unfold endpoint_match, host_port_match. by rewrite andb_assoc.
  - unfold PostgresScope_matches. rewrite !andb_true_iff, bool_decide_eq_true, N.eqb_sym.
    destruct (_ =? port)%N, (eq_ignore_case _ host); simpl; by naive_solver.
  - unfold RedisScope_matches. rewrite !andb_true_iff, orb_true_iff, !bool_decide_eq_true, N.eqb_sym.
    destruct (_ =? port)%N, (eq_ignore_case _ host); simpl; by naive_solver.
  - rewrite <- existsb_find. unfold ssh_match. case_bool_decide as Hs; simpl.
    + by naive_solver.
    + split; [|naive_solver]. intros (e & _ & He)%existsb_exists. done.
Qed.

(** ** What a parsed [allow] entry guarantees *)

Section EntryProperties.
Context `{!UrlCrate}.

(** A destination an endpoint entry can name. *)
Record endpoint_wf (e : EndpointScope) : Prop := {
  ew_scheme : es_scheme e = Http ∨ es_scheme e = Https ∨ es_scheme e = Tcp ∨ es_scheme e = SSsh;
  ew_host : match es_host e with
            | Wildcard p => ∃ suffix, p = star_dot ++ suffix ∧ suffix ≠ []
            | Any | Exact _ => True
            end;
  ew_tls : es_client_cert e = None ∧ es_client_key e = None ∧ es_root_cert e = None ∧ es_guest_tls e = Tls;
}.

Lemma entry_scheme_Ok entry s scheme :
  entry_scheme entry s = Ok scheme →
  (s = bs "http" ∧ scheme = Http) ∨ (s = bs "https" ∧ scheme = Https) ∨
  (s = bs "tcp" ∧ scheme = Tcp) ∨ (s = bs "ssh" ∧ scheme = SSsh).
Proof. unfold entry_scheme. intros He. case_all; to_prop; auto. Qed.

Lemma entry_host_Ok entry wildcard parsed pat :
  entry_host entry wildcard parsed = Ok pat →
  match pat with
  | Any => wildcard = true
  | Wildcard p => wildcard = true ∧ ∃ suffix, p = star_dot ++ suffix ∧ suffix ≠ []
  | Exact h => wildcard = false ∧ h = parsed
  end.
Proof.
  unfold entry_host. destruct wildcard; [|by intros [= <-]].
  set (tail := default parsed _). case_bool_decide; [by intros [= <-]|].
  destruct (starts_with tail (bs ".")) eqn:Hs; simpl; [|done].
  destruct (Nat.ltb_spec 1 (length tail)) as [Hl|]; [|done]. intros [= <-]. split; [done|].
  apply starts_with_true in Hs as [suffix Hs]. exists suffix. rewrite Hs. split; [done|].
  intros ->. rewrite Hs in Hl. simpl in Hl. lia.
Qed.

Definition any_flag (q : QuerySeen) : bool := qs_ssl q || qs_root_cert q || qs_client_cert q || qs_client_key q.

Lemma reject_query_pair_flag entry q k v q' :
  reject_query_pair entry q (k, v) = Ok q' → any_flag q' = false → k = bs "sslnegotiation".
Proof.
  unfold reject_query_pair, any_flag. intros Hp Hf.
  repeat (case_match; simplify_eq/=; to_prop); try done; by rewrite ?orb_true_r in Hf.
Qed.

Lemma reject_query_pair_keeps entry q kv q' :
  reject_query_pair entry q kv = Ok q' → any_flag q' = false → any_flag q = false.
Proof.
  destruct kv as [k v]. unfold reject_query_pair, any_flag. intros Hp Hf.
  repeat (case_match; simplify_eq/=); done || (by rewrite ?orb_true_r in Hf).
Qed.

Lemma reject_query_fold entry q kvs q' :
  try_fold (reject_query_pair entry) q kvs = Ok q' → any_flag q' = false →
  any_flag q = false ∧ ∀ k v, (k, v) ∈ kvs → k = bs "sslnegotiation".
Proof.
  revert q. induction kvs as [|[k v] kvs IH]; intros q; cbn [try_fold].
  - intros [= <-] Hf. split; [done|]. intros ?? Hin. by apply elem_of_nil in Hin.
  - rewrite bind_ok. intros (q1 & Hq1 & Hfold) Hf. destruct (IH _ Hfold Hf) as [Hf1 Hall]. split.
    + by eapply reject_query_pair_keeps.
    + intros k' v' [[= -> ->]|Hin]%elem_of_cons; [by eapply reject_query_pair_flag|by eapply Hall].
Qed.

Lemma EndpointScope_from_str_facts entry e :
  EndpointScope_from_str entry = Ok e →
  endpoint_wf e ∧
  ∃ probe url, url_parse probe = Ok url ∧
    (url_scheme url, es_scheme e) ∈ [(bs "http", Http); (bs "https", Https); (bs "tcp", Tcp); (bs "ssh", SSsh)] ∧
    url_username url = [] ∧ url_password url = None ∧ (∀ c p, url_path url ≠ slash ++ c :: p) ∧
    (∀ k v, (k, v) ∈ url_query_pairs url → k = bs "sslnegotiation") ∧
    match url_port url, es_scheme e with
    | Some p, _ => es_port e = p
    | None, Http => es_port e = 80%N
    | None, Https => es_port e = 443%N
    | None, SSsh => es_port e = 22%N
    | None, _ => False
    end.
Proof.
  unfold EndpointScope_from_str. rewrite bind_ok. intros ([scheme_raw rest] & _ & He). cbv zeta in He.
  set (wildcard := starts_with rest (bs "*")) in *.
  apply bind_ok in He as (url & Hurl & He). apply bind_ok in He as (scheme & Hscheme & He).
  destruct (url_password url) eqn:Hpw; [done|]. simpl in He.
  apply bind_ok in He as (parsed & _ & He). apply bind_ok in He as (host & Hhost & He).
  apply bind_ok in He as (port & Hport & He). apply bind_ok in He as (u & Hq & He). injection He as <-.
  apply entry_scheme_Ok in Hscheme. apply entry_host_Ok in Hhost.
  destruct (url_parse _) as [url'|] eqn:Hparse; simplify_eq/=.
  unfold reject_endpoint_query in Hq. apply bind_ok in Hq as (q & Hfold & Hq).
  destruct (xorb _ _); [done|]. case_bool_decide as Huser; simpl in Hq; [|done].
  assert ((∀ c p, url_path url ≠ slash ++ c :: p) ∧ any_flag q = false) as [Hpath Hflags].
  { destruct (strip_prefix slash (url_path url)) as [[|c p]|] eqn:Hstrip; [|done|].
    all: split; [|unfold any_flag; by case_all; to_prop; simplify_eq/=;
      repeat match goal with Hx : _ = false |- _ => rewrite Hx end].
    all: intros c p E; unfold strip_prefix in Hstrip; rewrite E in Hstrip;
      rewrite (proj2 (starts_with_true _ _)) in Hstrip by (by exists (c :: p)); by rewrite drop_app_length in Hstrip. }
  destruct (reject_query_fold _ _ _ _ Hfold Hflags) as [_ Hkeys]. split.
  - constructor; simpl; [naive_solver| |done]. destruct host; naive_solver.
  - eexists _, url. split_and!; [done| |done..|]; simpl.
    { destruct Hscheme as [[-> ->]|[[-> ->]|[[-> ->]|[-> ->]]]]; repeat (apply elem_of_cons; first [by left|right]). }
    destruct (url_port url) as [p|]; simpl in Hport; [by injection Hport|].
    destruct Hscheme as [[_ ->]|[[_ ->]|[[_ ->]|[_ ->]]]]; simpl in Hport; congruence.
Qed.

(** A parsed [allow] entry is a network endpoint and nothing more: its
    scheme is the URL's and one of http, https, tcp and ssh; its port is the
    written one or the scheme's default, and a tcp entry always writes one; a
    wildcard host is [*.] and a nonempty suffix; the URL carried no user,
    password or path, and no query but a no-op [sslnegotiation], that the entry
    would silently drop; and no TLS material is set by it. *)
Theorem allow_entry_sound entry e :
  EndpointScope_from_str entry = Ok e →
  endpoint_wf e ∧
  ∃ probe url, url_parse probe = Ok url ∧
    (url_scheme url, es_scheme e) ∈ [(bs "http", Http); (bs "https", Https); (bs "tcp", Tcp); (bs "ssh", SSsh)] ∧
    url_username url = [] ∧ url_password url = None ∧ (∀ c p, url_path url ≠ slash ++ c :: p) ∧
    (∀ k v, (k, v) ∈ url_query_pairs url → k = bs "sslnegotiation") ∧
    match url_port url, es_scheme e with
    | Some p, _ => es_port e = p
    | None, Http => es_port e = 80%N
    | None, Https => es_port e = 443%N
    | None, SSsh => es_port e = 22%N
    | None, _ => False
    end.
Proof. apply EndpointScope_from_str_facts. Qed.
End EntryProperties.

Lemma allow_entry_sound_witness :
  let _ := sample_url in
  ∃ e, EndpointScope_from_str (bs "https://*.github.com") = Ok e ∧ endpoint_wf e.
Proof.
  intros u. eexists. split; [reflexivity|]. apply (allow_entry_sound (bs "https://*.github.com")). reflexivity.
Defined.
