(* ===== verification/Rules.v ===== *)
(** * Rules into grants

    [GrantCollector] of [crates/hodor-config/src/grants/mod.rs], the two
    [grant] assemblers of the database verticals, and the rule table's data
    ([RuleCfg], [HostTlsCfg], [HostSshCfg] of [config.rs]). A [BTreeMap] is
    its list of entries in key order. *)

From S2P Require Import Prelude Decoy ConnString Grants.

Record HostTlsCfg := {
  ht_client_cert : option bytes;
  ht_client_key : option bytes;
  ht_root_cert : option bytes;
  ht_guest_tls_mode : GuestTlsMode;
  ht_guest_cert : option bytes;
  ht_guest_key : option bytes;
}.

Record HostSshCfg := {
  hs_identity : option bytes;
  hs_guest_key : option bytes;
}.

Inductive IfMissing := MissError | MissWarn | MissIgnore.

Record RuleCfg := {
  rc_env : bytes;
  rc_value : option bytes;
  rc_real : option bytes;
  rc_fnox_key : option bytes;
  rc_allow : list bytes;
  rc_pattern : option bytes;
  rc_oauth2 : option OAuthFlow;
  rc_registry : option bool;
  rc_if_missing : IfMissing;
  rc_tls : list (bytes * HostTlsCfg);
  rc_ssh : list (bytes * HostSshCfg);
}.

(** [map.get(key)] on a [BTreeMap]. *)
Definition btree_get {A} (key : bytes) (m : list (bytes * A)) : option A :=
  snd <$> find (λ kv, bool_decide (kv.1 = key)) m.

Definition RuleCfg_value_scheme (r : RuleCfg) : option Scheme :=
  value ← rc_value r;
  if starts_with value (bs "postgres://") then Some SPostgres
  else if starts_with value (bs "redis://") then Some SRedis
  else if starts_with value (bs "rediss://") then Some SRediss
  else None.

Definition RuleCfg_is_ssh (r : RuleCfg) : bool := negb (bool_decide (length (rc_ssh r) = 0)).

(** The errors of [error.rs] rule collection can raise. *)
Inductive Error :=
| BadAllow (label entry detail : bytes)
| SshMisplaced (label : bytes)
| ConnectionStringAllow (label : bytes)
| ConnectionStringValueMissing (label : bytes)
| ConnectionStringScheme (label : bytes) (scheme : Scheme)
| SshTls (label entry : bytes)
| CertKeyPair (label entry : bytes)
| TlsUnknownEntry (label key : bytes)
| SshMixedSchemes (label : bytes)
| SshValue (label : bytes)
| SshUnknownEntry (label key : bytes)
| SshIdentity (label entry detail : bytes)
| PostgresScopeErr (label detail : bytes)
| RedisScopeErr (label detail : bytes)
| TlsEnvMismatch (label key env : bytes)
| PostgresIdentity (label : bytes)
| PostgresTrust (label : bytes)
| RedisIdentity (label : bytes)
| RedisTrust (label : bytes).

Section Rules.
Context `{!Digests, !UrlCrate}.

(** The decoy a rule's grant uses, and whether the length-matched fallback fired. *)
Definition decoy_for_rule (env : bytes) (pattern : option bytes) (allow : list EndpointScope) (value_len : nat)
    : bytes * bool :=
  let shaped := fake_for env pattern in
  if existsb (λ s, bool_decide (es_scheme s = Tcp)) allow && negb (length shaped =? value_len) then
    (fake_for env (Some (bs "{hex:" ++ dec (N.of_nat value_len) ++ bs "}")), true)
  else (shaped, false).

(** One [tls] row on a database rule: only the guest mode, keyed by the env name. *)
Definition guest_tls_row (identity trust : bytes → Error) (label : bytes) (rule : RuleCfg)
    (mode : GuestTlsMode) (row : bytes * HostTlsCfg) : result Error GuestTlsMode :=
  let '(key, tls) := row in
  if negb (bool_decide (key = rc_env rule)) then Err (TlsEnvMismatch label key (rc_env rule))
  else if bool_of_opt (ht_client_cert tls) || bool_of_opt (ht_client_key tls) then Err (identity label)
  else if bool_of_opt (ht_root_cert tls) then Err (trust label)
  else Ok (ht_guest_tls_mode tls).

(** [postgres::grant]. *)
Definition postgres_grant (label : bytes) (rule : RuleCfg) (real : bytes) : result Error Grant :=
  let fake := default [] (rc_value rule) in
  scope ← map_err (PostgresScopeErr label) (PostgresScope_from_strings fake real);
  mode ← try_fold (guest_tls_row PostgresIdentity PostgresTrust label rule) (pg_guest_tls scope) (rc_tls rule);
  let scope := {| pg_downstream := pg_downstream scope; pg_upstream := pg_upstream scope;
                  pg_ssl := pg_ssl scope; pg_negotiation := pg_negotiation scope;
                  pg_root_cert := pg_root_cert scope; pg_client_cert := pg_client_cert scope;
                  pg_client_key := pg_client_key scope; pg_guest_tls := mode |} in
  Ok (GPostgres {| cr_label := label; cr_fake := pg_password (pg_downstream scope);
                   cr_value := pg_password (pg_upstream scope) |} scope).

(** [redis::grant]. *)
Definition redis_grant (label : bytes) (rule : RuleCfg) (real : bytes) : result Error Grant :=
  let fake := default [] (rc_value rule) in
  scope ← map_err (RedisScopeErr label) (RedisScope_from_strings fake real);
  mode ← try_fold (guest_tls_row RedisIdentity RedisTrust label rule) (rd_guest_tls scope) (rc_tls rule);
  let scope := {| rd_downstream := rd_downstream scope; rd_is_downstream_tls := rd_is_downstream_tls scope;
                  rd_upstream := rd_upstream scope; rd_is_upstream_tls := rd_is_upstream_tls scope;
                  rd_root_cert := rd_root_cert scope; rd_client_cert := rd_client_cert scope;
                  rd_client_key := rd_client_key scope; rd_guest_tls := mode |} in
  Ok (GRedis {| cr_label := label; cr_fake := rd_password (rd_downstream scope);
                cr_value := rd_password (rd_upstream scope) |} scope).

(** [GrantCollector] keeps the grants collected so far; each method returns
    the new list or the error that stops the fold. *)
Definition connection_string (grants : list Grant) (label : bytes) (rule : RuleCfg) (scheme : Scheme)
    : result Error (list Grant) :=
  if negb (bool_decide (rc_allow rule = [])) then Err (ConnectionStringAllow label)
  else
    match rc_real rule with
    | None => Ok grants
    | Some real =>
        match rc_value rule with
        | None => Err (ConnectionStringValueMissing label)
        | Some _ =>
            grant ← match scheme with
                    | SPostgres => postgres_grant label rule real
                    | SRedis | SRediss => redis_grant label rule real
                    | _ => Err (ConnectionStringScheme label scheme)
                    end;
            Ok (grants ++ [grant])
        end
    end.

(** One [allow] entry with its [tls] overlay. *)
Definition parse_entry (label : bytes) (rule : RuleCfg) (entry : bytes) : result Error (bytes * EndpointScope) :=
  scope ← map_err (BadAllow label entry) (EndpointScope_from_str entry);
  match btree_get entry (rc_tls rule) with
  | None => Ok (entry, scope)
  | Some tls =>
      if bool_decide (es_scheme scope = SSsh) then Err (SshTls label entry)
      else if xorb (bool_of_opt (ht_client_cert tls)) (bool_of_opt (ht_client_key tls)) then
        Err (CertKeyPair label entry)
      else Ok (entry, {| es_scheme := es_scheme scope; es_host := es_host scope; es_port := es_port scope;
                         es_client_cert := ht_client_cert tls; es_client_key := ht_client_key tls;
                         es_root_cert := ht_root_cert tls; es_guest_tls := ht_guest_tls_mode tls |})
  end.

(** The first key of a table no [allow] entry claims. *)
Definition unclaimed {A} (rule : RuleCfg) (rows : list (bytes * A)) : option bytes :=
  find (λ key, negb (bool_decide (key ∈ rc_allow rule))) (map fst rows).

Definition parse_entries (label : bytes) (rule : RuleCfg) : result Error (list (bytes * EndpointScope)) :=
  parsed ← try_fold (λ acc entry, p ← parse_entry label rule entry; Ok (acc ++ [p])) [] (rc_allow rule);
  match unclaimed rule (rc_tls rule) with
  | Some key => Err (TlsUnknownEntry label key)
  | None => Ok parsed
  end.

(** One ssh entry with its key material. *)
Definition ssh_entry (label : bytes) (rule : RuleCfg) (p : bytes * EndpointScope) : result Error SshScope :=
  let '(entry, scope) := p in
  match btree_get entry (rc_ssh rule) with
  | None => Err (SshIdentity label entry (bs "no ssh config for this entry"))
  | Some ssh =>
      identity ← ok_or (SshIdentity label entry (bs "identity is required")) (hs_identity ssh);
      guest_key ← ok_or (SshIdentity label entry (bs "guest_key is required")) (hs_guest_key ssh);
      Ok {| ss_host := es_host scope; ss_port := es_port scope; ss_identity := identity;
            ss_guest_key := guest_key |}
  end.

Definition collect_ssh (grants : list Grant) (label : bytes) (rule : RuleCfg)
    (parsed : list (bytes * EndpointScope)) : result Error (list Grant) :=
  if existsb (λ p, negb (bool_decide (es_scheme p.2 = SSsh))) parsed then Err (SshMixedSchemes label)
  else if bool_of_opt (rc_value rule) then Err (SshValue label)
  else
    match unclaimed rule (rc_ssh rule) with
    | Some key => Err (SshUnknownEntry label key)
    | None =>
        allow ← try_fold (λ acc p, s ← ssh_entry label rule p; Ok (acc ++ [s])) [] parsed;
        Ok (grants ++ [GSsh allow])
    end.

Definition collect_token (grants : list Grant) (label : bytes) (rule : RuleCfg)
    (parsed : list (bytes * EndpointScope)) : list Grant :=
  match rc_value rule with
  | None => grants
  | Some value =>
      let allow := map snd parsed in
      let fake := (decoy_for_rule (rc_env rule) (rc_pattern rule) allow (length value)).1 in
      grants ++ [GToken {| cr_label := label; cr_fake := fake; cr_value := value |} allow
                        (rc_pattern rule) (rc_oauth2 rule)]
  end.

Definition first_is_ssh (parsed : list (bytes * EndpointScope)) : bool :=
  match parsed with p :: _ => bool_decide (es_scheme p.2 = SSsh) | [] => false end.

Definition collect (grants : list Grant) (label : bytes) (rule : RuleCfg) : result Error (list Grant) :=
  match RuleCfg_value_scheme rule with
  | Some scheme => connection_string grants label rule scheme
  | None =>
      parsed ← parse_entries label rule;
      match parsed with
      | [] => Ok grants
      | _ =>
          if negb (bool_decide (length (rc_ssh rule) = 0)) && negb (first_is_ssh parsed) then
            Err (SshMisplaced label)
          else if first_is_ssh parsed then collect_ssh grants label rule parsed
          else Ok (collect_token grants label rule parsed)
      end
  end.

(** The grants half of [resolve]: the fold over the rule table. *)
Definition resolve_grants (rules : list (bytes * RuleCfg)) : result Error (list Grant) :=
  try_fold (λ grants r, collect grants r.1 r.2) [] rules.

End Rules.

(** ** Properties *)

Section RulesProperties.
Context `{!Digests, !DigestLaws, !UrlCrate}.

(** What collection guarantees of each grant: a token grant has at least one
    endpoint, its certificate pairs are whole, and on a tcp endpoint its decoy
    is as long as a value of at most 4096 bytes; a database grant's scope is
    well formed and its credential is the two legs' passwords. *)
Definition entry_ok (e : EndpointScope) : Prop :=
  (es_scheme e = Http ∨ es_scheme e = Https ∨ es_scheme e = Tcp ∨ es_scheme e = SSsh) ∧
  both_or_neither (es_client_cert e) (es_client_key e).

Definition grant_wf (g : Grant) : Prop :=
  match g with
  | GToken c allow _ _ =>
      allow ≠ [] ∧ Forall entry_ok allow ∧
      ((N.of_nat (length (cr_value c)) ≤ MAX_PATTERN_COUNT)%N → Exists (λ e, es_scheme e = Tcp) allow →
       length (cr_fake c) = length (cr_value c))
  | GPostgres c scope =>
      postgres_scope_wf scope ∧ cr_fake c = pg_password (pg_downstream scope) ∧ cr_value c = pg_password (pg_upstream scope)
  | GRedis c scope =>
      redis_scope_wf scope ∧ cr_fake c = rd_password (rd_downstream scope) ∧ cr_value c = rd_password (rd_upstream scope)
  | GSsh allow => allow ≠ []
  end.

Lemma map_err_Ok {E F A} (f : E → F) (r : result E A) a : map_err f r = Ok a ↔ r = Ok a.
Proof. destruct r; simpl; naive_solver. Qed.

Lemma parse_entry_Ok label rule entry p : parse_entry label rule entry = Ok p → p.1 = entry ∧ entry_ok p.2.
Proof.
  unfold parse_entry. rewrite bind_ok. intros (scope & Hs%map_err_Ok & Hp).
  apply EndpointScope_from_str_facts in Hs as [[Hsch _ (Hc & Hk & _)] _].
  destruct (btree_get entry (rc_tls rule)) as [tls|].
  2: { injection Hp as <-. split; [done|]. split; [done|]. simpl. by rewrite Hc, Hk. }
  case_bool_decide; [done|]. destruct (xorb _ _) eqn:Hx; [done|]. injection Hp as <-.
  split; [done|]. split; [done|]. by apply xorb_both_or_neither.
Qed.

Lemma parse_entries_Ok label rule parsed :
  parse_entries label rule = Ok parsed → Forall (λ p, entry_ok p.2) parsed.
Proof.
  unfold parse_entries. rewrite bind_ok. intros (l & Hl & Hu).
  destruct (unclaimed rule (rc_tls rule)); [done|]. injection Hu as ->.
  revert Hl. apply (try_fold_inv (Forall (λ p, entry_ok p.2))); [|constructor].
  intros acc entry acc' _ Hacc. rewrite bind_ok. intros (p & Hp & [= <-]).
  apply parse_entry_Ok in Hp as [_ Hok]. apply Forall_app. split; [done|]. by apply Forall_singleton.
Qed.

Lemma decoy_for_rule_plain env pattern allow n :
  Forall (λ e, es_scheme e ≠ Tcp) allow → (decoy_for_rule env pattern allow n).1 = fake_for env pattern.
Proof.
  intros Ht. unfold decoy_for_rule. destruct (existsb _ allow) eqn:E; [|done]. exfalso.
  apply existsb_exists in E as (e & Hin%list_elem_of_In & He%bool_decide_eq_true). rewrite Forall_forall in Ht. by apply (Ht e).
Qed.

Lemma length_decoy_for_rule env pattern allow n :
  Exists (λ e, es_scheme e = Tcp) allow → (N.of_nat n ≤ MAX_PATTERN_COUNT)%N →
  length (decoy_for_rule env pattern allow n).1 = n.
Proof.
  intros (e & He & Hs)%Exists_exists Hn. unfold decoy_for_rule.
  assert (existsb (λ s, bool_decide (es_scheme s = Tcp)) allow = true) as ->.
  { apply existsb_exists. exists e. split; [by apply list_elem_of_In|]. by apply bool_decide_eq_true. }
  simpl. destruct (Nat.eqb_spec (length (fake_for env pattern)) n); [done|]. simpl.
  pose proof (length_fake_for_hex env (N.of_nat n) Hn) as Hh. unfold hex_template in Hh. simpl in Hh.
  rewrite Hh. lia.
Qed.

Lemma collect_token_wf grants label rule parsed :
  parsed ≠ [] → Forall (λ p, entry_ok p.2) parsed → Forall grant_wf grants →
  Forall grant_wf (collect_token grants label rule parsed).
Proof.
  intros Hne Hok Hg. unfold collect_token. destruct (rc_value rule) as [value|]; [|done].
  apply Forall_app. split; [done|]. constructor; [|constructor]. simpl. split_and!.
  - by destruct parsed.
  - by apply Forall_map.
  - intros Hn Hex. by apply length_decoy_for_rule.
Qed.

Lemma connection_string_wf grants label rule scheme grants' :
  Forall grant_wf grants → connection_string grants label rule scheme = Ok grants' → Forall grant_wf grants'.
Proof.
  intros Hg. unfold connection_string. destruct (negb _); [done|].
  destruct (rc_real rule) as [real|]; [|by intros [= <-]]. destruct (rc_value rule) as [value|]; [|done].
  rewrite bind_ok. intros (g & Hgr & [= <-]). apply Forall_app. split; [done|]. constructor; [|constructor].
  destruct scheme; try done.
  - unfold postgres_grant in Hgr. apply bind_ok in Hgr as (s & Hs%map_err_Ok & Hgr).
    apply bind_ok in Hgr as (mode & _ & [= <-]). apply PostgresScope_from_strings_wf in Hs as [[] _]. simpl. split; [by constructor|done].
  - unfold redis_grant in Hgr. apply bind_ok in Hgr as (s & Hs%map_err_Ok & Hgr).
    apply bind_ok in Hgr as (mode & _ & [= <-]). apply RedisScope_from_strings_wf in Hs as [[] _]. simpl. split; [by constructor|done].
  - unfold redis_grant in Hgr. apply bind_ok in Hgr as (s & Hs%map_err_Ok & Hgr).
    apply bind_ok in Hgr as (mode & _ & [= <-]). apply RedisScope_from_strings_wf in Hs as [[] _]. simpl. split; [by constructor|done].
Qed.

Lemma collect_ssh_wf grants label rule parsed grants' :
  parsed ≠ [] → Forall grant_wf grants → collect_ssh grants label rule parsed = Ok grants' → Forall grant_wf grants'.
Proof.
  intros Hne Hg. unfold collect_ssh. destruct (existsb _ _); [done|]. destruct (bool_of_opt _); [done|].
  destruct (unclaimed rule (rc_ssh rule)); [done|]. rewrite bind_ok. intros (allow & Hallow & [= <-]).
  apply Forall_app. split; [done|]. constructor; [|constructor]. simpl.
  destruct parsed as [|p parsed]; [done|]. cbn [try_fold] in Hallow. apply bind_ok in Hallow as (acc & Hp & Hfold).
  apply bind_ok in Hp as (s & _ & [= <-]). revert Hfold.
  apply (try_fold_inv (λ l, l ≠ [])); [|done]. intros b x b' _ Hb. rewrite bind_ok. intros (s' & _ & [= <-]).
  by destruct b.
Qed.

Lemma collect_wf grants label rule grants' :
  Forall grant_wf grants → collect grants label rule = Ok grants' → Forall grant_wf grants'.
Proof.
  intros Hg. unfold collect. destruct (RuleCfg_value_scheme rule); [by apply connection_string_wf|].
  rewrite bind_ok. intros (parsed & Hp & Hc). apply parse_entries_Ok in Hp.
  destruct parsed as [|p parsed]; [by injection Hc as <-|].
  destruct (_ && _); [done|]. destruct (first_is_ssh _); [by apply (collect_ssh_wf grants label rule (p :: parsed))|].
  injection Hc as <-. by apply collect_token_wf.
Qed.

End RulesProperties.

(** [validate_pattern] accepts what the renderer leaves as written: a count
    past the cap is a valid pattern, and its decoy is the template's own text. *)
Theorem overlong_pattern_accepted_literal `{!Digests, !DigestLaws} seed :
  validate_pattern (bs "{hex:5000}") = Ok tt ∧ fake_for seed (Some (bs "{hex:5000}")) = bs "{hex:5000}".
Proof. split; [by vm_compute|]. exact (fake_for_hex_over_cap seed 5000 ltac:(unfold MAX_PATTERN_COUNT, usize_max; lia)). Qed.

Lemma overlong_pattern_accepted_literal_witness :
  let _ := sample_digests in
  validate_pattern (bs "{hex:5000}") = Ok tt ∧ fake_for (bs "seed") (Some (bs "{hex:5000}")) = bs "{hex:5000}".
Proof. exact (@overlong_pattern_accepted_literal sample_digests sample_digest_laws (bs "seed")). Defined.

Definition sample_rule (value : option bytes) (allow : list bytes) : RuleCfg :=
  {| rc_env := bs "TOKEN"; rc_value := value; rc_real := None; rc_fnox_key := None; rc_allow := allow;
     rc_pattern := None; rc_oauth2 := None; rc_registry := None; rc_if_missing := MissError; rc_tls := []; rc_ssh := [] |}.


(** A rule whose entries mix a network endpoint first and an ssh host after
    it resolves to a token grant, ssh entry included: only a list that starts
    with ssh is held to one kind. *)
Theorem mixed_kinds_accepted :
  let _ := sample_digests in let _ := sample_url in
  ∃ c allow, resolve_grants [(bs "mixed", sample_rule (Some (bs "v")) [bs "https://a.com"; bs "ssh://b.com"])] =
      Ok [GToken c allow None None] ∧ map es_scheme allow = [Https; SSsh].
Proof. eexists _, _. split; reflexivity. Qed.
