(* ===== verification/Registry.v ===== *)
(** * The provider registry

    [crates/hodor-config/src/registry.rs]: what is known about an environment
    name (hosts, decoy template, OAuth2 flow), built by layering registry
    files over the bundled table. A [BTreeMap] that is written to is a
    [gmap]; one that is only read, a table of a file, the list of its entries
    in key order. The TOML reader and the file system are parameters. *)

From stdpp Require Import sorting.
From S2P Require Import Prelude Decoy ConnString Grants Rules.

(** ** Text *)

Definition ascii_upper (b : byte) : byte :=
  if ((97 <=? u8 b) && (u8 b <=? 122))%N then byte_of (u8 b - 32) else b.
Definition to_ascii_uppercase (s : bytes) : bytes := map ascii_upper s.
Definition to_ascii_lowercase (s : bytes) : bytes := map ascii_lower s.

(** The order of Rust strings: bytewise. *)
Fixpoint str_leb (a b : bytes) : bool :=
  match a, b with
  | [], _ => true
  | _ :: _, [] => false
  | x :: a, y :: b => if (u8 x <? u8 y)%N then true else if (u8 y <? u8 x)%N then false else str_leb a b
  end.
Definition str_le (a b : bytes) : Prop := str_leb a b = true.
#[export] Instance str_le_dec a b : Decision (str_le a b).
Proof. unfold str_le. apply _. Defined.

(** [Path::extension] of a file name. *)
Definition extension (name : bytes) : option bytes :=
  match rev (split_byte Byte.x2e name) with
  | ext :: (_ :: _) as parts => if bool_decide (parts = [ext; []]) then None else Some ext
  | _ => None
  end.

(** ** Data *)

Record KnownHosts := {
  kh_hosts : list bytes;
  kh_pattern : option bytes;
  kh_oauth2 : option OAuthFlow;
}.
Definition KnownHosts_default : KnownHosts := {| kh_hosts := []; kh_pattern := None; kh_oauth2 := None |}.

Record ContainsRule := {
  cu_provider : bytes;
  cu_needle : bytes;
  cu_pattern : bytes;
}.

Record Registry := {
  rg_names : gmap bytes KnownHosts;
  rg_contains : list ContainsRule;
}.
Definition Registry_default : Registry := {| rg_names := ∅; rg_contains := [] |}.

Record ProviderEntry := {
  pe_env : list bytes;
  pe_hosts : list bytes;
  pe_pattern : option bytes;
  pe_contains : list bytes;
  pe_replace : bool;
  pe_oauth2 : option OAuthFlow;
}.
Record NameEntry := {
  ne_hosts : list bytes;
  ne_pattern : option bytes;
  ne_replace : bool;
  ne_oauth2 : option OAuthFlow;
}.
Record RegistryFile := {
  rf_providers : list (bytes * ProviderEntry);
  rf_names : list (bytes * NameEntry);
}.

(** [toml::from_str], at the type of a registry file. *)
Class TomlRegistry := { toml_registry : bytes → result bytes RegistryFile }.

(** The errors of [error.rs] the registry raises. *)
Inductive RegistryError :=
| RgReadFile (path : bytes)
| RgParseFile (path detail : bytes)
| ClaimConflict (file previous provider env : bytes)
| BadHost (file kind name host detail : bytes)
| BadRegistryPattern (file kind name pattern detail : bytes)
| BadUrlParse (url detail : bytes)
| BadUrlHost (url : bytes)
| BadOAuthUrl (origin name : bytes) (source : RegistryError)
| FlowNeedsAuthorize (origin name : bytes)
| EmptyTokenField (origin name : bytes)
| DuplicateTokenField (origin name field : bytes)
| EmptyContains (file provider : bytes)
| ContainsNeedsPattern (file provider : bytes).

Section Registry.
Context `{!Digests, !UrlCrate, !TomlRegistry}.

(** ** Validation *)

(** [Host] as a pattern, for the warning about a host that matches any. *)
Definition flow_authority (url : bytes) : result RegistryError HostPat :=
  parsed ← map_err (BadUrlParse url) (url_parse url);
  match url_host parsed with
  | Some (Domain d) =>
      if bool_decide (d = bs "*") then Ok Any
      else if starts_with d star_dot then Ok (Wildcard (drop 1 d))
      else Ok (Exact d)
  | Some (Ipv4 a) | Some (Ipv6 a) => Ok (Exact a)
  | None => Err (BadUrlHost url)
  end.

Definition is_default_port (scheme : bytes) (port : N) : bool :=
  let scheme := to_ascii_lowercase scheme in
  (bool_decide (scheme = bs "http") && (port =? 80)%N) || (bool_decide (scheme = bs "https") && (port =? 443)%N).

(** [host_str] is the text a host prints as, an IPv6 address in brackets. *)
Definition authority_of (url : bytes) : result RegistryError bytes :=
  parsed ← map_err (BadUrlParse url) (url_parse url);
  host ← ok_or (BadUrlHost url) (host_display <$> url_host parsed);
  let host := drop_while (λ b, bool_decide (b = Byte.x5b)) host in
  let host := rev (drop_while (λ b, bool_decide (b = Byte.x5d)) (rev host)) in
  Ok (match url_port parsed with
      | Some port =>
          if negb (is_default_port (url_scheme parsed) port)
          then url_scheme parsed ++ bs "://" ++ host ++ bs ":" ++ dec port
          else url_scheme parsed ++ bs "://" ++ host
      | None => url_scheme parsed ++ bs "://" ++ host
      end).

Definition flow_urls (flow : OAuthFlow) : list bytes :=
  [of_token_url flow] ++ option_list (of_authorize_url flow) ++ option_list (of_refresh_url flow).

Fixpoint first_duplicate (seen fields : list bytes) : option bytes :=
  match fields with
  | [] => None
  | field :: fields => if bool_decide (field ∈ seen) then Some field else first_duplicate (field :: seen) fields
  end.

Definition validate_flow (flow : OAuthFlow) (source name : bytes) : result RegistryError () :=
  _ ← try_fold (λ _ url, _ ← map_err (BadOAuthUrl source name) (flow_authority url); Ok ()) () (flow_urls flow);
  if (match of_flow flow with AuthorizationCode => true | _ => false end) && negb (bool_of_opt (of_authorize_url flow)) then
    Err (FlowNeedsAuthorize source name)
  else if existsb (λ field, bool_decide (field = [])) (of_token_fields flow) then Err (EmptyTokenField source name)
  else
    match first_duplicate [] (of_token_fields flow) with
    | Some field => Err (DuplicateTokenField source name field)
    | None => Ok ()
    end.

Definition validate_hosts (hosts : list bytes) (source kind name : bytes) : result RegistryError () :=
  try_fold (λ _ host, _ ← map_err (BadHost source kind name host) (EndpointScope_from_str host); Ok ()) () hosts.

Definition validate_optional_pattern (pattern : option bytes) (source kind name : bytes) : result RegistryError () :=
  match pattern with
  | Some pattern => map_err (BadRegistryPattern source kind name pattern) (validate_pattern pattern)
  | None => Ok ()
  end.

Definition validate_entry_flow (oauth2 : option OAuthFlow) (source name : bytes) : result RegistryError () :=
  match oauth2 with Some flow => validate_flow flow source name | None => Ok () end.

(** ** Layering *)

Definition nonempty (pattern : option bytes) : option bytes :=
  match pattern with Some [] => None | _ => pattern end.

Definition push_host (hosts : list bytes) (host : bytes) : list bytes :=
  if bool_decide (host ∈ hosts) then hosts else hosts ++ [host].

(** The slot of one name under one entry. *)
Definition merge_slot (replace : bool) (hosts : list bytes) (pattern : option bytes) (oauth2 : option OAuthFlow)
    (slot : KnownHosts) : KnownHosts :=
  let slot := if replace then KnownHosts_default else slot in
  {| kh_hosts := foldl push_host (kh_hosts slot) hosts;
     kh_pattern := match pattern with Some p => Some p | None => kh_pattern slot end;
     kh_oauth2 := match oauth2 with Some f => Some f | None => kh_oauth2 slot end |}.

(** [names.entry(key).or_default()], updated. *)
Definition update_slot (names : gmap bytes KnownHosts) (env : bytes) (f : KnownHosts → KnownHosts) : gmap bytes KnownHosts :=
  let key := to_ascii_uppercase env in
  <[key := f (default KnownHosts_default (names !! key))]> names.

Definition push_contains (source provider : bytes) (pattern : option bytes) (contains : list ContainsRule) (needle : bytes)
    : result RegistryError (list ContainsRule) :=
  if bool_decide (needle = []) then Err (EmptyContains source provider)
  else
    pattern ← ok_or (ContainsNeedsPattern source provider) pattern;
    Ok (contains ++ [{| cu_provider := provider; cu_needle := to_ascii_lowercase needle; cu_pattern := pattern |}]).

Definition apply_provider (source : bytes) (r : Registry) (p : bytes * ProviderEntry) : result RegistryError Registry :=
  let '(provider, entry) := p in
  _ ← validate_hosts (pe_hosts entry) source (bs "provider") provider;
  let pattern := nonempty (pe_pattern entry) in
  _ ← validate_optional_pattern pattern source (bs "provider") provider;
  _ ← validate_entry_flow (pe_oauth2 entry) source provider;
  let names := foldl (λ names env, update_slot names env (merge_slot (pe_replace entry) (pe_hosts entry) pattern (pe_oauth2 entry)))
                 (rg_names r) (pe_env entry) in
  let contains := if pe_replace entry then filter (λ rule, cu_provider rule ≠ provider) (rg_contains r) else rg_contains r in
  contains ← try_fold (push_contains source provider pattern) contains (pe_contains entry);
  Ok {| rg_names := names; rg_contains := contains |}.

Definition apply_name (source : bytes) (r : Registry) (p : bytes * NameEntry) : result RegistryError Registry :=
  let '(env, entry) := p in
  _ ← validate_hosts (ne_hosts entry) source (bs "name") env;
  let pattern := nonempty (ne_pattern entry) in
  _ ← validate_optional_pattern pattern source (bs "name") env;
  _ ← validate_entry_flow (ne_oauth2 entry) source env;
  Ok {| rg_names := update_slot (rg_names r) env (merge_slot (ne_replace entry) (ne_hosts entry) pattern (ne_oauth2 entry));
        rg_contains := rg_contains r |}.

(** The claims of a file, as [claimed] is filled: the provider of each name. *)
Definition claim (source : bytes) (claimed : gmap bytes bytes) (c : bytes * bytes) : result RegistryError (gmap bytes bytes) :=
  let '(provider, env) := c in
  match claimed !! to_ascii_uppercase env with
  | Some previous => Err (ClaimConflict source previous provider env)
  | None => Ok (<[to_ascii_uppercase env := provider]> claimed)
  end.
Definition claims_of (file : RegistryFile) : list (bytes * bytes) :=
  flat_map (λ p : bytes * ProviderEntry, map (pair p.1) (pe_env p.2)) (rf_providers file).

Definition apply_file (file : RegistryFile) (source : bytes) (r : Registry) : result RegistryError Registry :=
  _ ← try_fold (claim source) ∅ (claims_of file);
  r ← try_fold (apply_provider source) r (rf_providers file);
  try_fold (apply_name source) r (rf_names file).

Definition apply (text source : bytes) (r : Registry) : result RegistryError Registry :=
  file ← map_err (RgParseFile source) (toml_registry text);
  apply_file file source r.

(** A rules directory, as [is_dir], [read_dir] and [read_to_string] answer:
    [None] is a failed listing, entry or read. *)
Record RulesDir := {
  rd_path : bytes;
  rd_is_dir : bool;
  rd_entries : option (list (option (bytes * option bytes)));
}.

Definition apply_rules_file (dir : bytes) (r : Registry) (file : bytes * option bytes) : result RegistryError Registry :=
  let path := dir ++ bs "/" ++ file.1 in
  text ← ok_or (RgReadFile path) file.2;
  apply text path r.

Definition by_name (a b : bytes * option bytes) : Prop := str_le a.1 b.1.
#[export] Instance by_name_dec a b : Decision (by_name a b).
Proof. unfold by_name. apply _. Defined.

(** The [toml] files of a directory, in name order. *)
Definition rules_files (dir : RulesDir) : result RegistryError (list (bytes * option bytes)) :=
  entries ← ok_or (RgReadFile (rd_path dir)) (rd_entries dir);
  files ← try_fold (λ acc entry, file ← ok_or (RgReadFile (rd_path dir)) entry; Ok (acc ++ [file])) [] entries;
  Ok (merge_sort by_name (filter (λ file : bytes * option bytes, extension file.1 = Some (bs "toml")) files)).

Definition load_dir (r : Registry) (dir : RulesDir) : result RegistryError Registry :=
  files ← rules_files dir;
  try_fold (apply_rules_file (rd_path dir)) r files.

Definition load_union (bundled : bytes) (global project : option RulesDir) : result RegistryError Registry :=
  r ← apply bundled (bs "<bundled>") Registry_default;
  try_fold load_dir r (filter (λ dir, rd_is_dir dir = true) (option_list global ++ option_list project)).

Definition load (bundled : bytes) (rules_dir : option RulesDir) : result RegistryError Registry :=
  load_union bundled rules_dir None.

(** ** Lookups *)

Definition lookup (r : Registry) (env : bytes) : option KnownHosts := rg_names r !! to_ascii_uppercase env.

Definition covers_host (known : KnownHosts) (scheme : Scheme) (host : bytes) (port : N) : bool :=
  existsb (λ entry, match EndpointScope_from_str entry with
                    | Ok scope => uri_match [scope] scheme host port
                    | Err _ => false
                    end) (kh_hosts known).
Definition envs_for_host (r : Registry) (scheme : Scheme) (host : bytes) (port : N) : list bytes :=
  merge_sort str_le (map fst (filter (λ kv : bytes * KnownHosts, covers_host kv.2 scheme host port = true)
                                (map_to_list (rg_names r)))).

Definition template (r : Registry) (env : bytes) (explicit : option bytes) : bytes :=
  match nonempty explicit with
  | Some pattern => pattern
  | None =>
      match known ← rg_names r !! to_ascii_uppercase env; kh_pattern known with
      | Some pattern => pattern
      | None =>
          let lower := to_ascii_lowercase env in
          match find (λ rule, str_contains lower (cu_needle rule)) (rg_contains r) with
          | Some rule => cu_pattern rule
          | None => DEFAULT_PATTERN
          end
      end
  end.

Definition decoy (r : Registry) (env : bytes) (explicit : option bytes) : bytes :=
  fake_for env (Some (template r env explicit)).

Definition hosts_for (r : Registry) (rule : RuleCfg) : list bytes :=
  if bool_decide (rc_registry rule = Some false) then []
  else match lookup r (rc_env rule) with Some known => kh_hosts known | None => [] end.

Definition flow_for (r : Registry) (rule : RuleCfg) : option OAuthFlow :=
  match rc_oauth2 rule with
  | Some flow => Some flow
  | None =>
      if bool_decide (rc_registry rule = Some false) then None
      else known ← lookup r (rc_env rule); kh_oauth2 known
  end.
End Registry.

(** ** What a loaded registry guarantees *)

Lemma ok_or_ok {E A} (e : E) (o : option A) a : ok_or e o = Ok a ↔ o = Some a.
Proof. destruct o; simpl; split; congruence. Qed.

(** A fold that only checks: it succeeds when every element passes. *)
Lemma try_fold_check {E A} (f : () → A → result E ()) xs u :
  try_fold f () xs = Ok u → Forall (λ x, f () x = Ok ()) xs.
Proof.
  induction xs as [|x xs IH]; simpl; [by constructor|]. rewrite bind_ok. intros ([] & Hx & Hxs).
  constructor; [done|by apply IH].
Qed.

Lemma ascii_upper_idemp b : ascii_upper (ascii_upper b) = ascii_upper b.
Proof. by destruct b. Qed.
Lemma ascii_upper_lower b : ascii_upper (ascii_lower b) = ascii_upper b.
Proof. by destruct b. Qed.
Lemma ascii_lower_upper b : ascii_lower (ascii_upper b) = ascii_lower b.
Proof. by destruct b. Qed.
Lemma ascii_lower_idemp b : ascii_lower (ascii_lower b) = ascii_lower b.
Proof. by destruct b. Qed.

Lemma to_ascii_uppercase_idemp s : to_ascii_uppercase (to_ascii_uppercase s) = to_ascii_uppercase s.
Proof. unfold to_ascii_uppercase. rewrite map_map. apply map_ext, ascii_upper_idemp. Qed.
Lemma to_ascii_lowercase_idemp s : to_ascii_lowercase (to_ascii_lowercase s) = to_ascii_lowercase s.
Proof. unfold to_ascii_lowercase. rewrite map_map. apply map_ext, ascii_lower_idemp. Qed.
Lemma uppercase_of_lower s t : map ascii_lower s = map ascii_lower t → to_ascii_uppercase s = to_ascii_uppercase t.
Proof.
  assert (∀ x, map ascii_upper (map ascii_lower x) = map ascii_upper x) as Hx.
  { intros x. rewrite map_map. apply map_ext, ascii_upper_lower. }
  intros Heq. unfold to_ascii_uppercase. by rewrite <- (Hx s), <- (Hx t), Heq.
Qed.

Lemma push_host_elem hosts h x : x ∈ push_host hosts h ↔ x ∈ hosts ∨ x = h.
Proof. unfold push_host. case_bool_decide; set_solver. Qed.
Lemma push_host_NoDup hosts h : NoDup hosts → NoDup (push_host hosts h).
Proof.
  unfold push_host. case_bool_decide; [done|]. intros Hn. apply NoDup_app. split_and!; [done| |apply NoDup_singleton].
  intros x Hx ->%list_elem_of_singleton. done.
Qed.
Lemma push_hosts_elem hosts hs x : x ∈ foldl push_host hosts hs ↔ x ∈ hosts ∨ x ∈ hs.
Proof.
  revert hosts. induction hs as [|h hs IH]; intros hosts; simpl; [set_solver|]. rewrite IH, push_host_elem. set_solver.
Qed.
Lemma push_hosts_NoDup hosts hs : NoDup hosts → NoDup (foldl push_host hosts hs).
Proof. revert hosts. induction hs as [|h hs IH]; intros hosts; simpl; [done|]. intros Hn. by apply IH, push_host_NoDup. Qed.

Section RegistryProperties.
Context `{!Digests, !UrlCrate, !TomlRegistry}.

(** The flow of an entry: its endpoints have a host, an authorization flow
    says where to authorize, and the fields to mint are named once each. *)
Definition flow_ok (flow : OAuthFlow) : Prop :=
  Forall (λ url, ∃ authority, flow_authority url = Ok authority) (flow_urls flow) ∧
  (of_flow flow = AuthorizationCode → is_Some (of_authorize_url flow)) ∧
  Forall (λ field, field ≠ []) (of_token_fields flow) ∧ NoDup (of_token_fields flow).

Lemma first_duplicate_None seen fields :
  first_duplicate seen fields = None → NoDup fields ∧ ∀ x, x ∈ seen → x ∉ fields.
Proof.
  revert seen. induction fields as [|field fields IH]; intros seen; simpl.
  - split; [by constructor|]. intros x _ ?%elem_of_nil. done.
  - case_bool_decide as Hf; [done|]. intros [Hn Hs]%IH. split.
    + constructor; [|done]. apply Hs. by left.
    + intros x Hx [->|Hin]%elem_of_cons; [done|]. apply (Hs x); [by right|done].
Qed.

Lemma validate_flow_ok flow source name u : validate_flow flow source name = Ok u → flow_ok flow.
Proof.
  unfold validate_flow. rewrite bind_ok. intros ([] & Hu%try_fold_check & Hrest).
  destruct (match of_flow flow with AuthorizationCode => true | _ => false end && negb (bool_of_opt (of_authorize_url flow))) eqn:Ha; [done|].
  destruct (existsb _ (of_token_fields flow)) eqn:He; [done|].
  destruct (first_duplicate [] (of_token_fields flow)) eqn:Hd; [done|]. apply first_duplicate_None in Hd as [Hn _].
  split_and!; [| | |done].
  - eapply Forall_impl; [exact Hu|]. cbn beta. intros url Hurl. apply bind_ok in Hurl as (a & Ha' & _).
    apply map_err_Ok in Ha'. by exists a.
  - intros Hf. rewrite Hf in Ha. simpl in Ha. destruct (of_authorize_url flow); [by eexists|done].
  - apply Forall_forall. intros field Hin ->. apply not_true_iff_false in He. apply He, existsb_exists.
    exists []. split; [by apply list_elem_of_In|done].
Qed.

Definition pattern_ok (p : bytes) : Prop := p ≠ [] ∧ validate_pattern p = Ok ().

Record known_ok (known : KnownHosts) : Prop := {
  ko_hosts : Forall (λ h, ∃ scope, EndpointScope_from_str h = Ok scope) (kh_hosts known);
  ko_nodup : NoDup (kh_hosts known);
  ko_pattern p : kh_pattern known = Some p → pattern_ok p;
  ko_oauth2 f : kh_oauth2 known = Some f → flow_ok f;
}.

Record rule_ok (rule : ContainsRule) : Prop := {
  ro_needle : cu_needle rule ≠ [];
  ro_lower : to_ascii_lowercase (cu_needle rule) = cu_needle rule;
  ro_pattern : pattern_ok (cu_pattern rule);
}.

Record registry_ok (r : Registry) : Prop := {
  rgo_key k known : rg_names r !! k = Some known → to_ascii_uppercase k = k;
  rgo_known k known : rg_names r !! k = Some known → known_ok known;
  rgo_contains : Forall rule_ok (rg_contains r);
}.

Lemma known_ok_default : known_ok KnownHosts_default.
Proof. split; simpl; [by constructor|by constructor|done|done]. Qed.

Lemma merge_slot_ok replace hosts pattern oauth2 slot :
  known_ok slot → Forall (λ h, ∃ scope, EndpointScope_from_str h = Ok scope) hosts →
  (∀ p, pattern = Some p → pattern_ok p) → (∀ f, oauth2 = Some f → flow_ok f) →
  known_ok (merge_slot replace hosts pattern oauth2 slot).
Proof.
  intros Hs Hh Hp Hf. unfold merge_slot.
  assert (known_ok (if replace then KnownHosts_default else slot)) as [Sh Sn Sp So]
    by (destruct replace; [apply known_ok_default|done]).
  split; simpl.
  - rewrite Forall_forall in *. intros h [Hin|Hin]%push_hosts_elem; auto.
  - by apply push_hosts_NoDup.
  - intros p. destruct pattern; [intros [= <-]; by apply Hp|apply Sp].
  - intros f. destruct oauth2; [intros [= <-]; by apply Hf|apply So].
Qed.

Lemma update_slot_ok names env f :
  (∀ k known, names !! k = Some known → to_ascii_uppercase k = k ∧ known_ok known) →
  (∀ slot, known_ok slot → known_ok (f slot)) →
  ∀ k known, update_slot names env f !! k = Some known → to_ascii_uppercase k = k ∧ known_ok known.
Proof.
  intros Hn Hf k known. unfold update_slot. rewrite lookup_insert_Some.
  intros [[<- <-]|[_ Hk]]; [|by apply Hn]. split; [apply to_ascii_uppercase_idemp|]. apply Hf.
  destruct (names !! to_ascii_uppercase env) as [slot|] eqn:E; [by eapply Hn|apply known_ok_default].
Qed.

Lemma validate_hosts_ok hosts source kind name u :
  validate_hosts hosts source kind name = Ok u → Forall (λ h, ∃ scope, EndpointScope_from_str h = Ok scope) hosts.
Proof.
  intros Hh%try_fold_check. eapply Forall_impl; [exact Hh|]. cbn beta. intros h Hp.
  apply bind_ok in Hp as (scope & Hs & _). apply map_err_Ok in Hs. by exists scope.
Qed.

Lemma validate_pattern_ok pattern source kind name u :
  validate_optional_pattern (nonempty pattern) source kind name = Ok u →
  ∀ p, nonempty pattern = Some p → pattern_ok p.
Proof.
  intros Hv p Hp. rewrite Hp in Hv. simpl in Hv. apply map_err_Ok in Hv. destruct u.
  split; [|done]. intros ->. unfold nonempty in Hp. by destruct pattern as [[|]|].
Qed.

Lemma validate_entry_flow_ok oauth2 source name u :
  validate_entry_flow oauth2 source name = Ok u → ∀ f, oauth2 = Some f → flow_ok f.
Proof. intros Hv f ->. by eapply validate_flow_ok. Qed.

Lemma registry_ok_of names contains :
  (∀ k known, names !! k = Some known → to_ascii_uppercase k = k ∧ known_ok known) → Forall rule_ok contains →
  registry_ok {| rg_names := names; rg_contains := contains |}.
Proof. intros Hn Hc. split; simpl; [intros k known Hk; apply (Hn _ _ Hk)|intros k known Hk; apply (Hn _ _ Hk)|done]. Qed.

Lemma registry_ok_names r k known : registry_ok r → rg_names r !! k = Some known → to_ascii_uppercase k = k ∧ known_ok known.
Proof. intros [Hk Hn _] Hl. split; [exact (Hk _ _ Hl)|exact (Hn _ _ Hl)]. Qed.

Lemma apply_provider_ok source r p r' : registry_ok r → apply_provider source r p = Ok r' → registry_ok r'.
Proof.
  intros Hr. destruct p as [provider entry]. unfold apply_provider. rewrite bind_ok. intros (u1 & Hh%validate_hosts_ok & Hp).
  apply bind_ok in Hp as (u2 & Hpat & Hp). apply bind_ok in Hp as (u3 & Hfl & Hp).
  pose proof (validate_pattern_ok _ _ _ _ _ Hpat) as Hpok. pose proof (validate_entry_flow_ok _ _ _ _ Hfl) as Hfok.
  apply bind_ok in Hp as (contains & Hc & [= <-]). apply registry_ok_of.
  - generalize (rg_names r), (registry_ok_names r) as Hn. intros names Hn. specialize (λ k known, Hn k known Hr).
    revert names Hn. induction (pe_env entry) as [|env envs IH]; intros names Hn; [done|]. simpl. apply IH.
    apply update_slot_ok; [done|]. intros slot Hs. by apply merge_slot_ok.
  - assert (∀ l, Forall rule_ok l → try_fold (push_contains source provider (nonempty (pe_pattern entry))) l (pe_contains entry) = Ok contains →
      Forall rule_ok contains) as Hpush.
    { intros l Hl Hf. eapply (try_fold_inv (Forall rule_ok)); [|exact Hl|exact Hf].
      intros b x b' _ Hb. unfold push_contains. case_bool_decide as Hx; [done|]. rewrite bind_ok.
      intros (pat & Hpat'%ok_or_ok & [= <-]). apply Forall_app. split; [done|]. apply Forall_singleton. split; simpl.
      - by destruct x.
      - apply to_ascii_lowercase_idemp.
      - by apply Hpok. }
    refine (Hpush _ _ Hc). pose proof (rgo_contains r Hr) as Hrc. destruct (pe_replace entry); [|done].
    rewrite Forall_forall in *. intros rule [_ Hin]%list_elem_of_filter. by apply Hrc.
Qed.

Lemma apply_name_ok source r p r' : registry_ok r → apply_name source r p = Ok r' → registry_ok r'.
Proof.
  intros Hr. destruct p as [env entry]. unfold apply_name. rewrite bind_ok. intros (u1 & Hh%validate_hosts_ok & Hp).
  apply bind_ok in Hp as (u2 & Hpat & Hp). apply bind_ok in Hp as (u3 & Hfl & [= <-]).
  apply registry_ok_of; [|apply (rgo_contains r Hr)]. apply update_slot_ok; [intros k known; by apply registry_ok_names|].
  intros slot Hs. apply merge_slot_ok; [done|done|by eapply validate_pattern_ok|by eapply validate_entry_flow_ok].
Qed.

Lemma apply_file_ok file source r r' : registry_ok r → apply_file file source r = Ok r' → registry_ok r'.
Proof.
  intros Hr. unfold apply_file. rewrite bind_ok. intros (claimed & _ & Hp). apply bind_ok in Hp as (r1 & Hp & Hn).
  eapply (try_fold_inv registry_ok); [|eapply (try_fold_inv registry_ok); [|exact Hr|exact Hp]|exact Hn].
  - intros b x b' _. apply apply_name_ok.
  - intros b x b' _. apply apply_provider_ok.
Qed.

Lemma apply_ok text source r r' : registry_ok r → apply text source r = Ok r' → registry_ok r'.
Proof. intros Hr. unfold apply. rewrite bind_ok. intros (file & _ & Hf). by eapply apply_file_ok. Qed.

Lemma registry_ok_default : registry_ok Registry_default.
Proof. apply registry_ok_of; [|by constructor]. intros k known. by rewrite lookup_empty. Qed.

(** C29: Whatever the bundled table and the override directories hold, a
    registry that loads is well formed: names are kept in upper case, every
    host parses as an endpoint and is listed once, every template is a valid,
    nonempty pattern, every flow has usable endpoints, an authorize endpoint
    where its kind needs one and distinct nonempty fields, and every substring
    rule is a nonempty lower-case needle with a valid pattern. *)
Theorem loaded_registry_well_formed bundled global project r :
  load_union bundled global project = Ok r → registry_ok r.
Proof.
  unfold load_union. rewrite bind_ok. intros (r0 & Hb & Hd).
  eapply (try_fold_inv registry_ok); [|eapply apply_ok; [apply registry_ok_default|exact Hb]|exact Hd].
  intros b dir b' _ Hok. unfold load_dir. rewrite bind_ok. intros (files & _ & Hf).
  eapply (try_fold_inv registry_ok); [|exact Hok|exact Hf]. intros b1 f b2 _ Hok1. unfold apply_rules_file.
  rewrite bind_ok. intros (text & _ & Ha). by eapply apply_ok.
Qed.

(** ** What the layers amount to *)

(** One entry's say about a name. *)
Record Layer := {
  ly_replace : bool;
  ly_hosts : list bytes;
  ly_pattern : option bytes;
  ly_oauth2 : option OAuthFlow;
}.
Definition provider_layer (p : ProviderEntry) : Layer :=
  {| ly_replace := pe_replace p; ly_hosts := pe_hosts p; ly_pattern := nonempty (pe_pattern p); ly_oauth2 := pe_oauth2 p |}.
Definition name_layer (p : NameEntry) : Layer :=
  {| ly_replace := ne_replace p; ly_hosts := ne_hosts p; ly_pattern := nonempty (ne_pattern p); ly_oauth2 := ne_oauth2 p |}.

(** What a file says about a name, providers first: the layers of one key. *)
Definition provider_layers (key : bytes) (p : bytes * ProviderEntry) : list Layer :=
  map (λ _, provider_layer p.2) (filter (λ env, to_ascii_uppercase env = key) (pe_env p.2)).
Definition name_layers (key : bytes) (p : bytes * NameEntry) : list Layer :=
  if bool_decide (to_ascii_uppercase p.1 = key) then [name_layer p.2] else [].
Definition file_layers (key : bytes) (file : RegistryFile) : list Layer :=
  flat_map (provider_layers key) (rf_providers file) ++ flat_map (name_layers key) (rf_names file).

(** The layers that count: from the last replacing one on. *)
Fixpoint live (layers : list Layer) : list Layer :=
  match layers with
  | [] => []
  | layer :: rest => if existsb ly_replace rest then live rest else layer :: rest
  end.

(** The reference: hosts in first-seen order, the last pattern, the last flow. *)
Definition effective (layers : list Layer) : option KnownHosts :=
  match layers with
  | [] => None
  | _ => Some {| kh_hosts := foldl push_host [] (flat_map ly_hosts (live layers));
                 kh_pattern := last (omap ly_pattern (live layers));
                 kh_oauth2 := last (omap ly_oauth2 (live layers)) |}
  end.

(** Merging one layer, as the code does it. *)
Definition merge_layer (o : option KnownHosts) (l : Layer) : option KnownHosts :=
  Some (merge_slot (ly_replace l) (ly_hosts l) (ly_pattern l) (ly_oauth2 l) (default KnownHosts_default o)).

Lemma live_snoc layers l : live (layers ++ [l]) = if ly_replace l then [l] else live layers ++ [l].
Proof.
  induction layers as [|x layers IH]; simpl; [by destruct (ly_replace l)|].
  rewrite existsb_app. simpl. rewrite orb_false_r. destruct (ly_replace l) eqn:El.
  - rewrite orb_true_r. by rewrite IH.
  - rewrite orb_false_r. by destruct (existsb ly_replace layers).
Qed.

Lemma last_omap_snoc {A B} (f : A → option B) (l : list A) x :
  last (omap f (l ++ [x])) = match f x with Some b => Some b | None => last (omap f l) end.
Proof. rewrite omap_app. simpl. destruct (f x); [by rewrite last_snoc|by rewrite app_nil_r]. Qed.

Lemma merge_layers_effective layers : foldl merge_layer None layers = effective layers.
Proof.
  induction layers as [|l layers IH] using rev_ind; [done|]. rewrite foldl_app. simpl. rewrite IH.
  unfold merge_layer, merge_slot.
  transitivity (Some {| kh_hosts := foldl push_host [] (flat_map ly_hosts (live (layers ++ [l])));
    kh_pattern := last (omap ly_pattern (live (layers ++ [l]))); kh_oauth2 := last (omap ly_oauth2 (live (layers ++ [l]))) |});
    [|by destruct layers].
  rewrite live_snoc. destruct (ly_replace l).
  - simpl. rewrite app_nil_r. by destruct (ly_pattern l), (ly_oauth2 l).
  - rewrite flat_map_app, foldl_app, !last_omap_snoc. simpl. rewrite app_nil_r. by destruct layers.
Qed.

Lemma update_slot_lookup names env f key :
  update_slot names env f !! key =
    if bool_decide (to_ascii_uppercase env = key) then Some (f (default KnownHosts_default (names !! key))) else names !! key.
Proof. unfold update_slot. case_bool_decide; simplify_map_eq; done. Qed.

Lemma apply_provider_names source r p r' key :
  apply_provider source r p = Ok r' → rg_names r' !! key = foldl merge_layer (rg_names r !! key) (provider_layers key p).
Proof.
  destruct p as [provider entry]. unfold apply_provider. rewrite bind_ok. intros (u1 & _ & Hp).
  apply bind_ok in Hp as (u2 & _ & Hp). apply bind_ok in Hp as (u3 & _ & Hp). apply bind_ok in Hp as (contains & _ & [= <-]).
  unfold provider_layers. cbn [rg_names snd]. generalize (rg_names r) as names.
  induction (pe_env entry) as [|env envs IH]; intros names; [done|]. cbn [foldl]. rewrite IH, update_slot_lookup, filter_cons.
  case_bool_decide as He; [rewrite decide_True by done|rewrite decide_False by done]; done.
Qed.

Lemma apply_name_names source r p r' key :
  apply_name source r p = Ok r' → rg_names r' !! key = foldl merge_layer (rg_names r !! key) (name_layers key p).
Proof.
  destruct p as [env entry]. unfold apply_name. rewrite bind_ok. intros (u1 & _ & Hp).
  apply bind_ok in Hp as (u2 & _ & Hp). apply bind_ok in Hp as (u3 & _ & [= <-]).
  unfold name_layers. cbn [rg_names fst]. rewrite update_slot_lookup. by case_bool_decide.
Qed.

(** A fold whose steps each append their own layers. *)
Lemma fold_layers {A} (f : Registry → A → result RegistryError Registry) (layers : A → list Layer) key xs r r' :
  (∀ b x b', f b x = Ok b' → rg_names b' !! key = foldl merge_layer (rg_names b !! key) (layers x)) →
  try_fold f r xs = Ok r' → rg_names r' !! key = foldl merge_layer (rg_names r !! key) (flat_map layers xs).
Proof.
  intros Hf. revert r. induction xs as [|x xs IH]; intros r; simpl; [by intros [= <-]|].
  rewrite bind_ok. intros (b & Hb & Hr). rewrite foldl_app, <- (Hf _ _ _ Hb). by apply IH.
Qed.

Lemma apply_file_names file source r r' key :
  apply_file file source r = Ok r' → rg_names r' !! key = foldl merge_layer (rg_names r !! key) (file_layers key file).
Proof.
  unfold apply_file. rewrite bind_ok. intros (claimed & _ & Hp). apply bind_ok in Hp as (r1 & Hp & Hn).
  unfold file_layers. rewrite foldl_app.
  rewrite (fold_layers _ (name_layers key) key _ _ _ (λ b x b', apply_name_names source b x b' key) Hn).
  by rewrite (fold_layers _ (provider_layers key) key _ _ _ (λ b x b', apply_provider_names source b x b' key) Hp).
Qed.

(** The texts that are layered, in order: the bundled table, then each rules
    directory's [toml] files by name, the global one's first. *)
Definition dir_texts (dir : RulesDir) : list bytes :=
  if rd_is_dir dir then match rules_files dir with Ok files => omap snd files | Err _ => [] end else [].
Definition layer_texts (bundled : bytes) (global project : option RulesDir) : list bytes :=
  bundled :: flat_map dir_texts (option_list global ++ option_list project).

(** The registry [r'] is [r] with the files of [texts] layered over it. *)
Definition layers_onto (texts : list bytes) (r r' : Registry) : Prop :=
  ∃ files, Forall2 (λ text file, toml_registry text = Ok file) texts files ∧
    ∀ key, rg_names r' !! key = foldl merge_layer (rg_names r !! key) (flat_map (file_layers key) files).

Lemma layers_onto_refl r : layers_onto [] r r.
Proof. exists []. by split. Qed.

Lemma layers_onto_app l k r1 r2 r3 : layers_onto l r1 r2 → layers_onto k r2 r3 → layers_onto (l ++ k) r1 r3.
Proof.
  intros (fl & Hl & Hrl) (fk & Hk & Hrk). exists (fl ++ fk). split; [by apply Forall2_app|].
  intros key. by rewrite Hrk, Hrl, flat_map_app, foldl_app.
Qed.

Lemma apply_layers text source r r' : apply text source r = Ok r' → layers_onto [text] r r'.
Proof.
  unfold apply. rewrite bind_ok. intros (file & Hf%map_err_Ok & Hr). exists [file]. split; [by repeat constructor|].
  intros key. simpl. rewrite app_nil_r. by eapply apply_file_names.
Qed.

Lemma load_dir_layers r dir r' : rd_is_dir dir = true → load_dir r dir = Ok r' → layers_onto (dir_texts dir) r r'.
Proof.
  intros Hd. unfold load_dir, dir_texts. rewrite Hd, bind_ok. intros (files & -> & Hf). revert r Hf.
  induction files as [|[name text] files IH]; intros r; simpl; [intros [= <-]; apply layers_onto_refl|].
  rewrite bind_ok. intros (b & Hb & Hr). unfold apply_rules_file in Hb. apply bind_ok in Hb as (t & Ht%ok_or_ok & Ha).
  simpl in Ht. subst text. simpl. apply (layers_onto_app [t] _ r b); [by eapply apply_layers|by apply IH].
Qed.

Lemma load_dirs_layers dirs r r' :
  try_fold load_dir r (filter (λ dir, rd_is_dir dir = true) dirs) = Ok r' → layers_onto (flat_map dir_texts dirs) r r'.
Proof.
  revert r. induction dirs as [|dir dirs IH]; intros r; [intros [= <-]; apply layers_onto_refl|].
  rewrite filter_cons. cbn [flat_map]. case_decide as Hdir.
  - cbn [try_fold]. rewrite bind_ok. intros (b & Hl & Hr). apply (layers_onto_app _ _ r b); [by apply load_dir_layers|by apply IH].
  - intros Hr. unfold dir_texts at 1. destruct (rd_is_dir dir); [done|]. by apply IH.
Qed.

(** What a loaded registry knows of a name, in whatever case the name is
    written, is a function of what each file says of it, taken in the order
    bundled table, global directory, project directory, files by name and
    providers before names: the hosts in first-seen order without repetition,
    the last nonempty pattern and the last flow, all since the last entry that
    replaces; and nothing when no file mentions it. *)
Theorem registry_layers bundled global project r :
  load_union bundled global project = Ok r →
  ∃ files, Forall2 (λ text file, toml_registry text = Ok file) (layer_texts bundled global project) files ∧
    ∀ env, lookup r env = effective (flat_map (file_layers (to_ascii_uppercase env)) files).
Proof.
  unfold load_union. rewrite bind_ok. intros (r0 & Hb%apply_layers & Hd).
  apply load_dirs_layers in Hd.
  destruct (layers_onto_app _ _ _ _ _ Hb Hd) as (files & Hf & Hr). exists files. split; [done|].
  intros env. unfold lookup. rewrite Hr. apply merge_layers_effective.
Qed.

(** One file never lets two providers speak for one name. *)
Lemma claim_fold source claims claimed r :
  try_fold (claim source) claimed claims = Ok r →
  ∀ key, length (filter (λ c : bytes * bytes, to_ascii_uppercase c.2 = key) claims) + (if claimed !! key is Some _ then 1 else 0) ≤ 1.
Proof.
  revert claimed. induction claims as [|[provider env] claims IH]; intros claimed; simpl.
  - intros _ key. destruct (claimed !! key); lia.
  - rewrite bind_ok. intros (m & Hm & Hr) key. destruct (claimed !! to_ascii_uppercase env) as [prev|] eqn:E; [done|].
    injection Hm as <-. specialize (IH _ Hr key). rewrite filter_cons. simpl.
    destruct (decide (to_ascii_uppercase env = key)) as [<-|Hne].
    + rewrite E. rewrite lookup_insert_eq in IH. simpl. lia.
    + rewrite lookup_insert_ne in IH by done. exact IH.
Qed.

Lemma provider_layers_length key (p : bytes * ProviderEntry) :
  length (provider_layers key p) =
  length (filter (λ c : bytes * bytes, to_ascii_uppercase c.2 = key) (map (pair p.1) (pe_env p.2))).
Proof.
  unfold provider_layers. rewrite length_map. induction (pe_env p.2) as [|env envs IH]; [done|]. cbn [map].
  rewrite !filter_cons. cbn [snd]. destruct (decide _); simpl; by rewrite IH.
Qed.

(** In a file that loads, at most one provider says anything of a name, however
    its case is written; a second claim is an error before anything is merged. *)
Lemma one_provider_per_name file source r r' key :
  apply_file file source r = Ok r' → length (flat_map (provider_layers key) (rf_providers file)) ≤ 1.
Proof.
  unfold apply_file. rewrite bind_ok. intros (claimed & Hc & _). pose proof (claim_fold _ _ _ _ Hc key) as Hk.
  rewrite lookup_empty, Nat.add_0_r in Hk. etransitivity; [|exact Hk]. apply Nat.eq_le_incl.
  unfold claims_of. induction (rf_providers file) as [|p ps IH]; [done|]. simpl.
  by rewrite filter_app, !length_app, provider_layers_length, IH.
Qed.

(** ** Lookups *)

Lemma eq_ignore_case_upper a b : eq_ignore_case a b = true → to_ascii_uppercase a = to_ascii_uppercase b.
Proof. rewrite eq_ignore_case_spec. apply uppercase_of_lower. Qed.

Lemma default_pattern_ok : pattern_ok DEFAULT_PATTERN.
Proof. split; [done|by vm_compute]. Qed.

(** The template of a name: the explicit pattern when it is not empty, else a
    valid one, the same in every case the name is written in, and the default
    only where neither the name nor a substring of it is known. *)
Theorem template_valid r env explicit :
  registry_ok r →
  (∀ p, nonempty explicit = Some p → template r env explicit = p) ∧
  (nonempty explicit = None → pattern_ok (template r env explicit)) ∧
  (∀ env', eq_ignore_case env env' = true → template r env' explicit = template r env explicit).
Proof.
  intros Hr. split_and!.
  - intros p Hp. unfold template. by rewrite Hp.
  - intros Hn. unfold template. rewrite Hn.
    destruct (rg_names r !! to_ascii_uppercase env) as [known|] eqn:E; simpl.
    + destruct (kh_pattern known) as [p|] eqn:Ep; [by apply (ko_pattern _ (rgo_known r Hr _ _ E))|].
      destruct (find _ (rg_contains r)) as [rule|] eqn:Ef; [|apply default_pattern_ok].
      apply find_some in Ef as [Hin%list_elem_of_In _].
      pose proof (rgo_contains r Hr) as Hc. rewrite Forall_forall in Hc. apply (ro_pattern _ (Hc _ Hin)).
    + destruct (find _ (rg_contains r)) as [rule|] eqn:Ef; [|apply default_pattern_ok].
      apply find_some in Ef as [Hin%list_elem_of_In _].
      pose proof (rgo_contains r Hr) as Hc. rewrite Forall_forall in Hc. apply (ro_pattern _ (Hc _ Hin)).
  - intros env' He. pose proof (eq_ignore_case_upper _ _ He) as Hu.
    apply eq_ignore_case_spec in He. unfold template, to_ascii_lowercase. by rewrite <- Hu, <- He.
Qed.

#[export] Instance str_le_total : Total str_le.
Proof.
  intros a. induction a as [|x a IH]; intros b; [by left|]. destruct b as [|y b]; [by right|].
  unfold str_le in *. simpl. destruct (N.ltb_spec (u8 x) (u8 y)), (N.ltb_spec (u8 y) (u8 x)); [lia|by left|by right|apply IH].
Qed.
#[export] Instance str_le_trans : Transitive str_le.
Proof.
  intros a. induction a as [|x a IH]; intros b c; [done|]. destruct b as [|y b], c as [|z c]; [done..|].
  unfold str_le in *. simpl.
  destruct (N.ltb_spec (u8 x) (u8 y)), (N.ltb_spec (u8 y) (u8 x)), (N.ltb_spec (u8 y) (u8 z)), (N.ltb_spec (u8 z) (u8 y)),
    (N.ltb_spec (u8 x) (u8 z)), (N.ltb_spec (u8 z) (u8 x)); try done; try lia. apply IH.
Qed.

(** The reverse lookup names exactly the names one of whose hosts covers the
    endpoint, sorted. *)
Theorem envs_for_host_exact r scheme host port :
  StronglySorted str_le (envs_for_host r scheme host port) ∧
  ∀ env, env ∈ envs_for_host r scheme host port ↔
    ∃ known, rg_names r !! env = Some known ∧
      ∃ entry scope, entry ∈ kh_hosts known ∧ EndpointScope_from_str entry = Ok scope ∧ endpoint_match scope scheme host port = true.
Proof.
  split; [apply (StronglySorted_merge_sort str_le)|]. intros env. unfold envs_for_host. rewrite (merge_sort_Permutation str_le), list_elem_of_fmap.
  assert (∀ known, covers_host known scheme host port = true ↔
    ∃ entry scope, entry ∈ kh_hosts known ∧ EndpointScope_from_str entry = Ok scope ∧ endpoint_match scope scheme host port = true) as Hc.
  { intros known. unfold covers_host. rewrite existsb_exists. setoid_rewrite <- list_elem_of_In. split.
    - intros (entry & Hin & Hm). destruct (EndpointScope_from_str entry) as [scope|] eqn:E; [|done].
      exists entry, scope. split_and!; [done..|]. unfold uri_match in Hm. simpl in Hm. by rewrite orb_false_r in Hm.
    - intros (entry & scope & Hin & E & Hm). exists entry. split; [done|]. rewrite E. unfold uri_match. simpl. by rewrite Hm. }
  split.
  - intros ([k known] & -> & [Hcov Hin%elem_of_map_to_list]%list_elem_of_filter). simpl in *. exists known. by rewrite <- Hc.
  - intros (known & Hk & Hcov). exists (env, known). split; [done|]. apply list_elem_of_filter.
    split; [by apply Hc|by apply elem_of_map_to_list].
Qed.

(** A validated flow's endpoints all reduce to an authority. *)
Lemma flow_ok_authority flow url : flow_ok flow → url ∈ flow_urls flow → ∃ authority, authority_of url = Ok authority.
Proof.
  intros (Hf & _) Hin. rewrite Forall_forall in Hf. destruct (Hf url Hin) as (h & Ha). unfold flow_authority in Ha.
  apply bind_ok in Ha as (parsed & Hp & Ha). unfold authority_of. rewrite Hp. simpl.
  destruct (url_host parsed) as [host|]; [|done]. simpl. by eexists.
Qed.

(** An endpoint at an IPv6 address loses its brackets, so that with its port
    the authority reads as one longer run of colons. *)
Lemma ipv6_authority_unbracketed url parsed a port :
  url_parse url = Ok parsed → url_host parsed = Some (Ipv6 a) → host_display (Ipv6 a) = bs "[" ++ a ++ bs "]" →
  head a ≠ Some Byte.x5b → last a ≠ Some Byte.x5d → url_port parsed = Some port → is_default_port (url_scheme parsed) port = false →
  authority_of url = Ok (url_scheme parsed ++ bs "://" ++ a ++ bs ":" ++ dec port).
Proof.
  intros Hp Hh Hd Hfirst Hlast Hport Hdef. unfold authority_of. rewrite Hp. simpl. rewrite Hh. simpl. rewrite Hd, Hport, Hdef. simpl.
  assert (rev (drop_while (λ b, bool_decide (b = Byte.x5d)) (rev (drop_while (λ b, bool_decide (b = Byte.x5b)) (a ++ [Byte.x5d])))) = a)
    as Ha; [|by rewrite (Ha : rev (drop_while _ (rev (drop_while _ (a ++ bs "]")))) = a)].
  destruct a as [|x a] using rev_ind; [done|]. clear IHa.
  assert (drop_while (λ b, bool_decide (b = Byte.x5b)) ((a ++ [x]) ++ [Byte.x5d]) = (a ++ [x]) ++ [Byte.x5d]) as Hdw.
  { destruct a as [|y a]; simpl in *; rewrite bool_decide_eq_false_2; [done|congruence|done|congruence]. }
  rewrite Hdw, rev_app_distr. simpl. rewrite rev_app_distr. simpl. rewrite last_snoc in Hlast.
  rewrite bool_decide_eq_false_2 by congruence. simpl. by rewrite rev_involutive.
Qed.
End RegistryProperties.

(** ** Concrete runs *)

(** A table of lines [provider env host pattern], in place of TOML. *)
Definition sample_toml : TomlRegistry := {|
  toml_registry text :=
    Ok {| rf_providers := omap (λ line, match split_byte Byte.x20 line with
             | [provider; env; host; pattern] =>
                 Some (provider, {| pe_env := [env]; pe_hosts := [host]; pe_pattern := Some pattern; pe_contains := [];
                                    pe_replace := false; pe_oauth2 := None |})
             | _ => None
             end) (split_byte LF text);
          rf_names := [] |};
|}.
#[local] Existing Instances sample_digests sample_url sample_toml.

Definition sample_bundled : bytes := bs "github GH_TOKEN https://api.test ghp_{hex:36}".
Definition sample_rules_dir : RulesDir :=
  {| rd_path := bs "rules.d"; rd_is_dir := true;
     rd_entries := Some [Some (bs "b.toml", Some (bs "corp gh_token https://ghe.test corp_{hex:8}"));
                         Some (bs "notes.md", None); Some (bs "a.toml", Some (bs "corp gh_token https://old.test old_{hex:8}"))] |}.
Definition sample_registry : Registry :=
  {| rg_names := {[bs "GH_TOKEN" := {| kh_hosts := [bs "https://api.test"; bs "https://old.test"; bs "https://ghe.test"];
                                       kh_pattern := Some (bs "corp_{hex:8}"); kh_oauth2 := None |}]};
     rg_contains := [] |}.

Example sample_registry_loads : load_union sample_bundled None (Some sample_rules_dir) = Ok sample_registry.
Proof. vm_compute. reflexivity. Qed.

Lemma loaded_registry_well_formed_witness : registry_ok sample_registry.
Proof. apply (loaded_registry_well_formed sample_bundled None (Some sample_rules_dir)). vm_compute. reflexivity. Defined.

Lemma registry_layers_witness :
  ∃ files, length files = 3 ∧
    lookup sample_registry (bs "Gh_Token") = effective (flat_map (file_layers (bs "GH_TOKEN")) files).
Proof.
  destruct (registry_layers sample_bundled None (Some sample_rules_dir) sample_registry) as (files & Hf & Hl); [vm_compute; reflexivity|].
  exists files. split; [rewrite <- (Forall2_length _ _ _ Hf); vm_compute; reflexivity|exact (Hl (bs "Gh_Token"))].
Defined.

Lemma template_valid_witness : pattern_ok (template Registry_default (bs "OTHER") None).
Proof. apply (template_valid Registry_default (bs "OTHER") None); [exact registry_ok_default|reflexivity]. Defined.
