(* ===== verification/Import.v ===== *)
(** * Importing flows

    [crates/hodor-config/src/import.rs] and the command of [commands.rs] over it:
    the flow an OIDC discovery or an OpenAPI document states, and the registry
    fragment that is printed for it. [serde_json] is the class [JsonDoc]. *)

From S2P Require Import Prelude ConnString Grants Registry.

(** ** Documents *)

(** [serde_json::Value]; an object's fields are in the order of its map. *)
Inductive Value :=
| VNull
| VBool (b : bool)
| VNumber (text : bytes)
| VString (s : bytes)
| VArray (items : list Value)
| VObject (fields : list (bytes * Value)).
Class JsonDoc := { from_str : bytes → result bytes Value }.

Definition as_str (v : Value) : option bytes := match v with VString s => Some s | _ => None end.
Definition as_array (v : Value) : option (list Value) := match v with VArray items => Some items | _ => None end.
Definition as_object (v : Value) : option (list (bytes * Value)) := match v with VObject fields => Some fields | _ => None end.
Definition field (fields : list (bytes * Value)) (key : bytes) : option Value :=
  snd <$> find (λ f : bytes * Value, bool_decide (f.1 = key)) fields.
(** [value.get(key)], and a text there. *)
Definition get (v : Value) (key : bytes) : option Value := fields ← as_object v; field fields key.
Definition text_at (fields : list (bytes * Value)) (key : bytes) : option bytes := v ← field fields key; as_str v.
Definition get_str (v : Value) (key : bytes) : option bytes := v ← get v key; as_str v.

Inductive ImportError :=
| ParseDiscovery (source : bytes)
| DiscoveryNotAnObject
| DiscoveryMissingTokenEndpoint
| DiscoveryMissingGrantTypes
| DiscoveryNoSupportedGrantType
| ParseOpenapi (source : bytes)
| OpenapiNoSchemes
| ImportRegistry (e : RegistryError)
| ReadDocument (file : bytes).

Section Importing.
Context `{!UrlCrate, !JsonDoc}.

Definition imported (kind : FlowKind) (token_url : bytes) (authorize_url refresh_url : option bytes) : OAuthFlow :=
  {| of_flow := kind; of_token_url := token_url; of_authorize_url := authorize_url; of_refresh_url := refresh_url;
     of_rotates_refresh := false; of_token_fields := [] |}.

Definition lists (grants : list Value) (grant : bytes) : bool := existsb (λ g, bool_decide (as_str g = Some grant)) grants.
Definition flow_from_oidc (doc : bytes) : result ImportError OAuthFlow :=
  value ← map_err ParseDiscovery (from_str doc);
  obj ← ok_or DiscoveryNotAnObject (as_object value);
  token_url ← ok_or DiscoveryMissingTokenEndpoint (text_at obj (bs "token_endpoint"));
  grants ← ok_or DiscoveryMissingGrantTypes (v ← field obj (bs "grant_types_supported"); as_array v);
  kind ← (if lists grants (bs "authorization_code") then Ok AuthorizationCode
          else if lists grants (bs "client_credentials") then Ok ClientCredentials
          else Err DiscoveryNoSupportedGrantType);
  Ok (imported kind token_url (text_at obj (bs "authorization_endpoint")) (text_at obj (bs "refresh_endpoint"))).

Fixpoint first_flow (flows : list (bytes * Value)) : result bytes OAuthFlow :=
  match flows with
  | [] => Err (bs "oauth2 scheme has no supported flow (`clientCredentials` or `authorizationCode`)")
  | (key, flow) :: flows =>
      let kind := if bool_decide (key = bs "clientCredentials") then Some ClientCredentials
                  else if bool_decide (key = bs "authorizationCode") then Some AuthorizationCode else None in
      match kind with
      | None => first_flow flows
      | Some kind =>
          match get_str flow (bs "tokenUrl") with
          | None => Err (bs "oauth2 flow `" ++ key ++ bs "` has no `tokenUrl`")
          | Some token_url => Ok (imported kind token_url (get_str flow (bs "authorizationUrl")) (get_str flow (bs "refreshUrl")))
          end
      end
  end.
Definition flow_from_openapi_scheme (scheme : Value) : result bytes OAuthFlow :=
  flows ← ok_or (bs "oauth2 scheme has no `flows`") (v ← get scheme (bs "flows"); as_object v);
  first_flow flows.
Definition scheme_entry (s : bytes * Value) : option (bytes * result bytes OAuthFlow) :=
  match get_str s.2 (bs "type") with
  | Some kind =>
      if bool_decide (kind = bs "oauth2") then Some (s.1, flow_from_openapi_scheme s.2)
      else if bool_decide (kind = bs "openIdConnect") then
        Some (s.1, Err (bs "openIdConnect scheme: curate from the issuer's discovery document instead"))
      else None
  | None => None
  end.
Definition flows_from_openapi (doc : bytes) : result ImportError (list (bytes * result bytes OAuthFlow)) :=
  value ← map_err ParseOpenapi (from_str doc);
  schemes ← ok_or OpenapiNoSchemes (v ← get value (bs "components"); v ← get v (bs "securitySchemes"); as_object v);
  Ok (omap (M:=list) scheme_entry schemes).

(** ** The fragment *)

Definition flow_kind_name (kind : FlowKind) : bytes :=
  match kind with
  | ClientCredentials => bs "client_credentials"
  | AuthorizationCode => bs "authorization_code"
  | Refresh => bs "refresh"
  end.
Definition setting (key value : bytes) : bytes := key ++ dq " = ^" ++ value ++ dq "^".
Definition url_line (key : bytes) (url : option bytes) : list bytes := match url with Some url => [setting key url] | None => [] end.
Definition fragment_lines (slug env : bytes) (flow : OAuthFlow) : list bytes :=
  [bs "[providers." ++ slug ++ bs "]"; dq "env = [^" ++ env ++ dq "^]"; bs "replace = true"; [];
   bs "[providers." ++ slug ++ bs ".oauth2]"; setting (bs "flow") (flow_kind_name (of_flow flow));
   setting (bs "token_url") (of_token_url flow)] ++
  url_line (bs "authorize_url") (of_authorize_url flow) ++ url_line (bs "refresh_url") (of_refresh_url flow).
Definition to_toml_fragment (slug env : bytes) (flow : OAuthFlow) : result RegistryError bytes :=
  _ ← validate_flow flow (bs "<generated>") slug;
  Ok (unlines (fragment_lines slug env flow)).

(** ** The command *)

Record ImportArgs := { ia_file : bytes; ia_slug : bytes; ia_env : bytes }.
Inductive RegistryCommand := FromOidc (import : ImportArgs) | FromOpenapi (import : ImportArgs).

(** What is printed, and how the command ends; a skipped flow prints nothing, and
    one that is not valid ends it. *)
Fixpoint print_flows (env : bytes) (flows : list (bytes * result bytes OAuthFlow)) : bytes * result ImportError () :=
  match flows with
  | [] => ([], Ok ())
  | (slug, Err _) :: flows => print_flows env flows
  | (slug, Ok flow) :: flows =>
      match to_toml_fragment slug env flow with
      | Err e => ([], Err (ImportRegistry e))
      | Ok text => let '(printed, r) := print_flows env flows in (text ++ printed, r)
      end
  end.
(** [render] is how an error prints. *)
Definition registry_run (render : ImportError → bytes) (read : bytes → option bytes) (command : RegistryCommand) : bytes * result ImportError () :=
  let import := match command with FromOidc import | FromOpenapi import => import end in
  match read (ia_file import) with
  | None => ([], Err (ReadDocument (ia_file import)))
  | Some doc =>
      let flows := match command with
                   | FromOidc _ => Ok [(ia_slug import, map_err render (flow_from_oidc doc))]
                   | FromOpenapi _ => flows_from_openapi doc
                   end in
      match flows with
      | Err e => ([], Err e)
      | Ok flows => print_flows (ia_env import) flows
      end
  end.
End Importing.

(** ** Reading a fragment back *)

(** What TOML reads of a fragment: a table name of bare keys, texts between
    quotes without escapes, and the lines in the order they are printed. *)
Definition bare_char (b : byte) : bool :=
  is_digit b || in_range 65 90 b || in_range 97 122 b || bool_decide (b = Byte.x5f) || bool_decide (b = Byte.x2d).
Definition bare_key (s : bytes) : bool := negb (bool_decide (s = [])) && forallb bare_char s.
Definition plain_char (b : byte) : bool :=
  negb (bool_decide (b = Byte.x22)) && negb (bool_decide (b = Byte.x5c)) && (32 <=? u8 b)%N && negb (bool_decide (b = Byte.x7f)).
Definition plain_text (s : bytes) : bool := forallb plain_char s.

Definition between_ (before after line : bytes) : option bytes := s ← strip_prefix before line; strip_suffix after s.
Definition guarded_by (p : bytes → bool) (s : option bytes) : option bytes := s ← s; if p s then Some s else None.
Definition read_setting (key line : bytes) : option bytes := guarded_by plain_text (between_ (key ++ dq " = ^") (dq "^") line).
Definition kind_named (name : bytes) : option FlowKind :=
  find (λ kind, bool_decide (flow_kind_name kind = name)) [ClientCredentials; AuthorizationCode; Refresh].
Definition read_optional (key : bytes) (lines : list bytes) : option bytes * list bytes :=
  match lines with
  | line :: rest => match read_setting key line with Some value => (Some value, rest) | None => (None, lines) end
  | [] => (None, [])
  end.
Definition read_fragment (text : bytes) : option (bytes * bytes * OAuthFlow) :=
  match str_lines text with
  | table :: env :: replace :: blank :: oauth2 :: flow :: token_url :: rest =>
      slug ← guarded_by bare_key (between_ (bs "[providers.") (bs "]") table);
      env ← guarded_by plain_text (between_ (dq "env = [^") (dq "^]") env);
      slug' ← between_ (bs "[providers.") (bs ".oauth2]") oauth2;
      kind ← (name ← read_setting (bs "flow") flow; kind_named name);
      token_url ← read_setting (bs "token_url") token_url;
      let '(authorize_url, rest) := read_optional (bs "authorize_url") rest in
      let '(refresh_url, rest) := read_optional (bs "refresh_url") rest in
      if bool_decide (replace = bs "replace = true") && bool_decide (blank = []) && bool_decide (slug' = slug) && bool_decide (rest = [])
      then Some (slug, env, imported kind token_url authorize_url refresh_url) else None
  | _ => None
  end.

Section Fragments.
Context `{!UrlCrate, !JsonDoc}.

Lemma between_app before s after : between_ before after (before ++ s ++ after) = Some s.
Proof.
  unfold between_, strip_suffix, strip_prefix, starts_with. rewrite bool_decide_eq_true_2 by by eexists. cbn [mbind option_bind].
  rewrite drop_app_length, rev_app_distr, bool_decide_eq_true_2 by by eexists. simpl. by rewrite length_rev, <- (length_rev after), drop_app_length, rev_involutive.
Qed.
Lemma read_setting_back key value : plain_text value = true → read_setting key (setting key value) = Some value.
Proof. intros Hp. unfold read_setting, setting. rewrite app_assoc, between_app. simpl. by rewrite Hp. Qed.
Lemma kind_named_back kind : kind_named (flow_kind_name kind) = Some kind.
Proof. by destruct kind. Qed.
Lemma plain_no_break s : plain_text s = true → LF ∉ s ∧ CR ∉ s.
Proof. unfold plain_text. rewrite forallb_forall. intros Hp. split; intros Hin%list_elem_of_In%Hp; done. Qed.
Lemma bare_is_plain s : bare_key s = true → plain_text s = true.
Proof.
  unfold bare_key, plain_text. intros [_ Hb]%andb_true_iff. apply forallb_forall. intros b Hin. rewrite forallb_forall in Hb. specialize (Hb b Hin). by destruct b.
Qed.

Lemma setting_no_break key value : plain_text key = true → plain_text value = true → LF ∉ setting key value ∧ CR ∉ setting key value.
Proof.
  intros [Hk Hk']%plain_no_break [Hv Hv']%plain_no_break. unfold setting.
  rewrite !not_elem_of_app. split; (split; [done|split; [by vm_compute; set_solver|split; [done|by vm_compute; set_solver]]]).
Qed.
Lemma text_no_break before s after : LF ∉ before ++ after → CR ∉ before ++ after → plain_text s = true →
  LF ∉ before ++ s ++ after ∧ CR ∉ before ++ s ++ after.
Proof. intros Hl Hc [? ?]%plain_no_break. set_solver. Qed.

Lemma url_line_no_break key url : plain_text key = true → Forall (λ url, plain_text url = true) (option_list url) →
  Forall (λ l, LF ∉ l ∧ CR ∉ l) (url_line key url).
Proof. intros Hk Hu. destruct url as [url|]; [|constructor]. apply Forall_cons in Hu as [Hu _]. apply Forall_singleton. by apply setting_no_break. Qed.

(** An imported flow that is printed is read back whole, under its provider and
    its name, if the provider's name is a bare key and no text needs an escape. *)
Theorem fragment_reads_back slug env kind token_url authorize_url refresh_url text :
  let flow := imported kind token_url authorize_url refresh_url in
  to_toml_fragment slug env flow = Ok text →
  bare_key slug = true → plain_text env = true → Forall (λ url, plain_text url = true) (flow_urls flow) →
  read_fragment text = Some (slug, env, flow).
Proof.
  intros flow Htext Hslug Henv Hurls. unfold to_toml_fragment in Htext. apply bind_ok in Htext as (u & _ & [= <-]).
  apply Forall_cons in Hurls as [Htoken [Hauth Href]%Forall_app]. cbn [flow imported of_authorize_url of_refresh_url of_token_url] in *.
  pose proof (bare_is_plain _ Hslug) as Hplain.
  assert (Forall (λ l, LF ∉ l ∧ CR ∉ l) (fragment_lines slug env flow)) as Hlines.
  { unfold fragment_lines. apply Forall_app. split; [|apply Forall_app; split].
    - repeat apply Forall_cons_2; [by apply text_no_break; [vm_compute; set_solver..|]|by apply text_no_break; [vm_compute; set_solver..|]
        |split; vm_compute; set_solver|split; set_solver|by apply text_no_break; [vm_compute; set_solver..|]
        |by apply setting_no_break; [|destruct kind]|by apply setting_no_break|constructor].
    - by apply url_line_no_break.
    - by apply url_line_no_break. }
  unfold read_fragment. rewrite str_lines_unlines by done. cbn [fragment_lines app].
  rewrite !between_app. cbn [guarded_by mbind option_bind]. rewrite Hslug, Henv. cbn [mbind option_bind].
  rewrite !read_setting_back by (done || by destruct kind). cbn [mbind option_bind]. cbn [of_flow flow imported]. rewrite kind_named_back.
  unfold flow. cbn [of_authorize_url of_refresh_url imported].
  assert (∀ key url rest, (∀ value, url = Some value → plain_text value = true) → (url = None → ∀ line, head rest = Some line → read_setting key line = None) →
    read_optional key (url_line key url ++ rest) = (url, rest)) as Hopt.
  { intros key [value|] rest Hp Hn; simpl; [by rewrite read_setting_back by auto|]. destruct rest as [|line rest]; [done|]. simpl. by rewrite (Hn eq_refl line). }
  assert (∀ url value, Forall (λ url, plain_text url = true) (option_list url) → url = Some value → plain_text value = true) as Hpl.
  { intros url value Hf ->. by apply Forall_cons in Hf as [? _]. }
  rewrite Hopt; [|intros value; by apply Hpl|].
  - rewrite <- (app_nil_r (url_line (bs "refresh_url") refresh_url)), Hopt; [|intros value; by apply Hpl|done]. cbn. by rewrite !bool_decide_eq_true_2.
  - intros _ line. by destruct refresh_url; intros [= <-].
Qed.

(** What either document gives is such a flow, whose tokens run on the wire. *)
Theorem imports_are_imported doc :
  (∀ flow, flow_from_oidc doc = Ok flow → ∃ kind t a r, flow = imported kind t a r ∧ kind ≠ Refresh) ∧
  (∀ flows slug flow, flows_from_openapi doc = Ok flows → (slug, Ok flow) ∈ flows → ∃ kind t a r, flow = imported kind t a r ∧ kind ≠ Refresh).
Proof.
  split.
  - intros flow. unfold flow_from_oidc. rewrite bind_ok. intros (v & _ & Hflow). apply bind_ok in Hflow as (obj & _ & Hflow).
    apply bind_ok in Hflow as (t & _ & Hflow). apply bind_ok in Hflow as (grants & _ & Hflow). apply bind_ok in Hflow as (kind & Hk & [= <-]).
    do 4 eexists. split; [done|]. intros ->. by repeat case_match.
  - intros flows slug flow. unfold flows_from_openapi. rewrite bind_ok. intros (v & _ & Hflow). apply bind_ok in Hflow as (schemes & _ & [= <-]).
    intros ([name scheme] & _ & Hs)%list_elem_of_omap. unfold scheme_entry in Hs. simpl in Hs. destruct (get_str scheme (bs "type")); [|done].
    case_bool_decide; [|by case_bool_decide]. injection Hs as <- Hs. unfold flow_from_openapi_scheme in Hs. apply bind_ok in Hs as (fs & _ & Hf).
    clear -Hf. induction fs as [|[key f] fs IH]; [done|]. cbn [first_flow] in Hf.
    repeat case_bool_decide; try (by apply IH); destruct (get_str f (bs "tokenUrl")); try done; injection Hf as <-; by do 4 eexists.
Qed.

(** The provider that is named for an OpenAPI import plays no part. *)
Theorem openapi_slug_unused render read file slug slug' env :
  registry_run render read (FromOpenapi {| ia_file := file; ia_slug := slug; ia_env := env |}) =
  registry_run render read (FromOpenapi {| ia_file := file; ia_slug := slug'; ia_env := env |}).
Proof. done. Qed.
End Fragments.

(** Two schemes of one document claim the one name that was given for them, so
    what is printed for them is no registry file. *)
Theorem two_schemes_refused `{!Digests, !UrlCrate, !TomlRegistry} file source r p1 p2 e1 e2 env :
  rf_providers file = [(p1, e1); (p2, e2)] → pe_env e1 = [env] → pe_env e2 = [env] →
  apply_file file source r = Err (ClaimConflict source p1 p2 env).
Proof.
  intros Hp He1 He2. unfold apply_file, claims_of. rewrite Hp. cbn [flat_map fst snd]. rewrite He1, He2.
  cbn [try_fold map app].
  assert (claim source ∅ (p1, env) = Ok {[to_ascii_uppercase env := p1]}) as -> by (unfold claim; by rewrite lookup_empty).
  cbn [mbind result_bind]. assert (claim source {[to_ascii_uppercase env := p1]} (p2, env) = Err (ClaimConflict source p1 p2 env)) as ->; [|done].
  unfold claim. by rewrite lookup_singleton_eq.
Qed.

(** ** Samples *)

(** A document of two schemes, one of them under a dotted name. *)
Definition sample_flow (url : bytes) : Value :=
  VObject [(bs "type", VString (bs "oauth2"));
           (bs "flows", VObject [(bs "clientCredentials", VObject [(bs "tokenUrl", VString url)])])].
Definition sample_openapi : Value :=
  VObject [(bs "components", VObject [(bs "securitySchemes",
    VObject [(bs "admin", sample_flow (bs "https://auth.example.com/admin")); (bs "my.api", sample_flow (bs "https://auth.example.com/api"))])])].
Definition sample_docs : JsonDoc := {| from_str _ := Ok sample_openapi |}.
#[local] Existing Instances sample_url sample_docs.

Definition admin_fragment : bytes :=
  unlines [bs "[providers.admin]"; dq "env = [^API_TOKEN^]"; bs "replace = true"; []; bs "[providers.admin.oauth2]";
           dq "flow = ^client_credentials^"; dq "token_url = ^https://auth.example.com/admin^"].
Example sample_fragment :
  to_toml_fragment (bs "admin") (bs "API_TOKEN") (imported ClientCredentials (bs "https://auth.example.com/admin") None None) = Ok admin_fragment.
Proof. vm_compute. reflexivity. Qed.
Example sample_fragment_read :
  read_fragment admin_fragment = Some (bs "admin", bs "API_TOKEN", imported ClientCredentials (bs "https://auth.example.com/admin") None None).
Proof. vm_compute. reflexivity. Qed.
(** The name of a scheme becomes a table name as it is: a dotted one names a table
    of another provider. *)
Example dotted_scheme_misnamed :
  (read_fragment <$> to_toml_fragment (bs "my.api") (bs "API_TOKEN") (imported ClientCredentials (bs "https://auth.example.com/api") None None)) = Ok None.
Proof. vm_compute. reflexivity. Qed.
(** The provider that was asked for appears nowhere. *)
Example asked_provider_absent :
  let '(printed, r) := registry_run (λ _, []) (λ _, Some []) (FromOpenapi {| ia_file := bs "api.json"; ia_slug := bs "example"; ia_env := bs "API_TOKEN" |}) in
  r = Ok () ∧ str_contains printed (bs "[providers.admin]") = true ∧ str_contains printed (bs "example]") = false.
Proof. vm_compute. auto. Qed.
