(* ===== verification/Config.v ===== *)
(** * The configuration

    [crates/hodor-config/src/config.rs]: the label merge of the configuration
    layers, profile inheritance, the variables a workspace references, and the
    validation every loaded configuration passes. The [confique] builder that
    overlays scalars, the TOML reader and the file system are parameters: what a
    layer's file reads as is a [LayerFile], a profile layer a [ProfileLayer]. *)

From stdpp Require Import sorting.
From S2P Require Import Prelude Decoy ConnString Grants Rules Registry Secrets.

(** ** Data *)

Definition SHARED_PROFILE : bytes := bs "__shared__".
Definition DEFAULT_CONTAINER_HOME : bytes := bs "/home/eng".

(** [SocketAddr] and the paths are their texts. *)
Record ProxyCfg := {
  px_listen : bytes;
  px_ca_file : option bytes;
  px_ssh_host_key : option bytes;
  px_ssh_known_hosts : option bytes;
  px_root_certs : list bytes;
  px_handshake_timeout_secs : N;
}.
Record ToolCfg := { tc_config_dir : bytes }.
Inductive RewriteFormat := Kubeconfig | Talos.
Record FileRewrite := {
  fr_source : bytes;
  fr_dest : bytes;
  fr_envs : list bytes;
  fr_format : option RewriteFormat;
}.
Record ExposeMap := {
  em_port : N;
  em_host : N;
}.
Record WorkspaceBuild := {
  wb_dockerfile : bytes;
  wb_context : bytes;
}.
Record WorkspaceCfg := {
  ws_name : option bytes;
  ws_shell : option bytes;
  ws_init : option bytes;
  ws_include : list bytes;
  ws_home : option bytes;
  ws_profile : option bytes;
  ws_ports : list N;
  ws_expose : list ExposeMap;
  ws_passthrough : list bytes;
  ws_file_rewrite : list FileRewrite;
  ws_devices : list bytes;
  ws_cap_add : list bytes;
  ws_networks : list bytes;
  ws_extra_hosts : list bytes;
  ws_image : option bytes;
  ws_build : option WorkspaceBuild;
}.

(** [plugins.rs] *)
Record PluginCfg := {
  pc_path : bytes;
  pc_allow : list bytes;
  pc_direction : PluginDirection;
}.
Record ResolvedPlugin := {
  rp_name : bytes;
  rp_path : bytes;
  rp_allow : list EndpointScope;
  rp_direction : PluginDirection;
}.

Record AppConfig := {
  ac_proxy : ProxyCfg;
  ac_workspace : WorkspaceCfg;
  ac_rules : list (bytes * RuleCfg);
  ac_plugins : list (bytes * PluginCfg);
  ac_tools : list (bytes * ToolCfg);
}.

Definition profile_name (w : WorkspaceCfg) : bytes := default SHARED_PROFILE (ws_profile w).
Definition container_home (w : WorkspaceCfg) : bytes := default DEFAULT_CONTAINER_HOME (nonempty (ws_home w)).

(** ** Referenced variables *)

Definition is_name_char (b : byte) : bool :=
  in_range 65 90 b || in_range 97 122 b || is_digit b || bool_decide (b = Byte.x5f).
Definition valid_env_name (name : bytes) : bool :=
  match name with
  | [] => false
  | first :: _ => (in_range 65 90 first || in_range 97 122 first || bool_decide (first = Byte.x5f)) && forallb is_name_char name
  end.

Fixpoint take_while {A} (p : A → bool) (l : list A) : list A :=
  match l with x :: l => if p x then x :: take_while p l else [] | [] => [] end.

(** The name one ['$'] is followed by, if it is one. *)
Definition candidate_name (candidate : bytes) : option bytes :=
  name ← match strip_prefix (bs "{") candidate with
         | Some braced => '(inside, _) ← split_once (bs "}") braced; Some (default (inside, []) (split_once (bs ":-") inside)).1
         | None => Some (take_while is_name_char candidate)
         end;
  if valid_env_name name then Some name else None.

Definition collect_referenced_variables (value : bytes) : list bytes := omap candidate_name (drop 1 (split_byte Byte.x24 value)).

(** The names, as a set. *)
Definition referenced_variables (w : WorkspaceCfg) (extra : list bytes) : gset bytes :=
  list_to_set (flat_map collect_referenced_variables (ws_include w) ++
               flat_map (λ r, collect_referenced_variables (fr_source r) ++ collect_referenced_variables (fr_dest r) ++ fr_envs r)
                 (ws_file_rewrite w) ++
               flat_map collect_referenced_variables extra).

(** ** Layers *)

Inductive CfError :=
| CfReadFile (path : bytes)
| CfParseFile (path detail : bytes)
| TableExpected (path : bytes)
| BadEntry (path label detail : bytes)
| ProfileParentNotString (path : bytes)
| SharedProfileParent (path : bytes)
| BadProfileParent (path parent : bytes)
| BadProfileName (name : bytes)
| ProfileCycle (parent : bytes)
| ProfileParentMissing (name parent : bytes)
| DuplicateEnv (previous label env : bytes)
| EmptyEnv (label : bytes)
| EmptyValue (label : bytes)
| CfBadAllow (label entry detail : bytes)
| CfBadPattern (label pattern detail : bytes)
| CfFlow (source : RegistryError)
| PortZero
| CapturePort (port : N)
| ExposeHostConflict (port : N)
| NetworkInvalid (name : bytes)
| ExtraHostsInvalid (entry : bytes).

(** A layer's file, as read and parsed down to the table asked for: each entry
    is what its deserialization gave. *)
Inductive LayerFile (A : Type) :=
| LfMissing
| LfUnreadable
| LfMalformed (detail : bytes)
| LfNoTable
| LfNotTable
| LfTable (entries : list (bytes * result bytes A)).
Arguments LfMissing {A}.
Arguments LfUnreadable {A}.
Arguments LfMalformed {A} detail.
Arguments LfNoTable {A}.
Arguments LfNotTable {A}.
Arguments LfTable {A} entries.

(** [insert] on a [BTreeMap]. *)
Definition btree_insert {A} (m : list (bytes * A)) (key : bytes) (value : A) : list (bytes * A) :=
  btree_or_insert key value (filter (λ kv : bytes * A, kv.1 ≠ key) m).

Definition merge_entry {A} (path : bytes) (m : list (bytes * A)) (e : bytes * result bytes A) : result CfError (list (bytes * A)) :=
  cfg ← map_err (BadEntry path e.1) e.2; Ok (btree_insert m e.1 cfg).

Definition merge_layer_file {A} (m : list (bytes * A)) (layer : bytes * LayerFile A) : result CfError (list (bytes * A)) :=
  let '(path, file) := layer in
  match file with
  | LfMissing | LfNoTable => Ok m
  | LfUnreadable => Err (CfReadFile path)
  | LfMalformed detail => Err (CfParseFile path detail)
  | LfNotTable => Err (TableExpected path)
  | LfTable entries => try_fold (merge_entry path) m entries
  end.

(** [load_merged_rules] and [load_merged_tools]: the global file first. *)
Definition load_merged {A} (project global : option (bytes * LayerFile A)) : result CfError (list (bytes * A)) :=
  try_fold merge_layer_file [] (option_list global ++ option_list project).

(** ** Profiles *)

Definition valid_profile (name : bytes) : bool :=
  negb (bool_decide (name = [])) && negb (bool_decide (name = bs ".")) && negb (bool_decide (name = bs "..")) &&
  negb (bool_decide (Byte.x2f ∈ name)) && negb (bool_decide (Byte.x5c ∈ name)).

(** A profile's cookie in one layer. *)
Inductive Cookie :=
| NoCookie
| CookieUnreadable
| CookieMalformed (detail : bytes)
| CookieBare
| CookieNotString
| CookieParent (parent : bytes).

Record ProfileLayer := {
  py_path : bytes;
  py_cookie : bytes → Cookie;
  py_held : bytes → bool;
}.

Definition cookie_path (layer : ProfileLayer) (profile : bytes) : bytes :=
  py_path layer ++ bs "/" ++ profile ++ bs "/profile.toml".

(** [layers] is the project's, then the global one, each if there is one. *)
Fixpoint profile_parent (layers : list ProfileLayer) (profile : bytes) : result CfError (option bytes) :=
  match layers with
  | [] => Ok None
  | layer :: layers =>
      let cookie := cookie_path layer profile in
      match py_cookie layer profile with
      | NoCookie => profile_parent layers profile
      | CookieUnreadable => Err (CfReadFile cookie)
      | CookieMalformed detail => Err (CfParseFile cookie detail)
      | CookieBare => Ok None
      | CookieNotString => Err (ProfileParentNotString cookie)
      | CookieParent parent =>
          if bool_decide (profile = SHARED_PROFILE) then Err (SharedProfileParent cookie)
          else if negb (valid_profile parent) then Err (BadProfileParent cookie parent)
          else Ok (Some parent)
      end
  end.

Definition held (layers : list ProfileLayer) (name : bytes) : bool := existsb (λ layer, py_held layer name) layers.

(** The loop of [profile_chain]; [None] when the fuel does not suffice. *)
Fixpoint chain_loop (fuel : nat) (layers : list ProfileLayer) (chain : list bytes) (name : bytes)
    : option (result CfError (list bytes)) :=
  match fuel with
  | 0 => None
  | S fuel =>
      if bool_decide (name = SHARED_PROFILE) then
        Some (_ ← profile_parent layers name; Ok chain)
      else
        match profile_parent layers name with
        | Err e => Some (Err e)
        | Ok parent =>
            let parent := default SHARED_PROFILE parent in
            if bool_decide (parent ∈ chain) then Some (Err (ProfileCycle parent))
            else if negb (bool_decide (parent = SHARED_PROFILE) || held layers parent) then
              Some (Err (ProfileParentMissing name parent))
            else chain_loop fuel layers (chain ++ [parent]) parent
        end
  end.

Definition profile_chain (fuel : nat) (layers : list ProfileLayer) (selected : bytes) : option (result CfError (list bytes)) :=
  if negb (valid_profile selected) then Some (Err (BadProfileName selected))
  else chain_loop fuel layers [selected] selected.

(** ** Validation *)

Section Validate.
Context `{!Digests, !UrlCrate}.

Definition validate_allow (label entry : bytes) : result CfError () :=
  _ ← map_err (CfBadAllow label entry) (EndpointScope_from_str entry); Ok ().

(** One turn of the loop over the rules: the label of each environment name. *)
Definition validate_rule (env_names : gmap bytes bytes) (r : bytes * RuleCfg) : result CfError (gmap bytes bytes) :=
  let '(label, rule) := r in
  match env_names !! rc_env rule with
  | Some previous => Err (DuplicateEnv previous label (rc_env rule))
  | None =>
      if bool_decide (rc_env rule = []) then Err (EmptyEnv label)
      else if bool_decide (rc_value rule = Some []) then Err (EmptyValue label)
      else
        _ ← try_fold (λ _ entry, validate_allow label entry) () (rc_allow rule);
        _ ← match nonempty (rc_pattern rule) with
            | Some pattern => map_err (CfBadPattern label pattern) (validate_pattern pattern)
            | None => Ok ()
            end;
        _ ← match rc_oauth2 rule with
            | Some flow => map_err CfFlow (validate_flow flow (bs "config") label)
            | None => Ok ()
            end;
        Ok (<[rc_env rule := label]> env_names)
  end.

Definition validate_port (port : N) : result CfError () :=
  if (port =? 0)%N then Err PortZero
  else if (port =? 15000)%N || (port =? 15001)%N then Err (CapturePort port)
  else Ok ().

Definition validate_expose (hosts : gset N) (m : ExposeMap) : result CfError (gset N) :=
  _ ← validate_port (em_port m);
  _ ← validate_port (em_host m);
  if bool_decide (em_host m ∈ hosts) then Err (ExposeHostConflict (em_host m)) else Ok ({[em_host m]} ∪ hosts).

Definition is_network_char (b : byte) : bool :=
  in_range 65 90 b || in_range 97 122 b || is_digit b || bool_decide (b ∈ bs "._-").
Definition validate_network (name : bytes) : result CfError () :=
  if negb (bool_decide (name = [])) && forallb is_network_char name then Ok () else Err (NetworkInvalid name).

(** [split_once] at the first colon or equals sign. *)
Definition split_host_entry (entry : bytes) : option (bytes * bytes) :=
  i ← position (λ b, bool_decide (b ∈ bs ":=")) entry; Some (take i entry, drop (i + 1) entry).
Definition validate_extra_host (entry : bytes) : result CfError () :=
  match split_host_entry entry with
  | Some (host, addr) =>
      if negb (bool_decide (trim host = [])) && negb (bool_decide (trim addr = [])) then Ok () else Err (ExtraHostsInvalid entry)
  | None => Err (ExtraHostsInvalid entry)
  end.

Definition validate (c : AppConfig) : result CfError () :=
  let w := ac_workspace c in
  _ ← try_fold validate_rule ∅ (ac_rules c);
  _ ← try_fold (λ _ port, validate_port port) () (ws_ports w);
  _ ← try_fold validate_expose (list_to_set (ws_ports w)) (ws_expose w);
  _ ← try_fold (λ _ name, validate_network name) () (ws_networks w);
  try_fold (λ _ entry, validate_extra_host entry) () (ws_extra_hosts w).
End Validate.

(** ** Plugins *)

Inductive PluginError :=
| PluginEmptyAllow (name : bytes)
| PluginBadAllow (name entry detail : bytes).

Section Plugins.
Context `{!UrlCrate}.

Definition plugin_entry (name : bytes) (allow : list EndpointScope) (entry : bytes) : result PluginError (list EndpointScope) :=
  uri ← map_err (PluginBadAllow name entry) (EndpointScope_from_str entry); Ok (allow ++ [uri]).

Definition resolve_plugin (plugins : list ResolvedPlugin) (p : bytes * PluginCfg) : result PluginError (list ResolvedPlugin) :=
  let '(name, plugin) := p in
  if bool_decide (pc_allow plugin = []) then Err (PluginEmptyAllow name)
  else
    allow ← try_fold (plugin_entry name) [] (pc_allow plugin);
    Ok (plugins ++ [{| rp_name := name; rp_path := pc_path plugin; rp_allow := allow; rp_direction := pc_direction plugin |}]).

Definition resolve_plugins (cfg : AppConfig) : result PluginError (list ResolvedPlugin) :=
  try_fold resolve_plugin [] (ac_plugins cfg).

(** Every plugin of the table, in its order, with exactly its entries parsed
    and at least one: none can be loaded without a scope. *)
Theorem plugins_scoped cfg resolved :
  resolve_plugins cfg = Ok resolved →
  Forall2 (λ p r, rp_name r = p.1 ∧ rp_path r = pc_path p.2 ∧ rp_direction r = pc_direction p.2 ∧ rp_allow r ≠ [] ∧
             Forall2 (λ entry scope, EndpointScope_from_str entry = Ok scope) (pc_allow p.2) (rp_allow r)) (ac_plugins cfg) resolved.
Proof.
  unfold resolve_plugins. generalize (ac_plugins cfg) as plugins. intros plugins.
  assert (∀ name entries acc allow, try_fold (plugin_entry name) acc entries = Ok allow →
    ∃ new, allow = acc ++ new ∧ Forall2 (λ entry scope, EndpointScope_from_str entry = Ok scope) entries new) as Hentries.
  { intros name entries. induction entries as [|entry entries IH]; intros acc allow; simpl.
    - intros [= <-]. exists []. by rewrite app_nil_r.
    - rewrite bind_ok. intros (b & Hb & Hr). apply bind_ok in Hb as (uri & Hu%map_err_Ok & [= <-]).
      destruct (IH _ _ Hr) as (new & -> & Hn). exists (uri :: new). rewrite <- app_assoc. split; [done|by constructor]. }
  assert (∀ acc, try_fold resolve_plugin acc plugins = Ok resolved → ∃ new, resolved = acc ++ new ∧
    Forall2 (λ p r, rp_name r = p.1 ∧ rp_path r = pc_path p.2 ∧ rp_direction r = pc_direction p.2 ∧ rp_allow r ≠ [] ∧
             Forall2 (λ entry scope, EndpointScope_from_str entry = Ok scope) (pc_allow p.2) (rp_allow r)) plugins new) as Hgo.
  { induction plugins as [|[name plugin] plugins IH]; intros acc; simpl.
    - intros [= <-]. exists []. by rewrite app_nil_r.
    - rewrite bind_ok. intros (b & Hb & Hr). case_bool_decide as Hne; [done|]. apply bind_ok in Hb as (allow & Ha & [= <-]).
      destruct (Hentries _ _ _ _ Ha) as (new & -> & Hn). destruct (IH _ Hr) as (rest & -> & Hrest).
      eexists (_ :: rest). rewrite <- app_assoc. split; [done|]. constructor; [|done]. simpl. split_and!; [done..| |done].
      intros ->. by apply Forall2_nil_inv_r in Hn. }
  intros Hr. by destruct (Hgo [] Hr) as (new & -> & Hn).
Qed.
End Plugins.

(** ** Merging *)

Lemma keys_sorted_filter {A} (P : bytes * A → Prop) `{!∀ x, Decision (P x)} (m : list (bytes * A)) : keys_sorted m → keys_sorted (filter P m).
Proof.
  unfold keys_sorted. induction m as [|[k v] m IH]; [done|]. intros Hs. inversion Hs as [|? ? Hrest Hk]; subst.
  rewrite filter_cons. case_decide; [|by apply IH]. simpl. constructor; [by apply IH|].
  rewrite Forall_forall in *. intros x ([k' v'] & -> & [_ Hin]%list_elem_of_filter)%list_elem_of_fmap.
  apply Hk. apply list_elem_of_fmap. by exists (k', v').
Qed.

Lemma btree_insert_sorted {A} (m : list (bytes * A)) key value : keys_sorted m → keys_sorted (btree_insert m key value).
Proof. intros Hs. by apply btree_or_insert_sorted, keys_sorted_filter. Qed.

Lemma elem_of_btree_insert {A} (m : list (bytes * A)) key value kv :
  keys_sorted m → kv ∈ btree_insert m key value ↔ kv = (key, value) ∨ (kv ∈ m ∧ kv.1 ≠ key).
Proof.
  intros Hs. unfold btree_insert. rewrite elem_of_btree_or_insert by by apply keys_sorted_filter.
  rewrite list_elem_of_filter. split; [naive_solver|]. intros [->|[Hin Hne]]; [right|by left]. split; [done|].
  intros ([k v] & -> & [Hne _]%list_elem_of_filter)%list_elem_of_fmap. by apply Hne.
Qed.

(** What a layer states, label by label. *)
Definition stated {A} (layer : bytes * LayerFile A) : list (bytes * A) :=
  match layer.2 with
  | LfTable entries => omap (λ e, match e.2 with Ok cfg => Some (e.1, cfg) | Err _ => None end) entries
  | _ => []
  end.

(** [m'] is [m] with [entries] inserted in order. *)
Definition inserts {A} (entries m m' : list (bytes * A)) : Prop := m' = foldl (λ m e, btree_insert m e.1 e.2) m entries.

Lemma merge_layer_file_inserts {A} (m m' : list (bytes * A)) layer :
  merge_layer_file m layer = Ok m' → inserts (stated layer) m m'.
Proof.
  destruct layer as [path [| |d| | |entries]]; unfold merge_layer_file, stated, inserts; simpl; try done; try by intros [= <-].
  revert m. induction entries as [|[label cfg] entries IH]; intros m; simpl; [by intros [= <-]|].
  rewrite bind_ok. intros (b & Hb & Hr). unfold merge_entry in Hb. apply bind_ok in Hb as (c & Hc%map_err_Ok & [= <-]).
  simpl in Hc. subst cfg. simpl. by apply IH.
Qed.

Lemma inserts_spec {A} (entries m m' : list (bytes * A)) :
  NoDup (map fst entries) → keys_sorted m → inserts entries m m' →
  keys_sorted m' ∧ ∀ kv, kv ∈ m' ↔ kv ∈ entries ∨ (kv ∈ m ∧ kv.1 ∉ map fst entries).
Proof.
  unfold inserts. intros Hn Hs ->. revert m Hs. induction entries as [|[k v] entries IH]; intros m Hs; simpl.
  - split; [done|]. intros kv. setoid_rewrite elem_of_nil. naive_solver.
  - inversion Hn as [|? ? Hk Hrest]; subst. destruct (IH Hrest (btree_insert m k v)) as [Hs' Hin]; [by apply btree_insert_sorted|].
    split; [done|]. intros kv. rewrite Hin, elem_of_btree_insert, !elem_of_cons by done. split.
    + intros [?|[[->|[? ?]] ?]]; [by left; right|by left; left|right; naive_solver].
    + intros [[->|?]|[? ?]]; [by right; split; [left|]|by left|right; naive_solver].
Qed.

(** The merged table is a map in label order in which the project's entry
    of a label, when it states one, replaces the global one wholesale, and
    nothing else is added or lost; a table of TOML names each label once. *)
Theorem merged_by_label {A} (project global : bytes * LayerFile A) m :
  NoDup (map fst (stated project)) → NoDup (map fst (stated global)) →
  load_merged (Some project) (Some global) = Ok m →
  keys_sorted m ∧
  ∀ kv, kv ∈ m ↔ kv ∈ stated project ∨ (kv ∈ stated global ∧ kv.1 ∉ map fst (stated project)).
Proof.
  intros Hp Hg.
  change (load_merged (Some project) (Some global)) with (m1 ← merge_layer_file [] global; m2 ← merge_layer_file m1 project; Ok m2).
  rewrite bind_ok.
  intros (m1 & H1%merge_layer_file_inserts & H2). apply bind_ok in H2 as (m2 & H2%merge_layer_file_inserts & [= <-]).
  destruct (inserts_spec _ [] m1 Hg (SSorted_nil _) H1) as [Hs1 Hin1]. destruct (inserts_spec _ _ _ Hp Hs1 H2) as [Hs2 Hin2].
  split; [done|]. intros kv. rewrite Hin2, Hin1. setoid_rewrite elem_of_nil. naive_solver.
Qed.

(** ** Profile chains *)

Section Chains.
Context (layers : list ProfileLayer).

(** One step of inheritance, as the code follows it. *)
Definition inherits (name parent : bytes) : Prop :=
  ∃ stated, profile_parent layers name = Ok stated ∧ parent = default SHARED_PROFILE stated.

(** A chain: each profile inherits the next, the shared base only comes last,
    and each one after the first is the shared base or held by a layer. *)
Fixpoint linked (chain : list bytes) : Prop :=
  match chain with
  | name :: ((parent :: _) as rest) =>
      name ≠ SHARED_PROFILE ∧ inherits name parent ∧ (parent = SHARED_PROFILE ∨ held layers parent = true) ∧ linked rest
  | _ => True
  end.

Lemma linked_snoc chain name parent :
  linked (chain ++ [name]) → name ≠ SHARED_PROFILE → inherits name parent →
  (parent = SHARED_PROFILE ∨ held layers parent = true) → linked ((chain ++ [name]) ++ [parent]).
Proof.
  intros Hl Hn Hi Hh. induction chain as [|a chain IH]; [by simpl|].
  destruct chain as [|b chain]; simpl in *; naive_solver.
Qed.

Lemma linked_held chain : linked chain → ∀ x, x ∈ tail chain → x = SHARED_PROFILE ∨ held layers x = true.
Proof.
  induction chain as [|a chain IH]; simpl; [by intros _ x ?%elem_of_nil|]. destruct chain as [|b chain]; [by intros _ x ?%elem_of_nil|].
  intros (_ & _ & Hb & Hl) x [->|Hin]%elem_of_cons; [done|by apply IH].
Qed.

(** The chain so far, ending in [name], in every turn of the loop. *)
Definition chain_so_far (selected : bytes) (chain : list bytes) (name : bytes) : Prop :=
  ∃ front, chain = front ++ [name] ∧ head chain = Some selected ∧ NoDup chain ∧ linked chain.

Lemma chain_step selected chain name parent :
  chain_so_far selected chain name → name ≠ SHARED_PROFILE → inherits name parent → parent ∉ chain →
  (parent = SHARED_PROFILE ∨ held layers parent = true) → chain_so_far selected (chain ++ [parent]) parent.
Proof.
  intros (front & -> & Hh & Hn & Hl) Hns Hi Hnew Hheld. exists (front ++ [name]). split_and!; [done| | |by apply linked_snoc].
  - by destruct front.
  - apply NoDup_app. split_and!; [done| |apply NoDup_singleton]. intros x Hx ->%list_elem_of_singleton. done.
Qed.

Lemma chain_loop_sound fuel selected chain name result :
  chain_so_far selected chain name → chain_loop fuel layers chain name = Some (Ok result) →
  chain_so_far selected result SHARED_PROFILE ∧ profile_parent layers SHARED_PROFILE = Ok None.
Proof.
  revert chain name. induction fuel as [|fuel IH]; intros chain name Hc; simpl; [done|]. case_bool_decide as Hs.
  - subst name. intros [= Hr]. apply bind_ok in Hr as (o & Ho & [= <-]). split; [done|].
    destruct o as [p|]; [|done]. exfalso. revert Ho. clear. induction layers as [|layer ls IH]; simpl; [done|].
    by destruct (py_cookie layer SHARED_PROFILE).
  - destruct (profile_parent layers name) as [parent|e] eqn:Ep; [|done]. case_bool_decide as Hin; [done|].
    destruct (negb _) eqn:Hh; [done|]. apply IH. apply (chain_step _ _ name); [done|done|by exists parent|done|].
    apply negb_false_iff, orb_true_iff in Hh as [Hh%bool_decide_eq_true|Hh]; [by left|by right].
Qed.

Lemma chain_loop_total dirs fuel selected chain name :
  (∀ x, held layers x = true → x ∈ dirs) → chain_so_far selected chain name →
  length dirs + 3 ≤ fuel + length chain → is_Some (chain_loop fuel layers chain name).
Proof.
  intros Hd. revert chain name. induction fuel as [|fuel IH]; intros chain name Hc Hf.
  - exfalso. destruct Hc as (front & _ & Hh & Hn & Hl).
    assert (length chain ≤ length (selected :: SHARED_PROFILE :: dirs)) as Hlen; [|simpl in Hlen; lia].
    apply NoDup_incl_length; [by apply NoDup_ListNoDup|]. intros x Hx%list_elem_of_In.
    apply list_elem_of_In. destruct chain as [|a chain]; [done|]. simpl in Hh. injection Hh as ->.
    apply elem_of_cons in Hx as [->|Hx]; [by left|]. right.
    destruct (linked_held _ Hl x Hx) as [->|Hx']; [by left|right; by apply Hd].
  - simpl. case_bool_decide as Hs; [by eexists|]. destruct (profile_parent layers name) as [parent|e] eqn:Ep; [|by eexists].
    case_bool_decide as Hin; [by eexists|]. destruct (negb _) eqn:Hh; [by eexists|]. apply IH.
    + apply (chain_step _ _ name); [done|done|by exists parent|done|].
      apply negb_false_iff, orb_true_iff in Hh as [Hh%bool_decide_eq_true|Hh]; [by left|by right].
    + rewrite length_app. simpl. lia.
Qed.
End Chains.

(** Following profile inheritance ends: with as many turns as there are
    profile directories and two more the chain is decided, whatever the cookies
    say. A chain that is returned starts at the selected profile, names none
    twice, goes from each profile to the parent its first cookie states or to
    the shared base, only through profiles some layer holds, and ends at the
    shared base, which has no parent. *)
Theorem profile_chain_ends layers dirs selected :
  (∀ name, held layers name = true → name ∈ dirs) →
  ∃ result, profile_chain (length dirs + 2) layers selected = Some result ∧
    ∀ chain, result = Ok chain →
      head chain = Some selected ∧ last chain = Some SHARED_PROFILE ∧ NoDup chain ∧ linked layers chain ∧
      profile_parent layers SHARED_PROFILE = Ok None.
Proof.
  intros Hd. unfold profile_chain. destruct (negb (valid_profile selected)); [by eexists|].
  assert (chain_so_far layers selected [selected] selected) as Hc.
  { exists []. split_and!; [done|done|apply NoDup_singleton|done]. }
  destruct (chain_loop_total layers dirs (length dirs + 2) selected [selected] selected Hd Hc) as (result & Hr); [simpl; lia|].
  exists result. split; [done|]. intros chain ->. apply (chain_loop_sound layers _ selected) in Hr; [|done].
  destruct Hr as ((front & -> & Hh & Hn & Hl) & Hp). split_and!; [done|by rewrite last_snoc|done..].
Qed.

(** ** What validation accepts *)

Lemma try_fold_check_iff {E A} (f : () → A → result E ()) xs : try_fold f () xs = Ok () ↔ Forall (λ x, f () x = Ok ()) xs.
Proof.
  split; [apply try_fold_check|]. induction 1 as [|x xs Hx _ IH]; [done|]. simpl. by rewrite Hx.
Qed.

Section Validated.
Context `{!Digests, !UrlCrate}.

Lemma first_duplicate_None_iff seen fields :
  first_duplicate seen fields = None ↔ NoDup fields ∧ ∀ x, x ∈ seen → x ∉ fields.
Proof.
  split; [apply first_duplicate_None|]. revert seen. induction fields as [|field fields IH]; intros seen [Hn Hs]; simpl; [done|].
  inversion Hn as [|? ? Hf Hrest]; subst. rewrite bool_decide_eq_false_2; [|intros Hin; apply (Hs field Hin); by left].
  apply IH. split; [done|]. intros x [->|Hx]%elem_of_cons; [done|]. intros Hin. apply (Hs x Hx). by right.
Qed.

Lemma validate_flow_iff flow source name : validate_flow flow source name = Ok () ↔ flow_ok flow.
Proof.
  split; [apply validate_flow_ok|]. intros (Hu & Ha & Hne & Hn). unfold validate_flow.
  assert (try_fold (λ _ url, _ ← map_err (BadOAuthUrl source name) (flow_authority url); Ok ()) () (flow_urls flow) = Ok ()) as ->.
  { apply try_fold_check_iff. eapply Forall_impl; [exact Hu|]. cbn beta. by intros url (authority & ->). }
  cbn [mbind result_bind].
  assert ((match of_flow flow with AuthorizationCode => true | _ => false end) && negb (bool_of_opt (of_authorize_url flow)) = false) as ->.
  { destruct (of_flow flow); try done. destruct (Ha eq_refl) as [u ->]. done. }
  assert (existsb (λ field, bool_decide (field = [])) (of_token_fields flow) = false) as ->.
  { apply not_true_iff_false. intros (f & Hin%list_elem_of_In & Hf%bool_decide_eq_true)%existsb_exists.
    rewrite Forall_forall in Hne. by apply (Hne f). }
  rewrite (proj2 (first_duplicate_None_iff [] _)); [done|]. split; [done|]. by intros x ?%elem_of_nil.
Qed.

(** One rule, apart from its name. *)
Definition rule_valid (rule : RuleCfg) : Prop :=
  rc_env rule ≠ [] ∧ rc_value rule ≠ Some [] ∧
  Forall (λ entry, ∃ scope, EndpointScope_from_str entry = Ok scope) (rc_allow rule) ∧
  (∀ p, nonempty (rc_pattern rule) = Some p → validate_pattern p = Ok ()) ∧
  (∀ f, rc_oauth2 rule = Some f → flow_ok f).

Lemma validate_rule_iff names label rule names' :
  validate_rule names (label, rule) = Ok names' ↔
  names !! rc_env rule = None ∧ rule_valid rule ∧ names' = <[rc_env rule := label]> names.
Proof.
  unfold validate_rule, rule_valid. destruct (names !! rc_env rule) as [previous|]; [split; [done|by intros [? _]]|].
  case_bool_decide as He; [split; [done|naive_solver]|]. case_bool_decide as Hv; [split; [done|naive_solver]|].
  assert (try_fold (λ _ entry, validate_allow label entry) () (rc_allow rule) = Ok () ↔
    Forall (λ entry, ∃ scope, EndpointScope_from_str entry = Ok scope) (rc_allow rule)) as Hallow.
  { rewrite try_fold_check_iff. apply Forall_iff. intros entry. unfold validate_allow. rewrite bind_ok.
    split; [intros (s & Hs%map_err_Ok & _); by exists s|]. intros (s & Hs). exists s. by rewrite Hs. }
  assert ((match nonempty (rc_pattern rule) with
           | Some pattern => map_err (CfBadPattern label pattern) (validate_pattern pattern) | None => Ok () end = Ok ()) ↔
    ∀ p, nonempty (rc_pattern rule) = Some p → validate_pattern p = Ok ()) as Hpat.
  { destruct (nonempty (rc_pattern rule)) as [p|]; [rewrite map_err_Ok|]; naive_solver. }
  assert ((match rc_oauth2 rule with Some flow => map_err CfFlow (validate_flow flow (bs "config") label) | None => Ok () end = Ok ()) ↔
    ∀ f, rc_oauth2 rule = Some f → flow_ok f) as Hflow.
  { destruct (rc_oauth2 rule) as [f|]; [rewrite map_err_Ok, validate_flow_iff|]; naive_solver. }
  rewrite <- Hallow, <- Hpat, <- Hflow. split.
  - intros Hr. apply bind_ok in Hr as ([] & Ha & Hr). apply bind_ok in Hr as ([] & Hp & Hr). by apply bind_ok in Hr as ([] & Hf & [= <-]).
  - intros (_ & (_ & _ & -> & -> & ->) & ->). done.
Qed.

Lemma validate_rules_iff names rules :
  (∃ names', try_fold validate_rule names rules = Ok names') ↔
  Forall (λ r, rule_valid r.2) rules ∧ NoDup (map (λ r, rc_env r.2) rules) ∧ (∀ r, r ∈ rules → names !! rc_env r.2 = None).
Proof.
  revert names. induction rules as [|[label rule] rules IH]; intros names; simpl.
  - split; [|by eexists]. intros _. split_and!; [constructor|constructor|by intros ? ?%elem_of_nil].
  - setoid_rewrite bind_ok. setoid_rewrite validate_rule_iff. split.
    + intros (names' & b & (Hn & Hv & ->) & Hr). destruct (proj1 (IH _) (ex_intro _ _ Hr)) as (Hf & Hnd & Hno).
      split_and!; [by constructor| |].
      * constructor; [|done]. intros (r & He & Hin)%list_elem_of_fmap. specialize (Hno r Hin). rewrite <- He, lookup_insert_eq in Hno. done.
      * intros r [->|Hin]%elem_of_cons; [done|]. specialize (Hno r Hin). by apply lookup_insert_None in Hno as [? _].
    + intros (Hf & Hnd & Hno). inversion Hf as [|? ? Hv Hf']; inversion Hnd as [|? ? Hne Hnd']; subst.
      destruct (proj2 (IH (<[rc_env rule := label]> names))) as (names' & Hr).
      * split_and!; [done..|]. intros r Hin. apply lookup_insert_None. split; [apply Hno; by right|].
        intros He. apply Hne, list_elem_of_fmap. by exists r.
      * exists names'. eexists. split; [|exact Hr]. split_and!; [|done|done]. apply (Hno (label, rule)). by left.
Qed.

Definition legal_port (port : N) : Prop := port ≠ 0%N ∧ port ≠ 15000%N ∧ port ≠ 15001%N.

Lemma validate_port_iff port : validate_port port = Ok () ↔ legal_port port.
Proof.
  unfold validate_port, legal_port. destruct (N.eqb_spec port 0), (N.eqb_spec port 15000), (N.eqb_spec port 15001); simpl; naive_solver.
Qed.

Lemma validate_exposes_iff hosts maps :
  (∃ hosts', try_fold validate_expose hosts maps = Ok hosts') ↔
  Forall (λ m, legal_port (em_port m) ∧ legal_port (em_host m)) maps ∧ NoDup (map em_host maps) ∧
  (∀ m, m ∈ maps → em_host m ∉ hosts).
Proof.
  revert hosts. induction maps as [|m maps IH]; intros hosts; simpl.
  - split; [|by eexists]. intros _. split_and!; [constructor|constructor|by intros ? ?%elem_of_nil].
  - assert (∀ h', validate_expose hosts m = Ok h' ↔ (legal_port (em_port m) ∧ legal_port (em_host m)) ∧ em_host m ∉ hosts ∧ h' = {[em_host m]} ∪ hosts) as Hm.
    { intros h'. unfold validate_expose. rewrite bind_ok. setoid_rewrite bind_ok. rewrite <- !validate_port_iff. split.
      - intros ([] & Hp & [] & Hh & Hr). case_bool_decide; [done|]. by injection Hr as <-.
      - intros ((Hp & Hh) & Hno & ->). exists (). split; [done|]. exists (). split; [done|]. by rewrite bool_decide_eq_false_2. }
    setoid_rewrite bind_ok. setoid_rewrite Hm. split.
    + intros (h' & b & (Hl & Hno & ->) & Hr). destruct (proj1 (IH _) (ex_intro _ _ Hr)) as (Hf & Hnd & Hd).
      split_and!; [by constructor| |].
      * constructor; [|done]. intros (m' & He & Hin)%list_elem_of_fmap. specialize (Hd m' Hin). set_solver.
      * intros m' [->|Hin]%elem_of_cons; [done|]. specialize (Hd m' Hin). set_solver.
    + intros (Hf & Hnd & Hd). inversion Hf as [|? ? Hl Hf']; inversion Hnd as [|? ? Hne Hnd']; subst.
      destruct (proj2 (IH ({[em_host m]} ∪ hosts))) as (h' & Hr).
      * split_and!; [done..|]. intros m' Hin Hin'. apply elem_of_union in Hin' as [He%elem_of_singleton|Hin'].
        -- apply Hne, list_elem_of_fmap. by exists m'.
        -- apply (Hd m'); [by right|done].
      * exists h'. eexists. split; [|exact Hr]. split; [done|]. split; [|done]. apply Hd. by left.
Qed.

(** What every loaded configuration satisfies. *)
Record config_ok (c : AppConfig) : Prop := {
  co_rules : Forall (λ r, rule_valid r.2) (ac_rules c);
  co_envs : NoDup (map (λ r, rc_env r.2) (ac_rules c));
  co_ports : Forall legal_port (ws_ports (ac_workspace c));
  co_expose : Forall (λ m, legal_port (em_port m) ∧ legal_port (em_host m)) (ws_expose (ac_workspace c));
  co_hosts : NoDup (map em_host (ws_expose (ac_workspace c)));
  co_disjoint m : m ∈ ws_expose (ac_workspace c) → em_host m ∉ ws_ports (ac_workspace c);
  co_networks : Forall (λ name, name ≠ [] ∧ Forall (λ b, is_network_char b = true) name) (ws_networks (ac_workspace c));
  co_extra : Forall (λ entry, ∃ host addr, split_host_entry entry = Some (host, addr) ∧ trim host ≠ [] ∧ trim addr ≠ [])
               (ws_extra_hosts (ac_workspace c));
}.

(** Validation accepts a configuration exactly when every rule names a
    nonempty environment variable no other rule names, states no empty value,
    only endpoints that parse, a valid pattern and a usable flow; published and
    exposed ports are neither zero nor a capture port and no host port is bound
    twice; and networks and extra hosts have their shape. *)
Theorem validate_exact c : validate c = Ok () ↔ config_ok c.
Proof.
  unfold validate. rewrite bind_ok. setoid_rewrite bind_ok. setoid_rewrite bind_ok. setoid_rewrite bind_ok.
  assert (try_fold (λ _ name, validate_network name) () (ws_networks (ac_workspace c)) = Ok () ↔
    Forall (λ name, name ≠ [] ∧ Forall (λ b, is_network_char b = true) name) (ws_networks (ac_workspace c))) as Hnet.
  { rewrite try_fold_check_iff. apply Forall_iff. intros name. unfold validate_network. rewrite Forall_forall.
    destruct (negb (bool_decide (name = [])) && forallb is_network_char name) eqn:E.
    - apply andb_true_iff in E as [E1%negb_true_iff%bool_decide_eq_false E2]. rewrite forallb_forall in E2.
      split; [|done]. intros _. split; [done|]. intros x Hx%list_elem_of_In. by apply E2.
    - split; [done|]. intros [Hn Hc]. rewrite bool_decide_eq_false_2 in E by done. simpl in E.
      rewrite <- not_true_iff_false, forallb_forall in E. exfalso. apply E. intros x Hx%list_elem_of_In. by apply Hc. }
  assert (try_fold (λ _ entry, validate_extra_host entry) () (ws_extra_hosts (ac_workspace c)) = Ok () ↔
    Forall (λ entry, ∃ host addr, split_host_entry entry = Some (host, addr) ∧ trim host ≠ [] ∧ trim addr ≠ []) (ws_extra_hosts (ac_workspace c))) as Hext.
  { rewrite try_fold_check_iff. apply Forall_iff. intros entry. unfold validate_extra_host. destruct (split_host_entry entry) as [[host addr]|]; [|naive_solver].
    destruct (decide (trim host = [])) as [Hh|Hh], (decide (trim addr = [])) as [Ha|Ha];
      rewrite ?(bool_decide_eq_true_2 _ Hh), ?(bool_decide_eq_false_2 _ Hh), ?(bool_decide_eq_true_2 _ Ha), ?(bool_decide_eq_false_2 _ Ha);
      naive_solver. }
  assert (try_fold (λ _ port, validate_port port) () (ws_ports (ac_workspace c)) = Ok () ↔ Forall legal_port (ws_ports (ac_workspace c))) as Hport.
  { rewrite try_fold_check_iff. apply Forall_iff. apply validate_port_iff. }
  split.
  - intros (names & Hr & [] & Hp & hosts & He & [] & Hn & Hx).
    destruct (proj1 (validate_rules_iff _ _) (ex_intro _ _ Hr)) as (H1 & H2 & _).
    destruct (proj1 (validate_exposes_iff _ _) (ex_intro _ _ He)) as (H4 & H5 & H6).
    split; [done|done|by apply Hport|done|done| |by apply Hnet|by apply Hext].
    intros m Hm Hin. apply (H6 m Hm). by apply elem_of_list_to_set.
  - intros [H1 H2 H3 H4 H5 H6 H7 H8].
    destruct (proj2 (validate_rules_iff ∅ (ac_rules c))) as (names & Hr); [by split_and!|].
    destruct (proj2 (validate_exposes_iff (list_to_set (ws_ports (ac_workspace c))) (ws_expose (ac_workspace c)))) as (hosts & He).
    { split_and!; [done..|]. intros m Hm Hin%elem_of_list_to_set. by apply (H6 m). }
    exists names. split; [done|]. exists (). split; [by apply Hport|]. exists hosts. split; [done|].
    exists (). split; [by apply Hnet|by apply Hext].
Qed.
End Validated.

(** ** What can still fail once a configuration is valid *)

Lemma bind_err {E A B} (f : A → result E B) m e : (m ≫= f) = Err e ↔ m = Err e ∨ ∃ a, m = Ok a ∧ f a = Err e.
Proof. destruct m; simpl; naive_solver. Qed.

Lemma try_fold_err {E A B} (f : B → A → result E B) acc xs e :
  try_fold f acc xs = Err e → ∃ acc' x, x ∈ xs ∧ f acc' x = Err e.
Proof.
  revert acc. induction xs as [|x xs IH]; intros acc; [done|]. simpl. rewrite bind_err. intros [He|(b & _ & Hr)].
  - exists acc, x. split; [by left|done].
  - destruct (IH b Hr) as (acc' & y & Hy & He). exists acc', y. split; [by right|done].
Qed.

Lemma map_err_Err {E F A} (f : E → F) (r : result E A) e : map_err f r = Err e ↔ ∃ e', r = Err e' ∧ e = f e'.
Proof. destruct r; simpl; naive_solver. Qed.

Section Failures.
Context `{!Digests, !UrlCrate, !TomlRegistry}.
Context (registry : Registry) (fnox : option FnoxSource).

(** The failures the secret source is the cause of: for a rule that wants a
    value, the source does not give a usable one of a key it declares. *)
Definition secret_failure (rules : list (bytes * RuleCfg)) (e : FnoxError) : Prop :=
  ∃ label rule source, (label, rule) ∈ rules ∧ fetches rule = true ∧ fnox = Some source ∧ fnox_key rule ∈ fs_declared source ∧
    ((∃ detail, fs_secret source (fnox_key rule) = Err detail ∧ e = FxSecret (fnox_key rule) detail) ∨
     fs_secret source (fnox_key rule) = Ok None ∧ e = DeclaredNoValue (fnox_key rule) ∨
     fs_secret source (fnox_key rule) = Ok (Some []) ∧ e = DeclaredEmpty (fnox_key rule)).

(** A rule that misses a value or every host, and says that this is an error. *)
Definition unresolved (rules : list (bytes * RuleCfg)) (e : FnoxError) : Prop :=
  ∃ label rule detail, (label, rule) ∈ rules ∧ rc_if_missing rule = MissError ∧ lacking registry fnox rule ∧
    e = UnresolvedRule label (rc_env rule) detail.

Lemma FnoxSource_value_err source key e : FnoxSource_value source key = Err e →
  key ∈ fs_declared source ∧
  ((∃ detail, fs_secret source key = Err detail ∧ e = FxSecret key detail) ∨
   fs_secret source key = Ok None ∧ e = DeclaredNoValue key ∨ fs_secret source key = Ok (Some []) ∧ e = DeclaredEmpty key).
Proof.
  unfold FnoxSource_value. case_bool_decide as Hk; [|done]. simpl. intros Hv. split; [done|]. revert Hv.
  destruct (fs_secret source key) as [[v|]|d]; simpl; [|intros [= <-]; auto|intros [= <-]; eauto].
  case_bool_decide; [|done]. subst. intros [= <-]. auto.
Qed.

Lemma skip_err label rule detail e : skip label rule detail = Err e → rc_if_missing rule = MissError ∧ e = UnresolvedRule label (rc_env rule) detail.
Proof. unfold skip. destruct (rc_if_missing rule); [by intros [= <-]|done..]. Qed.

Lemma flow_for_ok rule flow : registry_ok registry → rule_valid rule → flow_for registry rule = Some flow → flow_ok flow.
Proof.
  intros Hr (_ & _ & _ & _ & Hf). unfold flow_for. destruct (rc_oauth2 rule) as [f|] eqn:Eo; [intros [= <-]; by apply Hf|].
  case_bool_decide; [done|]. unfold lookup. destruct (rg_names registry !! to_ascii_uppercase (rc_env rule)) as [known|] eqn:Ek; [|done].
  simpl. intros Hk. by apply (ko_oauth2 _ (rgo_known _ Hr _ _ Ek)).
Qed.

Lemma pass_token_hosts_err label rule e :
  registry_ok registry → (∀ flow, flow_for registry rule = Some flow → flow_ok flow) →
  pass_token_hosts registry label rule = Err e →
  rc_if_missing rule = MissError ∧ (hosts_for registry rule = [] ∧ rc_allow rule = []) ∧ ∃ detail, e = UnresolvedRule label (rc_env rule) detail.
Proof.
  intros Hr Hf. unfold pass_token_hosts. cbv zeta. case_bool_decide as Hh.
  - rewrite bind_err. intros [[? ->]%skip_err|(u & _ & ?)]; [|done]. split; [done|]. split; [by apply no_hosts|by eexists].
  - rewrite bind_err. intros [He|(a & _ & ?)]; [|done]. exfalso.
    change (flow_for registry (RuleCfg_with _ _ _ _ _ rule)) with (flow_for registry rule) in He.
    cbn [RuleCfg_with rc_oauth2] in He. rewrite flow_for_default in He.
    apply try_fold_err in He as (acc & url & Hin & He). unfold push_authority in He.
    apply bind_err in He as [(e' & Ha & _)%map_err_Err|(a & _ & ?)]; [|done].
    destruct (flow_for registry rule) as [flow|]; [|by apply elem_of_nil in Hin].
    destruct (flow_ok_authority flow url (Hf flow eq_refl) Hin) as (authority & Ha'). congruence.
Qed.

Lemma pass_apply_err label rule e :
  registry_ok registry → (∀ flow, flow_for registry rule = Some flow → flow_ok flow) → (if fetches rule then ∃ v, fetched fnox rule = Ok v else True) →
  pass_apply registry fnox (own_value fnox rule) label rule = Err e →
  rc_if_missing rule = MissError ∧ lacking registry fnox rule ∧ ∃ detail, e = UnresolvedRule label (rc_env rule) detail.
Proof.
  intros Hr Hf. unfold pass_apply, own_value, fetches, lacking. destruct (RuleCfg_is_ssh rule); [done|]. destruct (bool_of_opt (RuleCfg_value_scheme rule)).
  - rewrite orb_true_r. intros (v & ->). unfold pass_connection_string. destruct v; [done|].
    rewrite bind_err. intros [[? ->]%skip_err|(u & _ & ?)]; [|done]. split_and!; [done..|by eexists].
  - rewrite orb_false_r. unfold pass_token. destruct (rc_value rule) as [value|]; simpl.
    + intros _ Hp. apply pass_token_hosts_err in Hp as (? & ? & ?); [|done..]. split_and!; [done|done|by right|done].
    + intros (v & ->). destruct v as [value|].
      * intros Hp. apply pass_token_hosts_err in Hp as (? & ? & ?); [|done|exact Hf]. split_and!; [done|done|by right|done].
      * rewrite bind_err. intros [[? ->]%skip_err|(u & _ & ?)]; [|done]. split_and!; [done|done|by left|by eexists].
Qed.

End Failures.

(** ** Concrete runs *)

Lemma merged_by_label_witness :
  let project := (bs "project", LfTable [(bs "b", Ok 3)]) in
  let global := (bs "global", LfTable [(bs "b", Ok 2); (bs "a", Ok 1)]) in
  ∀ kv, kv ∈ [(bs "a", 1); (bs "b", 3)] ↔ kv ∈ stated project ∨ (kv ∈ stated global ∧ kv.1 ∉ map fst (stated project)).
Proof.
  intros project global. refine (proj2 (merged_by_label project global [(bs "a", 1); (bs "b", 3)] _ _ _)).
  - apply NoDup_singleton.
  - apply NoDup_cons. split; [|apply NoDup_singleton]. intros Hin%list_elem_of_singleton. discriminate Hin.
  - vm_compute. reflexivity.
Defined.

Definition sample_profiles : ProfileLayer :=
  {| py_path := bs "profiles";
     py_cookie name := if bool_decide (name = bs "work") then CookieParent (bs "base") else NoCookie;
     py_held name := bool_decide (name = bs "work") || bool_decide (name = bs "base") |}.

Lemma profile_chain_ends_witness :
  ∃ result, profile_chain 4 [sample_profiles] (bs "work") = Some result.
Proof.
  destruct (profile_chain_ends [sample_profiles] [bs "work"; bs "base"] (bs "work")) as (result & Hr & _).
  - intros name. cbn. rewrite orb_false_r. intros [Hn%bool_decide_eq_true|Hn%bool_decide_eq_true]%orb_true_iff; subst name.
    + left.
    + right. left.
  - exists result. exact Hr.
Defined.

Example sample_chain : profile_chain 4 [sample_profiles] (bs "work") = Some (Ok [bs "work"; bs "base"; SHARED_PROFILE]).
Proof. vm_compute. reflexivity. Qed.

#[local] Existing Instances sample_digests sample_url sample_toml.


Example sample_references :
  collect_referenced_variables (bs "$HOME/${XDG_CACHE:-.cache}/$1/${open") = [bs "HOME"; bs "XDG_CACHE"].
Proof. vm_compute. reflexivity. Qed.
