(* ===== verification/Mint.v ===== *)
(** * Minted tokens

    [crates/hodor-proxy/src/mint.rs]: the process-lifetime store of minted
    pairs, keyed by the real value, and the lock-free burst guard for
    on-demand certificate leaves. The store is a [DashMap], here a [gmap];
    the guard's two atomics are the shared state of a step relation in which
    every load, compare-exchange, store and fetch is one step of a thread. *)

From S2P Require Import Prelude Decoy.

(** ** The minted-pair store *)

Record MintedPair := {
  mp_label : bytes;
  mp_decoy : bytes;
}.

Abbreviation MintStore := (gmap bytes MintedPair).

Inductive MintError := MintEmpty.

Section Store.
Context `{!Digests}.

(** [field] and [expires_in] are logged, never stored. *)
Definition MintStore_mint (store : MintStore) (label : bytes) (pattern : option bytes)
    (field value : bytes) (expires_in : option N) : result MintError bytes * MintStore :=
  if bool_decide (value = []) then (Err MintEmpty, store)
  else
    match store !! value with
    | Some entry => (Ok (mp_decoy entry), store)
    | None =>
        let decoy := fake_for value pattern in
        (Ok decoy, <[value := {| mp_label := label; mp_decoy := decoy |}]> store)
    end.

(** Every minted pair as (decoy, real, label). *)
Definition snapshot_pairs (store : MintStore) : list (bytes * bytes * bytes) :=
  map (λ kv, (mp_decoy kv.2, kv.1, mp_label kv.2)) (map_to_list store).

(** [mint] is a lookup and then an insert, and another thread may run between
    the two. A call in progress: before the lookup, between the two, or done
    with its decoy or its error. *)
Inductive mint_pc := MintStart | MintMissed | MintDone (decoy : bytes) | MintRefused.
Record mint_call := {
  mc_label : bytes;
  mc_pattern : option bytes;
  mc_value : bytes;
  mc_pc : mint_pc;
}.
Definition mint_at (c : mint_call) (pc : mint_pc) : mint_call :=
  {| mc_label := mc_label c; mc_pattern := mc_pattern c; mc_value := mc_value c; mc_pc := pc |}.

Inductive mint_step : MintStore * mint_call → MintStore * mint_call → Prop :=
| mint_refuse store c :
    mc_pc c = MintStart → mc_value c = [] →
    mint_step (store, c) (store, mint_at c MintRefused)
| mint_hit store c entry :
    mc_pc c = MintStart → mc_value c ≠ [] → store !! mc_value c = Some entry →
    mint_step (store, c) (store, mint_at c (MintDone (mp_decoy entry)))
| mint_miss store c :
    mc_pc c = MintStart → mc_value c ≠ [] → store !! mc_value c = None →
    mint_step (store, c) (store, mint_at c MintMissed)
| mint_insert store c :
    mc_pc c = MintMissed →
    mint_step (store, c)
      (<[mc_value c := {| mp_label := mc_label c; mp_decoy := fake_for (mc_value c) (mc_pattern c) |}]> store,
       mint_at c (MintDone (fake_for (mc_value c) (mc_pattern c)))).

(** Any number of calls interleaved on the one store. *)
Inductive mints_step : MintStore * list mint_call → MintStore * list mint_call → Prop :=
| mints_one store store' cs i c c' :
    cs !! i = Some c → mint_step (store, c) (store', c') →
    mints_step (store, cs) (store', <[i := c']> cs).

End Store.

(** ** The burst guard *)

Definition MINT_BURST : N := 20.
Definition MINT_WINDOW_SECS : N := 10.

Record MintBucket := {
  mb_window : N;
  mb_count : N;
}.
Definition set_window (b : MintBucket) (w : N) : MintBucket := {| mb_window := w; mb_count := mb_count b |}.
Definition set_count (b : MintBucket) (c : N) : MintBucket := {| mb_window := mb_window b; mb_count := c |}.

(** [usize] arithmetic of [fetch_add] and [fetch_sub]: it wraps. *)
Definition usize_mod : N := 2 ^ 64.
Definition wrapping_add (a b : N) : N := ((a + b) mod usize_mod)%N.
Definition wrapping_sub (a b : N) : N := ((a + (usize_mod - b mod usize_mod)) mod usize_mod)%N.

(** Where a call of [allow] stands; [now] was read once, on entry. *)
Inductive allow_pc :=
| Load                   (* top of the loop *)
| Aged (start : N)       (* the window expired: about to compare-exchange *)
| Reset                  (* won the exchange: about to store the count *)
| Fetch                  (* inside the window: about to fetch-add *)
| Undo                   (* over budget: about to fetch-sub *)
| Return (b : bool).

(** One atomic access of a thread whose clock read [now]. *)
Definition allow_step (now : N) (b : MintBucket) (pc : allow_pc) : MintBucket * allow_pc :=
  match pc with
  | Load =>
      let start := mb_window b in
      (b, if (MINT_WINDOW_SECS <=? now - start)%N then Aged start else Fetch)
  | Aged start =>
      if (mb_window b =? start)%N then (set_window b now, Reset) else (b, Load)
  | Reset => (set_count b 1, Return true)
  | Fetch =>
      (set_count b (wrapping_add (mb_count b) 1),
       if (mb_count b <? MINT_BURST)%N then Return true else Undo)
  | Undo => (set_count b (wrapping_sub (mb_count b) 1), Return false)
  | Return r => (b, Return r)
  end.

Definition returned (pc : allow_pc) : bool := match pc with Return _ => true | _ => false end.

(** A call running alone, to its return. *)
Fixpoint allow_run (fuel : nat) (now : N) (b : MintBucket) (pc : allow_pc) : option (MintBucket * bool) :=
  match pc with
  | Return r => Some (b, r)
  | _ =>
      match fuel with
      | 0 => None
      | S fuel => let '(b, pc) := allow_step now b pc in allow_run fuel now b pc
      end
  end.

(** Interleaved calls: (clock, where it stands) per thread. *)
Inductive allows_step : MintBucket * list (N * allow_pc) → MintBucket * list (N * allow_pc) → Prop :=
| allows_one b ts i now pc b' pc' :
    ts !! i = Some (now, pc) → returned pc = false → allow_step now b pc = (b', pc') →
    allows_step (b, ts) (b', <[i := (now, pc')]> ts).

(** A fixed schedule of the interleaving, for concrete runs. *)
Definition allows_sched (schedule : list nat) (s : MintBucket * list (N * allow_pc)) : MintBucket * list (N * allow_pc) :=
  foldl (λ '(b, ts) i,
    match ts !! i with
    | Some (now, pc) => let '(b', pc') := allow_step now b pc in (b', <[i := (now, pc')]> ts)
    | None => (b, ts)
    end) s schedule.

(** ** Properties of the store *)

Section StoreProperties.
Context `{!Digests}.
Implicit Types (store : MintStore) (value label field : bytes).

Lemma mint_Ok store label pattern field value e d store' :
  MintStore_mint store label pattern field value e = (Ok d, store') →
  value ≠ [] ∧ mp_decoy <$> store' !! value = Some d ∧
  (store !! value = None → d = fake_for value pattern) ∧
  ∀ v, v ≠ value → store' !! v = store !! v.
Proof.
  unfold MintStore_mint. case_bool_decide; [done|].
  destruct (store !! value) as [p|] eqn:Hp; intros [= <- <-].
  - by rewrite Hp.
  - rewrite lookup_insert_eq. repeat split; [done..|]. intros. by rewrite lookup_insert_ne.
Qed.

Lemma mint_subseteq store label pattern field value e :
  store ⊆ (MintStore_mint store label pattern field value e).2.
Proof.
  unfold MintStore_mint. case_bool_decide; [done|].
  destruct (store !! value) eqn:Hp; [done|]. by apply insert_subseteq.
Qed.

(** A successful mint records the decoy it returns under the real value,
    changes no other pair and loses none, and minting the value again, under
    any label and pattern, returns that decoy and leaves the store as it is;
    an empty value is the only error and records nothing. *)
Theorem mint_records_once store label pattern field value e :
  (value = [] ∧ MintStore_mint store label pattern field value e = (Err MintEmpty, store)) ∨
  ∃ d store', MintStore_mint store label pattern field value e = (Ok d, store') ∧
    mp_decoy <$> store' !! value = Some d ∧ store ⊆ store' ∧
    (∀ v, v ≠ value → store' !! v = store !! v) ∧
    (∃ l, (d, value, l) ∈ snapshot_pairs store') ∧
    ∀ label' pattern' field' e', MintStore_mint store' label' pattern' field' value e' = (Ok d, store').
Proof.
  destruct (MintStore_mint store label pattern field value e) as [[d|[]] store'] eqn:Hm.
  2: { left. unfold MintStore_mint in Hm. case_bool_decide; simplify_eq; [done|]. case_all. }
  right. exists d, store'. pose proof (mint_subseteq store label pattern field value e) as Hsub.
  rewrite Hm in Hsub. apply mint_Ok in Hm as (Hne & Hd & _ & Hother).
  apply fmap_Some in Hd as ([l d'] & Hl & ->). repeat split; [by rewrite Hl|done..| |].
  - exists l. unfold snapshot_pairs. apply list_elem_of_fmap.
    exists (value, {| mp_label := l; mp_decoy := d' |}). split; [done|]. by apply elem_of_map_to_list.
  - intros. unfold MintStore_mint. by rewrite bool_decide_eq_false_2, Hl.
Qed.

(** What holds at every point of an interleaving in which the calls for one
    value agree on the pattern. *)
Definition mints_inv (s : MintStore * list mint_call) : Prop :=
  (∀ c d, c ∈ s.2 → mc_pc c = MintDone d → mp_decoy <$> s.1 !! mc_value c = Some d) ∧
  (∀ c, c ∈ s.2 → mc_pc c = MintMissed → ∀ p, s.1 !! mc_value c = Some p →
    mp_decoy p = fake_for (mc_value c) (mc_pattern c)) ∧
  (∀ c c', c ∈ s.2 → c' ∈ s.2 → mc_value c = mc_value c' → mc_pattern c = mc_pattern c').

Lemma mint_at_fields c pc :
  mc_value (mint_at c pc) = mc_value c ∧ mc_pattern (mint_at c pc) = mc_pattern c ∧ mc_pc (mint_at c pc) = pc.
Proof. done. Qed.

Lemma mint_step_pc store c store' c' :
  mint_step (store, c) (store', c') → ∃ pc, c' = mint_at c pc.
Proof. intros Hs. inversion Hs; subst; eauto. Qed.

Lemma mints_inv_agree store (cs : list mint_call) store' i c c' :
  cs !! i = Some c → mint_step (store, c) (store', c') →
  (∀ a b, a ∈ cs → b ∈ cs → mc_value a = mc_value b → mc_pattern a = mc_pattern b) →
  ∀ a b, a ∈ <[i:=c']> cs → b ∈ <[i:=c']> cs → mc_value a = mc_value b → mc_pattern a = mc_pattern b.
Proof.
  intros Hc [pc ->]%mint_step_pc Hag.
  assert (∀ a, a ∈ <[i:=mint_at c pc]> cs → ∃ a0, a0 ∈ cs ∧ mc_value a = mc_value a0 ∧ mc_pattern a = mc_pattern a0) as Hpre.
  { intros a [->|Ha]%elem_of_insert; [|by exists a]. exists c. by split; [eapply list_elem_of_lookup_2|]. }
  intros a b (a0 & Ha & Hva & ->)%Hpre (b0 & Hb & Hvb & ->)%Hpre. rewrite Hva, Hvb. by apply Hag.
Qed.

Lemma mints_step_inv s s' : mints_step s s' → mints_inv s → mints_inv s'.
Proof.
  intros Hs. destruct Hs as [store store' cs i c c' Hc Hs]. intros (Hdone & Hmiss & Hag). simpl in *.
  pose proof (list_elem_of_lookup_2 _ _ _ Hc) as Hin.
  split; [|split]; simpl; [| |by eapply mints_inv_agree].
  all: inversion Hs; subst; simpl in *.
  - intros a d [->|Ha]%elem_of_insert; simpl; [done|by apply Hdone].
  - intros a d [->|Ha]%elem_of_insert; simpl; [|by apply Hdone]. intros [= <-]. by simplify_option_eq.
  - intros a d [->|Ha]%elem_of_insert; simpl; [done|by apply Hdone].
  - intros a d [->|Ha]%elem_of_insert; simpl.
    + intros [= <-]. by rewrite lookup_insert_eq.
    + intros Hd. destruct (decide (mc_value a = mc_value c)) as [E|E].
      2: { rewrite lookup_insert_ne by done. by apply Hdone. }
      specialize (Hdone a d Ha Hd). rewrite E in Hdone. apply fmap_Some in Hdone as (p & Hp & ->).
      rewrite E, lookup_insert_eq. simpl. f_equal. symmetry. by eapply Hmiss.
  - intros a [->|Ha]%elem_of_insert; simpl; [done|by apply Hmiss].
  - intros a [->|Ha]%elem_of_insert; simpl; [done|by apply Hmiss].
  - intros a [->|Ha]%elem_of_insert; simpl; [intros _ p; congruence|by apply Hmiss].
  - intros a [->|Ha]%elem_of_insert; simpl; [done|]. intros Hpc p.
    destruct (decide (mc_value a = mc_value c)) as [E|E].
    + rewrite E, lookup_insert_eq. intros [= <-]. simpl. f_equal. by apply Hag.
    + rewrite lookup_insert_ne by done. by apply Hmiss.
Qed.

(** However concurrent mints interleave, if the calls for one value agree
    on the pattern, every decoy a call handed to its guest is the one the
    store holds for that value at the end, so a later request can swap it
    back: last-writer-wins is harmless. *)
Theorem racing_mints_agree store (cs : list mint_call) store' (cs' : list mint_call) :
  (∀ c, c ∈ cs → mc_pc c = MintStart) →
  (∀ c c', c ∈ cs → c' ∈ cs → mc_value c = mc_value c' → mc_pattern c = mc_pattern c') →
  rtc mints_step (store, cs) (store', cs') →
  ∀ c d, c ∈ cs' → mc_pc c = MintDone d → mp_decoy <$> store' !! mc_value c = Some d.
Proof.
  intros Hstart Hag Hrun. assert (mints_inv (store, cs)) as Hinv.
  { split; [|split]; simpl; [..|done].
    - intros c d Hc. by rewrite (Hstart c).
    - intros c Hc. by rewrite (Hstart c). }
  assert (mints_inv (store', cs')) as (Hdone & _); [|exact Hdone].
  revert Hinv. remember (store, cs) as s. remember (store', cs') as s'. clear -Hrun.
  induction Hrun as [|x y z Hxy _ IH]; [done|]. intros Hinv. apply IH. by eapply mints_step_inv.
Qed.

End StoreProperties.

(** ** Properties of the burst guard *)

Definition approved (t : N * allow_pc) : nat := match t.2 with Return true => 1 | _ => 0 end.
Definition undoing (t : N * allow_pc) : nat := match t.2 with Undo => 1 | _ => 0 end.

(** No thread's clock has left the window that started at [w]. *)
Definition inside (w now : N) : Prop := (now - w < MINT_WINDOW_SECS)%N.

(** The guard inside one window: the count is the budget already spent, the
    approvals since and the refusals not yet undone. *)
Definition bucket_inv (w c0 : N) (s : MintBucket * list (N * allow_pc)) : Prop :=
  mb_window s.1 = w ∧
  (mb_count s.1 = c0 + N.of_nat (tally approved s.2) + N.of_nat (tally undoing s.2))%N ∧
  (c0 + N.of_nat (tally approved s.2) ≤ N.max c0 MINT_BURST)%N ∧
  (∀ i now pc, s.2 !! i = Some (now, pc) → inside w now ∧ (pc = Load ∨ pc = Fetch ∨ pc = Undo ∨ returned pc = true)).

Lemma wrapping_add_small a b : (a + b < usize_mod)%N → wrapping_add a b = (a + b)%N.
Proof. intros. by apply N.mod_small. Qed.
Lemma wrapping_sub_small a b : (b ≤ a)%N → (a < usize_mod)%N → wrapping_sub a b = (a - b)%N.
Proof.
  intros ? Ha. unfold wrapping_sub. rewrite (N.mod_small b) by lia.
  replace (a + (usize_mod - b))%N with ((a - b) + 1 * usize_mod)%N by lia.
  rewrite N.Div0.mod_add. apply N.mod_small. lia.
Qed.

Lemma approved_undoing_le ts : tally approved ts + tally undoing ts ≤ length ts.
Proof.
  unfold tally. induction ts as [|[n pc] ts IH]; simpl; [lia|].
  destruct pc as [| | | | |[]]; cbn; lia.
Qed.

Lemma allows_step_length s s' : allows_step s s' → length s'.2 = length s.2.
Proof. intros []; simpl. by rewrite length_insert. Qed.

Lemma allows_step_inv w c0 s s' :
  (c0 + N.of_nat (length s.2) + 1 < usize_mod)%N →
  allows_step s s' → bucket_inv w c0 s → bucket_inv w c0 s'.
Proof.
  intros Hsmall Hs. destruct Hs as [b ts i now pc b' pc' Hi Hr Hstep].
  intros (Hw & Hc & Hle & Hts). simpl in *.
  pose proof (approved_undoing_le ts).
  destruct (Hts i now pc Hi) as [Hin Hpc]. unfold inside in Hin.
  pose proof (tally_insert approved ts i (now, pc) (now, pc') Hi) as Ha.
  pose proof (tally_insert undoing ts i (now, pc) (now, pc') Hi) as Hu.
  assert (∀ q, q = Load ∨ q = Fetch ∨ q = Undo ∨ returned q = true →
    ∀ j n p, <[i:=(now, q)]> ts !! j = Some (n, p) →
    inside w n ∧ (p = Load ∨ p = Fetch ∨ p = Undo ∨ returned p = true)) as Hnew.
  { intros q Hq j n p [(->&[= <- <-]&_)|[_ Hj]]%list_lookup_insert_Some; [by split|by eapply Hts]. }
  destruct Hpc as [->|[->|[->|?]]]; [..|congruence]; simpl in Hstep.
  - rewrite (proj2 (N.leb_gt MINT_WINDOW_SECS (now - mb_window b))) in Hstep by (rewrite Hw; done).
    simplify_eq. cbn in Ha, Hu. split_and!; simpl; [done|lia|lia|apply Hnew; auto].
  - rewrite wrapping_add_small in Hstep by lia.
    destruct (N.ltb_spec (mb_count b) MINT_BURST); simplify_eq; cbn in Ha, Hu;
      (split_and!; simpl; [done|lia|lia|apply Hnew; auto]).
  - injection Hstep as <- <-. cbn in Ha, Hu. rewrite wrapping_sub_small by lia.
    split_and!; simpl; [done|lia|lia|apply Hnew; auto].
Qed.

(** Inside one window the burst guard is exact under every interleaving of
    its callers' atomic steps: starting from a fresh count, no schedule of any
    number of concurrent calls is ever approved more than [MINT_BURST] times. *)
Theorem burst_budget w ts b ts' :
  Forall (λ t, inside w t.1 ∧ t.2 = Load) ts →
  (N.of_nat (length ts) + 1 < usize_mod)%N →
  rtc allows_step ({| mb_window := w; mb_count := 0 |}, ts) (b, ts') →
  (N.of_nat (tally approved ts') ≤ MINT_BURST)%N.
Proof.
  intros Hload Hlen Hrun.
  assert (tally approved ts = 0 ∧ tally undoing ts = 0) as [Ha Hu].
  { clear -Hload. unfold tally. induction Hload as [|[n pc] ts [_ E] _ [IHa IHu]]; simpl in *; [done|].
    subst pc. cbn. auto. }
  assert (bucket_inv w 0 ({| mb_window := w; mb_count := 0 |}, ts)) as Hinv.
  { split_and!; simpl; rewrite ?Ha, ?Hu; [done..|lia|].
    intros i n pc Hi. destruct (proj1 (Forall_lookup _ _) Hload i _ Hi) as [? E]. simpl in *. auto. }
  assert (∀ x y, rtc allows_step x y → length x.2 = length ts → bucket_inv w 0 x → bucket_inv w 0 y) as Hinvs.
  { clear -Hlen. intros x y. induction 1 as [|x y z Hxy _ IH]; [done|]. intros Hl Hinv.
    apply IH; [by rewrite (allows_step_length _ _ Hxy)|].
    eapply allows_step_inv; [|done..]. by rewrite Hl, N.add_0_l. }
  destruct (Hinvs _ _ Hrun eq_refl Hinv) as (_ & _ & Hle & _). simpl in Hle. lia.
Qed.

(** A call of [allow] that runs alone returns after at most four atomic
    accesses: past the window it restarts the window with a count of one and
    approves; inside it approves and counts below the budget, and at the budget
    refuses and leaves the guard as it found it. *)
Theorem allow_alone now b :
  (mb_count b < usize_mod - 1)%N →
  allow_run 4 now b Load =
    Some (if (MINT_WINDOW_SECS <=? now - mb_window b)%N then ({| mb_window := now; mb_count := 1 |}, true)
          else if (mb_count b <? MINT_BURST)%N
          then ({| mb_window := mb_window b; mb_count := mb_count b + 1 |}, true)
          else (b, false)).
Proof.
  intros Hc. simpl. destruct (MINT_WINDOW_SECS <=? now - mb_window b)%N; simpl.
  - by rewrite N.eqb_refl.
  - rewrite wrapping_add_small by lia. destruct (mb_count b <? MINT_BURST)%N; simpl; [done|].
    rewrite wrapping_sub_small by lia. destruct b. simpl. unfold set_count. simpl. do 3 f_equal. lia.
Qed.

Lemma allow_alone_witness :
  allow_run 4 5 {| mb_window := 0; mb_count := 20 |} Load = Some ({| mb_window := 0; mb_count := 20 |}, false).
Proof. rewrite (allow_alone 5 {| mb_window := 0; mb_count := 20 |}); [reflexivity|reflexivity]. Defined.

Lemma burst_budget_witness :
  (N.of_nat (tally approved (replicate 3 (4, Load)%N)) ≤ MINT_BURST)%N.
Proof.
  apply (burst_budget 0 (replicate 3 (4, Load)%N) {| mb_window := 0; mb_count := 0 |}).
  - repeat (constructor; [by split|]). constructor.
  - reflexivity.
  - reflexivity.
Defined.

(** Any schedule is a run of the step relation. *)
Lemma sched_rtc schedule s : rtc allows_step s (allows_sched schedule s).
Proof.
  unfold allows_sched. revert s. induction schedule as [|i schedule IH]; intros [b ts]; simpl; [done|].
  destruct (ts !! i) as [[now pc]|] eqn:Hi; [|apply IH].
  destruct (allow_step now b pc) as [b' pc'] eqn:Hs.
  destruct (returned pc) eqn:Hr.
  - destruct pc; try done. simpl in Hs. simplify_eq. rewrite list_insert_id by done. apply IH.
  - eapply rtc_l; [by econstructor|apply IH].
Qed.

(** Two refusals still in flight when another caller rolls the window over
    can wrap the count to [usize::MAX]: the new window has approved one
    issuance, and a caller well inside it is refused. The guard is not only
    undercounted at a lost rollover race, it can refuse a whole window. *)
Theorem rollover_wraps_count :
  ∃ b ts, rtc allows_step
      ({| mb_window := 0; mb_count := MINT_BURST |}, [(5, Load); (5, Load); (10, Load); (11, Load)]%N) (b, ts) ∧
    b = {| mb_window := 10; mb_count := usize_mod - 1 |} ∧
    ts = [(5, Return false); (5, Return false); (10, Return true); (11, Return false)]%N.
Proof.
  exists {| mb_window := 10; mb_count := usize_mod - 1 |},
    [(5, Return false); (5, Return false); (10, Return true); (11, Return false)]%N.
  split_and!; [|done..].
  exact (sched_rtc [0; 0; 1; 1; 2; 2; 2; 0; 1; 3; 3; 3]
    ({| mb_window := 0; mb_count := MINT_BURST |}, [(5, Load); (5, Load); (10, Load); (11, Load)]%N)).
Qed.

(** When two grants with different decoy patterns mint the same value at
    once, the guest of the first call can be left with a decoy the store no
    longer holds, which no later request swaps back. *)
Theorem racing_mints_disagree `{!Digests} v l1 l2 :
  v ≠ [] →
  let c1 := {| mc_label := l1; mc_pattern := Some (bs "one"); mc_value := v; mc_pc := MintStart |} in
  let c2 := {| mc_label := l2; mc_pattern := Some (bs "two"); mc_value := v; mc_pc := MintStart |} in
  ∃ store' cs', rtc mints_step (∅, [c1; c2]) (store', cs') ∧
    mint_at c1 (MintDone (bs "one")) ∈ cs' ∧
    ∀ real l, (bs "one", real, l) ∉ snapshot_pairs store'.
Proof.
  intros Hv c1 c2. eexists _, _. split_and!.
  - eapply rtc_l; [eapply (mints_one _ _ _ 0 c1); [done|by apply mint_miss]|]. simpl.
    eapply rtc_l; [eapply (mints_one _ _ _ 1 c2); [done|by apply mint_miss]|]. simpl.
    eapply rtc_l; [eapply (mints_one _ _ _ 0 (mint_at c1 MintMissed)); [done|by apply mint_insert]|]. simpl.
    eapply rtc_l; [eapply (mints_one _ _ _ 1 (mint_at c2 MintMissed)); [done|by apply mint_insert]|].
    apply rtc_refl.
  - apply elem_of_cons. left. reflexivity.
  - intros real l Hin. unfold snapshot_pairs in Hin. apply list_elem_of_fmap in Hin as ([k p] & E & Hin).
    simpl in Hin. rewrite insert_insert_eq in Hin.
    apply elem_of_map_to_list in Hin.
    apply lookup_insert_Some in Hin as [[<- <-]|[_ Hin]]; [done|by rewrite lookup_empty in Hin].
Qed.

(** The two steps of a call with nothing between them are [MintStore_mint]. *)
Lemma mint_step_alone `{!Digests} store c store' d :
  mc_pc c = MintStart →
  MintStore_mint store (mc_label c) (mc_pattern c) [] (mc_value c) None = (Ok d, store') →
  rtc mint_step (store, c) (store', mint_at c (MintDone d)).
Proof.
  intros Hpc. unfold MintStore_mint. case_bool_decide; [done|].
  destruct (store !! mc_value c) as [p|] eqn:Hp; intros [= <- <-].
  - by apply rtc_once, mint_hit.
  - eapply rtc_l; [by apply mint_miss|]. apply rtc_once. by apply (mint_insert _ (mint_at c MintMissed)).
Qed.

Definition sample_call (label : bytes) (pc : mint_pc) : mint_call :=
  {| mc_label := label; mc_pattern := Some (bs "tok_{hex:4}"); mc_value := bs "real"; mc_pc := pc |}.

Lemma racing_mints_agree_witness :
  let _ := sample_digests in
  let done l := mint_at (mint_at (sample_call l MintStart) MintMissed)
                  (MintDone (fake_for (bs "real") (Some (bs "tok_{hex:4}")))) in
  ∃ store, mp_decoy <$> store !! bs "real" = Some (fake_for (bs "real") (Some (bs "tok_{hex:4}"))) ∧
    rtc mints_step (∅, [sample_call (bs "a") MintStart; sample_call (bs "b") MintStart])
        (store, [done (bs "a"); done (bs "b")]).
Proof.
  intros digests done.
  assert (∃ store, rtc mints_step (∅, [sample_call (bs "a") MintStart; sample_call (bs "b") MintStart])
        (store, [done (bs "a"); done (bs "b")])) as [store Hrun].
  { eexists.
    eapply rtc_l; [eapply (mints_one _ _ _ 0 (sample_call (bs "a") MintStart)); [done|by apply mint_miss]|]. simpl.
    eapply rtc_l; [eapply (mints_one _ _ _ 1 (sample_call (bs "b") MintStart)); [done|by apply mint_miss]|]. simpl.
    eapply rtc_l; [eapply (mints_one _ _ _ 0 (mint_at (sample_call (bs "a") MintStart) MintMissed)); [done|by apply mint_insert]|]. simpl.
    eapply rtc_l; [eapply (mints_one _ _ _ 1 (mint_at (sample_call (bs "b") MintStart) MintMissed)); [done|by apply mint_insert]|].
    apply rtc_refl. }
  exists store. split; [|exact Hrun].
  apply (racing_mints_agree _ _ _ _) with (c := done (bs "a"))
    (d := fake_for (bs "real") (Some (bs "tok_{hex:4}"))) in Hrun; [exact Hrun|..].
  - intros c Hc. repeat (apply elem_of_cons in Hc as [->|Hc]; [reflexivity|]). by apply elem_of_nil in Hc.
  - intros c c' Hc Hc' _. repeat (apply elem_of_cons in Hc as [->|Hc]; [|]); [..|by apply elem_of_nil in Hc].
    all: repeat (apply elem_of_cons in Hc' as [->|Hc']; [reflexivity|]); by apply elem_of_nil in Hc'.
  - left.
  - reflexivity.
Defined.

Lemma racing_mints_disagree_witness :
  let _ := sample_digests in
  ∃ store' cs', rtc mints_step
      (∅, [{| mc_label := bs "a"; mc_pattern := Some (bs "one"); mc_value := bs "v"; mc_pc := MintStart |};
           {| mc_label := bs "b"; mc_pattern := Some (bs "two"); mc_value := bs "v"; mc_pc := MintStart |}])
      (store', cs').
Proof.
  intros digests.
  destruct (racing_mints_disagree (bs "v") (bs "a") (bs "b")) as (store' & cs' & Hrun & _); [discriminate|].
  by exists store', cs'.
Defined.
