(* ===== verification/Engine.v ===== *)
(** * The substitution engine

    [crates/hodor-proxy/src/transports/engine/mod.rs]: which grants apply to an
    endpoint and in which direction, the mint plan, and the scan and replace
    primitives every framing machine is built on. [serde_json] is the class
    [JsonCrate]. *)

From S2P Require Import Prelude Decoy ConnString Grants Mint.

(** One direction of the swap: [Downstream] is guest→upstream. *)
Inductive Direction := Downstream | Upstream.
#[export] Instance Direction_eq_decision : EqDecision Direction.
Proof. solve_decision. Defined.

Inductive Location := Header | BasicAuth | Body.

Record Hit := {
  hit_label : bytes;
  hit_location : Location;
}.

(** Result of feeding one chunk to a wire. *)
Inductive Rewritten := Emit (out : bytes) | Hold | Close.

(** One direction's rewrite, framed by its protocol: the trait [Wire] over a
    machine state [M]. [feed m []] flushes at stream end. The defaults of
    the trait are [no_reply], [no_peer_note] and [ignore_peer_note]. *)
Class Wire (M : Type) := {
  feed : M → bytes → (Rewritten * list Hit) * M;
  take_reply : M → option bytes * M;
  take_peer_note : M → nat * M;
  apply_peer_note : M → nat → M;
}.
Definition no_reply {M} (m : M) : option bytes * M := (None, m).
Definition no_peer_note {M} (m : M) : nat * M := (0, m).
Definition ignore_peer_note {M} (m : M) (_ : nat) : M := m.

Record CredentialPair := {
  cp_needle : bytes;
  cp_replacement : bytes;
  cp_label : bytes;
}.

(** The pair one grant contributes, when it does. *)
Definition grant_pair (scheme : Scheme) (host : bytes) (port : N) (dir : Direction) (grant : Grant)
    : option CredentialPair :=
  if negb (Grant_matches grant scheme host port) then None
  else
    credential ← Grant_credential grant;
    let '(needle, replacement) :=
      match dir with
      | Downstream => (cr_fake credential, cr_value credential)
      | Upstream => (cr_value credential, cr_fake credential)
      end in
    if bool_decide (needle = []) || bool_decide (replacement = []) then None
    else Some {| cp_needle := needle; cp_replacement := replacement; cp_label := cr_label credential |}.

Definition eligible_pairs (grants : list Grant) (scheme : Scheme) (host : bytes) (port : N) (dir : Direction)
    : list CredentialPair :=
  omap (grant_pair scheme host port dir) grants.

Definition MAX_MINT_BODY : nat := 1024 * 1024.

Record MintPlan := {
  pl_label : bytes;
  pl_pattern : option bytes;
  pl_fields : list bytes;
}.

Definition grant_pattern (grant : Grant) : option bytes :=
  match grant with
  | GToken _ _ pattern _ => pattern
  | GPostgres _ _ | GRedis _ _ | GSsh _ => None
  end.

(** [iter.find_map(f)]. *)
Fixpoint find_map {A B} (f : A → option B) (l : list A) : option B :=
  match l with
  | [] => None
  | x :: l => match f x with Some y => Some y | None => find_map f l end
  end.

Definition mint_plan_for (grants : list Grant) (scheme : Scheme) (host : bytes) (port : N) : option MintPlan :=
  find_map (λ grant,
    match grant with
    | GToken credential _ _ (Some flow) =>
        if Grant_matches grant scheme host port then
          Some {| pl_label := cr_label credential;
                  pl_pattern := grant_pattern grant;
                  pl_fields := if bool_decide (of_token_fields flow = []) then OAuthFlow_fields flow
                               else of_token_fields flow |}
        else None
    | _ => None
    end) grants.

Definition minted_pair (dir : Direction) (entry : bytes * bytes * bytes) : option CredentialPair :=
  let '(decoy, real, label) := entry in
  if bool_decide (decoy = []) || bool_decide (real = []) then None
  else
    let '(needle, replacement) := match dir with
                                  | Downstream => (decoy, real)
                                  | Upstream => (real, decoy)
                                  end in
    Some {| cp_needle := needle; cp_replacement := replacement; cp_label := label |}.

Definition minted_pairs (mint : MintStore) (dir : Direction) : list CredentialPair :=
  omap (minted_pair dir) (snapshot_pairs mint).

(** ** Scanning *)

Definition max_tail_size (pairs : list CredentialPair) : nat :=
  default 1 (match pairs with
             | [] => None
             | _ => Some (max_list (map (λ p, length (cp_needle p)) pairs))
             end) - 1.

(** The starts of the windows equal to the needle: [windows(n).enumerate()]. *)
Definition any_window (hay needle : bytes) (p : nat → bool) : bool :=
  existsb (λ iw, bool_decide (iw.2 = needle) && p iw.1)
    (imap (λ i w, (i, w)) (windows (length needle) hay)).

Definition find_new_match (combined needle : bytes) (tail_len : nat) : bool :=
  if bool_decide (needle = []) || (length combined <? length needle) then false
  else any_window combined needle (λ i, tail_len <? i + length needle).

Definition find_crossing (window needle : bytes) (old_tail_len : nat) : bool :=
  if bool_decide (needle = []) || (length window <? length needle) then false
  else any_window window needle (λ i, i <? old_tail_len).

(** Scan-only detection; returns the hits and the new tail. *)
Definition scan_with_tail (pairs : list CredentialPair) (tail : bytes) (tail_size : nat) (data : bytes)
    (location : Location) : list Hit * bytes :=
  let hit pair := {| hit_label := cp_label pair; hit_location := location |} in
  let hits :=
    if bool_decide (tail = []) then
      map hit (filter (λ pair, find_new_match data (cp_needle pair) 0 = true) pairs)
    else
      let old_tail_len := length tail in
      let window := tail ++ take (Nat.min tail_size (length data)) data in
      map hit (filter (λ pair, find_new_match data (cp_needle pair) 0 ||
                               find_crossing window (cp_needle pair) old_tail_len = true) pairs) in
  let keep := Nat.min tail_size (length data) in
  (hits, drop (length data - keep) data).

(** ** Replacing *)

(** The [while] loop of [replace_bytes]: (the buffer once a match was seen,
    where the pending run starts). [None] when the fuel does not suffice. *)
Fixpoint replace_loop (fuel : nat) (haystack needle replacement : bytes)
    (out : option bytes) (run_start cursor : nat) : option (option bytes * nat) :=
  if cursor + length needle <=? length haystack then
    match fuel with
    | 0 => None
    | S fuel =>
        if starts_with (drop cursor haystack) needle then
          let buf := default [] out ++ drop run_start (take cursor haystack) ++ replacement in
          let cursor := cursor + length needle in
          replace_loop fuel haystack needle replacement (Some buf) cursor cursor
        else replace_loop fuel haystack needle replacement out run_start (cursor + 1)
    end
  else Some (out, run_start).

Definition replace_bytes (haystack needle replacement : bytes) : option bytes :=
  if bool_decide (needle = []) || (length haystack <? length needle) then None
  else
    '(out, run_start) ← replace_loop (length haystack) haystack needle replacement None 0 0;
    buf ← out;
    Some (buf ++ drop run_start haystack).

Definition replace_step (location : Location) (acc : bytes * list Hit) (pair : CredentialPair) : bytes * list Hit :=
  match replace_bytes acc.1 (cp_needle pair) (cp_replacement pair) with
  | Some next => (next, acc.2 ++ [{| hit_label := cp_label pair; hit_location := location |}])
  | None => acc
  end.
Definition replace_in (data : bytes) (pairs : list CredentialPair) (location : Location) : bytes * list Hit :=
  foldl (replace_step location) (data, []) pairs.

Definition response_has_no_body (status : option N) : bool :=
  match status with
  | None => false
  | Some code => ((100 <=? code) && (code <? 200))%N || (code =? 204)%N || (code =? 205)%N || (code =? 304)%N
  end.

(** [for keep in (1..=max).rev()]. *)
Fixpoint prefix_suffix_go (keep : nat) (data : bytes) (pairs : list CredentialPair) : nat :=
  match keep with
  | 0 => 0
  | S below =>
      let suffix := drop (length data - keep) data in
      if existsb (λ pair, (keep <? length (cp_needle pair)) && starts_with (cp_needle pair) suffix) pairs
      then keep else prefix_suffix_go below data pairs
  end.
Definition needle_prefix_suffix_len (data : bytes) (pairs : list CredentialPair) (bound : nat) : nat :=
  prefix_suffix_go (Nat.min bound (length data)) data pairs.

(** The inner [while] of [needle_safe_emit_len]. *)
Fixpoint safe_emit_loop (fuel : nat) (data needle : bytes) (emit cursor : nat) : nat :=
  match fuel with
  | 0 => emit
  | S fuel =>
      if cursor + length needle <=? length data then
        if starts_with (drop cursor data) needle then
          safe_emit_loop fuel data needle (Nat.max emit (cursor + length needle)) (cursor + length needle)
        else safe_emit_loop fuel data needle emit (cursor + 1)
      else emit
  end.
Definition safe_emit_pair (data : bytes) (emit : nat) (pair : CredentialPair) : nat :=
  let needle := cp_needle pair in
  if bool_decide (needle = []) || (length data <? length needle) then emit
  else safe_emit_loop (S (length data)) data needle emit 0.
Definition needle_safe_emit_len (data : bytes) (pairs : list CredentialPair) (tail_bound : nat) : nat :=
  foldl (safe_emit_pair data) (length data - needle_prefix_suffix_len data pairs tail_bound) pairs.

(** The hold-back window every streaming machine slides over its bytes: emit
    and substitute up to the safe length, hold the rest. *)
Definition window_step (pairs : list CredentialPair) (tail_size : nat) (location : Location)
    (held chunk : bytes) : (bytes * list Hit) * bytes :=
  let combined := held ++ chunk in
  let emit_len := needle_safe_emit_len combined pairs tail_size in
  (replace_in (take emit_len combined) pairs location, drop emit_len combined).

(** ** Minting a token response *)

Class JsonCrate := {
  Json : Type;
  json_from_str : bytes → option Json;
  json_is_object : Json → bool;
  json_get : Json → bytes → option Json;
  json_insert_str : Json → bytes → bytes → Json;
  json_as_str : Json → option bytes;
  json_as_u64 : Json → option N;
  json_to_vec : Json → option bytes;
}.

Section Minting.
Context `{!Digests, !JsonCrate}.

(** One field of the plan: (value, hits, store). *)
Definition mint_field (plan : MintPlan) (expires_in : option N) (acc : Json * list Hit * MintStore) (field : bytes)
    : Json * list Hit * MintStore :=
  let '(value, hits, mint) := acc in
  match json_get value field ≫= json_as_str with
  | None => (value, hits, mint)
  | Some real =>
      match MintStore_mint mint (pl_label plan) (pl_pattern plan) field real expires_in with
      | (Err _, mint) => (value, hits, mint)
      | (Ok decoy, mint) =>
          (json_insert_str value field decoy,
           hits ++ [{| hit_label := pl_label plan; hit_location := Body |}], mint)
      end
  end.

Definition mint_body (plan : MintPlan) (mint : MintStore) (body : bytes) : bytes * list Hit * MintStore :=
  if negb (utf8_valid body) then (body, [], mint)
  else
    match json_from_str body with
    | None => (body, [], mint)
    | Some value =>
        if negb (json_is_object value) then (body, [], mint)
        else
          let expires_in := json_get value (bs "expires_in") ≫= json_as_u64 in
          let '(value, hits, mint) := foldl (mint_field plan expires_in) (value, [], mint) (pl_fields plan) in
          (default body (json_to_vec value), hits, mint)
    end.

Definition mint_and_redact (plan : MintPlan) (mint : MintStore) (body : bytes) (pairs : list CredentialPair)
    : bytes * list Hit * MintStore :=
  let '(minted, hits, mint) := mint_body plan mint body in
  let '(redacted, static_hits) := replace_in minted pairs Body in
  (redacted, hits ++ static_hits, mint).
End Minting.

(** ** The reference substitution

    [subst needle replacement 0 d] scans [d] once, left to right, replacing
    each occurrence it meets and continuing past it; [skip] counts the bytes
    of a needle just replaced that are still to be passed over. *)
Fixpoint subst (needle replacement : bytes) (skip : nat) (d : bytes) : bytes :=
  match d with
  | [] => []
  | b :: d' =>
      match skip with
      | S k => subst needle replacement k d'
      | 0 => if starts_with d needle then replacement ++ subst needle replacement (length needle - 1) d'
             else b :: subst needle replacement 0 d'
      end
  end.

(** [s.replace(from, to)]. *)
Definition str_replace (s from to : bytes) : bytes :=
  match from with
  | [] => to ++ concat (map (λ c, c ++ to) (chars s))
  | _ => subst from to 0 s
  end.

(** [needle] occurs in [d]. *)
Definition occurs (needle d : bytes) : Prop := ∃ i, i ≤ length d ∧ needle `prefix_of` drop i d.

Section Subst.
Context (n r : bytes) (Hn : n ≠ []).

Lemma needle_pos : 0 < length n.
Proof. destruct n; [done|simpl; lia]. Qed.

Lemma subst_skip k d : k ≤ length d → subst n r k d = subst n r 0 (drop k d).
Proof.
  revert k. induction d as [|b d IH]; intros [|k] Hk; simpl in *; [done|lia|done|].
  rewrite IH by lia. done.
Qed.

Lemma subst_match d : subst n r 0 (n ++ d) = r ++ subst n r 0 d.
Proof.
  pose proof needle_pos. destruct n as [|b m] eqn:E; [done|]. rewrite <- E.
  assert (n ++ d = b :: (m ++ d)) as -> by by rewrite E.
  simpl. rewrite (proj2 (starts_with_true _ _)) by (rewrite E; by exists d).
  rewrite E at 2. simpl. rewrite Nat.sub_0_r, subst_skip by (rewrite length_app; lia).
  by rewrite drop_app_length.
Qed.

Lemma subst_step b d : ¬ n `prefix_of` b :: d → subst n r 0 (b :: d) = b :: subst n r 0 d.
Proof. intros H. simpl. by rewrite (proj2 (starts_with_false _ _)). Qed.

(** Splitting a prefix off at a point the greedy scan of the whole reaches. *)
Inductive scan_reaches : bytes → bytes → Prop :=
| reaches_here d : scan_reaches [] d
| reaches_match d1 d2 : scan_reaches d1 d2 → scan_reaches (n ++ d1) d2
| reaches_step b d1 d2 :
    ¬ n `prefix_of` b :: d1 ++ d2 → scan_reaches d1 d2 → scan_reaches (b :: d1) d2.

Lemma subst_app d1 d2 : scan_reaches d1 d2 → subst n r 0 (d1 ++ d2) = subst n r 0 d1 ++ subst n r 0 d2.
Proof.
  induction 1 as [d|d1 d2 _ IH|b d1 d2 Hb _ IH]; [done|..].
  - by rewrite <- app_assoc, !subst_match, IH, app_assoc.
  - rewrite <- app_comm_cons, !subst_step, IH; [done| |done].
    contradict Hb. destruct Hb as [k Hk]. exists (k ++ d2).
    by rewrite app_comm_cons, Hk, app_assoc.
Qed.

Lemma subst_no_occurrence d : ¬ occurs n d → subst n r 0 d = d.
Proof.
  induction d as [|b d IH]; intros Ho; [done|]. rewrite subst_step, IH; [done| |].
  - intros (i & Hi & Hp). apply Ho. exists (S i). split; [simpl; lia|done].
  - intros Hp. apply Ho. exists 0. split; [lia|done].
Qed.

(** Every text is scanned to its end. *)
Lemma scan_total d : scan_reaches d [].
Proof.
  pose proof needle_pos. remember (length d) as k eqn:Hk. revert d Hk.
  induction k as [k IH] using lt_wf_ind. intros d ->.
  destruct (decide (n `prefix_of` d)) as [Hp|Hp].
  - rewrite (prefix_drop_app _ _ Hp). apply reaches_match. apply (IH (length (drop (length n) d))); [|done].
    apply prefix_length in Hp. rewrite length_drop. lia.
  - destruct d as [|b d]; [constructor|]. apply reaches_step; [by rewrite app_nil_r|].
    apply (IH (length d)); [simpl; lia|done].
Qed.

Lemma length_subst d : length n = length r → length (subst n r 0 d) = length d.
Proof.
  intros Hl. pose proof (scan_total d) as Hd. remember (@nil byte) as e eqn:He in Hd.
  induction Hd as [d|d1 d2 _ IH|b d1 d2 Hb _ IH]; simplify_eq; [done|..].
  - rewrite subst_match, !length_app, IH by done. lia.
  - rewrite app_nil_r in Hb. rewrite subst_step by done. simpl. by rewrite IH.
Qed.

(** Where the replace loop of [replace_bytes] stands is a point the scan reaches. *)
Lemma replace_loop_spec fuel h out run cur :
  run ≤ cur ≤ length h → length h - cur ≤ fuel →
  ∃ out' run', replace_loop fuel h n r out run cur = Some (out', run') ∧
    default [] out' ++ drop run' h =
      default [] out ++ drop run (take cur h) ++ subst n r 0 (drop cur h) ∧
    (out' = None ↔ out = None ∧ ¬ occurs n (drop cur h)).
Proof.
  pose proof needle_pos. revert out run cur. induction fuel as [|fuel IH]; intros out run cur Hrun Hf; simpl.
  - rewrite (proj2 (Nat.leb_gt _ _)) by lia. exists out, run. split; [done|].
    rewrite (drop_ge h cur), (take_ge h) by lia. simpl. rewrite app_nil_r. split; [done|].
    split; [|by intros [??]]. intros ->. split; [done|]. intros (i & Hi & Hp).
    apply prefix_length in Hp. rewrite length_drop in Hp. simpl in *. lia.
  - destruct (Nat.leb_spec (cur + length n) (length h)) as [Hle|Hgt].
    2: { exists out, run. split; [done|].
      assert (¬ occurs n (drop cur h)) as Hno.
      { intros (i & Hi & Hp). apply prefix_length in Hp. rewrite !length_drop in Hp. lia. }
      split; [|naive_solver]. rewrite subst_no_occurrence by done.
      f_equal. rewrite <- drop_app_le' by (rewrite length_take; lia). by rewrite take_drop. }
    destruct (starts_with (drop cur h) n) eqn:Hs.
    + apply starts_with_true in Hs. pose proof (prefix_drop_app _ _ Hs) as Hd.
      rewrite drop_drop in Hd.
      edestruct (IH (Some (default [] out ++ drop run (take cur h) ++ r)) (cur + length n) (cur + length n))
        as (out' & run' & -> & Heq & Hnone); [lia|lia|].
      exists out', run'. split; [done|]. split.
      * rewrite Heq, Hd, subst_match. rewrite (drop_ge (take (cur + length n) h)) by (rewrite length_take; lia).
        simpl. by rewrite <- !app_assoc.
      * rewrite Hnone. split; [by intros [? _]|]. intros [_ Hno]. destruct Hno. exists 0.
        split; [lia|]. by rewrite drop_0.
    + apply starts_with_false in Hs.
      destruct (drop cur h) as [|b d] eqn:Hd.
      { apply (f_equal length) in Hd. rewrite length_drop in Hd. simpl in Hd. lia. }
      assert (drop (cur + 1) h = d) as Hd1 by by rewrite <- drop_drop, Hd.
      edestruct (IH out run (cur + 1)) as (out' & run' & -> & Heq & Hnone); [lia|lia|].
      exists out', run'. split; [done|]. split.
      * rewrite Heq, Hd1, subst_step by done.
        assert (take (cur + 1) h = take cur h ++ [b]) as ->.
        { rewrite Nat.add_1_r. apply take_S_r. rewrite <- (Nat.add_0_r cur), <- lookup_drop, Hd. done. }
        rewrite drop_app_le' by (rewrite length_take; lia). by rewrite <- !app_assoc.
      * rewrite Hnone, Hd1. apply and_iff_compat_l. apply not_iff_compat. split.
        -- intros (i & Hi & Hp). exists (S i). split; [simpl; lia|done].
        -- intros ([|i] & Hi & Hp); [done|]. exists i. split; [simpl in Hi; lia|done].
Qed.

Lemma replace_bytes_subst h :
  (occurs n h → replace_bytes h n r = Some (subst n r 0 h)) ∧
  (¬ occurs n h → replace_bytes h n r = None).
Proof.
  unfold replace_bytes. rewrite bool_decide_eq_false_2 by done. simpl.
  destruct (Nat.ltb_spec (length h) (length n)) as [Hlt|Hge].
  - split; [|done]. intros (i & Hi & Hp). apply prefix_length in Hp. rewrite length_drop in Hp. lia.
  - destruct (replace_loop_spec (length h) h None 0 0) as (out & run & -> & Heq & Hnone); [lia..|].
    rewrite !drop_0 in *. simpl in *. destruct out as [buf|]; simpl in *.
    + split; intros Ho; [by rewrite Heq|]. by discriminate (proj2 Hnone (conj eq_refl Ho)).
    + split; [|done]. intros Ho. by destruct (proj1 Hnone eq_refl) as [_ []].
Qed.
End Subst.

(** ** The hold-back window *)

Lemma prefix_suffix_go_spec keep data pairs :
  keep ≤ length data →
  let k := prefix_suffix_go keep data pairs in
  k ≤ keep ∧
  (0 < k → ∃ pair, pair ∈ pairs ∧ k < length (cp_needle pair) ∧ drop (length data - k) data `prefix_of` cp_needle pair) ∧
  ∀ j pair, k < j ≤ keep → pair ∈ pairs → j < length (cp_needle pair) →
    ¬ drop (length data - j) data `prefix_of` cp_needle pair.
Proof.
  induction keep as [|keep IH]; intros Hk; simpl.
  { split_and!; [lia|lia|]. intros. lia. }
  destruct (existsb _ pairs) eqn:Hex.
  - split_and!; [lia| |intros; lia]. intros _.
    apply existsb_exists in Hex as (pair & Hin & Hp). apply andb_true_iff in Hp as [Hl Hp].
    apply list_elem_of_In in Hin. apply starts_with_true in Hp.
    exists pair. split_and!; [done| |done]. apply Nat.leb_le in Hl. lia.
  - destruct IH as (IH1 & IH2 & IH3); [lia|]. split_and!; [lia|done|].
    intros j pair Hj Hin Hl Hp. destruct (decide (j = S keep)) as [->|]; [|by apply (IH3 j pair); [lia|..]].
    apply not_true_iff_false in Hex. apply Hex. apply existsb_exists. exists pair.
    split; [by apply list_elem_of_In|]. apply andb_true_iff. split; [by apply Nat.leb_le|].
    by apply starts_with_true.
Qed.

Section Window.
Context (pair : CredentialPair) (Hn : cp_needle pair ≠ []).
Local Abbreviation n := (cp_needle pair).
Local Abbreviation r := (cp_replacement pair).

Lemma safe_emit_loop_ge fuel d emit cur : emit ≤ safe_emit_loop fuel d n emit cur.
Proof.
  revert emit cur. induction fuel as [|fuel IH]; intros emit cur; simpl; [lia|].
  case_match; [|lia]. case_match; [|apply IH]. etrans; [|apply IH]. lia.
Qed.

Lemma safe_emit_loop_le fuel d emit cur : emit ≤ length d → safe_emit_loop fuel d n emit cur ≤ length d.
Proof.
  revert emit cur. induction fuel as [|fuel IH]; intros emit cur He; simpl; [lia|].
  destruct (Nat.leb_spec (cur + length n) (length d)); [|lia]. case_match; apply IH; lia.
Qed.

Lemma not_occurs_short d : length d < length n → ¬ occurs n d.
Proof. intros Hl (i & _ & Hp). apply prefix_length in Hp. rewrite length_drop in Hp. lia. Qed.

Lemma occurs_drop_S d cur :
  ¬ n `prefix_of` drop cur d → occurs n (drop cur d) → occurs n (drop (cur + 1) d).
Proof.
  intros Hno ([|i] & Hi & Hp); [done|]. exists i. rewrite length_drop in *.
  split; [lia|]. rewrite drop_drop in *. by replace (cur + 1 + i) with (cur + S i) by lia.
Qed.

(** Past the safe length the scan meets no complete match ... *)
Lemma safe_emit_loop_no_match fuel d emit cur :
  length d < cur + fuel → safe_emit_loop fuel d n emit cur ≤ cur → ¬ occurs n (drop cur d).
Proof.
  pose proof (needle_pos n Hn). revert emit cur. induction fuel as [|fuel IH]; intros emit cur Hf He.
  { apply not_occurs_short. rewrite length_drop. lia. }
  simpl in He. destruct (Nat.leb_spec (cur + length n) (length d)).
  2: { apply not_occurs_short. rewrite length_drop. lia. }
  destruct (starts_with (drop cur d) n) eqn:Hs.
  - pose proof (safe_emit_loop_ge fuel d (emit `max` (cur + length n)) (cur + length n)). lia.
  - apply starts_with_false in Hs. intros Ho%occurs_drop_S; [|done]. revert Ho.
    apply (IH emit); [lia|]. lia.
Qed.

(** ... and up to it the scan of the data so far is the scan of the data with
    anything appended. *)
Lemma safe_emit_loop_reaches fuel d x emit cur :
  let e := safe_emit_loop fuel d n emit cur in
  length d < cur + fuel → cur ≤ e → e ≤ length d →
  (emit ≤ cur ∨ ∀ j, length d - emit < j → j < length n → j ≤ length d → ¬ drop (length d - j) d `prefix_of` n) →
  scan_reaches n (take (e - cur) (drop cur d)) (drop e d ++ x) ∧ ¬ occurs n (drop e d).
Proof.
  pose proof (needle_pos n Hn). revert emit cur.
  induction fuel as [|fuel IH]; intros emit cur; [simpl; lia|].
  intros e Hf Hce Hed Hk. destruct (decide (e = cur)) as [Hec|Hec].
  { rewrite Hec, Nat.sub_diag, take_0. split; [constructor|].
    apply (safe_emit_loop_no_match (S fuel) d emit cur); [done|]. unfold e in Hec. lia. }
  subst e. simpl in *. destruct (Nat.leb_spec (cur + length n) (length d)) as [Hle|Hgt].
  2: { destruct Hk as [?|Hk]; [lia|]. split; [|apply not_occurs_short; rewrite length_drop; lia].
    clear IH Hf. remember (emit - cur) as m eqn:Hm. revert cur Hce Hgt Hec Hm.
    induction m as [|m IHm]; intros cur Hce Hgt Hec Hm; [lia|].
    destruct (drop cur d) as [|b d'] eqn:Hd.
    { apply (f_equal length) in Hd. rewrite length_drop in Hd. simpl in Hd. lia. }
    assert (drop (cur + 1) d = d') as Hd1 by by rewrite <- drop_drop, Hd.
    assert (take m d' ++ drop emit d = d') as Happ.
    { rewrite <- Hd1. replace emit with (cur + 1 + m) at 1 by lia. by rewrite <- (drop_drop d m), take_drop. }
    simpl. apply reaches_step.
    - rewrite app_assoc, Happ. intros Hp. apply (Hk (length d - cur)); [lia..|].
      replace (length d - (length d - cur)) with cur by lia. rewrite Hd.
      apply (prefix_of_both _ _ ((b :: d') ++ x)); [|by exists x|done].
      rewrite <- Hd, length_drop. lia.
    - rewrite <- Hd1. destruct (decide (emit = cur + 1)) as [->|].
      + replace m with 0 by lia. rewrite take_0. constructor.
      + apply IHm; lia. }
  destruct (starts_with (drop cur d) n) eqn:Hs.
  - apply starts_with_true in Hs. pose proof (prefix_drop_app _ _ Hs) as Hd. rewrite drop_drop in Hd.
    pose proof (safe_emit_loop_ge fuel d (emit `max` (cur + length n)) (cur + length n)) as Hge.
    destruct (IH (emit `max` (cur + length n)) (cur + length n)) as [Hr Ho]; [lia|lia|done| |].
    { destruct Hk as [?|Hk]; [left; lia|]. destruct (decide (emit ≤ cur + length n)); [left; lia|right].
      intros j. rewrite Nat.max_l by lia. apply Hk. }
    split; [|done]. rewrite Hd at 1. rewrite take_app, take_ge by lia. apply reaches_match.
    by replace (_ - cur - length n) with
      (safe_emit_loop fuel d n (emit `max` (cur + length n)) (cur + length n) - (cur + length n)) by lia.
  - apply starts_with_false in Hs.
    destruct (IH emit (cur + 1)) as [Hr Ho]; [lia|lia|done| |].
    { destruct Hk as [?|Hk]; [left; lia|by right]. }
    split; [|done]. set (e := safe_emit_loop fuel d n emit (cur + 1)) in *.
    destruct (drop cur d) as [|b d'] eqn:Hd.
    { apply (f_equal length) in Hd. rewrite length_drop in Hd. simpl in Hd. lia. }
    assert (drop (cur + 1) d = d') as Hd1 by by rewrite <- drop_drop, Hd. rewrite Hd1 in Hr.
    replace (e - cur) with (S (e - (cur + 1))) by lia. simpl. apply reaches_step; [|done].
    assert (take (e - (cur + 1)) d' ++ drop e d = d') as Happ.
    { rewrite <- Hd1. replace e with (cur + 1 + (e - (cur + 1))) at 2 by lia. by rewrite <- (drop_drop d (e - (cur + 1))), take_drop. }
    rewrite app_assoc, Happ, app_comm_cons. intros Hp. apply Hs. eapply prefix_app_inv; [|done].
    rewrite <- Hd, length_drop. lia.
Qed.
End Window.

Lemma max_tail_size_one pair : max_tail_size [pair] = length (cp_needle pair) - 1.
Proof. unfold max_tail_size. simpl max_list. by rewrite Nat.max_0_r. Qed.

Lemma replace_in_one pair d loc :
  cp_needle pair ≠ [] →
  (replace_in d [pair] loc).1 = subst (cp_needle pair) (cp_replacement pair) 0 d.
Proof.
  intros Hn. unfold replace_in, replace_step. simpl.
  destruct (replace_bytes_subst _ (cp_replacement pair) Hn d) as [Hyes Hno].
  destruct (replace_bytes d _ _) as [out|] eqn:Hr; simpl.
  - destruct (decide (Exists (λ i, cp_needle pair `prefix_of` drop i d) (seq 0 (S (length d))))) as [Ho|Ho].
    + apply Exists_exists in Ho as (i & Hi & Hp). apply elem_of_seq in Hi.
      assert (occurs (cp_needle pair) d) as Hocc by (exists i; split; [lia|done]).
      specialize (Hyes Hocc). congruence.
    + assert (¬ occurs (cp_needle pair) d) as Hocc.
      { intros (i & Hi & Hp). apply Ho. apply Exists_exists. exists i. split; [|done]. apply elem_of_seq. lia. }
      specialize (Hno Hocc). congruence.
  - symmetry. apply subst_no_occurrence. intros Hocc. specialize (Hyes Hocc). congruence.
Qed.

Lemma safe_emit_pair_loop d emit pair :
  cp_needle pair ≠ [] → safe_emit_pair d emit pair = safe_emit_loop (S (length d)) d (cp_needle pair) emit 0.
Proof.
  intros Hn. unfold safe_emit_pair. rewrite bool_decide_eq_false_2 by done. simpl orb.
  destruct (Nat.ltb_spec (length d) (length (cp_needle pair))); [|done]. simpl.
  by rewrite (proj2 (Nat.leb_gt _ _)).
Qed.

Lemma safe_emit_split pair d x :
  cp_needle pair ≠ [] →
  let e := needle_safe_emit_len d [pair] (max_tail_size [pair]) in
  e ≤ length d ∧ length d - e < length (cp_needle pair) ∧
  scan_reaches (cp_needle pair) (take e d) (drop e d ++ x) ∧ ¬ occurs (cp_needle pair) (drop e d).
Proof.
  intros Hn. pose proof (needle_pos _ Hn) as Hpos. rewrite max_tail_size_one.
  unfold needle_safe_emit_len. simpl foldl.
  unfold needle_prefix_suffix_len.
  pose proof (prefix_suffix_go_spec ((length (cp_needle pair) - 1) `min` length d) d [pair]) as Hk.
  set (k := prefix_suffix_go _ d [pair]) in *. simpl in Hk. destruct Hk as (Hk1 & _ & Hk3); [lia|].
  rewrite safe_emit_pair_loop by done.
  pose proof (safe_emit_loop_ge pair (S (length d)) d (length d - k) 0).
  pose proof (safe_emit_loop_le pair (S (length d)) d (length d - k) 0 ltac:(lia)).
  destruct (safe_emit_loop_reaches pair Hn (S (length d)) d x (length d - k) 0) as [Hr Ho]; [lia..| |].
  { right. intros j ???. apply (Hk3 j pair); [lia|by left|done]. }
  rewrite Nat.sub_0_r, drop_0 in Hr. split_and!; [done|lia|done..].
Qed.

(** Sliding the window over a list of chunks: (what was emitted, what is held). *)
Fixpoint window_run (pairs : list CredentialPair) (location : Location) (held : bytes) (chunks : list bytes)
    : bytes * bytes :=
  match chunks with
  | [] => ([], held)
  | chunk :: chunks =>
      let '((out, _), held) := window_step pairs (max_tail_size pairs) location held chunk in
      let '(outs, held) := window_run pairs location held chunks in
      (out ++ outs, held)
  end.

Lemma window_run_spec pair loc held chunks :
  cp_needle pair ≠ [] → ¬ occurs (cp_needle pair) held → length held < length (cp_needle pair) →
  let '(out, held') := window_run [pair] loc held chunks in
  out ++ held' = subst (cp_needle pair) (cp_replacement pair) 0 (held ++ concat chunks) ∧
  ¬ occurs (cp_needle pair) held' ∧ length held' < length (cp_needle pair).
Proof.
  intros Hn. revert held. induction chunks as [|chunk chunks IH]; intros held Hheld Hlen; simpl.
  { split_and!; [|done..]. by rewrite app_nil_r, subst_no_occurrence. }
  change (length (cp_needle pair) `max` 0 - 1) with (max_tail_size [pair]).
  destruct (safe_emit_split pair (held ++ chunk) (concat chunks) Hn) as (_ & Hl & Hr & Ho).
  set (e := needle_safe_emit_len _ _ _) in *.
  pose proof (replace_in_one pair (take e (held ++ chunk)) loc Hn) as Hout.
  destruct (replace_in (take e (held ++ chunk)) [pair] loc) as [out hits]. simpl in Hout.
  destruct (window_run [pair] loc (drop e (held ++ chunk)) chunks) as [outs held'] eqn:Hrun.
  specialize (IH (drop e (held ++ chunk)) Ho ltac:(rewrite length_drop; lia)). rewrite Hrun in IH.
  destruct IH as [IH Ho']. split; [|done].
  rewrite <- app_assoc, IH, Hout, <- subst_app by done.
  by rewrite !app_assoc, take_drop.
Qed.

(** C1: The hold-back window makes the swap independent of how the stream was
    cut: for one credential pair, what is emitted over any sequence of chunks,
    with the bytes still held at the end, is the left-to-right substitution of
    the whole stream; the bytes held are fewer than the needle and hold no
    complete one, so flushing them unchanged loses nothing and leaks nothing. *)
Theorem window_split_invariant pair loc chunks out held :
  cp_needle pair ≠ [] →
  window_run [pair] loc [] chunks = (out, held) →
  out ++ held = subst (cp_needle pair) (cp_replacement pair) 0 (concat chunks) ∧
  ¬ occurs (cp_needle pair) held ∧ length held < length (cp_needle pair).
Proof.
  intros Hn Hrun. pose proof (window_run_spec pair loc [] chunks Hn) as Hspec.
  pose proof (needle_pos _ Hn). rewrite Hrun in Hspec.
  apply Hspec; [by apply not_occurs_short|done].
Qed.

(** [replace_bytes] replaces every non-overlapping occurrence, leftmost
    first: it returns [None] exactly when the needle is empty or absent, else
    the reference substitution, and an equal-length replacement keeps the
    length, so a raw stream is never reframed. *)
Theorem replace_bytes_correct haystack needle replacement :
  (needle = [] ∨ ¬ occurs needle haystack → replace_bytes haystack needle replacement = None) ∧
  (needle ≠ [] → occurs needle haystack →
     replace_bytes haystack needle replacement = Some (subst needle replacement 0 haystack)) ∧
  (needle ≠ [] → length needle = length replacement →
     length (subst needle replacement 0 haystack) = length haystack).
Proof.
  split_and!.
  - intros [->|Ho]; [done|]. destruct (decide (needle = [])) as [->|Hn]; [done|].
    by apply replace_bytes_subst.
  - intros Hn. by apply replace_bytes_subst.
  - intros Hn. by apply length_subst.
Qed.

Lemma any_window_spec hay needle p :
  needle ≠ [] →
  any_window hay needle p = true ↔ ∃ i, i ≤ length hay ∧ needle `prefix_of` drop i hay ∧ p i = true.
Proof.
  intros Hn. unfold any_window. rewrite existsb_exists. split.
  - intros ([i w] & Hin & Hp). apply list_elem_of_In, list_elem_of_lookup in Hin as [j Hj].
    apply list_lookup_imap_Some in Hj as (w' & Hw & [= -> ->]). simpl in Hp.
    apply andb_true_iff in Hp as [->%bool_decide_eq_true_1 Hp].
    apply window_occurs in Hw as [? ?]. by exists j.
  - intros (i & Hi & Hp & Hpi). exists (i, needle). split.
    + apply list_elem_of_In, list_elem_of_lookup. exists i. apply list_lookup_imap_Some.
      exists needle. split; [|done]. by apply window_occurs.
    + simpl. by rewrite bool_decide_eq_true_2.
Qed.

Lemma find_new_match_spec d needle :
  find_new_match d needle 0 = true ↔ needle ≠ [] ∧ occurs needle d.
Proof.
  unfold find_new_match. case_bool_decide as Hn; simpl; [naive_solver|].
  pose proof (needle_pos _ Hn). destruct (Nat.ltb_spec (length d) (length needle)) as [Hl|Hl].
  - split; [done|]. intros [_ (i & _ & Hp)]. apply prefix_length in Hp. rewrite length_drop in Hp. lia.
  - rewrite any_window_spec by done. split.
    + intros (i & Hi & Hp & _). split; [done|]. by exists i.
    + intros [_ (i & Hi & Hp)]. exists i. split_and!; [done..|]. apply Nat.ltb_lt. lia.
Qed.

Lemma find_crossing_spec d needle k :
  find_crossing d needle k = true ↔ needle ≠ [] ∧ ∃ i, i < k ∧ i ≤ length d ∧ needle `prefix_of` drop i d.
Proof.
  unfold find_crossing. case_bool_decide as Hn; simpl; [naive_solver|].
  destruct (Nat.ltb_spec (length d) (length needle)) as [Hl|Hl].
  - split; [done|]. intros [_ (i & _ & _ & Hp)]. apply prefix_length in Hp. rewrite length_drop in Hp. lia.
  - rewrite any_window_spec by done. split.
    + intros (i & Hi & Hp & Hk%Nat.ltb_lt). split; [done|]. by exists i.
    + intros [_ (i & Hk & Hi & Hp)]. exists i. split_and!; [done..|]. by apply Nat.ltb_lt.
Qed.

Lemma needle_le_max_tail pairs pair :
  pair ∈ pairs → length (cp_needle pair) ≤ max_tail_size pairs + 1.
Proof.
  intros Hin. unfold max_tail_size. destruct pairs as [|p pairs]; [by apply elem_of_nil in Hin|].
  cbn [default]. assert (length (cp_needle pair) ≤ max_list (map (λ p, length (cp_needle p)) (p :: pairs))); [|simpl in *; lia].
  apply max_list_elem_of_le. apply list_elem_of_fmap. by exists pair.
Qed.

Lemma occurs_app_l needle d x : occurs needle d → occurs needle (d ++ x).
Proof.
  intros (i & Hi & k & Hk). exists i. rewrite length_app. split; [lia|].
  rewrite drop_app_le', Hk by done. exists (k ++ x). by rewrite app_assoc.
Qed.
Lemma occurs_app_r needle d x : occurs needle d → occurs needle (x ++ d).
Proof.
  intros (i & Hi & Hp). exists (length x + i). rewrite length_app. split; [lia|].
  by rewrite drop_app_add.
Qed.

(** What one scan reports: the needles in the tail followed by the chunk. *)
Lemma scan_with_tail_reports pairs tail data loc h :
  h ∈ (scan_with_tail pairs tail (max_tail_size pairs) data loc).1 ↔
  ∃ pair, pair ∈ pairs ∧ cp_needle pair ≠ [] ∧ occurs (cp_needle pair) (tail ++ data) ∧
    h = {| hit_label := cp_label pair; hit_location := loc |}.
Proof.
  unfold scan_with_tail. simpl. case_bool_decide as Ht.
  - subst tail. rewrite list_elem_of_fmap. setoid_rewrite list_elem_of_filter.
    setoid_rewrite find_new_match_spec. naive_solver.
  - rewrite list_elem_of_fmap. setoid_rewrite list_elem_of_filter.
    split.
    + intros (pair & -> & Hhit & Hin). exists pair.
      apply orb_true_iff in Hhit as [[Hn Ho]%find_new_match_spec|[Hn Ho]%find_crossing_spec].
      * split_and!; [done..| |done]. by apply occurs_app_r.
      * split_and!; [done..| |done]. destruct Ho as (i & _ & Hi & Hp).
        rewrite <- (take_drop (max_tail_size pairs `min` length data) data) at 1.
        rewrite app_assoc. apply occurs_app_l. by exists i.
    + intros (pair & Hin & Hn & (i & Hi & Hp) & ->). exists pair. split_and!; [done| |done].
      apply orb_true_iff. rewrite length_app in Hi.
      destruct (decide (i < length tail)) as [Hlt|Hge].
      * right. apply find_crossing_spec. split; [done|]. exists i.
        rewrite length_app. split_and!; [done|lia|].
        pose proof (needle_le_max_tail _ _ Hin). pose proof (prefix_length _ _ Hp) as Hl.
        rewrite length_drop, length_app in Hl.
        rewrite drop_app_le' in Hp |- * by lia.
        set (m := max_tail_size pairs `min` length data).
        rewrite <- (take_drop m data), app_assoc in Hp. eapply prefix_app_inv; [|done].
        rewrite length_app, length_take, length_drop. lia.
      * left. apply find_new_match_spec. split; [done|]. exists (i - length tail). split; [lia|].
        rewrite drop_app in Hp. by rewrite drop_ge in Hp by lia.
Qed.

Lemma scan_with_tail_tail pairs tail ts data loc :
  (scan_with_tail pairs tail ts data loc).2 = drop (length data - ts) data.
Proof. simpl. destruct (decide (ts ≤ length data)); f_equal; lia. Qed.

(** Scan-only detection sees a needle cut by one chunk boundary: whatever
    the tail before, every occurrence in two consecutive chunks is reported on
    the first or on the second, and what is reported on a chunk does occur in
    the kept tail followed by that chunk. *)
Theorem scan_covers_boundary pairs tail c1 c2 loc pair :
  let ts := max_tail_size pairs in
  let '(hits1, tail1) := scan_with_tail pairs tail ts c1 loc in
  let '(hits2, _) := scan_with_tail pairs tail1 ts c2 loc in
  let hit p := {| hit_label := cp_label p; hit_location := loc |} in
  (pair ∈ pairs → cp_needle pair ≠ [] → occurs (cp_needle pair) (c1 ++ c2) →
     hit pair ∈ hits1 ∨ hit pair ∈ hits2) ∧
  (∀ h, h ∈ hits2 → ∃ p, p ∈ pairs ∧ occurs (cp_needle p) (tail1 ++ c2) ∧ h = hit p).
Proof.
  intros ts. destruct (scan_with_tail pairs tail ts c1 loc) as [hits1 tail1] eqn:H1.
  destruct (scan_with_tail pairs tail1 ts c2 loc) as [hits2 tail2] eqn:H2. intros hit.
  pose proof (scan_with_tail_reports pairs tail c1 loc) as Hr1.
  pose proof (scan_with_tail_reports pairs tail1 c2 loc) as Hr2.
  pose proof (scan_with_tail_tail pairs tail ts c1 loc) as Ht1.
  fold ts in Hr1, Hr2. rewrite H1 in Hr1, Ht1. rewrite H2 in Hr2. cbn [fst snd] in *.
  split; [|intros h (p & ? & _ & ? & ->)%Hr2; by exists p].
  intros Hin Hn (i & Hi & Hp). rewrite Hr1, Hr2. rewrite length_app in Hi.
  pose proof (prefix_length _ _ Hp) as Hl. rewrite length_drop, length_app in Hl.
  pose proof (needle_le_max_tail _ _ Hin) as Hmax. fold ts in Hmax. pose proof (needle_pos _ Hn).
  destruct (decide (i + length (cp_needle pair) ≤ length c1)) as [Hle|Hgt].
  - left. exists pair. split_and!; [done..| |done]. apply occurs_app_r. exists i. split; [lia|].
    rewrite drop_app_le' in Hp by lia. eapply prefix_app_inv; [|done]. rewrite length_drop. lia.
  - right. exists pair. split_and!; [done..| |done]. exists (i - (length c1 - ts)).
    rewrite length_app, Ht1, length_drop. split; [lia|].
    rewrite <- (take_drop (length c1 - ts) c1), <- app_assoc, drop_app in Hp.
    rewrite drop_ge, length_take in Hp by (rewrite length_take; lia). simpl in Hp.
    by replace (i - (length c1 - ts) `min` length c1) with (i - (length c1 - ts)) in Hp by lia.
Qed.

Lemma scan_covers_boundary_witness :
  let p := {| cp_needle := bs "secret"; cp_replacement := bs "decoy"; cp_label := bs "t" |} in
  {| hit_label := bs "t"; hit_location := Body |} ∈
    (scan_with_tail [p] (scan_with_tail [p] [] 5 (bs "a sec") Body).2 5 (bs "ret b") Body).1.
Proof.
  intros p. destruct (scan_covers_boundary [p] [] (bs "a sec") (bs "ret b") Body p) as [H _].
  destruct H as [H|H]; [left|discriminate| |vm_compute in H; by apply elem_of_nil in H|exact H].
  exists 2. split; [vm_compute; lia|]. by exists (bs " b").
Defined.

(** The kept tail is cut from the last chunk alone, so a needle that
    arrives over three or more chunks, each shorter than the window, is never
    reported. *)
Theorem scan_misses_drip :
  let p := {| cp_needle := bs "secret"; cp_replacement := bs "decoy"; cp_label := bs "t" |} in
  let chunks := [bs "se"; bs "cr"; bs "et"] in
  occurs (cp_needle p) (concat chunks) ∧
  foldl (λ '(hits, tail) c,
           let '(h, tail) := scan_with_tail [p] tail (max_tail_size [p]) c Body in (hits ++ h, tail))
        ([], []) chunks = ([], bs "et").
Proof. split; [|reflexivity]. exists 0. split; [simpl; lia|]. by exists []. Qed.

Lemma window_split_invariant_witness :
  let p := {| cp_needle := bs "fake"; cp_replacement := bs "real"; cp_label := bs "t" |} in
  bs "a real f" = subst (bs "fake") (bs "real") 0 (bs "a fake f").
Proof.
  intros p. destruct (window_split_invariant p Body [bs "a f"; bs "ake f"] (bs "a real ") (bs "f")) as [H _];
    [discriminate|reflexivity|exact H].
Defined.

Lemma replace_bytes_correct_witness :
  replace_bytes (bs "aaab") (bs "aa") (bs "c") = Some (bs "cab").
Proof.
  destruct (replace_bytes_correct (bs "aaab") (bs "aa") (bs "c")) as (_ & H & _).
  rewrite H; [reflexivity|discriminate|]. exists 0. split; [simpl; lia|by exists (bs "ab")].
Defined.

(** ** Eligible pairs *)

Definition swap_pair (p : CredentialPair) : CredentialPair :=
  {| cp_needle := cp_replacement p; cp_replacement := cp_needle p; cp_label := cp_label p |}.

Lemma grant_pair_swap scheme host port g :
  grant_pair scheme host port Upstream g = swap_pair <$> grant_pair scheme host port Downstream g.
Proof.
  unfold grant_pair. destruct (negb _); [done|]. destruct (Grant_credential g) as [c|]; [|done]. simpl.
  rewrite orb_comm. by destruct (_ || _).
Qed.

(** The pairs of an endpoint are exactly those of the grants that match its
    scheme, host and port and carry a credential whose two sides are both
    nonempty, in rule order; and the redaction pairs of the upstream direction
    are the substitution pairs of the downstream one with the sides swapped,
    so what one direction puts in the other takes out. *)
Theorem eligible_pairs_exact grants scheme host port :
  (∀ p, p ∈ eligible_pairs grants scheme host port Downstream ↔
     ∃ g c, g ∈ grants ∧ Grant_matches g scheme host port = true ∧ Grant_credential g = Some c ∧
       cr_fake c ≠ [] ∧ cr_value c ≠ [] ∧
       p = {| cp_needle := cr_fake c; cp_replacement := cr_value c; cp_label := cr_label c |}) ∧
  eligible_pairs grants scheme host port Upstream =
    map swap_pair (eligible_pairs grants scheme host port Downstream).
Proof.
  split.
  - intros p. unfold eligible_pairs. rewrite list_elem_of_omap. unfold grant_pair. split.
    + intros (g & Hg & Hp). destruct (Grant_matches g scheme host port) eqn:Hm; [|done]. simpl in Hp.
      destruct (Grant_credential g) as [c|] eqn:Hc; [|done]. simpl in Hp.
      destruct (_ || _) eqn:He; [done|]. to_prop. simplify_eq. eauto 10.
    + intros (g & c & Hg & Hm & Hc & Hf & Hv & ->). exists g. split; [done|].
      rewrite Hm, Hc. simpl. by rewrite !bool_decide_eq_false_2.
  - unfold eligible_pairs. induction grants as [|g grants IH]; [done|].
    cbn [omap list_omap]. rewrite grant_pair_swap, IH. by destruct (grant_pair _ _ _ Downstream g).
Qed.

(** ** Minting a response *)

Section MintingProperties.
Context `{!Digests, !JsonCrate}.

(** What the code relies on of [serde_json]'s objects. *)
Class JsonLaws : Prop := {
  json_get_insert_eq v k s : json_get (json_insert_str v k s) k ≫= json_as_str = Some s;
  json_get_insert_ne v k k' s : k ≠ k' → json_get (json_insert_str v k s) k' = json_get v k';
}.

Lemma mint_field_store plan e acc field : acc.2 ⊆ (mint_field plan e acc field).2.
Proof.
  destruct acc as [[v hits] m]. unfold mint_field. simpl.
  destruct (json_get v field ≫= json_as_str) as [real|]; [|done].
  pose proof (mint_subseteq m (pl_label plan) (pl_pattern plan) field real e) as Hs.
  by destruct (MintStore_mint _ _ _ _ _ _) as [[d|?] m'].
Qed.

Lemma mint_fields_store plan e fields acc : acc.2 ⊆ (foldl (mint_field plan e) acc fields).2.
Proof.
  revert acc. induction fields as [|f fields IH]; intros acc; simpl; [done|].
  etrans; [apply mint_field_store|apply IH].
Qed.

Lemma decoy_kept (m m' : MintStore) real d :
  m ⊆ m' → mp_decoy <$> m !! real = Some d → mp_decoy <$> m' !! real = Some d.
Proof.
  intros Hs (p & Hp & ->)%fmap_Some. by rewrite (lookup_weaken _ _ _ _ Hp Hs).
Qed.

Context `{!JsonLaws}.

Lemma mint_field_other plan e acc field k :
  field ≠ k → json_get (mint_field plan e acc field).1.1 k = json_get acc.1.1 k.
Proof.
  destruct acc as [[v hits] m]. intros Hne. unfold mint_field. simpl.
  destruct (json_get v field ≫= json_as_str) as [real|]; [|done].
  destruct (MintStore_mint _ _ _ _ _ _) as [[d|?] m']; simpl; [|done]. by apply json_get_insert_ne.
Qed.

Lemma mint_fields_other plan e fields acc k :
  k ∉ fields → json_get (foldl (mint_field plan e) acc fields).1.1 k = json_get acc.1.1 k.
Proof.
  revert acc. induction fields as [|f fields IH]; intros acc Hk; simpl; [done|].
  apply not_elem_of_cons in Hk as [Hf Hk]. rewrite IH by done. by apply mint_field_other.
Qed.

Lemma mint_fields_swap plan e fields acc field real :
  NoDup fields → field ∈ fields → real ≠ [] →
  json_get acc.1.1 field ≫= json_as_str = Some real →
  ∃ d, json_get (foldl (mint_field plan e) acc fields).1.1 field ≫= json_as_str = Some d ∧
    mp_decoy <$> (foldl (mint_field plan e) acc fields).2 !! real = Some d.
Proof.
  intros Hnd. revert acc. induction Hnd as [|f fields Hf Hnd IH]; intros acc Hin Hne Hget; simpl.
  { by apply elem_of_nil in Hin. }
  destruct (decide (field = f)) as [->|Hneq].
  2: { apply elem_of_cons in Hin as [?|Hin]; [done|]. apply IH; [done..|]. by rewrite mint_field_other. }
  clear IH. rewrite mint_fields_other by done.
  pose proof (mint_fields_store plan e fields (mint_field plan e acc f)) as Hs. revert Hs.
  generalize (foldl (mint_field plan e) (mint_field plan e acc f) fields).2 as store'. intros store' Hs.
  destruct acc as [[v hits] m]. simpl in Hget. unfold mint_field in *. rewrite Hget in *.
  destruct (MintStore_mint m (pl_label plan) (pl_pattern plan) f real e) as [[d|err] m'] eqn:Hm; simpl in *.
  - exists d. split; [apply json_get_insert_eq|]. eapply decoy_kept; [done|]. by apply mint_Ok in Hm as (_ & ? & _).
  - unfold MintStore_mint in Hm. rewrite bool_decide_eq_false_2 in Hm by done. by destruct (m !! real).
Qed.

(** Minting a token response: a body that is not a UTF-8 JSON object gets
    the pair redaction only and mints nothing; in an object, every field of
    the plan that holds a nonempty string is replaced by a decoy that the
    store maps back to that string, before the body is serialized and
    redacted; and no pair the store held is lost. *)
Theorem mint_and_redact_correct plan mint body pairs out hits mint' :
  mint_and_redact plan mint body pairs = (out, hits, mint') →
  mint ⊆ mint' ∧
  match json_from_str body with
  | Some v =>
      if utf8_valid body && json_is_object v then
        ∃ v', out = (replace_in (default body (json_to_vec v')) pairs Body).1 ∧
          ∀ field real, NoDup (pl_fields plan) → field ∈ pl_fields plan → real ≠ [] →
            json_get v field ≫= json_as_str = Some real →
            ∃ d, json_get v' field ≫= json_as_str = Some d ∧ mp_decoy <$> mint' !! real = Some d
      else (out, hits) = replace_in body pairs Body ∧ mint' = mint
  | None => (out, hits) = replace_in body pairs Body ∧ mint' = mint
  end.
Proof.
  unfold mint_and_redact, mint_body.
  destruct (utf8_valid body); simpl.
  2: { destruct (replace_in body pairs Body) as [red sh]. intros [= <- <- <-]. split; [done|]. by destruct (json_from_str body). }
  destruct (json_from_str body) as [v|].
  2: { destruct (replace_in body pairs Body) as [red sh]. by intros [= <- <- <-]. }
  destruct (json_is_object v); simpl.
  2: { destruct (replace_in body pairs Body) as [red sh]. by intros [= <- <- <-]. }
  set (e := json_get v (bs "expires_in") ≫= json_as_u64).
  pose proof (mint_fields_store plan e (pl_fields plan) (v, [], mint)) as Hs.
  pose proof (mint_fields_swap plan e (pl_fields plan) (v, [], mint)) as Hw.
  destruct (foldl _ _ _) as [[v' mh] m']. simpl in *.
  destruct (replace_in _ pairs Body) as [red sh] eqn:Hr. intros [= <- <- <-]. split; [done|].
  exists v'. split; [by rewrite Hr|]. eauto.
Qed.
End MintingProperties.

(** A concrete object format for evaluation: [k=v&k=v], string values only,
    the last row for a key winning. *)
Definition sample_json : JsonCrate := {|
  Json := list (bytes * bytes);
  json_from_str t := Some (omap (split_once (bs "=")) (split_byte Byte.x26 t));
  json_is_object _ := true;
  json_get v k := (λ kv, [kv]) <$> find (λ kv, bool_decide (kv.1 = k)) v;
  json_insert_str v k s := (k, s) :: filter (λ kv, kv.1 ≠ k) v;
  json_as_str v := snd <$> head v;
  json_as_u64 _ := None;
  json_to_vec v := Some (mjoin (map (λ kv, kv.1 ++ bs "=" ++ kv.2 ++ bs "&") v));
|}.

Lemma sample_json_laws : @JsonLaws sample_json.
Proof.
  split; simpl.
  - intros v k s. by rewrite bool_decide_eq_true_2.
  - intros v k k' s Hne. rewrite bool_decide_eq_false_2 by done. f_equal.
    induction v as [|[a b] v IH]; [done|]. rewrite filter_cons. simpl.
    destruct (decide (a ≠ k)) as [Ha|Ha]; simpl.
    + by case_bool_decide.
    + apply dec_stable in Ha as ->. by rewrite bool_decide_eq_false_2, IH by done.
Qed.

Lemma mint_and_redact_correct_witness :
  let _ := sample_digests in let _ := sample_json in
  let plan := {| pl_label := bs "t"; pl_pattern := Some (bs "decoy"); pl_fields := [bs "access_token"] |} in
  let '(out, _, mint) := mint_and_redact plan ∅ (bs "access_token=real&x=y") [] in
  ∃ d, mp_decoy <$> mint !! bs "real" = Some d.
Proof.
  intros digests json plan.
  destruct (mint_and_redact plan ∅ (bs "access_token=real&x=y") []) as [[out hits] mint'] eqn:Hm.
  destruct (@mint_and_redact_correct digests json sample_json_laws _ _ _ _ _ _ _ Hm) as [_ H].
  simpl in H. destruct H as (v' & _ & H).
  destruct (H (bs "access_token") (bs "real")) as (d & _ & Hd);
    [apply NoDup_singleton|by left|discriminate|reflexivity|by exists d].
Defined.
