(* ===== verification/Paths.v ===== *)
(** * Host paths and mounts

    [crates/hodor-compose/src/paths.rs]: how configured host paths expand,
    normalise, translate into the container home and collapse into mounts. A
    path is the list of its components, which is all that comparing, joining
    and stripping paths depends on. *)

From S2P Require Import Prelude.

(** ** Paths *)

Inductive Component := RootDir | CurDir | ParentDir | Normal (name : bytes).
#[export] Instance Component_eq_dec : EqDecision Component.
Proof. solve_decision. Defined.
#[export] Instance component_countable : Countable Component :=
  inj_countable' (λ c, match c with RootDir => inl 0%N | CurDir => inl 1%N | ParentDir => inl 2%N | Normal name => inr name end)
    (λ t, match t with inl 0%N => RootDir | inl 1%N => CurDir | inl _ => ParentDir | inr name => Normal name end) ltac:(by intros []).

Abbreviation Path := (list Component).

(** [components] of a text: repeated separators and inner dots go. *)
Definition component_of (part : bytes) : option Component :=
  if bool_decide (part = []) then None
  else if bool_decide (part = bs ".") then None
  else if bool_decide (part = bs "..") then Some ParentDir
  else Some (Normal part).
Definition components (text : bytes) : Path :=
  let parts := split_byte Byte.x2f text in
  if starts_with text (bs "/") then RootDir :: omap component_of parts
  else
    (match parts with first :: _ => if bool_decide (first = bs ".") then [CurDir] else [] | [] => [] end) ++
    omap component_of parts.

Definition is_absolute (path : Path) : bool := match path with RootDir :: _ => true | _ => false end.

(** [base.join(path)]: an absolute path replaces, a leading dot is inner now. *)
Definition path_join (base path : Path) : Path :=
  match path with
  | RootDir :: _ => path
  | CurDir :: rest => match base with [] => path | _ => base ++ rest end
  | _ => base ++ path
  end.

Fixpoint path_strip_prefix (path base : Path) : option Path :=
  match base, path with
  | [], _ => Some path
  | b :: base, p :: path => if bool_decide (b = p) then path_strip_prefix path base else None
  | _, [] => None
  end.
Definition path_starts_with (path base : Path) : bool := bool_of_opt (path_strip_prefix path base).

(** [path.display()], of the components. *)
Definition component_text (component : Component) : bytes :=
  match component with
  | RootDir => []
  | CurDir => bs "."
  | ParentDir => bs ".."
  | Normal name => name
  end.
Definition display (path : Path) : bytes :=
  match path with
  | [RootDir] => bs "/"
  | _ => join (bs "/") (map component_text path)
  end.

(** [PathBuf::pop]: nothing is taken from a root or an empty path. *)
Definition pop (path : Path) : Path :=
  match last path with
  | None | Some RootDir => path
  | Some _ => take (length path - 1) path
  end.

Definition normalize_step (out : Path) (component : Component) : Path :=
  match component with
  | ParentDir => pop out
  | CurDir => out
  | other => path_join out [other]
  end.
Definition normalize (path : Path) : Path := foldl normalize_step [] path.

Definition expand (path root : Path) (host_home : option Path) : Path :=
  let tilde := [Normal (bs "~")] in
  if bool_decide (path = tilde) then match host_home with Some home => home | None => path_join root path end
  else
    match path_strip_prefix path tilde, host_home with
    | Some rest, Some home => normalize (path_join home rest)
    | _, _ => if is_absolute path then normalize path else normalize (path_join root path)
    end.

Definition translate (path : Path) (host_home : option Path) (home : bytes) : Path :=
  match hh ← host_home; path_strip_prefix path hh with
  | Some rest => path_join (components home) rest
  | None => path
  end.

(** ** Mounts *)

Record Mount := {
  mt_host : Path;
  mt_container : Path;
  mt_ro : bool;
}.

Definition cover_step (out : list Mount) (mount : Mount) : list Mount :=
  if existsb (λ kept, path_starts_with (mt_host mount) (mt_host kept)) out then out
  else filter (λ kept, path_starts_with (mt_host kept) (mt_host mount) = false) out ++ [mount].
Definition covering (mounts : list Mount) : list Mount := foldl cover_step [] mounts.

(** ** Properties *)

Lemma path_strip_prefix_Some path base rest : path_strip_prefix path base = Some rest ↔ path = base ++ rest.
Proof.
  revert path. induction base as [|b base IH]; intros path; [destruct path; simpl; naive_solver|].
  destruct path as [|p path]; simpl; [naive_solver|]. case_bool_decide; rewrite ?IH; naive_solver.
Qed.

Lemma path_starts_with_iff path base : path_starts_with path base = true ↔ base `prefix_of` path.
Proof.
  unfold path_starts_with. destruct (path_strip_prefix path base) as [rest|] eqn:E; simpl.
  - apply path_strip_prefix_Some in E as ->. split; [by eexists|done].
  - split; [done|]. intros [k ->]. by rewrite (proj2 (path_strip_prefix_Some _ _ _) eq_refl) in E.
Qed.

Lemma path_starts_with_false path base : path_starts_with path base = false ↔ ¬ base `prefix_of` path.
Proof. by rewrite <- not_true_iff_false, path_starts_with_iff. Qed.

(** A normalised path is the root or nothing, then names only. *)
Definition plain (path : Path) : Prop :=
  ∃ root names, (root = [] ∨ root = [RootDir]) ∧ path = root ++ map Normal names.

Lemma pop_plain path : plain path → plain (pop path).
Proof.
  intros (root & names & Hr & ->). unfold pop. destruct names as [|name names _] using rev_ind.
  - destruct Hr as [-> | ->]; simpl; [by exists [], []; split; [left|]|by exists [RootDir], []; split; [right|]].
  - exists root, names. split; [done|]. rewrite map_app, app_assoc. simpl. rewrite last_snoc, length_app. simpl.
    rewrite take_app_le' by lia. by rewrite take_ge by lia.
Qed.

Lemma normalize_step_plain out component : plain out → plain (normalize_step out component).
Proof.
  intros Hp. destruct component as [| | |name]; simpl; [by exists [RootDir], []; split; [right|]|done|by apply pop_plain|].
  destruct Hp as (root & names & Hr & ->). exists root, (names ++ [name]). split; [done|]. by rewrite map_app, app_assoc.
Qed.

Lemma normalize_plain path : plain (normalize path).
Proof.
  unfold normalize. assert (plain []) as Hp by (exists [], []; split; [by left|done]). revert Hp. generalize (@nil Component) as out.
  induction path as [|c path IH]; intros out Hp; [done|]. apply IH. by apply normalize_step_plain.
Qed.

Lemma normalize_fold_names path names : foldl normalize_step path (map Normal names) = path ++ map Normal names.
Proof.
  revert path. induction names as [|name names IH]; intros path; simpl; [by rewrite app_nil_r|].
  by rewrite IH, <- app_assoc.
Qed.

(** Normalising is done once. *)
Lemma normalize_id path : plain path → normalize path = path.
Proof.
  intros (root & names & [-> | ->] & ->); unfold normalize; simpl; by rewrite normalize_fold_names.
Qed.

Lemma normalize_idempotent path : normalize (normalize path) = normalize path.
Proof. apply normalize_id, normalize_plain. Qed.

(** What [covering] keeps. *)
Record covers (mounts out : list Mount) : Prop := {
  cv_kept k : k ∈ out → k ∈ mounts;
  cv_served m : m ∈ mounts → ∃ k, k ∈ out ∧ mt_host k `prefix_of` mt_host m;
  cv_apart i j k l : out !! i = Some k → out !! j = Some l → mt_host k `prefix_of` mt_host l → i = j;
}.

Lemma covers_step mounts out mount : covers mounts out → covers (mounts ++ [mount]) (cover_step out mount).
Proof.
  intros [Hk Hs Ha]. unfold cover_step. destruct (existsb _ out) eqn:E.
  - apply existsb_exists in E as (kept & Hin%list_elem_of_In & Hp%path_starts_with_iff). split; [|intros m|done].
    + intros k Hin'. apply elem_of_app. left. by apply Hk.
    + intros [Hm| ->%list_elem_of_singleton]%elem_of_app; [by apply Hs|by exists kept].
  - assert (∀ k, k ∈ out → ¬ mt_host k `prefix_of` mt_host mount) as Hno.
    { intros k Hin Hp. assert (existsb (λ kept, path_starts_with (mt_host mount) (mt_host kept)) out = true) as Ht; [|congruence].
      apply existsb_exists. exists k. split; [by apply list_elem_of_In|by apply path_starts_with_iff]. }
    set (P := λ kept, path_starts_with (mt_host kept) (mt_host mount) = false). split.
    + intros k [[_ Hin]%list_elem_of_filter| ->%list_elem_of_singleton]%elem_of_app; apply elem_of_app; [left; by apply Hk|right; by left].
    + intros m [Hm| ->%list_elem_of_singleton]%elem_of_app; [|exists mount; split; [apply elem_of_app; right; by left|done]].
      destruct (Hs m Hm) as (k & Hin & Hp). destruct (decide (mt_host mount `prefix_of` mt_host k)) as [Hc|Hc].
      * exists mount. split; [apply elem_of_app; right; by left|by trans (mt_host k)].
      * exists k. split; [|done]. apply elem_of_app. left. apply list_elem_of_filter. split; [by apply path_starts_with_false|done].
    + assert (∀ i j k l, filter P out !! i = Some k → filter P out !! j = Some l → mt_host k `prefix_of` mt_host l → i = j) as Hf.
      { clear Hk Hs Hno E. induction out as [|x out IH]; [done|]. rewrite filter_cons.
        assert (∀ i j k l, out !! i = Some k → out !! j = Some l → mt_host k `prefix_of` mt_host l → i = j) as Ha'.
        { intros i j k l Hi Hj Hp. enough (S i = S j) by lia. by apply (Ha (S i) (S j) k l). }
        specialize (IH Ha'). case_decide as Hx; [|exact IH]. intros [|i] [|j] k l; simpl; [done| | |].
        - intros [= <-] Hj Hp. apply list_elem_of_lookup_2, list_elem_of_filter in Hj as [_ Hin].
          apply list_elem_of_lookup in Hin as (j' & Hj'). by specialize (Ha 0 (S j') x l eq_refl Hj' Hp).
        - intros Hi [= <-] Hp. apply list_elem_of_lookup_2, list_elem_of_filter in Hi as [_ Hin].
          apply list_elem_of_lookup in Hin as (i' & Hi'). by specialize (Ha (S i') 0 k x Hi' eq_refl Hp).
        - intros Hi Hj Hp. f_equal. by apply (IH i j k l). }
      intros i j k l Hi Hj Hp. apply lookup_app_Some in Hi as [Hi|[Hli Hi]], Hj as [Hj|[Hlj Hj]].
      * by apply (Hf i j k l).
      * apply list_lookup_singleton_Some in Hj as [_ <-]. apply list_elem_of_lookup_2, list_elem_of_filter in Hi as [_ Hin].
        by destruct (Hno k Hin).
      * apply list_lookup_singleton_Some in Hi as [_ <-]. apply list_elem_of_lookup_2, list_elem_of_filter in Hj as [Hl _].
        by apply path_starts_with_false in Hl.
      * apply list_lookup_singleton_Some in Hi as [Hi _], Hj as [Hj _]. lia.
Qed.

Lemma covering_covers mounts : covers mounts (covering mounts).
Proof.
  unfold covering. induction mounts as [|mount mounts IH] using rev_ind.
  - split; [by intros k ?%elem_of_nil|by intros m ?%elem_of_nil|done].
  - rewrite foldl_app. by apply covers_step.
Qed.

Lemma join_names base names : path_join base (map Normal names) = base ++ map Normal names.
Proof. by destruct names. Qed.

Lemma map_Normal_split names a b : map Normal names = a ++ b → ∃ n1 n2, a = map Normal n1 ∧ b = map Normal n2.
Proof.
  revert names. induction a as [|x a IH]; intros names Hm; [by exists [], names|].
  destruct names as [|name names]; [done|]. simpl in Hm. injection Hm as <- Hm.
  destruct (IH names Hm) as (n1 & n2 & -> & ->). by exists (name :: n1), n2.
Qed.

(** Below a first component, a plain path has only names. *)
Lemma plain_below path base rest : plain path → base ≠ [] → path = base ++ rest → ∃ names, rest = map Normal names.
Proof.
  intros (root & names & Hr & ->) Hb He. destruct base as [|c base]; [done|]. destruct Hr as [-> | ->]; simpl in He.
  - destruct names as [|name names]; [done|]. simpl in He. injection He as <- He. apply map_Normal_split in He as (n1 & n2 & _ & ->). by exists n2.
  - injection He as <- He. apply map_Normal_split in He as (n1 & n2 & _ & ->). by exists n2.
Qed.

(** A path below another is translated to the same place below it, unless the
    home lies between the two. *)
Lemma translate_below path base rest host_home home :
  plain path → base ≠ [] → host_home ≠ Some [] → path = base ++ rest →
  (∀ hh, host_home = Some hh → hh `prefix_of` path → hh `prefix_of` base) →
  translate path host_home home = translate base host_home home ++ rest.
Proof.
  intros Hp Hb Hne He Hbetween. unfold translate. destruct host_home as [hh|]; [|done]. simpl.
  assert (hh ≠ []) as Hhh by congruence.
  destruct (path_strip_prefix path hh) as [x|] eqn:Ex.
  - apply path_strip_prefix_Some in Ex. destruct (Hbetween hh eq_refl) as [y Hy]; [by rewrite Ex; eexists|].
    rewrite (proj2 (path_strip_prefix_Some base hh y) Hy).
    assert (x = y ++ rest) as -> by (apply (app_inv_head hh); by rewrite app_assoc, <- Hy, <- He).
    destruct (plain_below _ _ _ Hp Hhh Ex) as (names & Hn). destruct (map_Normal_split _ _ _ (eq_sym Hn)) as (n1 & n2 & -> & ->).
    rewrite <- map_app, !join_names, map_app. by rewrite app_assoc.
  - destruct (path_strip_prefix base hh) as [y|] eqn:Ey; [|done]. exfalso. apply path_strip_prefix_Some in Ey.
    rewrite (proj2 (path_strip_prefix_Some path hh (y ++ rest))) in Ex; [done|]. by rewrite He, Ey, app_assoc.
Qed.
