(* ===== verification/Layers.v ===== *)
(** * The discovery chain of the secret source

    [crates/hodor-fnox/src/layers.rs]: which configuration files of fnox are
    read, how they are merged, and which profiles that selects. fnox-core is a
    parameter: a configuration is the fields this file touches, parsing one and
    loading what it imports are operations of a class. Maps are keyed, their
    order is not modelled. *)

From S2P Require Import Prelude Paths.

(** ** Configurations *)

Record Secret := {
  se_sync : option bytes;
  se_source_path : option Path;
  se_source_is_profile : bool;
  se_source_profile : option bytes;
  se_rest : bytes;
}.
Record McpConfig := {
  mcp_tools : option (list bytes);
  mcp_exec_timeout_secs : option N;
  mcp_redact_output : option bool;
  mcp_secrets : option (list bytes);
}.
Definition McpConfig_default : McpConfig :=
  {| mcp_tools := None; mcp_exec_timeout_secs := None; mcp_redact_output := None; mcp_secrets := None |}.
Record DaemonConfig := { dm_enabled : option bool; dm_idle_timeout : option bytes }.
Definition DaemonConfig_default : DaemonConfig := {| dm_enabled := None; dm_idle_timeout := None |}.

Record ProfileConfig := {
  pf_inherits : option (list bytes);
  pf_leases : gmap bytes bytes;
  pf_providers : gmap bytes bytes;
  pf_provider_sources : gmap bytes Path;
  pf_secrets : gmap bytes Secret;
  pf_secret_sources : gmap bytes Path;
  pf_default_provider : option bytes;
  pf_default_provider_source : option Path;
}.
Definition ProfileConfig_default : ProfileConfig :=
  {| pf_inherits := None; pf_leases := ∅; pf_providers := ∅; pf_provider_sources := ∅; pf_secrets := ∅;
     pf_secret_sources := ∅; pf_default_provider := None; pf_default_provider_source := None |}.

Record FnoxConfig := {
  lc_import : list bytes;
  lc_root : bool;
  lc_age_key_file : option Path;
  lc_if_missing : option bytes;
  lc_env : option bytes;
  lc_prompt_auth : option bool;
  lc_mcp : option McpConfig;
  lc_daemon : option DaemonConfig;
  lc_proxy : option bytes;
  lc_default_provider : option bytes;
  lc_default_provider_source : option Path;
  lc_leases : gmap bytes bytes;
  lc_providers : gmap bytes bytes;
  lc_provider_sources : gmap bytes Path;
  lc_secrets : gmap bytes Secret;
  lc_secret_sources : gmap bytes Path;
  lc_profiles : gmap bytes ProfileConfig;
  lc_project_dir : option Path;
}.
(** [Config::new]. *)
Definition Config_new : FnoxConfig :=
  {| lc_import := []; lc_root := false; lc_age_key_file := None; lc_if_missing := None; lc_env := None;
     lc_prompt_auth := None; lc_mcp := None; lc_daemon := None; lc_proxy := None; lc_default_provider := None;
     lc_default_provider_source := None; lc_leases := ∅; lc_providers := ∅; lc_provider_sources := ∅;
     lc_secrets := ∅; lc_secret_sources := ∅; lc_profiles := ∅; lc_project_dir := None |}.

Inductive CoreError :=
| ConfigReadFailed (path : Path)
| ConfigParseError (path : Path) (detail : bytes)
| CoreConfig (message : bytes)
| ProfileInheritanceCycle (cycle : bytes)
| ConfigNotFound (dir : Path)
| CoreOther (detail : bytes).

(** ** Merging *)

Definition or_else {A} (overlay base : option A) : option A := match overlay with Some _ => overlay | None => base end.

Definition push_new (acc : list bytes) (path : bytes) : list bytes := if bool_decide (path ∈ acc) then acc else acc ++ [path].

Definition merge_mcp (base : option McpConfig) (overlay : option McpConfig) : option McpConfig :=
  match overlay with
  | None => base
  | Some o =>
      let b := default McpConfig_default base in
      Some {| mcp_tools := or_else (mcp_tools o) (mcp_tools b);
              mcp_exec_timeout_secs := or_else (mcp_exec_timeout_secs o) (mcp_exec_timeout_secs b);
              mcp_redact_output := or_else (mcp_redact_output o) (mcp_redact_output b);
              mcp_secrets := or_else (mcp_secrets o) (mcp_secrets b) |}
  end.
Definition merge_daemon (base overlay : option DaemonConfig) : option DaemonConfig :=
  match overlay with
  | None => base
  | Some o =>
      let b := default DaemonConfig_default base in
      Some {| dm_enabled := or_else (dm_enabled o) (dm_enabled b); dm_idle_timeout := or_else (dm_idle_timeout o) (dm_idle_timeout b) |}
  end.

(** A profile both state: the name of its default provider stays the base's. *)
Definition merge_profile (existing profile : ProfileConfig) : ProfileConfig :=
  {| pf_inherits := or_else (pf_inherits profile) (pf_inherits existing);
     pf_leases := pf_leases profile ∪ pf_leases existing;
     pf_providers := pf_providers profile ∪ pf_providers existing;
     pf_provider_sources := pf_provider_sources profile ∪ pf_provider_sources existing;
     pf_secrets := pf_secrets profile ∪ pf_secrets existing;
     pf_secret_sources := pf_secret_sources profile ∪ pf_secret_sources existing;
     pf_default_provider := pf_default_provider existing;
     pf_default_provider_source := or_else (pf_default_provider_source profile) (pf_default_provider_source existing) |}.

Definition merge_configs (base overlay : FnoxConfig) : FnoxConfig :=
  {| lc_import := foldl push_new (lc_import base) (lc_import overlay);
     lc_root := lc_root base || lc_root overlay;
     lc_age_key_file := or_else (lc_age_key_file overlay) (lc_age_key_file base);
     lc_if_missing := or_else (lc_if_missing overlay) (lc_if_missing base);
     lc_env := or_else (lc_env overlay) (lc_env base);
     lc_prompt_auth := or_else (lc_prompt_auth overlay) (lc_prompt_auth base);
     lc_mcp := merge_mcp (lc_mcp base) (lc_mcp overlay);
     lc_daemon := merge_daemon (lc_daemon base) (lc_daemon overlay);
     lc_proxy := or_else (lc_proxy overlay) (lc_proxy base);
     lc_default_provider := lc_default_provider base;
     lc_default_provider_source := or_else (lc_default_provider_source overlay) (lc_default_provider_source base);
     lc_leases := lc_leases overlay ∪ lc_leases base;
     lc_providers := lc_providers overlay ∪ lc_providers base;
     lc_provider_sources := lc_provider_sources overlay ∪ lc_provider_sources base;
     lc_secrets := lc_secrets overlay ∪ lc_secrets base;
     lc_secret_sources := lc_secret_sources overlay ∪ lc_secret_sources base;
     lc_profiles := union_with (λ existing profile, Some (merge_profile existing profile)) (lc_profiles base) (lc_profiles overlay);
     lc_project_dir := lc_project_dir base |}.

(** ** Scoping *)

Definition with_entries (c : FnoxConfig) (default_source : option Path) (leases providers : gmap bytes bytes)
  (provider_sources : gmap bytes Path) (secrets : gmap bytes Secret) (secret_sources : gmap bytes Path)
  (profiles : gmap bytes ProfileConfig) : FnoxConfig :=
  {| lc_import := lc_import c; lc_root := lc_root c; lc_age_key_file := lc_age_key_file c; lc_if_missing := lc_if_missing c;
     lc_env := lc_env c; lc_prompt_auth := lc_prompt_auth c; lc_mcp := lc_mcp c; lc_daemon := lc_daemon c; lc_proxy := lc_proxy c;
     lc_default_provider := lc_default_provider c; lc_default_provider_source := default_source; lc_leases := leases;
     lc_providers := providers; lc_provider_sources := provider_sources; lc_secrets := secrets; lc_secret_sources := secret_sources;
     lc_profiles := profiles; lc_project_dir := lc_project_dir c |}.

Definition scope_root_entries_to_profile (c : FnoxConfig) (name : bytes) : FnoxConfig :=
  let p := default ProfileConfig_default (lc_profiles c !! name) in
  let p' :=
    {| pf_inherits := pf_inherits p;
       pf_leases := lc_leases c ∪ pf_leases p;
       pf_providers := lc_providers c ∪ pf_providers p;
       pf_provider_sources := lc_provider_sources c ∪ pf_provider_sources p;
       pf_secrets := lc_secrets c ∪ pf_secrets p;
       pf_secret_sources := lc_secret_sources c ∪ pf_secret_sources p;
       pf_default_provider := pf_default_provider p;
       pf_default_provider_source := or_else (lc_default_provider_source c) (pf_default_provider_source p) |} in
  with_entries c None ∅ ∅ ∅ ∅ ∅ (<[name := p']> (lc_profiles c)).
Definition scope_to_profile (c : FnoxConfig) (name : bytes) : FnoxConfig := scope_root_entries_to_profile c name.

(** The profile's own entries put back over the root's. *)
Definition overlay_profile (p overlay : ProfileConfig) : ProfileConfig :=
  {| pf_inherits := or_else (pf_inherits overlay) (pf_inherits p);
     pf_leases := pf_leases overlay ∪ pf_leases p;
     pf_providers := pf_providers overlay ∪ pf_providers p;
     pf_provider_sources := pf_provider_sources overlay ∪ pf_provider_sources p;
     pf_secrets := pf_secrets overlay ∪ pf_secrets p;
     pf_secret_sources := pf_secret_sources overlay ∪ pf_secret_sources p;
     pf_default_provider := pf_default_provider p;
     pf_default_provider_source :=
       if bool_of_opt (pf_default_provider overlay) then pf_default_provider_source overlay else pf_default_provider_source p |}.

Definition scope_root_entries_to_profile_as_base (c : FnoxConfig) (name : bytes) (include_secrets : bool) : FnoxConfig :=
  let overlay := lc_profiles c !! name in
  let removed :=
    with_entries c (lc_default_provider_source c) (lc_leases c) (lc_providers c) (lc_provider_sources c)
      (if include_secrets then lc_secrets c else ∅) (if include_secrets then lc_secret_sources c else ∅)
      (delete name (lc_profiles c)) in
  let scoped := scope_root_entries_to_profile removed name in
  let profiles :=
    match overlay with
    | Some overlay => alter (λ p, overlay_profile p overlay) name (lc_profiles scoped)
    | None => lc_profiles scoped
    end in
  with_entries scoped (lc_default_provider_source scoped) (lc_leases scoped) (lc_providers scoped) (lc_provider_sources scoped)
    (if include_secrets then lc_secrets scoped else lc_secrets c)
    (if include_secrets then lc_secret_sources scoped else lc_secret_sources c) profiles.

Definition source_secret (path : Path) (profile : option bytes) (s : Secret) : Secret :=
  {| se_sync := se_sync s; se_source_path := Some path; se_source_is_profile := bool_of_opt profile; se_source_profile := profile;
     se_rest := se_rest s |}.
Definition source_profile (path : Path) (name : bytes) (p : ProfileConfig) : ProfileConfig :=
  {| pf_inherits := pf_inherits p; pf_leases := pf_leases p; pf_providers := pf_providers p;
     pf_provider_sources := ((λ _, path) <$> pf_providers p) ∪ pf_provider_sources p;
     pf_secrets := source_secret path (Some name) <$> pf_secrets p;
     pf_secret_sources := ((λ _, path) <$> pf_secrets p) ∪ pf_secret_sources p;
     pf_default_provider := pf_default_provider p;
     pf_default_provider_source := if bool_of_opt (pf_default_provider p) then Some path else pf_default_provider_source p |}.
Definition set_source_paths (c : FnoxConfig) (path : Path) : FnoxConfig :=
  with_entries c (if bool_of_opt (lc_default_provider c) then Some path else lc_default_provider_source c) (lc_leases c)
    (lc_providers c) (((λ _, path) <$> lc_providers c) ∪ lc_provider_sources c)
    (source_secret path None <$> lc_secrets c) (((λ _, path) <$> lc_secrets c) ∪ lc_secret_sources c)
    (map_imap (λ name p, Some (source_profile path name p)) (lc_profiles c)).

(** A secret that is synced is not read from a local file. *)
Definition unsynced_profile (p : ProfileConfig) : ProfileConfig :=
  let kept := filter (λ ks : bytes * Secret, se_sync ks.2 = None) (pf_secrets p) in
  {| pf_inherits := pf_inherits p; pf_leases := pf_leases p; pf_providers := pf_providers p;
     pf_provider_sources := pf_provider_sources p; pf_secrets := kept;
     pf_secret_sources := filter (λ kp : bytes * Path, is_Some (kept !! kp.1)) (pf_secret_sources p);
     pf_default_provider := pf_default_provider p; pf_default_provider_source := pf_default_provider_source p |}.
Definition unsynced (c : FnoxConfig) : FnoxConfig :=
  let kept := filter (λ ks : bytes * Secret, se_sync ks.2 = None) (lc_secrets c) in
  with_entries c (lc_default_provider_source c) (lc_leases c) (lc_providers c) (lc_provider_sources c) kept
    (filter (λ kp : bytes * Path, is_Some (kept !! kp.1)) (lc_secret_sources c)) (unsynced_profile <$> lc_profiles c).

Definition with_project_dir (c : FnoxConfig) (dir : option Path) : FnoxConfig :=
  {| lc_import := lc_import c; lc_root := lc_root c; lc_age_key_file := lc_age_key_file c; lc_if_missing := lc_if_missing c;
     lc_env := lc_env c; lc_prompt_auth := lc_prompt_auth c; lc_mcp := lc_mcp c; lc_daemon := lc_daemon c; lc_proxy := lc_proxy c;
     lc_default_provider := lc_default_provider c; lc_default_provider_source := lc_default_provider_source c; lc_leases := lc_leases c;
     lc_providers := lc_providers c; lc_provider_sources := lc_provider_sources c; lc_secrets := lc_secrets c;
     lc_secret_sources := lc_secret_sources c; lc_profiles := lc_profiles c; lc_project_dir := dir |}.

(** ** Loading *)

(** [Path::parent]. *)
Definition parent_of_rev (rdir : Path) : option Path :=
  match rdir with [] | RootDir :: _ => None | _ :: rest => Some rest end.
Definition path_parent (path : Path) : option Path := (λ r, rev r) <$> parent_of_rev (rev path).

(** What the crate offers over the files it reads, and the host. *)
Class Fnox := {
  fx_parse : bytes → result bytes FnoxConfig;
  fx_load : Path → result CoreError FnoxConfig;
  fx_load_import : bytes → Path → result CoreError FnoxConfig;
  fx_all_config_filenames : list bytes → list bytes;
  fx_write_profile : list bytes → bytes;
  fx_no_defaults : bool;
  fx_valid_profile : bytes → bool;
  fx_profiles : list bytes;
  fx_resolve_profiles : FnoxConfig → list bytes → result CoreError ();
  fx_global_config_path : Path;
}.

Section Loading.
Context `{!Fnox} (exists_ : Path → bool) (read_to_string : Path → option bytes) (config_dir : option Path).

Definition profile_name_from_file (path : Path) : option bytes :=
  match last path with
  | Some (Normal name) =>
      if utf8_valid name then
        let name := default name (strip_prefix (bs ".") name) in
        profile ← (strip_prefix (bs "fnox.") name ≫= strip_suffix (bs ".toml"));
        if bool_decide (profile ≠ bs "default") && bool_decide (profile ≠ bs "local") && fx_valid_profile profile then Some profile else None
      else None
  | _ => None
  end.

Definition load (path : Path) : result CoreError FnoxConfig :=
  content ← ok_or (ConfigReadFailed path) (read_to_string path);
  config ← map_err (ConfigParseError path) (fx_parse content);
  let config := match profile_name_from_file path with Some profile => scope_to_profile config profile | None => config end in
  mret (set_source_paths config path).

(** The imports of a configuration, each below what was read so far. *)
Definition merge_import (dir : Path) (config : FnoxConfig) (import_path : bytes) : result CoreError FnoxConfig :=
  import_config ← fx_load_import import_path dir;
  mret (merge_configs import_config config).
Definition merge_imports (dir : Path) (config : FnoxConfig) : result CoreError FnoxConfig :=
  try_fold (merge_import dir) config (lc_import config).

Definition load_global : result CoreError (FnoxConfig * bool) :=
  if exists_ fx_global_config_path then
    config ← fx_load fx_global_config_path;
    config ← merge_imports (default [] (path_parent fx_global_config_path)) config;
    mret (config, true)
  else mret (Config_new, false).

Definition hodor_filenames (profiles : list bytes) : list bytes :=
  let named := filter (λ p, p ≠ bs "default") profiles in
  bs "fnox.toml" ::
  match named with
  | [] => [bs "fnox.local.toml"]
  | _ => map (λ p, bs "fnox." ++ p ++ bs ".toml") named
  end.

Definition load_hodor_file (dir : Path) (acc : FnoxConfig * bool) (filename : bytes) : result CoreError (FnoxConfig * bool) :=
  let path := path_join dir (components filename) in
  if exists_ path then
    file_config ← load path;
    file_config ← merge_imports (default [] (path_parent path)) file_config;
    mret (merge_configs acc.1 file_config, true)
  else mret acc.
Definition load_hodor_level (profiles : list bytes) : result CoreError (FnoxConfig * bool) :=
  match config_dir with
  | None => mret (Config_new, false)
  | Some dir => try_fold (load_hodor_file dir) (Config_new, false) (hodor_filenames profiles)
  end.

(** One file of a directory, as it is merged. *)
Definition adjust (profiles : list bytes) (include_local_sync : bool) (filename : bytes) (path : Path) (file_config : FnoxConfig) : FnoxConfig :=
  let is_local := bool_decide (filename = bs "fnox.local.toml") || bool_decide (filename = bs ".fnox.local.toml") in
  let file_config := if is_local && negb include_local_sync then unsynced file_config else file_config in
  if is_local && bool_decide (fx_write_profile profiles ≠ bs "default") then
    set_source_paths (scope_root_entries_to_profile_as_base file_config (fx_write_profile profiles) (negb fx_no_defaults)) path
  else file_config.
Definition load_file (dir : Path) (profiles : list bytes) (include_local_sync : bool) (acc : FnoxConfig * bool) (filename : bytes)
  : result CoreError (FnoxConfig * bool) :=
  let path := path_join dir (components filename) in
  if exists_ path then
    file_config ← fx_load path;
    mret (merge_configs acc.1 (adjust profiles include_local_sync filename path file_config), true)
  else mret acc.

(** The global levels below what a chain of directories gave. *)
Definition load_base (profiles : list bytes) (config : FnoxConfig) (found : bool) : result CoreError (FnoxConfig * bool) :=
  '(global_config, global_found) ← load_global;
  '(hodor_config, hodor_found) ← load_hodor_level profiles;
  if global_found || hodor_found then mret (merge_configs (merge_configs global_config hodor_config) config, true)
  else mret (config, found).

(** The path is walked from its last component. *)
Fixpoint load_recursive_rev (rdir : Path) (found_any : bool) (profiles : list bytes) (include_local_sync : bool)
  : result CoreError (FnoxConfig * bool) :=
  let dir := rev rdir in
  '(config, found) ← try_fold (load_file dir profiles include_local_sync) (Config_new, found_any) (fx_all_config_filenames profiles);
  let root := lc_root config in
  config ← merge_imports dir config;
  if root then load_base profiles config found
  else
    match rdir with
    | [] | RootDir :: _ => load_base profiles config found
    | _ :: rest =>
        '(parent_config, parent_found) ← load_recursive_rev rest found profiles include_local_sync;
        mret (merge_configs parent_config config, found || parent_found)
    end.
Definition load_recursive (dir : Path) : bool → list bytes → bool → result CoreError (FnoxConfig * bool) := load_recursive_rev (rev dir).

Fixpoint find_project_dir_rev (rdir : Path) (filenames : list bytes) : option Path :=
  if existsb (λ filename, exists_ (path_join (rev rdir) (components filename))) filenames then Some (rev rdir)
  else match rdir with [] | RootDir :: _ => None | _ :: rest => find_project_dir_rev rest filenames end.
Definition find_project_dir (start : Path) (profiles : list bytes) : option Path :=
  find_project_dir_rev (rev start) (fx_all_config_filenames profiles).

End Loading.

(** ** Profiles *)

(** A fold whose steps may fail, and may not end. *)
Fixpoint run_fold {E A B} (f : B → A → option (result E B)) (acc : B) (xs : list A) : option (result E B) :=
  match xs with
  | [] => Some (Ok acc)
  | x :: xs => match f acc x with Some (Ok acc) => run_fold f acc xs | other => other end
  end.

(** What is resolved so far, in order, and what was visited. *)
Abbreviation Visit := (list bytes * gset bytes)%type.

Section Profiles.
Context `{!Fnox}.

Definition inherits_of (config : FnoxConfig) (profile : bytes) : list bytes :=
  match lc_profiles config !! profile with Some p => default [] (pf_inherits p) | None => [] end.

Fixpoint visit (fuel : nat) (config : FnoxConfig) (visiting : list bytes) (force : bool) (st : Visit) (profile : bytes)
  : option (result CoreError Visit) :=
  match fuel with
  | 0 => None
  | S fuel =>
      if negb (fx_valid_profile profile) then Some (Err (CoreConfig (bs "Invalid inherited profile name: '" ++ profile ++ bs "'")))
      else if bool_decide (profile ∈ st.2) && negb force then Some (Ok st)
      else if bool_decide (profile = bs "default") then Some (Ok (st.1 ++ [profile], {[profile]} ∪ st.2))
      else
        match position (λ name, bool_decide (name = profile)) visiting with
        | Some start => Some (Err (ProfileInheritanceCycle (join (bs " -> ") (drop start visiting ++ [profile]))))
        | None =>
            match run_fold (visit fuel config (visiting ++ [profile]) false) st (inherits_of config profile) with
            | Some (Ok st) => Some (Ok (st.1 ++ [profile], {[profile]} ∪ st.2))
            | other => other
            end
        end
  end.
(** A visit nests no deeper than there are profiles, and one more. *)
Definition visit_fuel (config : FnoxConfig) : nat := S (S (size (lc_profiles config))).
Definition resolve_profiles_for_discovery (config : FnoxConfig) (profiles : list bytes) : option (result CoreError (list bytes)) :=
  match run_fold (visit (visit_fuel config) config [] true) ([], ∅) profiles with
  | Some (Ok st) => Some (Ok st.1)
  | Some (Err e) => Some (Err e)
  | None => None
  end.

End Profiles.

Section Discovery.
Context `{!Fnox} (exists_ : Path → bool) (read_to_string : Path → option bytes) (config_dir : option Path) (current_dir : result bytes Path).

Definition load_stack (dir : Path) (profiles : list bytes) (include_local_sync : bool) : result CoreError (FnoxConfig * bool) :=
  load_recursive exists_ read_to_string config_dir dir false profiles include_local_sync.

(** The loop of [load_with_recursion], one round per fuel. *)
Fixpoint expand_stack (fuel : nat) (dir : Path) (include_local_sync : bool) (profiles : list bytes)
  : option (result CoreError (list bytes * FnoxConfig * bool)) :=
  match fuel with
  | 0 => None
  | S fuel =>
      match load_stack dir profiles include_local_sync with
      | Err e => Some (Err e)
      | Ok (config, found) =>
          match resolve_profiles_for_discovery config profiles with
          | None => None
          | Some (Err e) => Some (Err e)
          | Some (Ok expanded) =>
              if bool_decide (expanded = profiles) then Some (Ok (profiles, config, found))
              else expand_stack fuel dir include_local_sync expanded
          end
      end
  end.

Definition finish_discovery (dir : Path) (r : list bytes * FnoxConfig * bool) : result CoreError FnoxConfig :=
  let '(profiles, config, found) := r in
  if negb found then Err (ConfigNotFound dir)
  else
    _ ← fx_resolve_profiles config fx_profiles;
    mret (with_project_dir config (find_project_dir exists_ dir profiles)).

Definition load_with_recursion (fuel : nat) (include_local_sync : bool) : option (result CoreError FnoxConfig) :=
  match current_dir with
  | Err e => Some (Err (CoreConfig (bs "Failed to get current directory: " ++ e)))
  | Ok dir =>
      match expand_stack fuel dir include_local_sync fx_profiles with
      | None => None
      | Some (Err e) => Some (Err e)
      | Some (Ok r) => Some (finish_discovery dir r)
      end
  end.
Definition discover (fuel : nat) : option (result CoreError FnoxConfig) := load_with_recursion fuel true.

End Discovery.

(** ** Merging is associative, with the empty configuration on the right *)

Lemma or_else_assoc {A} (a b c : option A) : or_else a (or_else b c) = or_else (or_else a b) c.
Proof. by destruct a. Qed.

Lemma elem_of_push_new acc l x : x ∈ foldl push_new acc l ↔ x ∈ acc ∨ x ∈ l.
Proof.
  revert acc. induction l as [|y l IH]; intros acc; simpl; [set_solver|]. rewrite IH. unfold push_new. case_bool_decide; set_solver.
Qed.
Lemma push_new_in acc x : x ∈ acc → push_new acc x = acc.
Proof. intros Hx. unfold push_new. by rewrite bool_decide_true. Qed.
Lemma push_new_out acc x : x ∉ acc → push_new acc x = acc ++ [x].
Proof. intros Hx. unfold push_new. by rewrite bool_decide_false. Qed.
Lemma foldl_push_new_snoc a b x : foldl push_new a (push_new b x) = push_new (foldl push_new a b) x.
Proof.
  destruct (decide (x ∈ b)) as [Hx|Hx].
  - by rewrite (push_new_in b), push_new_in by (rewrite ?elem_of_push_new; auto).
  - by rewrite (push_new_out b), foldl_app by done.
Qed.
Lemma foldl_push_new_assoc a b c : foldl push_new (foldl push_new a b) c = foldl push_new a (foldl push_new b c).
Proof. revert b. induction c as [|x c IH]; intros b; [done|]. cbn [foldl]. rewrite <- foldl_push_new_snoc. apply IH. Qed.

Lemma or_else_None_r {A} (a : option A) : or_else a None = a.
Proof. by destruct a. Qed.
Lemma merge_mcp_assoc a b c : merge_mcp a (merge_mcp b c) = merge_mcp (merge_mcp a b) c.
Proof. destruct a, b, c; simpl; rewrite ?or_else_None_r, ?or_else_assoc; done. Qed.
Lemma merge_daemon_assoc a b c : merge_daemon a (merge_daemon b c) = merge_daemon (merge_daemon a b) c.
Proof. destruct a, b, c; simpl; rewrite ?or_else_None_r, ?or_else_assoc; done. Qed.

#[export] Instance merge_profile_assoc : Assoc (=) merge_profile.
Proof. intros a b c. unfold merge_profile; simpl. f_equal; first [done | by rewrite or_else_assoc | by rewrite (assoc_L (∪))]. Qed.

#[export] Instance merge_configs_assoc : Assoc (=) merge_configs.
Proof.
  intros a b c. unfold merge_configs; simpl.
  f_equal; first [done | by rewrite or_else_assoc | by rewrite (assoc_L (∪)) | by rewrite orb_assoc | by rewrite foldl_push_new_assoc
    | by rewrite merge_mcp_assoc | by rewrite merge_daemon_assoc | idtac].
  apply map_eq. intros k. rewrite !lookup_union_with.
  destruct (lc_profiles a !! k), (lc_profiles b !! k), (lc_profiles c !! k); simpl; try done. by rewrite (assoc_L merge_profile).
Qed.
#[export] Instance merge_configs_new_r : RightId (=) Config_new merge_configs.
Proof.
  intros a. destruct a. unfold merge_configs; simpl. rewrite ?(left_id_L ∅ (∪)), orb_false_r. f_equal.
  apply map_eq. intros k. rewrite lookup_union_with, lookup_empty. by destruct (_ !! k).
Qed.

(** ** The layers, lowest first *)

Definition merged (layers : list FnoxConfig) : FnoxConfig := foldr merge_configs Config_new layers.
(** What the last layer that states it states. *)
Definition nearest {A} (f : FnoxConfig → option A) (layers : list FnoxConfig) : option A := last (omap f layers).

Lemma merge_new_mid x y : merge_configs x (merge_configs Config_new y) = merge_configs x y.
Proof. by rewrite (assoc_L merge_configs), (right_id_L Config_new merge_configs). Qed.
Lemma merged_app ls ks : ls ≠ [] → merged (ls ++ ks) = merge_configs (merged ls) (merged ks).
Proof.
  induction ls as [|l ls IH]; [done|]. intros _. simpl. destruct ls as [|l' ls]; [simpl; by rewrite (right_id_L Config_new merge_configs)|].
  rewrite IH by done. by rewrite (assoc_L merge_configs).
Qed.
Lemma foldl_merged c ls : foldl merge_configs c ls = merge_configs c (merged ls).
Proof.
  revert c. induction ls as [|l ls IH]; intros c; simpl; [by rewrite (right_id_L Config_new merge_configs)|].
  rewrite IH. by rewrite (assoc_L merge_configs).
Qed.
Lemma merge_merged_app c ls ks : merge_configs c (merged (ls ++ ks)) = merge_configs (merge_configs c (merged ls)) (merged ks).
Proof. destruct ls as [|l ls]; [simpl; by rewrite (right_id_L Config_new merge_configs)|]. rewrite merged_app by done. by rewrite (assoc_L merge_configs). Qed.
Lemma foldr_merged c ls : ls ≠ [] → foldr merge_configs c ls = merge_configs (merged ls) c.
Proof.
  induction ls as [|l ls IH]; [done|]. intros _. simpl. destruct ls as [|l' ls]; [simpl; by rewrite (right_id_L Config_new merge_configs)|].
  rewrite IH by done. by rewrite (assoc_L merge_configs).
Qed.
Lemma merged_snoc ls c : merged (ls ++ [c]) = foldr merge_configs c ls.
Proof. unfold merged. rewrite foldr_app. simpl. by rewrite (right_id_L Config_new merge_configs). Qed.

Section Layers.
Context `{!Fnox} (exists_ : Path → bool) (read_to_string : Path → option bytes) (config_dir : option Path).

Definition imports_of (dir : Path) (c : FnoxConfig) : result CoreError (list FnoxConfig) := mapM (λ p, fx_load_import p dir) (lc_import c).

(** The global file over its imports, or nothing stated. *)
Definition global_layers : result CoreError (list FnoxConfig) :=
  if exists_ fx_global_config_path then
    config ← fx_load fx_global_config_path;
    imports ← imports_of (default [] (path_parent fx_global_config_path)) config;
    mret (rev imports ++ [config])
  else mret [Config_new].
Definition hodor_file_layers (dir : Path) (filename : bytes) : result CoreError (list FnoxConfig) :=
  let path := path_join dir (components filename) in
  config ← load read_to_string path;
  imports ← imports_of (default [] (path_parent path)) config;
  mret (rev imports ++ [config]).
Definition hodor_layers (profiles : list bytes) : result CoreError (list FnoxConfig) :=
  match config_dir with
  | None => mret []
  | Some dir => @concat FnoxConfig <$> mapM (hodor_file_layers dir) (filter (λ f, exists_ (path_join dir (components f)) = true) (hodor_filenames profiles))
  end.
Definition base_layers (profiles : list bytes) : result CoreError (list FnoxConfig) :=
  global ← global_layers;
  hodor ← hodor_layers profiles;
  mret (if exists_ fx_global_config_path || bool_decide (hodor ≠ []) then global ++ hodor else []).

Definition file_layer (dir : Path) (profiles : list bytes) (include_local_sync : bool) (filename : bytes) : result CoreError FnoxConfig :=
  let path := path_join dir (components filename) in
  adjust profiles include_local_sync filename path <$> fx_load path.
(** The files of a directory, from the empty configuration, over their imports,
    over those of its parent; a root stops the walk. *)
Fixpoint layers_rev (rdir : Path) (profiles : list bytes) (include_local_sync : bool) : result CoreError (list FnoxConfig) :=
  let dir := rev rdir in
  files ← mapM (file_layer dir profiles include_local_sync)
            (filter (λ f, exists_ (path_join dir (components f)) = true) (fx_all_config_filenames profiles));
  imports ← imports_of dir (merged (Config_new :: files));
  below ←
    (if lc_root (merged (Config_new :: files)) then base_layers profiles
     else match rdir with [] | RootDir :: _ => base_layers profiles | _ :: rest => layers_rev rest profiles include_local_sync end);
  mret (below ++ rev imports ++ Config_new :: files).
Definition layers (dir : Path) : list bytes → bool → result CoreError (list FnoxConfig) := layers_rev (rev dir).

Lemma merge_imports_layers dir c : merge_imports dir c = (λ ims, merged (rev ims ++ [c])) <$> imports_of dir c.
Proof.
  unfold merge_imports, imports_of. generalize (lc_import c). intros ps. revert c. induction ps as [|p ps IH]; intros c; simpl.
  - by rewrite (right_id_L Config_new merge_configs).
  - assert (merge_import dir c p = i ← fx_load_import p dir; mret (merge_configs i c)) as -> by done. destruct (fx_load_import p dir) as [i|e]; simpl; [|done]. rewrite IH.
    destruct (mapM _ ps) as [ims|e]; simpl; [|done]. f_equal. rewrite !merged_snoc. by rewrite foldr_app.
Qed.

(** A loop over the files that exist, each giving a group of layers. *)
Lemma try_fold_groups (p : bytes → bool) (group : bytes → result CoreError (list FnoxConfig))
  (step : FnoxConfig * bool → bytes → result CoreError (FnoxConfig * bool)) acc xs :
  (∀ acc x, step acc x = if p x then ls ← group x; mret (merge_configs acc.1 (merged ls), true) else mret acc) →
  try_fold step acc xs =
    (λ gs, (merge_configs acc.1 (merged (concat gs)), acc.2 || bool_decide (gs ≠ []))) <$> mapM group (filter (λ x, p x = true) xs).
Proof.
  intros Hstep. revert acc. induction xs as [|x xs IH]; intros [c f].
  - simpl. by rewrite (right_id_L Config_new merge_configs), orb_false_r.
  - simpl. rewrite Hstep. destruct (p x) eqn:Hp.
    + rewrite filter_cons_True by done. simpl. destruct (group x) as [g|e]; simpl; [|done]. rewrite IH. simpl.
      destruct (mapM group _) as [gs|e]; simpl; [|done]. f_equal. f_equal; [by rewrite merge_merged_app|by rewrite orb_true_r].
    + rewrite filter_cons_False by (by rewrite Hp). simpl. apply IH.
Qed.

Lemma load_global_layers :
  load_global exists_ = (λ ls, (merged ls, exists_ fx_global_config_path)) <$> global_layers.
Proof.
  unfold load_global, global_layers. case_match; simpl; [|by rewrite (right_id_L Config_new merge_configs)].
  destruct (fx_load _) as [c|e]; simpl; [|done]. rewrite merge_imports_layers. by destruct (imports_of _ c).
Qed.
Lemma concat_ne {A} (gs : list (list A)) : Forall (λ g, g ≠ []) gs → concat gs ≠ [] ↔ gs ≠ [].
Proof. destruct 1 as [|g gs Hg _]; [done|]. simpl. destruct g; naive_solver. Qed.
Lemma rev_snoc_ne {A} (l : list A) x : rev l ++ [x] ≠ [].
Proof. by destruct (rev l). Qed.
Lemma hodor_groups_ne dir fs gs : mapM (hodor_file_layers dir) fs = Ok gs → Forall (λ g, g ≠ []) gs.
Proof.
  revert gs. induction fs as [|f fs IH]; intros gs; simpl; [intros [= <-]; constructor|].
  intros (g & (c & _ & (ims & _ & [= <-])%bind_ok)%bind_ok & (gs' & Hgs & [= <-])%bind_ok)%bind_ok.
  constructor; [apply rev_snoc_ne|by apply IH].
Qed.
Lemma load_hodor_layers profiles :
  load_hodor_level exists_ read_to_string config_dir profiles =
    (λ ls, (merge_configs Config_new (merged ls), bool_decide (ls ≠ []))) <$> hodor_layers profiles.
Proof.
  unfold load_hodor_level, hodor_layers. destruct config_dir as [dir|]; [|by simpl; rewrite (right_id_L Config_new merge_configs)].
  rewrite (try_fold_groups (λ f, exists_ (path_join dir (components f))) (hodor_file_layers dir)).
  - cbn beta. destruct (mapM _ _) as [gs|e] eqn:Eg; simpl; [|done]. apply hodor_groups_ne in Eg. f_equal. f_equal.
    apply bool_decide_ext. by rewrite concat_ne.
  - intros acc f. unfold load_hodor_file, hodor_file_layers. case_match; [|done]. destruct (load _ _) as [c|e]; simpl; [|done].
    rewrite merge_imports_layers. by destruct (imports_of _ c).
Qed.
End Layers.

(** ** The discovered configuration *)

Lemma mapM_fmap {E A B C} (g : A → result E B) (h : B → C) fs : mapM (λ f, h <$> g f) fs = map h <$> mapM g fs.
Proof. induction fs as [|f fs IH]; simpl; [done|]. rewrite IH. destruct (g f); simpl; [|done]. by destruct (mapM g fs). Qed.

Section Discovered.
Context `{!Fnox} (exists_ : Path → bool) (read_to_string : Path → option bytes) (config_dir : option Path).

Lemma load_base_layers profiles config found :
  fst <$> load_base exists_ read_to_string config_dir profiles config found =
    (λ ls, foldr merge_configs config ls) <$> base_layers exists_ read_to_string config_dir profiles.
Proof.
  unfold load_base, base_layers. rewrite load_global_layers, load_hodor_layers.
  destruct (global_layers exists_) as [gls|e] eqn:El; simpl; [|done].
  destruct (hodor_layers _ _ _ _) as [hls|e']; simpl; [|done].
  assert (gls ≠ []) as Hne.
  { revert El. unfold global_layers. case_match; simpl; [|by intros [= <-]].
    destruct (fx_load _) as [c|]; simpl; [|done]. destruct (imports_of _ _) as [ims|]; simpl; [|done]. intros [= <-]. by destruct (rev ims). }
  destruct (exists_ fx_global_config_path || bool_decide (hls ≠ [])) eqn:Ef; simpl; f_equal.
  rewrite foldr_merged by (by destruct gls). rewrite merge_new_mid. by rewrite merged_app by done.
Qed.

Lemma layers_rev_ne rdir profiles sync ls : layers_rev exists_ read_to_string config_dir rdir profiles sync = Ok ls → ls ≠ [].
Proof.
  destruct rdir; cbn [layers_rev]; intros (files & _ & (ims & _ & (below & _ & [= <-])%bind_ok)%bind_ok)%bind_ok.
  all: intros [_ [_ Hne]%app_eq_nil]%app_eq_nil; done.
Qed.

Lemma load_files_layers dir profiles sync found :
  try_fold (load_file exists_ dir profiles sync) (Config_new, found) (fx_all_config_filenames profiles) =
    (λ files, (merged (Config_new :: files), found || bool_decide (files ≠ []))) <$>
      mapM (file_layer dir profiles sync) (filter (λ f, exists_ (path_join dir (components f)) = true) (fx_all_config_filenames profiles)).
Proof.
  rewrite (try_fold_groups (λ f, exists_ (path_join dir (components f))) (λ f, (λ l, [l]) <$> file_layer dir profiles sync f)).
  - generalize (filter (λ f, exists_ (path_join dir (components f)) = true) (fx_all_config_filenames profiles)). intros fs.
    rewrite mapM_fmap.
    destruct (mapM _ fs) as [files|]; simpl; [|done]. f_equal. f_equal.
    + f_equal. f_equal. induction files; simpl; [done|]. by f_equal.
    + f_equal. apply bool_decide_ext. by destruct files.
  - intros acc f. unfold load_file, file_layer. case_match; [|done]. destruct (fx_load _); simpl; [|done].
    by rewrite (right_id_L Config_new merge_configs).
Qed.

(** Loading a chain of directories merges its layers in order. *)
Lemma load_recursive_rev_layers rdir found profiles sync :
  fst <$> load_recursive_rev exists_ read_to_string config_dir rdir found profiles sync =
    merged <$> layers_rev exists_ read_to_string config_dir rdir profiles sync.
Proof.
  revert found. induction rdir as [|c rdir IH]; intros found; cbn [load_recursive_rev layers_rev]; rewrite load_files_layers.
  all: destruct (mapM _ _) as [files|] eqn:Ef; simpl; [|done]; rewrite merge_imports_layers; simpl;
    destruct (imports_of _ _) as [ims|]; simpl; [|done].
  all: set (config := merged (rev ims ++ [_])).
  all: assert (∀ below, merged (below ++ rev ims ++ Config_new :: files) = foldr merge_configs config below) as Hm
    by (intros below; subst config; unfold merged; rewrite !foldr_app; simpl; by rewrite (right_id_L Config_new merge_configs)).
  - destruct (lc_root _); rewrite load_base_layers; (destruct (base_layers _ _ _ _) as [below|]; simpl; [by rewrite Hm|done]).
  - assert (∀ x : result CoreError (FnoxConfig * bool), fst <$> x = (λ ls, foldr merge_configs config ls) <$> base_layers exists_ read_to_string config_dir profiles →
      fst <$> x = merged <$> (base_layers exists_ read_to_string config_dir profiles ≫= λ below, mret (below ++ rev ims ++ Config_new :: files))) as Hbase.
    { intros x ->. destruct (base_layers _ _ _ _) as [below|]; simpl; [by rewrite Hm|done]. }
    destruct (lc_root _); [apply Hbase, load_base_layers|].
    specialize (IH (found || bool_decide (files ≠ []))).
    destruct c; [apply Hbase, load_base_layers|..].
    all: destruct (load_recursive_rev _ _ _ _ _ _ _) as [[p pf]|], (layers_rev _ _ _ _ _ _) as [below|] eqn:Eb; simplify_eq/=; [|done]; f_equal.
    all: rewrite Hm, foldr_merged; [done|by eapply layers_rev_ne].
Qed.
End Discovered.

Lemma nearest_merged {A} (g : FnoxConfig → option A) :
  g Config_new = None → (∀ a b, g (merge_configs a b) = or_else (g b) (g a)) → ∀ ls, g (merged ls) = nearest g ls.
Proof.
  intros Hnew Hmerge. induction ls as [|l ls IH]; [done|]. simpl. rewrite Hmerge, IH. unfold nearest. simpl.
  destruct (g l) as [x|]; simpl; [rewrite last_cons|]; by destruct (last _).
Qed.
Lemma lookup_union_or {A} (m1 m2 : gmap bytes A) k : (m1 ∪ m2) !! k = or_else (m1 !! k) (m2 !! k).
Proof. rewrite lookup_union. by destruct (m1 !! k), (m2 !! k). Qed.
Lemma merged_profile {A} (h : ProfileConfig → option A) :
  (∀ a b, h (merge_profile a b) = or_else (h b) (h a)) →
  ∀ p ls, lc_profiles (merged ls) !! p ≫= h = nearest (λ l, lc_profiles l !! p ≫= h) ls.
Proof.
  intros Hh p. apply (nearest_merged (λ l, lc_profiles l !! p ≫= h)); [by simpl; rewrite lookup_empty|]. intros a b. simpl.
  rewrite lookup_union_with. destruct (lc_profiles a !! p), (lc_profiles b !! p); simpl; rewrite ?Hh, ?or_else_None_r; done.
Qed.

(** What a configuration merged of these layers says of a name. *)
Record nearest_wins (c : FnoxConfig) (ls : list FnoxConfig) : Prop := {
  nw_secrets k : lc_secrets c !! k = nearest (λ l, lc_secrets l !! k) ls;
  nw_providers k : lc_providers c !! k = nearest (λ l, lc_providers l !! k) ls;
  nw_leases k : lc_leases c !! k = nearest (λ l, lc_leases l !! k) ls;
  nw_profile_secrets p k : lc_profiles c !! p ≫= (λ pf, pf_secrets pf !! k) = nearest (λ l, lc_profiles l !! p ≫= (λ pf, pf_secrets pf !! k)) ls;
  nw_inherits p : lc_profiles c !! p ≫= pf_inherits = nearest (λ l, lc_profiles l !! p ≫= pf_inherits) ls;
  nw_proxy : lc_proxy c = nearest lc_proxy ls;
  nw_default_provider : lc_default_provider c = head ls ≫= lc_default_provider;
}.
Lemma merged_nearest_wins ls : nearest_wins (merged ls) ls.
Proof.
  split.
  - intros k. apply (nearest_merged (λ l, lc_secrets l !! k)); [apply lookup_empty|intros; apply lookup_union_or].
  - intros k. apply (nearest_merged (λ l, lc_providers l !! k)); [apply lookup_empty|intros; apply lookup_union_or].
  - intros k. apply (nearest_merged (λ l, lc_leases l !! k)); [apply lookup_empty|intros; apply lookup_union_or].
  - intros p k. apply (merged_profile (λ pf, pf_secrets pf !! k)). intros; apply lookup_union_or.
  - intros p. by apply (merged_profile pf_inherits).
  - by apply (nearest_merged lc_proxy).
  - by destruct ls.
Qed.

(** ** Resolving profiles *)

Section Resolving.
Context `{!Fnox}.

(** A name, or [default], after all it inherits. *)
Definition parents_first (inherits : bytes → list bytes) (resolved : list bytes) : Prop :=
  ∀ before p after, resolved = before ++ p :: after → p = bs "default" ∨ Forall (λ q, q ∈ before) (inherits p).
(** Each name inherits the next. *)
Fixpoint chain (inherits : bytes → list bytes) (names : list bytes) : Prop :=
  match names with
  | p :: (q :: _) as rest => p ≠ bs "default" ∧ q ∈ inherits p ∧ chain inherits rest
  | _ => True
  end.
Inductive reaches (inherits : bytes → list bytes) : bytes → bytes → Prop :=
| reaches_refl p : reaches inherits p p
| reaches_step p q r : p ≠ bs "default" → q ∈ inherits p → reaches inherits q r → reaches inherits p r.

Lemma parents_first_snoc inherits resolved p :
  parents_first inherits resolved → (p = bs "default" ∨ Forall (λ q, q ∈ resolved) (inherits p)) → parents_first inherits (resolved ++ [p]).
Proof.
  intros Hr Hp before q after Heq. destruct (decide (after = [])) as [->|Hne].
  - apply app_inj_tail in Heq as [-> ->]. done.
  - destruct (exists_last Hne) as (after' & x & ->). rewrite app_comm_cons, app_assoc in Heq.
    apply app_inj_tail in Heq as [-> ->]. by eapply Hr.
Qed.

(** What a visit leaves: the visited names are the resolved ones. *)
Record visited_ok (inherits : bytes → list bytes) (st : Visit) : Prop := {
  vo_set : st.2 = list_to_set st.1;
  vo_valid : Forall (λ p, fx_valid_profile p = true) st.1;
  vo_order : parents_first inherits st.1;
}.

(** What visiting [p] adds. *)
Definition adds (inherits : bytes → list bytes) (p : bytes) (st st' : Visit) : Prop :=
  ∃ more, st'.1 = st.1 ++ more ∧ Forall (reaches inherits p) more.

Lemma visited_push (inherits : bytes → list bytes) (p : bytes) (st st1 : Visit) :
  fx_valid_profile p = true → visited_ok inherits st1 → adds inherits p st st1 →
  (p = bs "default" ∨ Forall (λ q, q ∈ st1.1) (inherits p)) →
  visited_ok inherits (st1.1 ++ [p], {[p]} ∪ st1.2) ∧ p ∈ st1.1 ++ [p] ∧ adds inherits p st (st1.1 ++ [p], {[p]} ∪ st1.2).
Proof.
  intros Hv [Hset Hval Hord] (more & Hmore & Hreach) Hp. split; [split; simpl|].
  - rewrite Hset, list_to_set_app_L. set_solver.
  - apply Forall_app. auto.
  - by apply parents_first_snoc.
  - split; [set_solver|]. exists (more ++ [p]). simpl. rewrite Hmore, <- app_assoc. split; [done|]. apply Forall_app. split; [done|].
    constructor; [constructor|done].
Qed.

Lemma visits_parents {E} (inherits : bytes → list bytes) (p : bytes) (f : Visit → bytes → option (result E Visit)) (xs : list bytes) (st st1 : Visit) :
  (∀ st q st', visited_ok inherits st → f st q = Some (Ok st') → visited_ok inherits st' ∧ q ∈ st'.1 ∧ adds inherits q st st') →
  p ≠ bs "default" → (∀ q, q ∈ xs → q ∈ inherits p) → visited_ok inherits st → run_fold f st xs = Some (Ok st1) →
  visited_ok inherits st1 ∧ Forall (λ q, q ∈ st1.1) xs ∧ adds inherits p st st1.
Proof.
  intros Hf Hp. revert st. induction xs as [|q xs IH]; intros st Hxs Hst; simpl.
  - intros [= <-]. split; [done|]. split; [done|]. exists []. by rewrite app_nil_r.
  - destruct (f st q) as [[st2|]|] eqn:Eq; try done. intros Hrest. destruct (Hf _ _ _ Hst Eq) as (Hst2 & Hq & m1 & Hm1 & Hr1).
    destruct (IH st2) as (Hst1 & Hall & m2 & Hm2 & Hr2); [set_solver|done|done|]. split; [done|]. split.
    + constructor; [rewrite Hm2; set_solver|done].
    + exists (m1 ++ m2). rewrite Hm2, Hm1, <- app_assoc. split; [done|]. apply Forall_app. split; [|done].
      eapply Forall_impl; [exact Hr1|]. intros r Hr. apply (reaches_step _ p q r); [done|apply Hxs; left|done].
Qed.

Lemma visit_ok fuel config visiting force st p st' :
  visited_ok (inherits_of config) st → visit fuel config visiting force st p = Some (Ok st') →
  visited_ok (inherits_of config) st' ∧ p ∈ st'.1 ∧ adds (inherits_of config) p st st'.
Proof.
  revert visiting force st p st'. induction fuel as [|fuel IH]; intros visiting force st p st' Hst; [done|]. simpl.
  destruct (fx_valid_profile p) eqn:Hv; simpl; [|done].
  assert (adds (inherits_of config) p st st) as Hnone by (exists []; by rewrite app_nil_r).
  destruct (bool_decide (p ∈ st.2) && negb force) eqn:Hvis.
  { intros [= <-]. apply andb_true_iff in Hvis as [Hvis _]. apply bool_decide_eq_true in Hvis.
    split; [done|]. split; [|done]. rewrite (vo_set _ _ Hst) in Hvis. set_solver. }
  clear Hvis. case_bool_decide as Hdef; [intros [= <-]; apply visited_push; auto|].
  case_match; [done|]. destruct (run_fold _ _ _) as [[st1|]|] eqn:Ef; try done. intros [= <-].
  destruct (visits_parents (inherits_of config) p (visit fuel config (visiting ++ [p]) false) (inherits_of config p) st st1) as (Hst1 & Hall & Hadds); eauto.
  apply visited_push; auto.
Qed.

(** ** Enough fuel *)

Lemma run_fold_some {E A B} (f : B → A → option (result E B)) (P : B → Prop) acc xs :
  (∀ acc x, x ∈ xs → P acc → f acc x ≠ None ∧ ∀ acc', f acc x = Some (Ok acc') → P acc') → P acc → run_fold f acc xs ≠ None.
Proof.
  revert acc. induction xs as [|x xs IH]; intros acc Hf HP; simpl; [done|].
  destruct (Hf acc x) as [Hn Hok]; [left|done|]. destruct (f acc x) as [[acc1|]|] eqn:Ef; try done.
  apply IH; [|by apply Hok]. intros ???. apply Hf. by right.
Qed.

(** The names being visited are different profiles of the configuration. *)
Lemma visit_ends fuel config visiting force st p :
  NoDup visiting → Forall (λ q, q ∈ dom (lc_profiles config)) visiting → S (size (lc_profiles config)) < fuel + length visiting →
  visit fuel config visiting force st p ≠ None.
Proof.
  revert visiting force st p. induction fuel as [|fuel IH]; intros visiting force st p Hnd Hdom Hfuel.
  { exfalso. assert (length visiting ≤ size (lc_profiles config)) as Hle; [|simpl in *; lia].
    rewrite <- size_dom. rewrite <- (size_list_to_set (C := gset bytes)) by done. apply subseteq_size.
    intros q Hq. apply elem_of_list_to_set in Hq. by rewrite Forall_forall in Hdom; apply Hdom. }
  simpl. destruct (fx_valid_profile p); simpl; [|done]. case_match; [done|]. case_match; [done|].
  destruct (position _ visiting) eqn:Hpos; [done|].
  assert (run_fold (visit fuel config (visiting ++ [p]) false) st (inherits_of config p) ≠ None) as Hrun; [|by repeat case_match].
  unfold inherits_of. destruct (lc_profiles config !! p) as [pf|] eqn:Hp; [|done].
  apply (run_fold_some _ (λ _, True)); [|done]. intros acc q _ _. split; [|done]. apply IH.
  - apply NoDup_app. split; [done|]. split; [|apply NoDup_singleton]. intros x Hx ->%list_elem_of_singleton.
    apply position_None in Hpos. rewrite Forall_forall in Hpos. specialize (Hpos _ Hx). by rewrite bool_decide_true in Hpos.
  - apply Forall_app. split; [done|]. constructor; [by apply elem_of_dom_2 in Hp|done].
  - rewrite length_app. simpl. lia.
Qed.
(** ** Cycles *)

Lemma chain_app inherits l p q r : chain inherits (l ++ [p; q]) → chain inherits (q :: r) → chain inherits (l ++ p :: q :: r).
Proof.
  induction l as [|x l IH]; [simpl; naive_solver|]. destruct l as [|y l]; simpl in *; [naive_solver|].
  intros (? & ? & Hl) Hr. split; [done|]. split; [done|]. by apply IH.
Qed.
Lemma chain_snoc inherits l p q : chain inherits (l ++ [p]) → p ≠ bs "default" → q ∈ inherits p → chain inherits ((l ++ [p]) ++ [q]).
Proof.
  intros Hl Hp Hq. rewrite <- app_assoc. simpl. induction l as [|x l IH]; [by repeat split|].
  destruct l as [|y l]; simpl in *; [naive_solver|]. destruct Hl as (? & ? & Hl). split; [done|]. split; [done|]. by apply IH.
Qed.
Lemma chain_drop inherits l n : chain inherits l → chain inherits (drop n l).
Proof.
  revert l. induction n as [|n IH]; intros l Hl; [done|]. destruct l as [|x l]; [done|]. simpl. apply IH.
  destruct l as [|y l]; [done|]. by destruct Hl as (_ & _ & ?).
Qed.
(** A chain from a resolved name leads to names resolved before it. *)
Lemma parents_first_chain inherits resolved before p after l x :
  parents_first inherits resolved → resolved = before ++ p :: after → chain inherits (p :: l ++ [x]) → x ∈ before.
Proof.
  intros Hr. revert before p after. induction l as [|q l IH]; intros before p after Hres.
  - intros (Hp & Hx & _). destruct (Hr _ _ _ Hres) as [|Hall]; [done|]. rewrite Forall_forall in Hall. by apply Hall.
  - intros (Hp & Hq & Hchain). destruct (Hr _ _ _ Hres) as [|Hall]; [done|]. rewrite Forall_forall in Hall.
    apply Hall in Hq. apply list_elem_of_split in Hq as (b1 & b2 & ->). rewrite <- app_assoc in Hres.
    pose proof (IH b1 q _ Hres Hchain). set_solver.
Qed.
Lemma parents_first_acyclic inherits resolved p l : parents_first inherits resolved → p ∈ resolved → ¬ chain inherits (p :: l ++ [p]).
Proof.
  intros Hr Hp Hc. apply list_elem_of_split_l in Hp as (before & after & Hres & Hn). apply Hn.
  by eapply parents_first_chain.
Qed.

Definition invalid_name (p : bytes) : CoreError := CoreConfig (bs "Invalid inherited profile name: '" ++ p ++ bs "'").
Definition inheritance_cycle (names : list bytes) : CoreError := ProfileInheritanceCycle (join (bs " -> ") names).
(** What stops the resolution of [p]. *)
Definition refusal (inherits : bytes → list bytes) (p : bytes) (e : CoreError) : Prop :=
  (∃ q, reaches inherits p q ∧ fx_valid_profile q = false ∧ e = invalid_name q) ∨
  (∃ q l, chain inherits (q :: l ++ [q]) ∧ e = inheritance_cycle (q :: l ++ [q])).

Lemma run_fold_err {E A B} (f : B → A → option (result E B)) acc xs e :
  run_fold f acc xs = Some (Err e) → ∃ acc x, x ∈ xs ∧ f acc x = Some (Err e).
Proof.
  revert acc. induction xs as [|x xs IH]; intros acc; simpl; [done|]. destruct (f acc x) as [[acc1|e']|] eqn:Ef; try done.
  - intros (acc2 & y & Hy & Hf)%IH. exists acc2, y. split; [by right|done].
  - intros [= ->]. exists acc, x. split; [left|done].
Qed.

Lemma visit_err fuel config visiting force st p e :
  chain (inherits_of config) (visiting ++ [p]) → visit fuel config visiting force st p = Some (Err e) → refusal (inherits_of config) p e.
Proof.
  revert visiting force st p. induction fuel as [|fuel IH]; intros visiting force st p Hchain; [done|]. simpl.
  destruct (fx_valid_profile p) eqn:Hv; simpl; [|intros [= <-]; left; exists p; split; [constructor|done]].
  destruct (bool_decide (p ∈ st.2) && negb force); [done|]. case_bool_decide as Hdef; [done|]. destruct (position _ visiting) as [start|] eqn:Hpos.
  - intros [= <-]. right. apply position_Some in Hpos as [(x & Hx & Heq%bool_decide_eq_true) _]. subst x.
    pose proof (chain_drop _ _ start Hchain) as Hd. rewrite drop_app_le in Hd by (apply lookup_lt_Some in Hx; lia).
    rewrite (drop_S _ _ _ Hx) in *. exists p, (drop (S start) visiting). by split.
  - destruct (run_fold _ _ _) as [[st1|e']|] eqn:Ef; try done. intros [= <-].
    apply run_fold_err in Ef as (acc & q & Hq & Hf).
    apply IH in Hf as [(r & Hr & Hi & ->)|Hcyc]; [|by right|].
    + left. exists r. split; [|done]. by apply (reaches_step _ p q r).
    + by apply chain_snoc.
Qed.

(** ** The stack of profiles *)

Lemma visit_forced fuel config st p st' :
  visited_ok (inherits_of config) st → visit fuel config [] true st p = Some (Ok st') → ∃ more, st'.1 = st.1 ++ more ++ [p].
Proof.
  intros Hst. destruct fuel as [|fuel]; [done|]. simpl. destruct (fx_valid_profile p); simpl; [|done]. rewrite andb_false_r.
  case_bool_decide as Hdef; [intros [= <-]; by exists []|].
  destruct (run_fold _ _ _) as [[st1|]|] eqn:Ef; try done. intros [= <-].
  destruct (visits_parents (inherits_of config) p (visit fuel config [p] false) (inherits_of config p) st st1) as (_ & _ & more & Hmore & _);
    eauto using visit_ok.
  exists more. simpl. by rewrite Hmore, <- app_assoc.
Qed.

Lemma visited_ok_nil inherits : visited_ok inherits ([], ∅).
Proof. split; simpl; [done|done|]. by intros [|] ??. Qed.

(** What the resolution of a stack is, when it is. *)
Record resolved_stack (inherits : bytes → list bytes) (profiles resolved : list bytes) : Prop := {
  rs_asked : profiles `sublist_of` resolved;
  rs_valid : Forall (λ p, fx_valid_profile p = true) resolved;
  rs_order : parents_first inherits resolved;
  rs_reached : Forall (λ q, ∃ p, p ∈ profiles ∧ reaches inherits p q) resolved;
}.

Lemma stack_resolve_fold fuel config profiles st st' :
  visited_ok (inherits_of config) st → run_fold (visit fuel config [] true) st profiles = Some (Ok st') →
  visited_ok (inherits_of config) st' ∧ ∃ more, st'.1 = st.1 ++ more ∧ profiles `sublist_of` more ∧
    Forall (λ q, ∃ p, p ∈ profiles ∧ reaches (inherits_of config) p q) more.
Proof.
  revert st. induction profiles as [|p profiles IH]; intros st Hst; simpl.
  - intros [= <-]. split; [done|]. exists []. by rewrite app_nil_r.
  - destruct (visit _ _ _ _ _ p) as [[st1|]|] eqn:Ev; try done. intros Hrest.
    destruct (visit_forced _ _ _ _ _ Hst Ev) as (m0 & Hm0). destruct (visit_ok _ _ _ _ _ _ _ Hst Ev) as (Hst1 & _ & m & Hm & Hreach).
    destruct (IH _ Hst1 Hrest) as (Hst' & more & Hmore & Hsub & Hall). split; [done|]. exists (m ++ more).
    rewrite Hmore, Hm, <- app_assoc. split; [done|]. rewrite Hm in Hm0. apply app_inv_head in Hm0. split.
    + rewrite Hm0, <- app_assoc. apply sublist_inserts_l. by apply sublist_skip.
    + apply Forall_app. split; [eapply Forall_impl; [exact Hreach|]|eapply Forall_impl; [exact Hall|]]; simpl.
      * intros q Hq. exists p. split; [left|done].
      * intros q (p' & Hp' & Hq). exists p'. split; [by right|done].
Qed.

Lemma resolve_ok config profiles resolved :
  resolve_profiles_for_discovery config profiles = Some (Ok resolved) → resolved_stack (inherits_of config) profiles resolved.
Proof.
  unfold resolve_profiles_for_discovery. destruct (run_fold _ _ _) as [[st|]|] eqn:Ef; try done. intros [= <-].
  destruct (stack_resolve_fold _ _ _ _ _ (visited_ok_nil _) Ef) as ([_ Hv Ho] & more & Hmore & Hsub & Hall). simpl in *. rewrite Hmore in *. by split.
Qed.
Lemma resolve_ends config profiles : resolve_profiles_for_discovery config profiles ≠ None.
Proof.
  unfold resolve_profiles_for_discovery.
  assert (run_fold (visit (visit_fuel config) config [] true) ([], ∅) profiles ≠ None) as Hn; [|by repeat case_match].
  apply (run_fold_some _ (λ _, True)); [|done]. intros acc p _ _. split; [|done].
  apply visit_ends; [constructor|constructor|]. unfold visit_fuel. simpl. lia.
Qed.
Lemma resolve_err config profiles e :
  resolve_profiles_for_discovery config profiles = Some (Err e) → ∃ p, p ∈ profiles ∧ refusal (inherits_of config) p e.
Proof.
  unfold resolve_profiles_for_discovery. destruct (run_fold _ _ _) as [[st|e']|] eqn:Ef; try done. intros [= <-].
  apply run_fold_err in Ef as (acc & p & Hp & Hf). exists p. split; [done|]. eapply visit_err; [|exact Hf]. exact I.
Qed.

Lemma visit_skipped (fuel : nat) (config : FnoxConfig) (visiting : list bytes) (st : Visit) (q : bytes) : fx_valid_profile q = true → q ∈ st.2 → visit (S fuel) config visiting false st q = Some (Ok st).
Proof. intros Hv Hq. simpl. by rewrite Hv, bool_decide_true. Qed.
Lemma visit_again (fuel : nat) (config : FnoxConfig) (st : Visit) (p : bytes) :
  fx_valid_profile p = true → (p = bs "default" ∨ Forall (λ q, fx_valid_profile q = true ∧ q ∈ st.2) (inherits_of config p)) →
  visit (S (S fuel)) config [] true st p = Some (Ok (st.1 ++ [p], {[p]} ∪ st.2)).
Proof.
  intros Hv Hp. remember (S fuel) as fuel' eqn:Hf. simpl. rewrite Hv, andb_false_r. simpl. case_bool_decide as Hdef; [done|].
  destruct Hp as [|Hp]; [done|]. assert (run_fold (visit fuel' config [p] false) st (inherits_of config p) = Some (Ok st)) as ->; [|done].
  induction Hp as [|q xs [Hq Hin] _ IH]; [done|]. cbn [run_fold]. subst fuel'. by rewrite visit_skipped.
Qed.

(** A stack in order resolves to itself. *)
Lemma resolve_settled config stack :
  parents_first (inherits_of config) stack → Forall (λ p, fx_valid_profile p = true) stack →
  resolve_profiles_for_discovery config stack = Some (Ok stack).
Proof.
  intros Hord Hval. rewrite Forall_forall in Hval.
  assert (∀ todo past (visited : gset bytes), stack = past ++ todo → visited = list_to_set past →
    ∃ visited', run_fold (visit (visit_fuel config) config [] true) (past, visited) todo = Some (Ok (stack, visited'))) as Hfold.
  { induction todo as [|p todo IH]; intros past visited Heq ->; [exists (list_to_set past); rewrite app_nil_r in Heq; by subst|].
    cbn [run_fold]. unfold visit_fuel at 1. rewrite visit_again; [|apply Hval; set_solver|].
    - apply IH; [simpl; rewrite <- app_assoc; exact Heq|simpl; rewrite list_to_set_app_L; set_solver].
    - destruct (Hord _ _ _ Heq) as [|Hall]; [by left|right]. eapply Forall_impl; [exact Hall|]. intros q Hq. simpl. split; [apply Hval|]; set_solver. }
  unfold resolve_profiles_for_discovery. destruct (Hfold stack [] ∅) as (visited' & ->); done.
Qed.
End Resolving.

(** ** The claims *)

Section Claims.
Context `{!Fnox} (exists_ : Path → bool) (read_to_string : Path → option bytes) (config_dir : option Path).
Abbreviation load_stack := (load_stack exists_ read_to_string config_dir).
Abbreviation layers := (layers exists_ read_to_string config_dir).

(** C11: The configuration of a directory is its layers merged in order, and
    fails as reading them does: the global file over its imports, hodor's own
    level, then each directory from the outermost one that is not above a root
    to the nearest, its files over their imports. So the nearest layer that
    states a secret, a provider, a lease, what a profile inherits or the proxy
    policy decides it; the default provider alone is the farthest layer's. *)
Theorem discovered_exact dir profiles sync :
  fst <$> load_stack dir profiles sync = merged <$> layers dir profiles sync ∧
  ∀ c found, load_stack dir profiles sync = Ok (c, found) → ∃ ls, layers dir profiles sync = Ok ls ∧ nearest_wins c ls.
Proof.
  assert (fst <$> load_stack dir profiles sync = merged <$> layers dir profiles sync) as Heq by apply load_recursive_rev_layers.
  split; [done|]. intros c found Hl. rewrite Hl in Heq. destruct (layers dir profiles sync) as [ls|] eqn:El; simplify_eq/=.
  exists ls. split; [done|]. apply merged_nearest_wins.
Qed.

(** C17: Resolving a stack of profiles ends. Where it succeeds the stack asked
    for is kept in its order, every name is valid and reached from one asked
    for, and a name stands after all it inherits, so that none inherits itself;
    where it fails, a name that is reached is invalid or inherits itself. *)
Theorem profiles_resolved config profiles :
  match resolve_profiles_for_discovery config profiles with
  | None => False
  | Some (Ok resolved) =>
      resolved_stack (inherits_of config) profiles resolved ∧
      (∀ p l, p ∈ resolved → ¬ chain (inherits_of config) (p :: l ++ [p])) ∧
      resolve_profiles_for_discovery config resolved = Some (Ok resolved)
  | Some (Err e) => ∃ p, p ∈ profiles ∧ refusal (inherits_of config) p e
  end.
Proof.
  destruct (resolve_profiles_for_discovery config profiles) as [[resolved|e]|] eqn:Er.
  - apply resolve_ok in Er as Hr. split; [done|]. destruct Hr as [_ Hv Ho _]. split; [|by apply resolve_settled].
    intros p l. by apply parents_first_acyclic.
  - by apply resolve_err.
  - by apply resolve_ends in Er.
Qed.

(** Reading further files leaves what a name already selected inherits. *)
Definition inheritance_kept (dir : Path) (sync : bool) : Prop :=
  ∀ stack stack' c c' f f', load_stack dir stack sync = Ok (c, f) → load_stack dir stack' sync = Ok (c', f') →
    stack `sublist_of` stack' → ∀ p, p ∈ stack → inherits_of c' p = inherits_of c p.
(** The names that can be inherited are some fixed ones. *)
Definition names_within (dir : Path) (sync : bool) (names : gset bytes) : Prop :=
  ∀ stack c f, load_stack dir stack sync = Ok (c, f) → ∀ p q, q ∈ inherits_of c p → q ∈ names.

Lemma reaches_within (inherits : bytes → list bytes) (names : gset bytes) (p q : bytes) :
  (∀ p q, q ∈ inherits p → q ∈ names) → reaches inherits p q → p ∈ names → q ∈ names.
Proof. intros Hin. induction 1; eauto. Qed.

Lemma expand_ends (dir : Path) (sync : bool) (names : gset bytes) (fuel : nat) (stack : list bytes) :
  inheritance_kept dir sync → names_within dir sync names → list_to_set stack ⊆ names →
  size names + 1 < fuel + size (list_to_set stack : gset bytes) →
  expand_stack exists_ read_to_string config_dir fuel dir sync stack ≠ None.
Proof.
  intros Hkept Hwithin. revert stack. induction fuel as [|fuel IH]; intros stack Hsub Hfuel.
  { pose proof (subseteq_size _ _ Hsub). lia. }
  pose proof (subseteq_size _ _ Hsub) as Hsize.
  cbn [expand_stack]. destruct (load_stack dir stack sync) as [[c f]|] eqn:El; [|done].
  destruct (resolve_profiles_for_discovery c stack) as [[expanded|]|] eqn:Er; [|done|by apply resolve_ends in Er].
  case_bool_decide as Heq; [done|]. apply resolve_ok in Er as [Hasked Hvalid Horder Hreached].
  assert (list_to_set stack ⊆@{gset bytes} list_to_set expanded) as Hgrow.
  { intros p. rewrite !elem_of_list_to_set. intros Hp. by eapply elem_of_sublist. }
  assert (list_to_set expanded ⊆ names) as Hin.
  { intros q. rewrite elem_of_list_to_set. intros Hq. rewrite Forall_forall in Hreached. destruct (Hreached _ Hq) as (p & Hp & Hr).
    eapply reaches_within; [by eapply Hwithin|exact Hr|]. apply Hsub. by apply elem_of_list_to_set. }
  destruct (decide (list_to_set stack =@{gset bytes} list_to_set expanded)) as [Hsame|Hmore].
  - destruct fuel as [|fuel]; [lia|]. cbn [expand_stack]. destruct (load_stack dir expanded sync) as [[c' f']|] eqn:El'; [|done].
    rewrite resolve_settled; [by rewrite bool_decide_true| |done].
    intros before p after Hp. destruct (Horder _ _ _ Hp) as [|Hall]; [by left|right].
    rewrite (Hkept _ _ _ _ _ _ El El' Hasked p); [done|]. apply (elem_of_list_to_set (C := gset bytes)). rewrite Hsame, Hp. set_solver.
  - assert (size (list_to_set stack : gset bytes) < size (list_to_set expanded : gset bytes)) as Hlt by (apply subset_size; set_solver).
    assert (size (list_to_set expanded : gset bytes) ≤ size names) by (by apply subseteq_size).
    apply IH; [done|lia].
Qed.

Lemma expand_ok dir sync fuel stack stack' c f :
  expand_stack exists_ read_to_string config_dir fuel dir sync stack = Some (Ok (stack', c, f)) →
  load_stack dir stack' sync = Ok (c, f) ∧ resolve_profiles_for_discovery c stack' = Some (Ok stack') ∧ stack `sublist_of` stack'.
Proof.
  revert stack. induction fuel as [|fuel IH]; intros stack; [done|]. cbn [expand_stack].
  destruct (load_stack dir stack sync) as [[c1 f1]|] eqn:El; [|done].
  destruct (resolve_profiles_for_discovery c1 stack) as [[expanded|]|] eqn:Er; [|done|done].
  case_bool_decide as Heq; [intros [= <- <- <-]; by subst expanded|]. intros (Hl & Hr & Hs)%IH. split; [done|]. split; [done|].
  etrans; [by apply resolve_ok in Er as [? _ _ _]|done].
Qed.

(** What discovery returns: the configuration read for a stack of profiles
    that is the one this configuration selects for the profiles asked for. *)
Definition settled (dir : Path) (sync : bool) (c : FnoxConfig) : Prop :=
  ∃ stack c0, load_stack dir stack sync = Ok (c0, true) ∧ resolved_stack (inherits_of c0) stack stack ∧
    fx_profiles `sublist_of` stack ∧ fx_resolve_profiles c0 fx_profiles = Ok () ∧
    c = with_project_dir c0 (find_project_dir exists_ dir stack).

(** C16: Discovery ends, in at most one round for each name that can be
    inherited and two more, where reading more files leaves what the names
    selected so far inherit; and what it returns was read for exactly the
    profiles it selects. *)
Theorem discovery_settles (dir : Path) (sync : bool) (names : gset bytes) :
  inheritance_kept dir sync → names_within dir sync names → list_to_set fx_profiles ⊆ names →
  ∃ r, load_with_recursion exists_ read_to_string config_dir (Ok dir) (size names + 2) sync = Some r ∧
    match r with Ok c => settled dir sync c | Err _ => True end.
Proof.
  intros Hkept Hwithin Hasked. unfold load_with_recursion.
  destruct (expand_stack _ _ _ _ _ _ _) as [[[[stack c0] f]|e]|] eqn:Ex.
  - eexists. split; [done|]. unfold finish_discovery. destruct f; simpl; [|done].
    destruct (fx_resolve_profiles c0 fx_profiles) as [[]|] eqn:Es; simpl; [|done].
    apply expand_ok in Ex as (Hl & Hr & Hs). exists stack, c0. by apply resolve_ok in Hr.
  - by eexists.
  - exfalso. revert Ex. eapply expand_ends; try done; lia.
Qed.
End Claims.

(** ** Where secrets come from *)

(** Each secret names the file and profile it was read for, and the map of
    sources says the same and nothing more. *)
Definition sourced_map (profile : option bytes) (secrets : gmap bytes Secret) (sources : gmap bytes Path) : Prop :=
  ∀ k, match secrets !! k with
       | Some s => ∃ path, se_source_path s = Some path ∧ sources !! k = Some path ∧ se_source_profile s = profile ∧
                     se_source_is_profile s = bool_of_opt profile
       | None => sources !! k = None
       end.
Definition tracked_map (secrets : gmap bytes Secret) (sources : gmap bytes Path) : Prop := ∀ k, secrets !! k = None → sources !! k = None.
Record sourced (c : FnoxConfig) : Prop := {
  so_root : sourced_map None (lc_secrets c) (lc_secret_sources c);
  so_profiles p pf : lc_profiles c !! p = Some pf → sourced_map (Some p) (pf_secrets pf) (pf_secret_sources pf);
}.
Record tracked (c : FnoxConfig) : Prop := {
  tr_root : tracked_map (lc_secrets c) (lc_secret_sources c);
  tr_profiles p pf : lc_profiles c !! p = Some pf → tracked_map (pf_secrets pf) (pf_secret_sources pf);
}.

Lemma sourced_map_tracked pr m1 m2 : sourced_map pr m1 m2 → tracked_map m1 m2.
Proof. intros Hm k Hk. specialize (Hm k). by rewrite Hk in Hm. Qed.
Lemma sourced_tracked c : sourced c → tracked c.
Proof. intros [Hr Hp]. split; [by eapply sourced_map_tracked|]. intros p pf Hpf. by eapply sourced_map_tracked, Hp. Qed.
Lemma sourced_map_union pr m1 s1 m2 s2 : sourced_map pr m1 s1 → sourced_map pr m2 s2 → sourced_map pr (m1 ∪ m2) (s1 ∪ s2).
Proof.
  intros H1 H2 k. specialize (H1 k). specialize (H2 k). rewrite !lookup_union_or.
  destruct (m1 !! k); simpl; [destruct H1 as (path & ? & -> & ?)|rewrite H1; destruct (m2 !! k)]; naive_solver.
Qed.
Lemma tracked_map_union m1 s1 m2 s2 : tracked_map m1 s1 → tracked_map m2 s2 → tracked_map (m1 ∪ m2) (s1 ∪ s2).
Proof.
  intros H1 H2 k. rewrite !lookup_union_or. destruct (m1 !! k) eqn:E1; simpl; [done|]. rewrite (H1 _ E1). simpl. apply H2.
Qed.
Lemma tracked_map_filter (m : gmap bytes Secret) (s : gmap bytes Path) :
  tracked_map m (filter (λ kp : bytes * Path, is_Some (m !! kp.1)) s).
Proof. intros k Hk. apply map_lookup_filter_None. right. intros path _. simpl. rewrite Hk. by intros []. Qed.
Lemma sourced_map_set (pr : option bytes) (path : Path) (m : gmap bytes Secret) (s : gmap bytes Path) :
  tracked_map m s → sourced_map pr (source_secret path pr <$> m) (((λ _, path) <$> m) ∪ s).
Proof.
  intros Ht k. rewrite lookup_union_or, !lookup_fmap. destruct (m !! k) eqn:Em; simpl; [by exists path|by apply Ht].
Qed.
Lemma sourced_map_unsynced (pr : option bytes) (m : gmap bytes Secret) (s : gmap bytes Path) : sourced_map pr m s →
  sourced_map pr (filter (λ ks : bytes * Secret, se_sync ks.2 = None) m)
    (filter (λ kp : bytes * Path, is_Some (filter (λ ks : bytes * Secret, se_sync ks.2 = None) m !! kp.1)) s).
Proof.
  intros Hm k. specialize (Hm k). destruct (filter _ m !! k) as [x|] eqn:Ek.
  - apply map_lookup_filter_Some in Ek as Hk. destruct Hk as [Hk Hs]. rewrite Hk in Hm. destruct Hm as (path & ? & ? & ?).
    exists path. split; [done|]. split; [|done]. apply map_lookup_filter_Some. simpl. by rewrite Ek.
  - by apply tracked_map_filter.
Qed.

Lemma set_source_paths_sourced c path : tracked c → sourced (set_source_paths c path).
Proof.
  intros [Hr Hp]. split; simpl; [by apply (sourced_map_set None)|]. intros p pf. rewrite map_lookup_imap.
  destruct (lc_profiles c !! p) as [pf0|] eqn:Epf; simpl; [|done]. intros [= <-]. apply (sourced_map_set (Some p)). by eapply Hp.
Qed.
Lemma scope_tracked c name : tracked c → tracked (scope_root_entries_to_profile c name).
Proof.
  intros [Hr Hp]. split; simpl; [done|]. intros p pf [[<- <-]|[_ Hpf]]%lookup_insert_Some; simpl; [|by eapply Hp].
  apply tracked_map_union; [done|]. destruct (lc_profiles c !! name) eqn:En; simpl; [by eapply Hp|done].
Qed.
Lemma scope_as_base_tracked c name inc : tracked c → tracked (scope_root_entries_to_profile_as_base c name inc).
Proof.
  intros Hc. unfold scope_root_entries_to_profile_as_base. set (removed := with_entries c _ _ _ _ _ _ _).
  assert (tracked removed) as Hrem.
  { destruct Hc as [Hr Hp]. split; simpl; [by destruct inc|]. intros p pf [_ Hpf]%lookup_delete_Some. by eapply Hp. }
  apply (scope_tracked _ name) in Hrem as [Hr Hp]. clearbody removed. destruct Hc as [Hcr Hcp].
  split; cbn [with_entries lc_secrets lc_secret_sources lc_profiles]; [by destruct inc|].
  destruct (lc_profiles c !! name) as [overlay|] eqn:Eo; [|done]. intros p pf. destruct (decide (p = name)) as [->|Hne].
  - rewrite lookup_alter_eq. destruct (lc_profiles (scope_root_entries_to_profile removed name) !! name) as [pf0|] eqn:Epf; simpl; [|done].
    intros [= <-]. apply tracked_map_union; [by eapply Hcp|by eapply Hp].
  - rewrite lookup_alter_ne by done. apply Hp.
Qed.
Lemma unsynced_sourced c : sourced c → sourced (unsynced c).
Proof.
  intros [Hr Hp]. split; simpl; [by apply sourced_map_unsynced|]. intros p pf. rewrite lookup_fmap.
  destruct (lc_profiles c !! p) eqn:Epf; simpl; [|done]. intros [= <-]. apply sourced_map_unsynced. by eapply Hp.
Qed.
Lemma merge_configs_sourced a b : sourced a → sourced b → sourced (merge_configs a b).
Proof.
  intros [Har Hap] [Hbr Hbp]. split; simpl; [by apply sourced_map_union|]. intros p pf. rewrite lookup_union_with.
  destruct (lc_profiles a !! p) eqn:Ea, (lc_profiles b !! p) eqn:Eb; simpl; intros [= <-]; eauto.
  apply sourced_map_union; [by eapply Hbp|by eapply Hap].
Qed.
Lemma Config_new_sourced : sourced Config_new.
Proof. by split. Qed.
Lemma merged_sourced ls : Forall sourced ls → sourced (merged ls).
Proof. induction 1; simpl; [apply Config_new_sourced|by apply merge_configs_sourced]. Qed.

(** What the crate parses names no source yet, and what it loads names all. *)
Class FnoxLaws `{!Fnox} : Prop := {
  fx_parse_unsourced text c : fx_parse text = Ok c → tracked c;
  fx_load_sourced path c : fx_load path = Ok c → sourced c;
  fx_load_import_sourced import dir c : fx_load_import import dir = Ok c → sourced c;
}.

Section Sources.
Context `{!Fnox, !FnoxLaws} (exists_ : Path → bool) (read_to_string : Path → option bytes) (config_dir : option Path).

Lemma load_sourced path c : load read_to_string path = Ok c → sourced c.
Proof.
  unfold load. intros (text & _ & (c0 & Hc & [= <-])%bind_ok)%bind_ok. apply set_source_paths_sourced.
  assert (tracked c0) as Ht by (unfold map_err in Hc; destruct (fx_parse text) eqn:Ep; simplify_eq; by eapply fx_parse_unsourced).
  destruct (profile_name_from_file path); [by apply scope_tracked|done].
Qed.
Lemma adjust_sourced profiles sync filename path c : sourced c → sourced (adjust profiles sync filename path c).
Proof.
  intros Hc. unfold adjust. set (is_local := _ || _). assert (sourced (if is_local && negb sync then unsynced c else c)) as Hu.
  { destruct (is_local && negb sync); [by apply unsynced_sourced|done]. }
  destruct (is_local && bool_decide _); [|done]. by apply set_source_paths_sourced, scope_as_base_tracked, sourced_tracked.
Qed.
Lemma mapM_Forall {A B} (f : A → result CoreError B) (P : B → Prop) xs ys :
  (∀ x y, f x = Ok y → P y) → mapM f xs = Ok ys → Forall P ys.
Proof.
  intros Hf. revert ys. induction xs as [|x xs IH]; intros ys; simpl; [intros [= <-]; constructor|].
  intros (y & Hy & (ys' & Hys & [= <-])%bind_ok)%bind_ok. constructor; eauto.
Qed.
Lemma imports_sourced dir c ims : imports_of dir c = Ok ims → Forall sourced (rev ims).
Proof. intros Hi. apply Forall_rev. eapply mapM_Forall, Hi. intros x y. apply fx_load_import_sourced. Qed.
Lemma base_sourced profiles ls : base_layers exists_ read_to_string config_dir profiles = Ok ls → Forall sourced ls.
Proof.
  unfold base_layers. intros (gls & Hg & (hls & Hh & [= <-])%bind_ok)%bind_ok. case_match; [|constructor]. apply Forall_app. split.
  - revert Hg. unfold global_layers. case_match; [|intros [= <-]; repeat constructor; apply Config_new_sourced].
    intros (c & Hc & (ims & Hi & [= <-])%bind_ok)%bind_ok. apply Forall_app. split; [by eapply imports_sourced|].
    repeat constructor; by eapply fx_load_sourced.
  - revert Hh. unfold hodor_layers. destruct config_dir as [dir|]; [|intros [= <-]; constructor].
    destruct (mapM _ _) as [gs|] eqn:Eg; simpl; [|done]. intros [= <-]. apply Forall_concat.
    eapply mapM_Forall, Eg. unfold hodor_file_layers. intros f g (c & Hc & (ims & Hi & [= <-])%bind_ok)%bind_ok.
    apply Forall_app. split; [by eapply imports_sourced|]. repeat constructor; by eapply load_sourced.
Qed.
Lemma layers_sourced rdir profiles sync ls : layers_rev exists_ read_to_string config_dir rdir profiles sync = Ok ls → Forall sourced ls.
Proof.
  revert ls. induction rdir as [|c rdir IH]; intros ls; cbn [layers_rev];
    intros (files & Hf & (ims & Hi & (below & Hb & [= <-])%bind_ok)%bind_ok)%bind_ok.
  all: apply Forall_app; split; [repeat case_match; eauto using base_sourced|].
  all: apply Forall_app; split; [by eapply imports_sourced|constructor; [apply Config_new_sourced|]].
  all: eapply mapM_Forall, Hf; unfold file_layer; intros f y; destruct (fx_load _) as [l|] eqn:El; simpl; [|done];
    intros [= <-]; by apply adjust_sourced, fx_load_sourced in El || (apply adjust_sourced; by eapply fx_load_sourced).
Qed.

(** In the configuration of a directory every secret names the file it was
    read from and the profile it was read for, through all merging and scoping,
    and the maps of sources list exactly the secrets there are. *)
Theorem discovered_sourced dir profiles sync c found :
  load_stack exists_ read_to_string config_dir dir profiles sync = Ok (c, found) → sourced c.
Proof.
  intros Hl. pose proof (load_recursive_rev_layers exists_ read_to_string config_dir (rev dir) false profiles sync) as Heq.
  unfold load_stack, load_recursive in Hl. rewrite Hl in Heq. destruct (layers_rev _ _ _ _ _ _) as [ls|] eqn:El; simplify_eq/=.
  by eapply merged_sourced, layers_sourced.
Qed.
End Sources.

(** ** Witnesses *)

Definition sample_secret (rest : bytes) : Secret :=
  {| se_sync := None; se_source_path := None; se_source_is_profile := false; se_source_profile := None; se_rest := rest |}.
Definition sample_profile (inherits : list bytes) : ProfileConfig :=
  {| pf_inherits := Some inherits; pf_leases := ∅; pf_providers := ∅; pf_provider_sources := ∅; pf_secrets := {[bs "KEY" := sample_secret (bs "profile")]};
     pf_secret_sources := ∅; pf_default_provider := None; pf_default_provider_source := None |}.
Definition sample_config (rest provider : bytes) (profiles : gmap bytes ProfileConfig) : FnoxConfig :=
  {| lc_import := []; lc_root := false; lc_age_key_file := None; lc_if_missing := None; lc_env := None; lc_prompt_auth := None;
     lc_mcp := None; lc_daemon := None; lc_proxy := None; lc_default_provider := Some provider; lc_default_provider_source := None;
     lc_leases := ∅; lc_providers := {[provider := bs "age"]}; lc_provider_sources := ∅; lc_secrets := {[bs "TOKEN" := sample_secret rest]};
     lc_secret_sources := ∅; lc_profiles := profiles; lc_project_dir := None |}.
Definition sample_files : list (Path * FnoxConfig) :=
  [(components (bs "/etc/fnox.toml"), sample_config (bs "global") (bs "far") ∅);
   (components (bs "/w/fnox.toml"), sample_config (bs "outer") (bs "middle") {[bs "dev" := sample_profile [bs "base"]]});
   (components (bs "/w/p/fnox.toml"), sample_config (bs "inner") (bs "near") ∅)].
Definition sample_load (path : Path) : result CoreError FnoxConfig :=
  match find (λ f : Path * FnoxConfig, bool_decide (f.1 = path)) sample_files with
  | Some (_, c) => Ok (set_source_paths c path)
  | None => Err (ConfigReadFailed path)
  end.
Definition sample_exists (path : Path) : bool := bool_decide (path ∈ map fst sample_files).
#[local] Instance sample_fnox_core : Fnox := {|
  fx_parse _ := Ok Config_new;
  fx_load := sample_load;
  fx_load_import path dir := sample_load (path_join dir (components path));
  fx_all_config_filenames _ := [bs "fnox.toml"];
  fx_write_profile _ := bs "default";
  fx_no_defaults := false;
  fx_valid_profile p := bool_decide (p ≠ []);
  fx_profiles := [bs "dev"];
  fx_resolve_profiles _ _ := Ok ();
  fx_global_config_path := components (bs "/etc/fnox.toml");
|}.
#[local] Instance sample_fnox_laws : FnoxLaws.
Proof.
  assert (∀ path c, sample_load path = Ok c → sourced c) as Hs.
  { intros path c. unfold sample_load. destruct (find _ _) as [[p c0]|] eqn:Ef; [|done]. intros [= <-]. apply set_source_paths_sourced.
    apply find_some in Ef as [Hin _]. repeat (destruct Hin as [[= <- <-]|Hin]; [split; simpl; [by intros k|]|]); [..|done].
    all: try by intros p' pf'. intros p' pf' [<- <-]%lookup_singleton_Some. by intros k. }
  split; [|apply Hs|intros ???; apply Hs]. intros text c [= <-]. by split.
Qed.
Definition sample_dir : Path := components (bs "/w/p").

Definition sample_run (stack : list bytes) : result CoreError (FnoxConfig * bool) :=
  load_stack sample_exists (λ _, None) None sample_dir stack true.
Definition sample_loaded : FnoxConfig := match sample_run [] with Ok (c, _) => c | Err _ => Config_new end.
Lemma sample_loaded_eq stack : sample_run stack = Ok (sample_loaded, true).
Proof. exact (@eq_refl (result CoreError (FnoxConfig * bool)) (Ok (sample_loaded, true)) <: (sample_run [] = Ok (sample_loaded, true))). Qed.

Lemma discovered_exact_witness :
  ∃ ls, layers sample_exists (λ _, None) None sample_dir [bs "dev"] true = Ok ls ∧ nearest_wins sample_loaded ls ∧
    se_rest <$> lc_secrets sample_loaded !! bs "TOKEN" = Some (bs "inner").
Proof.
  destruct (discovered_exact sample_exists (λ _, None) None sample_dir [bs "dev"] true) as [_ Hw].
  destruct (Hw _ _ (sample_loaded_eq [bs "dev"])) as (ls & Hls & Hn). exists ls. split; [exact Hls|]. split; [exact Hn|].
  vm_compute. reflexivity.
Defined.

Lemma sample_inherits p q : q ∈ inherits_of sample_loaded p → q = bs "base".
Proof.
  unfold inherits_of. assert (lc_profiles sample_loaded = {[bs "dev" := default ProfileConfig_default (lc_profiles sample_loaded !! bs "dev")]}) as ->
    by vm_cast_no_check (@eq_refl _ (lc_profiles sample_loaded)).
  destruct (decide (p = bs "dev")) as [->|Hne].
  - rewrite lookup_singleton_eq. assert (default [] (pf_inherits (default ProfileConfig_default (lc_profiles sample_loaded !! bs "dev"))) = [bs "base"]) as -> by (vm_compute; reflexivity). by intros ->%list_elem_of_singleton.
  - rewrite lookup_singleton_ne by done. by intros ?%not_elem_of_nil.
Qed.
Lemma discovery_settles_witness :
  ∃ r, load_with_recursion sample_exists (λ _, None) None (Ok sample_dir) 4 true = Some r ∧
    match r with Ok c => settled sample_exists (λ _, None) None sample_dir true c | Err _ => True end ∧
    is_ok r = true ∧ resolve_profiles_for_discovery sample_loaded [bs "dev"] = Some (Ok [bs "base"; bs "dev"]).
Proof.
  destruct (discovery_settles sample_exists (λ _, None) None sample_dir true {[bs "dev"; bs "base"]}) as (r & Hr & Hs).
  - intros stack stack' c c' f f' Hl Hl' _ p _. change (sample_run stack = Ok (c, f)) in Hl. change (sample_run stack' = Ok (c', f')) in Hl'.
    rewrite sample_loaded_eq in Hl, Hl'. congruence.
  - intros stack c f Hl p q Hq. change (sample_run stack = Ok (c, f)) in Hl. rewrite sample_loaded_eq in Hl.
    assert (c = sample_loaded) as -> by congruence. apply sample_inherits in Hq as ->. set_solver.
  - set_solver.
  - exists r. split; [exact Hr|]. split; [exact Hs|]. split; [|vm_compute; reflexivity].
    assert (is_ok <$> load_with_recursion sample_exists (λ _, None) None (Ok sample_dir) 4 true = Some true) as Hok by (vm_compute; reflexivity).
    change (load_with_recursion sample_exists (λ _, None) None (Ok sample_dir) 4 true = Some r) in Hr. rewrite Hr in Hok. by injection Hok.
Defined.

Lemma discovered_sourced_witness :
  sourced sample_loaded ∧ lc_secret_sources sample_loaded !! bs "TOKEN" = Some (components (bs "/w/p/fnox.toml")).
Proof.
  split; [|vm_compute; reflexivity].
  exact (discovered_sourced sample_exists (λ _, None) None sample_dir [] true sample_loaded true (sample_loaded_eq [])).
Defined.

(** The default provider a project names is not the one its configuration
    ends up with: the global file's name stays, with the project's source. *)
Example default_provider_farthest :
  (λ r : FnoxConfig * bool, (lc_default_provider r.1, lc_default_provider_source r.1)) <$>
    load_stack sample_exists (λ _, None) None sample_dir [] true =
  Ok (Some (bs "far"), Some (components (bs "/w/p/fnox.toml"))).
Proof. vm_compute. reflexivity. Qed.
