(* ===== verification/Tproxy.v ===== *)
(** * Transparent capture by netfilter

    [crates/hodor-tproxy/src/]: the ruleset of [nft.rs] as the messages that
    install it, the routing rule of [route.rs], and the run of [tproxy.rs] from
    its refusal to its guards. The messages are those of the netlink crates,
    with the variants this code uses; how the kernel evaluates expressions, and
    what it answers, are parameters. The machine is little-endian. *)

From S2P Require Import Prelude Paths.

(** ** The ruleset *)

(** The vocabulary of [netlink_packet_netfilter::nftables]. *)
Inductive MetaKey := KeyL4Proto | KeyOifname | KeyMark.
Inductive Operator := OpEqual | OpNotEqual.
Inductive Register := Reg1 | RegVerdict.
Inductive Data := DataValue (value : bytes) | DataVerdict (code : N).
Inductive Expressions :=
| EMetaLoad (key : MetaKey) (dreg : Register)
| EMetaStore (sreg : Register) (key : MetaKey)
| ECmp (sreg : Register) (op : Operator) (data : bytes)
| EImmediate (dreg : Register) (data : Data)
| EPayload (base offset len : N) (dreg : Register)
| EOther (expression_type : bytes) (attributes : list (N * bytes)).
Inductive HookNumber := LocalOut | PreRouting.
Inductive NfTablesMessage :=
| NewTable (name : bytes)
| NewChain (table name : bytes) (hook : HookNumber) (priority : N) (type : bytes)
| NewRule (table chain : bytes) (expressions : list Expressions)
| DeleteTable (name : bytes).
Record NlMessage := { nl_flags : N; nl_inner : NfTablesMessage }.

Definition NLM_F_REQUEST : N := 1.
Definition NLM_F_ACK : N := 4.
Definition NLM_F_EXCL : N := 512.
Definition NLM_F_CREATE : N := 1024.

Definition SUBSYS_NFTABLES : N := 10.
Definition PAYLOAD_BASE_NETWORK : N := 1.
Definition PAYLOAD_BASE_TRANSPORT : N := 2.
Definition IPV4_OFFSET_DADDR : N := 16.
Definition UDP_OFFSET_DPORT : N := 2.
(** [(-150i32).cast_unsigned()]. *)
Definition PRIORITY_MANGLE : N := Z.to_N (-150 mod 2 ^ 32)%Z.
Definition IPPROTO_TCP : N := 6.
Definition IPPROTO_UDP : N := 17.
Definition NFTA_TPROXY_FAMILY : N := 1.
Definition NFTA_TPROXY_PORT : N := 3.
Definition NF_DROP : N := 0.

Definition u32_bytes (value : N) : bytes := rev (be32 value).
Definition port_bytes (port : N) : bytes := be16 port ++ [Byte.x00; Byte.x00].
(** [bytes.resize(16, 0)]. *)
Definition ifname_bytes (name : bytes) : bytes := take 16 (name ++ replicate 16 Byte.x00).

Definition meta_load (key : MetaKey) : Expressions := EMetaLoad key Reg1.
Definition meta_store (key : MetaKey) : Expressions := EMetaStore Reg1 key.
Definition cmp (op : Operator) (data : bytes) : Expressions := ECmp Reg1 op data.
Definition cmp_eq (data : bytes) : Expressions := cmp OpEqual data.
Definition cmp_ne (data : bytes) : Expressions := cmp OpNotEqual data.
Definition imm_u32 (value : N) : Expressions := EImmediate Reg1 (DataValue (u32_bytes value)).
Definition imm_drop : Expressions := EImmediate RegVerdict (DataVerdict NF_DROP).
Definition tproxy_port_load (port : N) : Expressions := EImmediate Reg1 (DataValue (port_bytes port)).
Definition tproxy_reg_port : Expressions :=
  EOther (bs "tproxy") [(NFTA_TPROXY_FAMILY, be32 0); (NFTA_TPROXY_PORT, be32 1)].

Record CaptureConfig := {
  cc_listen_port : N;
  cc_fwmark : N;
  cc_egress_mark : N;
  cc_scope : option bytes;
  cc_table : bytes;
}.

Definition wrap (inner : NfTablesMessage) : NlMessage :=
  {| nl_flags := N.lor (N.lor NLM_F_REQUEST NLM_F_CREATE) NLM_F_EXCL; nl_inner := inner |}.

Section Capture.
Context (c : CaptureConfig).

Definition teardown_message : NlMessage := wrap (DeleteTable (cc_table c)).
Definition table_message : NlMessage := wrap (NewTable (cc_table c)).
Definition chain_messages : list NlMessage :=
  [wrap (NewChain (cc_table c) (bs "output") LocalOut PRIORITY_MANGLE (bs "route"));
   wrap (NewChain (cc_table c) (bs "prerouting") PreRouting PRIORITY_MANGLE (bs "filter"))].
Definition rule (chain : bytes) (exprs : list Expressions) : NlMessage := wrap (NewRule (cc_table c) chain exprs).

Definition daddr_match : list Expressions :=
  match cc_scope c with
  | None => []
  | Some addr => [EPayload PAYLOAD_BASE_NETWORK IPV4_OFFSET_DADDR 4 Reg1; cmp_eq addr]
  end.
Definition output_mark : list Expressions :=
  daddr_match ++ [meta_load KeyL4Proto; cmp_eq (u32_bytes IPPROTO_TCP)] ++
  (match cc_scope c with None => [meta_load KeyOifname; cmp_ne (ifname_bytes (bs "lo"))] | Some _ => [] end) ++
  [meta_load KeyMark; cmp_ne (u32_bytes (cc_fwmark c)); meta_load KeyMark; cmp_ne (u32_bytes (cc_egress_mark c));
   imm_u32 (cc_fwmark c); meta_store KeyMark].
Definition output_drop : list Expressions :=
  daddr_match ++
  [meta_load KeyL4Proto; cmp_eq (u32_bytes IPPROTO_UDP); EPayload PAYLOAD_BASE_TRANSPORT UDP_OFFSET_DPORT 2 Reg1;
   cmp_eq (port_bytes 443); imm_drop].
Definition prerouting_tproxy : list Expressions :=
  [meta_load KeyMark; cmp_eq (u32_bytes (cc_fwmark c)); meta_load KeyL4Proto; cmp_eq (u32_bytes IPPROTO_TCP);
   tproxy_port_load (cc_listen_port c); tproxy_reg_port; imm_u32 (cc_fwmark c); meta_store KeyMark].
Definition rule_messages : list NlMessage :=
  [rule (bs "output") output_mark; rule (bs "output") output_drop; rule (bs "prerouting") prerouting_tproxy].

Definition install_messages : list NlMessage := table_message :: chain_messages ++ rule_messages.
End Capture.

(** ** Batches *)

(** A message of a batch on the wire: a control message's type, the flags, the
    sequence number and, of its netfilter header, the resource. *)
Record Framed := { fr_control : option N; fr_flags : N; fr_seq : N; fr_res_id : N; fr_body : option NfTablesMessage }.
Definition batch_msg (type flags seq res_id : N) : Framed :=
  {| fr_control := Some type; fr_flags := flags; fr_seq := seq; fr_res_id := res_id; fr_body := None |}.
(** [u32::try_from(n).unwrap_or(u32::MAX)]. *)
Definition seq_of (n : nat) : N := if (N.of_nat n <=? u32_max)%N then N.of_nat n else u32_max.
Definition entry (i : nat) (m : NlMessage) : Framed :=
  {| fr_control := None; fr_flags := nl_flags m; fr_seq := seq_of (i + 1); fr_res_id := 0; fr_body := Some (nl_inner m) |}.
Definition batch (messages : list NlMessage) : list Framed :=
  batch_msg (N.lor (N.shiftl SUBSYS_NFTABLES 8) 16) NLM_F_REQUEST 0 SUBSYS_NFTABLES ::
  imap entry messages ++
  [batch_msg (N.lor (N.shiftl SUBSYS_NFTABLES 8) 17) (N.lor NLM_F_REQUEST NLM_F_ACK) (seq_of (length messages + 1)) SUBSYS_NFTABLES].

(** ** Policy routing *)

Definition FWMARK : N := 136.
Definition EGRESS_MARK : N := 137.
Definition ROUTE_TABLE : N := 100.
Definition NFT_TABLE : bytes := bs "hodor_tproxy".
Definition LISTEN_PORT : N := 15000.
Definition RULE_PREF_CAPTURE : N := 200.

Record RulePlan := { rp_pref : N; rp_fwmark : option N; rp_table : N }.
Inductive Undo := FlushTable (table : N) | DelRulePref (pref : N).
Definition proxy_rules (table : N) : list RulePlan := [{| rp_pref := RULE_PREF_CAPTURE; rp_fwmark := Some FWMARK; rp_table := table |}].
Definition proxy_undos (table : N) : list Undo := [FlushTable table; DelRulePref RULE_PREF_CAPTURE].

(** The messages of [rtnetlink], by the attributes this code sets and reads. *)
Inductive RuleAttribute := RaPriority (pref : N) | RaFwMark (mark : N) | RaTable (table : N) | RaOther (text : bytes).
Abbreviation RuleMessage := (list RuleAttribute).
Inductive RouteAttribute := RtTable (table : N) | RtOif (index : N) | RtLocalHost | RtOther (text : bytes).
Abbreviation RouteMessage := (list RouteAttribute).

Inductive TproxyError :=
| TpStat (path : bytes)
| TpNetlink
| TpLinkGet (name : bytes)
| InterfaceNotFound (name : bytes)
| LocalRouteAdd
| RuleAdd (pref : N)
| RuleList
| RuleDel (pref : N)
| RouteList
| RouteDel
| UnscopedCapture
| TpIo
| SetsockoptTimeout
| TproxyLocalAddr
| TproxyAccept
| TproxyBind
| NftInstallTask
| NftDeserialize
| NftBatchFailed (code : Z)
| UnexpectedNftReply.

(** What comes back of a batch: nothing, for an error of the socket; bytes that
    do not decode; an error message, which acknowledges when it has no code. *)
Inductive NftReply := NrFailed (err : TproxyError) | NrUndecodable | NrError (code : option Z) | NrOther.

(** What the kernel does and answers; an operation says whether it succeeded. *)
Class Kernel (K : Type) := {
  kn_netlink : K → bool;
  kn_link_index : bytes → K → option (option N);
  kn_add_rule : RuleMessage → K → K * bool;
  kn_add_route : RouteMessage → K → K * bool;
  kn_list_rules : K → option (list RuleMessage);
  kn_list_routes : K → option (list RouteMessage);
  kn_del_rule : RuleMessage → K → K * bool;
  kn_del_route : RouteMessage → K → K * bool;
  kn_send : list Framed → K → K * NftReply;
}.

Record Options := {
  op_scope : option bytes;
  op_port : option N;
  op_allow_root_netns : bool;
}.
Definition Options_default : Options := {| op_scope := None; op_port := None; op_allow_root_netns := false |}.

Definition unscoped_capture_refused (has_scope isolated_netns allow_root_netns : bool) : bool :=
  negb has_scope && negb isolated_netns && negb allow_root_netns.

Section Run.
Context `{!Kernel K}.

Definition Op (A : Type) : Type := K → K * result TproxyError A.
#[export] Instance op_ret : MRet Op := λ A a k, (k, Ok a).
#[export] Instance op_bind : MBind Op := λ A B f m k, match m k with (k, Ok a) => f a k | (k, Err e) => (k, Err e) end.
Definition op_lift {A} (r : result TproxyError A) : Op A := λ k, (k, r).
Definition answered (e : TproxyError) (f : K → K * bool) : Op () := λ k, let '(k, ok) := f k in (k, if ok then Ok () else Err e).
(** The guard of a scope is dropped however its body ends. *)
Definition guarded {A} (drop : K → K) (body : Op A) : Op A := λ k, let '(k, r) := body k in (drop k, r).
Fixpoint each {A} (f : A → Op ()) (xs : list A) : Op () :=
  match xs with [] => mret () | x :: xs => _ ← f x; each f xs end.

Definition netlink : Op () := λ k, (k, if kn_netlink k then Ok () else Err TpNetlink).
Definition link_index (name : bytes) : Op N := λ k,
  (k, match kn_link_index name k with
      | None => Err (TpLinkGet name)
      | Some None => Err (InterfaceNotFound name)
      | Some (Some index) => Ok index
      end).

Definition rule_message (plan : RulePlan) : RuleMessage :=
  (match rp_fwmark plan with Some mark => [RaFwMark mark] | None => [] end) ++ [RaTable (rp_table plan); RaPriority (rp_pref plan)].
Definition add_rule (plan : RulePlan) : Op () := answered (RuleAdd (rp_pref plan)) (kn_add_rule (rule_message plan)).
Definition local_route (table lo_index : N) : RouteMessage := [RtLocalHost; RtOif lo_index; RtTable table].
Definition add_local_route (table lo_index : N) : Op () := answered LocalRouteAdd (kn_add_route (local_route table lo_index)).

Definition is_pref (pref : N) (msg : RuleMessage) : bool := existsb (λ attr, match attr with RaPriority p => (p =? pref)%N | _ => false end) msg.
Definition in_table (table : N) (msg : RouteMessage) : bool := existsb (λ attr, match attr with RtTable id => (id =? table)%N | _ => false end) msg.
Definition listed {A} (e : TproxyError) (f : K → option A) : Op A := λ k, (k, ok_or e (f k)).
Definition del_rule_pref (pref : N) : Op () :=
  rules ← listed RuleList kn_list_rules;
  each (λ msg, if is_pref pref msg then answered (RuleDel pref) (kn_del_rule msg) else mret ()) rules.
Definition flush_table (table : N) : Op () :=
  routes ← listed RouteList kn_list_routes;
  each (λ msg, if in_table table msg then answered RouteDel (kn_del_route msg) else mret ()) routes.
Definition apply_undo (undo : Undo) : Op () :=
  match undo with DelRulePref pref => del_rule_pref pref | FlushTable table => flush_table table end.
(** [RouteGuard::drop]: an undo that fails does not stop the others. *)
Definition drop_routes (undos : list Undo) (k : K) : K :=
  if kn_netlink k then foldl (λ k undo, (apply_undo undo k).1) k (rev undos) else k.

Definition send_batch (messages : list NlMessage) : Op () := λ k,
  let '(k, reply) := kn_send (batch messages) k in
  (k, match reply with
      | NrFailed e => Err e
      | NrUndecodable => Err NftDeserialize
      | NrError None => Ok ()
      | NrError (Some code) => Err (NftBatchFailed code)
      | NrOther => Err UnexpectedNftReply
      end).
(** [NftGuard::drop]. *)
Definition drop_nft (c : CaptureConfig) (k : K) : K := (send_batch [teardown_message c] k).1.

(** The namespaces' inodes, when they can be read, and the container's mark. *)
Context (self_ns init_ns : option N) (in_container : bool).
(** The port a listener is bound to; and how the accept loop ends: by an error,
    or with its task. *)
Context (listen : N → result TproxyError N) (accept : result TproxyError ()).

Definition netns_inode (path : bytes) (inode : option N) : result TproxyError N := ok_or (TpStat path) inode.
Definition netns_isolated : result TproxyError bool :=
  own ← netns_inode (bs "/proc/self/ns/net") self_ns;
  init ← netns_inode (bs "/proc/1/ns/net") init_ns;
  mret (negb (own =? init)%N || in_container).
Definition assert_unscoped_capture_allowed (options : Options) : result TproxyError () :=
  if op_allow_root_netns options then mret ()
  else
    isolated ← netns_isolated;
    if unscoped_capture_refused (bool_of_opt (op_scope options)) isolated false then Err UnscopedCapture else mret ().

Definition capture_config (options : Options) (listen_port : N) : CaptureConfig :=
  {| cc_listen_port := listen_port; cc_fwmark := FWMARK; cc_egress_mark := EGRESS_MARK; cc_scope := op_scope options; cc_table := NFT_TABLE |}.
(** From the deletion of a table left behind, whose failure is ignored. *)
Definition delete_stale (capture : CaptureConfig) : Op () := λ k, ((send_batch [teardown_message capture] k).1, Ok ()).
Definition capturing (capture : CaptureConfig) : Op () :=
  _ ← delete_stale capture;
  _ ← send_batch (install_messages capture);
  guarded (drop_nft capture) (op_lift accept).
Definition run_tproxy_with (options : Options) : Op () :=
  _ ← op_lift (assert_unscoped_capture_allowed options);
  listen_port ← op_lift (listen (default LISTEN_PORT (op_port options)));
  _ ← netlink;
  lo ← link_index (bs "lo");
  _ ← each add_rule (proxy_rules ROUTE_TABLE);
  _ ← add_local_route ROUTE_TABLE lo;
  guarded (drop_routes (proxy_undos ROUTE_TABLE)) (capturing (capture_config options listen_port)).
Definition run_tproxy (allow_root_netns : bool) : Op () :=
  run_tproxy_with {| op_scope := None; op_port := None; op_allow_root_netns := allow_root_netns |}.

End Run.

(** ** What the rules do to a packet *)

(** What an expression can read of a packet, and where it is to be delivered. *)
Record Packet := {
  pk_l4proto : N;
  pk_oifname : bytes;
  pk_mark : N;
  pk_network : bytes;
  pk_transport : bytes;
  pk_tproxy : option N;
}.
Definition with_mark (mark : N) (p : Packet) : Packet :=
  {| pk_l4proto := pk_l4proto p; pk_oifname := pk_oifname p; pk_mark := mark; pk_network := pk_network p; pk_transport := pk_transport p; pk_tproxy := pk_tproxy p |}.
Definition with_tproxy (port : N) (p : Packet) : Packet :=
  {| pk_l4proto := pk_l4proto p; pk_oifname := pk_oifname p; pk_mark := pk_mark p; pk_network := pk_network p; pk_transport := pk_transport p; pk_tproxy := Some port |}.

(** An expression goes on with the packet and the register, ends its rule, or
    gives a verdict. *)
Inductive Step := Continue (p : Packet) (reg : bytes) | Break | Verdict (code : N).
(** The kernel's evaluation of one expression; [nf_listening] says whether a
    transparent socket listens on a port. *)
Class Nftables := {
  nf_step : Expressions → Packet → bytes → Step;
  nf_listening : N → bool;
}.

Definition meta_value (key : MetaKey) (p : Packet) : bytes :=
  match key with
  | KeyL4Proto => u32_bytes (pk_l4proto p)
  | KeyOifname => ifname_bytes (pk_oifname p)
  | KeyMark => u32_bytes (pk_mark p)
  end.
(** A header's bytes fill whole words of the register. *)
Definition word_padded (data : bytes) : bytes := data ++ replicate ((4 - length data mod 4) mod 4) Byte.x00.
Definition header (base : N) (p : Packet) : bytes := if (base =? PAYLOAD_BASE_NETWORK)%N then pk_network p else pk_transport p.

(** The documented behaviour of the expressions the ruleset uses. *)
Class NftablesLaws `{!Nftables} : Prop := {
  nf_meta_load key p reg : nf_step (EMetaLoad key Reg1) p reg = Continue p (meta_value key p);
  nf_mark_store p reg : nf_step (EMetaStore Reg1 KeyMark) p reg = Continue (with_mark (of_be (rev (take 4 reg))) p) reg;
  nf_cmp op data p reg :
    nf_step (ECmp Reg1 op data) p reg =
      if match op with OpEqual => bool_decide (take (length data) reg = data) | OpNotEqual => bool_decide (take (length data) reg ≠ data) end
      then Continue p reg else Break;
  nf_immediate value p reg : nf_step (EImmediate Reg1 (DataValue value)) p reg = Continue p value;
  nf_verdict code p reg : nf_step (EImmediate RegVerdict (DataVerdict code)) p reg = Verdict code;
  nf_payload base offset len p reg :
    nf_step (EPayload base offset len Reg1) p reg =
      let data := take (N.to_nat len) (drop (N.to_nat offset) (header base p)) in
      if bool_decide (N.of_nat (length data) = len) then Continue p (word_padded data) else Break;
  nf_tproxy p reg :
    nf_step tproxy_reg_port p reg =
      if nf_listening (of_be (take 2 reg)) then Continue (with_tproxy (of_be (take 2 reg)) p) reg else Break;
}.

Section Evaluation.
Context `{!Nftables}.

Inductive RuleEnd := RuleDone (p : Packet) | RuleVerdict (p : Packet) (code : N).
Fixpoint eval_rule (exprs : list Expressions) (p : Packet) (reg : bytes) : RuleEnd :=
  match exprs with
  | [] => RuleDone p
  | e :: exprs =>
      match nf_step e p reg with
      | Continue p reg => eval_rule exprs p reg
      | Break => RuleDone p
      | Verdict code => RuleVerdict p code
      end
  end.
(** A chain's rules in order, accepting at the end; [None] is a drop. *)
Fixpoint eval_chain (rules : list (list Expressions)) (p : Packet) : option Packet :=
  match rules with
  | [] => Some p
  | exprs :: rules =>
      match eval_rule exprs p [] with
      | RuleDone p => eval_chain rules p
      | RuleVerdict p code => if (code =? NF_DROP)%N then None else Some p
      end
  end.
(** The rules that a batch puts in a chain. *)
Definition rules_of (table chain : bytes) (messages : list NlMessage) : list (list Expressions) :=
  omap (λ m, match nl_inner m with
             | NewRule t c exprs => if bool_decide (t = table ∧ c = chain) then Some exprs else None
             | _ => None
             end) messages.
Definition eval_hook (c : CaptureConfig) (chain : bytes) (p : Packet) : option Packet :=
  eval_chain (rules_of (cc_table c) chain (install_messages c)) p.
End Evaluation.

(** ** What they should do *)

Definition in_scope (c : CaptureConfig) (p : Packet) : bool :=
  match cc_scope c with None => true | Some addr => bool_decide (take 4 (drop 16 (pk_network p)) = addr) end.
Definition is_quic (p : Packet) : bool := (pk_l4proto p =? IPPROTO_UDP)%N && bool_decide (take 2 (drop 2 (pk_transport p)) = be16 443).
Definition captured (c : CaptureConfig) (p : Packet) : bool :=
  in_scope c p && (pk_l4proto p =? IPPROTO_TCP)%N &&
  (bool_of_opt (cc_scope c) || bool_decide (pk_oifname p ≠ bs "lo")) &&
  negb (pk_mark p =? cc_fwmark c)%N && negb (pk_mark p =? cc_egress_mark c)%N.
Definition output_spec (c : CaptureConfig) (p : Packet) : option Packet :=
  if in_scope c p && is_quic p then None else Some (if captured c p then with_mark (cc_fwmark c) p else p).
Definition prerouting_spec `{!Nftables} (c : CaptureConfig) (p : Packet) : Packet :=
  if (pk_mark p =? cc_fwmark c)%N && (pk_l4proto p =? IPPROTO_TCP)%N && nf_listening (cc_listen_port c)
  then with_tproxy (cc_listen_port c) p else p.

(** A packet whose fields have their widths, with a whole address and name. *)
Record packet_ok (p : Packet) : Prop := {
  po_proto : (pk_l4proto p < 2 ^ 8)%N;
  po_mark : (pk_mark p < 2 ^ 32)%N;
  po_name : length (pk_oifname p) < 16 ∧ Byte.x00 ∉ pk_oifname p;
  po_network : 20 ≤ length (pk_network p);
}.
Record config_ok (c : CaptureConfig) : Prop := {
  co_port : (cc_listen_port c < 65536)%N;
  co_fwmark : (cc_fwmark c < 2 ^ 32)%N;
  co_egress : (cc_egress_mark c < 2 ^ 32)%N;
  co_scope addr : cc_scope c = Some addr → length addr = 4;
}.

Lemma u32_bytes_length n : length (u32_bytes n) = 4.
Proof. unfold u32_bytes. by rewrite length_rev. Qed.
Lemma of_be_u32_bytes n : (n < 2 ^ 32)%N → of_be (rev (take 4 (u32_bytes n))) = n.
Proof. intros Hn. rewrite take_ge by (by rewrite u32_bytes_length). unfold u32_bytes. rewrite rev_involutive. by apply of_be_be32. Qed.
Lemma u32_bytes_inj a b : (a < 2 ^ 32)%N → (b < 2 ^ 32)%N → u32_bytes a = u32_bytes b ↔ a = b.
Proof. intros Ha Hb. split; [|by intros ->]. intros Heq. rewrite <- (of_be_u32_bytes a), <- (of_be_u32_bytes b), Heq by done. done. Qed.
Lemma ifname_bytes_inj a b :
  length a < 16 → length b < 16 → Byte.x00 ∉ a → Byte.x00 ∉ b → ifname_bytes a = ifname_bytes b ↔ a = b.
Proof.
  intros Ha Hb Hna Hnb. split; [|by intros ->]. unfold ifname_bytes. revert b Hb Hnb.
  assert (∀ n a b, length a < n → length b < n → Byte.x00 ∉ a → Byte.x00 ∉ b →
    take n (a ++ replicate 16 Byte.x00) = take n (b ++ replicate 16 Byte.x00) → a = b) as Hgen; [|intros b Hb Hnb; by apply (Hgen 16)].
  clear. induction n as [|n IH]; intros a b Ha Hb Hna Hnb; [lia|].
  destruct a as [|x a], b as [|y b]; simpl in *; [done|..].
  - intros [= <- _]. set_solver.
  - intros [= -> _]. set_solver.
  - intros [= -> Heq]. f_equal. apply IH; [lia|lia|set_solver|set_solver|done].
Qed.

Section Rules.
Context `{!Nftables, !NftablesLaws}.

Lemma eval_meta key p reg exprs : eval_rule (meta_load key :: exprs) p reg = eval_rule exprs p (meta_value key p).
Proof. simpl. unfold meta_load. by rewrite nf_meta_load. Qed.
Lemma eval_cmp_u32 op a b p exprs : (a < 2 ^ 32)%N → (b < 2 ^ 32)%N →
  eval_rule (cmp op (u32_bytes b) :: exprs) p (u32_bytes a) =
    if match op with OpEqual => (a =? b)%N | OpNotEqual => negb (a =? b)%N end then eval_rule exprs p (u32_bytes a) else RuleDone p.
Proof.
  intros Ha Hb. simpl. unfold cmp. rewrite nf_cmp, take_ge by (by rewrite !u32_bytes_length).
  assert (bool_decide (u32_bytes a = u32_bytes b) = (a =? b)%N) as Heq.
  { destruct (N.eqb_spec a b) as [->|Hne]; [by rewrite bool_decide_true|]. rewrite bool_decide_false; [done|]. by rewrite u32_bytes_inj. }
  destruct op; [rewrite Heq|rewrite bool_decide_not, Heq]; by destruct (a =? b)%N.
Qed.
Lemma eval_cmp_name p exprs : length (pk_oifname p) < 16 → Byte.x00 ∉ pk_oifname p →
  eval_rule (cmp_ne (ifname_bytes (bs "lo")) :: exprs) p (ifname_bytes (pk_oifname p)) =
    if bool_decide (pk_oifname p ≠ bs "lo") then eval_rule exprs p (ifname_bytes (pk_oifname p)) else RuleDone p.
Proof.
  intros Hl Hn. simpl. unfold cmp_ne, cmp. rewrite nf_cmp.
  rewrite take_ge by (unfold ifname_bytes; rewrite !length_take, !length_app, !length_replicate; lia).
  rewrite !bool_decide_not. replace (bool_decide (ifname_bytes (pk_oifname p) = ifname_bytes (bs "lo"))) with (bool_decide (pk_oifname p = bs "lo"));
    [by case_bool_decide|].
  apply bool_decide_ext. symmetry. apply ifname_bytes_inj; [done|simpl; lia|done|]. vm_compute. set_solver.
Qed.
Lemma eval_imm value p reg exprs : eval_rule (imm_u32 value :: exprs) p reg = eval_rule exprs p (u32_bytes value).
Proof. simpl. unfold imm_u32. by rewrite nf_immediate. Qed.
Lemma eval_store value p exprs : (value < 2 ^ 32)%N →
  eval_rule (meta_store KeyMark :: exprs) p (u32_bytes value) = eval_rule exprs (with_mark value p) (u32_bytes value).
Proof. intros Hv. simpl. unfold meta_store. by rewrite nf_mark_store, of_be_u32_bytes. Qed.

(** The address match is the scope, whatever follows it. *)
Lemma eval_daddr c p exprs : config_ok c → packet_ok p → (∀ reg, eval_rule exprs p reg = eval_rule exprs p []) →
  eval_rule (daddr_match c ++ exprs) p [] = if in_scope c p then eval_rule exprs p [] else RuleDone p.
Proof.
  intros Hc Hp Hreg. unfold daddr_match, in_scope. destruct (cc_scope c) as [addr|] eqn:Hs; [|done]. apply (co_scope _ Hc) in Hs.
  cbn [app eval_rule]. rewrite nf_payload. cbn beta zeta. unfold header. simpl N.eqb. cbn match.
  change (N.to_nat 4) with 4. change (N.to_nat IPV4_OFFSET_DADDR) with 16.
  assert (length (take 4 (drop 16 (pk_network p))) = 4) as Hl by (pose proof (po_network _ Hp); rewrite length_take, length_drop; lia).
  rewrite (bool_decide_true (N.of_nat _ = _)) by (by rewrite Hl). unfold cmp_eq, cmp. rewrite nf_cmp, Hs.
  assert (take 4 (word_padded (take 4 (drop 16 (pk_network p)))) = take 4 (drop 16 (pk_network p))) as ->.
  { unfold word_padded. rewrite Hl. simpl. by rewrite app_nil_r, take_take. }
  case_bool_decide; [apply Hreg|done].
Qed.
Lemma mark_rule c p : config_ok c → packet_ok p →
  eval_rule (output_mark c) p [] = RuleDone (if captured c p then with_mark (cc_fwmark c) p else p).
Proof.
  intros Hc Hp. pose proof (po_proto _ Hp). pose proof (po_mark _ Hp). destruct (po_name _ Hp). pose proof (co_fwmark _ Hc). pose proof (co_egress _ Hc).
  unfold output_mark. rewrite eval_daddr; [|done|done|].
  2: { intros reg. cbn [app]. by rewrite !eval_meta. }
  unfold captured. destruct (in_scope c p); [|done]. cbn [app andb]. rewrite eval_meta. unfold cmp_eq at 1. cbn [meta_value].
  rewrite eval_cmp_u32 by (unfold IPPROTO_TCP; lia). destruct (pk_l4proto p =? IPPROTO_TCP)%N; [|done]. cbn [andb].
  assert (∀ reg, eval_rule [meta_load KeyMark; cmp_ne (u32_bytes (cc_fwmark c)); meta_load KeyMark; cmp_ne (u32_bytes (cc_egress_mark c));
      imm_u32 (cc_fwmark c); meta_store KeyMark] p reg =
    RuleDone (if negb (pk_mark p =? cc_fwmark c)%N && negb (pk_mark p =? cc_egress_mark c)%N then with_mark (cc_fwmark c) p else p)) as Htail.
  { intros reg. rewrite eval_meta. unfold cmp_ne. cbn [meta_value]. rewrite eval_cmp_u32 by done. destruct (pk_mark p =? cc_fwmark c)%N; [done|]. cbn [negb andb].
    rewrite eval_meta. cbn [meta_value]. rewrite eval_cmp_u32 by done. destruct (pk_mark p =? cc_egress_mark c)%N; [done|]. cbn [negb].
    by rewrite eval_imm, eval_store by done. }
  destruct (cc_scope c); cbn [app bool_of_opt orb andb]; [apply Htail|].
  rewrite eval_meta. cbn [meta_value]. rewrite eval_cmp_name by done. case_bool_decide; [apply Htail|done].
Qed.

Lemma drop_rule c p : config_ok c → packet_ok p →
  eval_rule (output_drop c) p [] = if in_scope c p && is_quic p then RuleVerdict p NF_DROP else RuleDone p.
Proof.
  intros Hc Hp. pose proof (po_proto _ Hp). unfold output_drop. rewrite eval_daddr; [|done|done|].
  2: { intros reg. by rewrite !eval_meta. }
  destruct (in_scope c p); [|done]. cbn [andb]. unfold is_quic. rewrite eval_meta. unfold cmp_eq at 1. cbn [meta_value].
  rewrite eval_cmp_u32 by (unfold IPPROTO_UDP; lia). destruct (pk_l4proto p =? IPPROTO_UDP)%N; [|done]. cbn [andb eval_rule].
  rewrite nf_payload. cbn beta zeta. change (header PAYLOAD_BASE_TRANSPORT p) with (pk_transport p).
  change (N.to_nat 2) with 2. change (N.to_nat UDP_OFFSET_DPORT) with 2. set (data := take 2 (drop 2 (pk_transport p))).
  assert (length data ≤ 2) by (unfold data; rewrite length_take; lia).
  case_bool_decide as Hl.
  - assert (length data = 2) as Hl2 by lia. unfold cmp_eq, cmp, imm_drop. rewrite nf_cmp. unfold word_padded. rewrite Hl2. simpl replicate.
    assert (take (length (port_bytes 443)) (data ++ [Byte.x00; Byte.x00]) = port_bytes 443 ↔ data = be16 443) as Hiff.
    { unfold port_bytes. rewrite take_ge by (rewrite length_app, Hl2; simpl; lia). split; [|by intros ->]. apply app_inv_tail. }
    rewrite (bool_decide_ext _ _ Hiff). case_bool_decide; [|done]. by rewrite nf_verdict.
  - rewrite bool_decide_false; [done|]. intros Heq. apply Hl. by rewrite Heq.
Qed.

Lemma tproxy_rule c p : config_ok c → packet_ok p →
  eval_rule (prerouting_tproxy c) p [] = RuleDone (prerouting_spec c p).
Proof.
  intros Hc Hp. pose proof (po_proto _ Hp). pose proof (po_mark _ Hp). pose proof (co_fwmark _ Hc).
  unfold prerouting_tproxy, prerouting_spec. rewrite eval_meta. unfold cmp_eq. cbn [meta_value]. rewrite eval_cmp_u32 by done.
  destruct (N.eqb_spec (pk_mark p) (cc_fwmark c)) as [Hm|]; [|done]. cbn [andb]. rewrite eval_meta. cbn [meta_value].
  rewrite eval_cmp_u32 by (unfold IPPROTO_TCP; lia). destruct (pk_l4proto p =? IPPROTO_TCP)%N; [|done]. cbn [andb eval_rule].
  unfold tproxy_port_load. rewrite nf_immediate, nf_tproxy.
  assert (of_be (take 2 (port_bytes (cc_listen_port c))) = cc_listen_port c) as -> by (change (take 2 (port_bytes (cc_listen_port c))) with (be16 (cc_listen_port c)); apply of_be_be16, (co_port _ Hc)).
  destruct (nf_listening (cc_listen_port c)); [|done].
  change (eval_rule [imm_u32 (cc_fwmark c); meta_store KeyMark] (with_tproxy (cc_listen_port c) p) (port_bytes (cc_listen_port c)) = RuleDone (with_tproxy (cc_listen_port c) p)).
  rewrite eval_imm, eval_store by done. simpl. f_equal. unfold with_mark, with_tproxy; simpl. by rewrite <- Hm.
Qed.

Lemma rules_of_install c :
  rules_of (cc_table c) (bs "output") (install_messages c) = [output_mark c; output_drop c] ∧
  rules_of (cc_table c) (bs "prerouting") (install_messages c) = [prerouting_tproxy c].
Proof. unfold rules_of. simpl. split; repeat case_bool_decide; naive_solver. Qed.

Lemma output_exact c p : config_ok c → packet_ok p → eval_hook c (bs "output") p = output_spec c p.
Proof.
  intros Hc Hp. unfold eval_hook. destruct (rules_of_install c) as [-> _]. cbn [eval_chain]. rewrite mark_rule by done.
  assert (packet_ok (if captured c p then with_mark (cc_fwmark c) p else p)) as Hp'.
  { destruct Hp, Hc. by destruct (captured c p). }
  rewrite drop_rule by done. unfold output_spec.
  assert (in_scope c (if captured c p then with_mark (cc_fwmark c) p else p) && is_quic (if captured c p then with_mark (cc_fwmark c) p else p) =
    in_scope c p && is_quic p) as -> by (by destruct (captured c p)).
  by destruct (in_scope c p && is_quic p).
Qed.

(** C12: The installed ruleset captures exactly the TCP packets it means to. An
    outgoing packet is dropped when it is QUIC and in scope, and otherwise goes
    on, marked for capture when it is TCP, in scope, not delivered through the
    loopback and not marked for capture or for hodor's own egress already; a
    marked TCP packet is handed to the listener's port, any other is not. *)
Theorem capture_exact c p :
  config_ok c → packet_ok p →
  eval_hook c (bs "output") p = output_spec c p ∧ eval_hook c (bs "prerouting") p = Some (prerouting_spec c p).
Proof.
  intros Hc Hp. split; [by apply output_exact|]. unfold eval_hook. destruct (rules_of_install c) as [_ ->]. cbn [eval_chain].
  by rewrite tproxy_rule.
Qed.
End Rules.

(** ** What a run leaves behind *)

#[export] Instance reply_none_dec (r : NftReply) : Decision (r = NrError None).
Proof. destruct r as [| |[]|]; first [by left|by right]. Defined.

(** What is installed, and the documented behaviour of the kernel: an operation
    that fails changes nothing, what is listed is what is installed, a batch is
    atomic, a table is created only when absent and deleted with its content. *)
Class KernelSpec (K : Type) `{!Kernel K} := {
  kv_rules : K → list RuleMessage;
  kv_routes : K → list RouteMessage;
  kv_tables : K → gset bytes;
  kv_rule : RuleMessage → RuleMessage;
  kv_route : RouteMessage → RouteMessage;
  kv_rule_pref pref m : is_pref pref (kv_rule m) = is_pref pref m;
  kv_route_table table m : in_table table (kv_route m) = in_table table m;
  kv_listed_rules k l : kn_list_rules k = Some l → l = kv_rules k;
  kv_listed_routes k l : kn_list_routes k = Some l → l = kv_routes k;
  kv_add_rule m k : let '(k', ok) := kn_add_rule m k in
    kv_routes k' = kv_routes k ∧ kv_tables k' = kv_tables k ∧
    if ok then ∀ r, r ∈ kv_rules k' ↔ r = kv_rule m ∨ r ∈ kv_rules k else kv_rules k' = kv_rules k;
  kv_add_route m k : let '(k', ok) := kn_add_route m k in
    kv_rules k' = kv_rules k ∧ kv_tables k' = kv_tables k ∧
    if ok then (∀ r, r ∈ kv_routes k' → r = kv_route m ∨ r ∈ kv_routes k) ∧
               (∀ r table, in_table table m = true → in_table table r = false → r ∈ kv_routes k → r ∈ kv_routes k')
    else kv_routes k' = kv_routes k;
  kv_del_rule m k : let '(k', ok) := kn_del_rule m k in
    kv_routes k' = kv_routes k ∧ kv_tables k' = kv_tables k ∧
    if ok then kv_rules k ≡ₚ m :: kv_rules k' else kv_rules k' = kv_rules k;
  kv_del_route m k : let '(k', ok) := kn_del_route m k in
    kv_rules k' = kv_rules k ∧ kv_tables k' = kv_tables k ∧
    if ok then kv_routes k ≡ₚ m :: kv_routes k' else kv_routes k' = kv_routes k;
  kv_send b k : let '(k', _) := kn_send b k in kv_rules k' = kv_rules k ∧ kv_routes k' = kv_routes k;
  kv_send_delete table k : let '(k', reply) := kn_send (batch [wrap (DeleteTable table)]) k in
    kv_tables k' = if bool_decide (reply = NrError None) then kv_tables k ∖ {[table]} else kv_tables k;
  kv_send_install c k : let '(k', reply) := kn_send (batch (install_messages c)) k in
    if bool_decide (reply = NrError None) then cc_table c ∉ kv_tables k ∧ kv_tables k' = {[cc_table c]} ∪ kv_tables k
    else kv_tables k' = kv_tables k;
}.
(** A kernel that lists what is installed and deletes what it lists. *)
Class Cooperative (K : Type) `{KernelSpec K} : Prop := {
  co_netlink k : kn_netlink k = true;
  co_list_rules k : is_Some (kn_list_rules k);
  co_list_routes k : is_Some (kn_list_routes k);
  co_del_rule m k k' : m ∈ kv_rules k → kn_del_rule m k = (k', false) → False;
  co_del_route m k k' : m ∈ kv_routes k → kn_del_route m k = (k', false) → False;
}.
(** A table that exists can be deleted, one that does not can be created. *)
Class Tables (K : Type) `{KernelSpec K} : Prop := {
  ta_delete table k k' reply : table ∈ kv_tables k → kn_send (batch [wrap (DeleteTable table)]) k = (k', reply) → reply = NrError None;
  ta_create c k k' reply : cc_table c ∉ kv_tables k → kn_send (batch (install_messages c)) k = (k', reply) → reply = NrError None;
}.


Section Leaves.
Context `{KernelSpec K, !Cooperative K, !Tables K}.

(** Nothing of a run is left: its rules, its table of routes, its ruleset. *)
Record cleaned (k k' : K) : Prop := {
  cl_rules r : r ∈ kv_rules k' ↔ r ∈ kv_rules k ∧ is_pref RULE_PREF_CAPTURE r = false;
  cl_routes r : r ∈ kv_routes k' ↔ r ∈ kv_routes k ∧ in_table ROUTE_TABLE r = false;
  cl_tables : kv_tables k' = kv_tables k ∖ {[NFT_TABLE]};
}.

(** Deleting the listed messages that match leaves the others. *)
Lemma each_deletes {M} (view : K → list M) (matches : M → bool) (e : TproxyError) (del : M → K → K * bool) (rest : K → K → Prop) :
  (∀ k, rest k k) → (∀ k1 k2 k3, rest k1 k2 → rest k2 k3 → rest k1 k3) →
  (∀ m k, m ∈ view k → ∃ k', del m k = (k', true) ∧ view k ≡ₚ m :: view k' ∧ rest k k') →
  ∀ l kept k, view k ≡ₚ l ++ kept → Forall (λ m, matches m = false) kept →
  let k' := (each (λ m, if matches m then answered e (del m) else (λ k, (k, Ok ()))) l k).1 in
  view k' ≡ₚ filter (λ m, matches m = false) l ++ kept ∧ rest k k'.
Proof.
  intros Hrefl Htrans Hdel. induction l as [|m l IH]; intros kept k Hview Hkept; cbn zeta; [by split|].
  cbn [each]. unfold mbind, op_bind. destruct (matches m) eqn:Hm.
  - destruct (Hdel m k) as (k1 & Hk & Hperm & Hrest); [rewrite Hview; left|].
    assert (answered e (del m) k = (k1, Ok ())) as -> by (unfold answered; by rewrite Hk).
    rewrite filter_cons_False by (by rewrite Hm).
    destruct (IH kept k1) as [Hv Hr]; [|done|].
    + rewrite Hperm in Hview. simpl in Hview. by apply Permutation_cons_inv in Hview.
    + split; [exact Hv|eapply Htrans; [exact Hrest|exact Hr]].
  - rewrite filter_cons_True by done. destruct (IH (kept ++ [m]) k) as [Hv Hr].
    + rewrite Hview. simpl. rewrite app_assoc. by rewrite <- Permutation_cons_append.
    + apply Forall_app. split; [done|]. by constructor.
    + split; [|done]. rewrite Hv. simpl. rewrite app_assoc. by rewrite <- Permutation_cons_append.
Qed.

Lemma del_rule_pref_leaves pref k : let k' := (del_rule_pref pref k).1 in
  (∀ r, r ∈ kv_rules k' ↔ r ∈ kv_rules k ∧ is_pref pref r = false) ∧ kv_routes k' = kv_routes k ∧ kv_tables k' = kv_tables k.
Proof.
  unfold del_rule_pref, mbind, op_bind, listed. destruct (co_list_rules k) as [l Hl]. rewrite Hl. simpl. apply kv_listed_rules in Hl as ->.
  destruct (each_deletes kv_rules (is_pref pref) (RuleDel pref) kn_del_rule (λ k k', kv_routes k' = kv_routes k ∧ kv_tables k' = kv_tables k))
    with (l := kv_rules k) (kept := @nil RuleMessage) (k := k) as [Hv Hr]; [done|naive_solver congruence| |by rewrite app_nil_r|done|].
  { intros m k1 Hm. pose proof (kv_del_rule m k1) as Hd. destruct (kn_del_rule m k1) as [k2 []] eqn:Ed; [|by apply co_del_rule in Ed].
    destruct Hd as (? & ? & ?). by exists k2. }
  split; [|done]. intros r. rewrite app_nil_r in Hv. rewrite Hv, list_elem_of_filter. tauto.
Qed.
Lemma flush_table_leaves table k : let k' := (flush_table table k).1 in
  (∀ r, r ∈ kv_routes k' ↔ r ∈ kv_routes k ∧ in_table table r = false) ∧ kv_rules k' = kv_rules k ∧ kv_tables k' = kv_tables k.
Proof.
  unfold flush_table, mbind, op_bind, listed. destruct (co_list_routes k) as [l Hl]. rewrite Hl. simpl. apply kv_listed_routes in Hl as ->.
  destruct (each_deletes kv_routes (in_table table) RouteDel kn_del_route (λ k k', kv_rules k' = kv_rules k ∧ kv_tables k' = kv_tables k))
    with (l := kv_routes k) (kept := @nil RouteMessage) (k := k) as [Hv Hr]; [done|naive_solver congruence| |by rewrite app_nil_r|done|].
  { intros m k1 Hm. pose proof (kv_del_route m k1) as Hd. destruct (kn_del_route m k1) as [k2 []] eqn:Ed; [|by apply co_del_route in Ed].
    destruct Hd as (? & ? & ?). by exists k2. }
  split; [|done]. intros r. rewrite app_nil_r in Hv. rewrite Hv, list_elem_of_filter. tauto.
Qed.

Lemma drop_routes_leaves k : let k' := drop_routes (proxy_undos ROUTE_TABLE) k in
  (∀ r, r ∈ kv_rules k' ↔ r ∈ kv_rules k ∧ is_pref RULE_PREF_CAPTURE r = false) ∧
  (∀ r, r ∈ kv_routes k' ↔ r ∈ kv_routes k ∧ in_table ROUTE_TABLE r = false) ∧ kv_tables k' = kv_tables k.
Proof.
  unfold drop_routes. rewrite co_netlink. simpl.
  pose proof (del_rule_pref_leaves RULE_PREF_CAPTURE k) as (H1 & H2 & H3). set (k1 := (del_rule_pref RULE_PREF_CAPTURE k).1) in *.
  pose proof (flush_table_leaves ROUTE_TABLE k1) as (H4 & H5 & H6). simpl in *. rewrite H5, H6, H3. split; [done|]. split; [|done].
  intros r. by rewrite H4, H2.
Qed.
Lemma send_delete_leaves c k : let k' := (send_batch [teardown_message c] k).1 in
  kv_rules k' = kv_rules k ∧ kv_routes k' = kv_routes k ∧ kv_tables k' = kv_tables k ∖ {[cc_table c]}.
Proof.
  unfold send_batch, teardown_message. pose proof (kv_send (batch [wrap (DeleteTable (cc_table c))]) k) as Hs.
  pose proof (kv_send_delete (cc_table c) k) as Hd. pose proof (ta_delete (cc_table c) k) as Hdel.
  destruct (kn_send (batch [wrap (DeleteTable (cc_table c))]) k) as [k' reply]. simpl. destruct Hs as [-> ->]. split; [done|]. split; [done|].
  rewrite Hd. case_bool_decide as Hr; [done|]. assert (cc_table c ∉ kv_tables k); [|set_solver].
  intros Hin. apply Hr. by eapply Hdel.
Qed.

(** The run once its routes are in place. *)
Lemma capturing_leaves (capture : CaptureConfig) (accept : result TproxyError ()) k :
  let '(k', r) := capturing accept capture k in
  r = accept ∧ kv_rules k' = kv_rules k ∧ kv_routes k' = kv_routes k ∧ kv_tables k' = kv_tables k ∖ {[cc_table capture]}.
Proof.
  unfold capturing, delete_stale, mbind, op_bind. pose proof (send_delete_leaves capture k) as (H1 & H2 & H3).
  set (k1 := (send_batch [teardown_message capture] k).1) in *. cbn zeta in *. unfold send_batch.
  pose proof (kv_send (batch (install_messages capture)) k1) as Hs. pose proof (kv_send_install capture k1) as Hi.
  pose proof (ta_create capture k1) as Hc. destruct (kn_send (batch (install_messages capture)) k1) as [k2 reply].
  rewrite (Hc k2 reply) in * by (done || (rewrite H3; set_solver)). rewrite bool_decide_true in Hi by done. destruct Hs as [Hs1 Hs2], Hi as [_ Hi].
  unfold guarded, op_lift, drop_nft. pose proof (send_delete_leaves capture k2) as (H4 & H5 & H6). cbn zeta in *.
  split; [done|]. rewrite H4, H5, H6, Hi, H3, Hs1, Hs2, H1, H2. split; [done|]. split; [done|]. set_solver.
Qed.

(** C18: What a run of the capture that is not killed leaves in a kernel that
    opens its netlink socket, lists what is installed, deletes what it lists and
    what exists, and creates a ruleset that does not. A run that is refused, or
    fails before anything is installed, leaves it as it was; one whose local
    route is not accepted leaves its routing rule; any other, however its accept
    loop ends and whatever an earlier run left behind, leaves no rule of its
    priority, nothing in its routing table and no ruleset of its name, and
    everything else as it was. Under a kernel that refuses a teardown nothing is
    claimed: the code only reports it. *)
Theorem run_leaves self_ns init_ns in_container listen accept options k :
  let '(k', r) := run_tproxy_with self_ns init_ns in_container listen accept options k in
  (∃ e, r = Err e ∧ kv_rules k' = kv_rules k ∧ kv_routes k' = kv_routes k ∧ kv_tables k' = kv_tables k) ∨
  (r = Err LocalRouteAdd ∧ kv_routes k' = kv_routes k ∧ kv_tables k' = kv_tables k ∧
    ∀ m, m ∈ kv_rules k' ↔ m ∈ map (λ plan, kv_rule (rule_message plan)) (proxy_rules ROUTE_TABLE) ∨ m ∈ kv_rules k) ∨
  (r = accept ∧ assert_unscoped_capture_allowed self_ns init_ns in_container options = Ok () ∧ cleaned k k').
Proof.
  unfold run_tproxy_with, mbind, op_bind, op_lift.
  destruct (assert_unscoped_capture_allowed _ _ _ _) as [[]|e]; [|left; by exists e].
  destruct (listen _) as [port|e]; [|left; by exists e]. unfold netlink. rewrite co_netlink.
  unfold link_index. destruct (kn_link_index _ k) as [[lo|]|]; [|left; by eexists|left; by eexists].
  cbn [each proxy_rules]. unfold mbind, op_bind, add_rule, answered.
  pose proof (kv_add_rule (rule_message {| rp_pref := RULE_PREF_CAPTURE; rp_fwmark := Some FWMARK; rp_table := ROUTE_TABLE |}) k) as Hadd.
  cbn [rp_pref]. destruct (kn_add_rule _ k) as [k1 ok1]. destruct Hadd as (Hr1 & Ht1 & Hadd). destruct ok1; [|left; by exists (RuleAdd RULE_PREF_CAPTURE)].
  unfold mret, op_ret, add_local_route, answered. pose proof (kv_add_route (local_route ROUTE_TABLE lo) k1) as Hroute.
  destruct (kn_add_route _ k1) as [k2 ok2]. destruct Hroute as (Hr2 & Ht2 & Hroute). destruct ok2.
  - pose proof (capturing_leaves (capture_config options port) accept k2) as Hcap. unfold guarded.
    destruct (capturing _ _ k2) as [k3 r]. destruct Hcap as (-> & Hr3 & Ho3 & Ht3). pose proof (drop_routes_leaves k3) as (Hrules & Hroutes & Htables).
    right; right. split; [done|]. split; [done|]. split; [| |by rewrite Htables, Ht3, Ht2, Ht1].
    + intros m. rewrite Hrules, Hr3, Hr2, Hadd. split; [|naive_solver]. intros [[->|Hm] Hp]; [|done]. by rewrite kv_rule_pref in Hp.
    + intros m. rewrite Hroutes, Ho3, <- Hr1. destruct Hroute as [Hsub Hkeep]. split; intros [Hm Ht]; (split; [|done]).
      * destruct (Hsub _ Hm) as [->|]; [by rewrite kv_route_table in Ht|done].
      * by apply (Hkeep m ROUTE_TABLE).
  - right; left. rewrite Hr2, Hroute, Ht2, Ht1, Hr1. repeat (split; [done|]). intros m. rewrite Hadd. simpl. set_solver.
Qed.
End Leaves.

(** ** Witnesses *)

#[local] Instance rule_attribute_eq_dec : EqDecision RuleAttribute. Proof. solve_decision. Defined.
#[local] Instance route_attribute_eq_dec : EqDecision RouteAttribute. Proof. solve_decision. Defined.

(** A kernel that keeps what it is told and does a batch as a whole. *)
Record SampleKernel := { sk_rules : list RuleMessage; sk_routes : list RouteMessage; sk_tables : gset bytes }.
Definition sk_with_tables (t : gset bytes) (k : SampleKernel) : SampleKernel :=
  {| sk_rules := sk_rules k; sk_routes := sk_routes k; sk_tables := t |}.
Definition sk_apply (tables : option (gset bytes)) (f : Framed) : option (gset bytes) :=
  tables ← tables;
  match fr_body f with
  | None => Some tables
  | Some (NewTable t) => if bool_decide (t ∈ tables) then None else Some ({[t]} ∪ tables)
  | Some (DeleteTable t) => if bool_decide (t ∈ tables) then Some (tables ∖ {[t]}) else None
  | Some (NewChain t _ _ _ _) | Some (NewRule t _ _) => if bool_decide (t ∈ tables) then Some tables else None
  end.
Definition sk_send (b : list Framed) (k : SampleKernel) : SampleKernel * NftReply :=
  match foldl sk_apply (Some (sk_tables k)) b with
  | Some tables => (sk_with_tables tables k, NrError None)
  | None => (k, NrError (Some (-2)%Z))
  end.
#[local] Instance sample_kernel : Kernel SampleKernel := {|
  kn_netlink _ := true;
  kn_link_index name _ := Some (if bool_decide (name = bs "lo") then Some 1%N else None);
  kn_add_rule m k := ({| sk_rules := m :: sk_rules k; sk_routes := sk_routes k; sk_tables := sk_tables k |}, true);
  kn_add_route m k := ({| sk_rules := sk_rules k; sk_routes := m :: sk_routes k; sk_tables := sk_tables k |}, true);
  kn_list_rules k := Some (sk_rules k);
  kn_list_routes k := Some (sk_routes k);
  kn_del_rule m k :=
    match list_find (m =.) (sk_rules k) with
    | Some (i, _) => ({| sk_rules := delete i (sk_rules k); sk_routes := sk_routes k; sk_tables := sk_tables k |}, true)
    | None => (k, false)
    end;
  kn_del_route m k :=
    match list_find (m =.) (sk_routes k) with
    | Some (i, _) => ({| sk_rules := sk_rules k; sk_routes := delete i (sk_routes k); sk_tables := sk_tables k |}, true)
    | None => (k, false)
    end;
  kn_send := sk_send;
|}.

Lemma delete_found {A} `{!EqDecision A} (m : A) l i y : list_find (m =.) l = Some (i, y) → l ≡ₚ m :: delete i l.
Proof. intros (Hi & <- & _)%list_find_Some. by apply delete_Permutation. Qed.
Lemma sk_apply_none b : foldl sk_apply None b = None.
Proof. induction b as [|f b IH]; [done|apply IH]. Qed.

#[local] Program Instance sample_kernel_spec : KernelSpec SampleKernel := {|
  kv_rules := sk_rules;
  kv_routes := sk_routes;
  kv_tables := sk_tables;
  kv_rule m := m;
  kv_route m := m;
|}.
Solve All Obligations with try (by intros; simplify_eq/=).
Next Obligation. intros m k. simpl. set_solver. Qed.
Next Obligation. intros m k. simpl. set_solver. Qed.
Next Obligation. intros m k. simpl. destruct (list_find _ _) as [[i y]|] eqn:Ef; [|done]. simpl. split; [done|]. split; [done|]. by eapply delete_found. Qed.
Next Obligation. intros m k. simpl. destruct (list_find _ _) as [[i y]|] eqn:Ef; [|done]. simpl. split; [done|]. split; [done|]. by eapply delete_found. Qed.
Next Obligation. intros b k. simpl. unfold sk_send. by destruct (foldl _ _ _). Qed.
Next Obligation.
  intros table k. simpl. unfold sk_send. cbn. by case_bool_decide.
Qed.
Next Obligation.
  intros c k. simpl. unfold sk_send. cbn. case_bool_decide as Hin; simpl; [done|].
  repeat (rewrite (bool_decide_true (cc_table c ∈ _)) by set_solver; simpl). done.
Qed.
#[local] Instance sample_cooperative : Cooperative SampleKernel.
Proof.
  split; try done; intros m k k' Hin; simpl; destruct (list_find _ _) as [[i y]|] eqn:Ef; try done; intros _.
  all: apply list_find_None in Ef; rewrite Forall_forall in Ef; by apply (Ef m).
Qed.
#[local] Instance sample_tables : Tables SampleKernel.
Proof.
  split.
  - intros table k k' reply Hin. simpl. unfold sk_send. cbn. rewrite bool_decide_true by done. simpl. by intros [= _ <-].
  - intros c k k' reply Hin. simpl in *. unfold sk_send. cbn. rewrite bool_decide_false by done. simpl.
    repeat (rewrite (bool_decide_true (cc_table c ∈ _)) by set_solver; simpl). by intros [= _ <-].
Qed.

(** A killed run left its rule, its route and its ruleset; another rule is not
    hodor's. The next run ends with its task. *)
Definition stale_kernel : SampleKernel := {|
  sk_rules := [[RaPriority 32766; RaTable 254]; rule_message {| rp_pref := 200; rp_fwmark := Some 136%N; rp_table := 100 |}];
  sk_routes := [local_route 100 1; [RtOif 2; RtTable 254]];
  sk_tables := {[NFT_TABLE; bs "filter"]};
|}.
Definition sample_run_tproxy : SampleKernel * result TproxyError () :=
  run_tproxy (Some 7%N) (Some 8%N) false (λ port, Ok port) (Ok ()) false stale_kernel.

Lemma run_leaves_witness :
  sample_run_tproxy.2 = Ok () ∧ sk_rules sample_run_tproxy.1 = [[RaPriority 32766; RaTable 254]] ∧
  sk_routes sample_run_tproxy.1 = [[RtOif 2; RtTable 254]] ∧ NFT_TABLE ∉ sk_tables sample_run_tproxy.1.
Proof.
  assert (sample_run_tproxy.2 = Ok ()) as Hr by (vm_compute; reflexivity).
  split; [exact Hr|]. split; [vm_compute; reflexivity|]. split; [vm_compute; reflexivity|].
  pose proof (run_leaves (K := SampleKernel) (Some 7%N) (Some 8%N) false (λ port, Ok port) (Ok ())
    {| op_scope := None; op_port := None; op_allow_root_netns := false |} stale_kernel) as Hrun.
  change (let '(k', r) := sample_run_tproxy in
    (∃ e, r = Err e ∧ sk_rules k' = sk_rules stale_kernel ∧ sk_routes k' = sk_routes stale_kernel ∧ sk_tables k' = sk_tables stale_kernel) ∨
    (r = Err LocalRouteAdd ∧ sk_routes k' = sk_routes stale_kernel ∧ sk_tables k' = sk_tables stale_kernel ∧
      ∀ m, m ∈ sk_rules k' ↔ m ∈ map rule_message (proxy_rules ROUTE_TABLE) ∨ m ∈ sk_rules stale_kernel) ∨
    (r = Ok () ∧ assert_unscoped_capture_allowed (Some 7%N) (Some 8%N) false {| op_scope := None; op_port := None; op_allow_root_netns := false |} = Ok () ∧
      cleaned stale_kernel k')) in Hrun.
  generalize dependent sample_run_tproxy. intros [k' r]. simpl. intros -> [(e & He & _)|[(He & _)|(_ & _ & Hc)]]; [discriminate He|discriminate He|].
  pose proof (cl_tables _ _ Hc) as Ht. change (sk_tables k' = sk_tables stale_kernel ∖ {[NFT_TABLE]}) in Ht. rewrite Ht. apply not_elem_of_difference. right. by apply elem_of_singleton.
Defined.

(** An evaluator that does what the laws say. *)
#[local] Instance sample_nftables : Nftables := {|
  nf_step e p reg :=
    match e with
    | EMetaLoad key _ => Continue p (meta_value key p)
    | EMetaStore _ KeyMark => Continue (with_mark (of_be (rev (take 4 reg))) p) reg
    | EMetaStore _ _ => Break
    | ECmp _ op data =>
        if match op with OpEqual => bool_decide (take (length data) reg = data) | OpNotEqual => bool_decide (take (length data) reg ≠ data) end
        then Continue p reg else Break
    | EImmediate _ (DataValue value) => Continue p value
    | EImmediate _ (DataVerdict code) => Verdict code
    | EPayload base offset len _ =>
        let data := take (N.to_nat len) (drop (N.to_nat offset) (header base p)) in
        if bool_decide (N.of_nat (length data) = len) then Continue p (word_padded data) else Break
    | EOther _ _ => if (of_be (take 2 reg) =? 15000)%N then Continue (with_tproxy (of_be (take 2 reg)) p) reg else Break
    end;
  nf_listening port := (port =? 15000)%N;
|}.
#[local] Instance sample_nftables_laws : NftablesLaws.
Proof. by split. Qed.

Definition sample_packet (proto mark : N) (oifname : bytes) (dport : N) : Packet :=
  {| pk_l4proto := proto; pk_oifname := oifname; pk_mark := mark; pk_network := replicate 20 Byte.x45; pk_transport := be16 40000 ++ be16 dport;
     pk_tproxy := None |}.
Definition sample_capture : CaptureConfig := capture_config Options_default LISTEN_PORT.
Lemma sample_capture_ok : config_ok sample_capture.
Proof. split; [vm_compute; reflexivity..|done]. Qed.
Lemma sample_packet_ok proto mark : (proto < 2 ^ 8)%N → (mark < 2 ^ 32)%N → packet_ok (sample_packet proto mark (bs "eth0") 443).
Proof. intros H1 H2. split; [done|done| |simpl; lia]. split; [simpl; lia|vm_compute; set_solver]. Qed.
Lemma capture_exact_witness :
  config_ok sample_capture ∧ packet_ok (sample_packet 6 0 (bs "eth0") 443) ∧
  eval_hook sample_capture (bs "output") (sample_packet 6 0 (bs "eth0") 443) = Some (sample_packet 6 136 (bs "eth0") 443) ∧
  eval_hook sample_capture (bs "output") (sample_packet 17 0 (bs "eth0") 443) = None ∧
  eval_hook sample_capture (bs "prerouting") (sample_packet 6 136 (bs "eth0") 443) = Some (with_tproxy 15000 (sample_packet 6 136 (bs "eth0") 443)).
Proof.
  pose proof sample_capture_ok as Hc. pose proof sample_packet_ok as Hp.
  split; [exact Hc|]. split; [by apply Hp|].
  destruct (capture_exact sample_capture (sample_packet 6 0 (bs "eth0") 443) Hc (Hp 6%N 0%N eq_refl eq_refl)) as [Ho _].
  destruct (capture_exact sample_capture (sample_packet 17 0 (bs "eth0") 443) Hc (Hp 17%N 0%N eq_refl eq_refl)) as [Hq _].
  destruct (capture_exact sample_capture (sample_packet 6 136 (bs "eth0") 443) Hc (Hp 6%N 136%N eq_refl eq_refl)) as [_ Hi].
  rewrite Ho, Hq, Hi. split; [vm_compute; reflexivity|]. split; vm_compute; reflexivity.
Defined.

(** hodor's own dials keep their way out. *)
Example egress_not_captured : captured sample_capture (sample_packet 6 EGRESS_MARK (bs "eth0") 443) = false.
Proof. vm_compute. reflexivity. Qed.

(** A run whose local route is refused leaves its routing rule: the guard that
    would remove it does not exist yet. *)
#[local] Instance refusing_kernel : Kernel SampleKernel := {|
  kn_netlink := kn_netlink;
  kn_link_index := kn_link_index;
  kn_add_rule := kn_add_rule;
  kn_add_route m k := (k, false);
  kn_list_rules := kn_list_rules;
  kn_list_routes := kn_list_routes;
  kn_del_rule := kn_del_rule;
  kn_del_route := kn_del_route;
  kn_send := kn_send;
|}.
Example refused_route_leaves_rule :
  let '(k', r) := run_tproxy (Kernel0 := refusing_kernel) (Some 7%N) (Some 8%N) false (λ port, Ok port) (Ok ()) false {| sk_rules := []; sk_routes := []; sk_tables := ∅ |} in
  r = Err LocalRouteAdd ∧ existsb (is_pref RULE_PREF_CAPTURE) (sk_rules k') = true.
Proof. vm_compute. by split. Qed.
