(* ===== verification/SshLeg.v ===== *)
(** * The ssh bridge

    [crates/hodor-proxy/src/transports/ssh/legs.rs] with the key cache of
    [ssh/mod.rs], and the files of [crates/hodor-pki/src/ssh.rs]: which keys a
    guest connection uses, whom the guest leg admits, how the upstream host's
    key is verified against hodor's own [known_hosts], and what a session
    channel carries either way. The russh crate, its keys and its reading of
    [known_hosts] are parameters. *)

From S2P Require Import Prelude Paths.

(** ** Keys *)

Class Russh := {
  PublicKey : Type;
  PublicKey_dec :: EqDecision PublicKey;
  PrivateKey : Type;
  ru_public : PrivateKey → PublicKey;
  ru_to_openssh : PublicKey → option bytes;
  ru_secret_to_openssh : PrivateKey → option bytes;
  ru_decode_secret_key : bytes → option PrivateKey;
  ru_parse_public_key_base64 : bytes → option PublicKey;
  (** [known_host_keys_path] on the content of the file, if there is one. *)
  ru_known_host_keys : bytes → N → option bytes → option (list (nat * PublicKey));
}.

Inductive SshError :=
| SshRead (path : Path)
| SshKeys
| SshKeygen
| SshIo
| UnknownKey
| SshRefused
| SshElapsed.

(** ** Key files *)

(** [OpenOptions::create_new] and the write after it, and what a read of the
    file finds: nothing there, its text, or another failure. *)
Inductive FileRead := NotFound | Text (text : bytes) | ReadFailed.
Inductive FileCreate := Created | AlreadyExists | CreateFailed.

(** The [known_hosts] file, when it is there and is text. *)
Abbreviation KnownHosts := (option bytes).

Section HostKey.
Context `{!Russh}.

Definition from_openssh (text : bytes) : result SshError PrivateKey := ok_or SshKeys (ru_decode_secret_key text).
(** One round: what the read found and, when nothing is there, the key made,
    whether its directory can be made and what creating the file gave. [None]
    reads again. *)
Definition host_key_round (read : FileRead) (generated : option PrivateKey) (dir_ok : bool) (create : FileCreate)
  : option (result SshError PrivateKey) :=
  match read with
  | Text text => Some (from_openssh text)
  | ReadFailed => Some (Err SshIo)
  | NotFound =>
      match (key ← generated; encoded ← ru_secret_to_openssh key; Some key) with
      | None => Some (Err SshKeygen)
      | Some key =>
          if dir_ok then
            match create with
            | Created => Some (Ok key)
            | AlreadyExists => None
            | CreateFailed => Some (Err SshIo)
            end
          else Some (Err SshIo)
      end
  end.
(** [load_or_generate_host_key] and [generate_host_key], which call each other
    while another process takes the file away again. *)
Fixpoint load_or_generate_host_key (rounds : list (FileRead * option PrivateKey * bool * FileCreate)) : option (result SshError PrivateKey) :=
  match rounds with
  | [] => None
  | (read, generated, dir_ok, create) :: rounds =>
      match host_key_round read generated dir_ok create with
      | Some r => Some r
      | None => load_or_generate_host_key rounds
      end
  end.

(** ** Known hosts *)

Definition known_hosts_line_for_public (host : bytes) (port : N) (key : PublicKey) : result SshError bytes :=
  let name := if (port =? 22)%N then host else bs "[" ++ host ++ bs "]:" ++ dec port in
  encoded ← ok_or SshKeygen (ru_to_openssh key);
  mret (name ++ bs " " ++ encoded).
Definition known_hosts_line (host : bytes) (port : N) (key : PrivateKey) : result SshError bytes :=
  known_hosts_line_for_public host port (ru_public key).

Definition pinned_host_keys (host : bytes) (port : N) (file : KnownHosts) : result SshError (list (nat * PublicKey)) :=
  ok_or SshKeys (ru_known_host_keys host port file).
(** The text that [append_known_host] writes. *)
Definition appended (line : bytes) (file : KnownHosts) : bytes :=
  let text := default [] file in
  let text := if bool_decide (text = []) || bool_decide (last text = Some LF) then text else text ++ [LF] in
  text ++ line ++ [LF].
(** What the file system makes of an append: [fs::write] truncates the file it
    opens before it writes, and a text that cannot be read back counts as
    empty. *)
Inductive AppendIo :=
| NotOpened                          (* neither its directory nor the file could be made or opened *)
| CutShort (readable : bool) (n : nat) (* the write failed after so many bytes *)
| Written (readable : bool).
Definition append_known_host (io : AppendIo) (host : bytes) (port : N) (key : PublicKey) (file : KnownHosts)
  : KnownHosts * result SshError () :=
  match known_hosts_line_for_public host port key with
  | Err e => (file, Err e)
  | Ok line =>
      let text (readable : bool) := appended line (if readable then file else None) in
      match io with
      | NotOpened => (file, Err SshIo)
      | CutShort readable n => (Some (take n (text readable)), Err SshIo)
      | Written readable => (Some (text readable), Ok ())
      end
  end.

Definition verify_server_key (io : AppendIo) (name : bytes) (port : N) (server_public_key : PublicKey) (file : KnownHosts)
  : KnownHosts * result SshError bool :=
  match pinned_host_keys name port file with
  | Err e => (file, Err e)
  | Ok [] =>
      match append_known_host io name port server_public_key file with
      | (file, Err e) => (file, Err e)
      | (file, Ok _) => (file, Ok true)
      end
  | Ok pinned => (file, Ok (existsb (λ known, bool_decide (known.2 = server_public_key)) pinned))
  end.

(** ** The legs *)

Record SshLegsFiles := { sf_host_key : Path; sf_identity : Path; sf_guest_key : Path }.
Record LegKeys := { lk_host_key : PrivateKey; lk_decoy : PublicKey; lk_identity : PrivateKey }.

(** [guest_line.split(' ').nth(1).unwrap_or_default()]. *)
Definition guest_blob (guest_line : bytes) : bytes := default [] (split_byte Byte.x20 guest_line !! 1).
Definition LegKeys_load (host_key : Path → result SshError PrivateKey) (read_to_string : Path → option bytes) (files : SshLegsFiles)
  : result SshError LegKeys :=
  host_key ← host_key (sf_host_key files);
  identity_text ← ok_or (SshRead (sf_identity files)) (read_to_string (sf_identity files));
  identity ← ok_or SshKeys (ru_decode_secret_key identity_text);
  guest_line ← ok_or (SshRead (sf_guest_key files)) (read_to_string (sf_guest_key files));
  decoy ← ok_or SshKeys (ru_parse_public_key_base64 (guest_blob guest_line));
  mret {| lk_host_key := host_key; lk_decoy := decoy; lk_identity := identity |}.

(** [SshTransport::legs]: keys are loaded once for each three files. *)
Definition cache_key (files : SshLegsFiles) : Path * Path * Path := (sf_host_key files, sf_identity files, sf_guest_key files).
Definition cached (key : Path * Path * Path) (cache : list ((Path * Path * Path) * LegKeys)) : option LegKeys :=
  snd <$> find (λ kv : (Path * Path * Path) * LegKeys, bool_decide (kv.1 = key)) cache.
Definition legs (host_key : Path → result SshError PrivateKey) (read_to_string : Path → option bytes) (files : SshLegsFiles) (cache : list ((Path * Path * Path) * LegKeys))
  : list ((Path * Path * Path) * LegKeys) * result SshError LegKeys :=
  match cached (cache_key files) cache with
  | Some keys => (cache, Ok keys)
  | None =>
      match LegKeys_load host_key read_to_string files with
      | Err e => (cache, Err e)
      | Ok keys => ((cache_key files, keys) :: cache, Ok keys)
      end
  end.

(** ** The guest leg *)

Inductive Auth := Accept | Reject.
(** What the network and the server answer a dial: whether the stream opens,
    the key the server presents and whether the rest of the handshake ends,
    whether the identity is accepted; and how an append to [known_hosts] goes. *)
Record DialAnswers := {
  da_stream : bool;
  da_server_key : PublicKey;
  da_handshake : bool;
  da_authenticated : option bool;
  da_append : AppendIo;
}.
(** What hodor does towards the server. *)
Inductive DialEvent := Dialed | Verified (key : PublicKey) | Presented (user : bytes) (identity : PrivateKey).
(** The upstream session: the user and identity it is authenticated as. *)
Record Handle := { ha_user : bytes; ha_identity : PrivateKey }.

(** A dial whose budget elapses stops at a prefix of these events. *)
Definition dial_upstream (keys : LegKeys) (name : bytes) (port : N) (user : bytes) (a : DialAnswers) (file : KnownHosts)
  : KnownHosts * list DialEvent * result SshError Handle :=
  if negb (da_stream a) then (file, [], Err SshIo)
  else
    match verify_server_key (da_append a) name port (da_server_key a) file with
    | (file, Err e) => (file, [Dialed], Err e)
    | (file, Ok false) => (file, [Dialed], Err SshRefused)
    | (file, Ok true) =>
        if negb (da_handshake a) then (file, [Dialed; Verified (da_server_key a)], Err SshRefused)
        else
          let events := [Dialed; Verified (da_server_key a); Presented user (lk_identity keys)] in
          match da_authenticated a with
          | None => (file, events, Err SshIo)
          | Some false => (file, events, Err UnknownKey)
          | Some true => (file, events, Ok {| ha_user := user; ha_identity := lk_identity keys |})
          end
    end.

Record Guest := { gu_user : bytes; gu_upstream : option Handle }.
Definition Guest_new : Guest := {| gu_user := []; gu_upstream := None |}.

Definition auth_publickey_offered (keys : LegKeys) (public_key : PublicKey) (g : Guest) : Guest * Auth :=
  (g, if bool_decide (public_key = lk_decoy keys) then Accept else Reject).
Definition auth_publickey (keys : LegKeys) (user : bytes) (public_key : PublicKey) (g : Guest) : Guest * Auth :=
  if bool_decide (public_key = lk_decoy keys) then ({| gu_user := user; gu_upstream := gu_upstream g |}, Accept) else (g, Reject).
Definition auth_password (g : Guest) : Guest * Auth := (g, Reject).
(** [channel_open_session] up to the two pumps: the session is dialled once. *)
Definition channel_open_session (keys : LegKeys) (name : bytes) (port : N) (a : DialAnswers) (opens : bool) (g : Guest) (file : KnownHosts)
  : Guest * KnownHosts * list DialEvent * result SshError bool :=
  let '(g, file, events, dialled) :=
    match gu_upstream g with
    | Some _ => (g, file, [], Ok ())
    | None =>
        match dial_upstream keys name port (gu_user g) a file with
        | (file, events, Ok handle) => ({| gu_user := gu_user g; gu_upstream := Some handle |}, file, events, Ok ())
        | (file, events, Err e) => (g, file, events, Err e)
        end
    end in
  match dialled with
  | Err e => (g, file, events, Err e)
  | Ok _ =>
      match gu_upstream g with
      | None => (g, file, events, Ok false)
      | Some _ => (g, file, events, if opens then Ok true else Err SshRefused)
      end
  end.

End HostKey.

(** ** Channels *)

(** The messages of a channel this code names, and any other. *)
Inductive ChannelMsg :=
| MExec (want_reply : bool) (command : bytes)
| MRequestShell (want_reply : bool)
| MRequestPty (want_reply : bool) (term : bytes) (size : N * N * N * N) (terminal_modes : bytes)
| MRequestSubsystem (want_reply : bool) (name : bytes)
| MSetEnv (want_reply : bool) (variable_name variable_value : bytes)
| MWindowChange (size : N * N * N * N)
| MSignal (signal : bytes)
| MData (data : bytes)
| MExtendedData (data : bytes) (ext : N)
| MEof
| MClose
| MExitStatus (exit_status : N)
| MSuccess
| MFailure
| MOpenFailure
| MOther (kind : bytes).

#[export] Instance ChannelMsg_dec : EqDecision ChannelMsg.
Proof. solve_decision. Defined.

(** What is sent upstream for a message of the guest, the rest is dropped. *)
Definition upstream_request (message : ChannelMsg) : option ChannelMsg :=
  match message with
  | MExec _ _ | MRequestShell _ | MRequestPty _ _ _ _ | MRequestSubsystem _ _ | MSetEnv _ _ _ | MWindowChange _ | MSignal _
  | MData _ | MExtendedData _ _ | MEof | MClose => Some message
  | _ => None
  end.
(** [forward_guest_message]: what is sent, and whether the pump goes on. *)
Definition forward_guest_message (fails : bool) (message : ChannelMsg) : list ChannelMsg * bool :=
  match upstream_request message with
  | None => ([], true)
  | Some request => ([request], negb (bool_decide (request = MClose)) && negb fails)
  end.
(** The pump of a channel's guest side: each message with whether sending what
    it asks for fails. *)
Fixpoint guest_pump (messages : list (ChannelMsg * bool)) : list ChannelMsg :=
  match messages with
  | [] => []
  | (message, fails) :: messages =>
      let '(sent, go) := forward_guest_message fails message in
      sent ++ if go then guest_pump messages else []
  end.

(** What the guest is told of a message of the server: and whether its pump
    goes on, sending data being the one thing whose failure ends it. *)
Definition forward_server_message (fails : bool) (message : ChannelMsg) : list ChannelMsg * bool :=
  match message with
  | MData _ | MExtendedData _ _ => ([message], negb fails)
  | MExitStatus _ | MSuccess | MFailure | MEof => ([message], true)
  | MClose | MOpenFailure => ([MClose], false)
  | _ => ([], true)
  end.
(** However it ends, both channels are closed after it. *)
Fixpoint server_pump (messages : list (ChannelMsg * bool)) : list ChannelMsg :=
  match messages with
  | [] => [MClose]
  | (message, fails) :: messages =>
      let '(told, go) := forward_server_message fails message in
      told ++ if go then server_pump messages else [MClose]
  end.

(** ** Properties of [known_hosts] *)

(** A host name that means itself in a [known_hosts] line. *)
Definition plain_byte (b : byte) : bool := is_digit b || in_range 97 122 b || in_range 65 90 b || bool_decide (b ∈ bs ".-_:").
Definition plain_host (host : bytes) : Prop := host ≠ [] ∧ Forall (λ b, plain_byte b = true) host.
Definition host_name (host : bytes) (port : N) : bytes := if (port =? 22)%N then host else bs "[" ++ host ++ bs "]:" ++ dec port.

(** The documented format: a line pins its key for the one host it names, and
    the final newline of a file may be missing. *)
Class KnownHostsLaws `{!Russh} : Prop := {
  kh_absent host port : ru_known_host_keys host port None = Some [];
  kh_empty host port : ru_known_host_keys host port (Some []) = Some [];
  kh_newline host port text : text ≠ [] → last text ≠ Some LF → ru_known_host_keys host port (Some (text ++ [LF])) = ru_known_host_keys host port (Some text);
  kh_line host port text h p key encoded l :
    plain_host host → plain_host h → (text = [] ∨ last text = Some LF) → ru_to_openssh key = Some encoded →
    ru_known_host_keys host port (Some text) = Some l →
    ∃ n, ru_known_host_keys host port (Some (text ++ host_name h p ++ bs " " ++ encoded ++ [LF])) =
           Some (l ++ if bool_decide (host = h ∧ port = p) then [(n, key)] else []);
}.

Section KnownHosts.
Context `{!Russh, !KnownHostsLaws}.

Lemma appended_pins h p key line file host port l :
  plain_host host → plain_host h → known_hosts_line_for_public h p key = Ok line → ru_known_host_keys host port file = Some l →
  ∃ n, ru_known_host_keys host port (Some (appended line file)) = Some (l ++ if bool_decide (host = h ∧ port = p) then [(n, key)] else []).
Proof.
  intros Hhost Hh Hline Hl. unfold known_hosts_line_for_public in Hline. apply bind_ok in Hline as (encoded & He & Hline).
  assert (line = host_name h p ++ bs " " ++ encoded) as -> by (by injection Hline as <-).
  assert (ru_to_openssh key = Some encoded) as Henc by (by destruct (ru_to_openssh key); simplify_eq/=).
  unfold appended. set (text := default [] file).
  assert (ru_known_host_keys host port (Some text) = Some l) as Ht.
  { unfold text. destruct file as [t|]; [done|]. simpl. by rewrite kh_empty, <- (kh_absent host port). }
  replace ((host_name h p ++ bs " " ++ encoded) ++ [LF]) with (host_name h p ++ bs " " ++ encoded ++ [LF]) by (by rewrite <- !app_assoc).
  destruct (bool_decide (text = []) || bool_decide (last text = Some LF)) eqn:Hend.
  - apply kh_line; [done|done| |done|done]. apply orb_true_iff in Hend as [Hb|Hb]; apply bool_decide_eq_true in Hb; auto.
  - apply orb_false_iff in Hend as [H1 H2]. apply bool_decide_eq_false in H1, H2. apply kh_line; [done|done|right; by rewrite last_snoc|done|].
    by rewrite kh_newline.
Qed.

(** An append that leaves the file as it was, or writes it whole from what it
    held. *)
Definition intact (io : AppendIo) : Prop := io = NotOpened ∨ io = Written true.

(** What a verification finds and leaves: nothing is unpinned, nothing is added
    to a host that is pinned, and what is accepted is pinned afterwards. *)
Lemma verify_keeps w h p key file host port l :
  intact w → plain_host host → plain_host h → ru_known_host_keys host port file = Some l →
  let '(file', r) := verify_server_key w h p key file in
  ∃ l', ru_known_host_keys host port file' = Some l' ∧ (l ≠ [] → l' = l) ∧ (l = [] → length l' ≤ 1) ∧
    (host = h → port = p → (r = Ok true → key ∈ l'.*2) ∧ (l ≠ [] → r = Ok (bool_decide (key ∈ l.*2)))).
Proof.
  intros Hw Hhost Hh Hl. unfold verify_server_key, pinned_host_keys.
  assert (∀ (pinned : list (nat * PublicKey)), existsb (λ known, bool_decide (known.2 = key)) pinned = bool_decide (key ∈ pinned.*2)) as Hex.
  { intros pinned. apply Bool.eq_iff_eq_true. rewrite existsb_exists, bool_decide_eq_true, list_elem_of_fmap. split.
    - intros (x & Hx & Hk%bool_decide_eq_true). exists x. split; [done|]. by apply list_elem_of_In.
    - intros (x & -> & Hx). exists x. split; [by apply list_elem_of_In|by apply bool_decide_eq_true]. }
  destruct (ru_known_host_keys h p file) as [[|x pinned]|] eqn:Hp; cbn [ok_or].
  - unfold append_known_host. destruct (known_hosts_line_for_public h p key) as [line|e] eqn:Hline.
    2: { exists l. split; [done|]. split; [done|]. split; [by intros ->; simpl; lia|]. intros -> ->. split; [done|congruence]. }
    destruct Hw as [->| ->]; [exists l; split; [done|]; split; [done|]; split; [by intros ->; simpl; lia|]; intros -> ->; split; [done|congruence]|].
    destruct (appended_pins h p key line file host port l) as (n & Hn); [done..|]. eexists. split; [exact Hn|].
    destruct (decide (host = h ∧ port = p)) as [[-> ->]|Hne].
    + rewrite Hp in Hl. injection Hl as <-. rewrite bool_decide_true by done. simpl. split; [done|]. split; [lia|].
      intros _ _. split; [intros _; left|done].
    + rewrite bool_decide_false, app_nil_r by done. split; [done|]. split; [by intros ->; simpl; lia|]. intros -> ->. by destruct Hne.
  - exists l. split; [done|]. split; [done|]. split; [by intros ->; simpl; lia|]. intros -> ->. rewrite Hp in Hl. injection Hl as <-.
    rewrite (Hex (x :: pinned)). split; [|done]. intros [= Hk%bool_decide_eq_true]. exact Hk.
  - exists l. split; [done|]. split; [done|]. split; [by intros ->; simpl; lia|]. intros -> ->. by rewrite Hp in Hl.
Qed.

(** Verifications one after the other. *)
Record Offer := { of_host : bytes; of_port : N; of_key : PublicKey; of_append : AppendIo }.
Fixpoint verify_all (offers : list Offer) (file : KnownHosts) : KnownHosts * list (result SshError bool) :=
  match offers with
  | [] => (file, [])
  | o :: offers =>
      let '(file, r) := verify_server_key (of_append o) (of_host o) (of_port o) (of_key o) file in
      let '(file, rs) := verify_all offers file in (file, r :: rs)
  end.

(** C15: Host keys are trusted on first use only, for host names made of
    letters, digits, dots, hyphens, underscores and colons, as long as the
    file is read line by line as documented and every append to [known_hosts]
    either cannot open it or reads it back and writes it whole. Over any
    sequence of upstream connections to such hosts, each verified after the
    one before it, a host whose pins can be read and that is pinned keeps its
    pins and is accepted exactly with a pinned key; one that is not pinned is
    pinned at most once, and every key ever accepted for it is that one. *)
Theorem host_keys_accept_new host port l offers file :
  plain_host host → Forall (λ o, plain_host (of_host o) ∧ intact (of_append o)) offers → ru_known_host_keys host port file = Some l →
  let '(file', rs) := verify_all offers file in
  ∃ l', ru_known_host_keys host port file' = Some l' ∧ (l ≠ [] → l' = l) ∧ (l = [] → length l' ≤ 1) ∧
    ∀ i o, offers !! i = Some o → of_host o = host → of_port o = port →
      (rs !! i = Some (Ok true) → of_key o ∈ l'.*2) ∧ (l ≠ [] → rs !! i = Some (Ok (bool_decide (of_key o ∈ l.*2)))).
Proof.
  intros Hhost Hall. revert l file. induction Hall as [|o offers [Ho Hio] _ IH]; intros l file Hl.
  { simpl. exists l. split; [done|]. split; [done|]. split; [by intros ->; simpl; lia|done]. }
  cbn [verify_all]. pose proof (verify_keeps (of_append o) (of_host o) (of_port o) (of_key o) file host port l Hio Hhost Ho Hl) as Hv.
  destruct (verify_server_key _ _ _ _ file) as [file1 r]. destruct Hv as (l1 & Hl1 & Hkeep1 & Hone1 & Hacc1).
  specialize (IH l1 file1 Hl1). destruct (verify_all offers file1) as [file2 rs]. destruct IH as (l2 & Hl2 & Hkeep2 & Hone2 & Hacc2).
  exists l2. split; [done|].
  assert (l ≠ [] → l2 = l) as Hkeep by (intros Hne; rewrite Hkeep2; rewrite (Hkeep1 Hne); done).
  split; [done|]. split.
  { intros ->. destruct l1 as [|x l1]; [by apply Hone2|]. rewrite Hkeep2 by done. by apply Hone1. }
  intros [|i] o' Hi Hh Hp; simpl in *.
  - injection Hi as <-. destruct (Hacc1 (eq_sym Hh) (eq_sym Hp)) as [Ha Hb]. split.
    + intros [= ->]. specialize (Ha eq_refl). destruct l1 as [|x l1]; [set_solver|]. by rewrite Hkeep2.
    + intros Hne. by rewrite Hb.
  - destruct (Hacc2 _ _ Hi Hh Hp) as [Ha Hb]. split; [done|]. intros Hne. rewrite (Hkeep1 Hne) in Hb. by apply Hb.
Qed.
End KnownHosts.

(** ** The guest leg *)

Section GuestLeg.
Context `{!Russh} (keys : LegKeys) (name : bytes) (port : N).

(** What a guest does of its connection. *)
Inductive GuestEvent :=
| GOffered (key : PublicKey)
| GPublickey (user : bytes) (key : PublicKey)
| GPassword
| GOpen (answers : DialAnswers) (opens : bool).
Definition guest_step (st : Guest * KnownHosts) (event : GuestEvent) : Guest * KnownHosts * list DialEvent :=
  let '(g, file) := st in
  match event with
  | GOffered key => ((auth_publickey_offered keys key g).1, file, [])
  | GPublickey user key => ((auth_publickey keys user key g).1, file, [])
  | GPassword => ((auth_password g).1, file, [])
  | GOpen answers opens => let '(g, file, events, _) := channel_open_session keys name port answers opens g file in (g, file, events)
  end.
Fixpoint guest_run (events : list GuestEvent) (st : Guest * KnownHosts) : Guest * KnownHosts * list DialEvent :=
  match events with
  | [] => (st, [])
  | event :: events =>
      let '(g, file, done_) := guest_step st event in
      let '(g, file, more) := guest_run events (g, file) in (g, file, done_ ++ more)
  end.

(** The events of one dial, in order: the identity is presented only after the
    server's key was verified. *)
Inductive dial_events (user : bytes) : list DialEvent → Prop :=
| de_none : dial_events user []
| de_dialed : dial_events user [Dialed]
| de_verified key : dial_events user [Dialed; Verified key]
| de_presented key : dial_events user [Dialed; Verified key; Presented user (lk_identity keys)].

Lemma dial_upstream_events user a file : let '(_, events, r) := dial_upstream keys name port user a file in
  dial_events user events ∧ match r with Ok h => h = {| ha_user := user; ha_identity := lk_identity keys |} | Err _ => True end.
Proof.
  unfold dial_upstream. repeat case_match; simplify_eq; (split; [constructor|done]).
Qed.
Lemma dial_verified user a file key :
  let '(_, events, _) := dial_upstream keys name port user a file in
  Verified key ∈ events → key = da_server_key a ∧ (verify_server_key (da_append a) name port (da_server_key a) file).2 = Ok true.
Proof.
  unfold dial_upstream. destruct (da_stream a); simpl; [|set_solver].
  destruct (verify_server_key _ _ _ _ file) as [file' [[]|e]]; [|set_solver|set_solver].
  repeat case_match; simplify_eq/=; rewrite ?elem_of_cons; naive_solver set_solver.
Qed.
Lemma dial_file user a file :
  (dial_upstream keys name port user a file).1.1 = if da_stream a then (verify_server_key (da_append a) name port (da_server_key a) file).1 else file.
Proof. unfold dial_upstream. destruct (da_stream a); simpl; [|done]. repeat case_match; simplify_eq/=; done. Qed.

Context `{!KnownHostsLaws}.

(** Whom a guest authenticated as: names it signed for with the decoy key. *)
Definition signed_for (events : list GuestEvent) (user : bytes) : Prop := GPublickey user (lk_decoy keys) ∈ events.
(** A channel is opened only once an authentication was accepted, which is how
    the protocol has it (RFC 4252) and the library that calls these handlers
    keeps it. *)
Definition authenticated_first (events : list GuestEvent) : Prop :=
  ∀ before answers opens after, events = before ++ GOpen answers opens :: after → ∃ user, signed_for before user.
(** The appends a guest's channels make to [known_hosts]. *)
Definition intact_opens (events : list GuestEvent) : Prop :=
  ∀ answers opens, GOpen answers opens ∈ events → intact (da_append answers).
(** A trace of dials, each for a name that was signed for. *)
Definition dials_of (events : list GuestEvent) (trace : list DialEvent) : Prop :=
  ∃ dials : list (bytes * list DialEvent), trace = concat dials.*2 ∧ Forall (λ d, dial_events d.1 d.2 ∧ signed_for events d.1) dials.

Lemma dials_presented events trace before user identity after :
  dials_of events trace → trace = before ++ Presented user identity :: after →
  identity = lk_identity keys ∧ signed_for events user ∧ ∃ key front, before = front ++ [Dialed; Verified key].
Proof.
  intros (dials & -> & Hd). revert before. induction Hd as [|[u d] dials [Hd Hu] _ IH]; intros before; simpl; [by destruct before|].
  intros Heq. assert ((∃ rest, d = before ++ Presented user identity :: rest) ∨
    ∃ before', before = d ++ before' ∧ concat dials.*2 = before' ++ Presented user identity :: after) as [(rest & Hr)|(before' & -> & Hc)].
  { apply app_eq_app in Heq as (l & [[-> Hl]|[-> Hl]]); [|right; by exists l].
    destruct l as [|x l]; [right; exists []; by rewrite !app_nil_r|]. injection Hl as <- ->. left. by exists l. }
  - simpl in *. destruct Hd as [| | |key]; destruct before as [|x1 [|x2 [|x3 before]]]; simplify_eq/=.
    + split; [done|]. split; [done|]. by exists key, [].
    + by destruct before.
  - destruct (IH _ Hc) as (Hi & Hs & key & front & ->). split; [done|]. split; [done|]. exists key, (d ++ front). by rewrite <- app_assoc.
Qed.
Lemma signed_for_app past events user : signed_for past user → signed_for (past ++ events) user.
Proof. unfold signed_for. set_solver. Qed.

(** The user of a guest is one it signed for, once it signed for one. *)
Definition user_signed (past : list GuestEvent) (g : Guest) : Prop := (∃ user, signed_for past user) → signed_for past (gu_user g).
Lemma user_signed_step past event g file :
  user_signed past g → user_signed (past ++ [event]) (guest_step (g, file) event).1.1.
Proof.
  intros Hu. assert ((∀ user, event ≠ GPublickey user (lk_decoy keys)) → gu_user (guest_step (g, file) event).1.1 = gu_user g →
    user_signed (past ++ [event]) (guest_step (g, file) event).1.1) as Hsame.
  { intros Hne Hg [user [Hin|Hin%list_elem_of_singleton]%elem_of_app]; [|by destruct (Hne user)].
    rewrite Hg. apply signed_for_app, Hu. by exists user. }
  destruct event as [key|user key| |a opens]; cbn [guest_step] in *; [by apply Hsame| |by apply Hsame|].
  - unfold auth_publickey in *. case_bool_decide as Hk; [subst key|apply Hsame; [congruence|done]].
    intros _. unfold signed_for. simpl. set_solver.
  - apply Hsame; [done|]. unfold channel_open_session. destruct (gu_upstream g) as [h|] eqn:Hup; [by rewrite Hup|].
    by destruct (dial_upstream _ _ _ _ a file) as [[f1 ev] [h|e]].
Qed.

(** The dial of one event is for the guest's user. *)
Lemma guest_step_dials event g file :
  (guest_step (g, file) event).2 = [] ∨ (∃ answers opens, event = GOpen answers opens) ∧ dial_events (gu_user g) (guest_step (g, file) event).2.
Proof.
  destruct event as [key|user key| |a opens]; cbn [guest_step]; [by left..|].
  unfold channel_open_session. destruct (gu_upstream g) as [h|] eqn:Hup; [rewrite Hup; by left|].
  right. split; [eauto|]. pose proof (dial_upstream_events (gu_user g) a file) as Hev.
  by destruct (dial_upstream _ _ _ _ a file) as [[f1 ev] [h|e]]; destruct Hev as [Hev _].
Qed.

(** What one event does to the pins. *)
Lemma guest_step_pins event g file l :
  plain_host name → (∀ answers opens, event = GOpen answers opens → intact (da_append answers)) → ru_known_host_keys name port file = Some l →
  let '(_, file', trace) := guest_step (g, file) event in
  ∃ l', ru_known_host_keys name port file' = Some l' ∧ (l ≠ [] → l' = l) ∧ ∀ key, Verified key ∈ trace → key ∈ l'.*2.
Proof.
  intros Hname Hio Hl. assert (∃ l', ru_known_host_keys name port file = Some l' ∧ (l ≠ [] → l' = l) ∧ ∀ key, Verified key ∈ @nil DialEvent → key ∈ l'.*2) as Hsame.
  { exists l. split; [done|]. split; [done|]. set_solver. }
  destruct event as [key|user key| |a opens]; cbn [guest_step]; [done..|].
  unfold channel_open_session. destruct (gu_upstream g) as [h|] eqn:Hup; [by rewrite Hup|].
  assert (∃ l', ru_known_host_keys name port (dial_upstream keys name port (gu_user g) a file).1.1 = Some l' ∧ (l ≠ [] → l' = l) ∧
    ∀ key, Verified key ∈ (dial_upstream keys name port (gu_user g) a file).1.2 → key ∈ l'.*2) as Hpins.
  { rewrite (dial_file (gu_user g) a file). destruct (da_stream a) eqn:Hs.
    - pose proof (verify_keeps (da_append a) name port (da_server_key a) file name port l (Hio _ _ eq_refl) Hname Hname Hl) as Hv.
      assert (∀ key, Verified key ∈ (dial_upstream keys name port (gu_user g) a file).1.2 →
        key = da_server_key a ∧ (verify_server_key (da_append a) name port (da_server_key a) file).2 = Ok true) as Hver.
      { intros key Hk. pose proof (dial_verified (gu_user g) a file key) as Hd. destruct (dial_upstream _ _ _ _ a file) as [[f1 ev] r]. by apply Hd. }
      destruct (verify_server_key _ _ _ _ file) as [file1 r]. destruct Hv as (l1 & Hl1 & Hk1 & _ & Hacc). exists l1. split; [done|]. split; [done|].
      intros key Hk. destruct (Hver _ Hk) as [-> Hr]. simpl in Hr. subst r. by apply Hacc.
    - exists l. split; [done|]. split; [done|]. unfold dial_upstream. rewrite Hs. simpl. set_solver. }
  by destruct (dial_upstream _ _ _ _ a file) as [[f1 ev] [h|e]].
Qed.

Lemma guest_run_dials events past g file :
  authenticated_first (past ++ events) → user_signed past g → dials_of (past ++ events) (guest_run events (g, file)).2.
Proof.
  revert past g file. induction events as [|event events IH]; intros past g file Hauth Hu; cbn [guest_run]; [by exists []|].
  pose proof (user_signed_step past event g file Hu) as Hu1. pose proof (guest_step_dials event g file) as Ht.
  destruct (guest_step (g, file) event) as [[g1 file1] t1]. cbn [fst snd] in *.
  replace (past ++ event :: events) with ((past ++ [event]) ++ events) in * by (by rewrite <- app_assoc).
  specialize (IH (past ++ [event]) g1 file1 Hauth Hu1). destruct (guest_run events (g1, file1)) as [[g2 file2] t2]. cbn [snd] in *.
  destruct IH as (dials & -> & Hd). destruct Ht as [->|[(a & opens & ->) Ht]]; [by exists dials|].
  exists ((gu_user g, t1) :: dials). split; [done|]. constructor; [|done]. split; [done|]. rewrite <- app_assoc. apply signed_for_app, Hu.
  apply (Hauth past a opens events). by rewrite <- app_assoc.
Qed.

Lemma guest_run_pins events g file l :
  plain_host name → intact_opens events → ru_known_host_keys name port file = Some l →
  let '(_, file', trace) := guest_run events (g, file) in
  ∃ l', ru_known_host_keys name port file' = Some l' ∧ (l ≠ [] → l' = l) ∧ ∀ key, Verified key ∈ trace → key ∈ l'.*2.
Proof.
  intros Hname. revert g file l. induction events as [|event events IH]; intros g file l Hio Hl; cbn [guest_run]; [exists l; set_solver|].
  pose proof (guest_step_pins event g file l Hname) as Hs.
  specialize (Hs ltac:(intros ? ? ->; eapply Hio; left) Hl). destruct (guest_step (g, file) event) as [[g1 file1] t1].
  destruct Hs as (l1 & Hl1 & Hk1 & Hv1). specialize (IH g1 file1 l1 ltac:(intros ???; eapply Hio; by right) Hl1).
  destruct (guest_run events (g1, file1)) as [[g2 file2] t2]. destruct IH as (l2 & Hl2 & Hk2 & Hv2).
  exists l2. split; [done|]. split; [intros Hne; rewrite Hk2; rewrite (Hk1 Hne); done|].
  intros key [Hk|Hk]%elem_of_app; [|by apply Hv2]. specialize (Hv1 _ Hk). destruct l1; [set_solver|]. by rewrite Hk2.
Qed.

(** C13: Whatever a guest does of its connection, channels being opened only
    after an accepted authentication, and of a [known_hosts] file read line by
    line as documented, hodor presents upstream nothing but the real identity,
    for a name the guest signed for with the decoy key, right after verifying
    the server's key. And when the host's name is made of letters, digits,
    dots, hyphens, underscores and colons, its pins can be read, and every
    append to [known_hosts] either cannot open it or reads it back and writes
    it whole, a host that was pinned keeps its pins and every key taken for
    verified is pinned. *)
Theorem identity_presented_safely events file :
  authenticated_first events →
  (∀ before user identity after, (guest_run events (Guest_new, file)).2 = before ++ Presented user identity :: after →
     identity = lk_identity keys ∧ signed_for events user ∧ ∃ key front, before = front ++ [Dialed; Verified key]) ∧
  ∀ l, plain_host name → intact_opens events → ru_known_host_keys name port file = Some l →
    ∃ l', ru_known_host_keys name port (guest_run events (Guest_new, file)).1.2 = Some l' ∧ (l ≠ [] → l' = l) ∧
      ∀ key, Verified key ∈ (guest_run events (Guest_new, file)).2 → key ∈ l'.*2.
Proof.
  intros Hauth. split.
  - intros before user identity after. apply dials_presented. apply (guest_run_dials events [] Guest_new file Hauth).
    intros [user' Hs]. by apply not_elem_of_nil in Hs.
  - intros l Hname Hio Hl. pose proof (guest_run_pins events Guest_new file l Hname Hio Hl) as Hp.
    by destruct (guest_run events (Guest_new, file)) as [[g file'] trace].
Qed.
End GuestLeg.

(** ** What a channel carries *)

(** What comes before a pump stops, and what stops it. *)
Fixpoint upto {A} (stops : A → bool) (l : list A) : list A :=
  match l with [] => [] | x :: l => if stops x then [x] else x :: upto stops l end.
Definition guest_stops (m : ChannelMsg * bool) : bool :=
  bool_decide (m.1 = MClose) || (m.2 && bool_of_opt (upstream_request m.1)).
(** What the guest is told of a server's message. *)
Definition guest_told (message : ChannelMsg) : option ChannelMsg :=
  match message with
  | MData _ | MExtendedData _ _ | MExitStatus _ | MSuccess | MFailure | MEof => Some message
  | _ => None
  end.
Definition server_stops (m : ChannelMsg * bool) : bool :=
  match m.1 with MClose | MOpenFailure => true | MData _ | MExtendedData _ _ => m.2 | _ => false end.
Definition server_closes (m : ChannelMsg * bool) : bool := match m.1 with MClose | MOpenFailure => true | _ => false end.

(** A session channel carries what it should and nothing else: the server
    gets the guest's requests and data in their order up to the first that
    cannot be sent or closes, and no other kind of message (no forwarding); the
    guest gets the server's data, statuses and answers in their order up to the
    first that cannot be sent or closes, and is always told of the close. *)
Theorem channel_bridged (messages : list (ChannelMsg * bool)) :
  guest_pump messages = omap upstream_request (upto guest_stops messages).*1 ∧
  server_pump messages = omap guest_told (upto server_stops messages).*1 ++
    (if existsb server_closes (upto server_stops messages) then [MClose] else []) ++ [MClose].
Proof.
  split.
  - induction messages as [|[m fails] messages IH]; [done|]. cbn [guest_pump upto]. unfold forward_guest_message, guest_stops at 1.
    destruct m, fails; simpl; rewrite ?IH; done.
  - induction messages as [|[m fails] messages IH]; [done|]. cbn [server_pump upto]. unfold server_stops at 1.
    destruct m, fails; simpl; rewrite ?IH; done.
Qed.

(** ** The key cache *)

Section Cache.
Context `{!Russh} (host_key : Path → result SshError PrivateKey) (read_to_string : Path → option bytes).

(** The keys of every entry are those of its files. *)
Definition cache_ok (cache : list ((Path * Path * Path) * LegKeys)) : Prop :=
  ∀ files keys, cached (cache_key files) cache = Some keys → LegKeys_load host_key read_to_string files = Ok keys.

(** Files that do not change give each connection the keys that loading them
    would, and once they loaded they are not read again. *)
Lemma legs_cached files cache : cache_ok cache →
  let '(cache', r) := legs host_key read_to_string files cache in
  r = LegKeys_load host_key read_to_string files ∧ cache_ok cache' ∧
  (is_ok r = true → ∀ host_key' read', legs host_key' read' files cache' = (cache', r)).
Proof.
  intros Hc. unfold legs. destruct (cached (cache_key files) cache) as [keys|] eqn:Ek.
  - split; [symmetry; by apply Hc|]. split; [done|]. intros _ hk rd. by rewrite Ek.
  - destruct (LegKeys_load host_key read_to_string files) as [keys|e] eqn:El; [|done]. split; [done|]. split.
    + intros files' keys'. unfold cached. simpl. case_bool_decide as Hk; [|apply Hc]. simpl. intros [= <-].
      unfold cache_key in Hk. injection Hk as H1 H2 H3. by destruct files, files'; simplify_eq/=.
    + intros _ hk rd. unfold cached. simpl. by rewrite bool_decide_true.
Qed.
End Cache.

(** ** Witnesses *)

(** A key is its text; a line of [known_hosts] is a name, a space and a key. *)
Definition sample_entry (host : bytes) (port : N) (line : bytes) : option (nat * bytes) :=
  match position (λ b, bool_decide (b = Byte.x20)) line with
  | Some i => if bool_decide (take i line = host_name host port) then Some (0, drop (S i) line) else None
  | None => None
  end.
Definition sample_pins (host : bytes) (port : N) (file : option bytes) : list (nat * bytes) :=
  omap (sample_entry host port) (split_byte LF (default [] file)).
#[local] Instance sample_russh : Russh := {|
  PublicKey := bytes;
  PrivateKey := bytes;
  ru_public key := key;
  ru_to_openssh key := if decide (LF ∈ key) then None else Some key;
  ru_secret_to_openssh key := Some key;
  ru_decode_secret_key text := Some text;
  ru_parse_public_key_base64 text := Some text;
  ru_known_host_keys host port file := Some (sample_pins host port file);
|}.

Lemma split_byte_app sep a b : split_byte sep (a ++ sep :: b) = split_byte sep a ++ split_byte sep b.
Proof.
  induction a as [|c a IH]; simpl; [by rewrite decide_True|]. rewrite IH. case_decide; [done|].
  pose proof (split_byte_nonempty sep a). by destruct (split_byte sep a).
Qed.
Lemma plain_not host b : plain_host host → plain_byte b = false → b ∉ host.
Proof. intros [_ Hf] Hb Hin. rewrite Forall_forall in Hf. rewrite (Hf _ Hin) in Hb. done. Qed.
Lemma dec_not_in n b : is_digit b = false → b ∉ dec n.
Proof. intros Hb Hin. pose proof (dec_digits n) as Hf. rewrite Forall_forall in Hf. by rewrite (Hf _ Hin) in Hb. Qed.
Lemma dec_injective n m : dec n = dec m → n = m.
Proof.
  intros Heq. pose proof (from_str_radix_to_digits (N.max n m) 10 n ltac:(lia) ltac:(lia)) as Hn.
  pose proof (from_str_radix_to_digits (N.max n m) 10 m ltac:(lia) ltac:(lia)) as Hm. unfold dec in Heq. rewrite Heq in Hn. congruence.
Qed.
Lemma host_name_free host port b : plain_host host → plain_byte b = false → b ∉ bs "[]:" → b ∉ host_name host port.
Proof.
  intros Hh Hb Hs. unfold host_name. pose proof (plain_not host b Hh Hb). assert (b ∉ dec port).
  { apply dec_not_in. unfold plain_byte in Hb. by destruct (is_digit b). }
  case_match; [done|]. change (bs "[]:") with [Byte.x5b; Byte.x5d; Byte.x3a] in Hs.
  change (bs "[" ++ host ++ bs "]:" ++ dec port) with (Byte.x5b :: host ++ Byte.x5d :: Byte.x3a :: dec port).
  rewrite !not_elem_of_cons in *. rewrite not_elem_of_app, !not_elem_of_cons. naive_solver.
Qed.
Lemma host_name_inj h p h' p' : plain_host h → plain_host h' → host_name h p = host_name h' p' ↔ h = h' ∧ p = p'.
Proof.
  intros Hh Hh'. split; [|by intros [-> ->]]. unfold host_name.
  pose proof (plain_not h (Byte.x5b) Hh eq_refl) as Hb. pose proof (plain_not h' (Byte.x5b) Hh' eq_refl) as Hb'.
  destruct (N.eqb_spec p 22) as [->|], (N.eqb_spec p' 22) as [->|]; simpl; [done|intros ->; set_solver|intros <-; set_solver|].
  intros [= Heq]. assert (∀ a b c d : bytes, Byte.x5d ∉ a → Byte.x5d ∉ c → a ++ Byte.x5d :: b = c ++ Byte.x5d :: d → a = c ∧ b = d) as Hsplit.
  { clear. induction a as [|x a IH]; intros b [|y c] d Ha Hc Heq; simplify_eq/=; [done|set_solver|set_solver|].
    destruct (IH b c d) as [-> ->]; [set_solver|set_solver|done|done]. }
  apply Hsplit in Heq as [-> Heq]; [|by apply plain_not..]. injection Heq as Heq. split; [done|]. by apply dec_injective.
Qed.
Lemma sample_entry_line host port h p key :
  plain_host host → plain_host h → sample_entry host port (host_name h p ++ Byte.x20 :: key) = if bool_decide (host = h ∧ port = p) then Some (0, key) else None.
Proof.
  intros Hhost Hh. unfold sample_entry. rewrite position_app.
  2: { apply Forall_forall. intros b Hb. apply bool_decide_eq_false. intros ->. revert Hb. by apply host_name_free; [|done|vm_compute; set_solver]. }
  simpl. rewrite Nat.add_0_r, take_app_length. replace (drop (S _) _) with key.
  2: { replace (S (length (host_name h p))) with (length (host_name h p ++ [Byte.x20])) by (rewrite length_app; simpl; lia).
       replace (host_name h p ++ Byte.x20 :: key) with ((host_name h p ++ [Byte.x20]) ++ key) by (by rewrite <- app_assoc). by rewrite drop_app_length. }
  assert (bool_decide (host_name h p = host_name host port) = bool_decide (host = h ∧ port = p)) as ->; [|done].
  apply bool_decide_ext. rewrite host_name_inj by done. naive_solver.
Qed.
#[local] Instance sample_known_hosts : KnownHostsLaws.
Proof.
  split; try done; simpl; unfold sample_pins; simpl.
  - intros host port text Hne Hlast. by rewrite split_byte_app, omap_app, app_nil_r.
  - intros host port text h p key encoded l Hhost Hh Htext He [= <-]. exists 0. f_equal.
    case_decide as Hlf; [done|]. injection He as <-.
    assert (split_byte LF (host_name h p ++ Byte.x20 :: key ++ [LF]) = [host_name h p ++ Byte.x20 :: key; []]) as Hline.
    { replace (host_name h p ++ Byte.x20 :: key ++ [LF]) with ((host_name h p ++ Byte.x20 :: key) ++ LF :: []) by (rewrite <- app_assoc; done).
      rewrite split_byte_app, split_byte_none; [done|]. apply Forall_app. split.
      - apply Forall_forall. intros b Hb ->. revert Hb. by apply host_name_free; [|done|vm_compute; set_solver].
      - constructor; [done|]. apply Forall_forall. by intros b Hb ->. }
    assert (omap (sample_entry host port) [host_name h p ++ Byte.x20 :: key; []] = if bool_decide (host = h ∧ port = p) then [(0, key)] else []) as Hentry.
    { cbn [omap list_omap]. rewrite sample_entry_line by done. by case_bool_decide. }
    destruct Htext as [->|Hlast]; [cbn [app]; by rewrite Hline, Hentry|].
    assert (∃ t, text = t ++ [LF]) as [t ->] by (destruct text using rev_ind; [done|rewrite last_snoc in Hlast; injection Hlast as ->; by eexists]).
    rewrite <- app_assoc. cbn [app]. rewrite !split_byte_app, Hline, !omap_app, Hentry. by rewrite app_nil_r.
Qed.

Definition sample_offer (host key : bytes) : Offer := {| of_host := host; of_port := 22; of_key := key; of_append := Written true |}.
Definition sample_offers : list Offer :=
  [sample_offer (bs "git.example.org") (bs "ssh-ed25519 AAAA"); sample_offer (bs "other.org") (bs "ssh-ed25519 BBBB");
   sample_offer (bs "git.example.org") (bs "ssh-ed25519 CCCC"); sample_offer (bs "git.example.org") (bs "ssh-ed25519 AAAA")].
Lemma plain_all h : forallb plain_byte h = true → h ≠ [] → plain_host h.
Proof. intros Hf Hne. split; [done|]. apply Forall_forall. intros b Hb. apply list_elem_of_In in Hb. by eapply forallb_forall in Hf. Qed.
Lemma host_keys_accept_new_witness :
  (verify_all sample_offers None).2 = [Ok true; Ok true; Ok false; Ok true] ∧
  ∃ l', ru_known_host_keys (bs "git.example.org") 22 (verify_all sample_offers None).1 = Some l' ∧ length l' ≤ 1 ∧ bs "ssh-ed25519 AAAA" ∈ l'.*2.
Proof.
  split; [vm_compute; reflexivity|].
  pose proof (host_keys_accept_new (bs "git.example.org") 22 [] sample_offers None) as Hk.
  specialize (Hk ltac:(apply plain_all; [vm_compute; reflexivity|done]) ltac:(repeat constructor; first [done|by right|vm_compute; reflexivity]) eq_refl).
  assert ((verify_all sample_offers None).2 !! 0 = Some (Ok true)) as Hr by (vm_compute; reflexivity).
  destruct (verify_all sample_offers None) as [file' rs]. destruct Hk as (l' & Hl & _ & Hone & Hacc). exists l'. split; [exact Hl|]. split; [by apply Hone|].
  exact (proj1 (Hacc 0 _ eq_refl eq_refl eq_refl) Hr).
Defined.

(** Two first connections that overlap: each reads before either writes. Both
    keys are accepted, and the file ends with the second writer's alone. *)
Example overlapping_first_connections :
  let read := ru_known_host_keys (bs "git.example.org") 22 None in
  let '(after_a, ra) := verify_server_key (Written true) (bs "git.example.org") 22 (bs "ssh-ed25519 AAAA") None in
  let '(after_b, rb) := verify_server_key (Written true) (bs "git.example.org") 22 (bs "ssh-ed25519 BBBB") None in
  read = Some [] ∧ ra = Ok true ∧ rb = Ok true ∧
  ru_known_host_keys (bs "git.example.org") 22 after_b = Some [(0, bs "ssh-ed25519 BBBB")] ∧ after_a ≠ after_b.
Proof. vm_compute. by repeat split. Qed.

(** An append that fails after it truncated the file, or that cannot read back
    what is there, takes the other hosts' pins with it: a changed key is accepted
    as a first one afterwards. *)
Example append_loses_pins :
  let a := bs "git.example.org" in let b := bs "other.org" in
  let run first := verify_all [sample_offer a (bs "ssh-ed25519 AAAA"); {| of_host := b; of_port := 22; of_key := bs "ssh-ed25519 BBBB"; of_append := first |};
                               sample_offer a (bs "ssh-ed25519 CCCC")] None in
  (run (CutShort true 0)).2 = [Ok true; Err SshIo; Ok true] ∧ (run (Written false)).2 = [Ok true; Ok true; Ok true] ∧
  (run (Written true)).2 = [Ok true; Ok true; Ok false].
Proof. vm_compute. done. Qed.

Definition sample_leg_keys : LegKeys := {| lk_host_key := bs "host"; lk_decoy := bs "decoy"; lk_identity := bs "identity" |}.
Definition sample_guest : list GuestEvent :=
  [GPassword; GPublickey (bs "root") (bs "other"); GPublickey (bs "git") (bs "decoy");
   GOpen {| da_stream := true; da_server_key := bs "ssh-ed25519 AAAA"; da_handshake := true; da_authenticated := Some true; da_append := Written true |} true].
Lemma sample_guest_authenticated : authenticated_first sample_leg_keys sample_guest.
Proof.
  intros before answers opens after Hs. exists (bs "git"). unfold signed_for.
  destruct before as [|e1 [|e2 [|e3 before]]]; [discriminate Hs..|].
  injection Hs as <- <- <- Hs. right; right; left.
Qed.
Lemma identity_presented_safely_witness :
  (guest_run sample_leg_keys (bs "git.example.org") 22 sample_guest (Guest_new, None)).2 =
    [Dialed; Verified (bs "ssh-ed25519 AAAA"); Presented (bs "git") (bs "identity")] ∧
  signed_for sample_leg_keys sample_guest (bs "git").
Proof.
  assert ((guest_run sample_leg_keys (bs "git.example.org") 22 sample_guest (Guest_new, None)).2 =
    [Dialed; Verified (bs "ssh-ed25519 AAAA"); Presented (bs "git") (bs "identity")]) as Ht by (vm_compute; reflexivity).
  split; [exact Ht|].
  destruct (identity_presented_safely sample_leg_keys (bs "git.example.org") 22 sample_guest None sample_guest_authenticated) as [Hg _].
  exact (proj1 (proj2 (Hg _ (bs "git") _ [] (Ht : _ = [Dialed; Verified (bs "ssh-ed25519 AAAA" : PublicKey)] ++ [_])))).
Defined.
