(* ===== verification/TunRoute.v ===== *)
(** * Policy routing of the capture device

    [crates/hodor-tun/src/route.rs] and the part of [tun.rs] that installs the
    routes: the capture table, the two fib rules, and what takes them away. The
    messages of [rtnetlink] and the kernel are parameters; a run keeps the states
    the kernel passed through. *)

From S2P Require Import Prelude.

(** ** Plans *)

Definition FWMARK : N := 136.
Definition TUN_NAME : bytes := bs "hodor0".
Definition ROUTE_TABLE : N := 100.
Definition RULE_PREF_BYPASS : N := 100.
Definition RULE_PREF_CAPTURE : N := 200.
Definition TABLE_MAIN : N := 254.

Record RoutePlan := { op_dst : option (N * N); op_via : option N; op_oif : N }.
Record RulePlan := { up_pref : N; up_fwmark : option N; up_table : N }.
Inductive Undo := FlushTable (table : N) | DelRulePref (pref : N).

(** [127.0.0.0]. *)
Definition loopback_net : N := N.shiftl 127 24.
Definition capture_routes (tun lo : N) : list RoutePlan :=
  [{| op_dst := None; op_via := None; op_oif := tun |}; {| op_dst := Some (loopback_net, 8%N); op_via := None; op_oif := lo |}].
Definition capture_rules (table : N) : list RulePlan :=
  [{| up_pref := RULE_PREF_BYPASS; up_fwmark := Some FWMARK; up_table := TABLE_MAIN |};
   {| up_pref := RULE_PREF_CAPTURE; up_fwmark := None; up_table := table |}].
Definition capture_undos (table : N) : list Undo := [DelRulePref RULE_PREF_BYPASS; FlushTable table; DelRulePref RULE_PREF_CAPTURE].

Inductive TunError :=
| TunCreate | Netlink_ | LinkGet (name : bytes) | InterfaceNotFound (name : bytes)
| RouteList | RouteAdd | RouteDel | RuleList | RuleAdd | RuleDel | RunLoop (detail : bytes).

(** ** The kernel *)

(** The messages, by what this code reads of them, how they are built, and the
    requests, which say whether they succeeded. *)
Class Netlink (K : Type) := {
  RouteMessage : Type;
  RuleMessage : Type;
  rm_inet : RouteMessage → bool;
  rm_header_table : RouteMessage → N;
  rm_tables : RouteMessage → list N;
  um_priorities : RuleMessage → list N;
  nl_route : option (N * N) → option N → N → N → RouteMessage;
  nl_rule : option N → N → N → RuleMessage;
  nl_open : K → bool;
  nl_link_index : bytes → K → option (option N);
  nl_list_rules : K → option (list RuleMessage);
  nl_list_routes : K → option (list RouteMessage);
  nl_add_rule : RuleMessage → K → K * bool;
  nl_add_route : RouteMessage → K → K * bool;
  nl_del_rule : RuleMessage → K → K * bool;
  nl_del_route : RouteMessage → K → K * bool;
}.

Section Routing.
Context `{!Netlink K}.

(** The kernel now, and the states before it, latest first. *)
Definition Seen : Type := K * list K.
Definition Op (A : Type) : Type := Seen → Seen * result TunError A.
#[export] Instance op_ret : MRet Op := λ A a s, (s, Ok a).
#[export] Instance op_bind : MBind Op := λ A B f m s, match m s with (s, Ok a) => f a s | (s, Err e) => (s, Err e) end.
Definition op_lift {A} (r : result TunError A) : Op A := λ s, (s, r).
Definition reads {A} (f : K → result TunError A) : Op A := λ s, (s, f s.1).
Definition request (e : TunError) (f : K → K * bool) : Op () := λ s,
  let '(k, ok) := f s.1 in ((k, s.1 :: s.2), if ok then Ok () else Err e).
Definition guarded {A} (drop : Seen → Seen) (body : Op A) : Op A := λ s, let '(s, r) := body s in (drop s, r).
Fixpoint each {A} (f : A → Op ()) (xs : list A) : Op () :=
  match xs with [] => mret () | x :: xs => _ ← f x; each f xs end.

Definition netlink : Op () := reads (λ k, if nl_open k then Ok () else Err Netlink_).
Definition link_index (name : bytes) : Op N :=
  reads (λ k, match nl_link_index name k with
              | None => Err (LinkGet name)
              | Some None => Err (InterfaceNotFound name)
              | Some (Some index) => Ok index
              end).

Definition route_table (msg : RouteMessage) : N := default (rm_header_table msg) (head (rm_tables msg)).
Definition rule_priority (msg : RuleMessage) : option N := head (um_priorities msg).
Definition route_message (table : N) (plan : RoutePlan) : RouteMessage := nl_route (op_dst plan) (op_via plan) (op_oif plan) table.
Definition add_route (table : N) (plan : RoutePlan) : Op () := request RouteAdd (nl_add_route (route_message table plan)).
Definition add_rule (plan : RulePlan) : Op () := request RuleAdd (nl_add_rule (nl_rule (up_fwmark plan) (up_table plan) (up_pref plan))).

Definition del_rule_pref (pref : N) : Op () :=
  rules ← reads (λ k, ok_or RuleList (nl_list_rules k));
  each (λ msg, if bool_decide (rule_priority msg = Some pref) then request RuleDel (nl_del_rule msg) else mret ()) rules.
Definition flush_table (table : N) : Op () :=
  routes ← reads (λ k, ok_or RouteList (nl_list_routes k));
  each (λ msg, if rm_inet msg && (route_table msg =? table)%N then request RouteDel (nl_del_route msg) else mret ()) routes.
Definition apply_undo (undo : Undo) : Op () :=
  match undo with FlushTable table => flush_table table | DelRulePref pref => del_rule_pref pref end.
(** [RouteGuard::drop]: an undo that fails does not stop the others. *)
Definition drop_guard (undos : list Undo) (s : Seen) : Seen :=
  if nl_open s.1 then foldl (λ s undo, (apply_undo undo s).1) s (rev undos) else s.

(** The routes of a device; and the run of the device it is for, which either
    cannot be created or ends with its loop. *)
Definition install (name : bytes) : Op () :=
  _ ← netlink;
  tun_idx ← link_index name;
  lo_idx ← link_index (bs "lo");
  _ ← each (add_route ROUTE_TABLE) (capture_routes tun_idx lo_idx);
  each add_rule (capture_rules ROUTE_TABLE).
Definition run_tun_named (created : bool) (loop_ : result TunError ()) (name : bytes) (install_routes : bool) : Op () :=
  _ ← op_lift (if created then Ok () else Err TunCreate);
  if install_routes then
    _ ← install name;
    guarded (drop_guard (capture_undos ROUTE_TABLE)) (op_lift loop_)
  else op_lift loop_.
Definition run_tun (created : bool) (loop_ : result TunError ()) : Op () := run_tun_named created loop_ TUN_NAME true.
End Routing.

(** ** Where a packet goes *)

Record Dgram := { dg_dst : N; dg_mark : N }.
(** The network [addr/len] has an address of 32 bits. *)
Definition in_net (net : option (N * N)) (addr : N) : bool :=
  match net with None => true | Some (base, len) => (N.shiftr addr (32 - len) =? N.shiftr base (32 - len))%N end.
Definition net_len (net : option (N * N)) : N := match net with None => 0 | Some (_, len) => len end.

(** The documented behaviour of the kernel: what is installed, as it is listed;
    a request that fails changes nothing; a route replaces one of its table and
    network. Rules stand in the order of their priorities, a rule that selects a
    packet asks its table for the longest network, and if there is none the next
    rule is asked. *)
Class Fib (K : Type) `{!Netlink K} := {
  fv_rules : K → list RuleMessage;
  fv_routes : K → list RouteMessage;
  fv_rule : RuleMessage → RuleMessage;
  fv_route : RouteMessage → RouteMessage;
  fu_pref : RuleMessage → N;
  fu_table : RuleMessage → N;
  fu_selects : RuleMessage → Dgram → bool;
  fr_net : RouteMessage → option (N * N);
  fv_nl_rule mark table pref : let m := fv_rule (nl_rule mark table pref) in
    fu_pref m = pref ∧ fu_table m = table ∧ ∀ p, fu_selects m p = match mark with None => true | Some v => (dg_mark p =? v)%N end;
  fv_nl_route net via oif table : let m := fv_route (nl_route net via oif table) in
    rm_inet m = true ∧ route_table m = table ∧ fr_net m = net;
  fv_priority m pref : rule_priority m = Some pref → fu_pref m = pref;
  fv_listed_rules k l : nl_list_rules k = Some l → l = fv_rules k;
  fv_listed_routes k l : nl_list_routes k = Some l → l = fv_routes k;
  fv_add_rule m k : let '(k', ok) := nl_add_rule m k in
    fv_routes k' = fv_routes k ∧ if ok then ∀ r, r ∈ fv_rules k' ↔ r = fv_rule m ∨ r ∈ fv_rules k else fv_rules k' = fv_rules k;
  fv_add_route m k : let '(k', ok) := nl_add_route m k in
    fv_rules k' = fv_rules k ∧
    if ok then fv_route m ∈ fv_routes k' ∧ (∀ r, r ∈ fv_routes k' → r = fv_route m ∨ r ∈ fv_routes k) ∧
               (∀ r, r ∈ fv_routes k →
                  rm_inet r = false ∨ route_table r ≠ route_table (fv_route m) ∨ fr_net r ≠ fr_net (fv_route m) → r ∈ fv_routes k')
    else fv_routes k' = fv_routes k;
  fv_del_rule m k : let '(k', ok) := nl_del_rule m k in
    fv_routes k' = fv_routes k ∧ if ok then fv_rules k ≡ₚ m :: fv_rules k' else fv_rules k' = fv_rules k;
  fv_del_route m k : let '(k', ok) := nl_del_route m k in
    fv_rules k' = fv_rules k ∧ if ok then fv_routes k ≡ₚ m :: fv_routes k' else fv_routes k' = fv_routes k;
}.

Section Decisions.
Context `{Fib K}.
Implicit Types (k : K) (p : Dgram) (r : RouteMessage) (m : RuleMessage) (table : N).

Definition reaches (table : N) (p : Dgram) (r : RouteMessage) : bool :=
  rm_inet r && (route_table r =? table)%N && in_net (fr_net r) (dg_dst p).
(** The routes a table may answer with: those of the longest network. *)
Definition finds (k : K) (table : N) (p : Dgram) (r : RouteMessage) : Prop :=
  r ∈ fv_routes k ∧ reaches table p r = true ∧
  ∀ r', r' ∈ fv_routes k → reaches table p r' = true → (net_len (fr_net r') ≤ net_len (fr_net r))%N.
Definition answers (k : K) (table : N) (p : Dgram) : bool := existsb (reaches table p) (fv_routes k).
(** The routes a packet may take: of the rules of one priority, any. *)
Definition decides (k : K) (p : Dgram) (r : RouteMessage) : Prop :=
  ∃ m, m ∈ fv_rules k ∧ fu_selects m p = true ∧ finds k (fu_table m) p r ∧
    ∀ m', m' ∈ fv_rules k → (fu_pref m' < fu_pref m)%N → fu_selects m' p && answers k (fu_table m') p = false.

Lemma least {A} (f : A → Z) (P : A → bool) (l : list A) x :
  x ∈ l → P x = true → ∃ y, y ∈ l ∧ P y = true ∧ ∀ z, z ∈ l → (f z < f y)%Z → P z = false.
Proof.
  revert x. induction l as [|a l IH]; intros x Hx HP; [set_solver|].
  destruct (existsb P l) eqn:Hl.
  - apply existsb_exists in Hl as (b & Hb%list_elem_of_In & HPb). destruct (IH b Hb HPb) as (y & Hy & HPy & Hmin).
    destruct (P a && (f a <? f y)%Z) eqn:Ha.
    + apply andb_true_iff in Ha as [HPa Hlt%Z.ltb_lt]. exists a. split; [left|]. split; [done|].
      intros z [->|Hz]%elem_of_cons Hz'; [lia|]. apply Hmin; [done|lia].
    + exists y. split; [by right|]. split; [done|]. intros z [->|Hz]%elem_of_cons Hz'; [|by apply Hmin].
      apply andb_false_iff in Ha as [Ha|Ha%Z.ltb_ge]; [done|lia].
  - assert (∀ z, z ∈ l → P z = false) as Hno.
    { intros z Hz%list_elem_of_In. apply not_true_is_false. intros Ht. rewrite (proj2 (existsb_exists P l)) in Hl; [done|by exists z]. }
    apply elem_of_cons in Hx as [->|Hx]; [|by rewrite Hno in HP]. exists a. split; [left|]. split; [done|].
    intros z [->|Hz]%elem_of_cons Hlt; [lia|by apply Hno].
Qed.

Lemma answers_finds k table p : answers k table p = true ↔ ∃ r, finds k table p r.
Proof.
  unfold answers, finds. rewrite existsb_exists. split.
  - intros (r & Hr%list_elem_of_In & Hp). destruct (least (λ r, - Z.of_N (net_len (fr_net r)))%Z _ _ _ Hr Hp) as (y & Hy & HPy & Hmin).
    exists y. split; [done|]. split; [done|]. intros r' Hr' HP'. destruct (N.le_gt_cases (net_len (fr_net r')) (net_len (fr_net y))) as [|Hgt]; [done|].
    rewrite Hmin in HP'; [done|done|lia].
  - intros (r & Hr & Hp & _). exists r. by rewrite <- list_elem_of_In.
Qed.

Lemma decides_some k p m : m ∈ fv_rules k → fu_selects m p && answers k (fu_table m) p = true → ∃ r, decides k p r.
Proof.
  intros Hm HP. destruct (least (λ m, Z.of_N (fu_pref m)) (λ m, fu_selects m p && answers k (fu_table m) p) _ _ Hm HP) as (y & Hy & [Hs Ha]%andb_true_iff & Hmin).
  apply answers_finds in Ha as [r Hr]. exists r, y. split; [done|]. split; [done|]. split; [done|]. intros m' Hm' Hlt. apply Hmin; [done|lia].
Qed.

(** ** While the capture is installed and taken away *)

Context (k0 : K) (name : bytes).

(** Nothing else uses the priorities and the table of the capture. *)
Definition clear : Prop :=
  (∀ m, m ∈ fv_rules k0 → fu_pref m ≠ RULE_PREF_BYPASS ∧ fu_pref m ≠ RULE_PREF_CAPTURE ∧ fu_table m ≠ ROUTE_TABLE) ∧
  (∀ r, r ∈ fv_routes k0 → rm_inet r = true → route_table r ≠ ROUTE_TABLE).
Definition bypass_rule : RuleMessage := fv_rule (nl_rule (Some FWMARK) TABLE_MAIN RULE_PREF_BYPASS).
Definition capture_rule : RuleMessage := fv_rule (nl_rule None ROUTE_TABLE RULE_PREF_CAPTURE).
(** A route of the capture table: into the device, or for the loopback. *)
Definition captured (r : RouteMessage) : Prop :=
  ∃ tun lo, nl_link_index name k0 = Some (Some tun) ∧ nl_link_index (bs "lo") k0 = Some (Some lo) ∧
    r ∈ map (λ plan, fv_route (route_message ROUTE_TABLE plan)) (capture_routes tun lo).

(** The state is the first one, and some of what the capture installs. *)
Record between (k : K) : Prop := {
  bw_rules m : m ∈ fv_rules k → m ∈ fv_rules k0 ∨ m = bypass_rule ∨ m = capture_rule;
  bw_kept m : m ∈ fv_rules k0 → m ∈ fv_rules k;
  bw_routes r : rm_inet r = true → route_table r ≠ ROUTE_TABLE → r ∈ fv_routes k ↔ r ∈ fv_routes k0;
  bw_table r : r ∈ fv_routes k → rm_inet r = true → route_table r = ROUTE_TABLE → captured r;
}.

Lemma between_finds k table p r : between k → table ≠ ROUTE_TABLE → finds k table p r ↔ finds k0 table p r.
Proof.
  intros Hk Ht. assert (∀ r, reaches table p r = true → r ∈ fv_routes k ↔ r ∈ fv_routes k0) as He.
  { intros r' [[Hi Hr%N.eqb_eq]%andb_true_iff _]%andb_true_iff. apply (bw_routes k Hk); [done|congruence]. }
  unfold finds. split; intros (Hr & Hp & Hmax); (split; [by apply He|]); (split; [done|]); intros r' Hr' Hp'; apply Hmax; try done; by apply He.
Qed.
Lemma between_answers k table p : between k → table ≠ ROUTE_TABLE → answers k table p = answers k0 table p.
Proof.
  intros Hk Ht. apply eq_true_iff_eq. rewrite !answers_finds. by split; intros [r Hr]; exists r; eapply (between_finds k).
Qed.
Lemma bypass_is : fu_pref bypass_rule = RULE_PREF_BYPASS ∧ fu_table bypass_rule = TABLE_MAIN ∧ ∀ p, fu_selects bypass_rule p = (dg_mark p =? FWMARK)%N.
Proof. apply (fv_nl_rule (Some FWMARK)). Qed.
Lemma capture_is : fu_pref capture_rule = RULE_PREF_CAPTURE ∧ fu_table capture_rule = ROUTE_TABLE ∧ ∀ p, fu_selects capture_rule p = true.
Proof. apply (fv_nl_rule None). Qed.

Lemma between_decides k p : clear → between k →
  (∀ r, decides k p r → decides k0 p r ∨ (captured r ∧ capture_rule ∈ fv_rules k) ∨ (dg_mark p = FWMARK ∧ finds k0 TABLE_MAIN p r)) ∧
  ((∃ r, decides k0 p r) → ∃ r, decides k p r).
Proof.
  intros [Hclear _] Hk. split.
  - intros r (m & Hm & Hs & Hf & Hmin). destruct (bw_rules k Hk m Hm) as [Hm0|[->| ->]].
    + left. destruct (Hclear m Hm0) as (_ & _ & Ht). exists m. split; [done|]. split; [done|]. split; [by apply (between_finds k)|].
      intros m' Hm' Hlt. destruct (Hclear m' Hm') as (_ & _ & Ht'). rewrite <- (between_answers k) by done. apply Hmin; [|done]. by apply (bw_kept k Hk).
    + right; right. destruct bypass_is as (_ & Ht & Hsel). rewrite Hsel in Hs. apply N.eqb_eq in Hs. split; [done|]. rewrite Ht in Hf. by apply (between_finds k).
    + right; left. destruct capture_is as (_ & Ht & _). destruct Hf as (Hr & [[Hi Hrt%N.eqb_eq]%andb_true_iff _]%andb_true_iff & _).
      split; [|done]. apply (bw_table k Hk); [done|done|congruence].
  - intros (r & m & Hm & Hs & Hf & _). destruct (Hclear m Hm) as (_ & _ & Ht). apply (decides_some k p m); [by apply (bw_kept k Hk)|].
    rewrite Hs. rewrite (between_answers k) by done. apply answers_finds. by exists r.
Qed.

(** ** What every request keeps *)

Definition keeps {A} (Inv : K → Prop) (op : Op A) : Prop :=
  ∀ s, Inv s.1 → Forall Inv s.2 → Inv (op s).1.1 ∧ Forall Inv (op s).1.2.
Lemma keeps_ret {A} Inv (a : A) : keeps Inv (mret a).
Proof. by intros s. Qed.
Lemma keeps_lift {A} Inv (r : result TunError A) : keeps Inv (op_lift r).
Proof. by intros s. Qed.
Lemma keeps_reads {A} Inv (f : K → result TunError A) : keeps Inv (reads f).
Proof. by intros s. Qed.
Lemma keeps_bind {A B} Inv (m : Op A) (f : A → Op B) :
  keeps Inv m → (∀ s s' a, Inv s.1 → m s = (s', Ok a) → keeps Inv (f a)) → keeps Inv (m ≫= f).
Proof.
  intros Hm Hf s Hs Hp. unfold mbind, op_bind. pose proof (Hm s Hs Hp) as [H1 H2].
  destruct (m s) as [s' [a|e]] eqn:E; [|done]. by apply (Hf s s' a).
Qed.
Lemma keeps_request Inv e (f : K → K * bool) : (∀ k, Inv k → Inv (f k).1) → keeps Inv (request e f).
Proof.
  intros Hf [k past] Hk Hp. unfold request. cbn [fst] in *. pose proof (Hf k Hk). destruct (f k) as [k' ok]. simpl in *. by split; [|constructor].
Qed.
Lemma keeps_each {A} Inv (f : A → Op ()) xs : (∀ x, x ∈ xs → keeps Inv (f x)) → keeps Inv (each f xs).
Proof.
  induction xs as [|x xs IH]; intros Hf; [apply keeps_ret|]. cbn [each]. apply keeps_bind; [apply Hf; left|].
  intros s s' [] _ _. apply IH. intros y Hy. apply Hf. by right.
Qed.
Lemma keeps_guarded {A} Inv (drop : Seen → Seen) (body : Op A) :
  (∀ s, Inv s.1 → Forall Inv s.2 → Inv (drop s).1 ∧ Forall Inv (drop s).2) → keeps Inv body → keeps Inv (guarded drop body).
Proof.
  intros Hd Hb s Hs Hp. unfold guarded. pose proof (Hb s Hs Hp) as [H1 H2]. destruct (body s) as [s' r]. by apply Hd.
Qed.

Lemma add_rule_between m k : (fv_rule m = bypass_rule ∨ fv_rule m = capture_rule) → between k → between (nl_add_rule m k).1.
Proof.
  intros Hm [H1 H2 H3 H4]. pose proof (fv_add_rule m k) as Ha. destruct (nl_add_rule m k) as [k' ok]. destruct Ha as [Hr Ha]. simpl.
  destruct ok; (split; [| |by rewrite Hr|by rewrite Hr]).
  - intros m'. rewrite Ha. naive_solver.
  - intros m' Hm'. rewrite Ha. right. by apply H2.
  - rewrite Ha. apply H1.
  - intros m' Hm'. rewrite Ha. by apply H2.
Qed.
Lemma add_route_between (m : RouteMessage) k :
  rm_inet (fv_route m) = true → route_table (fv_route m) = ROUTE_TABLE → captured (fv_route m) → between k → between (nl_add_route m k).1.
Proof.
  intros Hi Ht Hc [H1 H2 H3 H4]. pose proof (fv_add_route m k) as Ha. destruct (nl_add_route m k) as [k' ok]. destruct Ha as [Hr Ha]. simpl.
  destruct ok; [destruct Ha as (Hin & Hsub & Hkeep)|]; (split; [by rewrite Hr|by rewrite Hr| |]).
  - intros r Hri Hrt. rewrite <- H3 by done. split; [|intros Hr'; apply Hkeep; [done|]; right; left; congruence].
    intros [->|Hr']%Hsub; [done|done].
  - intros r [->|Hr']%Hsub Hri Hrt; [done|by apply H4].
  - rewrite Ha. apply H3.
  - rewrite Ha. apply H4.
Qed.
Lemma del_rule_between pref m k :
  clear → pref = RULE_PREF_BYPASS ∨ pref = RULE_PREF_CAPTURE → rule_priority m = Some pref → between k → between (nl_del_rule m k).1.
Proof.
  intros [Hclear _] Hpref Hm%fv_priority [H1 H2 H3 H4]. pose proof (fv_del_rule m k) as Ha. destruct (nl_del_rule m k) as [k' ok]. destruct Ha as [Hr Ha]. simpl.
  destruct ok; (split; [| |by rewrite Hr|by rewrite Hr]).
  - intros m' Hm'. apply H1. rewrite Ha. by right.
  - intros m' Hm'. pose proof (H2 m' Hm') as Hin. rewrite Ha in Hin. apply elem_of_cons in Hin as [->|]; [|done].
    destruct (Hclear m Hm') as (? & ? & _). naive_solver congruence.
  - by rewrite Ha.
  - by rewrite Ha.
Qed.
Lemma del_route_between (m : RouteMessage) k : rm_inet m = true → route_table m = ROUTE_TABLE → between k → between (nl_del_route m k).1.
Proof.
  intros Hi Ht [H1 H2 H3 H4]. pose proof (fv_del_route m k) as Ha. destruct (nl_del_route m k) as [k' ok]. destruct Ha as [Hr Ha]. simpl.
  destruct ok; (split; [by rewrite Hr|by rewrite Hr| |]).
  - intros r Hri Hrt. rewrite <- H3 by done. rewrite Ha, elem_of_cons. naive_solver congruence.
  - intros r Hr'. apply H4. rewrite Ha. by right.
  - by rewrite Ha.
  - by rewrite Ha.
Qed.

Lemma undo_between undo : clear → undo ∈ capture_undos ROUTE_TABLE → keeps between (apply_undo undo).
Proof.
  intros Hclear Hin. assert ((∃ pref, undo = DelRulePref pref ∧ (pref = RULE_PREF_BYPASS ∨ pref = RULE_PREF_CAPTURE)) ∨ undo = FlushTable ROUTE_TABLE) as Hcase.
  { unfold capture_undos in Hin. rewrite !elem_of_cons, elem_of_nil in Hin. naive_solver. }
  destruct Hcase as [(pref & -> & Hpref)| ->].
  - apply keeps_bind; [apply keeps_reads|]. intros s s' rules _ _. apply keeps_each. intros m _. case_bool_decide; [|apply keeps_ret].
    apply keeps_request. intros k. by apply (del_rule_between pref).
  - apply keeps_bind; [apply keeps_reads|]. intros s s' routes _ _. apply keeps_each. intros m _.
    destruct (rm_inet m && (route_table m =? ROUTE_TABLE)%N) eqn:Hm; [|apply keeps_ret]. apply andb_true_iff in Hm as [Hi Ht%N.eqb_eq].
    apply keeps_request. intros k. by apply del_route_between.
Qed.
Lemma drop_between s : clear → between s.1 → Forall between s.2 →
  between (drop_guard (capture_undos ROUTE_TABLE) s).1 ∧ Forall between (drop_guard (capture_undos ROUTE_TABLE) s).2.
Proof.
  intros Hclear. unfold drop_guard. destruct (nl_open s.1); [|done].
  assert (∀ undo, undo ∈ rev (capture_undos ROUTE_TABLE) → undo ∈ capture_undos ROUTE_TABLE) as Hin.
  { intros undo. by rewrite !list_elem_of_In, <- in_rev. }
  revert Hin. generalize (rev (capture_undos ROUTE_TABLE)) as undos. intros undos. revert s.
  induction undos as [|undo undos IH]; intros s Hin H1 H2; [done|]. cbn [foldl]. destruct (undo_between undo Hclear (Hin _ ltac:(left)) s H1 H2).
  apply IH; [|done|done]. intros u Hu. apply Hin. by right.
Qed.

Lemma route_message_is plan : let m := fv_route (route_message ROUTE_TABLE plan) in
  rm_inet m = true ∧ route_table m = ROUTE_TABLE ∧ fr_net m = op_dst plan.
Proof. apply fv_nl_route. Qed.
Lemma add_routes_between tun lo : nl_link_index name k0 = Some (Some tun) → nl_link_index (bs "lo") k0 = Some (Some lo) →
  keeps between (each (add_route ROUTE_TABLE) (capture_routes tun lo)).
Proof.
  intros Htun Hlo. apply keeps_each. intros plan Hplan. apply keeps_request. intros k. destruct (route_message_is plan) as (Hi & Ht & _).
  apply add_route_between; [done|done|]. exists tun, lo. split; [done|]. split; [done|]. apply list_elem_of_fmap. by exists plan.
Qed.
Lemma add_rules_between : keeps between (each add_rule (capture_rules ROUTE_TABLE)).
Proof.
  apply keeps_each. intros plan Hplan. apply keeps_request. intros k. apply add_rule_between.
  unfold capture_rules in Hplan. rewrite !elem_of_cons, elem_of_nil in Hplan. destruct Hplan as [->|[->|[]]]; [by left|by right].
Qed.
Lemma between_start : clear → between k0.
Proof. intros [_ Hc]. split; [by left|done|done|]. intros r Hr Hi Ht. by destruct (Hc r Hr Hi). Qed.

(** The states of an installation; and the device's index is the first one's. *)
Lemma link_index_is n s s' i : link_index n s = (s', Ok i) → s' = s ∧ nl_link_index n s.1 = Some (Some i).
Proof. unfold link_index, reads. destruct (nl_link_index n s.1) as [[j|]|]; by intros [= -> ->]. Qed.
Lemma install_between : clear → let s := (install name (k0, [])).1 in between s.1 ∧ Forall between s.2.
Proof.
  intros Hclear. assert (between k0 ∧ Forall between []) as H0 by (split; [by apply between_start|constructor]).
  enough (∀ t, install name (k0, []) = t → between t.1.1 ∧ Forall between t.1.2) as Hg by by apply Hg.
  intros t. unfold install, netlink. unfold mbind at 1, op_bind at 1. unfold reads at 1. cbn [fst].
  destruct (nl_open k0); [|intros <-; exact H0]. unfold mbind at 1, op_bind at 1. destruct (link_index name (k0, [])) as [s1 [tun|e]] eqn:E1.
  2:{ unfold link_index, reads in E1. injection E1 as <- _. intros <-. exact H0. }
  apply link_index_is in E1 as [-> Htun]. unfold mbind at 1, op_bind at 1. destruct (link_index (bs "lo") (k0, [])) as [s2 [lo|e]] eqn:E2.
  2:{ unfold link_index, reads in E2. injection E2 as <- _. intros <-. exact H0. }
  apply link_index_is in E2 as [-> Hlo]. intros <-. destruct H0. apply (keeps_bind between); [by apply add_routes_between| |done|done].
  intros s s' [] _ _. apply add_rules_between.
Qed.

(** C19: Where packets go while the capture is installed and taken away, when
    nothing else uses its priorities and its table. In every state the kernel
    passes through, whichever requests fail and wherever the run stops, a packet
    that had a route has one; and any it may take is one it might take before,
    or for hodor's marked packets one of the main table, or one of the capture's
    own, and that only while the capture's rule is installed. A capture rule that
    could not be deleted goes on to send packets to the device after the device
    is gone: such a route counts as one here. *)
Theorem never_stranded created loop_ install_routes :
  clear →
  let s := (run_tun_named created loop_ name install_routes (k0, [])).1 in
  Forall (λ k, ∀ p, ((∃ r, decides k0 p r) → ∃ r, decides k p r) ∧
    ∀ r, decides k p r → decides k0 p r ∨ (captured r ∧ capture_rule ∈ fv_rules k) ∨ (dg_mark p = FWMARK ∧ finds k0 TABLE_MAIN p r)) (s.1 :: s.2).
Proof.
  intros Hclear s. assert (between s.1 ∧ Forall between s.2) as [H1 H2].
  { assert (between k0 ∧ Forall between []) as H0 by (split; [by apply between_start|constructor]).
    subst s. unfold run_tun_named, op_lift, mbind, op_bind.
    destruct created; [|exact H0]. destruct install_routes; [|exact H0].
    pose proof (install_between Hclear) as [Hi Hp]. destruct (install name (k0, [])) as [s' [[]|e]]; [|done].
    apply (keeps_guarded between); [|apply keeps_lift|done|done]. intros t. by apply drop_between. }
  apply Forall_cons_2; [|eapply Forall_impl; [exact H2|]].
  - intros p. destruct (between_decides s.1 p Hclear H1). by split.
  - intros k Hk p. destruct (between_decides k p Hclear Hk). by split.
Qed.

(** ** What an installation routes *)

Lemma request_ok e (f : K → K * bool) s s' : request e f s = (s', Ok ()) → f s.1 = (s'.1, true).
Proof. unfold request. by destruct (f s.1) as [k' []]; intros [= <-]. Qed.
Lemma op_bind_ok {A B} (m : Op (K:=K) A) (f : A → Op (K:=K) B) s s' b : (m ≫= f) s = (s', Ok b) → ∃ s1 a, m s = (s1, Ok a) ∧ f a s1 = (s', Ok b).
Proof. unfold mbind, op_bind. destruct (m s) as [s1 [a|e]]; [|done]. intros Hf. by exists s1, a. Qed.
Lemma each_two_ok {A} (f : A → Op (K:=K) ()) x y s s' : each f [x; y] s = (s', Ok ()) → ∃ s1, f x s = (s1, Ok ()) ∧ f y s1 = (s', Ok ()).
Proof.
  cbn [each]. intros (s1 & [] & H1 & H2)%op_bind_ok. apply op_bind_ok in H2 as (s2 & [] & H2 & [= ->]). by exists s1.
Qed.

Definition device_route (tun : N) : RouteMessage := fv_route (route_message ROUTE_TABLE {| op_dst := None; op_via := None; op_oif := tun |}).
Definition loopback_route (lo : N) : RouteMessage :=
  fv_route (route_message ROUTE_TABLE {| op_dst := Some (loopback_net, 8%N); op_via := None; op_oif := lo |}).
Definition is_loopback (p : Dgram) : bool := in_net (Some (loopback_net, 8%N)) (dg_dst p).

(** All that an installation that succeeds has put there. *)
Record installed (tun lo : N) (k : K) : Prop := {
  is_between : between k;
  is_tun : nl_link_index name k0 = Some (Some tun);
  is_lo : nl_link_index (bs "lo") k0 = Some (Some lo);
  is_device : device_route tun ∈ fv_routes k;
  is_loop : loopback_route lo ∈ fv_routes k;
  is_bypass : bypass_rule ∈ fv_rules k;
  is_capture : capture_rule ∈ fv_rules k;
}.
Lemma add_route_ok table plan s s' : add_route table plan s = (s', Ok ()) →
  fv_route (route_message table plan) ∈ fv_routes s'.1 ∧
  (∀ r, r ∈ fv_routes s.1 → fr_net r ≠ fr_net (fv_route (route_message table plan)) → r ∈ fv_routes s'.1) ∧ fv_rules s'.1 = fv_rules s.1.
Proof.
  intros Hr%request_ok. pose proof (fv_add_route (route_message table plan) s.1) as Ha. rewrite Hr in Ha. destruct Ha as (-> & Hin & _ & Hkeep).
  split; [done|]. split; [|done]. intros r Hr' Hne. apply Hkeep; [done|]. by right; right.
Qed.
Lemma add_rule_ok plan s s' : add_rule plan s = (s', Ok ()) →
  fv_rule (nl_rule (up_fwmark plan) (up_table plan) (up_pref plan)) ∈ fv_rules s'.1 ∧
  (∀ m, m ∈ fv_rules s.1 → m ∈ fv_rules s'.1) ∧ fv_routes s'.1 = fv_routes s.1.
Proof.
  intros Hr%request_ok. pose proof (fv_add_rule (nl_rule (up_fwmark plan) (up_table plan) (up_pref plan)) s.1) as Ha. rewrite Hr in Ha.
  destruct Ha as [-> Ha]. split; [apply Ha; by left|]. split; [|done]. intros m Hm. apply Ha. by right.
Qed.
Lemma install_ok s : clear → install name (k0, []) = (s, Ok ()) → ∃ tun lo, installed tun lo s.1.
Proof.
  intros Hclear Hi. pose proof (install_between Hclear) as [Hb _]. rewrite Hi in Hb. cbn [fst] in Hb. unfold install in Hi.
  apply op_bind_ok in Hi as (s1 & [] & H1 & Hi). unfold netlink, reads in H1. injection H1 as <- _.
  apply op_bind_ok in Hi as (s2 & tun & [-> Htun]%link_index_is & Hi). apply op_bind_ok in Hi as (s3 & lo & [-> Hlo]%link_index_is & Hi).
  apply op_bind_ok in Hi as (s4 & [] & (s5 & (D1 & _ & _)%add_route_ok & (D2 & Dk & _)%add_route_ok)%each_two_ok & Hi).
  apply each_two_ok in Hi as (s6 & (R1 & _ & Q1)%add_rule_ok & (R2 & Rk & Q2)%add_rule_ok).
  exists tun, lo. split; [done|done|done| | | |exact R2]; rewrite ?Q2, ?Q1.
  - apply Dk; [exact D1|]. unfold device_route. pose proof (route_message_is {| op_dst := None; op_via := None; op_oif := tun |}) as (_ & _ & ->).
    by pose proof (route_message_is {| op_dst := Some (loopback_net, 8%N); op_via := None; op_oif := lo |}) as (_ & _ & ->).
  - exact D2.
  - apply Rk. exact R1.
Qed.

Lemma device_reaches tun p : reaches ROUTE_TABLE p (device_route tun) = true ∧ net_len (fr_net (device_route tun)) = 0%N.
Proof.
  pose proof (route_message_is {| op_dst := None; op_via := None; op_oif := tun |}) as (Hi & Ht & Hn). cbn zeta in *.
  unfold reaches, device_route. by rewrite Hi, Ht, Hn.
Qed.
Lemma loopback_reaches lo p : reaches ROUTE_TABLE p (loopback_route lo) = is_loopback p ∧ net_len (fr_net (loopback_route lo)) = 8%N.
Proof.
  pose proof (route_message_is {| op_dst := Some (loopback_net, 8%N); op_via := None; op_oif := lo |}) as (Hi & Ht & Hn). cbn zeta in *.
  unfold reaches, loopback_route. by rewrite Hi, Ht, Hn.
Qed.
Lemma capture_table tun lo k p r : installed tun lo k →
  finds k ROUTE_TABLE p r ↔ r = if is_loopback p then loopback_route lo else device_route tun.
Proof.
  intros [Hb Htun Hlo Hd Hl _ _]. pose proof (device_reaches tun p) as [Dr Dl]. pose proof (loopback_reaches lo p) as [Lr Ll].
  assert (∀ r', r' ∈ fv_routes k → reaches ROUTE_TABLE p r' = true → r' = device_route tun ∨ r' = loopback_route lo) as Honly.
  { intros r' Hr' [[Hi Ht%N.eqb_eq]%andb_true_iff _]%andb_true_iff. destruct (bw_table k Hb r' Hr' Hi Ht) as (t & l & Ht' & Hl' & Hin).
    rewrite Htun in Ht'. rewrite Hlo in Hl'. injection Ht' as <-. injection Hl' as <-. simpl in Hin. set_solver. }
  unfold finds. split.
  - intros (Hr & Hp & Hmax). destruct (Honly r Hr Hp) as [->| ->].
    + destruct (is_loopback p); [|done]. specialize (Hmax _ Hl Lr). lia.
    + by rewrite <- Lr, Hp.
  - intros ->. destruct (is_loopback p); (split; [done|]); (split; [done|]); intros r' Hr' Hp'; destruct (Honly r' Hr' Hp') as [->| ->]; try lia.
    by rewrite Lr in Hp'.
Qed.

Lemma installed_decides tun lo k p :
  clear → installed tun lo k →
  (∀ m, m ∈ fv_rules k0 → (fu_pref m < RULE_PREF_CAPTURE)%N → fu_selects m p && answers k0 (fu_table m) p = false) →
  ∀ r, decides k p r ↔
    if (dg_mark p =? FWMARK)%N && answers k0 TABLE_MAIN p then finds k0 TABLE_MAIN p r
    else r = if is_loopback p then loopback_route lo else device_route tun.
Proof.
  intros Hclear Hi Hearly.
  pose proof (is_between _ _ _ Hi) as Hb. pose proof bypass_is as (Bp & Bt & Bs). pose proof capture_is as (Cp & Ct & Cs).
  assert (fu_selects bypass_rule p && answers k (fu_table bypass_rule) p = (dg_mark p =? FWMARK)%N && answers k0 TABLE_MAIN p) as Hby.
  { by rewrite Bs, Bt, (between_answers k). }
  assert (fu_selects capture_rule p && answers k (fu_table capture_rule) p = true) as Hcap.
  { rewrite Cs, Ct. apply answers_finds. eexists. by apply (capture_table tun lo). }
  assert (∀ m, m ∈ fv_rules k0 → fu_selects m p && answers k (fu_table m) p = true → (RULE_PREF_CAPTURE < fu_pref m)%N) as Hlate.
  { intros m Hm Ha. destruct Hclear as [Hclear _]. destruct (Hclear m Hm) as (_ & Hne & Ht). rewrite (between_answers k) in Ha by done.
    destruct (N.lt_total (fu_pref m) RULE_PREF_CAPTURE) as [Hlt|[Heq|Hgt]]; [by rewrite (Hearly m Hm Hlt) in Ha|done|done]. }
  intros r. rewrite <- Hby. split.
  - intros (m & Hm & Hs & Hf & Hmin). assert (fu_selects m p && answers k (fu_table m) p = true) as Ha.
    { rewrite Hs. apply answers_finds. by exists r. }
    destruct (bw_rules k Hb m Hm) as [Hm0|[->| ->]].
    + pose proof (Hlate m Hm0 Ha). rewrite (Hmin capture_rule) in Hcap; [done|by destruct Hi|by rewrite Cp].
    + rewrite Ha. rewrite Bt in Hf. by apply (between_finds k).
    + destruct (fu_selects bypass_rule p && _) eqn:E.
      * rewrite (Hmin bypass_rule) in E; [done|by destruct Hi|rewrite Bp, Cp; done].
      * apply (capture_table tun lo k); [done|]. by rewrite <- Ct.
  - destruct (fu_selects bypass_rule p && _) eqn:E; intros Hr.
    + apply andb_true_iff in E as [Es _]. exists bypass_rule. split; [by destruct Hi|]. split; [done|].
      split; [rewrite Bt; by apply (between_finds k)|]. intros m' Hm' Hlt. rewrite Bp in Hlt. apply not_true_is_false. intros Ha.
      destruct (bw_rules k Hb m' Hm') as [Hm0|[->| ->]]; [pose proof (Hlate m' Hm0 Ha)| |rewrite Cp in Hlt; done]; unfold RULE_PREF_BYPASS, RULE_PREF_CAPTURE in *; lia.
    + exists capture_rule. split; [by destruct Hi|]. split; [done|]. split; [rewrite Ct; by apply (capture_table tun lo)|].
      intros m' Hm' Hlt. rewrite Cp in Hlt. destruct (bw_rules k Hb m' Hm') as [Hm0|[->| ->]]; [|done|lia].
      apply not_true_is_false. intros Ha. pose proof (Hlate m' Hm0 Ha). lia.
Qed.

(** C23: Once the capture is installed on a kernel where nothing else used its
    two priorities and its table (no rule at 100 or 200 or for table 100, no route
    in table 100), a packet that no rule before the capture's routes goes into the
    device, or to the loopback when it is for it; but hodor's marked packets go
    where the main table says, if the main table has a route for them: if it has
    none they go into the device like any other. *)
Theorem capture_routed s p :
  clear → install name (k0, []) = (s, Ok ()) →
  (∀ m, m ∈ fv_rules k0 → (fu_pref m < RULE_PREF_CAPTURE)%N → fu_selects m p && answers k0 (fu_table m) p = false) →
  ∃ tun lo, nl_link_index name k0 = Some (Some tun) ∧ nl_link_index (bs "lo") k0 = Some (Some lo) ∧
    ∀ r, decides s.1 p r ↔
      if (dg_mark p =? FWMARK)%N && answers k0 TABLE_MAIN p then finds k0 TABLE_MAIN p r
      else r = if is_loopback p then loopback_route lo else device_route tun.
Proof.
  intros Hclear (tun & lo & Hi)%install_ok Hearly; [|done]. exists tun, lo. split; [by destruct Hi|]. split; [by destruct Hi|].
  by apply installed_decides.
Qed.
End Decisions.

(** ** Witnesses *)

(** A kernel that does what it is asked. *)
Record SampleFib := { sf_rules : list (option N * N * N); sf_routes : list (option (N * N) * N * N) }.
Definition sf_del {A} `{EqDecision A} (x : A) (l : list A) : list A * bool :=
  match list_find (x =.) l with Some (i, _) => (delete i l, true) | None => (l, false) end.
Definition sf_same (a b : option (N * N) * N * N) : bool := bool_decide (a.1.1 = b.1.1) && (a.2 =? b.2)%N.
#[local] Instance sample_netlink : Netlink SampleFib := {|
  RouteMessage := option (N * N) * N * N; RuleMessage := option N * N * N;
  rm_inet _ := true; rm_header_table r := r.2; rm_tables r := [r.2]; um_priorities m := [m.2];
  nl_route net _ oif table := (net, oif, table); nl_rule mark table pref := (mark, table, pref);
  nl_open _ := true;
  nl_link_index name _ := if bool_decide (name = TUN_NAME) then Some (Some 7%N) else Some (Some 1%N);
  nl_list_rules k := Some (sf_rules k); nl_list_routes k := Some (sf_routes k);
  nl_add_rule m k := ({| sf_rules := m :: sf_rules k; sf_routes := sf_routes k |}, true);
  nl_add_route r k := ({| sf_rules := sf_rules k; sf_routes := r :: List.filter (λ r', negb (sf_same r r')) (sf_routes k) |}, true);
  nl_del_rule m k := let '(l, ok) := sf_del m (sf_rules k) in ({| sf_rules := l; sf_routes := sf_routes k |}, ok);
  nl_del_route r k := let '(l, ok) := sf_del r (sf_routes k) in ({| sf_rules := sf_rules k; sf_routes := l |}, ok);
|}.
Lemma sf_del_spec {A} `{EqDecision A} (x : A) (l : list A) : let '(l', ok) := sf_del x l in if ok then l ≡ₚ x :: l' else l' = l.
Proof. unfold sf_del. destruct (list_find (x =.) l) as [[i y]|] eqn:E; [|done]. apply list_find_Some in E as (Hi & <- & _). by apply delete_Permutation. Qed.
#[local] Instance sample_fib : Fib SampleFib.
Proof.
  refine {| fv_rules := sf_rules; fv_routes := sf_routes; fv_rule := id; fv_route := id; fu_pref m := m.2; fu_table m := m.1.2;
            fu_selects m p := match m.1.1 with None => true | Some v => (dg_mark p =? v)%N end; fr_net r := r.1.1 |}.
  - done.
  - done.
  - by intros m pref [= ->].
  - by intros k l [= <-].
  - by intros k l [= <-].
  - intros m k. simpl. split; [done|]. intros r. apply elem_of_cons.
  - intros r k. simpl. split; [done|]. split; [left|]. split.
    + intros r' [->|Hr']%elem_of_cons; [by left|right]. apply list_elem_of_In, filter_In in Hr' as [Hr' _]. by apply list_elem_of_In.
    + intros r' Hr' Hne. right. apply list_elem_of_In, filter_In. split; [by apply list_elem_of_In|]. unfold sf_same. apply negb_true_iff.
      destruct Hne as [|[Hne|Hne]]; [done| |].
      * apply andb_false_iff. right. apply N.eqb_neq. intros He. by apply Hne.
      * apply andb_false_iff. left. apply bool_decide_eq_false. intros He. by apply Hne.
  - intros m k. cbn [nl_del_rule sample_netlink]. pose proof (sf_del_spec (m : option N * N * N) (sf_rules k)) as Hd.
    destruct (sf_del (m : option N * N * N) (sf_rules k)) as [l []]; (split; [reflexivity|exact Hd]).
  - intros r k. cbn [nl_del_route sample_netlink]. pose proof (sf_del_spec (r : option (N * N) * N * N) (sf_routes k)) as Hd.
    destruct (sf_del (r : option (N * N) * N * N) (sf_routes k)) as [l []]; (split; [reflexivity|exact Hd]).
Defined.

(** A host: the local table first, the main table last; with a default route
    through interface 2, or with none. *)
Definition host (routes : list (option (N * N) * N * N)) : SampleFib := {| sf_rules := [(None, 255, 0); (None, 254, 32766)]%N; sf_routes := routes |}.
Definition online : SampleFib := host [(None, 2, 254); (Some (174214145, 32), 1, 255)]%N.
Definition offline : SampleFib := host [(Some (174214145, 32), 1, 255)]%N.
Definition to_resolver (mark : N) : Dgram := {| dg_dst := 134744072; dg_mark := mark |}.

Lemma host_clear routes : Forall (λ r : option (N * N) * N * N, r.2 ≠ ROUTE_TABLE) routes → clear (host routes).
Proof.
  intros Hr. split.
  - intros m [->|[->|[]%not_elem_of_nil]%elem_of_cons]%elem_of_cons; done.
  - intros r Hin _. exact (proj1 (Forall_forall _ _) Hr r Hin).
Qed.
Lemma host_early routes p : Forall (λ r : option (N * N) * N * N, r.2 = 255%N → in_net r.1.1 (dg_dst p) = false) routes →
  ∀ m, m ∈ fv_rules (host routes) → (fu_pref m < RULE_PREF_CAPTURE)%N → fu_selects m p && answers (host routes) (fu_table m) p = false.
Proof.
  intros Hr m [->|[->|[]%not_elem_of_nil]%elem_of_cons]%elem_of_cons Hlt; [|done].
  unfold answers. apply not_true_is_false. intros (r & Hin%list_elem_of_In & Hp)%existsb_exists.
  apply andb_true_iff in Hp as [[_ Ht%N.eqb_eq]%andb_true_iff Hn]. pose proof (proj1 (Forall_forall _ _) Hr r Hin Ht) as He. cbn in Hn, He. congruence.
Qed.
Definition installed_online : Seen (K:=SampleFib) * result TunError () := install TUN_NAME (online, []).

Lemma capture_routed_witness :
  let before := (None, 2, 254)%N in let after := (None, 7, 100)%N in
  decides installed_online.1.1 (to_resolver 0) after ∧ ¬ decides installed_online.1.1 (to_resolver 0) before ∧
  decides installed_online.1.1 (to_resolver FWMARK) before.
Proof.
  assert (clear online) as Hclear by (apply host_clear; by repeat constructor).
  assert (∀ mark m, m ∈ fv_rules online → (fu_pref m < RULE_PREF_CAPTURE)%N →
    fu_selects m (to_resolver mark) && answers online (fu_table m) (to_resolver mark) = false) as Hearly.
  { intros mark. apply host_early. repeat constructor; by intros. }
  destruct (capture_routed online TUN_NAME installed_online.1 (to_resolver 0) Hclear eq_refl (Hearly 0%N)) as (tun & lo & [= <-] & [= <-] & Hr).
  destruct (capture_routed online TUN_NAME installed_online.1 (to_resolver FWMARK) Hclear eq_refl (Hearly FWMARK)) as (tun & lo & [= <-] & [= <-] & Hm).
  split; [by apply Hr|]. split; [by intros [=]%Hr|]. apply Hm. cbn. split; [left|]. split; [reflexivity|].
  intros r [->|[->|[]%not_elem_of_nil]%elem_of_cons]%elem_of_cons; done.
Defined.
Lemma never_stranded_witness :
  let s := (run_tun_named true (Err (RunLoop [])) TUN_NAME true (online, [])).1 in
  s.1 = online ∧ length s.2 = 8 ∧ Forall (λ k, ∃ r, decides k (to_resolver 0) r) s.2.
Proof.
  pose proof (never_stranded online TUN_NAME true (Err (RunLoop [])) true ltac:(apply host_clear; by repeat constructor)) as H.
  split; [vm_compute; reflexivity|]. split; [vm_compute; reflexivity|]. apply Forall_cons in H as [_ H].
  eapply Forall_impl; [exact H|]. intros k Hk. apply (Hk (to_resolver 0)). apply (decides_some online (to_resolver 0) ((None, 254, 32766)%N : @RuleMessage SampleFib sample_netlink)); [|reflexivity].
  right. left.
Defined.

Definition installed_offline : Seen (K:=SampleFib) * result TunError () := install TUN_NAME (offline, []).
(** Hodor's own connections are sent into its device while the main table has no
    route for them. *)
Example marked_without_route_captured r : decides installed_offline.1.1 (to_resolver FWMARK) r ↔ r = (None, 7, 100)%N.
Proof.
  assert (clear offline) as Hc by (apply host_clear; by repeat constructor).
  assert (installed_offline = (installed_offline.1, Ok ())) as Hi by reflexivity.
  destruct (install_ok offline TUN_NAME installed_offline.1 Hc Hi) as (tun & lo & Hin).
  rewrite (installed_decides _ _ _ _ _ _ Hc Hin); [|apply host_early; repeat constructor; by intros].
  destruct Hin as [_ Htun Hlo _ _ _ _]. injection Htun as <-. injection Hlo as <-. reflexivity.
Qed.
