(* ===== verification/Dial.v ===== *)
(** * Dialing and replaying

    [dial_marked] and [Prefixed] of [crates/hodor-proxy/src/connection.rs]: the
    upstream dial over the addresses of a name under one time budget, and the
    stream that replays what was already read. The network is a parameter that
    says how long each attempt takes; times are in milliseconds. *)

From S2P Require Import Prelude.

(** ** The replay *)

(** [Prefixed]; reading of the inner stream with room for some bytes is a
    parameter of the reads. *)
Record Prefixed (T : Type) := { pr_prefix : bytes; pr_pos : nat; pr_inner : T }.
Arguments pr_prefix {T}.
Arguments pr_pos {T}.
Arguments pr_inner {T}.
Definition Prefixed_new {T} (prefix : bytes) (inner : T) : Prefixed T := {| pr_prefix := prefix; pr_pos := 0; pr_inner := inner |}.
Definition poll_read {T} (read : nat → T → T * bytes) (room : nat) (p : Prefixed T) : Prefixed T * bytes :=
  if pr_pos p <? length (pr_prefix p) then
    let remaining := drop (pr_pos p) (pr_prefix p) in
    let n := length remaining `min` room in
    ({| pr_prefix := pr_prefix p; pr_pos := pr_pos p + n; pr_inner := pr_inner p |}, take n remaining)
  else
    let '(inner, out) := read room (pr_inner p) in
    ({| pr_prefix := pr_prefix p; pr_pos := pr_pos p; pr_inner := inner |}, out).

(** ** The dial *)

Inductive DialError := NoAddresses | LookupTimedOut | BudgetExhausted | DialTimedOut | DialIo (detail : bytes).

Class Net := {
  SocketAddr : Type;
  (** The lookup and the two ways to connect, from a time: how long they take,
      and their outcome. *)
  lookup_host : bytes → N → N → N * result bytes (list SocketAddr);
  tcp_connect : SocketAddr → N → N * option bytes;
  marked_connect : N → SocketAddr → N → N * option bytes;
}.
(** A stream, by how it was made. *)
Inductive Stream `{!Net} := Unmarked (addr : SocketAddr) | Marked (mark : N) (addr : SocketAddr).

Section Dial.
Context `{!Net}.

Definition DIAL_TIMEOUT : N := 10000.

(** [dial_one]: an attempt from a time, and its stream. *)
Definition dial_one (addr : SocketAddr) (fwmark : option N) (now : N) : N * result bytes Stream :=
  match fwmark with
  | None => let '(took, err) := tcp_connect addr now in (took, match err with None => Ok (Unmarked addr) | Some e => Err e end)
  | Some mark => let '(took, err) := marked_connect mark addr now in (took, match err with None => Ok (Marked mark addr) | Some e => Err e end)
  end.
(** [tokio::time::timeout]: the outcome and the time after it; [None] elapsed. *)
Definition timeout {A} (limit now : N) (took : N) (outcome : A) : N * option A :=
  if (took <=? limit)%N then ((now + took)%N, Some outcome) else ((now + limit)%N, None).

Fixpoint dial_addrs (fwmark : option N) (deadline : N) (addrs : list SocketAddr) (now : N) (last_err : DialError) : N * result DialError Stream :=
  match addrs with
  | [] => (now, Err last_err)
  | addr :: addrs =>
      let remaining := (deadline - now)%N in
      if (remaining =? 0)%N then (now, Err BudgetExhausted)
      else
        let '(took, outcome) := dial_one addr fwmark now in
        match timeout remaining now took outcome with
        | (now, Some (Ok stream)) => (now, Ok stream)
        | (now, Some (Err e)) => dial_addrs fwmark deadline addrs now (DialIo e)
        | (now, None) => dial_addrs fwmark deadline addrs now DialTimedOut
        end
  end.
Definition dial_marked (host : bytes) (port : N) (fwmark : option N) (start : N) : N * result DialError Stream :=
  let deadline := (start + DIAL_TIMEOUT)%N in
  let '(took, found) := lookup_host host port start in
  match timeout DIAL_TIMEOUT start took found with
  | (now, None) => (now, Err LookupTimedOut)
  | (now, Some (Err e)) => (now, Err (DialIo e))
  | (now, Some (Ok addrs)) => dial_addrs fwmark deadline addrs now NoAddresses
  end.

(** ** The dial keeps its budget and its mark *)

(** The addresses that were tried in vain, and when. *)
Inductive tried (fwmark : option N) (deadline : N) : N → list SocketAddr → N → Prop :=
| tried_none now : tried fwmark deadline now [] now
| tried_failed now addr addrs e later :
    (now < deadline)%N → (dial_one addr fwmark now).2 = Err e → (now + (dial_one addr fwmark now).1 <= deadline)%N →
    tried fwmark deadline (now + (dial_one addr fwmark now).1) addrs later → tried fwmark deadline now (addr :: addrs) later
| tried_slow now addr addrs later :
    (now < deadline)%N → (deadline < now + (dial_one addr fwmark now).1)%N →
    tried fwmark deadline deadline addrs later → tried fwmark deadline now (addr :: addrs) later.

Lemma dial_addrs_spec fwmark deadline addrs now last_err later r :
  (now <= deadline)%N → dial_addrs fwmark deadline addrs now last_err = (later, r) →
  (later <= deadline)%N ∧
  match r with
  | Ok stream => ∃ before addr after at_, addrs = before ++ addr :: after ∧ tried fwmark deadline now before at_ ∧
      (dial_one addr fwmark at_).2 = Ok stream ∧ later = (at_ + (dial_one addr fwmark at_).1)%N
  | Err e => (e = BudgetExhausted ∧ later = deadline) ∨ tried fwmark deadline now addrs later
  end.
Proof.
  revert now last_err. induction addrs as [|addr addrs IH]; intros now last_err Hnow; cbn [dial_addrs].
  { intros [= <- <-]. split; [done|]. right. constructor. }
  destruct (deadline - now =? 0)%N eqn:Er; [apply N.eqb_eq in Er; intros [= <- <-]; split; [done|]; left; split; [done|lia]|].
  apply N.eqb_neq in Er. unfold timeout. destruct (dial_one addr fwmark now) as [took outcome] eqn:Ed.
  destruct (took <=? deadline - now)%N eqn:Et.
  - apply N.leb_le in Et. destruct outcome as [stream|e].
    + intros [= <- <-]. split; [lia|]. exists [], addr, addrs, now. rewrite Ed. split; [done|]. split; [constructor|done].
    + intros Hd. apply IH in Hd as [Hl Hr]; [|lia]. split; [done|]. destruct r as [stream|e'].
      * destruct Hr as (before & a & after & at_ & -> & Ht & Hs). exists (addr :: before), a, after, at_. split; [done|]. split; [|done].
        apply (tried_failed _ _ _ _ _ e); rewrite ?Ed; simpl; [lia|done|lia|done].
      * destruct Hr as [Hb|Ht]; [by left|right]. apply (tried_failed _ _ _ _ _ e); rewrite ?Ed; simpl; [lia|done|lia|done].
  - apply N.leb_gt in Et. replace (now + (deadline - now))%N with deadline by lia. intros Hd. apply IH in Hd as [Hl Hr]; [|lia]. split; [done|].
    destruct r as [stream|e'].
    + destruct Hr as (before & a & after & at_ & -> & Ht & Hs). exists (addr :: before), a, after, at_. split; [done|]. split; [|done].
      apply tried_slow; rewrite ?Ed; simpl; [lia|lia|done].
    + destruct Hr as [Hb|Ht]; [by left|right]. apply tried_slow; rewrite ?Ed; simpl; [lia|lia|done].
Qed.

Definition stream_mark (s : Stream) : option N := match s with Unmarked _ => None | Marked mark _ => Some mark end.
Lemma dial_one_marked addr fwmark now stream : (dial_one addr fwmark now).2 = Ok stream → stream_mark stream = fwmark.
Proof. unfold dial_one. destruct fwmark as [mark|]; [destruct (marked_connect mark addr now) as [t []]|destruct (tcp_connect addr now) as [t []]]; by intros [= <-]. Qed.

(** A dial takes at most its budget, the lookup and all its attempts together,
    whatever the network does. What it gives has exactly the mark asked for, and
    is of the first address that connects in the time left when it is tried. *)
Theorem dial_within_budget host port fwmark start :
  let '(later, r) := dial_marked host port fwmark start in
  (later <= start + DIAL_TIMEOUT)%N ∧
  ∀ stream, r = Ok stream → stream_mark stream = fwmark ∧
    ∃ took addrs before addr after at_, lookup_host host port start = (took, Ok addrs) ∧ addrs = before ++ addr :: after ∧
      tried fwmark (start + DIAL_TIMEOUT) (start + took) before at_ ∧ (dial_one addr fwmark at_).2 = Ok stream.
Proof.
  unfold dial_marked, timeout. destruct (lookup_host host port start) as [took found] eqn:El.
  destruct (took <=? DIAL_TIMEOUT)%N eqn:Et; [|by split]. apply N.leb_le in Et.
  destruct found as [addrs|e]; [|split; [lia|done]]. destruct (dial_addrs _ _ addrs _ _) as [later r] eqn:Ed.
  apply dial_addrs_spec in Ed as [Hl Hr]; [|lia]. split; [done|]. intros stream ->.
  destruct Hr as (before & addr & after & at_ & -> & Ht & Hs & _). split; [by eapply dial_one_marked|].
  by exists took, (before ++ addr :: after), before, addr, after, at_.
Qed.
End Dial.

(** ** The replay loses nothing *)

Section Replay.
Context {T : Type} (read : nat → T → T * bytes).

(** Reads of these rooms: all they gave, and what the inner stream gave. *)
Fixpoint read_all (rooms : list nat) (p : Prefixed T) : Prefixed T * bytes :=
  match rooms with
  | [] => (p, [])
  | room :: rooms => let '(p, out) := poll_read read room p in let '(p, outs) := read_all rooms p in (p, out ++ outs)
  end.
Fixpoint read_inner (rooms : list nat) (inner : T) : T * bytes :=
  match rooms with
  | [] => (inner, [])
  | room :: rooms => let '(inner, out) := read room inner in let '(inner, outs) := read_inner rooms inner in (inner, out ++ outs)
  end.

(** Reads give the rest of the prefix first, byte for byte, while the inner
    stream is left alone, and then what the inner stream gives to the reads
    after it. *)
Theorem prefixed_replays rooms (p : Prefixed T) :
  pr_pos p ≤ length (pr_prefix p) →
  let '(p', out) := read_all rooms p in
  pr_pos p' ≤ length (pr_prefix p) ∧ pr_prefix p' = pr_prefix p ∧
  ∃ k, k ≤ length rooms ∧ let '(inner, rest) := read_inner (drop k rooms) (pr_inner p) in
    pr_inner p' = inner ∧ out ++ drop (pr_pos p') (pr_prefix p) = drop (pr_pos p) (pr_prefix p) ++ rest ∧
    (k < length rooms → pr_pos p' = length (pr_prefix p)).
Proof.
  revert p. induction rooms as [|room rooms IH]; intros p Hp; cbn [read_all].
  { split; [done|]. split; [done|]. exists 0. split; [simpl; lia|]. simpl. rewrite app_nil_r. split; [done|]. split; [done|lia]. }
  unfold poll_read. destruct (pr_pos p <? length (pr_prefix p)) eqn:E.
  - apply Nat.ltb_lt in E. set (n := length (drop (pr_pos p) (pr_prefix p)) `min` room).
    set (p1 := {| pr_prefix := pr_prefix p; pr_pos := pr_pos p + n; pr_inner := pr_inner p |}).
    assert (n ≤ length (pr_prefix p) - pr_pos p) as Hn by (unfold n; rewrite length_drop; lia).
    specialize (IH p1 ltac:(simpl; lia)). destruct (read_all rooms p1) as [p' outs]. destruct IH as (Hle & Hpre & k & Hk & Hin).
    split; [done|]. split; [done|]. exists (S k). split; [simpl; lia|]. cbn [drop]. destruct (read_inner (drop k rooms) (pr_inner p1)) as [inner rest] eqn:Er.
    change (pr_inner p1) with (pr_inner p) in Er. rewrite Er. destruct Hin as (Hi & Ho & Hend). split; [done|]. split; [|intros Hlt; apply Hend; simpl in Hlt; lia].
    change (pr_prefix p1) with (pr_prefix p) in Ho. change (pr_pos p1) with (pr_pos p + n) in Ho.
    rewrite <- app_assoc, Ho, app_assoc. f_equal. rewrite <- drop_drop. apply take_drop.
  - apply Nat.ltb_ge in E. assert (∀ (rooms : list nat) (p : Prefixed T), length (pr_prefix p) ≤ pr_pos p →
      read_all rooms p = let '(inner, out) := read_inner rooms (pr_inner p) in ({| pr_prefix := pr_prefix p; pr_pos := pr_pos p; pr_inner := inner |}, out)) as Hrest.
    { clear. induction rooms as [|room rooms IH]; intros [prefix pos inner] Hp; simpl in *; [done|]. unfold poll_read. simpl.
      rewrite (proj2 (Nat.ltb_ge _ _)) by done. destruct (read room inner) as [inner1 out]. rewrite IH by done. simpl.
      by destruct (read_inner rooms inner1). }
    destruct (read room (pr_inner p)) as [inner out] eqn:Er. rewrite Hrest by done. simpl. destruct (read_inner rooms inner) as [inner' outs] eqn:Ei.
    simpl. split; [lia|]. split; [done|]. exists 0. split; [lia|]. simpl. rewrite Er, Ei. split; [done|]. split; [|lia].
    rewrite drop_ge by lia. by rewrite app_nil_r.
Qed.
End Replay.
