(* ===== verification/Adapt.v ===== *)
(** * What the adapters share

    [crates/hodor-compose/src/adapt.rs]: what adapting a tool's configuration
    yields, the labels and fragments of the derived rules, and the grant layer
    written for the hodor service. TOML serialization is a parameter. *)

From S2P Require Import Prelude Decoy ConnString Grants Rules Registry Secrets Config Engine Paths.

(** The errors of [error.rs] generation raises. *)
Inductive StackError :=
| StFnox (source : FnoxError)
| StConfig (source : CfError)
| StExpand (detail : bytes)
| SecretNoValue (name : bytes)
| PassthroughOverlapRule (name : bytes)
| PassthroughOverlapDecoy (name : bytes)
| RewriteNoValue (file name : bytes)
| RewriteNoDecoy (file name : bytes)
| RewriteWithEnvs (file : bytes) (format : RewriteFormat)
| RewriteInvalid (file : Path) (format : RewriteFormat) (detail : bytes)
| RewriteDestNotAbsolute (dest : bytes)
| SourceInvalid (file : Path) (detail : bytes)
| StReadFile (path : Path)
| StWriteFile (path : Path)
| StCreateDir (path : Path)
| IncludeMissing (entry : bytes)
| BuildDockerfileMissing (path : bytes)
| BuildContextMissing (path : bytes)
| EmptyImage
| ToolNameInvalid (name : bytes)
| ToolConfigNotAbsolute (name template : bytes)
| GuestPair (label : bytes)
| GuestCa (path : bytes)
| StPki (detail : bytes)
| StConfigDir
| SerializeFragment (detail : bytes)
| SerializeDecoy (detail : bytes)
| RewriteYaml (file : Path) (detail : bytes)
| StRemoveFile (path : Path)
| StChmodFile (path : Path)
| LinuxOnly
| BackendNone
| BuildNotConfigured
| MiseParse
| NoComposeLayers (root : Path)
| SpawnCompose
| ComposeFailed (status : N)
| ExposeRegistry
| ExposeInUse (host : N) (workspace : bytes) (root : Path) (port : N)
| ExposeConfigParse
| ExposeConfigType
| ExposeVerify (host port : N)
| ExposeNoPort
| SerializeExpose.

(** ** Names *)

Definition is_alnum (b : byte) : bool := in_range 65 90 b || in_range 97 122 b || is_digit b.
Definition clean_byte (b : byte) : byte := if is_alnum b then b else Byte.x2d.
Definition trim_dashes (s : bytes) : bytes :=
  let dash := λ b, bool_decide (b = Byte.x2d) in rev (drop_while dash (rev (drop_while dash s))).
(** One byte per character: continuation bytes of UTF-8 go. *)
Definition slug (text : bytes) : bytes :=
  trim_dashes (map clean_byte (filter (λ b, in_range 128 191 b = false) (to_ascii_lowercase (utf8_lossy text)))).

Definition slug_component (component : Component) : option bytes :=
  match component with
  | Normal part => match slug part with [] => None | s => Some s end
  | _ => None
  end.
Definition workspace_slug (root : Path) : bytes := join (bs "-") (omap slug_component root).

(** [file_stem]: up to the last dot that is not the first byte. *)
Definition file_stem (name : bytes) : bytes :=
  match position (λ b, bool_decide (b = Byte.x2e)) (rev name) with
  | Some i => if i + 1 =? length name then name else take (length name - (i + 1)) name
  | None => name
  end.

(** [rewrite_label]; [parent] is [None] for a root or an empty path. *)
Definition rewrite_label (source : Path) (name : bytes) : result StackError bytes :=
  match last source with
  | None | Some RootDir => Err (SourceInvalid source (bs "has no parent directory"))
  | Some component =>
      match component with
      | Normal file =>
          let path_slug := workspace_slug (pop source) in
          if bool_decide (path_slug = []) || bool_decide (slug (file_stem file) = []) || bool_decide (slug name = []) then
            Err (SourceInvalid source (bs "path or context sluggifies to nothing"))
          else Ok (path_slug ++ bs "-" ++ slug (file_stem file) ++ bs "-" ++ slug name)
      | _ => Err (SourceInvalid source (bs "has no file name"))
      end
  end.

(** ** Adapted documents *)

Record DecoyFile := {
  df_name : bytes;
  df_bytes : bytes;
  df_container : bytes;
}.
Record RewriteAdapted := {
  ra_fragment : bytes;
  ra_decoy : bytes;
  ra_materialized : list (bytes * bytes);
  ra_decoy_files : list DecoyFile;
}.

Definition sniff (content : bytes) : option RewriteFormat :=
  let text := utf8_lossy content in
  if str_contains text (bs "current-context:") && str_contains text (bs "clusters:") then Some Kubeconfig
  else if str_contains text (bs "contexts:") && str_contains text (bs "endpoints:") then Some Talos
  else None.

(** A base64 field: absent or empty is none. *)
Definition decode `{!Base64} (file : Path) (format : RewriteFormat) (data : option bytes) (field : bytes)
    : result StackError (option bytes) :=
  match nonempty data with
  | None => Ok None
  | Some text =>
      match b64_decode (trim text) with
      | Some content => Ok (Some content)
      | None => Err (RewriteInvalid file format (bs "field `" ++ field ++ bs "` is not valid base64: "))
      end
  end.

Definition GRANTS_STATE_DIR : bytes := bs "/hodor/grants".

(** A derived rule, less its label. *)
Record GrantFragment := {
  gf_env : bytes;
  gf_registry : bool;
  gf_allow : list bytes;
  gf_value : option bytes;
  gf_if_missing : option IfMissing;
  gf_tls : list (bytes * HostTlsCfg);
  gf_ssh : list (bytes * HostSshCfg);
}.

(** [toml::to_string_pretty] of the table [rules.<label>]. *)
Class TomlFragment := { toml_fragment : bytes → GrantFragment → result bytes bytes }.

(** The rule a fragment states, as the configuration reads it. *)
Definition fragment_rule (f : GrantFragment) : RuleCfg :=
  {| rc_env := gf_env f; rc_value := gf_value f; rc_real := None; rc_fnox_key := None; rc_allow := gf_allow f;
     rc_pattern := None; rc_oauth2 := None; rc_registry := Some (gf_registry f);
     rc_if_missing := default MissError (gf_if_missing f); rc_tls := gf_tls f; rc_ssh := gf_ssh f |}.

Definition fragment_header (source : Path) : bytes :=
  bs "# generated by `hodor init` from " ++ display source ++
  bs " — do not edit or commit: it holds the REAL credential." ++ [LF] ++
  bs "# Regenerated when the workspace config changes." ++ [LF].
Definition render_fragment `{!TomlFragment} (source : Path) (label : bytes) (fragment : GrantFragment) : result StackError bytes :=
  text ← map_err SerializeFragment (toml_fragment label fragment);
  Ok (fragment_header source ++ text).

(** [label.to_uppercase().replace('-', "_")]. *)
Definition label_env (label : bytes) : bytes := str_replace (to_ascii_uppercase label) (bs "-") (bs "_").

(** ** The grant layer *)

(** The state directory: the marker configuration and the files of [rules.d]. *)
Record GrantState := {
  gs_marker : option bytes;
  gs_rules : gmap bytes bytes;
}.

Definition marker_header : bytes :=
  bs "# generated by `hodor init`: tool-config grant layer. `HODOR_CONFIG` points here in the hodor service." ++ [LF].

Definition adapter_blob (name : bytes) : bool :=
  starts_with name (bs "kube-") || starts_with name (bs "talos-") || starts_with name (bs "ssh-") || starts_with name (bs "git-").
Definition stale (current : gset bytes) (name : bytes) : bool :=
  adapter_blob (utf8_lossy name) && negb (bool_decide (utf8_lossy name ∈ current)).

Section WriteState.
(** The file system: whether the directory can be made and listed, and a file
    of it written or removed; [None] is the marker. *)
Context (can_list : bool) (can_write : option bytes → bool) (can_remove : bytes → bool) (state_dir : Path).
Abbreviation rules_d := (state_dir ++ [Normal (bs "rules.d")]).

Definition write_blob (s : gmap bytes bytes * gset bytes) (blob : bytes * bytes) : result StackError (gmap bytes bytes * gset bytes) :=
  if can_write (Some blob.1) then Ok (<[blob.1 := blob.2]> s.1, {[blob.1]} ∪ s.2) else Err (StWriteFile (rules_d ++ [Normal blob.1])).
Definition write_grant (s : bytes * (gmap bytes bytes * gset bytes)) (grant : RewriteAdapted)
    : result StackError (bytes * (gmap bytes bytes * gset bytes)) :=
  files ← try_fold write_blob s.2 (ra_materialized grant);
  Ok (s.1 ++ ra_fragment grant, files).
Definition prune (current : gset bytes) (rules : gmap bytes bytes) (name : bytes) : result StackError (gmap bytes bytes) :=
  if stale current name then
    if can_remove name then Ok (delete name rules) else Err (StRemoveFile (rules_d ++ [Normal name]))
  else Ok rules.

(** [write_state]; an error leaves the files written and removed before it. *)
Definition write_state (state : GrantState) (adapted : list RewriteAdapted) : result StackError GrantState :=
  if bool_decide (adapted = []) && negb (bool_of_opt (gs_marker state)) then Ok state
  else if negb can_list then Err (StCreateDir rules_d)
  else
    '(toml, (rules, current)) ← try_fold write_grant (marker_header, (gs_rules state, ∅)) adapted;
    if negb (can_write None) then Err (StWriteFile (state_dir ++ [Normal (bs "hodor.toml")]))
    else
      rules ← try_fold (prune current) rules (map fst (map_to_list rules));
      Ok {| gs_marker := Some toml; gs_rules := rules |}.
End WriteState.

(** ** Properties *)

(** What the blobs of the grants leave: the last of a name. *)
Definition insert_blob (m : gmap bytes bytes) (blob : bytes * bytes) : gmap bytes bytes := <[blob.1 := blob.2]> m.
Definition blobs (adapted : list RewriteAdapted) : list (bytes * bytes) := flat_map ra_materialized adapted.
Definition written (adapted : list RewriteAdapted) : gmap bytes bytes := foldl insert_blob ∅ (blobs adapted).
Definition blob_names (adapted : list RewriteAdapted) : gset bytes := list_to_set (map fst (blobs adapted)).

Lemma insert_blobs_union m l : foldl insert_blob m l = foldl insert_blob ∅ l ∪ m.
Proof.
  induction l as [|b l IH] using rev_ind; simpl; [by rewrite (left_id_L ∅ (∪))|].
  rewrite !foldl_app. simpl. rewrite IH. unfold insert_blob. by rewrite insert_union_l.
Qed.

Lemma written_names adapted name : name ∈ blob_names adapted ↔ is_Some (written adapted !! name).
Proof.
  unfold blob_names, written. generalize (blobs adapted) as l. intros l. induction l as [|b l IH] using rev_ind; simpl.
  - rewrite lookup_empty. split; [set_solver|by intros []].
  - rewrite map_app, list_to_set_app_L, elem_of_union, IH, foldl_app. simpl. unfold insert_blob at 2.
    rewrite lookup_insert_is_Some'. set_solver.
Qed.

Lemma blob_valid adapted name : Forall (λ b, utf8_valid b.1 = true) (blobs adapted) → name ∈ blob_names adapted → utf8_valid name = true.
Proof.
  intros Hf Hin. apply elem_of_list_to_set, list_elem_of_fmap in Hin as (b & -> & Hb). rewrite Forall_forall in Hf. by apply Hf.
Qed.

Section WriteStateProperties.
Context (can_list : bool) (can_write : option bytes → bool) (can_remove : bytes → bool) (state_dir : Path).

Lemma write_blobs_spec l s s' :
  try_fold (write_blob can_write state_dir) s l = Ok s' →
  s' = (foldl insert_blob s.1 l, list_to_set (map fst l) ∪ s.2).
Proof.
  revert s. induction l as [|b l IH]; intros s; cbn [try_fold foldl map list_to_set].
  - intros [= <-]. destruct s as [rules current]. cbn [fst snd]. by rewrite (left_id_L ∅ (∪)).
  - rewrite bind_ok. intros (s1 & Hb & Hr). unfold write_blob in Hb. destruct (can_write _); [|done]. injection Hb as <-.
    apply IH in Hr as ->. cbn [fst snd list_to_set foldl]. unfold insert_blob at 1. f_equal. set_solver.
Qed.

Lemma write_grants_spec l s s' :
  try_fold (write_grant can_write state_dir) s l = Ok s' →
  s' = (s.1 ++ concat (map ra_fragment l), (foldl insert_blob s.2.1 (blobs l), list_to_set (map fst (blobs l)) ∪ s.2.2)).
Proof.
  revert s. induction l as [|g l IH]; intros s; cbn [try_fold].
  - intros [= <-]. destruct s as [toml [rules current]]. cbn. by rewrite app_nil_r, (left_id_L ∅ (∪)).
  - rewrite bind_ok. intros (s1 & Hg & Hr). unfold write_grant in Hg. apply bind_ok in Hg as (files & Hf & [= <-]).
    apply write_blobs_spec in Hf as ->. apply IH in Hr as ->. unfold blobs. cbn [flat_map map concat fst snd].
    rewrite foldl_app, map_app, list_to_set_app_L, <- app_assoc. do 2 f_equal. set_solver.
Qed.

Lemma prune_spec current names rules rules' :
  try_fold (prune can_remove state_dir current) rules names = Ok rules' →
  ∀ name, rules' !! name = if bool_decide (name ∈ names) && stale current name then None else rules !! name.
Proof.
  revert rules. induction names as [|n names IH]; intros rules; cbn [try_fold].
  - intros [= <-] name. rewrite bool_decide_eq_false_2; [done|]. by intros ?%elem_of_nil.
  - rewrite bind_ok. intros (rules1 & Hp & Hr) name. rewrite (IH _ Hr name). unfold prune in Hp.
    destruct (bool_decide (name ∈ names)) eqn:En; cbn [andb].
    + apply bool_decide_eq_true in En. rewrite (bool_decide_eq_true_2 (name ∈ n :: names)) by by right. cbn [andb].
      destruct (stale current name) eqn:Es; [done|]. destruct (stale current n) eqn:Es'; [|by injection Hp as ->].
      destruct (can_remove n); [|done]. injection Hp as <-. rewrite lookup_delete_ne; [done|]. intros ->. congruence.
    + apply bool_decide_eq_false in En. destruct (decide (name = n)) as [->|Hne].
      * rewrite (bool_decide_eq_true_2 (n ∈ n :: names)) by left. cbn [andb]. destruct (stale current n); [|by injection Hp as ->].
        destruct (can_remove n); [|done]. injection Hp as <-. by rewrite lookup_delete_eq.
      * rewrite (bool_decide_eq_false_2 (name ∈ n :: names)) by set_solver. cbn [andb].
        destruct (stale current n); [|by injection Hp as ->]. destruct (can_remove n); [|done]. injection Hp as <-. by rewrite lookup_delete_ne.
Qed.

(** What the grant layer holds. When it is written (every blob's name being a
    string), the marker is the
    header and the fragments of the grants in order; every blob of a grant is
    there with its bytes, the last of a name winning; of the other files those
    with an adapter's prefix are gone and the rest are as they were. With no
    grant and no marker nothing is touched. *)
Theorem grant_layer_exact state adapted state' :
  Forall (λ b, utf8_valid b.1 = true) (blobs adapted) →
  write_state can_list can_write can_remove state_dir state adapted = Ok state' →
  (adapted = [] ∧ gs_marker state = None ∧ state' = state) ∨
  (gs_marker state' = Some (marker_header ++ concat (map ra_fragment adapted)) ∧
   ∀ name, gs_rules state' !! name =
     match written adapted !! name with
     | Some content => Some content
     | None => if adapter_blob (utf8_lossy name) && negb (bool_decide (utf8_lossy name ∈ blob_names adapted)) then None
               else gs_rules state !! name
     end).
Proof.
  intros Hutf. unfold write_state. destruct (bool_decide (adapted = []) && _) eqn:E.
  { apply andb_true_iff in E as [->%bool_decide_eq_true Hm]. intros [= <-]. left. by destruct (gs_marker state). }
  destruct can_list; [|done]. cbn [negb]. rewrite bind_ok. intros ([toml [rules current]] & Hg & Hr).
  destruct (can_write None); [|done]. cbn [negb] in Hr. apply bind_ok in Hr as (rules' & Hp & [= <-]). right.
  apply write_grants_spec in Hg. injection Hg as -> -> ->. split; [done|]. intros name. cbn [gs_rules].
  rewrite (prune_spec _ _ _ _ Hp name). cbn [fst snd]. rewrite (right_id_L ∅ (∪)). fold (blob_names adapted).
  rewrite insert_blobs_union. fold (written adapted). unfold stale. rewrite lookup_union.
  set (out := written adapted ∪ gs_rules state).
  assert (bool_decide (name ∈ map fst (map_to_list out)) = bool_decide (is_Some (out !! name))) as ->.
  { apply bool_decide_ext. rewrite list_elem_of_fmap. split.
    - intros ([n v] & -> & Hin). apply elem_of_map_to_list in Hin. by eexists.
    - intros [v Hv]. exists (name, v). by rewrite elem_of_map_to_list. }
  subst out. rewrite lookup_union. destruct (written adapted !! name) as [content|] eqn:Ew.
  - assert (name ∈ blob_names adapted) as Hin by by apply written_names; eexists.
    rewrite (utf8_lossy_valid name), (bool_decide_eq_true_2 (name ∈ _)), andb_false_r, andb_false_r by (done || by apply (blob_valid adapted)).
    by destruct (gs_rules state !! name).
  - destruct (gs_rules state !! name) as [v|]; simpl; [done|]. by repeat case_match.
Qed.
End WriteStateProperties.

(** Two contexts of one file can share a label: their blobs share names, and
    their fragments state one table twice. *)
Example labels_collide :
  let source := [RootDir; Normal (bs "home"); Normal (bs "u"); Normal (bs ".ssh"); Normal (bs "config")] in
  rewrite_label source (bs "git.corp") = rewrite_label source (bs "git-corp") ∧
  rewrite_label source (bs "git.corp") = Ok (bs "home-u-ssh-config-git-corp").
Proof. split; vm_compute; reflexivity. Qed.

Definition sample_grant (fragment name content : bytes) : RewriteAdapted :=
  {| ra_fragment := fragment; ra_decoy := []; ra_materialized := [(name, content)]; ra_decoy_files := [] |}.

Lemma grant_layer_exact_witness :
  ∃ state', write_state true (λ _, true) (λ _, true) [RootDir] {| gs_marker := None; gs_rules := {[bs "ssh-old.identity" := bs "k"]} |}
      [sample_grant (bs "[rules.a]") (bs "ssh-a.identity") (bs "key")] = Ok state' ∧
    gs_rules state' !! bs "ssh-old.identity" = None ∧ gs_rules state' !! bs "ssh-a.identity" = Some (bs "key").
Proof.
  eexists. split; [vm_compute; reflexivity|].
  edestruct (grant_layer_exact true (λ _, true) (λ _, true) [RootDir] {| gs_marker := None; gs_rules := {[bs "ssh-old.identity" := bs "k"]} |}
    [sample_grant (bs "[rules.a]") (bs "ssh-a.identity") (bs "key")]) as [(? & _)|[_ Hn]]; [|vm_compute; reflexivity|discriminate|].
  - by repeat constructor.
  - split; [etrans; [apply (Hn (bs "ssh-old.identity"))|vm_compute; reflexivity]|
      etrans; [apply (Hn (bs "ssh-a.identity"))|vm_compute; reflexivity]].
Defined.
