(* ===== verification/Kube.v ===== *)
(** * Kubeconfig and talosconfig adapters

    [crates/hodor-compose/src/kube.rs] and [talos.rs]: the rule a tool's
    configuration states, and the decoy document the agent gets for it. The
    YAML documents are trees, which [serde_yaml] reads and writes; its typed
    reading of a document is a parameter too. The entries of a mapping keep
    their order here, which a removal of the crate does not promise. *)

From S2P Require Import Prelude Decoy ConnString Grants Rules Registry Secrets Config Engine Paths Adapt.

(** ** Documents *)

(** [serde_yaml::Value]; a number is its text. *)
Inductive Value :=
| VNull
| VBool (b : bool)
| VNumber (text : bytes)
| VString (s : bytes)
| VSequence (items : list Value)
| VMapping (entries : list (Value * Value))
| VTagged (tag : bytes) (value : Value).

Abbreviation Mapping := (list (Value * Value)).

(** The accessors look through tags. *)
Fixpoint untag (v : Value) : Value := match v with VTagged _ v => untag v | v => v end.
Definition as_str (v : Value) : option bytes := match untag v with VString s => Some s | _ => None end.
Definition as_mapping (v : Value) : option Mapping := match untag v with VMapping m => Some m | _ => None end.
Definition as_sequence (v : Value) : option (list Value) := match untag v with VSequence l => Some l | _ => None end.
Fixpoint on_mapping (f : Mapping → Mapping) (v : Value) : Value :=
  match v with
  | VMapping m => VMapping (f m)
  | VTagged tag v => VTagged tag (on_mapping f v)
  | v => v
  end.
Fixpoint on_sequence (f : list Value → list Value) (v : Value) : Value :=
  match v with
  | VSequence l => VSequence (f l)
  | VTagged tag v => VTagged tag (on_sequence f v)
  | v => v
  end.

Definition key_is (key : bytes) (v : Value) : bool := match v with VString s => bool_decide (s = key) | _ => false end.
Definition m_get (key : bytes) (m : Mapping) : option Value := snd <$> find (λ kv : Value * Value, key_is key kv.1) m.
Definition m_contains (key : bytes) (m : Mapping) : bool := bool_of_opt (m_get key m).
Definition m_update (key : bytes) (f : Value → Value) (m : Mapping) : Mapping :=
  map (λ kv : Value * Value, if key_is key kv.1 then (kv.1, f kv.2) else kv) m.
Definition m_insert (key : bytes) (v : Value) (m : Mapping) : Mapping :=
  if m_contains key m then m_update key (λ _, v) m else m ++ [(VString key, v)].
Definition m_remove (key : bytes) (m : Mapping) : Mapping := filter (λ kv : Value * Value, key_is key kv.1 = false) m.

(** [entries_mut]: the mappings of the list under [key], changed in place. *)
Definition entries_mut (key : bytes) (f : Mapping → Mapping) (root : Value) : Value :=
  on_mapping (m_update key (on_sequence (map (on_mapping f)))) root.

(** ** Kubeconfigs *)

Record KubeContextEntry := { kx_name : bytes; kx_cluster : bytes; kx_user : bytes }.
Record KubeClusterEntry := {
  kl_name : bytes;
  kl_server : bytes;
  kl_ca_data : option bytes;
  kl_ca_file : option bytes;
}.
Record KubeUserEntry := {
  ku_name : bytes;
  ku_token : option bytes;
  (** [auth-provider] with its [config.access-token]. *)
  ku_auth_provider : option (option bytes);
  ku_exec : option Mapping;
  ku_cert_data : option bytes;
  ku_cert_file : option bytes;
  ku_key_data : option bytes;
  ku_key_file : option bytes;
}.
Record KubeDoc := {
  kd_kind : bytes;
  kd_current_context : bytes;
  kd_contexts : list KubeContextEntry;
  kd_clusters : list KubeClusterEntry;
  kd_users : list KubeUserEntry;
}.

Record TalosContext := {
  tx_endpoints : list bytes;
  tx_ca : bytes;
  tx_crt : bytes;
  tx_key : bytes;
  tx_auth : option Mapping;
}.
Record TalosDoc := {
  td_context : bytes;
  td_contexts : gmap bytes TalosContext;
}.

(** [serde_yaml]: a document as a tree and as either type, and back. *)
Class Yaml := {
  yaml_value : bytes → result bytes Value;
  yaml_kube : bytes → result bytes KubeDoc;
  yaml_talos : bytes → result bytes TalosDoc;
  yaml_to_string : Value → result bytes bytes;
}.

Record Selected := {
  sl_cluster : KubeClusterEntry;
  sl_user : KubeUserEntry;
  sl_scope : EndpointScope;
  sl_token : option bytes;
}.

(** [str::to_uppercase]: of a text that is not ASCII, by the Unicode tables, which
    are a parameter. *)
Class CaseTables := { unicode_to_uppercase : bytes → bytes }.
Definition str_to_uppercase `{!CaseTables} (s : bytes) : bytes :=
  if forallb (λ b, (u8 b <? 128)%N) s then to_ascii_uppercase s else unicode_to_uppercase s.

Section Adapters.
Context `{!Digests, !UrlCrate, !Base64, !Yaml, !TomlFragment, !CaseTables}.
(** The guest CA's certificate, and the pair minted for a label: [load_or_generate_client_pair] and its files read. *)
Context (cert_pem : bytes) (guest_pair : bytes → result StackError (bytes * bytes)).

Definition encode (content : bytes) : Value := VString (b64_encode content).

Definition render_decoy (root : Value) : result StackError bytes :=
  text ← map_err SerializeDecoy (yaml_to_string root);
  Ok (bs "# generated by `hodor init` — decoys only, safe to inspect." ++ [LF] ++ text).

(** [KubeDoc::selected] *)
Definition kube_token (user : KubeUserEntry) : option bytes :=
  nonempty (match ku_token user with
            | Some token => Some token
            | None => token ← ku_auth_provider user; token
            end).
Definition kube_selected (invalid : bytes → StackError) (doc : KubeDoc) : result StackError Selected :=
  if bool_decide (kd_current_context doc = []) then Err (invalid (bs "missing `current-context`"))
  else
    context ← ok_or (invalid (bs "unknown context `" ++ kd_current_context doc ++ bs "`"))
                (find (λ e, bool_decide (kx_name e = kd_current_context doc)) (kd_contexts doc));
    if bool_decide (kx_cluster context = []) || bool_decide (kx_user context = []) then
      Err (invalid (bs "context `" ++ kx_name context ++ bs "` names no `cluster` or no `user`"))
    else
      cluster ← ok_or (invalid (bs "unknown cluster `" ++ kx_cluster context ++ bs "`"))
                  (find (λ e, bool_decide (kl_name e = kx_cluster context)) (kd_clusters doc));
      if bool_decide (kl_server cluster = []) then Err (invalid (bs "cluster `" ++ kl_name cluster ++ bs "` states no `server`"))
      else
        scope ← map_err (λ detail, invalid (bs "server `" ++ kl_server cluster ++ bs "` is not an allow entry: " ++ detail))
                  (EndpointScope_from_str (kl_server cluster));
        if negb (bool_decide (es_scheme scope = Https)) then
          Err (invalid (bs "server `" ++ kl_server cluster ++ bs "` is plain HTTP: the API server is TLS-only"))
        else
          user ← ok_or (invalid (bs "unknown user `" ++ kx_user context ++ bs "`"))
                   (find (λ e, bool_decide (ku_name e = kx_user context)) (kd_users doc));
          Ok {| sl_cluster := cluster; sl_user := user; sl_scope := scope; sl_token := kube_token user |}.

Definition blob_path (name : bytes) : bytes := GRANTS_STATE_DIR ++ bs "/rules.d/" ++ name.

(** [kube_blobs]: the TLS identity and the blobs, less the guest pair. *)
Definition kube_blobs (label : bytes) (pair : option (bytes * bytes)) (ca_bundle : option bytes) : HostTlsCfg * list (bytes * bytes) :=
  ({| ht_client_cert := match pair with Some _ => Some (blob_path (label ++ bs ".client.crt")) | None => None end;
      ht_client_key := match pair with Some _ => Some (blob_path (label ++ bs ".client.key")) | None => None end;
      ht_root_cert := match ca_bundle with Some _ => Some (blob_path (label ++ bs ".ca.crt")) | None => None end;
      ht_guest_tls_mode := if pair then Mtls else Tls;
      ht_guest_cert := None; ht_guest_key := None |},
   match pair with
   | Some (cert, key) => [(label ++ bs ".client.crt", cert); (label ++ bs ".client.key", key)]
   | None => []
   end ++ match ca_bundle with Some bundle => [(label ++ bs ".ca.crt", bundle)] | None => [] end).

(** [decoy_doc], of a kubeconfig *)
Definition decoy_cluster (m : Mapping) : Mapping :=
  m_update (bs "cluster") (on_mapping (λ inner,
    let ca_data := bs "certificate-authority-data" in
    m_remove (bs "certificate-authority") (if m_contains ca_data inner then m_insert ca_data (encode cert_pem) inner else inner))) m.

Definition placeholder (name : bytes) : bytes :=
  fake_for (bs "KUBE_" ++ str_replace (str_replace (str_to_uppercase name) (bs "-") (bs "_")) (bs ".") (bs "_")) None.

Definition swap_key (key : bytes) (v : Value) (inner : Mapping) : Mapping := if m_contains key inner then m_insert key v inner else inner.
Definition swap_pair (guest_cert guest_key : Value) (inner : Mapping) : Mapping :=
  if m_contains (bs "client-certificate-data") inner || m_contains (bs "client-key-data") inner then
    m_insert (bs "client-key-data") guest_key (m_insert (bs "client-certificate-data") guest_cert inner)
  else inner.
Definition swap_provider (fake : bytes) (inner : Mapping) : Mapping :=
  m_update (bs "auth-provider") (on_mapping (m_update (bs "config") (on_mapping (swap_key (bs "access-token") (VString fake))))) inner.
Definition decoy_user_inner (guest_cert guest_key : Value) (name token : bytes) (inner : Mapping) : Mapping :=
  m_remove (bs "exec")
    (swap_key (bs "password") (VString (placeholder name))
      (swap_provider (placeholder name)
        (m_remove (bs "client-key")
          (m_remove (bs "client-certificate")
            (swap_pair guest_cert guest_key
              (swap_key (bs "token") (VString token) inner)))))).
Definition user_name (m : Mapping) : bytes := default [] (v ← m_get (bs "name") m; as_str v).
Definition user_token (active_user : bytes) (active_decoy : option bytes) (name : bytes) : bytes :=
  default (placeholder name) (if bool_decide (name = active_user) then active_decoy else None).
Definition decoy_user (guest_cert guest_key : Value) (active_user : bytes) (active_decoy : option bytes) (m : Mapping) : Mapping :=
  let name := user_name m in
  m_update (bs "user") (on_mapping (decoy_user_inner guest_cert guest_key name (user_token active_user active_decoy name))) m.

Definition kube_decoy_tree (guest_cert guest_key : bytes) (active_user : bytes) (active_decoy : option bytes) (root : Value) : Value :=
  entries_mut (bs "users") (decoy_user (encode guest_cert) (encode guest_key) active_user active_decoy)
    (entries_mut (bs "clusters") decoy_cluster root).
Definition kube_decoy_doc (text : bytes) (source : Path) (guest_cert guest_key active_user : bytes) (active_decoy : option bytes)
    : result StackError bytes :=
  root ← map_err (RewriteYaml source) (yaml_value text);
  render_decoy (kube_decoy_tree guest_cert guest_key active_user active_decoy root).

(** The fragment of a kubeconfig's rule. *)
Definition kube_fragment (label server value : bytes) (tls : HostTlsCfg) : GrantFragment :=
  {| gf_env := label_env label; gf_registry := false; gf_allow := [server]; gf_value := Some value; gf_if_missing := None;
     gf_tls := [(server, tls)]; gf_ssh := [] |}.

(** [adapt] *)
Definition kube_adapt (source : Path) (content : bytes) : result StackError (option RewriteAdapted) :=
  let text := utf8_lossy content in
  let invalid := RewriteInvalid source Kubeconfig in
  doc ← map_err (RewriteYaml source) (yaml_kube text);
  if negb (bool_decide (kd_kind doc = bs "Config")) then Ok None
  else
    selected ← kube_selected invalid doc;
    let user := sl_user selected in
    let cluster := sl_cluster selected in
    if bool_of_opt (ku_cert_file user) || bool_of_opt (ku_key_file user) || bool_of_opt (kl_ca_file cluster) then
      Err (invalid (bs "uses file references; inline them first: `kubectl config view --flatten --minify`"))
    else if bool_of_opt (ku_exec user) && negb (bool_of_opt (sl_token selected)) && negb (bool_of_opt (ku_cert_data user)) &&
            negb (bool_of_opt (ku_key_data user)) then
      Err (invalid (bs "exec credential plugins are not supported"))
    else
      cert ← decode source Kubeconfig (ku_cert_data user) (bs "client-certificate-data");
      key ← decode source Kubeconfig (ku_key_data user) (bs "client-key-data");
      if xorb (bool_of_opt cert) (bool_of_opt key) then Err (invalid (bs "user `" ++ ku_name user ++ bs "` carries half of the client pair"))
      else if negb (bool_of_opt (sl_token selected)) && negb (bool_of_opt cert) then
        Err (invalid (bs "user `" ++ ku_name user ++ bs "` carries neither `token` nor a client pair: nothing to substitute"))
      else
        ca_bundle ← decode source Kubeconfig (kl_ca_data cluster) (bs "certificate-authority-data");
        label ← rewrite_label source (kd_current_context doc);
        let value := match sl_token selected with Some token => token | None => utf8_lossy (default [] cert) end in
        let decoy_token := (decoy_for_rule (label_env label) None [sl_scope selected] (length value)).1 in
        '(guest_cert, guest_key) ← guest_pair label;
        let '(tls, materialized) := kube_blobs label (cert ← cert; key ← key; Some (cert, key)) ca_bundle in
        fragment ← render_fragment source label (kube_fragment label (kl_server cluster) value tls);
        decoy ← kube_decoy_doc text source guest_cert guest_key (ku_name user) (if sl_token selected then Some decoy_token else None);
        Ok (Some {| ra_fragment := fragment; ra_decoy := decoy; ra_materialized := materialized; ra_decoy_files := [] |}).

(** ** Talosconfigs *)

Record Identity := { id_crt : bytes; id_key : bytes; id_ca : bytes }.

(** [TalosDoc::selected] *)
Definition talos_selected (source : Path) (doc : TalosDoc) : result StackError (TalosContext * Identity) :=
  let invalid := RewriteInvalid source Talos in
  if bool_decide (td_context doc = []) then Err (invalid (bs "missing `context`"))
  else
    context ← ok_or (invalid (bs "unknown context `" ++ td_context doc ++ bs "`")) (td_contexts doc !! td_context doc);
    if bool_decide (tx_endpoints context = []) then Err (invalid (bs "context `" ++ td_context doc ++ bs "` states no `endpoints`"))
    else if bool_of_opt (tx_auth context) then
      Err (invalid (bs "alternative `auth` (Omni/SideroV1) is not supported: it carries no substitutable client pair"))
    else
      crt ← decode source Talos (Some (tx_crt context)) (bs "crt");
      key ← decode source Talos (Some (tx_key context)) (bs "key");
      ca ← decode source Talos (Some (tx_ca context)) (bs "ca");
      match crt, key, ca with
      | Some crt, Some key, Some ca => Ok (context, {| id_crt := crt; id_key := key; id_ca := ca |})
      | _, _, _ => Err (invalid (bs "context `" ++ td_context doc ++ bs "` misses `ca`, `crt`, or `key`: nothing to substitute"))
      end.

(** A bare host, or [host:port], gets the scheme; a bare host the API's port.
    [rsplit_once]: the port is what follows the last colon. *)
Definition normalize_endpoint (endpoint : bytes) : bytes :=
  if str_contains endpoint (bs "://") then endpoint
  else
    let has_port := match position (λ b, bool_decide (b = Byte.x3a)) (rev endpoint) with
                    | Some i => let port := drop (length endpoint - i) endpoint in forallb is_digit port && negb (bool_decide (port = []))
                    | None => false
                    end in
    if has_port then bs "https://" ++ endpoint else bs "https://" ++ endpoint ++ bs ":50000".

Definition talos_allow (source : Path) (allows : list bytes) (endpoint : bytes) : result StackError (list bytes) :=
  let invalid := RewriteInvalid source Talos in
  let entry := normalize_endpoint endpoint in
  scope ← map_err (λ detail, invalid (bs "endpoint `" ++ endpoint ++ bs "` is not an allow entry: " ++ detail)) (EndpointScope_from_str entry);
  if negb (bool_decide (es_scheme scope = Https)) then
    Err (invalid (bs "endpoint `" ++ endpoint ++ bs "` is not TLS: the Talos API is TLS-only"))
  else Ok (allows ++ [entry]).
Definition talos_allows (source : Path) (context : TalosContext) : result StackError (list bytes) :=
  try_fold (talos_allow source) [] (tx_endpoints context).

(** [decoy_doc], of a talosconfig *)
Definition decoy_context (guest_cert guest_key : Value) (active name : bytes) (m : Mapping) : Mapping :=
  let m := swap_key (bs "ca") (encode cert_pem) m in
  let m := if m_contains (bs "crt") m || m_contains (bs "key") m then m_insert (bs "key") guest_key (m_insert (bs "crt") guest_cert m) else m in
  if bool_decide (name = active) then m else m_remove (bs "auth") m.
(** The names are those of the keys that are strings, a tag looked through;
    each is looked up as a plain string. *)
Definition talos_decoy_tree (guest_cert guest_key : bytes) (active : bytes) (root : Value) : Value :=
  on_mapping (m_update (bs "contexts") (on_mapping (λ contexts,
    foldl (λ m name, m_update name (on_mapping (decoy_context (encode guest_cert) (encode guest_key) active name)) m)
      contexts (omap (λ kv : Value * Value, as_str kv.1) contexts)))) root.

Definition talos_tls (label : bytes) : HostTlsCfg :=
  {| ht_client_cert := Some (blob_path (label ++ bs ".client.crt")); ht_client_key := Some (blob_path (label ++ bs ".client.key"));
     ht_root_cert := Some (blob_path (label ++ bs ".ca.crt")); ht_guest_tls_mode := Mtls; ht_guest_cert := None; ht_guest_key := None |}.
Definition talos_fragment (label : bytes) (allows : list bytes) (value : bytes) : GrantFragment :=
  {| gf_env := label_env label; gf_registry := false; gf_allow := allows; gf_value := Some value; gf_if_missing := None;
     gf_tls := foldl (λ m allow, btree_insert m allow (talos_tls label)) [] allows; gf_ssh := [] |}.

(** [adapt] *)
Definition talos_adapt (source : Path) (content : bytes) : result StackError RewriteAdapted :=
  let text := utf8_lossy content in
  doc ← map_err (RewriteYaml source) (yaml_talos text);
  '(active, identity) ← talos_selected source doc;
  allows ← talos_allows source active;
  label ← rewrite_label source (td_context doc);
  '(guest_cert, guest_key) ← guest_pair label;
  fragment ← render_fragment source label (talos_fragment label allows (utf8_lossy (id_crt identity)));
  root ← map_err (RewriteYaml source) (yaml_value text);
  decoy ← render_decoy (talos_decoy_tree guest_cert guest_key (td_context doc) root);
  Ok {| ra_fragment := fragment; ra_decoy := decoy;
        ra_materialized := [(label ++ bs ".client.crt", id_crt identity); (label ++ bs ".client.key", id_key identity);
                            (label ++ bs ".ca.crt", id_ca identity)];
        ra_decoy_files := [] |}.
End Adapters.

(** ** Properties *)

(** *** Trees *)

Lemma key_is_true k v : key_is k v = true ↔ v = VString k.
Proof. destruct v; simpl; try (split; [done|congruence]). rewrite bool_decide_eq_true. split; congruence. Qed.

Lemma key_is_ne k k' v : key_is k v = true → k ≠ k' → key_is k' v = false.
Proof. intros ->%key_is_true Hne. simpl. by apply bool_decide_eq_false. Qed.

Lemma m_get_cons k kv m : m_get k (kv :: m) = if key_is k kv.1 then Some kv.2 else m_get k m.
Proof. unfold m_get. cbn [find]. by destruct (key_is k kv.1). Qed.

Lemma m_get_update k k' f m : m_get k (m_update k' f m) = if bool_decide (k = k') then f <$> m_get k m else m_get k m.
Proof.
  induction m as [|[x v] m IH]; [by case_bool_decide|]. cbn [m_update map]. rewrite !m_get_cons. fold (m_update k' f m). rewrite IH. cbn [fst snd].
  destruct (key_is k' x) eqn:E'; cbn [fst snd]; case_bool_decide as Hk; subst.
  - by rewrite E'.
  - by rewrite (key_is_ne _ k _ E').
  - by rewrite E'.
  - done.
Qed.

Lemma m_get_app k m m' : m_get k (m ++ m') = match m_get k m with Some v => Some v | None => m_get k m' end.
Proof. induction m as [|kv m IH]; [done|]. cbn [app]. rewrite !m_get_cons, IH. by destruct (key_is k kv.1). Qed.

Lemma m_get_insert k k' v m : m_get k (m_insert k' v m) = if bool_decide (k = k') then Some v else m_get k m.
Proof.
  unfold m_insert, m_contains. destruct (m_get k' m) as [x|] eqn:E; cbn [bool_of_opt].
  - rewrite m_get_update. case_bool_decide as Hk; [|done]. subst. by rewrite E.
  - rewrite m_get_app, m_get_cons. cbn [fst snd]. case_bool_decide as Hk.
    + subst. rewrite E. by rewrite (proj2 (key_is_true k' _) eq_refl).
    + rewrite (key_is_ne k' k _ (proj2 (key_is_true k' _) eq_refl)) by congruence. by destruct (m_get k m).
Qed.

Lemma m_get_remove k k' m : m_get k (m_remove k' m) = if bool_decide (k = k') then None else m_get k m.
Proof.
  unfold m_remove. induction m as [|[x v] m IH]; [by case_bool_decide|]. rewrite filter_cons. cbn [fst].
  destruct (decide (key_is k' x = false)) as [Hx|Hx]; rewrite !m_get_cons; cbn [fst snd]; rewrite IH.
  - case_bool_decide as Hk; [|done]. subst. by rewrite Hx.
  - case_bool_decide as Hk; [done|]. apply not_false_iff_true in Hx. by rewrite (key_is_ne _ k _ Hx) by congruence.
Qed.

Lemma m_get_swap k k' v m : m_get k (swap_key k' v m) = if bool_decide (k = k') then (λ _, v) <$> m_get k m else m_get k m.
Proof.
  unfold swap_key, m_contains. destruct (m_get k' m) as [x|] eqn:E; cbn [bool_of_opt].
  - rewrite m_get_insert. case_bool_decide as Hk; [|done]. subst. by rewrite E.
  - case_bool_decide as Hk; [|done]. subst. by rewrite E.
Qed.

Lemma m_contains_update k k' f m : m_contains k (m_update k' f m) = m_contains k m.
Proof. unfold m_contains. rewrite m_get_update. case_bool_decide; [|done]. by destruct (m_get k m). Qed.
Lemma m_contains_swap k k' v m : m_contains k (swap_key k' v m) = m_contains k m.
Proof. unfold m_contains. rewrite m_get_swap. case_bool_decide; [|done]. by destruct (m_get k m). Qed.

Lemma as_mapping_on f v : as_mapping (on_mapping f v) = f <$> as_mapping v.
Proof. unfold as_mapping. by induction v. Qed.
Lemma as_sequence_on f v : as_sequence (on_sequence f v) = f <$> as_sequence v.
Proof. unfold as_sequence. by induction v. Qed.

(** The value at a path of keys. *)
Fixpoint v_at (path : list bytes) (v : Value) : option Value :=
  match path with
  | [] => Some v
  | k :: path => m ← as_mapping v; x ← m_get k m; v_at path x
  end.
(** The mappings of the list under [key]. *)
Definition entries (key : bytes) (root : Value) : list Mapping :=
  match m ← as_mapping root; v ← m_get key m; as_sequence v with
  | Some items => omap as_mapping items
  | None => []
  end.

Lemma entries_entries_mut key f root : entries key (entries_mut key f root) = map f (entries key root).
Proof.
  unfold entries, entries_mut. rewrite as_mapping_on. destruct (as_mapping root) as [m|]; [|done]. simpl.
  rewrite m_get_update, bool_decide_eq_true_2 by done. destruct (m_get key m) as [v|]; [|done]. simpl.
  rewrite as_sequence_on. destruct (as_sequence v) as [l|]; [|done]. simpl. induction l as [|x l IH]; [done|]. csimpl.
  rewrite as_mapping_on, IH. by destruct (as_mapping x).
Qed.

Lemma entries_entries_mut_ne key key' f root : key ≠ key' → entries key (entries_mut key' f root) = entries key root.
Proof.
  intros Hne. unfold entries, entries_mut. rewrite as_mapping_on. destruct (as_mapping root) as [m|]; [|done]. simpl.
  by rewrite m_get_update, bool_decide_eq_false_2 by done.
Qed.

Lemma entries_mut_at key f root k : k ≠ key → v_at [k] (entries_mut key f root) = v_at [k] root.
Proof.
  intros Hne. unfold entries_mut. cbn [v_at]. rewrite as_mapping_on. destruct (as_mapping root) as [m|]; [|done]. simpl.
  by rewrite m_get_update, bool_decide_eq_false_2 by done.
Qed.

(** *** The decoy document *)

Section Decoys.
Context `{!Digests, !UrlCrate, !Base64, !Yaml, !TomlFragment, !CaseTables}.
Context (cert_pem : bytes) (guest_pair : bytes → result StackError (bytes * bytes)).

(** What a user's credential becomes. *)
Record user_decoyed (guest_cert guest_key : Value) (token fake : bytes) (inner inner' : Mapping) : Prop := {
  ud_token : m_get (bs "token") inner' = (λ _, VString token) <$> m_get (bs "token") inner;
  ud_password : m_get (bs "password") inner' = (λ _, VString fake) <$> m_get (bs "password") inner;
  ud_cert : m_get (bs "client-certificate-data") inner' =
    if m_contains (bs "client-certificate-data") inner || m_contains (bs "client-key-data") inner then Some guest_cert else None;
  ud_key : m_get (bs "client-key-data") inner' =
    if m_contains (bs "client-certificate-data") inner || m_contains (bs "client-key-data") inner then Some guest_key else None;
  ud_gone k : k ∈ [bs "exec"; bs "client-certificate"; bs "client-key"] → m_get k inner' = None;
  ud_access : v_at [bs "auth-provider"; bs "config"; bs "access-token"] (VMapping inner') =
    (λ _, VString fake) <$> v_at [bs "auth-provider"; bs "config"; bs "access-token"] (VMapping inner);
  ud_config k : k ≠ bs "access-token" →
    v_at [bs "auth-provider"; bs "config"; k] (VMapping inner') = v_at [bs "auth-provider"; bs "config"; k] (VMapping inner);
  ud_rest k : k ∉ [bs "token"; bs "password"; bs "client-certificate-data"; bs "client-key-data"; bs "exec"; bs "client-certificate";
                   bs "client-key"; bs "auth-provider"] → m_get k inner' = m_get k inner;
}.

Lemma m_get_pair k guest_cert guest_key m :
  m_get k (swap_pair guest_cert guest_key m) =
  if m_contains (bs "client-certificate-data") m || m_contains (bs "client-key-data") m then
    if bool_decide (k = bs "client-key-data") then Some guest_key
    else if bool_decide (k = bs "client-certificate-data") then Some guest_cert else m_get k m
  else m_get k m.
Proof. unfold swap_pair. case_match; [|done]. by rewrite !m_get_insert. Qed.

Lemma m_get_provider k fake m :
  m_get k (swap_provider fake m) =
  if bool_decide (k = bs "auth-provider") then
    on_mapping (m_update (bs "config") (on_mapping (swap_key (bs "access-token") (VString fake)))) <$> m_get k m
  else m_get k m.
Proof. apply m_get_update. Qed.

(** A lookup in what the steps leave, one step at a time. *)
Ltac steps :=
  unfold decoy_user_inner; rewrite ?m_get_remove, ?m_get_swap, ?m_get_provider, ?m_get_remove, ?m_get_remove, ?m_get_pair, ?m_contains_swap, ?m_get_swap.
Ltac keys := repeat (rewrite (bool_decide_eq_true_2 (_ = _)) by reflexivity || rewrite (bool_decide_eq_false_2 (_ = _)) by discriminate).

Lemma decoy_user_inner_decoyed guest_cert guest_key name token inner :
  user_decoyed guest_cert guest_key token (placeholder name) inner (decoy_user_inner guest_cert guest_key name token inner).
Proof.
  assert (m_get (bs "auth-provider") (decoy_user_inner guest_cert guest_key name token inner) =
    on_mapping (m_update (bs "config") (on_mapping (swap_key (bs "access-token") (VString (placeholder name))))) <$> m_get (bs "auth-provider") inner) as Hp.
  { steps. keys. by destruct (_ || _). }
  assert (∀ k, v_at [bs "auth-provider"; bs "config"; k] (VMapping (decoy_user_inner guest_cert guest_key name token inner)) =
    (p ← m_get (bs "auth-provider") inner; p ← as_mapping p; c ← m_get (bs "config") p; c ← as_mapping c;
     m_get k (swap_key (bs "access-token") (VString (placeholder name)) c))) as Hat.
  { intros k. cbn [v_at as_mapping untag mbind option_bind]. rewrite Hp. destruct (m_get (bs "auth-provider") inner) as [p|]; [|done]. simpl.
    rewrite as_mapping_on. destruct (as_mapping p) as [p'|]; [|done]. simpl. rewrite m_get_update, bool_decide_eq_true_2 by done.
    destruct (m_get (bs "config") p') as [c|]; [|done]. simpl. rewrite as_mapping_on. destruct (as_mapping c) as [c'|]; [|done]. simpl.
    by destruct (m_get k _). }
  split.
  - steps. keys. by destruct (_ || _).
  - steps. keys. by destruct (_ || _).
  - steps. keys. unfold m_contains. by destruct (m_get (bs "client-certificate-data") inner), (m_get (bs "client-key-data") inner).
  - steps. keys. unfold m_contains. by destruct (m_get (bs "client-certificate-data") inner), (m_get (bs "client-key-data") inner).
  - intros k [->|[->|[->|[]%elem_of_nil]%elem_of_cons]%elem_of_cons]%elem_of_cons; steps; keys; done.
  - rewrite Hat. cbn [v_at as_mapping untag mbind option_bind]. destruct (m_get (bs "auth-provider") inner) as [p|]; [|done]. simpl.
    destruct (as_mapping p) as [p'|]; [|done]. simpl. destruct (m_get (bs "config") p') as [c|]; [|done]. simpl.
    destruct (as_mapping c) as [c'|]; [|done]. simpl. rewrite m_get_swap, bool_decide_eq_true_2 by done. by destruct (m_get _ c').
  - intros k Hk. rewrite Hat. cbn [v_at as_mapping untag mbind option_bind]. destruct (m_get (bs "auth-provider") inner) as [p|]; [|done]. simpl.
    destruct (as_mapping p) as [p'|]; [|done]. simpl. destruct (m_get (bs "config") p') as [c|]; [|done]. simpl.
    destruct (as_mapping c) as [c'|]; [|done]. simpl. rewrite m_get_swap, bool_decide_eq_false_2 by done. by destruct (m_get _ c').
  - intros k Hk. rewrite !not_elem_of_cons in Hk. destruct Hk as (?&?&?&?&?&?&?&?&_). steps. rewrite !(bool_decide_eq_false_2 (k = _)) by done. by destruct (_ || _).
Qed.

Lemma decoy_user_spec guest_cert guest_key active_user active_decoy m :
  let m' := decoy_user guest_cert guest_key active_user active_decoy m in
  (∀ k, k ≠ bs "user" → m_get k m' = m_get k m) ∧
  match v ← m_get (bs "user") m; as_mapping v with
  | Some inner => ∃ inner', (v ← m_get (bs "user") m'; as_mapping v) = Some inner' ∧
      user_decoyed guest_cert guest_key (user_token active_user active_decoy (user_name m)) (placeholder (user_name m)) inner inner'
  | None => (v ← m_get (bs "user") m'; as_mapping v) = None
  end.
Proof.
  cbv zeta. unfold decoy_user. cbv zeta. split.
  - intros k Hk. by rewrite m_get_update, bool_decide_eq_false_2.
  - rewrite m_get_update, bool_decide_eq_true_2 by done. destruct (m_get (bs "user") m) as [v|]; [|done]. simpl.
    rewrite as_mapping_on. destruct (as_mapping v) as [inner|]; [|done]. simpl. eexists. split; [done|]. apply decoy_user_inner_decoyed.
Qed.

Lemma decoy_cluster_spec m :
  let m' := decoy_cluster cert_pem m in
  (∀ k, k ≠ bs "cluster" → m_get k m' = m_get k m) ∧
  match v ← m_get (bs "cluster") m; as_mapping v with
  | Some inner => ∃ inner', (v ← m_get (bs "cluster") m'; as_mapping v) = Some inner' ∧
      m_get (bs "certificate-authority") inner' = None ∧
      m_get (bs "certificate-authority-data") inner' = (λ _, encode cert_pem) <$> m_get (bs "certificate-authority-data") inner ∧
      ∀ k, k ≠ bs "certificate-authority" → k ≠ bs "certificate-authority-data" → m_get k inner' = m_get k inner
  | None => (v ← m_get (bs "cluster") m'; as_mapping v) = None
  end.
Proof.
  cbv zeta. unfold decoy_cluster. split.
  - intros k Hk. by rewrite m_get_update, bool_decide_eq_false_2.
  - rewrite m_get_update, bool_decide_eq_true_2 by done. destruct (m_get (bs "cluster") m) as [v|]; [|done]. simpl.
    rewrite as_mapping_on. destruct (as_mapping v) as [inner|]; [|done]. simpl. eexists. split; [done|].
    change (if m_contains _ inner then m_insert _ _ inner else inner) with (swap_key (bs "certificate-authority-data") (encode cert_pem) inner).
    split_and!; [|rewrite m_get_remove, m_get_swap, bool_decide_eq_false_2, bool_decide_eq_true_2 by done; done|].
    + by rewrite m_get_remove, bool_decide_eq_true_2.
    + intros k ? ?. by rewrite m_get_remove, m_get_swap, !bool_decide_eq_false_2.
Qed.

(** C27: What the decoy kubeconfig replaces, and that nothing else of it
    changes. Of every user the token and the password, where there are any, are a
    decoy's, the client pair, where there is any of it, is the guest's, commands
    and references to host files are gone, and the access token of an auth
    provider, where there is one, is a placeholder; a cluster that embeds a trust
    anchor ([certificate-authority-data]) has hodor's instead, one that refers to
    a file loses the reference, and one without is given none. Every other key of
    the users, the clusters and the document is as it was: an auth provider's
    other tokens (its id and refresh tokens) among them. *)
Theorem kube_decoys_only guest_cert guest_key active_user active_decoy root :
  let root' := kube_decoy_tree cert_pem guest_cert guest_key active_user active_decoy root in
  Forall2 (λ m m', (∀ k, k ≠ bs "user" → m_get k m' = m_get k m) ∧
    match v ← m_get (bs "user") m; as_mapping v with
    | Some inner => ∃ inner', (v ← m_get (bs "user") m'; as_mapping v) = Some inner' ∧
        user_decoyed (encode guest_cert) (encode guest_key) (user_token active_user active_decoy (user_name m)) (placeholder (user_name m))
          inner inner'
    | None => (v ← m_get (bs "user") m'; as_mapping v) = None
    end) (entries (bs "users") root) (entries (bs "users") root') ∧
  Forall2 (λ m m', (∀ k, k ≠ bs "cluster" → m_get k m' = m_get k m) ∧
    match v ← m_get (bs "cluster") m; as_mapping v with
    | Some inner => ∃ inner', (v ← m_get (bs "cluster") m'; as_mapping v) = Some inner' ∧
        m_get (bs "certificate-authority") inner' = None ∧
        m_get (bs "certificate-authority-data") inner' = (λ _, encode cert_pem) <$> m_get (bs "certificate-authority-data") inner ∧
        ∀ k, k ≠ bs "certificate-authority" → k ≠ bs "certificate-authority-data" → m_get k inner' = m_get k inner
    | None => (v ← m_get (bs "cluster") m'; as_mapping v) = None
    end) (entries (bs "clusters") root) (entries (bs "clusters") root') ∧
  ∀ k, k ≠ bs "users" → k ≠ bs "clusters" → v_at [k] root' = v_at [k] root.
Proof.
  cbv zeta. unfold kube_decoy_tree. rewrite entries_entries_mut, !entries_entries_mut_ne, entries_entries_mut by done. split_and!.
  - apply Forall2_fmap_r, Forall_Forall2_diag, Forall_forall. intros m _. apply decoy_user_spec.
  - apply Forall2_fmap_r, Forall_Forall2_diag, Forall_forall. intros m _. apply decoy_cluster_spec.
  - intros k ? ?. by rewrite !entries_mut_at.
Qed.

(** What adapting gives, when it gives a rule. *)
Lemma kube_adapt_spec source content adapted :
  kube_adapt cert_pem guest_pair source content = Ok (Some adapted) →
  ∃ doc selected label value tls root guest_cert guest_key text,
    yaml_kube (utf8_lossy content) = Ok doc ∧
    kube_selected (RewriteInvalid source Kubeconfig) doc = Ok selected ∧
    rewrite_label source (kd_current_context doc) = Ok label ∧
    (∀ token, sl_token selected = Some token → value = token) ∧
    toml_fragment label (kube_fragment label (kl_server (sl_cluster selected)) value tls) = Ok text ∧
    ra_fragment adapted = fragment_header source ++ text ∧
    yaml_value (utf8_lossy content) = Ok root ∧ guest_pair label = Ok (guest_cert, guest_key) ∧
    render_decoy (kube_decoy_tree cert_pem guest_cert guest_key (ku_name (sl_user selected))
      (if sl_token selected then Some (decoy_for_rule (label_env label) None [sl_scope selected] (length value)).1 else None) root) =
      Ok (ra_decoy adapted).
Proof.
  unfold kube_adapt. cbv zeta. rewrite bind_ok. intros (doc & Hdoc%map_err_Ok & Hr). destruct (negb _); [done|].
  apply bind_ok in Hr as (selected & Hsel & Hr). destruct (_ || _); [done|]. destruct (_ && _); [done|].
  apply bind_ok in Hr as (cert & _ & Hr). apply bind_ok in Hr as (key & _ & Hr). destruct (xorb _ _); [done|]. destruct (_ && _); [done|].
  apply bind_ok in Hr as (ca_bundle & _ & Hr). apply bind_ok in Hr as (label & Hl & Hr).
  apply bind_ok in Hr as ([guest_cert guest_key] & Hpair & Hr). destruct (kube_blobs _ _ _) as [tls materialized].
  apply bind_ok in Hr as (fragment & Hf & Hr). apply bind_ok in Hr as (decoy & Hd & [= <-]).
  unfold render_fragment in Hf. apply bind_ok in Hf as (text & Ht%map_err_Ok & [= <-]).
  unfold kube_decoy_doc in Hd. apply bind_ok in Hd as (root & Hroot%map_err_Ok & Hd).
  exists doc, selected, label, (match sl_token selected with Some token => token | None => utf8_lossy (default [] cert) end),
    tls, root, guest_cert, guest_key, text.
  split_and!; try done. intros token Hst. by rewrite Hst.
Qed.

Lemma kube_selected_spec invalid doc selected :
  kube_selected invalid doc = Ok selected →
  EndpointScope_from_str (kl_server (sl_cluster selected)) = Ok (sl_scope selected) ∧ es_scheme (sl_scope selected) = Https ∧
  sl_user selected ∈ kd_users doc ∧ sl_token selected = kube_token (sl_user selected).
Proof.
  unfold kube_selected. case_bool_decide; [done|]. rewrite bind_ok. intros (context & _ & Hr). destruct (_ || _); [done|].
  apply bind_ok in Hr as (cluster & _ & Hr). case_bool_decide; [done|]. apply bind_ok in Hr as (scope & Hs%map_err_Ok & Hr).
  destruct (negb _) eqn:E; [done|]. apply negb_false_iff, bool_decide_eq_true in E. apply bind_ok in Hr as (user & Hu & [= <-]).
  destruct (find _ (kd_users doc)) as [u|] eqn:Eu; [|done]. injection Hu as ->. apply find_some in Eu as [Hin _].
  split_and!; [done..| |done]. by apply list_elem_of_In.
Qed.

(** What the registry makes of a token rule that states its own value and opts
    out of the registry's hosts: only the decoy's pattern. *)
Lemma opted_out_fake `{!TomlRegistry} registry fnox rules rules' grants label rule server scope credential allow pattern oauth2 :
  keys_sorted rules → (label, rule) ∈ rules → rc_allow rule = [server] → rc_pattern rule = None → rc_oauth2 rule = None →
  rc_registry rule = Some false → EndpointScope_from_str server = Ok scope → es_scheme scope ≠ Tcp →
  resolve registry fnox rules = Ok rules' → resolve_grants rules' = Ok grants →
  GToken credential allow pattern oauth2 ∈ grants → cr_label credential = label →
  (∀ value, rc_value rule = Some value → cr_value credential = value) ∧
  cr_fake credential = fake_for (rc_env rule) (Some (template registry (rc_env rule) None)).
Proof.
  intros Hs Hin Hallow Hpat Hoauth Hreg Hscope Htcp Hr Hg Hc Hl.
  apply (resolve_grants_from _ _ _ Hg) in Hc as (label' & rule' & Hin' & Htok).
  destruct Htok as (Hl' & Hval & _ & _ & Hssh & Hsch & Hall & Hfake). rewrite Hl in Hl'. subst label'.
  destruct (resolve_rules _ _ _ _ Hs Hr) as [Hto Hfrom]. destruct (Hfrom _ _ Hin') as (rule0 & Hd & Hp).
  pose proof (derive_catalog_derives registry fnox rules Hs) as Hdv.
  assert (rule0 = rule) as ->.
  { pose proof (keys_sorted_NoDup _ (dv_sorted _ _ _ _ _ Hdv)) as Hn. pose proof (dv_keeps _ _ _ _ _ Hdv _ Hin) as Hk.
    apply list_elem_of_lookup in Hd as (i & Hi), Hk as (j & Hj).
    assert (i = j) as ->; [|congruence]. apply (NoDup_lookup _ _ _ label Hn); rewrite list_lookup_fmap; [by rewrite Hi|by rewrite Hj]. }
  destruct (Hto _ _ Hd) as (Hf & _). apply (pass_apply_spec _ _ _ _ false _ Hf) in Hp. simpl in Hp. unfold resolved_as in Hp.
  destruct (RuleCfg_is_ssh rule) eqn:Es; [subst rule'; by rewrite Hssh in Es|].
  destruct (bool_of_opt (RuleCfg_value_scheme rule)) eqn:Esch.
  { destruct Hp as (real & _ & ->). change (RuleCfg_value_scheme (RuleCfg_with _ _ _ _ _ rule)) with (RuleCfg_value_scheme rule) in Hsch.
    by rewrite Hsch in Esch. }
  destruct Hp as (value & entries & Hv & _ & Hreach & ->). cbn [RuleCfg_with rc_value rc_allow rc_env rc_pattern] in *.
  injection Hval as Hval. rewrite <- Hval in *. split; [intros v Hrv; destruct Hv as [Hv|[Hv _]]; congruence|].
  rewrite Hfake, Hpat. apply decoy_for_rule_plain. apply Forall_forall. intros e He. rewrite Forall_forall in Hall.
  destruct (Hall e He) as (entry & parsed & Hentry & Hparsed & -> & _). apply Hreach in Hentry as [[? _]|[Hentry|(flow & url & Hflow & _)]]; [done| |].
  - rewrite Hallow in Hentry. apply list_elem_of_singleton in Hentry as ->. congruence.
  - unfold flow_for in Hflow. by rewrite Hoauth, Hreg, bool_decide_eq_true_2 in Hflow.
Qed.

(** A kubeconfig's token is swapped. When adapting gives a rule and the
    configuration that holds it resolves, the grant of the rule carries the
    active user's token, and the token of every user of that name in the
    agent's document is the decoy the grant is looked for by, as long as the
    registry knows no shape for the environment name made up for the rule. *)
Theorem kube_token_swapped `{!TomlRegistry} source content adapted :
  kube_adapt cert_pem guest_pair source content = Ok (Some adapted) →
  ∃ doc user label fragment text root',
    yaml_kube (utf8_lossy content) = Ok doc ∧ user ∈ kd_users doc ∧
    toml_fragment label fragment = Ok text ∧ ra_fragment adapted = fragment_header source ++ text ∧
    render_decoy root' = Ok (ra_decoy adapted) ∧
    ∀ registry fnox rules rules' grants credential allow pattern oauth2,
      keys_sorted rules → (label, fragment_rule fragment) ∈ rules →
      resolve registry fnox rules = Ok rules' → resolve_grants rules' = Ok grants →
      GToken credential allow pattern oauth2 ∈ grants → cr_label credential = label →
      template registry (gf_env fragment) None = DEFAULT_PATTERN →
      ∀ token, kube_token user = Some token →
        cr_value credential = token ∧
        ∀ m v, m ∈ entries (bs "users") root' → user_name m = ku_name user →
          v_at [bs "user"; bs "token"] (VMapping m) = Some v → v = VString (cr_fake credential).
Proof.
  intros Ha. destruct (kube_adapt_spec _ _ _ Ha) as (doc & selected & label & value & tls & root & guest_cert & guest_key & text & Hdoc & Hsel & Hl & Hval & Ht & Hfr & Hroot & Hpair & Hd).
  destruct (kube_selected_spec _ _ _ Hsel) as (Hscope & Hhttps & Huser & Htok). exists doc, (sl_user selected), label, (kube_fragment label (kl_server (sl_cluster selected)) value tls), text.
  eexists. split_and!; [done..|exact Hd|]. intros registry fnox rules rules' grants credential allow pattern oauth2 Hs Hin Hr Hg Hc Hcl Htemp token Htk.
  destruct (opted_out_fake registry fnox rules rules' grants label _ (kl_server (sl_cluster selected)) (sl_scope selected) credential allow pattern oauth2
    Hs Hin eq_refl eq_refl eq_refl eq_refl Hscope) as [Hcv Hfake]; [by rewrite Hhttps|done..|]. rewrite <- Htok in Htk.
  split; [by rewrite (Hcv value eq_refl), (Hval _ Htk)|]. intros m v Hm Hname Hv.
  unfold kube_decoy_tree in Hm. rewrite entries_entries_mut in Hm. apply list_elem_of_fmap in Hm as (m0 & -> & _).
  assert (user_name (decoy_user (encode guest_cert) (encode guest_key) (ku_name (sl_user selected))
    (if sl_token selected then Some (decoy_for_rule (label_env label) None [sl_scope selected] (length value)).1 else None) m0) = user_name m0) as Hn.
  { unfold user_name at 1. by rewrite (proj1 (decoy_user_spec _ _ _ _ m0)). }
  rewrite Hn in Hname. clear Hn. destruct (decoy_user_spec (encode guest_cert) (encode guest_key) (ku_name (sl_user selected))
    (if sl_token selected then Some (decoy_for_rule (label_env label) None [sl_scope selected] (length value)).1 else None) m0) as [_ Hu].
  set (m1 := decoy_user _ _ _ _ m0) in *. cbn [v_at as_mapping untag mbind option_bind] in Hv.
  destruct (m_get (bs "user") m1) as [u|]; [|done]. simpl in Hv, Hu. destruct (as_mapping u) as [inner'|] eqn:Eu; [|done]. simpl in Hv.
  destruct (v0 ← m_get (bs "user") m0; as_mapping v0) as [inner|]; [|done]. destruct Hu as (inner'' & [= <-] & Hdec).
  rewrite (ud_token _ _ _ _ _ _ Hdec), Htk in Hv. destruct (m_get (bs "token") inner); [|done]. injection Hv as <-.
  change (template registry (label_env label) None = DEFAULT_PATTERN) in Htemp. change (rc_env _) with (label_env label) in Hfake.
  rewrite Hfake, Htemp. unfold user_token. rewrite bool_decide_eq_true_2 by done. cbn [default]. f_equal.
  rewrite decoy_for_rule_plain by (constructor; [by rewrite Hhttps|constructor]). done.
Qed.
End Decoys.

(** ** Concrete runs *)

#[local] Existing Instances sample_digests sample_url sample_toml.

Definition sample_base64 : Base64 := {| b64_decode := Some; b64_encode := id |}.
Definition sample_case : CaseTables := {| unicode_to_uppercase := id |}.
Definition sample_fragments : TomlFragment := {| toml_fragment label _ := Ok label |}.
Definition sample_kube_source (user : bytes) : Path := [RootDir; Normal (bs "home"); Normal user; Normal (bs ".kube"); Normal (bs "config")].

(** One context, with a user that has a token or gets it from a provider. *)
Definition sample_kube_doc (token : option bytes) (provider : option (option bytes)) : KubeDoc :=
  {| kd_kind := bs "Config"; kd_current_context := bs "prod";
     kd_contexts := [{| kx_name := bs "prod"; kx_cluster := bs "c"; kx_user := bs "admin" |}];
     kd_clusters := [{| kl_name := bs "c"; kl_server := bs "https://api.test"; kl_ca_data := None; kl_ca_file := None |}];
     kd_users := [{| ku_name := bs "admin"; ku_token := token; ku_auth_provider := provider; ku_exec := None; ku_cert_data := None;
                     ku_cert_file := None; ku_key_data := None; ku_key_file := None |}] |}.
Definition sample_kube_root (credential : Mapping) : Value :=
  VMapping [(VString (bs "users"), VSequence [VMapping [(VString (bs "name"), VString (bs "admin")); (VString (bs "user"), VMapping credential)]])].
Definition sample_credential : Mapping := [(VString (bs "token"), VString (bs "s3cret"))].
Definition sample_provider : Mapping :=
  [(VString (bs "auth-provider"), VMapping [(VString (bs "config"),
     VMapping [(VString (bs "access-token"), VString (bs "s3cret")); (VString (bs "id-token"), VString (bs "ident"));
               (VString (bs "refresh-token"), VString (bs "again"))])])].
(** A document is written as its first user's value at a path. *)
Definition sample_yaml (doc : KubeDoc) (root : Value) (path : list bytes) : Yaml :=
  {| yaml_value _ := Ok root; yaml_kube _ := Ok doc; yaml_talos _ := Err [];
     yaml_to_string v := Ok (default [] (m ← head (entries (bs "users") v); v ← v_at path (VMapping m); as_str v)) |}.
Definition sample_kube_adapt (user : bytes) (doc : KubeDoc) (root : Value) (path : list bytes) : result StackError (option RewriteAdapted) :=
  @kube_adapt sample_digests sample_url sample_base64 (sample_yaml doc root path) sample_fragments sample_case (bs "CA") (λ _, Ok (bs "cert", bs "key"))
    (sample_kube_source user) [].

Lemma kube_token_swapped_witness :
  let _ := sample_base64 in let _ := sample_fragments in
  let _ := sample_yaml (sample_kube_doc (Some (bs "s3cret")) None) (sample_kube_root sample_credential) [bs "user"; bs "token"] in
  ∃ adapted text label, sample_kube_adapt (bs "u") (sample_kube_doc (Some (bs "s3cret")) None) (sample_kube_root sample_credential)
      [bs "user"; bs "token"] = Ok (Some adapted) ∧
    ra_fragment adapted = fragment_header (sample_kube_source (bs "u")) ++ text ∧ text = label.
Proof.
  intros b f y.
  edestruct (@kube_token_swapped sample_digests sample_url b y f sample_case (bs "CA") (λ _, Ok (bs "cert", bs "key")) sample_toml (sample_kube_source (bs "u")) [])
    as (doc & user & label & fragment & text & root' & _ & _ & Ht & Hf & _); [vm_compute; reflexivity|].
  eexists. exists text, label. split; [vm_compute; reflexivity|]. split; [exact Hf|]. injection Ht as Ht. symmetry. exact Ht.
Defined.

(** The grant a document's fragment resolves to, over a registry. *)
Definition sample_kube_fake (registry : Registry) (user : bytes) (token : bytes) : result FnoxError (option bytes) :=
  match rewrite_label (sample_kube_source user) (bs "prod") with
  | Ok label =>
      rules ← resolve registry None [(label, fragment_rule (kube_fragment label (bs "https://api.test") token (kube_blobs label None None).1))];
      match resolve_grants rules with
      | Ok [GToken credential _ _ _] => Ok (Some (cr_fake credential))
      | _ => Ok None
      end
  | Err _ => Ok None
  end.
Definition decoy_of (r : result StackError (option RewriteAdapted)) : option bytes :=
  match r with Ok (Some adapted) => strip_prefix (bs "# generated by `hodor init` — decoys only, safe to inspect." ++ [LF]) (ra_decoy adapted) | _ => None end.

Example kube_token_decoy :
  ∃ fake, sample_kube_fake Registry_default (bs "u") (bs "s3cret") = Ok (Some fake) ∧
    decoy_of (sample_kube_adapt (bs "u") (sample_kube_doc (Some (bs "s3cret")) None) (sample_kube_root sample_credential) [bs "user"; bs "token"]) = Some fake.
Proof. eexists. split; vm_compute; reflexivity. Qed.

(** The token of an auth provider gets another decoy than the one the grant is
    looked for by, so it is never swapped. *)
Example provider_decoy_disagrees :
  ∃ fake decoy, sample_kube_fake Registry_default (bs "u") (bs "s3cret") = Ok (Some fake) ∧
    decoy_of (sample_kube_adapt (bs "u") (sample_kube_doc None (Some (Some (bs "s3cret")))) (sample_kube_root sample_provider)
      [bs "user"; bs "auth-provider"; bs "config"; bs "access-token"]) = Some decoy ∧ decoy ≠ fake.
Proof. do 2 eexists. split; [vm_compute; reflexivity|]. split; [vm_compute; reflexivity|]. by apply (bool_decide_eq_true_1 _). Qed.

(** Its other tokens cross into the agent. *)
Example provider_tokens_survive :
  decoy_of (sample_kube_adapt (bs "u") (sample_kube_doc None (Some (Some (bs "s3cret")))) (sample_kube_root sample_provider)
    [bs "user"; bs "auth-provider"; bs "config"; bs "refresh-token"]) = Some (bs "again").
Proof. vm_compute. reflexivity. Qed.

(** A registry shape whose needle the made-up environment name contains applies
    to the derived rule, hosts opted out or not: the decoy differs. *)
Example derived_rule_shaped :
  let registry := {| rg_names := ∅; rg_contains := [{| cu_provider := bs "github"; cu_needle := bs "gh_"; cu_pattern := bs "ghp_{hex:8}" |}] |} in
  ∃ fake decoy, sample_kube_fake registry (bs "hugh") (bs "s3cret") = Ok (Some fake) ∧
    decoy_of (sample_kube_adapt (bs "hugh") (sample_kube_doc (Some (bs "s3cret")) None) (sample_kube_root sample_credential) [bs "user"; bs "token"]) =
      Some decoy ∧ length fake = 12 ∧ length decoy = 32.
Proof. do 2 eexists. split_and!; vm_compute; reflexivity. Qed.

(** The real key of a kubeconfig that is no longer adapted stays in the grant
    layer: the name of its blob has no adapter's prefix. *)
Example kube_blob_kept :
  let blob := bs "home-u-kube-config-prod.client.key" in
  blob ∈ map fst (kube_blobs (bs "home-u-kube-config-prod") (Some (bs "c", bs "k")) None).2 ∧
  (state ← write_state true (λ _, true) (λ _, true) [RootDir] {| gs_marker := Some []; gs_rules := {[blob := bs "k"]} |} [];
   Ok (gs_rules state !! blob)) = Ok (Some (bs "k")).
Proof. split; [right; left|vm_compute; reflexivity]. Qed.
