(* ===== verification/Stack.v ===== *)
(** * The generated stack: decoys, rewritten files and mounts

    [crates/hodor-compose/src/stack.rs] and [expand.rs]: which names get a
    decoy in the agent's environment, how a referenced variable resolves, the
    byte rewriting of declared files, and the mounts of the workspace, its
    guest identities and its tool profiles. The variable expander (xpanda,
    shellexpand), the file system and the minting of certificates are
    parameters. [to_lowercase] is the ASCII one. *)

From stdpp Require Import sorting.
From S2P Require Import Prelude Decoy ConnString Grants Rules Registry Secrets Config Engine Paths Adapt.

(** ** Data *)

Record Decoy := {
  de_env : bytes;
  de_value : bytes;
}.

(** A stable sort, largest key first: [sort_by_key] with [Reverse]. *)
Fixpoint insert_reverse {A} (key : A → nat) (x : A) (l : list A) : list A :=
  match l with
  | [] => [x]
  | y :: l' => if key y <=? key x then x :: l else y :: insert_reverse key x l'
  end.
Definition sort_by_reverse {A} (key : A → nat) (l : list A) : list A := foldr (insert_reverse key) [] l.

(** ** Decoys *)

Section Selection.
Context `{!Digests, !UrlCrate, !TomlRegistry}.

Definition select (fnox : option FnoxSource) (registry : Registry) : list Decoy :=
  map (λ env, {| de_env := env; de_value := decoy registry env None |}) (selected_envs fnox registry).

Definition with_rule_pattern (registry : Registry) (rules : list (bytes * RuleCfg)) (d : Decoy) : Decoy :=
  let pattern := r ← find (λ r : bytes * RuleCfg, bool_decide (rc_env r.2 = de_env d)) rules; rc_pattern r.2 in
  {| de_env := de_env d; de_value := decoy registry (de_env d) pattern |}.
Definition with_rule_patterns (decoys : list Decoy) (registry : Registry) (rules : list (bytes * RuleCfg)) : list Decoy :=
  map (with_rule_pattern registry rules) decoys.

Definition has_hosts (registry : Registry) (d : Decoy) : bool :=
  match lookup registry (de_env d) with Some known => negb (bool_decide (kh_hosts known = [])) | None => false end.
Definition by_hosts (registry : Registry) (decoys : list Decoy) : list Decoy * list Decoy :=
  (filter (λ d, has_hosts registry d = true) decoys, filter (λ d, has_hosts registry d = false) decoys).
Definition derivable_envs (fnox : option FnoxSource) (registry : Registry) : list bytes :=
  map de_env (by_hosts registry (select fnox registry)).1.

Definition passthrough_name (rules : list (bytes * RuleCfg)) (decoys : list Decoy) (name : bytes) : result StackError () :=
  if existsb (λ r : bytes * RuleCfg, bool_decide (rc_env r.2 = name)) rules then Err (PassthroughOverlapRule name)
  else if existsb (λ d, bool_decide (de_env d = name)) decoys then Err (PassthroughOverlapDecoy name)
  else Ok ().
Definition validate_passthrough (rules : list (bytes * RuleCfg)) (decoys : list Decoy) (passthrough : list bytes)
    : result StackError () :=
  try_fold (λ _ name, passthrough_name rules decoys name) () passthrough.

Definition uncovered_names (declared selected passthrough : list bytes) : list bytes :=
  filter (λ name, name ∉ selected ∧ name ∉ passthrough ∧ name ∉ FNOX_ENV) declared.

(** ** Variables *)

Definition synthetic_rule (name : bytes) : RuleCfg :=
  {| rc_env := name; rc_value := None; rc_real := None; rc_fnox_key := None; rc_allow := [bs "https://localhost.invalid"];
     rc_pattern := None; rc_oauth2 := None; rc_registry := None; rc_if_missing := MissError; rc_tls := []; rc_ssh := [] |}.
Definition synthetic_config (names : list bytes) : list (bytes * RuleCfg) := map (λ name, (name, synthetic_rule name)) names.

(** [env.insert] for each resolved rule, in label order. *)
Definition insert_resolved (env : gmap bytes bytes) (r : bytes * RuleCfg) : result StackError (gmap bytes bytes) :=
  match rc_value r.2 with
  | Some value => Ok (<[rc_env r.2 := value]> env)
  | None => Err (SecretNoValue r.1)
  end.

(** [names] in the order of a [BTreeSet]; [env] is the process environment. *)
Definition resolution_env (env : gmap bytes bytes) (registry : Registry) (fnox : option FnoxSource) (names : list bytes)
    : result StackError (gmap bytes bytes) :=
  match fnox with
  | None => Ok env
  | Some source =>
      let missing := filter (λ name, env !! name = None) names in
      let declared := filter (λ name, name ∈ fs_declared source) missing in
      if bool_decide (declared = []) then Ok env
      else
        rules ← map_err StFnox (resolve registry fnox (synthetic_config declared));
        try_fold insert_resolved env rules
  end.
End Selection.

(** ** Rewritten files *)

(** One turn of the loop of [apply_rewrites]: every occurrence, left to right. *)
Fixpoint rewrite_loop (fuel : nat) (real decoy rest : bytes) : bytes :=
  match fuel with
  | 0 => rest
  | S fuel =>
      match find_window real rest with
      | Some at_ => take at_ rest ++ decoy ++ rewrite_loop fuel real decoy (drop (at_ + length real) rest)
      | None => rest
      end
  end.
Definition apply_rewrite (out : bytes) (pair : bytes * bytes) : bytes :=
  if bool_decide (pair.1 = []) then out else rewrite_loop (length out) pair.1 pair.2 out.
Definition apply_rewrites (content : bytes) (pairs : list (bytes * bytes)) : bytes :=
  foldl apply_rewrite content (sort_by_reverse (λ pair, length pair.1) pairs).

(** The decoy map is collected from the selection, the last one of a name winning. *)
Definition by_env (decoys : list Decoy) : gmap bytes bytes :=
  foldl (λ m d, <[de_env d := de_value d]> m) ∅ decoys.

Definition rewrite_pair (rewrite : FileRewrite) (env by_env : gmap bytes bytes) (pairs : list (bytes * bytes)) (name : bytes)
    : result StackError (list (bytes * bytes)) :=
  real ← ok_or (RewriteNoValue (fr_source rewrite) name) (nonempty (env !! name));
  decoy ← ok_or (RewriteNoDecoy (fr_source rewrite) name) (by_env !! name);
  Ok (pairs ++ [(real, decoy)]).
Definition rewrite_pairs (rewrite : FileRewrite) (env by_env : gmap bytes bytes) : result StackError (list (bytes * bytes)) :=
  try_fold (rewrite_pair rewrite env by_env) [] (fr_envs rewrite).

(** [{index:02}]. *)
Definition two_digits (n : nat) : bytes := if n <? 10 then bs "0" ++ dec (N.of_nat n) else dec (N.of_nat n).
Definition rewrite_file_name (index : nat) (source : Path) : bytes :=
  let base := match last source with Some (Normal name) => if utf8_valid name then name else bs "rewrite" | _ => bs "rewrite" end in
  two_digits index ++ bs "-" ++ base.

(** [Xpanda] over an environment, and [shellexpand::tilde]. *)
Class Expander := {
  xpanda_expand : gmap bytes bytes → bytes → result bytes bytes;
  shell_tilde : bytes → bytes;
}.

(** What the pass has collected, and the files it has written. *)
Record RewriteCollector := {
  rc_mounts : list Mount;
  rc_grants : list RewriteAdapted;
  rc_written : list (Path * bytes);
}.
Definition RewriteCollector_new : RewriteCollector := {| rc_mounts := []; rc_grants := []; rc_written := [] |}.

Section Rewriting.
Context `{!Expander}.
(** The file system, the guest CA and the format adapters. *)
Context (read_file : Path → option bytes) (can_write : Path → bool).
Context {CertAuthority : Type} (load_ca : result StackError CertAuthority).
Context (kube_adapt : CertAuthority → Path → bytes → result StackError (option RewriteAdapted)).
Context (talos_adapt : CertAuthority → Path → bytes → result StackError RewriteAdapted).
(** [RewriteInputs]. *)
Context (files_dir root : Path) (env : gmap bytes bytes) (home : bytes) (host_home : option Path).
Context (preloaded_ca : option CertAuthority).

Definition expand_value (value : bytes) : result StackError bytes := map_err StExpand (xpanda_expand env value).
Definition expand_path (value : bytes) : result StackError bytes := value ← expand_value value; Ok (shell_tilde value).

Definition rewrite_ca : result StackError CertAuthority := match preloaded_ca with Some ca => Ok ca | None => load_ca end.

Definition write_file (c : RewriteCollector) (path : Path) (content : bytes) (container : Path) : result StackError RewriteCollector :=
  if can_write path then
    Ok {| rc_mounts := rc_mounts c ++ [{| mt_host := path; mt_container := container; mt_ro := true |}];
          rc_grants := rc_grants c; rc_written := rc_written c ++ [(path, content)] |}
  else Err (StWriteFile path).
Definition write_decoy_file (c : RewriteCollector) (file : DecoyFile) : result StackError RewriteCollector :=
  write_file c (path_join files_dir (components (df_name file))) (df_bytes file) (components (df_container file)).
Definition write_decoy_files (c : RewriteCollector) (first : RewriteAdapted) : result StackError RewriteCollector :=
  try_fold write_decoy_file c (ra_decoy_files first).
Definition extend_grants (c : RewriteCollector) (adapted : list RewriteAdapted) : RewriteCollector :=
  {| rc_mounts := rc_mounts c; rc_grants := rc_grants c ++ adapted; rc_written := rc_written c |}.

(** [RewriteCollector::twin]. *)
Definition twin (c : RewriteCollector) (adapted : list RewriteAdapted) (twin_name twin_dest : bytes)
    : result StackError RewriteCollector :=
  match adapted with
  | [] => Ok c
  | first :: _ =>
      c ← write_file c (path_join files_dir (components twin_name)) (ra_decoy first) (components twin_dest);
      c ← write_decoy_files c first;
      Ok (extend_grants c adapted)
  end.

(** [ExplicitRewrites::output]: the bytes and what the adapter emitted. *)
Definition output (c : RewriteCollector) (rewrite : FileRewrite) (host : Path) (content : bytes) (pairs : list (bytes * bytes))
    : result StackError (RewriteCollector * bytes) :=
  match (match fr_format rewrite with Some format => Some format | None => sniff content end) with
  | None => Ok (c, apply_rewrites content pairs)
  | Some format =>
      if negb (bool_decide (fr_envs rewrite = [])) then Err (RewriteWithEnvs (fr_source rewrite) format)
      else
        ca ← rewrite_ca;
        adapted ← match format with
                  | Kubeconfig => kube_adapt ca host content
                  | Talos => adapted ← talos_adapt ca host content; Ok (Some adapted)
                  end;
        match adapted with
        | Some first =>
            c ← write_decoy_files c first;
            Ok (extend_grants c [first], ra_decoy first)
        | None =>
            if bool_of_opt (fr_format rewrite) then
              Err (RewriteInvalid host format (bs "the document does not carry the format's markers"))
            else Ok (c, apply_rewrites content pairs)
        end
  end.

(** [ExplicitRewrites::write]. *)
Definition write (by_env : gmap bytes bytes) (c : RewriteCollector) (r : nat * FileRewrite) : result StackError RewriteCollector :=
  let '(index, rewrite) := r in
  pairs ← rewrite_pairs rewrite env by_env;
  expanded_source ← expand_path (fr_source rewrite);
  let host := expand (components expanded_source) root host_home in
  content ← ok_or (StReadFile host) (read_file host);
  '(c, out) ← output c rewrite host content pairs;
  let out_path := path_join files_dir (components (rewrite_file_name index host)) in
  if negb (can_write out_path) then Err (StWriteFile out_path)
  else
    dest ← expand_value (fr_dest rewrite);
    let container := str_replace dest (bs "{home}") home in
    if negb (starts_with container (bs "/")) then Err (RewriteDestNotAbsolute (fr_dest rewrite))
    else write_file c out_path out (components container).

(** [files_ok] is whether the state directory could be made. *)
Definition write_rewrites (files_ok : bool) (rewrites : list FileRewrite) (decoys : list Decoy) : result StackError RewriteCollector :=
  if bool_decide (rewrites = []) then Ok RewriteCollector_new
  else if negb files_ok then Err (StCreateDir files_dir)
  else try_fold (write (by_env decoys)) RewriteCollector_new (imap pair rewrites).
End Rewriting.

(** ** Mounts *)

Definition split_mode (entry : bytes) : bytes * bool :=
  match strip_suffix (bs ":ro") entry with
  | Some rest => (rest, true)
  | None => match strip_suffix (bs ":rw") entry with Some rest => (rest, false) | None => (entry, false) end
  end.

(** Where each tool reads its configuration. *)
Definition TOOL_CONFIG_DIRS : list (bytes * bytes) :=
  [(bs "amazon-q", bs "{home}/.aws/amazonq"); (bs "amazonq", bs "{home}/.aws/amazonq");
   (bs "amp", bs "{home}/.config/amp"); (bs "auggie", bs "{home}/.augment"); (bs "augment", bs "{home}/.augment");
   (bs "claude", bs "{home}/.claude"); (bs "claude-code", bs "{home}/.claude"); (bs "cline", bs "{home}/.cline");
   (bs "codebuddy", bs "{home}/.codebuddy"); (bs "codebuff", bs "{home}/.config/manicode");
   (bs "codex", bs "{home}/.codex"); (bs "codex-cli", bs "{home}/.codex"); (bs "continue", bs "{home}/.continue");
   (bs "copilot", bs "{home}/.copilot"); (bs "crush", bs "{home}/.config/crush"); (bs "cursor", bs "{home}/.cursor");
   (bs "deepagents", bs "{home}/.deepagents"); (bs "droid", bs "{home}/.factory"); (bs "dsh", bs "{home}/.dsh");
   (bs "factory", bs "{home}/.factory"); (bs "forge", bs "{home}/.forge"); (bs "gemini", bs "{home}/.gemini");
   (bs "gemini-cli", bs "{home}/.gemini"); (bs "gh", bs "{home}/.config/gh");
   (bs "goose", bs "{home}/.config/goose"); (bs "gptme", bs "{home}/.config/gptme"); (bs "grok", bs "{home}/.grok");
   (bs "grok-build", bs "{home}/.grok"); (bs "hermes", bs "{home}/.hermes"); (bs "iflow", bs "{home}/.iflow");
   (bs "junie", bs "{home}/.junie"); (bs "junie-cli", bs "{home}/.junie"); (bs "kilo", bs "{home}/.config/kilo");
   (bs "kimi", bs "{home}/.kimi"); (bs "kimi-code", bs "{home}/.kimi-code"); (bs "kiro", bs "{home}/.kiro");
   (bs "kiro-cli", bs "{home}/.kiro"); (bs "mimo", bs "{home}/.mimo-code"); (bs "mimo-code", bs "{home}/.mimo-code");
   (bs "muse", bs "{home}/.muse-code"); (bs "muse-code", bs "{home}/.muse-code"); (bs "omp", bs "{home}/.omp");
   (bs "open-interpreter", bs "{home}/.config/open-interpreter"); (bs "openclaw", bs "{home}/.openclaw");
   (bs "openhands", bs "{home}/.openhands"); (bs "openinterpreter", bs "{home}/.config/open-interpreter");
   (bs "opencode", bs "{home}/.config/opencode"); (bs "pi", bs "{home}/.pi"); (bs "qoder", bs "{home}/.qoder");
   (bs "qwen", bs "{home}/.qwen"); (bs "qwen-code", bs "{home}/.qwen"); (bs "roo", bs "{home}/.config/roo");
   (bs "roo-code", bs "{home}/.config/roo"); (bs "trae", bs "{home}/.trae"); (bs "vibe", bs "{home}/.vibe");
   (bs "warp", bs "{home}/.config/warp-terminal"); (bs "workbuddy", bs "{home}/.codebuddy")].

Section Mounts.
(** The file system. *)
Context (exists_ is_file is_dir mkdir : Path → bool).
Context (root : Path) (host_home : option Path) (home : bytes).

Definition include_entry (entries : list (Path * bool)) (entry : bytes) : result StackError (list (Path * bool)) :=
  let '(path, ro) := split_mode entry in
  let host := expand (components path) root host_home in
  if exists_ host then Ok (entries ++ [(host, ro)]) else Err (IncludeMissing entry).
Definition include_entries (includes : list bytes) : result StackError (list (Path * bool)) :=
  entries ← try_fold include_entry [(root, false)] includes;
  Ok (sort_by_reverse (λ e : Path * bool, length e.1) entries).

Definition include_mount (entry : Path * bool) : Mount :=
  {| mt_host := entry.1; mt_container := translate entry.1 host_home home; mt_ro := entry.2 |}.
(** The mounts [StackBuilder::resolve] computes. *)
Definition workspace_mounts (includes : list bytes) : result StackError (list Mount) :=
  entries ← include_entries includes;
  Ok (covering (map include_mount entries)).

Definition resolve_build (build : WorkspaceBuild) : result StackError (Path * Path) :=
  let dockerfile := expand (components (wb_dockerfile build)) root host_home in
  if negb (is_file dockerfile) then Err (BuildDockerfileMissing (wb_dockerfile build))
  else
    let context := expand (components (wb_context build)) root host_home in
    if negb (is_dir context) then Err (BuildContextMissing (wb_context build)) else Ok (context, dockerfile).

(** [load_or_generate_client_pair] for a label. *)
Context (client_pair : bytes → option (Path * Path)).

Definition guest_mounts (label : bytes) (cert key : Path) (tls : HostTlsCfg) : list Mount :=
  let under ext := home ++ bs "/.config/hodor/guest/" ++ label ++ ext in
  [{| mt_host := cert; mt_container := components (default (under (bs ".pem")) (ht_guest_cert tls)); mt_ro := true |};
   {| mt_host := key; mt_container := components (default (under (bs ".key")) (ht_guest_key tls)); mt_ro := true |}].
Definition guest_identity_rule (mounts : list Mount) (r : bytes * RuleCfg) : result StackError (list Mount) :=
  let '(label, rule) := r in
  let mtls := filter (λ tls, ht_guest_tls_mode tls = Mtls) (map snd (rc_tls rule)) in
  match mtls with
  | [] => Ok mounts
  | _ =>
      '(cert, key) ← ok_or (GuestPair label) (client_pair label);
      Ok (mounts ++ flat_map (guest_mounts label cert key) mtls)
  end.
Definition guest_identity_mounts (rules : list (bytes * RuleCfg)) : result StackError (list Mount) :=
  try_fold guest_identity_rule [] rules.

(** ** Tool profiles *)

(** [ProfileRoots]: the directory of each root with its layer. *)
Record ProfileRoots := {
  pr_project : option (Path * ProfileLayer);
  pr_global : option (Path * ProfileLayer);
}.
Definition chain_dir (roots : ProfileRoots) (chain : list bytes) (name : bytes) : option Path :=
  find is_dir (flat_map (λ layer : Path * ProfileLayer, map (λ parent, layer.1 ++ [Normal parent; Normal name]) chain)
                 (option_list (pr_project roots) ++ option_list (pr_global roots))).
Definition create_base (roots : ProfileRoots) (profile : bytes) : option Path :=
  global ← pr_global roots; Some (global.1 ++ [Normal profile]).

(** A configured tool's mount and the directory made for it; the accumulator
    holds the mounts and the directories made so far. *)
Definition configured_tool (roots : ProfileRoots) (chain : list bytes) (profile : bytes) (acc : list Mount * list Path)
    (t : bytes * ToolCfg) : result StackError (list Mount * list Path) :=
  let '(name, tool) := t in
  let '(mounts, made) := acc in
  if negb (valid_profile name) then Err (ToolNameInvalid name)
  else
    let container := str_replace (tc_config_dir tool) (bs "{home}") home in
    if negb (starts_with container (bs "/")) then Err (ToolConfigNotAbsolute name (tc_config_dir tool))
    else
      let mount host := {| mt_host := host; mt_container := components container; mt_ro := false |} in
      match chain_dir roots chain name, create_base roots profile with
      | Some existing, _ => Ok (mounts ++ [mount existing], made)
      | None, Some base =>
          let dir := base ++ [Normal name] in
          if mkdir dir then Ok (mounts ++ [mount dir], made ++ [dir]) else Err (StCreateDir dir)
      | None, None => Ok (mounts, made)
      end.

Definition known_tool (roots : ProfileRoots) (chain configured : list bytes) (t : bytes * bytes) : option Mount :=
  let '(name, template) := t in
  if bool_decide (name ∈ configured) then None
  else
    host ← chain_dir roots chain name;
    Some {| mt_host := host; mt_container := components (str_replace template (bs "{home}") home); mt_ro := false |}.

(** The mounts, and the directories created for them. *)
Definition profile_mounts (fuel : nat) (roots : ProfileRoots) (profile : bytes) (configured : list (bytes * ToolCfg))
    : option (result StackError (list Mount * list Path)) :=
  let layers := map snd (option_list (pr_project roots) ++ option_list (pr_global roots)) in
  chain ← profile_chain fuel layers profile;
  Some (chain ← map_err StConfig chain;
        shared ← match pr_global roots with
                 | Some global =>
                     let dir := global.1 ++ [Normal SHARED_PROFILE] in
                     if mkdir dir then Ok [dir] else Err (StCreateDir dir)
                 | None => Ok []
                 end;
        '(mounts, made) ← try_fold (configured_tool roots chain profile) ([], shared) configured;
        Ok (mounts ++ omap (known_tool roots chain (map fst configured)) TOOL_CONFIG_DIRS, made)).
End Mounts.

(** ** Names *)

Definition DEFAULT_AGENT_IMAGE : bytes := bs "ghcr.io/casualjim/devagent:26.04".
Definition agent_image (project : bytes) (image : option bytes) (has_build : bool) : result StackError bytes :=
  match image with
  | Some [] => Err EmptyImage
  | Some name => Ok name
  | None => if has_build then Ok (bs "hodor-agent-" ++ to_ascii_lowercase project ++ bs ":local") else Ok DEFAULT_AGENT_IMAGE
  end.

(** [effective_extra_hosts] *)
Definition stated_gateway (entry : bytes) : bool :=
  match split_host_entry entry with
  | Some (host, target) => bool_decide (trim host = bs "host.docker.internal") && bool_decide (trim target = bs "host-gateway")
  | None => false
  end.
Definition effective_extra_hosts (extra_hosts : list bytes) : list bytes :=
  bs "host.docker.internal:host-gateway" :: filter (λ entry, stated_gateway entry = false) extra_hosts.

(** ** Properties of the rewriting *)

Section Sorting.
Context {A : Type} (key : A → nat).

Lemma insert_reverse_perm x l : insert_reverse key x l ≡ₚ x :: l.
Proof.
  induction l as [|y l IH]; simpl; [done|]. case_match; [done|]. rewrite IH. apply Permutation_swap.
Qed.

Lemma sort_by_reverse_perm l : sort_by_reverse key l ≡ₚ l.
Proof. induction l as [|x l IH]; simpl; [done|]. by rewrite insert_reverse_perm, IH. Qed.
End Sorting.

(** [r] is never completed by [d]: wherever [d] stands in a text, no occurrence
    of [r] touches it. *)
Definition separate (r d : bytes) : Prop :=
  r ≠ [] ∧ d ≠ [] ∧
  ∀ u v i, r `prefix_of` drop i (u ++ d ++ v) → i + length r ≤ length u ∨ length u + length d ≤ i.

(** Whether the two agree where they overlap in some position: the decoy
    contains the real value, is contained in it, or one's end is the other's
    beginning. *)
Definition agree (a b : bytes) : bool := bool_decide (a `prefix_of` b) || bool_decide (b `prefix_of` a).
Definition meets (real decoy : bytes) : bool :=
  bool_decide (real = []) || bool_decide (decoy = []) ||
  existsb (λ j, agree (drop j real) decoy) (seq 1 (length real - 1)) || existsb (λ j, agree real (drop j decoy)) (seq 0 (length decoy)).

Lemma existsb_seq_false (f : nat → bool) k n j : existsb f (seq k n) = false → k ≤ j < k + n → f j = false.
Proof.
  intros He Hj. destruct (f j) eqn:E; [|done]. rewrite <- He. symmetry. apply existsb_exists. exists j. split; [by apply in_seq|done].
Qed.
Lemma agree_prefix a l b : a `prefix_of` l → b `prefix_of` l → agree a b = true.
Proof. intros Ha Hb. unfold agree. rewrite orb_true_iff, !bool_decide_eq_true. by eapply prefix_weak_total. Qed.

(** Two that do not meet are apart. *)
Lemma separate_meets r d : meets r d = false → separate r d.
Proof.
  unfold meets. rewrite !orb_false_iff, !bool_decide_eq_false. intros [[[Hr Hd] Hbefore] Hafter]. split_and!; [done..|].
  intros u v i Hp. destruct (decide (i + length r ≤ length u)) as [|H1]; [by left|]. destruct (decide (length u + length d ≤ i)) as [|H2]; [by right|].
  exfalso. destruct (decide (length u ≤ i)) as [Hi|Hi].
  - assert (drop i (u ++ d ++ v) = drop (i - length u) d ++ v) as Hdrop.
    { rewrite drop_app, (drop_ge u), app_nil_l by lia. rewrite drop_app. by replace (i - length u - length d) with 0 by lia. }
    rewrite Hdrop in Hp. pose proof (existsb_seq_false _ _ _ (i - length u) Hafter ltac:(lia)) as Ha. simpl in Ha.
    by rewrite (agree_prefix r (drop (i - length u) d ++ v)) in Ha by (done || by apply prefix_app_r).
  - pose proof (existsb_seq_false _ _ _ (length u - i) Hbefore ltac:(lia)) as Ha. simpl in Ha.
    rewrite (agree_prefix (drop (length u - i) r) (d ++ v)) in Ha; [done| |by apply prefix_app_r].
    destruct Hp as [k Hk]. exists k. rewrite <- drop_app_le' by lia. rewrite <- Hk, drop_drop. replace (i + (length u - i)) with (length u) by lia.
    by rewrite drop_app_length.
Qed.

Lemma occurs_split r u d v : separate r d → occurs r (u ++ d ++ v) → occurs r u ∨ occurs r v.
Proof.
  intros (Hr & Hd & Hs) (i & Hi & Hp). destruct (Hs u v i Hp) as [Hl|Hl].
  - left. exists i. split; [lia|]. rewrite drop_app_le' in Hp by lia. eapply prefix_app_inv; [|exact Hp]. rewrite length_drop. lia.
  - right. rewrite !length_app in Hi. exists (i - length u - length d). split; [lia|].
    rewrite (drop_app_ge u), (drop_app_ge d) in Hp by lia. done.
Qed.

(** Replacing one real value brings no other back. *)
Lemma subst_keeps_clean r n d t : n ≠ [] → separate r d → ¬ occurs r t → ¬ occurs r (subst n d 0 t).
Proof.
  intros Hn Hs Ht. pose proof (scan_total n Hn t) as Hscan. remember (@nil byte) as e eqn:He in Hscan.
  change t with ([] ++ t) in Ht. change (subst n d 0 t) with ([] ++ subst n d 0 t). revert Ht. generalize (@nil byte) at 1 2 as u.
  induction Hscan as [t|t1 t2 _ IH|b t1 t2 Hb _ IH]; intros u Ht; simplify_eq.
  - done.
  - rewrite subst_match by done. intros [Ho|Ho]%(occurs_split _ _ _ _ Hs).
    + apply Ht. destruct Ho as (i & Hi & Hp). exists i. split; [rewrite length_app; lia|]. rewrite drop_app_le' by done. by apply prefix_app_r.
    + revert Ho. apply (IH eq_refl []). intros Ho. apply Ht. by do 2 apply occurs_app_r.
  - rewrite app_nil_r in Hb. rewrite subst_step by done. rewrite (cons_middle b), app_assoc. apply (IH eq_refl).
    by rewrite <- app_assoc.
Qed.

(** Replacing a value leaves none of it. *)
Lemma subst_cleans n d t : separate n d → ¬ occurs n (subst n d 0 t).
Proof.
  intros Hs. pose proof (proj1 Hs) as Hn. pose proof (scan_total n Hn t) as Hscan. remember (@nil byte) as e eqn:He in Hscan.
  change (subst n d 0 t) with ([] ++ subst n d 0 t).
  assert (∀ j, j < length (@nil byte) → ¬ n `prefix_of` drop j ([] ++ t)) as Hu by (simpl; lia).
  revert Hu. generalize (@nil byte) at 1 2 3 as u.
  induction Hscan as [t|t1 t2 _ IH|b t1 t2 Hb _ IH]; intros u Hu; simplify_eq.
  - simpl. rewrite app_nil_r. intros (i & Hi & Hp). destruct (decide (i < length u)) as [Hlt|Hge].
    + apply (Hu i Hlt). rewrite drop_app_le' by lia. by apply prefix_app_r.
    + rewrite drop_ge in Hp by lia. by apply prefix_nil_inv in Hp.
  - rewrite subst_match by done. intros [(i & Hi & Hp)|Ho]%(occurs_split _ _ _ _ Hs).
    + assert (i < length u) as Hlt. { apply prefix_length in Hp. rewrite length_drop in Hp. destruct n; [done|]. simpl in Hp. lia. }
      apply (Hu i Hlt). rewrite drop_app_le' by lia. by apply prefix_app_r.
    + revert Ho. apply (IH eq_refl []). simpl. lia.
  - rewrite app_nil_r in Hb. rewrite subst_step by done. rewrite (cons_middle b), app_assoc. apply (IH eq_refl).
    intros j Hj. rewrite <- app_assoc. rewrite length_app in Hj. simpl in Hj. destruct (decide (j < length u)) as [Hlt|Hge]; [by apply Hu|].
    replace j with (length u) by lia. by rewrite drop_app_length.
Qed.

Lemma find_window_Some n d i :
  n ≠ [] → find_window n d = Some i →
  n `prefix_of` drop i d ∧ i + length n ≤ length d ∧ ∀ j, j < i → ¬ n `prefix_of` drop j d.
Proof.
  intros Hn Hf. apply position_Some in Hf as ((w & Hw & Hp) & Hbefore). apply bool_decide_eq_true in Hp. subst w.
  pose proof Hw as Hw'. apply windows_lookup in Hw' as (Hl & _ & _).
  apply window_occurs in Hw as [_ Ho]. split; [done|]. split; [done|]. intros j Hj Hpj.
  assert (windows (length n) d !! j = Some n) as Hwj by (apply window_occurs; split; [lia|done]).
  specialize (Hbefore j n Hj Hwj). by rewrite bool_decide_eq_true_2 in Hbefore.
Qed.

Lemma find_window_None n d : n ≠ [] → find_window n d = None → ¬ occurs n d.
Proof.
  intros Hn Hf (i & Hi & Hp). unfold find_window in Hf. rewrite position_None, Forall_forall in Hf.
  assert (windows (length n) d !! i = Some n) as Hw by by apply window_occurs.
  specialize (Hf n (list_elem_of_lookup_2 _ _ _ Hw)). by rewrite bool_decide_eq_true_2 in Hf.
Qed.

Lemma subst_before n r g d : (∀ j, j < length g → ¬ n `prefix_of` drop j (g ++ d)) → subst n r 0 (g ++ d) = g ++ subst n r 0 d.
Proof.
  induction g as [|b g IH]; intros Hno; [done|]. rewrite <- !app_comm_cons, subst_step.
  - rewrite IH; [done|]. intros j Hj. apply (Hno (S j)). simpl. lia.
  - apply (Hno 0). simpl. lia.
Qed.

(** The loop is the substitution of every occurrence from the left. *)
Lemma rewrite_loop_subst n r fuel d : n ≠ [] → length d ≤ fuel → rewrite_loop fuel n r d = subst n r 0 d.
Proof.
  intros Hn. revert d. induction fuel as [|fuel IH]; intros d Hf; [by destruct d; [|simpl in Hf; lia]|]. simpl.
  destruct (find_window n d) as [i|] eqn:E.
  - apply find_window_Some in E as (Hp & Hl & Hb); [|done]. pose proof (needle_pos n Hn).
    rewrite IH by (rewrite length_drop; lia). rewrite <- (take_drop i d) at 3.
    rewrite subst_before.
    + f_equal. rewrite (prefix_drop_app _ _ Hp), subst_match, drop_drop by done. done.
    + rewrite length_take, take_drop. intros j Hj. apply Hb. lia.
  - by rewrite subst_no_occurrence by by apply find_window_None.
Qed.

Lemma apply_rewrite_spec out pair : pair.1 ≠ [] → apply_rewrite out pair = subst pair.1 pair.2 0 out.
Proof. intros Hp. unfold apply_rewrite. rewrite bool_decide_eq_false_2 by done. by apply rewrite_loop_subst. Qed.

(** Of every pair, no real value is left, if no decoy can complete one. *)
Lemma apply_rewrites_clean content pairs :
  (∀ p q, p ∈ pairs → q ∈ pairs → p.1 ≠ [] → separate p.1 q.2) →
  ∀ p, p ∈ pairs → p.1 ≠ [] → ¬ occurs p.1 (apply_rewrites content pairs).
Proof.
  intros Hsep. unfold apply_rewrites. pose proof (sort_by_reverse_perm (λ pair : bytes * bytes, length pair.1) pairs) as Hperm.
  assert (∀ p q, p ∈ sort_by_reverse (λ pair : bytes * bytes, length pair.1) pairs → q ∈ sort_by_reverse (λ pair : bytes * bytes, length pair.1) pairs →
    p.1 ≠ [] → separate p.1 q.2) as Hsep'.
  { intros p q Hin Hin'. apply Hsep; [by rewrite <- Hperm|by rewrite <- Hperm]. }
  intros p Hin Hne. rewrite <- Hperm in Hin. clear Hperm Hsep. revert Hin Hsep'.
  generalize (sort_by_reverse (λ pair : bytes * bytes, length pair.1) pairs) as l. intros l. revert content.
  induction l as [|q l IH] using rev_ind; intros content Hin Hsep; [by apply elem_of_nil in Hin|].
  rewrite foldl_app. simpl. assert (separate p.1 q.2) as Hpq.
  { apply Hsep; [done|apply elem_of_app; right; by left|done]. }
  unfold apply_rewrite at 1. case_bool_decide as Hq.
  - apply IH; [|intros p' q' ? ?; apply Hsep; apply elem_of_app; by left]. apply elem_of_app in Hin as [?| ->%list_elem_of_singleton]; done.
  - rewrite rewrite_loop_subst by done. apply elem_of_app in Hin as [Hin| ->%list_elem_of_singleton].
    + apply subst_keeps_clean; [done|done|]. apply IH; [done|]. intros p' q' ? ?; apply Hsep; apply elem_of_app; by left.
    + by apply subst_cleans.
Qed.

Lemma rewrite_pairs_spec rewrite env by_env pairs :
  rewrite_pairs rewrite env by_env = Ok pairs →
  Forall2 (λ name pair, env !! name = Some pair.1 ∧ pair.1 ≠ [] ∧ by_env !! name = Some pair.2) (fr_envs rewrite) pairs.
Proof.
  unfold rewrite_pairs. assert (∀ names acc, try_fold (rewrite_pair rewrite env by_env) acc names = Ok pairs →
    ∃ new, pairs = acc ++ new ∧ Forall2 (λ name pair, env !! name = Some pair.1 ∧ pair.1 ≠ [] ∧ by_env !! name = Some pair.2) names new) as Hgo.
  { intros names. induction names as [|name names IH]; intros acc; simpl; [intros [= <-]; exists []; by rewrite app_nil_r|].
    rewrite bind_ok. intros (acc' & Hp & Hr). unfold rewrite_pair in Hp. apply bind_ok in Hp as (real & He & Hp).
    apply bind_ok in Hp as (decoy & Hb & [= <-]). destruct (IH _ Hr) as (new & -> & Hn). exists ((real, decoy) :: new).
    rewrite <- app_assoc. split; [done|]. constructor; [|done]. simpl.
    destruct (env !! name) as [v|]; [|done]. destruct (by_env !! name); [|done].
    destruct v; [done|]. injection He as <-. by injection Hb as <-. }
  intros Hr. destruct (Hgo _ _ Hr) as (new & -> & Hn). exact Hn.
Qed.

Section Rewritten.
Context `{!Expander} (read_file : Path → option bytes) (can_write : Path → bool).
Context {CertAuthority : Type} (load_ca : result StackError CertAuthority).
Context (kube_adapt : CertAuthority → Path → bytes → result StackError (option RewriteAdapted)).
Context (talos_adapt : CertAuthority → Path → bytes → result StackError RewriteAdapted).
Context (files_dir root : Path) (env : gmap bytes bytes) (home : bytes) (host_home : option Path).
Context (preloaded_ca : option CertAuthority).
Abbreviation write_one := (write read_file can_write load_ca kube_adapt talos_adapt files_dir root env home host_home preloaded_ca).
Abbreviation write_all := (write_rewrites read_file can_write load_ca kube_adapt talos_adapt files_dir root env home host_home preloaded_ca).

Lemma write_file_grows c path content container c' :
  write_file can_write c path content container = Ok c' → rc_written c' = rc_written c ++ [(path, content)].
Proof. unfold write_file. case_match; [|done]. by intros [= <-]. Qed.

Lemma write_decoy_files_grows c first c' :
  write_decoy_files can_write files_dir c first = Ok c' → ∃ more, rc_written c' = rc_written c ++ more.
Proof.
  unfold write_decoy_files. apply (try_fold_inv (λ c1, ∃ more, rc_written c1 = rc_written c ++ more)).
  - intros c1 f c2 _ (more & Hm) Hw%write_file_grows. rewrite Hm, <- app_assoc in Hw. by eexists.
  - exists []. by rewrite app_nil_r.
Qed.

Lemma output_grows c rewrite host content pairs c' out :
  output can_write load_ca kube_adapt talos_adapt files_dir preloaded_ca c rewrite host content pairs = Ok (c', out) →
  ∃ more, rc_written c' = rc_written c ++ more.
Proof.
  assert (∃ more, rc_written c = rc_written c ++ more) as Hsame by (exists []; by rewrite app_nil_r).
  unfold output. destruct (match fr_format rewrite with Some _ => _ | None => _ end) as [format|]; [|by intros [= <- _]].
  case_match; [done|]. rewrite bind_ok. intros (ca & _ & Hr). apply bind_ok in Hr as (adapted & _ & Hr).
  destruct adapted as [first|]; [|case_match; [done|by injection Hr as <- _]].
  apply bind_ok in Hr as (c1 & Hw & [= <- _]). by apply write_decoy_files_grows in Hw.
Qed.

Lemma write_one_spec by_env c index rewrite c' :
  write_one by_env c (index, rewrite) = Ok c' →
  ∃ pairs source content out more,
    rewrite_pairs rewrite env by_env = Ok pairs ∧
    read_file (expand (components source) root host_home) = Some content ∧
    rc_written c' = rc_written c ++ more ++ [(path_join files_dir (components (rewrite_file_name index (expand (components source) root host_home))), out)] ∧
    (fr_format rewrite = None → sniff content = None → out = apply_rewrites content pairs).
Proof.
  unfold write. rewrite bind_ok. intros (pairs & Hp & Hr). apply bind_ok in Hr as (source & _ & Hr).
  apply bind_ok in Hr as (content & Hc & Hr). apply bind_ok in Hr as ([c1 out] & Ho & Hr). case_match; [done|].
  apply bind_ok in Hr as (dest & _ & Hr). case_match; [done|]. apply write_file_grows in Hr.
  destruct (output_grows _ _ _ _ _ _ _ Ho) as (more & Hm). exists pairs, source, content, out, more. split; [done|].
  split; [by destruct (read_file _); [injection Hc as ->|]|]. split; [by rewrite Hr, Hm, <- app_assoc|].
  intros Hf Hs. unfold output in Ho. rewrite Hf, Hs in Ho. by injection Ho as _ <-.
Qed.

Lemma write_fold_spec by_env rewrites c c' k :
  try_fold (write_one by_env) c (imap (λ i r, (k + i, r)) rewrites) = Ok c' →
  (∃ more, rc_written c' = rc_written c ++ more) ∧
  ∀ index rewrite, rewrites !! index = Some rewrite →
    ∃ pairs source content out,
      rewrite_pairs rewrite env by_env = Ok pairs ∧
      read_file (expand (components source) root host_home) = Some content ∧
      (path_join files_dir (components (rewrite_file_name (k + index) (expand (components source) root host_home))), out) ∈ rc_written c' ∧
      (fr_format rewrite = None → sniff content = None → out = apply_rewrites content pairs).
Proof.
  revert c k. induction rewrites as [|rewrite rewrites IH]; intros c k; cbn [imap try_fold].
  - intros [= <-]. split; [exists []; by rewrite app_nil_r|done].
  - rewrite bind_ok. intros (c1 & Hw & Hr). rewrite Nat.add_0_r in Hw.
    assert (imap ((λ i r, (k + i, r)) ∘ S) rewrites = imap (λ i r, (S k + i, r)) rewrites) as Hi.
    { apply imap_ext. intros i r _. simpl. f_equal. lia. }
    rewrite Hi in Hr. destruct (IH _ _ Hr) as [(more & Hm) Hall].
    destruct (write_one_spec _ _ _ _ _ Hw) as (pairs & source & content & out & more' & Hp & Hc & Hg & Ho). split.
    + rewrite Hm, Hg, <- app_assoc. by eexists.
    + intros [|index] rewrite'; simpl; [|intros Hl; destruct (Hall _ _ Hl) as (pairs' & s' & c2 & o' & ?); exists pairs', s', c2, o'; by rewrite Nat.add_succ_r].
      intros [= <-]. exists pairs, source, content, out. rewrite Nat.add_0_r. split; [done|]. split; [done|]. split; [|done].
      rewrite Hm, Hg, !elem_of_app, list_elem_of_singleton. naive_solver.
Qed.

(** C5: When the declared rewrites succeed, each one's file is written under its
    own name; and where the rewrite states no format and the content does not look
    like a structural one, the written bytes hold none of the real values the
    rewrite names, provided that no real value and decoy of its list meet: no such
    decoy contains one of those values, is contained in one, or begins as one ends
    or ends as one begins. *)
Theorem rewritten_files_clean rewrites decoys c index rewrite :
  write_all true rewrites decoys = Ok c → rewrites !! index = Some rewrite →
  ∃ source content out,
    read_file (expand (components source) root host_home) = Some content ∧
    (path_join files_dir (components (rewrite_file_name index (expand (components source) root host_home))), out) ∈ rc_written c ∧
    (fr_format rewrite = None → sniff content = None →
     (∀ name name' real decoy, name ∈ fr_envs rewrite → name' ∈ fr_envs rewrite →
        env !! name = Some real → by_env decoys !! name' = Some decoy → meets real decoy = false) →
     ∀ name, name ∈ fr_envs rewrite → ∃ real, env !! name = Some real ∧ real ≠ [] ∧ ¬ occurs real out).
Proof.
  intros Hw Hl. unfold write_rewrites in Hw. case_bool_decide as Hne; [by rewrite Hne in Hl|]. cbn [negb] in Hw.
  assert (imap pair rewrites = imap (λ i r, (0 + i, r)) rewrites) as Hi by by apply imap_ext.
  rewrite Hi in Hw. destruct (write_fold_spec _ _ _ _ _ Hw) as [_ Hall].
  destruct (Hall _ _ Hl) as (pairs & source & content & out & Hp & Hc & Hin & Ho). exists source, content, out.
  split; [done|]. split; [done|]. intros Hf Hs Hsep name Hname. rewrite (Ho Hf Hs). apply rewrite_pairs_spec in Hp.
  destruct (Forall2_elem _ _ _ Hp) as [Hto Hfrom]. destruct (Hto _ Hname) as ([real decoy] & Hpair & He & Hne' & Hb).
  exists real. split; [done|]. split; [done|]. apply (apply_rewrites_clean content pairs) with (p := (real, decoy)); [|done..].
  intros p q Hinp Hinq _. destruct (Hfrom _ Hinp) as (n1 & Hn1 & He1 & _), (Hfrom _ Hinq) as (n2 & Hn2 & _ & _ & Hb2).
  apply separate_meets. by apply (Hsep n1 n2).
Qed.
End Rewritten.

(** ** The decoys the agent holds are those the proxy looks for *)

Section Agreement.
Context `{!Digests, !UrlCrate, !TomlRegistry}.
Context (registry : Registry) (fnox : option FnoxSource).

Lemma find_rule_unique (rules : list (bytes * RuleCfg)) label rule :
  NoDup (map (λ r, rc_env r.2) rules) → (label, rule) ∈ rules →
  find (λ r : bytes * RuleCfg, bool_decide (rc_env r.2 = rc_env rule)) rules = Some (label, rule).
Proof.
  induction rules as [|[l r] rules IH]; intros Hn Hin; [by apply elem_of_nil in Hin|]. inversion Hn as [|? ? Hx Hrest]; subst.
  cbn [find snd]. apply elem_of_cons in Hin as [[= <- <-]|Hin]; [by rewrite bool_decide_eq_true_2|].
  rewrite bool_decide_eq_false_2; [by apply IH|]. intros He. apply Hx. simpl. rewrite He. apply list_elem_of_fmap. by exists (label, rule).
Qed.

Lemma find_rule_none (rules : list (bytes * RuleCfg)) name :
  name ∉ map (λ r, rc_env r.2) rules → find (λ r : bytes * RuleCfg, bool_decide (rc_env r.2 = name)) rules = None.
Proof.
  induction rules as [|r rules IH]; intros Hn; [done|]. cbn [find]. rewrite bool_decide_eq_false_2; [apply IH; set_solver|].
  intros He. apply Hn. simpl. rewrite He. by left.
Qed.

(** The pattern the decoy of a name is rendered from is that of its rule. *)
Lemma with_rule_pattern_value rules label rule d :
  keys_sorted rules → NoDup (map (λ r, rc_env r.2) rules) →
  (label, rule) ∈ derive_catalog registry fnox rules → de_env d = rc_env rule →
  de_value (with_rule_pattern registry rules d) = decoy registry (rc_env rule) (rc_pattern rule).
Proof.
  intros Hs Hn Hin He. unfold with_rule_pattern. cbn [de_value]. rewrite He. f_equal.
  destruct (dv_new _ _ _ _ _ (derive_catalog_derives registry fnox rules Hs) _ Hin) as [Hr|(name & _ & Hnc & _ & [= -> ->])].
  - by rewrite (find_rule_unique _ _ _ Hn Hr).
  - cbn [rc_env derived_rule]. by rewrite find_rule_none.
Qed.

(** C8: The decoy in the agent's environment is the decoy the proxy replaces,
    when the table is sorted by its keys, resolves, and no two of its rules
    share a name. For every token grant the table resolves to that has no raw
    TCP entry, the decoy generation puts under the rule's name, if it puts
    one, is the needle of the grant, from whichever of the rule, the registry
    or the default its pattern comes; and a rule of the catalog always has its
    decoy there. With a raw TCP entry the two differ ([tcp_decoy_disagrees]).
    *)
Theorem agent_decoys_agree rules rules' grants credential allow pattern oauth2 :
  keys_sorted rules → NoDup (map (λ r, rc_env r.2) rules) →
  resolve registry fnox rules = Ok rules' → resolve_grants rules' = Ok grants →
  GToken credential allow pattern oauth2 ∈ grants → Forall (λ e, es_scheme e ≠ Tcp) allow →
  ∃ rule, (cr_label credential, rule) ∈ derive_catalog registry fnox rules ∧
    (∀ d, d ∈ with_rule_patterns (select fnox registry) registry rules → de_env d = rc_env rule → de_value d = cr_fake credential) ∧
    ((cr_label credential, rule) ∉ rules → ∃ d, d ∈ with_rule_patterns (select fnox registry) registry rules ∧ de_env d = rc_env rule).
Proof.
  intros Hs Hn Hr Hg Hin Htcp. apply (resolve_grants_from _ _ _ Hg) in Hin as (label & rule' & Hin & Htok).
  destruct Htok as (Hl & _ & _ & _ & Hssh & Hsch & _ & Hfake). subst label.
  destruct (resolve_rules _ _ _ _ Hs Hr) as [Hto Hfrom]. destruct (Hfrom _ _ Hin) as (rule & Hd & Hp).
  destruct (Hto _ _ Hd) as (Hf & _). apply (pass_apply_spec _ _ _ _ false _ Hf) in Hp. simpl in Hp. unfold resolved_as in Hp.
  exists rule. split; [done|]. split.
  - intros d' Hd' He. apply list_elem_of_fmap in Hd' as (d & -> & _).
    rewrite (with_rule_pattern_value _ _ _ _ Hs Hn Hd) by done. rewrite Hfake, decoy_for_rule_plain by done.
    destruct (RuleCfg_is_ssh rule) eqn:Es; [by subst rule'; rewrite Hssh in Es|].
    destruct (bool_of_opt (RuleCfg_value_scheme rule)) eqn:Esch.
    { destruct Hp as (real & _ & ->). change (RuleCfg_value_scheme (RuleCfg_with _ _ _ _ _ rule)) with (RuleCfg_value_scheme rule) in Hsch.
      by rewrite Hsch in Esch. }
    by destruct Hp as (value & entries & _ & _ & _ & ->).
  - intros Hno. destruct (dv_new _ _ _ _ _ (derive_catalog_derives registry fnox rules Hs) _ Hd) as [?|(name & Hname & _ & Hcat & [= _ ->])]; [done|].
    destruct fnox as [source|]; [|by apply elem_of_nil in Hname]. destruct Hcat as (known & Hk & _).
    exists (with_rule_pattern registry rules {| de_env := name; de_value := decoy registry name None |}). split; [|done].
    apply list_elem_of_fmap. eexists. split; [done|]. apply list_elem_of_fmap. exists name. split; [done|].
    apply list_elem_of_filter. by rewrite Hk.
Qed.
End Agreement.

(** ** Resolved variables *)

Lemma StronglySorted_filter {A} (R : relation A) (P : A → Prop) `{!∀ x, Decision (P x)} l :
  StronglySorted R l → StronglySorted R (filter P l).
Proof.
  induction 1 as [|x l _ IH Hx]; [constructor|]. rewrite filter_cons. case_decide; [|done]. constructor; [done|].
  rewrite Forall_forall in *. intros y [_ Hy]%list_elem_of_filter. by apply Hx.
Qed.

Section Variables.
Context `{!Digests, !UrlCrate, !TomlRegistry}.
Context (registry : Registry) (source : FnoxSource).

Lemma insert_fold (rules : list (bytes * RuleCfg)) env env' :
  try_fold insert_resolved env rules = Ok env' →
  (∀ n v, env' !! n = Some v → env !! n = Some v ∨ ∃ r, r ∈ rules ∧ rc_env r.2 = n ∧ rc_value r.2 = Some v) ∧
  (∀ n v, env !! n = Some v → env' !! n = Some v ∨ ∃ r, r ∈ rules ∧ rc_env r.2 = n) ∧
  (∀ r, r ∈ rules → is_Some (env' !! rc_env r.2)).
Proof.
  revert env. induction rules as [|r rules IH]; intros env; simpl.
  - intros [= <-]. split_and!; [by left|by left|by intros r ?%elem_of_nil].
  - rewrite bind_ok. intros (env1 & Hi & Hr). unfold insert_resolved in Hi. destruct (rc_value r.2) as [value|] eqn:Ev; [|done].
    injection Hi as <-. destruct (IH _ Hr) as (Hfa & Hfb & Hfc). split_and!.
    + intros n v Hl. destruct (Hfa n v Hl) as [Hl'|(r' & Hin & ? & ?)]; [|right; exists r'; split; [by right|done]].
      apply lookup_insert_Some in Hl' as [[<- <-]|[_ ?]]; [right; exists r; split; [by left|done]|by left].
    + intros n v Hl. destruct (decide (rc_env r.2 = n)) as [Heq|Hne]; [right; exists r; split; [by left|done]|].
      destruct (Hfb n v) as [?|(r' & Hin & ?)]; [by rewrite lookup_insert_ne|by left|right; exists r'; split; [by right|done]].
    + intros r' [-> |Hin]%elem_of_cons; [|by apply Hfc].
      destruct (Hfb (rc_env r.2) value) as [?|(r' & Hin & <-)]; [by rewrite lookup_insert_eq|by eexists|by apply Hfc].
Qed.

(** A rule the pass made up, resolved: its value is what fnox gives its name. *)
Lemma synthetic_resolved names label rule' rules' :
  StronglySorted str_lt names → resolve registry (Some source) (synthetic_config names) = Ok rules' → (label, rule') ∈ rules' →
  ∃ v, rc_value rule' = Some v ∧ FnoxSource_value source (rc_env rule') = Ok (Some v) ∧
    (rc_env rule' ∈ names ∨ (rc_env rule' ∈ fs_declared source ∧ catalogued registry (rc_env rule'))).
Proof.
  intros Hn Hr Hin. assert (keys_sorted (synthetic_config names)) as Hs.
  { unfold keys_sorted, synthetic_config. rewrite map_map. by rewrite map_id. }
  destruct (resolve_rules _ _ _ _ Hs Hr) as [Hto Hfrom]. destruct (Hfrom _ _ Hin) as (rule & Hd & Hp).
  destruct (Hto _ _ Hd) as (Hf & _). apply (pass_apply_spec _ _ _ _ false _ Hf) in Hp. simpl in Hp. unfold resolved_as in Hp.
  assert (∃ name, (rule = synthetic_rule name ∧ name ∈ names) ∨
    (rule = derived_rule name ∧ name ∈ fs_declared source ∧ catalogued registry name)) as (name & Hcases).
  { destruct (dv_new _ _ _ _ _ (derive_catalog_derives registry (Some source) _ Hs) _ Hd) as [Hin'|(name & Hfa & _ & Hfc & [= _ ->])].
    - apply list_elem_of_fmap in Hin' as (name & [= _ ->] & Hname). exists name. by left.
    - exists name. by right. }
  destruct Hcases as [[-> Hname]|[-> Hname]]; destruct Hp as (value & allow & [Hv|[_ Hv]] & _ & _ & ->); try done;
    exists value; (split; [done|]); (split; [exact Hv|]); [by left|by right].
Qed.

(** What generation resolves variables over. Every referenced name the
    process environment lacks and fnox declares has fnox's value; every value
    there is comes from the process environment or from fnox under its own
    name; and a variable of the process environment keeps its value, unless a
    missing name made fnox resolve its catalog and that holds the variable. *)
Theorem resolution_env_exact env names env' :
  StronglySorted str_lt names → resolution_env env registry (Some source) names = Ok env' →
  let missing := filter (λ name, name ∈ fs_declared source) (filter (λ name, env !! name = None) names) in
  (∀ n, n ∈ missing → ∃ v, FnoxSource_value source n = Ok (Some v) ∧ env' !! n = Some v) ∧
  (∀ n v, env' !! n = Some v → env !! n = Some v ∨ FnoxSource_value source n = Ok (Some v)) ∧
  (∀ n v, env !! n = Some v → env' !! n = Some v ∨ (missing ≠ [] ∧ n ∈ fs_declared source ∧ catalogued registry n)).
Proof.
  intros Hn. unfold resolution_env. cbv zeta. set (missing := filter _ (filter _ names)).
  case_bool_decide as Hm.
  { intros [= <-]. rewrite Hm. split_and!; [by intros n ?%elem_of_nil|by left|by left]. }
  rewrite bind_ok. intros (rules' & Hr%map_err_Ok & Hf). destruct (insert_fold _ _ _ Hf) as (Hfa & Hfb & Hfc).
  assert (StronglySorted str_lt missing) as Hsm by by do 2 apply StronglySorted_filter.
  assert (keys_sorted (synthetic_config missing)) as Hs.
  { unfold keys_sorted, synthetic_config. rewrite map_map. by rewrite map_id. }
  pose proof (λ label rule', synthetic_resolved missing label rule' rules' Hsm Hr) as Hres.
  assert (∀ n v, env' !! n = Some v → env !! n = Some v ∨ FnoxSource_value source n = Ok (Some v)) as Hback.
  { intros n v Hl. destruct (Hfa n v Hl) as [?|([label r] & Hin & <- & Hv)]; [by left|]. right.
    destruct (Hres _ _ Hin) as (v' & Hv' & Hfx & _). simpl in *. congruence. }
  split_and!; [|exact Hback|].
  - intros n Hin. destruct (resolve_rules _ _ _ _ Hs Hr) as [Hto _].
    assert ((n, synthetic_rule n) ∈ derive_catalog registry (Some source) (synthetic_config missing)) as Hd.
    { apply (dv_keeps _ _ _ _ _ (derive_catalog_derives registry (Some source) _ Hs)). apply list_elem_of_fmap. by exists n. }
    destruct (Hto _ _ Hd) as (Hfe & dropped & rule' & Hp & Hkept). apply (pass_apply_spec registry (Some source) n (synthetic_rule n) dropped rule' Hfe) in Hp.
    destruct dropped; [by destruct Hp as [? _]|]. destruct (Hfc _ Hkept) as [v Hv]. simpl in Hv.
    assert (rc_env rule' = n) as He by by destruct Hp as (value & allow & _ & _ & _ & ->). rewrite He in Hv.
    exists v. split; [|done]. destruct (Hback n v Hv) as [He'|?]; [|done].
    apply list_elem_of_filter in Hin as [_ [Hnone _]%list_elem_of_filter]. congruence.
  - intros n v Hl. destruct (Hfb n v Hl) as [?|([label r] & Hin & Hne)]; [by left|]. right. split; [done|].
    destruct (Hres _ _ Hin) as (_ & _ & _ & Hc). simpl in Hne. rewrite Hne in Hc. destruct Hc as [Hc|?]; [|done].
    apply list_elem_of_filter in Hc as [_ [Hnone _]%list_elem_of_filter]. congruence.
Qed.
End Variables.

(** ** Where the workspace is mounted *)

Lemma pop_absolute path : is_absolute path = true → is_absolute (pop path) = true.
Proof.
  intros Ha. destruct path as [|[] path]; try done. unfold pop. destruct path as [|c path]; [done|].
  destruct (last (RootDir :: c :: path)) as [[]|]; done.
Qed.

Lemma path_join_absolute base path : is_absolute base = true → is_absolute (path_join base path) = true.
Proof. destruct base as [|[] base]; try done. by destruct path as [|[] path]. Qed.

Lemma normalize_absolute path : is_absolute path = true → is_absolute (normalize path) = true.
Proof.
  intros Ha. destruct path as [|[] path]; try done. unfold normalize. simpl.
  clear Ha. assert (is_absolute [RootDir] = true) as Hr by done. revert Hr. generalize [RootDir] as out.
  induction path as [|c path IH]; intros out Ho; [done|]. apply IH. destruct c as [| | |name]; simpl; [done|done|by apply pop_absolute|].
  by destruct out as [|[]].
Qed.

(** An absolute, plain path. *)
Definition host_path (path : Path) : Prop := plain path ∧ is_absolute path = true.

Lemma normalize_host path : is_absolute path = true → host_path (normalize path).
Proof. intros Ha. split; [apply normalize_plain|by apply normalize_absolute]. Qed.

Lemma expand_host path root host_home :
  host_path root → (∀ hh, host_home = Some hh → host_path hh) → host_path (expand path root host_home).
Proof.
  intros [Hr Ha] Hh. unfold expand. cbv zeta. case_bool_decide as Ht.
  - destruct host_home as [hh|]; [by apply Hh|]. subst path. destruct Hr as (r & names & Hroot & ->). split.
    + exists r, (names ++ [bs "~"]). split; [done|]. simpl. by rewrite map_app, app_assoc.
    + by apply path_join_absolute.
  - assert (host_path (if is_absolute path then normalize path else normalize (path_join root path))) as Hn.
    { destruct (is_absolute path) eqn:E; apply normalize_host; [done|by apply path_join_absolute]. }
    destruct (path_strip_prefix path _), host_home as [hh|]; try exact Hn.
    apply normalize_host, path_join_absolute. by destruct (Hh hh).
Qed.

Section Workspace.
Context (exists_ : Path → bool) (root : Path) (host_home : option Path) (home : bytes).
Context (Hroot : host_path root) (Hhome : ∀ hh, host_home = Some hh → host_path hh).

Abbreviation included entry := (expand (components (split_mode entry).1) root host_home).

Lemma include_fold includes entries entries' :
  try_fold (include_entry exists_ root host_home) entries includes = Ok entries' →
  entries' = entries ++ map (λ entry, (included entry, (split_mode entry).2)) includes ∧
  Forall (λ entry, exists_ (included entry) = true) includes.
Proof.
  revert entries. induction includes as [|entry includes IH]; intros entries; simpl.
  - intros [= <-]. rewrite app_nil_r. by split.
  - rewrite bind_ok. intros (e1 & Hi & Hr). unfold include_entry in Hi. destruct (split_mode entry) as [path ro] eqn:Em.
    destruct (exists_ _) eqn:Ex; [|done]. injection Hi as <-. destruct (IH _ Hr) as [-> Hall]. rewrite <- app_assoc. split; [done|]. constructor; [by rewrite Em|done].
Qed.

(** What the workspace's mounts give. When they are computed, every
    included path exists; each of the root and the included paths lies in a
    mount, at the place it translates to unless the host home lies strictly
    between the mount and the path; nothing else is mounted, and no mount lies
    inside another. *)
Theorem workspace_mounts_exact includes mounts :
  workspace_mounts exists_ root host_home home includes = Ok mounts →
  Forall (λ entry, exists_ (included entry) = true) includes ∧
  (∀ host, host ∈ root :: map (λ entry, included entry) includes →
     ∃ m rest, m ∈ mounts ∧ host = mt_host m ++ rest ∧
       ((∀ hh, host_home = Some hh → hh `prefix_of` host → hh `prefix_of` mt_host m) →
        translate host host_home home = mt_container m ++ rest)) ∧
  (∀ m, m ∈ mounts → mt_host m ∈ root :: map (λ entry, included entry) includes) ∧
  (∀ i j k l, mounts !! i = Some k → mounts !! j = Some l → mt_host k `prefix_of` mt_host l → i = j).
Proof.
  unfold workspace_mounts. rewrite bind_ok. intros (entries & He & [= <-]). unfold include_entries in He.
  apply bind_ok in He as (all & Hi & [= <-]). destruct (include_fold _ _ _ Hi) as [-> Hall]. split; [done|].
  set (all := [(root, false)] ++ _). pose proof (sort_by_reverse_perm (λ e : Path * bool, length e.1) all) as Hp.
  set (sorted := sort_by_reverse _ all) in *. destruct (covering_covers (map (include_mount host_home home) sorted)) as [Hk Hs Ha].
  assert (∀ host, host ∈ root :: map (λ entry, included entry) includes ↔ ∃ ro, (host, ro) ∈ sorted) as Hwanted.
  { intros host. setoid_rewrite (elem_of_Permutation_proper _ _ _ Hp). unfold all. setoid_rewrite elem_of_cons.
    setoid_rewrite list_elem_of_fmap. split.
    - intros [-> |(entry & -> & Hin)]; [exists false; by left|]. exists (split_mode entry).2. right. by exists entry.
    - intros (ro & [[= -> _]|(entry & [= -> _] & Hin)]); [by left|right; by exists entry]. }
  assert (∀ host, host ∈ root :: map (λ entry, included entry) includes → host_path host) as Hhost.
  { intros host [-> |(entry & -> & _)%list_elem_of_fmap]%elem_of_cons; [done|by apply expand_host]. }
  split; [|split; [|exact Ha]].
  - intros host Hin. pose proof Hin as (ro & Hro)%Hwanted.
    destruct (Hs (include_mount host_home home (host, ro))) as (m & Hm & rest & Hrest); [apply list_elem_of_fmap; by eexists|].
    exists m, rest. split; [done|]. split; [done|]. intros Hbetween.
    apply Hk, list_elem_of_fmap in Hm as ([base ro'] & -> & Hbase). simpl in *.
    assert (host_path base) as [_ Habs] by (apply Hhost, Hwanted; by exists ro').
    apply translate_below; [by destruct (Hhost _ Hin)|by destruct base| |done|done].
    intros Hnil. by destruct (Hhome [] Hnil) as [_ ?].
  - intros m Hm. apply Hk, list_elem_of_fmap in Hm as ([base ro] & -> & Hbase). apply Hwanted. by exists ro.
Qed.
End Workspace.

(** A path included read-only below the workspace root, which is mounted for
    writing, is covered by it: the mode is lost. *)
Example covered_mode_lost :
  let root := components (bs "/home/u/ws") in
  workspace_mounts (λ _, true) root (Some (components (bs "/home/u"))) (bs "/home/eng") [bs "secrets:ro"] =
    Ok [{| mt_host := root; mt_container := components (bs "/home/eng/ws"); mt_ro := false |}].
Proof. vm_compute. reflexivity. Qed.

(** A path included above the host home covers the workspace, which is then not
    mounted where the agent's working directory is. *)
Example covered_above_home :
  let root := components (bs "/home/u/ws") in
  workspace_mounts (λ _, true) root (Some (components (bs "/home/u"))) (bs "/home/eng") [bs "/home"] =
    Ok [{| mt_host := components (bs "/home"); mt_container := components (bs "/home"); mt_ro := false |}] ∧
  translate root (Some (components (bs "/home/u"))) (bs "/home/eng") = components (bs "/home/eng/ws").
Proof. split; vm_compute; reflexivity. Qed.

(** Two roots can share a slug, and with it the state directory. *)
Example slugs_collide : workspace_slug (components (bs "/srv/a/b")) = workspace_slug (components (bs "/srv/a-b")).
Proof. vm_compute. reflexivity. Qed.

(** ** Concrete runs *)

#[local] Existing Instances sample_digests sample_url sample_toml.

(** Values and paths written without variables. *)
Definition sample_expander : Expander := {| xpanda_expand _ value := Ok value; shell_tilde value := value |}.

Lemma agent_decoys_agree_witness :
  ∃ rule, (bs "gh_token", rule) ∈ derive_catalog sample_registry (Some sample_fnox) [] ∧
    ∃ d, d ∈ with_rule_patterns (select (Some sample_fnox) sample_registry) sample_registry [] ∧
      de_env d = rc_env rule ∧ resolve_grants [(bs "gh_token", sample_resolved)] ≠ Ok [] ∧ length (de_value d) = 13.
Proof.
  assert (∃ credential allow pattern oauth2, cr_label credential = bs "gh_token" ∧ length (cr_fake credential) = 13 ∧
    Forall (λ e, es_scheme e ≠ Tcp) allow ∧
    resolve_grants [(bs "gh_token", sample_resolved)] = Ok [GToken credential allow pattern oauth2])
    as (credential & allow & pattern & oauth2 & Hl & Hlen & Htcp & Hg).
  { do 4 eexists. split_and!; [| | |vm_compute; reflexivity]; [reflexivity|reflexivity|by repeat constructor]. }
  destruct (agent_decoys_agree sample_registry (Some sample_fnox) [] [(bs "gh_token", sample_resolved)]
    [GToken credential allow pattern oauth2] credential allow pattern oauth2) as (rule & Hd & Hv & He).
  - constructor.
  - constructor.
  - vm_compute. reflexivity.
  - exact Hg.
  - left.
  - exact Htcp.
  - rewrite Hl in Hd, He. destruct He as (d & Hin & He); [by intros ?%elem_of_nil|]. exists rule. split; [exact Hd|].
    exists d. split; [exact Hin|]. split; [exact He|]. split; [by rewrite Hg|]. rewrite (Hv d Hin He). exact Hlen.
Defined.

(** The registry's pattern over the flow of a rule of the table: the agent holds
    the plain rendering, and the proxy looks for one of the value's length. *)
Definition sample_tcp_rule : RuleCfg :=
  {| rc_env := bs "GH_TOKEN"; rc_value := None; rc_real := None; rc_fnox_key := None; rc_allow := [bs "tcp://db:5"];
     rc_pattern := None; rc_oauth2 := None; rc_registry := Some false; rc_if_missing := MissError; rc_tls := []; rc_ssh := [] |}.
Example tcp_decoy_disagrees :
  ∃ rules grants d credential allow pattern oauth2,
    resolve sample_registry (Some sample_fnox) [(bs "db", sample_tcp_rule)] = Ok rules ∧
    resolve_grants rules = Ok grants ∧ GToken credential allow pattern oauth2 ∈ grants ∧
    d ∈ with_rule_patterns (select (Some sample_fnox) sample_registry) sample_registry [(bs "db", sample_tcp_rule)] ∧
    de_env d = rc_env sample_tcp_rule ∧ length (de_value d) = 13 ∧ length (cr_fake credential) = 6.
Proof. do 7 eexists. split_and!; [vm_compute; reflexivity|vm_compute; reflexivity|left|left|reflexivity..]. Qed.

(** A rule for a name the registry does not know resolves to a grant, and no
    decoy of its name is put in the agent's environment. *)
Example unregistered_rule_no_decoy :
  let rules := [(bs "mine", RuleCfg_with None None [bs "https://mine.test"] None None (derived_rule (bs "UNKNOWN")))] in
  ∃ rules' credential allow pattern oauth2,
    resolve sample_registry (Some sample_fnox) rules = Ok rules' ∧ rules' ≠ [] ∧
    (grants ← resolve_grants rules'; Ok (last grants)) = Ok (Some (GToken credential allow pattern oauth2)) ∧
    cr_label credential = bs "mine" ∧
    Forall (λ d, de_env d ≠ bs "UNKNOWN") (with_rule_patterns (select (Some sample_fnox) sample_registry) sample_registry rules).
Proof. do 5 eexists. split_and!; [vm_compute; reflexivity|done|vm_compute; reflexivity|reflexivity|]. by repeat constructor. Qed.

Definition sample_env : gmap bytes bytes := {[bs "GH_TOKEN" := bs "host"]}.

Lemma resolution_env_exact_witness :
  ∃ env', resolution_env sample_env sample_registry (Some sample_fnox) [bs "GH_TOKEN"; bs "UNKNOWN"] = Ok env' ∧
    (∀ n v, env' !! n = Some v → sample_env !! n = Some v ∨ FnoxSource_value sample_fnox n = Ok (Some v)).
Proof.
  assert (StronglySorted str_lt [bs "GH_TOKEN"; bs "UNKNOWN"]) as Hs by (repeat constructor; done).
  destruct (resolution_env sample_env sample_registry (Some sample_fnox) [bs "GH_TOKEN"; bs "UNKNOWN"]) as [env'|error] eqn:E.
  - exists env'. split; [exact eq_refl|]. destruct (resolution_env_exact _ _ _ _ _ Hs E) as (_ & Hx & _). exact Hx.
  - assert (match resolution_env sample_env sample_registry (Some sample_fnox) [bs "GH_TOKEN"; bs "UNKNOWN"] with Ok _ => true | Err _ => false end = true)
      as Hok by (vm_compute; reflexivity).
    rewrite E in Hok. discriminate Hok.
Defined.

(** With a name missing, the catalog's value replaces the variable the process
    environment has. *)
Example catalog_overrides_env :
  (env' ← resolution_env sample_env sample_registry (Some sample_fnox) [bs "UNKNOWN"]; Ok (env' !! bs "GH_TOKEN")) = Ok (Some (bs "s3cret")) ∧
  (env' ← resolution_env sample_env sample_registry (Some sample_fnox) [bs "GH_TOKEN"]; Ok (env' !! bs "GH_TOKEN")) = Ok (Some (bs "host")).
Proof. split; vm_compute; reflexivity. Qed.

Definition sample_rewrite : FileRewrite :=
  {| fr_source := bs "conf"; fr_dest := bs "/etc/conf"; fr_envs := [bs "GH_TOKEN"]; fr_format := None |}.

Lemma rewritten_files_clean_witness :
  let _ := sample_expander in
  let files := [RootDir; Normal (bs "state")] in
  ∃ c out,
    write_rewrites (λ _, Some (bs "key=host;host")) (λ _, true) (Err EmptyImage : result StackError ()) (λ _ _ _, Ok None) (λ _ _ _, Err EmptyImage)
      files [RootDir] sample_env (bs "/home/eng") None None true [sample_rewrite] [{| de_env := bs "GH_TOKEN"; de_value := bs "XYZ" |}] = Ok c ∧
    rc_written c = [(files ++ [Normal (bs "00-conf")], out)] ∧ ¬ occurs (bs "host") out.
Proof.
  intros e files. do 2 eexists. split; [vm_compute; reflexivity|]. split; [reflexivity|].
  edestruct (@rewritten_files_clean e (λ _, Some (bs "key=host;host")) (λ _, true) () (Err EmptyImage) (λ _ _ _, Ok None) (λ _ _ _, Err EmptyImage)
      files [RootDir] sample_env (bs "/home/eng") None None [sample_rewrite] [{| de_env := bs "GH_TOKEN"; de_value := bs "XYZ" |}])
    with (index := 0) (rewrite := sample_rewrite) as (source & content & out & Hread & Hin & Hclean); [vm_compute; reflexivity|reflexivity|].
  injection Hread as <-.
  apply list_elem_of_singleton in Hin. injection Hin as _ ->.
  edestruct (Hclean eq_refl) with (name := bs "GH_TOKEN") as (real & He & _ & Ho); [..|by injection He as <-].
  - vm_compute. reflexivity.
  - intros name name' real decoy ->%list_elem_of_singleton ->%list_elem_of_singleton He Hb. injection He as <-. injection Hb as <-.
    vm_compute. reflexivity.
  - left.
Defined.

Lemma workspace_mounts_exact_witness :
  ∃ mounts, workspace_mounts (λ _, true) (components (bs "/home/u/ws")) (Some (components (bs "/home/u"))) (bs "/home/eng") [bs "~/lib"] = Ok mounts ∧
    length mounts = 2 ∧ (∀ m, m ∈ mounts → mt_host m ∈ [components (bs "/home/u/ws"); components (bs "/home/u/lib")]).
Proof.
  eexists. split; [vm_compute; reflexivity|]. split; [reflexivity|].
  assert (∀ names, host_path (RootDir :: map Normal names)) as Hp.
  { intros names. split; [|done]. exists [RootDir], names. split; [by right|done]. }
  edestruct (workspace_mounts_exact (λ _, true) (components (bs "/home/u/ws")) (Some (components (bs "/home/u"))) (bs "/home/eng")
    (Hp [bs "home"; bs "u"; bs "ws"])) with (includes := [bs "~/lib"]) as (_ & _ & Hm & _).
  - intros hh [= <-]. exact (Hp [bs "home"; bs "u"]).
  - vm_compute. reflexivity.
  - intros m Hin%Hm. vm_compute in Hin |- *. exact Hin.
Defined.
