(* ===== verification/SshConfig.v ===== *)
(** * The ssh configuration adapter

    [crates/hodor-compose/src/ssh.rs]: the [Host] blocks of an ssh
    configuration, the rule each block with one exact name and one identity
    states, and the files the agent gets for it. Reading an identity and making
    a key pair are parameters; a key is made of the number made before it. *)

From S2P Require Import Prelude Decoy ConnString Grants Rules Registry Secrets Config Engine Paths Adapt.

(** ** Blocks *)

Record HostBlock := {
  hb_patterns : list bytes;
  hb_hostname : option bytes;
  hb_port : option N;
  hb_identity : option bytes;
  hb_skip : option bytes;
}.
Definition HostBlock_default : HostBlock :=
  {| hb_patterns := []; hb_hostname := None; hb_port := None; hb_identity := None; hb_skip := None |}.
Definition with_skip (reason : bytes) (b : HostBlock) : HostBlock :=
  {| hb_patterns := hb_patterns b; hb_hostname := hb_hostname b; hb_port := hb_port b; hb_identity := hb_identity b; hb_skip := Some reason |}.

Definition pattern_byte (b : byte) : bool := existsb (N.eqb (u8 b)) [42; 63; 33]%N.
Definition mappable (b : HostBlock) : bool :=
  bool_of_opt (hb_identity b) && negb (bool_decide (hb_patterns b = [])) &&
  forallb (λ p, negb (existsb pattern_byte p)) (hb_patterns b) &&
  negb (existsb (λ p, starts_with p (bs ".")) (hb_patterns b)).

(** [s.parse::<u16>()]. *)
Definition parse_u16 (s : bytes) : option N := from_str_radix u16_max 10 s.

(** One directive on the block it is in. *)
Definition directive (keyword value : bytes) (b : HostBlock) : HostBlock :=
  if bool_decide (keyword = bs "include") || bool_decide (keyword = bs "match") then
    with_skip (bs "`" ++ keyword ++ bs "` cannot be derived") b
  else if bool_decide (keyword = bs "hostname") then
    {| hb_patterns := hb_patterns b; hb_hostname := Some value; hb_port := hb_port b; hb_identity := hb_identity b; hb_skip := hb_skip b |}
  else if bool_decide (keyword = bs "port") then
    match parse_u16 value with
    | Some port =>
        {| hb_patterns := hb_patterns b; hb_hostname := hb_hostname b; hb_port := Some port; hb_identity := hb_identity b; hb_skip := hb_skip b |}
    | None => with_skip (bs "port `" ++ value ++ bs "` is not a number") b
    end
  else if bool_decide (keyword = bs "proxyjump") then with_skip (bs "ProxyJump cannot be derived") b
  else if bool_decide (keyword = bs "identityagent") then with_skip (bs "IdentityAgent cannot be derived") b
  else if bool_decide (keyword = bs "identityfile") then
    let replaced := {| hb_patterns := hb_patterns b; hb_hostname := hb_hostname b; hb_port := hb_port b; hb_identity := Some value;
                       hb_skip := hb_skip b |} in
    if hb_identity b then with_skip (bs "identityfile `" ++ value ++ bs "`: a derived host states exactly one identity") replaced else replaced
  else b.

(** The current block is the last. *)
Definition on_last {A} (f : A → A) (l : list A) : list A :=
  match last l with Some x => take (length l - 1) l ++ [f x] | None => l end.

Definition parse_line (blocks : list HostBlock) (line : bytes) : list HostBlock :=
  let line := trim line in
  if bool_decide (line = []) || starts_with line (bs "#") then blocks
  else
    match (match split_once_ws line with Some parts => Some parts | None => split_once (bs "=") line end) with
    | None => on_last (with_skip (bs "line `" ++ line ++ bs "` is not a directive")) blocks
    | Some (keyword, value) =>
        let keyword := to_ascii_lowercase keyword in
        let value := trim value in
        if bool_decide (keyword = bs "host") then
          blocks ++ [{| hb_patterns := words value; hb_hostname := None; hb_port := None; hb_identity := None; hb_skip := None |}]
        else on_last (directive keyword value) blocks
    end.
Definition parse (content : bytes) : list HostBlock := foldl parse_line [HostBlock_default] (str_lines (utf8_lossy content)).

(** ** Paths *)

Definition host_identity_path (identity : bytes) (host_home : Path) : Path :=
  match strip_prefix (bs "~/") identity with
  | Some rest => path_join host_home (components rest)
  | None =>
      if is_absolute (components identity) then components identity
      else path_join (path_join host_home [Normal (bs ".ssh")]) (components identity)
  end.
Definition mirror_container_path (identity : bytes) (host_home : Path) (home : bytes) : option bytes :=
  match strip_prefix (bs "~/") identity with
  | Some rest => Some (home ++ bs "/" ++ rest)
  | None =>
      if is_absolute (components identity) then
        rest ← path_strip_prefix (components identity) host_home;
        Some (home ++ bs "/" ++ display rest)
      else Some (home ++ bs "/.ssh/" ++ identity)
  end.

(** ** Adapting *)

Definition ssh_entry_text (host : bytes) (port : N) : bytes :=
  if bool_decide (port = 22%N) then bs "ssh://" ++ host else bs "ssh://" ++ host ++ bs ":" ++ dec port.

(** A key pair: the private key and the public line. *)
Record KeyPair := { kp_openssh : bytes; kp_public_line : bytes }.

Definition ssh_blob (prefix label ext : bytes) : bytes := prefix ++ label ++ ext.
(** The fragment of a derived ssh rule, of this adapter or of git's. *)
Definition ssh_fragment (prefix label entry : bytes) : GrantFragment :=
  {| gf_env := label_env label; gf_registry := false; gf_allow := [entry]; gf_value := None; gf_if_missing := Some MissIgnore; gf_tls := [];
     gf_ssh := [(entry, {| hs_identity := Some (GRANTS_STATE_DIR ++ bs "/rules.d/" ++ ssh_blob prefix label (bs ".identity"));
                           hs_guest_key := Some (GRANTS_STATE_DIR ++ bs "/rules.d/" ++ ssh_blob prefix label (bs ".guest_key")) |})] |}.

Section SshAdapter.
Context `{!TomlFragment}.
Context (read_identity : Path → option bytes) (generate : nat → result StackError KeyPair).

(** One block: the adapted documents and the number of keys made so far. *)
Definition ssh_block (source : Path) (home : bytes) (host_home : Path) (acc : list RewriteAdapted * nat) (b : HostBlock)
    : result StackError (list RewriteAdapted * nat) :=
  let '(adapted, made) := acc in
  if negb (mappable b) then Ok acc
  else
    let host := match hb_hostname b with Some host => host | None => hd [] (hb_patterns b) end in
    if hb_skip b then Ok acc
    else
      let identity := default [] (hb_identity b) in
      label ← rewrite_label source host;
      let entry := ssh_entry_text host (default 22%N (hb_port b)) in
      match read_identity (host_identity_path identity host_home) with
      | None => Ok acc
      | Some real =>
          key ← generate made;
          fragment ← render_fragment source label (ssh_fragment (bs "ssh-") label entry);
          match mirror_container_path identity host_home home with
          | None => Ok (adapted, S made)
          | Some container =>
              Ok (adapted ++ [{| ra_fragment := fragment; ra_decoy := [];
                                 ra_materialized := [(ssh_blob (bs "ssh-") label (bs ".identity"), real);
                                                     (ssh_blob (bs "ssh-") label (bs ".guest_key"), kp_public_line key)];
                                 ra_decoy_files := [{| df_name := ssh_blob (bs "ssh-") label (bs ".decoy-key"); df_bytes := kp_openssh key;
                                                       df_container := container |}] |}], S made)
          end
      end.

Definition known_hosts (home : bytes) : DecoyFile :=
  {| df_name := bs "ssh-known-hosts"; df_bytes := []; df_container := home ++ bs "/.ssh/known_hosts" |}.
Definition ssh_adapt (source : Path) (content home : bytes) (host_home : Path) : result StackError (list RewriteAdapted) :=
  '(adapted, _) ← try_fold (ssh_block source home host_home) ([], 0) (parse content);
  match adapted with
  | [] => Ok []
  | first :: rest =>
      Ok ({| ra_fragment := ra_fragment first;
             ra_decoy := bs "StrictHostKeyChecking accept-new" ++ [LF; LF] ++ utf8_lossy content;
             ra_materialized := ra_materialized first;
             ra_decoy_files := ra_decoy_files first ++ [known_hosts home] |} :: rest)
  end.
End SshAdapter.

(** ** Properties *)

Section SshProperties.
Context `{!TomlFragment}.
Context (read_identity : Path → option bytes) (generate : nat → result StackError KeyPair).
Context (source : Path) (home : bytes) (host_home : Path).

(** What one adapted document comes from: a block with only exact names, one
    identity and nothing that cannot be derived, whose identity can be read and
    has a place in the container. *)
Record from_block (b : HostBlock) (a : RewriteAdapted) : Prop := {
  fb_mappable : mappable b = true;
  fb_whole : hb_skip b = None;
  fb_rule : ∃ host label text, host = (match hb_hostname b with Some host => host | None => hd [] (hb_patterns b) end) ∧
    rewrite_label source host = Ok label ∧
    toml_fragment label (ssh_fragment (bs "ssh-") label (ssh_entry_text host (default 22%N (hb_port b)))) = Ok text ∧
    ra_fragment a = fragment_header source ++ text ∧
    ∃ identity real key n container, hb_identity b = Some identity ∧ read_identity (host_identity_path identity host_home) = Some real ∧
      generate n = Ok key ∧ mirror_container_path identity host_home home = Some container ∧
      ra_materialized a = [(ssh_blob (bs "ssh-") label (bs ".identity"), real); (ssh_blob (bs "ssh-") label (bs ".guest_key"), kp_public_line key)] ∧
      head (ra_decoy_files a) = Some {| df_name := ssh_blob (bs "ssh-") label (bs ".decoy-key"); df_bytes := kp_openssh key; df_container := container |};
}.

Lemma ssh_block_from acc b acc' :
  ssh_block read_identity generate source home host_home acc b = Ok acc' →
  acc'.1 = acc.1 ∨ ∃ a, acc'.1 = acc.1 ++ [a] ∧ from_block b a.
Proof.
  destruct acc as [adapted made]. unfold ssh_block. destruct (mappable b) eqn:Em; cbn [negb]; [|intros [= <-]; by left].
  destruct (hb_skip b) eqn:Es; [intros [= <-]; by left|]. rewrite bind_ok. intros (label & Hl & Hr).
  destruct (read_identity _) as [real|] eqn:Er; [|injection Hr as <-; by left].
  apply bind_ok in Hr as (key & Hk & Hr). apply bind_ok in Hr as (fragment & Hf & Hr).
  destruct (mirror_container_path _ _ _) as [container|] eqn:Ec; [|injection Hr as <-; by left]. injection Hr as <-. right.
  unfold render_fragment in Hf. apply bind_ok in Hf as (text & Ht%map_err_Ok & [= <-]).
  eexists. split; [done|]. split; [done..|]. do 3 eexists. split; [done|]. split; [done|]. split; [done|]. split; [done|].
  assert (∃ identity, hb_identity b = Some identity) as [identity Hi].
  { unfold mappable in Em. destruct (hb_identity b); [by eexists|done]. }
  rewrite Hi in *. by exists identity, real, key, made, container.
Qed.

(** Every adapted document is a block's, in the order of the blocks, one each. *)
Lemma ssh_adapt_from content adapted :
  ssh_adapt read_identity generate source content home host_home = Ok adapted →
  ∃ chosen, sublist chosen (parse content) ∧ Forall2 from_block chosen adapted.
Proof.
  unfold ssh_adapt. rewrite bind_ok. intros ([all made] & Hf & Hr).
  assert (∃ chosen, sublist chosen (parse content) ∧ Forall2 from_block chosen all) as (chosen & Hs & Hall).
  { revert Hf. generalize (parse content) as blocks. intros blocks.
    assert (∀ acc acc' done, try_fold (ssh_block read_identity generate source home host_home) acc blocks = Ok acc' → Forall2 from_block done acc.1 →
      ∃ chosen, sublist chosen blocks ∧ Forall2 from_block (done ++ chosen) acc'.1) as Hgo.
    { induction blocks as [|b blocks IH]; intros acc acc' before; cbn [try_fold].
      - intros [= <-] Hb. exists []. split; [constructor|]. by rewrite app_nil_r.
      - rewrite bind_ok. intros (acc1 & Hb & Hr') Hbefore. destruct (ssh_block_from _ _ _ Hb) as [He|(a & He & Ha)].
        + destruct (IH acc1 acc' before Hr') as (chosen & Hs & Hall); [by rewrite He|]. exists chosen. split; [by constructor|done].
        + destruct (IH acc1 acc' (before ++ [b]) Hr') as (chosen & Hs & Hall); [rewrite He; apply Forall2_app; [done|constructor; [exact Ha|constructor]]|].
          exists (b :: chosen). split; [by constructor|]. by rewrite <- app_assoc in Hall. }
    intros Hf. by destruct (Hgo _ _ [] Hf) as (chosen & ? & ?); [constructor|exists chosen]. }
  destruct all as [|first rest]; injection Hr as <-; [by exists chosen|]. exists chosen. split; [done|].
  inversion Hall as [|b a bs' l Hfb Hrest]; subst. constructor; [|done]. destruct Hfb as [Hm Hw Hrule]. split; [done..|].
  destruct Hrule as (host & label & text & Hh & Hl & Ht & Hfr & identity & real & key & n & container & Hi & Hre & Hk & Hc & Hma & Hd).
  exists host, label, text. split_and!; [done..|]. exists identity, real, key, n, container. split_and!; [done..|].
  simpl. by destruct (ra_decoy_files first).
Qed.
End SshProperties.

(** ssh allows white space around the equals sign; the adapter takes the sign
    for part of the value. *)
Example equals_sign_kept :
  hb_hostname <$> last (parse (bs "Host a" ++ [LF] ++ bs "HostName = git.test")) = Some (Some (bs "= git.test")).
Proof. vm_compute. reflexivity. Qed.

(** Two blocks for one host, as for two accounts at a forge, share a label: the
    second real key replaces the first in the grant layer, and both fragments
    state the same table. *)
Example aliases_share_label :
  let _ : TomlFragment := {| toml_fragment label _ := Ok label |} in
  let source := [RootDir; Normal (bs "home"); Normal (bs "u"); Normal (bs ".ssh"); Normal (bs "config")] in
  let block name key := bs "Host " ++ name ++ [LF] ++ bs "HostName git.test" ++ [LF] ++ bs "IdentityFile ~/.ssh/" ++ key ++ [LF] in
  ∃ first second,
    ssh_adapt (λ path, Some (display path)) (λ n, Ok {| kp_openssh := dec (N.of_nat n); kp_public_line := dec (N.of_nat n) |})
      source (block (bs "work") (bs "w") ++ block (bs "home") (bs "h")) (bs "/home/eng") [RootDir; Normal (bs "home"); Normal (bs "u")] = Ok [first; second] ∧
    map fst (ra_materialized first) = map fst (ra_materialized second) ∧ ra_fragment first = ra_fragment second ∧
    written [first; second] !! bs "ssh-home-u-ssh-config-git-test.identity" = Some (bs "/home/u/.ssh/h").
Proof. do 2 eexists. split_and!; vm_compute; reflexivity. Qed.
