(* ===== verification/Ambient.v ===== *)
(** * Ambient sources

    [AmbientDeriver] of [crates/hodor-compose/src/stack.rs] and [jj.rs]: the
    authentication sources every workspace has without declaring them, which
    map onto grants and decoy twins. The host's environment and files, the
    parser and printer of TOML, and the adapters' own parameters are the
    section's. *)

From stdpp Require Import sorting.
From S2P Require Import Prelude Decoy ConnString Grants Rules Registry Secrets Config Engine Paths Adapt Kube Stack SshConfig Git.

(** ** The jj configuration *)

(** [toml::Value]: tables, strings and the rest, by their text. A table holds
    a key once; its order is not modelled. *)
Inductive TomlValue :=
| TmTable (entries : list (bytes * TomlValue))
| TmString (s : bytes)
| TmOther (text : bytes).
Abbreviation Table := (list (bytes * TomlValue)).

Definition t_get (key : bytes) (t : Table) : option TomlValue := snd <$> find (λ kv : bytes * TomlValue, bool_decide (kv.1 = key)) t.
Definition t_set (key : bytes) (v : TomlValue) (t : Table) : Table :=
  filter (λ kv : bytes * TomlValue, kv.1 ≠ key) t ++ [(key, v)].

(** One value of [merge_table]'s later file over what is there. *)
Fixpoint merge_value (over : TomlValue) (base : option TomlValue) : TomlValue :=
  match over, base with
  | TmTable entries, Some (TmTable nested) =>
      TmTable (foldl (λ t kv, t_set kv.1 (merge_value kv.2 (t_get kv.1 t)) t) nested entries)
  | _, _ => over
  end.
Definition merge_table (base over : Table) : Table :=
  foldl (λ t kv, t_set kv.1 (merge_value kv.2 (t_get kv.1 t)) t) base over.

(** What the process sees of its host. *)
Record HostEnv := {
  he_var : bytes → option bytes;
  he_config_dir : option Path;
  he_is_file : Path → bool;
  he_is_dir : Path → bool;
  he_read_dir : Path → list Path;
  he_read : Path → option bytes;
}.
(** [env::var]; [env::var_os] is [he_var]. *)
Definition env_var (e : HostEnv) (name : bytes) : option bytes :=
  v ← he_var e name; if utf8_valid v then Some v else None.
Definition read_to_string (e : HostEnv) (path : Path) : option bytes :=
  v ← he_read e path; if utf8_valid v then Some v else None.

Class Toml := {
  toml_parse : bytes → option Table;
  toml_print : Table → option bytes;
}.

Section Jj.
Context `{!Toml, !Gix} (e : HostEnv).

(** [path.extension() == "toml"]. *)
Definition toml_extension (name : bytes) : bool :=
  match position (λ b, bool_decide (b = Byte.x2e)) (rev name) with
  | Some i => negb (i + 1 =? length name) && bool_decide (drop (length name - i) name = bs "toml")
  | None => false
  end.
Definition is_toml (path : Path) : bool :=
  he_is_file e path && match last path with Some (Normal name) => toml_extension name | _ => false end.
(** Paths of one directory order as their names. *)
Fixpoint bytes_le (a b : bytes) : bool :=
  match a, b with
  | [], _ => true
  | _, [] => false
  | x :: a, y :: b => if (u8 x =? u8 y)%N then bytes_le a b else (u8 x <? u8 y)%N
  end.
Definition path_le (a b : Path) : Prop := bytes_le (display a) (display b) = true.
#[export] Instance path_le_dec a b : Decision (path_le a b) := decide (_ = true).
Definition sorted_tomls (dir : Path) : list Path := merge_sort path_le (filter (λ path, is_toml path = true) (he_read_dir e dir)).

Definition expand_chain_entry (entry : bytes) : list Path :=
  let path := components entry in if he_is_dir e path then sorted_tomls path else [path].
Definition user_chain : list Path :=
  match env_var e (bs "JJ_CONFIG") with
  | Some config => flat_map expand_chain_entry (filter (λ entry, entry ≠ []) (split_byte Byte.x3a config))
  | None =>
      match he_var e (bs "HOME") with
      | Some home => [path_join (components home) [Normal (bs ".jjconfig.toml")]]
      | None => []
      end ++
      match he_config_dir e with
      | Some dir => path_join dir [Normal (bs "jj"); Normal (bs "config.toml")] ::
                    sorted_tomls (path_join dir [Normal (bs "jj"); Normal (bs "conf.d")])
      | None => []
      end
  end.
(** [config_path], and its parent. *)
Definition config_path : Path :=
  match he_config_dir e with Some dir => path_join dir [Normal (bs "jj"); Normal (bs "config.toml")] | None => [] end.
Definition host_jj : Path := pop config_path.

(** Each file that can be read; one that does not parse ends it. *)
Definition load_chain_file (acc : option (Table * bool)) (path : Path) : option (Table * bool) :=
  '(merged, present) ← acc;
  match read_to_string e path with
  | None => Some (merged, present)
  | Some text => parsed ← toml_parse text; Some (merge_table merged parsed, true)
  end.

Definition fill_key (user : Table) (kv : bytes * option bytes) : Table :=
  match kv with
  | (key, Some value) => if bool_of_opt (t_get key user) then user else t_set key (TmString value) user
  | (_, None) => user
  end.
Definition fill_git_identity (merged : Table) (root : Path) : Table :=
  match gix_resolve root with
  | Ok (Some config) =>
      let name := utf8_lossy <$> string_by config (bs "user") (bs "name") in
      let email := utf8_lossy <$> string_by config (bs "user") (bs "email") in
      if negb (bool_of_opt name) && negb (bool_of_opt email) then merged
      else match default (TmTable []) (t_get (bs "user") merged) with
           | TmTable user => t_set (bs "user") (TmTable (foldl fill_key user [(bs "name", name); (bs "email", email)])) merged
           | _ => merged
           end
  | _ => merged
  end.

Definition jj_adapt (root : Path) : option RewriteAdapted :=
  '(merged, present) ← foldl load_chain_file (Some ([], false)) user_chain;
  if negb present then None
  else
    decoy ← toml_print (fill_git_identity merged root);
    Some {| ra_fragment := [];
            ra_decoy := bs "# generated by `hodor init` — resolved from jj's user chain, safe to inspect." ++ [LF] ++ decoy;
            ra_materialized := []; ra_decoy_files := [] |}.
End Jj.

(** ** Deriving *)

Section Deriver.
Context `{!Digests, !UrlCrate, !Base64, !Yaml, !CaseTables, !TomlFragment, !Toml, !Gix, !Expander}.
Context (e : HostEnv) (can_write : Path → bool).
(** The guest CA, its certificate, and the pair it makes for a label. *)
Context {CertAuthority : Type} (load_ca : result StackError CertAuthority) (ca_pem : CertAuthority → bytes).
Context (guest_pair : CertAuthority → bytes → result StackError (bytes * bytes)).
(** The key pairs of the git and of the ssh adapter. *)
Context (git_keys ssh_keys : nat → result StackError KeyPair).
(** [DeriveInputs]; [env] is the expander's. *)
Context (files_dir root : Path) (registry : Registry) (decoys : list Decoy) (env : gmap bytes bytes) (home : bytes) (host_home : Path).

Definition declared_source (rewrite : FileRewrite) : result StackError Path :=
  expanded ← expand_path env (fr_source rewrite);
  Ok (expand (components expanded) root (Some host_home)).

Definition in_home (names : list bytes) : Path := path_join host_home (map Normal names).
Definition home_dest (dest : bytes) : bytes := home ++ bs "/" ++ dest.

Section Declared.
Context (declared : list Path).
Definition is_declared (path : Path) : bool := bool_decide (path ∈ declared).

Definition git_sources : list Path :=
  in_home [bs ".gitconfig"] ::
  (match he_config_dir e with Some dir => [path_join dir [Normal (bs "git"); Normal (bs "config")]] | None => [] end) ++
  (match he_var e (bs "GIT_CONFIG_GLOBAL") with Some path => [components path] | None => [] end).
Definition derive_git (c : RewriteCollector) : result StackError RewriteCollector :=
  if existsb is_declared git_sources then Ok c
  else match git_adapt (read_to_string e) git_keys (in_home [bs ".gitconfig"]) root registry decoys home host_home with
       | Ok adapted => twin can_write files_dir c adapted (bs "gitconfig") (home_dest (bs ".gitconfig"))
       | Err _ => Ok c
       end.

Definition push_mount (c : RewriteCollector) (m : Mount) : RewriteCollector :=
  {| rc_mounts := rc_mounts c ++ [m]; rc_grants := rc_grants c; rc_written := rc_written c |}.
Definition jj_mount : Mount :=
  {| mt_host := host_jj e; mt_container := components (home_dest (bs ".config/jj")); mt_ro := false |}.
Definition derive_jj (c : RewriteCollector) : result StackError RewriteCollector :=
  if existsb is_declared (user_chain e) then Ok c
  else
    let fallback :=
      match jj_adapt e root with
      | Some adapted => twin can_write files_dir c [adapted] (bs "jj-config") (home_dest (bs ".config/jj/config.toml"))
      | None => Ok c
      end in
    if bool_decide (host_jj e = []) then fallback
    else if existsb (λ path, path_starts_with path (host_jj e)) declared then Ok c
    else if he_is_dir e (host_jj e) then Ok (push_mount c jj_mount)
    else fallback.

Definition ssh_config_path : Path := in_home [bs ".ssh"; bs "config"].
Definition derive_ssh (c : RewriteCollector) : result StackError RewriteCollector :=
  if is_declared ssh_config_path || negb (he_is_file e ssh_config_path) then Ok c
  else
    content ← ok_or (StReadFile ssh_config_path) (he_read e ssh_config_path);
    match ssh_adapt (read_to_string e) ssh_keys ssh_config_path content home host_home with
    | Ok adapted => twin can_write files_dir c adapted (bs "ssh-config") (home_dest (bs ".ssh/config"))
    | Err _ => Ok c
    end.

(** [env_source]; the names are of one path each. *)
Definition env_source (env_name : bytes) (default_names : list bytes) : Path :=
  match env_var e env_name with
  | Some value => if bool_decide (Byte.x3a ∈ value) then in_home default_names else components value
  | None => in_home default_names
  end.
Definition kube_source : Path := env_source (bs "KUBECONFIG") [bs ".kube"; bs "config"].
Definition talos_source : Path := env_source (bs "TALOSCONFIG") [bs ".talos"; bs "config"].

(** The grants of one of the two, none where it does not map. *)
Definition adapt_kube (ca : CertAuthority) (path : Path) (content : bytes) : list RewriteAdapted :=
  match kube_adapt (ca_pem ca) (guest_pair ca) path content with Ok (Some adapted) => [adapted] | _ => [] end.
Definition adapt_talos (ca : CertAuthority) (path : Path) (content : bytes) : list RewriteAdapted :=
  match talos_adapt (ca_pem ca) (guest_pair ca) path content with Ok adapted => [adapted] | Err _ => [] end.
Definition derive_tool (adapt : CertAuthority → Path → bytes → list RewriteAdapted) (path : Path) (twin_name twin_dest : bytes)
    (c : RewriteCollector) : result StackError RewriteCollector :=
  if is_declared path || negb (he_is_file e path) then Ok c
  else match he_read e path with
       | None => Ok c
       | Some content =>
           match load_ca with
           | Err _ => Ok c
           | Ok ca => twin can_write files_dir c (adapt ca path content) twin_name (home_dest twin_dest)
           end
       end.
Definition kube_and_talos (c : RewriteCollector) : result StackError RewriteCollector :=
  c ← derive_tool adapt_kube kube_source (bs "kube-config") (bs ".kube/config") c;
  derive_tool adapt_talos talos_source (bs "talos-config") (bs ".talos/config") c.
End Declared.

(** [derive_sources]; [files_ok] is whether the state directory could be made. *)
Definition derive_sources (files_ok : bool) (rewrites : list FileRewrite) : result StackError RewriteCollector :=
  declared ← try_fold (λ acc rewrite, path ← declared_source rewrite; Ok (acc ++ [path])) [] rewrites;
  if negb files_ok then Err (StCreateDir files_dir)
  else
    c ← derive_git declared RewriteCollector_new;
    c ← derive_jj declared c;
    c ← derive_ssh declared c;
    kube_and_talos declared c.
End Deriver.

(** ** Properties *)

Section AmbientProperties.
Context `{!Digests, !UrlCrate, !Base64, !Yaml, !CaseTables, !TomlFragment, !Toml, !Gix, !Expander}.
Context (e : HostEnv) (can_write : Path → bool).
Context {CertAuthority : Type} (load_ca : result StackError CertAuthority) (ca_pem : CertAuthority → bytes).
Context (guest_pair : CertAuthority → bytes → result StackError (bytes * bytes)).
Context (git_keys ssh_keys : nat → result StackError KeyPair).
Context (files_dir root : Path) (registry : Registry) (decoys : list Decoy) (env : gmap bytes bytes) (home : bytes) (host_home : Path).
Abbreviation derive := (derive_sources e can_write load_ca ca_pem guest_pair git_keys ssh_keys files_dir root registry decoys env home host_home).

(** The documents an undeclared source maps onto. *)
Inductive ambient (declared : list Path) : list RewriteAdapted → Prop :=
| ambient_git adapted :
    Forall (λ path, path ∉ declared) (git_sources e host_home) →
    git_adapt (read_to_string e) git_keys (in_home host_home [bs ".gitconfig"]) root registry decoys home host_home = Ok adapted →
    ambient declared adapted
| ambient_jj adapted :
    Forall (λ path, path ∉ declared) (user_chain e) → jj_adapt e root = Some adapted → ambient declared [adapted]
| ambient_ssh content adapted :
    ssh_config_path host_home ∉ declared → he_read e (ssh_config_path host_home) = Some content →
    ssh_adapt (read_to_string e) ssh_keys (ssh_config_path host_home) content home host_home = Ok adapted → ambient declared adapted
| ambient_kube content ca adapted :
    kube_source e host_home ∉ declared → he_read e (kube_source e host_home) = Some content → load_ca = Ok ca →
    kube_adapt (ca_pem ca) (guest_pair ca) (kube_source e host_home) content = Ok (Some adapted) → ambient declared [adapted]
| ambient_talos content ca adapted :
    talos_source e host_home ∉ declared → he_read e (talos_source e host_home) = Some content → load_ca = Ok ca →
    talos_adapt (ca_pem ca) (guest_pair ca) (talos_source e host_home) content = Ok adapted → ambient declared [adapted].

(** A mount of a file written for the first of some documents: the twin, or a
    side file at the place it names. *)
Record emits (written : list (Path * bytes)) (first : RewriteAdapted) (m : Mount) : Prop := {
  em_ro : mt_ro m = true;
  em_dir : ∃ name, mt_host m = path_join files_dir (components name);
  em_content : (mt_host m, ra_decoy first) ∈ written ∨
               ∃ file, file ∈ ra_decoy_files first ∧ (mt_host m, df_bytes file) ∈ written ∧ mt_container m = components (df_container file);
}.
Record writable_jj (declared : list Path) (m : Mount) : Prop := {
  wj_mount : m = jj_mount e home;
  wj_dir : he_is_dir e (host_jj e) = true;
  wj_undeclared path : path ∈ declared → ¬ host_jj e `prefix_of` path;
}.
Record traced (declared : list Path) (c : RewriteCollector) : Prop := {
  tr_mounts m : m ∈ rc_mounts c → writable_jj declared m ∨ ∃ first rest, ambient declared (first :: rest) ∧ emits (rc_written c) first m;
  tr_grants g : g ∈ rc_grants c → ∃ adapted, ambient declared adapted ∧ g ∈ adapted;
}.

Lemma emits_mono written more first m : emits written first m → emits (written ++ more) first m.
Proof.
  intros [Hr Hd Hc]. split; [done..|]. destruct Hc as [Hc|(file & Hf & Hc & Hm)]; [left; set_solver|right]. exists file. split_and!; [done|set_solver|done].
Qed.

Lemma write_file_spec c path content container c' :
  write_file can_write c path content container = Ok c' →
  c' = {| rc_mounts := rc_mounts c ++ [{| mt_host := path; mt_container := container; mt_ro := true |}];
          rc_grants := rc_grants c; rc_written := rc_written c ++ [(path, content)] |}.
Proof. unfold write_file. destruct (can_write path); [by intros [= <-]|done]. Qed.

(** What a twin adds, and its only failure. *)
Lemma twin_spec c adapted name dest c' :
  twin can_write files_dir c adapted name dest = Ok c' →
  c' = c ∨ ∃ first rest mounts written, adapted = first :: rest ∧
    c' = {| rc_mounts := rc_mounts c ++ mounts; rc_grants := rc_grants c ++ adapted; rc_written := rc_written c ++ written |} ∧
    ∀ m, m ∈ mounts → emits written first m.
Proof.
  destruct adapted as [|first rest]; cbn [twin]; [intros [= <-]; by left|]. rewrite bind_ok. intros (c1 & ->%write_file_spec & Hr).
  apply bind_ok in Hr as (c2 & Hw & [= <-]). right. exists first, rest.
  set (path := path_join files_dir (components name)) in *. set (m0 := {| mt_host := path; mt_container := components dest; mt_ro := true |}) in *.
  assert (∃ mounts written, c2 = {| rc_mounts := rc_mounts c ++ mounts; rc_grants := rc_grants c; rc_written := rc_written c ++ written |} ∧
            ∀ m, m ∈ mounts → emits written first m) as (mounts & written & -> & Hm).
  { revert Hw. unfold write_decoy_files. apply (try_fold_inv (λ c2, ∃ mounts written,
      c2 = {| rc_mounts := rc_mounts c ++ mounts; rc_grants := rc_grants c; rc_written := rc_written c ++ written |} ∧
      ∀ m, m ∈ mounts → emits written first m)).
    - intros c1 file c3 Hf (mounts & written & -> & Hm) ->%write_file_spec. do 2 eexists. simpl. rewrite <- !app_assoc. split; [done|].
      intros m [Hin| ->%list_elem_of_singleton]%elem_of_app; [by apply emits_mono, Hm|]. split; [done|by eexists|]. right. exists file.
      split_and!; [done|set_solver|done].
    - exists [m0], [(path, ra_decoy first)]. split; [done|]. intros m ->%list_elem_of_singleton. split; [done|by eexists|]. left. set_solver. }
  exists mounts, written. by unfold extend_grants.
Qed.

Lemma twin_error c adapted name dest err :
  twin can_write files_dir c adapted name dest = Err err → ∃ path, can_write path = false ∧ err = StWriteFile path.
Proof.
  assert (∀ c path content container err, write_file can_write c path content container = Err err →
    ∃ path, can_write path = false ∧ err = StWriteFile path) as Hw.
  { intros c1 path content container err'. unfold write_file. destruct (can_write path) eqn:E; [done|]. intros [= <-]. by exists path. }
  destruct adapted as [|first rest]; cbn [twin]; [done|].
  destruct (write_file _ _ _ _ _) as [c1|err1] eqn:E1; simpl; [|intros [= <-]; by apply Hw in E1].
  destruct (write_decoy_files _ _ _ _) as [c2|err2] eqn:E2; simpl; [done|]. intros [= <-].
  revert E2. unfold write_decoy_files. clear E1. revert c1. generalize (ra_decoy_files first) as files. intros files.
  induction files as [|file files IH]; intros c1; simpl; [done|].
  destruct (write_decoy_file _ _ c1 file) as [c3|err3] eqn:E3; simpl; [|intros [= <-]; by apply Hw in E3].
  intros Hr. by apply (IH c3).
Qed.

Lemma traced_twin declared c adapted name dest c' :
  ambient declared adapted → traced declared c → twin can_write files_dir c adapted name dest = Ok c' → traced declared c'.
Proof.
  intros Ha [Hm Hg] [-> |(first & rest & mounts & written & -> & -> & Hnew)]%twin_spec; [done|]. split; simpl.
  - intros m [[Hj|(f & r & Ha' & He)]%Hm|Hin]%elem_of_app; [by left|right|right].
    + exists f, r. split; [done|]. by apply emits_mono.
    + exists first, rest. split; [done|]. apply Hnew in Hin as [Hr Hd Hc]. split; [done..|].
      destruct Hc as [Hc|(file & Hf & Hc & Hd')]; [left; set_solver|right]. exists file. split_and!; [done|set_solver|done].
  - intros g [?%Hg|Hin]%elem_of_app; [done|]. by exists (first :: rest).
Qed.

Lemma existsb_declared declared paths : existsb (is_declared declared) paths = false → Forall (λ path, path ∉ declared) paths.
Proof.
  intros Hf. apply Forall_forall. intros path Hin Hd. apply not_true_iff_false in Hf. apply Hf, existsb_exists. exists path.
  split; [by apply list_elem_of_In|by apply bool_decide_eq_true].
Qed.

Lemma derive_git_traced declared c c' :
  traced declared c → derive_git e can_write git_keys files_dir root registry decoys home host_home declared c = Ok c' → traced declared c'.
Proof.
  intros Ht. unfold derive_git. destruct (existsb _ _) eqn:Ed; [by intros [= <-]|]. apply existsb_declared in Ed.
  destruct (git_adapt _ _ _ _ _ _ _ _) as [adapted|] eqn:Ea; [|by intros [= <-]]. apply traced_twin; [by apply ambient_git|done].
Qed.

Lemma derive_jj_traced declared c c' :
  traced declared c → derive_jj e can_write files_dir root home declared c = Ok c' → traced declared c'.
Proof.
  intros Ht. unfold derive_jj. destruct (existsb (is_declared _) _) eqn:Ed; [by intros [= <-]|]. apply existsb_declared in Ed.
  assert (∀ c'', match jj_adapt e root with
                 | Some adapted => twin can_write files_dir c [adapted] (bs "jj-config") (home_dest home (bs ".config/jj/config.toml"))
                 | None => Ok c end = Ok c'' → traced declared c'') as Hfall.
  { intros c''. destruct (jj_adapt e root) as [adapted|] eqn:Ea; [|by intros [= <-]]. apply traced_twin; [by apply ambient_jj|done]. }
  case_bool_decide; [by apply Hfall|]. destruct (existsb (λ _, _) declared) eqn:Eu; [by intros [= <-]|].
  destruct (he_is_dir e (host_jj e)) eqn:Edir; [|by apply Hfall]. intros [= <-]. destruct Ht as [Hm Hg]. split; simpl; [|done].
  intros m [?%Hm| ->%list_elem_of_singleton]%elem_of_app; [done|]. left. split; [done..|]. intros path Hin Hp.
  apply not_true_iff_false in Eu. apply Eu, existsb_exists. exists path. split; [by apply list_elem_of_In|by apply path_starts_with_iff].
Qed.

Lemma derive_ssh_traced declared c c' :
  traced declared c → derive_ssh e can_write ssh_keys files_dir home host_home declared c = Ok c' → traced declared c'.
Proof.
  intros Ht. unfold derive_ssh. destruct (is_declared declared _) eqn:Ed; cbn [orb]; [by intros [= <-]|].
  apply bool_decide_eq_false in Ed. destruct (he_is_file e _); cbn [negb]; [|by intros [= <-]].
  destruct (he_read e _) as [content|] eqn:Er; [|done]. cbn [ok_or]. simpl.
  destruct (ssh_adapt _ _ _ _ _ _) as [adapted|] eqn:Ea; [|by intros [= <-]]. apply traced_twin; [by eapply ambient_ssh|done].
Qed.

Lemma derive_tool_traced declared adapt path name dest c c' :
  (∀ ca content, path ∉ declared → he_read e path = Some content → load_ca = Ok ca →
     adapt ca path content = [] ∨ ambient declared (adapt ca path content)) →
  traced declared c → derive_tool e can_write load_ca files_dir home declared adapt path name dest c = Ok c' → traced declared c'.
Proof.
  intros Hadapt Ht. unfold derive_tool. destruct (is_declared declared path) eqn:Ed; cbn [orb]; [by intros [= <-]|].
  apply bool_decide_eq_false in Ed. destruct (he_is_file e path); cbn [negb]; [|by intros [= <-]].
  destruct (he_read e path) as [content|] eqn:Er; [|by intros [= <-]]. destruct load_ca as [ca|] eqn:El; [|by intros [= <-]].
  destruct (Hadapt ca content) as [-> |Ha]; [done..|by intros [= <-]|]. by apply traced_twin.
Qed.

(** Everything the ambient pass gives the agent comes from a source the
    workspace did not declare: every grant, and every mount, which is
    read-only, lies in the state directory, and holds the decoy document or a
    side file of the first grant of such a source, or else is jj's
    configuration directory, mounted writable where no declared source lies
    in it. *)
Theorem ambient_mounts_traced files_ok rewrites c (Hc : derive files_ok rewrites = Ok c) :
  ∃ declared, Forall2 (λ rewrite path, declared_source root env host_home rewrite = Ok path) rewrites declared ∧ traced declared c.
Proof.
  revert Hc. unfold derive_sources. rewrite bind_ok. intros (declared & Hd & Hr).
  exists declared. split.
  { revert Hd. assert (∀ before, try_fold (λ acc rewrite, path ← declared_source root env host_home rewrite; Ok (acc ++ [path])) before rewrites = Ok declared →
      ∃ more, declared = before ++ more ∧ Forall2 (λ rewrite path, declared_source root env host_home rewrite = Ok path) rewrites more) as Hgo.
    { induction rewrites as [|rewrite rewrites IH]; intros before; cbn [try_fold]; [intros [= <-]; exists []; by rewrite app_nil_r|].
      rewrite bind_ok. intros (acc & (path & Hp & [= <-])%bind_ok & Hr'). apply IH in Hr' as (more & -> & Hm).
      exists (path :: more). rewrite <- app_assoc. split; [done|by constructor]. }
    intros Hd. by apply Hgo in Hd as (more & -> & Hm). }
  destruct files_ok; cbn [negb] in Hr; [|done]. apply bind_ok in Hr as (c1 & Hs1 & Hr). apply bind_ok in Hr as (c2 & Hs2 & Hr).
  apply bind_ok in Hr as (c3 & Hs3 & Hr). apply bind_ok in Hr as (c4 & Hs4 & Hs5).
  apply (derive_tool_traced declared (adapt_talos ca_pem guest_pair)) in Hs5; [done|..].
  - intros ca content Hu Hre Hl. unfold adapt_talos. destruct (talos_adapt _ _ _ _) as [adapted|] eqn:Ea; [right|by left].
    by eapply ambient_talos.
  - apply (derive_tool_traced declared (adapt_kube ca_pem guest_pair)) in Hs4; [done|..].
    + intros ca content Hu Hre Hl. unfold adapt_kube. destruct (kube_adapt _ _ _ _) as [[adapted|]|] eqn:Ea; [right|by left..].
      by eapply ambient_kube.
    + apply derive_ssh_traced in Hs3; [done|]. apply derive_jj_traced in Hs2; [done|]. apply derive_git_traced in Hs1; [done|].
      split; simpl; by intros ? ?%elem_of_nil.
Qed.

Lemma derive_tool_error declared adapt path name dest c err :
  derive_tool e can_write load_ca files_dir home declared adapt path name dest c = Err err → ∃ p, can_write p = false ∧ err = StWriteFile p.
Proof.
  unfold derive_tool. destruct (_ || _); [done|]. destruct (he_read e path); [|done]. destruct load_ca; [|done]. apply twin_error.
Qed.

Lemma declared_error acc rewrites err :
  try_fold (λ acc rewrite, path ← declared_source root env host_home rewrite; Ok (acc ++ [path])) acc rewrites = Err err →
  ∃ rewrite, rewrite ∈ rewrites ∧ declared_source root env host_home rewrite = Err err.
Proof.
  revert acc. induction rewrites as [|rewrite rewrites IH]; intros acc; cbn [try_fold]; [done|].
  destruct (declared_source _ _ _ rewrite) as [path|err'] eqn:Ed; simpl.
  - intros (r & Hin & Hr)%IH. exists r. split; [by right|done].
  - intros [= <-]. exists rewrite. split; [by left|done].
Qed.

(** The ambient pass fails only where a declared source does not expand,
    the state directory or a file of it cannot be written, or an ssh
    configuration that is there cannot be read: a source that does not map,
    one whose guest CA cannot be loaded, and an unreadable kubeconfig are
    passed over, and never take the stack down. *)
Theorem ambient_failures files_ok rewrites err (Herr : derive files_ok rewrites = Err err) :
  (∃ rewrite, rewrite ∈ rewrites ∧ declared_source root env host_home rewrite = Err err) ∨
  (files_ok = false ∧ err = StCreateDir files_dir) ∨
  (∃ path, can_write path = false ∧ err = StWriteFile path) ∨
  (he_is_file e (ssh_config_path host_home) = true ∧ he_read e (ssh_config_path host_home) = None ∧ err = StReadFile (ssh_config_path host_home)).
Proof.
  revert Herr. unfold derive_sources. destruct (try_fold _ [] rewrites) as [declared|err1] eqn:Ed; simpl; [|intros [= <-]; left; by apply declared_error in Ed].
  right. destruct files_ok; cbn [negb] in *; [right|left; by injection Herr as <-]. revert Herr.
  destruct (derive_git _ _ _ _ _ _ _ _ _ _ _) as [c1|err1] eqn:Eg; simpl; [|intros [= <-]; left; revert Eg].
  2: { unfold derive_git. destruct (existsb _ _); [done|]. destruct (git_adapt _ _ _ _ _ _ _ _); [|done]. apply twin_error. }
  destruct (derive_jj _ _ _ _ _ _ c1) as [c2|err1] eqn:Ej; simpl; [|intros [= <-]; left; revert Ej].
  2: { unfold derive_jj. destruct (existsb _ _); [done|]. case_bool_decide; [destruct (jj_adapt e root); [apply twin_error|done]|].
       destruct (existsb _ declared); [done|]. destruct (he_is_dir _ _); [done|]. destruct (jj_adapt e root); [apply twin_error|done]. }
  destruct (derive_ssh _ _ _ _ _ _ _ c2) as [c3|err1] eqn:Es; simpl; [|intros [= <-]; revert Es].
  2: { unfold derive_ssh. destruct (is_declared _ _); [done|]. destruct (he_is_file e _) eqn:Ef; [|done]. cbn [orb negb].
       destruct (he_read e (ssh_config_path host_home)) as [content|]; simpl; [|intros [= <-]; by right].
       destruct (ssh_adapt _ _ _ _ _ _); [|done]. intros Ht%twin_error. by left. }
  unfold kube_and_talos. destruct (derive_tool _ _ _ _ _ _ _ _ _ _ c3) as [c4|err1] eqn:Ek; simpl.
  - intros Ht%derive_tool_error. by left.
  - intros [= <-]. left. by apply derive_tool_error in Ek.
Qed.

(** Of several documents, the side files of the first alone are mounted. *)
Lemma twin_first_only c first rest name dest c' :
  twin can_write files_dir c (first :: rest) name dest = Ok c' →
  length (rc_mounts c') = length (rc_mounts c) + 1 + length (ra_decoy_files first).
Proof.
  cbn [twin]. rewrite bind_ok. intros (c1 & ->%write_file_spec & Hr). apply bind_ok in Hr as (c2 & Hw & [= <-]).
  revert Hw. unfold write_decoy_files, write_decoy_file. cbn [extend_grants rc_mounts].
  assert (∀ files c1 c2, try_fold (λ c file, write_file can_write c (path_join files_dir (components (df_name file))) (df_bytes file)
            (components (df_container file))) c1 files = Ok c2 → length (rc_mounts c2) = length (rc_mounts c1) + length files) as Hgo.
  { induction files as [|file files IH]; intros c1 c3; cbn [try_fold]; [intros [= <-]; simpl; lia|].
    rewrite bind_ok. intros (c4 & ->%write_file_spec & ->%IH). cbn [rc_mounts]. rewrite length_app. simpl. lia. }
  intros ->%Hgo. cbn [rc_mounts]. rewrite length_app. simpl. lia.
Qed.
End AmbientProperties.

(** ** Witnesses *)

Definition sample_root : Path := [RootDir; Normal (bs "ws")].
Definition sample_home : Path := [RootDir; Normal (bs "home"); Normal (bs "u")].
Definition sample_files : Path := [RootDir; Normal (bs "state")].
Definition sample_block (name : bytes) : bytes :=
  bs "Host " ++ name ++ [LF] ++ bs "IdentityFile ~/.ssh/" ++ name ++ [LF].
(** A host with an ssh configuration of two blocks and the key of each. *)
Definition sample_host : HostEnv :=
  {| he_var _ := None; he_config_dir := None; he_is_file path := bool_decide (path = ssh_config_path sample_home); he_is_dir _ := false;
     he_read_dir _ := [];
     he_read path := if bool_decide (path = ssh_config_path sample_home) then Some (sample_block (bs "one.test") ++ sample_block (bs "two.test"))
                     else Some (bs "KEY") |}.
Definition sample_keys (n : nat) : result StackError KeyPair := Ok {| kp_openssh := dec (N.of_nat n); kp_public_line := dec (N.of_nat n) |}.
Definition sample_gix : Gix := {| gix_resolve _ := Ok None; gix_write _ := Ok [] |}.
Definition sample_toml_files : Toml := {| toml_parse _ := None; toml_print _ := None |}.
Definition sample_derive (can_write : Path → bool) (rewrites : list FileRewrite) : result StackError RewriteCollector :=
  @derive_sources sample_digests sample_url sample_base64 (sample_yaml (sample_kube_doc None None) VNull []) sample_case sample_fragments sample_toml_files
    sample_gix sample_expander sample_host can_write () (Err EmptyImage) (λ _, []) (λ _ _, Err EmptyImage) sample_keys sample_keys
    sample_files sample_root Registry_default [] ∅ (bs "/home/eng") sample_home true rewrites.

Lemma ambient_mounts_traced_witness :
  ∃ c, sample_derive (λ _, true) [] = Ok c ∧ ∃ g, head (rc_grants c) = Some g ∧
    @ambient sample_digests sample_url sample_base64 (sample_yaml (sample_kube_doc None None) VNull []) sample_case sample_fragments sample_toml_files
      sample_gix sample_host () (Err EmptyImage) (λ _, []) (λ _ _, Err EmptyImage) sample_keys sample_keys sample_root Registry_default []
      (bs "/home/eng") sample_home [] (rc_grants c).
Proof.
  eexists. split; [vm_compute; reflexivity|].
  edestruct (@ambient_mounts_traced sample_digests sample_url sample_base64 (sample_yaml (sample_kube_doc None None) VNull []) sample_case sample_fragments
    sample_toml_files sample_gix sample_expander sample_host (λ _, true) () (Err EmptyImage) (λ _, []) (λ _ _, Err EmptyImage) sample_keys sample_keys
    sample_files sample_root Registry_default [] ∅ (bs "/home/eng") sample_home true []) as (declared & Hd & _ & _); [vm_compute; reflexivity|].
  apply Forall2_nil_inv_l in Hd as ->.
  eexists. split; [vm_compute; reflexivity|]. eapply ambient_ssh; [by apply not_elem_of_nil|vm_compute; reflexivity|vm_compute; reflexivity].
Defined.

Lemma ambient_failures_witness :
  ∃ path, sample_derive (λ _, false) [] = Err (StWriteFile path).
Proof.
  edestruct (@ambient_failures sample_digests sample_url sample_base64 (sample_yaml (sample_kube_doc None None) VNull []) sample_case sample_fragments
    sample_toml_files sample_gix sample_expander sample_host (λ _, false) () (Err EmptyImage) (λ _, []) (λ _ _, Err EmptyImage) sample_keys sample_keys
    sample_files sample_root Registry_default [] ∅ (bs "/home/eng") sample_home true [])
    as [(r & Hr & _)|[(? & _)|[(path & _ & Hp)|(_ & Hr & _)]]]; [vm_compute; reflexivity|by apply elem_of_nil in Hr|done| |].
  - exists path. rewrite <- Hp. vm_compute. reflexivity.
  - vm_compute in Hr. discriminate.
Defined.

(** Both blocks become grants, and the grant layer expects either decoy key;
    the agent gets the first key alone. *)
Example second_key_unmounted :
  match sample_derive (λ _, true) [] with
  | Ok c => (length (rc_grants c), map (λ m, display (mt_container m)) (rc_mounts c))
  | Err _ => (0, [])
  end = (2, [bs "/home/eng/.ssh/config"; bs "/home/eng/.ssh/one.test"; bs "/home/eng/.ssh/known_hosts"]).
Proof. vm_compute. reflexivity. Qed.
