(* ===== verification/Compose.v ===== *)
(** * Compose files

    The rendering half of [crates/hodor-compose/src/stack.rs]: the compose file
    of a stack, the marks a generated file is known by, the rules listing, and
    the chain of steps that makes a stack of a workspace. A text is its lines;
    paths are displayed by their components. *)

From stdpp Require Import sorting.
From S2P Require Import Prelude Decoy ConnString Grants Rules Registry Secrets Config Engine Paths Adapt Kube Stack SshConfig Git Ambient.

(** ** Data *)

Inductive ProxyBackend := BkEbpf | BkTun | BkTproxy | BkNone.
#[export] Instance ProxyBackend_eq_dec : EqDecision ProxyBackend.
Proof. solve_decision. Defined.

Record AgentBuild := { ab_context : Path; ab_dockerfile : Path }.
Record AgentSpec := {
  as_root : Path;
  as_home : bytes;
  as_storage : Path;
  as_uid : N;
  as_devices : list bytes;
  as_cap_add : list bytes;
  as_image : bytes;
  as_build : option AgentBuild;
}.
Record Stack := {
  sk_backend : ProxyBackend;
  sk_project : bytes;
  sk_decoys : list Decoy;
  sk_agent : AgentSpec;
  sk_mounts : list Mount;
  sk_tool_mounts : list Mount;
  sk_fnox : list Mount;
  sk_guest : list Mount;
  sk_init : option bytes;
  sk_ports : list N;
  sk_expose : list ExposeMap;
  sk_networks : list bytes;
  sk_extra_hosts : list bytes;
  sk_passthrough : list bytes;
  sk_file_mounts : list Mount;
  sk_grants_mounts : list Mount;
  sk_hodor_version : bytes;
}.

Definition STACK_SHAPE : N := 14.
Definition EXPLICIT_LISTEN : bytes := bs "127.0.0.1:8099".
Definition BYPASS_CONTAINER_PATH : bytes := bs "/hodor/ebpf-bypass".

(** ** Rendering *)

(** The serve command, the capabilities and the keys of a backend. *)
Definition backend_service (backend : ProxyBackend) (project : bytes) : bytes * list bytes * list bytes :=
  match backend with
  | BkEbpf => (dq "[^serve^, ^--proxy-backend^, ^ebpf^, ^--ebpf-cgroup^, ^enclosing^]", [bs "BPF"; bs "PERFMON"],
               [bs "    cgroup: host"; bs "    cgroup_parent: hodor-" ++ project ++ bs ".slice"])
  | BkTun => (dq "[^serve^, ^--proxy-backend^, ^tun^]", [], [bs "    devices: [/dev/net/tun]"])
  | BkTproxy => (dq "[^serve^, ^--proxy-backend^, ^tproxy^]", [], [])
  | BkNone => (dq "[^serve^]", [], [])
  end.

Definition quoted (s : bytes) : bytes := dq "^" ++ s ++ dq "^".
Definition item (s : bytes) : bytes := bs "      - " ++ s.
Definition volume (host container : bytes) : bytes := host ++ bs ":" ++ container.
Definition mount_text (m : Mount) : bytes :=
  volume (display (mt_host m)) (display (mt_container m)) ++ bs ":" ++ (if mt_ro m then bs "ro" else bs "rw").
Definition ro_text (m : Mount) : bytes := volume (display (mt_host m)) (display (mt_container m)) ++ bs ":ro".
Definition when {A} (b : bool) (l : list A) : list A := if b then l else [].
Definition is_ebpf (b : ProxyBackend) : bool := bool_decide (b = BkEbpf).
Definition bypass_line : bytes := bs "      HODOR_EBPF_BYPASS_FILE: " ++ BYPASS_CONTAINER_PATH.

Section Render.
(** The hodor configuration directory. *)
Context (config_dir : option Path).
Definition config_path_of (name : bytes) : Path :=
  path_join (default (components (bs "~/.config/hodor")) config_dir) [Normal name].

Definition head_lines (s : Stack) : list bytes :=
  [bs "# stack shape: " ++ dec STACK_SHAPE;
   bs "# generated by `hodor init` — edit freely; the file regenerates when the";
   bs "# workspace config or the shape above changed since it was generated.";
   bs "# hodor merges config like always";
   bs "# (global layer plus this workspace's .config/hodor/config.toml, discovered";
   bs "# from its working directory, plus the generated tool-config grant layer";
   bs "# when a rewrite adapts one); the agent holds decoys only.";
   bs "name: " ++ sk_project s;
   bs "services:"].

Definition hodor_env (s : Stack) : list bytes :=
  [bs "      RUST_LOG: info";
   bs "      # 8080 must stay free on loopback: agent dev servers default";
   bs "      # to it, and the explicit proxy's default bind would squat on";
   bs "      # 127.0.0.1:8080, leaving the fwd sidecar nothing to expose.";
   bs "      HODOR_LISTEN: " ++ EXPLICIT_LISTEN] ++
  when (is_ebpf (sk_backend s)) [bypass_line].
Definition grants_items (m : Mount) : list bytes :=
  [ro_text m; volume (display (path_join (mt_host m) [Normal (bs "hodor.toml")])) (bs "/root/.config/hodor/config.toml") ++ bs ":ro"].
Definition hodor_volumes (s : Stack) : list bytes :=
  map mount_text (sk_mounts s) ++ [volume (display (config_path_of (bs "ca.pem"))) (bs "/certs/ca.pem")] ++
  map ro_text (sk_fnox s) ++ flat_map grants_items (sk_grants_mounts s).
Definition port_items (s : Stack) : list bytes :=
  map (λ p, quoted (bs "127.0.0.1:" ++ dec p ++ bs ":" ++ dec p)) (sk_ports s) ++
  map (λ e, quoted (bs "127.0.0.1:" ++ dec (em_host e) ++ bs ":" ++ dec (em_port e))) (sk_expose s).
Definition hodor_body (s : Stack) : list bytes :=
  let '(serve, extra_caps, service_extra) := backend_service (sk_backend s) (sk_project s) in
  [bs "    image: ghcr.io/casualjim/hodor:" ++ sk_hodor_version s;
   bs "    working_dir: " ++ quoted (display (as_root (sk_agent s)));
   bs "    command: " ++ serve] ++
  service_extra ++
  [bs "    # Capture dies with this process: the eBPF attachments are fd-held";
   bs "    # and the listeners live in it, so a crash would silently end all";
   bs "    # capture until the next `up`. Restart instead, loudly — the";
   bs "    # restart count in `compose ps` is what makes flapping visible.";
   bs "    restart: unless-stopped";
   bs "    environment:"] ++ hodor_env s ++
  [bs "    cap_add:"; item (bs "NET_ADMIN")] ++ map item extra_caps ++
  (match port_items s with [] => [] | items => bs "    ports:" :: map item items end) ++
  [bs "    extra_hosts:"] ++ map (λ h, item (quoted h)) (effective_extra_hosts (sk_extra_hosts s)) ++
  (match sk_networks s with [] => [] | networks => bs "    networks:" :: map (λ n, item (quoted n)) networks end) ++
  [bs "    stop_grace_period: 1s"; bs "    volumes:"] ++ map item (hodor_volumes s).

Definition agent_env (s : Stack) : list bytes :=
  [bs "      # The entrypoint installs the CA into the system store. Node and";
   bs "      # Python's requests read their own bundle, so point them at it.";
   bs "      NODE_EXTRA_CA_CERTS: /etc/ssl/certs/ca-certificates.crt";
   bs "      REQUESTS_CA_BUNDLE: /etc/ssl/certs/ca-certificates.crt";
   bs "      # decoys — one per declared rule, swapped by hodor on grant match"] ++
  when (is_ebpf (sk_backend s)) [bypass_line] ++
  match sk_init s with Some init => [bs "      HODOR_INIT: " ++ quoted init] | None => [] end ++
  map (λ d, bs "      " ++ de_env d ++ bs ": " ++ quoted (de_value d)) (sk_decoys s) ++
  (match sk_passthrough s with [] => [] | _ => [bs "      # passthrough — compose interpolates these from the host at `up`, never baked"] end) ++
  map (λ name, bs "      " ++ name ++ bs ": " ++ quoted (bs "${" ++ name ++ bs "}")) (sk_passthrough s).
Definition agent_mounts (s : Stack) : list Mount := sk_mounts s ++ sk_file_mounts s ++ sk_tool_mounts s ++ sk_guest s.
(** The volumes below the mounts: the entrypoint, the CA, the inner storage. *)
Definition agent_support (s : Stack) : list bytes :=
  [volume (display (config_path_of (bs "agent-entrypoint.sh"))) (as_home (sk_agent s) ++ bs "/.config/hodor/agent-entrypoint.sh:ro");
   volume (display (config_path_of (bs "ca.crt"))) (bs "/usr/local/share/ca-certificates/hodor-ca.crt:ro")].
Definition storage_text (s : Stack) : bytes :=
  volume (display (as_storage (sk_agent s))) (as_home (sk_agent s) ++ bs "/.local/share/containers").
Definition agent_volume_lines (s : Stack) : list bytes :=
  map (λ m, item (mount_text m)) (agent_mounts s) ++ map item (agent_support s) ++
  [bs "      # Inner container storage. Made at generation time under this";
   bs "      # workspace's state directory, owned by the user that runs the";
   bs "      # agent: a bind source the runtime creates itself is root-owned,";
   bs "      # and podman inside then dies without a word. A named volume needs";
   bs "      # the same ownership once, by hand.";
   item (storage_text s)].
Definition agent_head (s : Stack) : list bytes :=
  let agent := sk_agent s in
  [bs "    image: " ++ as_image agent] ++
  match as_build agent with
  | Some build => [bs "    build:"; bs "      context: " ++ display (ab_context build); bs "      dockerfile: " ++ display (ab_dockerfile build)]
  | None => []
  end ++
  [bs "    # The agent runs containers of its own, which is what the widened";
   bs "    # privileges are for: inner containers mount, chroot and raise their";
   bs "    # own networking, so seccomp/systempaths/apparmor are unconfined and";
   bs "    # SYS_ADMIN is granted. apparmor=unconfined is what Ubuntu's default";
   bs "    # profile requires and is inert where AppArmor is not loaded.";
   bs "    # systempaths=unconfined is podman-only: drop it under docker.";
   bs "    security_opt: [seccomp=unconfined, systempaths=unconfined, apparmor=unconfined]";
   bs "    cap_add: [" ++ join (bs ", ") ([bs "SYS_CHROOT"; bs "AUDIT_WRITE"; bs "NET_ADMIN"; bs "SETUID"; bs "SETGID"; bs "SYS_ADMIN"] ++ as_cap_add agent) ++ bs "]";
   bs "    devices: [" ++ join (bs ", ") (bs "/dev/net/tun" :: as_devices agent) ++ bs "]"] ++
  when (is_ebpf (sk_backend s))
    [bs "    # Both services sit in this cgroup and hodor attaches to it: the hooks";
     bs "    # capture what is inside, and hodor's own sockets are skipped by";
     bs "    # the recorded proxy PID.";
     bs "    cgroup_parent: hodor-" ++ sk_project s ++ bs ".slice"] ++
  [bs "    # docker-init (tini) as pid 1: signal handling and child reaping";
   bs "    # for the long-running shells this container hosts";
   bs "    init: true";
   bs "    user: " ++ quoted (dec (as_uid agent));
   bs "    working_dir: " ++ quoted (display (as_root agent));
   bs "    entrypoint: [" ++ quoted (as_home agent ++ bs "/.config/hodor/agent-entrypoint.sh") ++ bs "]";
   dq "    command: [^sleep^, ^infinity^]"].
Definition agent_body (s : Stack) : list bytes :=
  agent_head s ++ [bs "    environment:"] ++ agent_env s ++ [bs "    volumes:"] ++ agent_volume_lines s ++ [dq "    network_mode: ^service:hodor^"].

Definition fwd_body (s : Stack) : list bytes :=
  [bs "    image: ghcr.io/casualjim/hodor:" ++ sk_hodor_version s;
   dq "    command: [^fwd^]";
   bs "    # Shares the netns and the agent's PID namespace; publishing is on";
   bs "    # the hodor service, and anything else it could reach is bound to";
   bs "    # the netns itself. Never a PID namespace shared with hodor: the";
   bs "    # agent holds the decoys, hodor the real secrets.";
   dq "    network_mode: ^service:hodor^";
   dq "    pid: ^service:agent^"].
Definition network_lines (s : Stack) : list bytes :=
  match sk_networks s with
  | [] => []
  | networks => bs "networks:" :: flat_map (λ n, [bs "  " ++ quoted n ++ bs ":"; bs "    external: true"]) networks
  end.

Definition render_lines (s : Stack) : list bytes :=
  head_lines s ++ [bs "  hodor:"] ++ hodor_body s ++
  [[]; bs "  agent:"] ++ agent_body s ++
  [[]; bs "  fwd:"] ++ fwd_body s ++ network_lines s.
Definition render (s : Stack) : bytes := unlines (render_lines s).
End Render.

(** ** Reading a generated file *)

Definition stack_shape_in (compose : bytes) : option N :=
  shape ← head (omap (λ line, strip_prefix (bs "# stack shape: ") (trim_start line)) (str_lines compose));
  from_str_radix u32_max 10 (trim shape).

Definition backend_needle (name : bytes) : bytes := dq "^--proxy-backend^, ^" ++ name ++ dq "^".
Definition generated_backend (compose : bytes) : option ProxyBackend :=
  snd <$> find (λ b : bytes * ProxyBackend, str_contains compose (backend_needle b.1))
    [(bs "ebpf", BkEbpf); (bs "tun", BkTun); (bs "tproxy", BkTproxy)].

(** ** Steps *)

(** The state directory of a workspace, and the runtime bypass file in it. *)
Definition workspace_state_dir (state_dir : option Path) (root : Path) : Path :=
  path_join (default [CurDir] state_dir) [Normal (bs "hodor"); Normal (bs "ws"); Normal (workspace_slug root)].
Definition bypass_mount (state : Path) : Mount :=
  {| mt_host := path_join state [Normal (bs "ebpf-bypass")]; mt_container := components BYPASS_CONTAINER_PATH; mt_ro := false |}.

(** [fnox_config_dir]: the variable, else below the configuration directory. *)
Definition fnox_config_dir (e : HostEnv) (host_home : option Path) : option Path :=
  match he_var e (bs "FNOX_CONFIG_DIR") with
  | Some dir => Some (components dir)
  | None => (λ dir, path_join dir [Normal (bs "fnox")]) <$>
              match he_config_dir e with Some dir => Some dir | None => (λ home, path_join home [Normal (bs ".config")]) <$> host_home end
  end.
Definition fnox_level (name : bytes) : bool :=
  let name := utf8_lossy name in starts_with name (bs "fnox") && bool_of_opt (strip_suffix (bs ".toml") name).
Definition file_name (path : Path) : option bytes := match last path with Some (Normal name) => Some name | _ => None end.
Definition fnox_levels (e : HostEnv) (config_dir : Path) : list Path :=
  merge_sort path_le (filter (λ path, he_is_file e path && match file_name path with Some name => fnox_level name | None => false end = true)
                        (he_read_dir e config_dir)).
Definition fnox_binds (e : HostEnv) (fnox_dir config_dir : option Path) : list Mount :=
  let ro host container := {| mt_host := host; mt_container := container; mt_ro := true |} in
  match fnox_dir with Some dir => if he_is_dir e dir then [ro dir (components (bs "/root/.config/fnox"))] else [] | None => [] end ++
  map (λ path, ro path (path_join (components (bs "/root/.config/hodor")) [Normal (default [] (file_name path))]))
    (match config_dir with Some dir => fnox_levels e dir | None => [] end) ++
  match (λ dir, path_join dir [Normal (bs "rules.d")]) <$> config_dir with
  | Some dir => if he_is_dir e dir then [ro dir (components (bs "/root/.config/hodor/rules.d"))] else []
  | None => []
  end.

Section Builder.
Context `{!Digests, !UrlCrate, !Base64, !Yaml, !CaseTables, !TomlFragment, !TomlRegistry, !Toml, !Gix, !Expander}.
(** The host: its environment and files, what can be written, made and
    removed, the CA, and the identities and keys made. *)
Context (e : HostEnv) (exists_ mkdir : Path → bool) (can_write : Path → bool).
Context (can_list : bool) (can_write_state : option bytes → bool) (can_remove : bytes → bool).
Context {CertAuthority : Type} (load_ca : result StackError CertAuthority) (ca_pem : CertAuthority → bytes).
Context (guest_pair : CertAuthority → bytes → result StackError (bytes * bytes)) (client_pair : CertAuthority → bytes → option (Path * Path)).
Context (git_keys ssh_keys : nat → result StackError KeyPair).
Context (host_home config_dir state_dir : option Path) (process_env : gmap bytes bytes) (uid : N).
Context (profile_fuel : nat) (roots : ProfileRoots).
(** The workspace: its root, and its configuration, registry and secret source as they load. *)
Context (root : Path) (config : AppConfig) (registry : Registry) (fnox : option FnoxSource).
Abbreviation ws := (ac_workspace config).
Abbreviation state := (workspace_state_dir state_dir root).

(** [StackBuilder::resolve]: the expansion environment, the container home and the workspace's mounts. *)
Definition sb_resolve : result StackError (gmap bytes bytes * bytes * list Mount) :=
  let raw_home := container_home ws in
  env ← resolution_env process_env registry fnox (elements (referenced_variables ws [raw_home]));
  home ← expand_value env raw_home;
  includes ← try_fold (λ acc entry, path ← expand_path env entry; Ok (acc ++ [path])) [] (ws_include ws);
  mounts ← workspace_mounts exists_ root host_home home includes;
  Ok (env, home, mounts).
Definition sb_project : bytes := default (workspace_slug root) (ws_name ws).

Definition sb_secrets : result StackError (list Decoy) :=
  let decoys := with_rule_patterns (select fnox registry) registry (ac_rules config) in
  _ ← validate_passthrough (ac_rules config) decoys (ws_passthrough ws);
  Ok decoys.

(** The files directory of a workspace can be made when it can be written. *)
Definition files_dir : Path := path_join state [Normal (bs "files")].
Definition sb_rewrites (env : gmap bytes bytes) (home : bytes) (decoys : list Decoy) : result StackError RewriteCollector :=
  preloaded ← if bool_decide (ws_file_rewrite ws = []) then Ok None else ca ← load_ca; Ok (Some ca);
  write_rewrites (he_read e) can_write load_ca
    (λ ca, kube_adapt (ca_pem ca) (guest_pair ca)) (λ ca, talos_adapt (ca_pem ca) (guest_pair ca))
    files_dir root env home host_home preloaded (mkdir files_dir) (ws_file_rewrite ws) decoys.
Definition sb_ambient (env : gmap bytes bytes) (home : bytes) (decoys : list Decoy) : result StackError RewriteCollector :=
  match host_home with
  | None => Ok RewriteCollector_new
  | Some host_home =>
      derive_sources e can_write load_ca ca_pem guest_pair git_keys ssh_keys files_dir root registry decoys env home host_home
        (mkdir files_dir) (ws_file_rewrite ws)
  end.
(** The grant layer is written only where there is a grant. *)
Definition sb_grants (layer : GrantState) (grants : list RewriteAdapted) : result StackError (GrantState * list Mount) :=
  match grants with
  | [] => Ok (layer, [])
  | _ =>
      let dir := path_join state [Normal (bs "grants")] in
      layer ← write_state can_list can_write_state can_remove dir layer grants;
      Ok (layer, [{| mt_host := dir; mt_container := components GRANTS_STATE_DIR; mt_ro := true |}])
  end.
Definition sb_profiles (home : bytes) : option (result StackError (list Mount)) :=
  r ← profile_mounts (he_is_dir e) mkdir home profile_fuel roots (profile_name ws) (ac_tools config);
  Some (r ← r; Ok r.1).
Definition has_mtls : bool :=
  existsb (λ r : bytes * RuleCfg, existsb (λ t : bytes * HostTlsCfg, bool_decide (ht_guest_tls_mode t.2 = Mtls)) (rc_tls r.2)) (ac_rules config).
Definition sb_guest_identities (home : bytes) : result StackError (list Mount) :=
  if has_mtls then ca ← load_ca; guest_identity_mounts home (client_pair ca) (ac_rules config) else Ok [].

Definition sb_stack (backend : ProxyBackend) (version home : bytes) (mounts : list Mount) (decoys : list Decoy)
    (file_mounts grants_mounts tool_mounts guest : list Mount) : result StackError Stack :=
  build ← match ws_build ws with
          | Some build => paths ← resolve_build (he_is_file e) (he_is_dir e) root host_home build; Ok (Some paths)
          | None => Ok None
          end;
  image ← agent_image sb_project (ws_image ws) (bool_of_opt build);
  Ok {| sk_backend := backend; sk_project := sb_project; sk_decoys := decoys;
        sk_agent := {| as_root := translate root host_home home; as_home := home; as_storage := path_join state [Normal (bs "containers")];
                       as_uid := uid; as_devices := ws_devices ws; as_cap_add := ws_cap_add ws; as_image := image;
                       as_build := (λ b : Path * Path, {| ab_context := b.1; ab_dockerfile := b.2 |}) <$> build |};
        sk_mounts := mounts ++ when (is_ebpf backend) [bypass_mount state]; sk_tool_mounts := tool_mounts;
        sk_fnox := fnox_binds e (fnox_config_dir e host_home) config_dir; sk_guest := guest; sk_init := ws_init ws; sk_ports := ws_ports ws;
        sk_expose := ws_expose ws; sk_networks := ws_networks ws; sk_extra_hosts := ws_extra_hosts ws; sk_passthrough := ws_passthrough ws;
        sk_file_mounts := file_mounts; sk_grants_mounts := grants_mounts; sk_hodor_version := version |}.

(** [generate_stack]: the stack and what the steps wrote, the files of the
    rewrites and the grant layer. The profile chain is the only step with fuel. *)
Definition build_stack (backend : ProxyBackend) (version : bytes) (layer : GrantState)
    : option (result StackError (Stack * list (Path * bytes) * GrantState)) :=
  match (r ← sb_resolve;
         let '(env, home, mounts) := r in
         decoys ← sb_secrets;
         rewritten ← sb_rewrites env home decoys;
         derived ← sb_ambient env home decoys;
         '(layer, grants_mounts) ← sb_grants layer (rc_grants rewritten ++ rc_grants derived);
         Ok (home, mounts, decoys, rewritten, derived, layer, grants_mounts)) with
  | Err err => Some (Err err)
  | Ok (home, mounts, decoys, rewritten, derived, layer, grants_mounts) =>
      tools ← sb_profiles home;
      Some (tool_mounts ← tools;
            guest ← sb_guest_identities home;
            stack ← sb_stack backend version home mounts decoys (rc_mounts rewritten ++ rc_mounts derived) grants_mounts tool_mounts guest;
            Ok (stack, rc_written rewritten ++ rc_written derived, layer))
  end.
Definition generate_stack (backend : ProxyBackend) (version : bytes) (layer : GrantState) : option (result StackError bytes) :=
  r ← build_stack backend version layer; Some ('(stack, _, _) ← r; Ok (render config_dir stack)).
End Builder.

(** ** Listings *)

(** The order of [String]s. *)
Definition bytes_leq (a b : bytes) : Prop := bytes_le a b = true.
#[export] Instance bytes_leq_dec a b : Decision (bytes_leq a b) := decide (_ = true).

Definition uncovered_warning (names : list bytes) : option bytes :=
  match names with
  | [] => None
  | _ =>
      let sorted := merge_sort bytes_leq names in
      Some (bs "warning: fnox declares " ++ (if length sorted =? 1 then bs "a secret" else bs "secrets") ++ bs " with no rule or passthrough (" ++
            join (bs ", ") sorted ++ bs "); add [rules.*] entries or [workspace] passthrough names, or remove them from fnox if unused")
  end.

Definition rule_block (d : Decoy) : bytes :=
  unlines [bs "[rules." ++ to_ascii_lowercase (de_env d) ++ bs "]"; bs "env = " ++ quoted (de_env d); []].
Definition hostless_block (d : Decoy) : bytes :=
  unlines [bs "# [rules." ++ to_ascii_lowercase (de_env d) ++ bs "]"; bs "# env = " ++ quoted (de_env d);
           dq "# allow = [^https://<your-host>^]"; []].
Definition rules_toml (decoys hostless : list Decoy) (unregistered : list bytes) : bytes :=
  unlines
    [bs "# `hodor rules` — what this workspace's proxy substitutes.";
     bs "#";
     bs "# The catalog derives at serve time: every fnox-declared name the registry";
     bs "# gives hosts becomes a rule, its value resolving from fnox. Config states";
     bs "# overrides only — a [rules.<env>] block in the workspace";
     bs "# `.config/hodor/config.toml` or the global `<config-dir>/hodor/config.toml`,";
     bs "# where the workspace file wins per label; its `allow` unions with the";
     bs "# registry hosts, and `registry = false` keeps only `allow`. To give a name";
     bs "# hosts in every workspace instead, add an override file in";
     bs "# `<config-dir>/hodor/rules.d/` or `<workspace root>/.config/hodor/rules.d/`."] ++
  (match decoys with
   | [] => []
   | _ => unlines [bs "#"; bs "# derives automatically at serve time, hosts from the registry:"] ++ concat (map rule_block decoys)
   end) ++
  (match hostless with
   | [] => []
   | _ => unlines
            [bs "#";
             bs "# The registry knows these names but states no hosts: either the endpoint is";
             bs "# per deployment (self-hosted control planes) or the value is a signing input";
             bs "# that never reaches the wire (exchange API secrets — see";
             bs "# https://github.com/casualjim/hodor/issues/19). Name the endpoint to use the";
             bs "# key as a rule, or drop it from fnox to stop emitting a decoy:";
             bs "#"] ++ concat (map hostless_block hostless)
   end) ++
  (match unregistered with
   | [] => []
   | _ => unlines [bs "#"; bs "# fnox declares these but no registry entry covers them, so nothing derives:"; bs "# " ++ join (bs ", ") unregistered; []]
   end).
Definition rules_command `{!Digests, !UrlCrate, !TomlRegistry} (registry : Registry) (fnox : option FnoxSource) : bytes :=
  let '(with_hosts, hostless) := by_hosts registry (select fnox registry) in
  let known := selected_envs fnox registry in
  let unknown := match fnox with Some source => filter (λ name, name ∉ known) (fs_declared source) | None => [] end in
  rules_toml with_hosts hostless unknown.

(** ** Texts *)

Definition within (n h : bytes) : Prop := ∃ u v, h = u ++ n ++ v.

Lemma str_contains_iff h n : n ≠ [] → str_contains h n = true ↔ within n h.
Proof.
  intros Hn. unfold str_contains. destruct n as [|b n]; [done|]. rewrite bool_decide_eq_true. split.
  - intros [i Hf]. apply find_window_Some in Hf as ([v Hv] & _ & _); [|done]. exists (take i h), v. by rewrite <- Hv, take_drop.
  - intros (u & v & ->). destruct (find_window _ _) as [i|] eqn:E; [by eexists|]. apply find_window_None in E; [|done]. destruct E.
    exists (length u). rewrite drop_app_length. split; [rewrite !length_app; lia|by eexists].
Qed.

Lemma within_app_line n l r : LF ∉ n → within n (l ++ LF :: r) → within n l ∨ within n r.
Proof.
  intros Hn (u & v & He). destruct (decide (length u + length n ≤ length l)) as [Hle|Hgt].
  - left. exists u, (take (length l - (length u + length n)) v).
    assert (take (length l) (l ++ LF :: r) = take (length l) (u ++ n ++ v)) as Ht by by rewrite He.
    rewrite take_app_length, app_assoc, take_app_ge in Ht by (rewrite length_app; lia). by rewrite length_app, <- app_assoc in Ht.
  - right. destruct (decide (length l < length u)) as [Hlu|Hge].
    + exists (drop (S (length l)) u), v. assert (drop (S (length l)) (l ++ LF :: r) = drop (S (length l)) (u ++ n ++ v)) as Hd by by rewrite He.
      rewrite drop_app_ge in Hd by lia. replace (S (length l) - length l) with 1 in Hd by lia. change (drop 1 (LF :: r)) with r in Hd.
      by rewrite Hd, drop_app_le by lia.
    + destruct Hn. apply list_elem_of_lookup. exists (length l - length u).
      assert ((u ++ n ++ v) !! length l = Some LF) as Hl by (rewrite <- He, list_lookup_middle; done).
      rewrite lookup_app_r in Hl by lia. rewrite lookup_app_l in Hl by lia. done.
Qed.

Lemma within_unlines n ls : LF ∉ n → n ≠ [] → within n (unlines ls) ↔ Exists (within n) ls.
Proof.
  intros Hn Hne. unfold unlines. induction ls as [|l ls IH]; cbn [map concat].
  - rewrite Exists_nil. split; [|done]. intros (u & v & He). symmetry in He. apply app_nil in He as [_ [? _]%app_nil]. done.
  - rewrite Exists_cons, <- IH. change ((l ++ [LF]) ++ concat (map (λ line, line ++ [LF]) ls)) with ((l ++ [LF]) ++ unlines ls).
    rewrite <- app_assoc. cbn [app]. split; [apply within_app_line; done|]. intros [(u & v & ->)|(u & v & Hr)].
    + exists u, (v ++ LF :: unlines ls). by rewrite <- !app_assoc.
    + exists (l ++ LF :: u), v. fold (unlines ls). unfold unlines in Hr |- *. rewrite Hr. by rewrite <- app_assoc.
Qed.

(** The double quotes of a text. *)
Definition quotes (l : bytes) : nat := length (filter (λ b, b = Byte.x22) l).
Lemma quotes_app l k : quotes (l ++ k) = quotes l + quotes k.
Proof. unfold quotes. by rewrite filter_app, length_app. Qed.
Lemma quotes_none l : Byte.x22 ∉ l → quotes l = 0.
Proof.
  unfold quotes. induction l as [|b l IH]; [done|]. intros [Hb Hl]%not_elem_of_cons. rewrite filter_cons_False by congruence. by apply IH.
Qed.
Lemma within_quotes n h : within n h → quotes n ≤ quotes h.
Proof. intros (u & v & ->). rewrite !quotes_app. lia. Qed.

(** ** Reading back *)

Section ReadBack.
Context (config_dir : option Path).

Definition path_texts (m : Mount) : list bytes := [display (mt_host m); display (mt_container m)].
(** The texts a stack puts into its file. *)
Definition stack_texts (s : Stack) : list bytes :=
  let agent := sk_agent s in
  [sk_project s; sk_hodor_version s; display (as_root agent); as_home agent; display (as_storage agent); as_image agent;
   display (config_path_of config_dir (bs "ca.pem")); display (config_path_of config_dir (bs "ca.crt"));
   display (config_path_of config_dir (bs "agent-entrypoint.sh"))] ++
  as_devices agent ++ as_cap_add agent ++
  match as_build agent with Some b => [display (ab_context b); display (ab_dockerfile b)] | None => [] end ++
  flat_map path_texts (sk_mounts s) ++ flat_map path_texts (sk_tool_mounts s) ++ flat_map path_texts (sk_fnox s) ++
  flat_map path_texts (sk_guest s) ++ flat_map path_texts (sk_file_mounts s) ++
  flat_map (λ m, display (path_join (mt_host m) [Normal (bs "hodor.toml")]) :: path_texts m) (sk_grants_mounts s) ++
  option_list (sk_init s) ++ sk_networks s ++ sk_extra_hosts s ++ sk_passthrough s ++ flat_map (λ d, [de_env d; de_value d]) (sk_decoys s).

(** Nothing that ends a line or a quoted text. *)
Record clean (t : bytes) : Prop := {
  cl_lf : LF ∉ t;
  cl_cr : CR ∉ t;
  cl_quote : Byte.x22 ∉ t;
}.
End ReadBack.

(** A line of the file: no break, and two quotes at most but for the two
    command lines. *)
Definition tame (l : bytes) : Prop := LF ∉ l ∧ CR ∉ l ∧ quotes l ≤ 2.
Definition unbroken (l : bytes) : Prop := LF ∉ l ∧ CR ∉ l.
Lemma unbroken_app a b : unbroken (a ++ b) ↔ unbroken a ∧ unbroken b.
Proof. unfold unbroken. rewrite !not_elem_of_app. naive_solver. Qed.
Lemma clean_tame t : clean t → unbroken t ∧ quotes t = 0.
Proof. intros [Hl Hc Hq]. split; [done|by apply quotes_none]. Qed.
Lemma dec_tame n : unbroken (dec n) ∧ quotes (dec n) = 0.
Proof.
  assert (Forall (λ b, b ≠ LF ∧ b ≠ CR ∧ b ≠ Byte.x22) (dec n)) as Hf.
  { apply to_digits_Forall; [lia|]. intros d Hd. assert (in_range 48 57 (digit_char d) = true) as Hr.
    { unfold digit_char, in_range. destruct (N.ltb_spec d 10); [|lia]. rewrite u8_byte_of, N.mod_small by lia. apply andb_true_iff; split; apply N.leb_le; lia. }
    by destruct (digit_char d). }
  rewrite Forall_forall in Hf. split; [split; intros Hin; by destruct (Hf _ Hin) as (? & ? & ?)|].
  apply quotes_none. intros Hin. by destruct (Hf _ Hin) as (? & ? & ?).
Qed.
Lemma join_tame sep ts : unbroken sep → quotes sep = 0 → Forall (λ t, unbroken t ∧ quotes t = 0) ts → unbroken (join sep ts) ∧ quotes (join sep ts) = 0.
Proof.
  intros Hs Hq. induction 1 as [|t ts [Ht Hz] Hts IH]; [split; [split; set_solver|done]|]. destruct ts as [|t' ts]; [done|].
  change (join sep (t :: t' :: ts)) with (t ++ sep ++ join sep (t' :: ts)). rewrite !unbroken_app, !quotes_app. destruct IH. split; [done|lia].
Qed.

Definition command_line (s : Stack) : bytes := bs "    command: " ++ (backend_service (sk_backend s) (sk_project s)).1.1.
Definition sleep_line : bytes := dq "    command: [^sleep^, ^infinity^]".
Definition line_ok (s : Stack) (l : bytes) : Prop := unbroken l ∧ (quotes l ≤ 2 ∨ l = command_line s ∨ l = sleep_line).

(** A line whose pieces have the quotes its template has. *)
Lemma line_ok_quotes s l n : unbroken l ∧ quotes l = n → n ≤ 2 → line_ok s l.
Proof. intros [Hu <-] Hn. split; [done|by left]. Qed.
Lemma piece_app a b n m : unbroken a ∧ quotes a = n → unbroken b ∧ quotes b = m → unbroken (a ++ b) ∧ quotes (a ++ b) = n + m.
Proof. intros [Ha <-] [Hb <-]. by rewrite unbroken_app, quotes_app. Qed.
Lemma piece_fixed (a : bytes) : bool_decide (LF ∉ a ∧ CR ∉ a) = true → unbroken a ∧ quotes a = quotes a.
Proof. intros Hb%bool_decide_eq_true. by split. Qed.
Lemma piece_quoted t : clean t → unbroken (quoted t) ∧ quotes (quoted t) = 2.
Proof.
  intros Hc%clean_tame. unfold quoted. apply (piece_app _ _ 1 1); [by apply piece_fixed|]. apply (piece_app _ _ 0 1); [done|by apply piece_fixed].
Qed.
Lemma piece_volume h c : clean h → clean c → unbroken (volume h c) ∧ quotes (volume h c) = 0.
Proof.
  intros Hh%clean_tame Hc%clean_tame. unfold volume. apply (piece_app _ _ 0 0); [done|]. apply (piece_app _ _ 0 0); [by apply piece_fixed|done].
Qed.

Ltac piece :=
  lazymatch goal with
  | |- unbroken (_ ++ _) ∧ _ => eapply piece_app; [piece|piece]
  | |- unbroken (dec _) ∧ _ => apply dec_tame
  | |- _ => first [by apply clean_tame | apply piece_fixed; vm_compute; reflexivity]
  end.
Ltac line := lazymatch goal with |- line_ok _ _ => eapply line_ok_quotes; [unfold ro_text, mount_text, storage_text, item, quoted, volume; piece|vm_compute; lia] end.
Ltac lines :=
  repeat lazymatch goal with
  | |- Forall _ (_ ++ _) => apply Forall_app_2
  | |- Forall _ (_ :: _) => apply Forall_cons_2
  | |- Forall _ [] => constructor
  | |- Forall _ (map _ _) => apply Forall_fmap, Forall_forall; intros ? ?; cbv beta; unfold compose
  | |- line_ok _ _ => line
  end.

Section Lines.
Context (config_dir : option Path) (s : Stack) (Hclean : Forall clean (stack_texts config_dir s)).

Lemma path_texts_clean ms : Forall clean (flat_map path_texts ms) → ∀ m, m ∈ ms → clean (display (mt_host m)) ∧ clean (display (mt_container m)).
Proof.
  intros Hf m Hm. rewrite Forall_forall in Hf. split; apply Hf, list_elem_of_In, in_flat_map; exists m; (split; [by apply list_elem_of_In|simpl; auto]).
Qed.

Lemma mode_tame (b : bool) : unbroken (if b then bs "ro" else bs "rw") ∧ quotes (if b then bs "ro" else bs "rw") = 0.
Proof. destruct b; by apply piece_fixed. Qed.

Lemma head_ok : Forall (line_ok s) (head_lines s).
Proof. unfold stack_texts in Hclean. apply Forall_app in Hclean as [Hc _]. rewrite !Forall_cons in Hc. destruct_and!. unfold head_lines. lines. Qed.
End Lines.

Ltac clean_facts H :=
  let Hf := fresh "Hfacts" in pose proof H as Hf; unfold stack_texts in Hf; rewrite ?Forall_app, ?Forall_cons in Hf; destruct_and!.

Section Lines2.
Context (config_dir : option Path) (s : Stack) (Hclean : Forall clean (stack_texts config_dir s)).

Lemma mount_ok ms : Forall clean (flat_map path_texts ms) → Forall (line_ok s) (map (λ m, item (mount_text m)) ms).
Proof.
  intros Hp. apply Forall_fmap, Forall_forall. intros m Hm. simpl. destruct (path_texts_clean ms Hp m Hm) as [Hh Hc].
  eapply line_ok_quotes; [unfold item, mount_text, volume; eapply piece_app; [piece|eapply piece_app; [piece|eapply piece_app; [piece|apply mode_tame]]]|vm_compute; lia].
Qed.
Lemma ro_ok ms : Forall clean (flat_map path_texts ms) → Forall (line_ok s) (map (λ m, item (ro_text m)) ms).
Proof. intros Hp. apply Forall_fmap, Forall_forall. intros m Hm. simpl. destruct (path_texts_clean ms Hp m Hm) as [Hh Hc]. line. Qed.

Lemma extra_hosts_clean l : Forall clean l → Forall clean (effective_extra_hosts l).
Proof.
  intros Hl. unfold effective_extra_hosts. constructor; [split; apply (bool_decide_eq_true_1 _); vm_compute; reflexivity|].
  rewrite Forall_forall in Hl |- *. intros t [_ Ht]%list_elem_of_filter. by apply Hl.
Qed.

Lemma grants_ok ms :
  Forall clean (flat_map (λ m, display (path_join (mt_host m) [Normal (bs "hodor.toml")]) :: path_texts m) ms) →
  Forall (line_ok s) (map item (flat_map grants_items ms)).
Proof.
  induction ms as [|m ms IH]; cbn [flat_map map]; [by constructor|]. rewrite Forall_app, Forall_cons. unfold path_texts at 1. rewrite !Forall_cons.
  intros [(Ht & Hh & Hc & _) Hms]. rewrite map_app. apply Forall_app_2; [|by apply IH]. unfold grants_items. cbn [map]. lines.
Qed.

Lemma quoted_items_ok l : Forall clean l → Forall (line_ok s) (map (λ t, item (quoted t)) l).
Proof. intros Hl. apply Forall_fmap. eapply Forall_impl; [exact Hl|]. intros t Ht. unfold compose. line. Qed.

Lemma hodor_ok : Forall (line_ok s) (hodor_body config_dir s).
Proof.
  clean_facts Hclean. unfold hodor_body. destruct (backend_service _ _) as [[serve extra_caps] service_extra] eqn:Eb.
  assert (bs "    command: " ++ serve = command_line s) as Hcmd by (unfold command_line; by rewrite Eb).
  rewrite !Forall_app; split_and!.
  - constructor; [line|]. constructor; [line|]. constructor; [|constructor]. rewrite Hcmd. split; [|right; by left].
    unfold command_line. destruct (sk_backend s); apply unbroken_app; split; apply (bool_decide_eq_true_1 _); vm_compute; reflexivity.
  - assert (service_extra = (backend_service (sk_backend s) (sk_project s)).2) as -> by (by rewrite Eb).
    destruct (sk_backend s); cbn [backend_service snd]; lines.
  - lines.
  - unfold hodor_env. apply Forall_app_2; [lines|]. unfold when. destruct (is_ebpf _); unfold bypass_line; lines.
  - lines.
  - assert (extra_caps = (backend_service (sk_backend s) (sk_project s)).1.2) as -> by (by rewrite Eb).
    destruct (sk_backend s); cbn [backend_service fst snd map]; lines.
  - assert (Forall (line_ok s) (map item (port_items s))) as Hp.
    { unfold port_items. rewrite map_app, !map_map. lines. }
    destruct (port_items s); [constructor|]. constructor; [line|done].
  - lines.
  - apply quoted_items_ok, extra_hosts_clean. done.
  - destruct (sk_networks s) as [|n networks] eqn:En; [constructor|]. constructor; [line|]. rewrite <- En in *. by apply quoted_items_ok.
  - lines.
  - unfold hodor_volumes. rewrite !map_app, !map_map. rewrite !Forall_app; split_and!; [by apply mount_ok|cbn [map]; lines|by apply ro_ok|by apply grants_ok].
Qed.

Lemma list_line_ok prefix ts :
  bool_decide (LF ∉ prefix ∧ CR ∉ prefix) = true → quotes prefix = 0 → Forall (λ t, unbroken t ∧ quotes t = 0) ts →
  line_ok s (prefix ++ join (bs ", ") ts ++ bs "]").
Proof.
  intros Hp Hq Ht. eapply (line_ok_quotes _ _ 0); [|lia]. apply (piece_app _ _ 0 0); [rewrite <- Hq; by apply piece_fixed|].
  apply (piece_app _ _ 0 0); [|by apply piece_fixed]. apply join_tame; [by apply piece_fixed|done|done].
Qed.

Lemma agent_ok : Forall (line_ok s) (agent_body config_dir s).
Proof.
  clean_facts Hclean. unfold agent_body. rewrite !Forall_app; split_and!.
  - unfold agent_head. rewrite !Forall_app; split_and!.
    + lines.
    + destruct (as_build _); [|constructor]. rewrite !Forall_cons in *. destruct_and!. split_and!; lines.
    + constructor; [line|]. constructor; [line|]. constructor; [line|]. constructor; [line|]. constructor; [line|].
      constructor; [line|]. constructor; [line|]. constructor; [|constructor; [|constructor]]; (apply list_line_ok; [by vm_compute..|]).
      * apply Forall_app_2; [by apply Forall_forall; intros t Ht; repeat (apply elem_of_cons in Ht as [->|Ht]; [by apply piece_fixed|]); apply elem_of_nil in Ht|].
        eapply Forall_impl; [eassumption|]. apply clean_tame.
      * constructor; [by apply piece_fixed|]. eapply Forall_impl; [eassumption|]. apply clean_tame.
    + unfold when. destruct (is_ebpf _); lines.
    + repeat (constructor; [first [line|split; [split; apply (bool_decide_eq_true_1 _); vm_compute; reflexivity|right; by right]]|]). constructor.
  - lines.
  - unfold agent_env. rewrite !Forall_app; split_and!.
    + lines.
    + unfold when. destruct (is_ebpf _); unfold bypass_line; lines.
    + destruct (sk_init s); [|constructor]. match goal with Hi : Forall clean (option_list (Some _)) |- _ => cbn [option_list option_rect] in Hi; apply Forall_cons in Hi as [Hi _] end. constructor; [line|constructor].
    + apply Forall_fmap, Forall_forall. intros d Hd. unfold compose.
      match goal with Hf : Forall clean (flat_map (λ d, [de_env d; de_value d]) _) |- _ => rewrite Forall_forall in Hf;
        assert (clean (de_env d)) by (apply Hf, list_elem_of_In, in_flat_map; exists d; split; [by apply list_elem_of_In|simpl; auto]);
        assert (clean (de_value d)) by (apply Hf, list_elem_of_In, in_flat_map; exists d; split; [by apply list_elem_of_In|simpl; auto]) end.
      line.
    + destruct (sk_passthrough s); [constructor|lines].
    + apply Forall_fmap. match goal with Hf : Forall clean (sk_passthrough s) |- _ => eapply Forall_impl; [exact Hf|] end. intros t Ht. unfold compose. line.
  - lines.
  - unfold agent_volume_lines. rewrite !Forall_app; split_and!; [| |lines].
    + unfold agent_mounts. apply mount_ok. rewrite !flat_map_app. by rewrite !Forall_app; split_and!.
    + unfold agent_support. cbn [map]. lines.
  - lines.
Qed.

Lemma networks_ok networks :
  Forall clean networks →
  Forall (line_ok s) match networks with
                     | [] => []
                     | n :: nets => bs "networks:" :: flat_map (λ n, [bs "  " ++ quoted n ++ bs ":"; bs "    external: true"]) (n :: nets)
                     end.
Proof.
  intros Hn. assert (Forall (line_ok s) (flat_map (λ n, [bs "  " ++ quoted n ++ bs ":"; bs "    external: true"]) networks)) as Hf.
  { induction Hn as [|n networks Hc Hn IH]; cbn [flat_map]; [constructor|]. apply Forall_app_2; [lines|done]. }
  destruct networks; [constructor|]. constructor; [line|done].
Qed.

Lemma render_ok : Forall (line_ok s) (render_lines config_dir s).
Proof.
  unfold render_lines. rewrite !Forall_app; split_and!.
  - by eapply head_ok.
  - lines.
  - apply hodor_ok.
  - lines.
  - apply agent_ok.
  - lines.
  - clean_facts Hclean. unfold fwd_body. lines.
  - clean_facts Hclean. unfold network_lines. by apply networks_ok.
Qed.
End Lines2.

Lemma command_line_in config_dir s : command_line s ∈ render_lines config_dir s.
Proof.
  unfold render_lines, hodor_body, command_line. destruct (backend_service _ _) as [[serve caps] extra]. cbn [fst].
  apply elem_of_app. right. apply elem_of_app. right. apply elem_of_app. left. apply elem_of_app. left. right. right. left.
Qed.

Lemma render_marks config_dir s :
  Forall clean (stack_texts config_dir s) →
  stack_shape_in (render config_dir s) = Some STACK_SHAPE ∧
  generated_backend (render config_dir s) = match sk_backend s with BkNone => None | backend => Some backend end.
Proof.
  intros Hclean.
  pose proof (render_ok config_dir s Hclean) as Hok.
  assert (Forall (λ l, LF ∉ l ∧ CR ∉ l) (render_lines config_dir s)) as Hu by (eapply Forall_impl; [exact Hok|]; by intros l [Hl _]).
  split.
  { unfold stack_shape_in, render. rewrite str_lines_unlines by done. unfold render_lines, head_lines. vm_compute. reflexivity. }
  assert (∀ n, LF ∉ n → quotes n = 4 → str_contains sleep_line n = false → str_contains (render config_dir s) n = str_contains (command_line s) n) as Hn.
  { intros n Hlf Hq Hs. assert (n ≠ []) as Hne by (intros ->; done). apply eq_true_iff_eq. rewrite !str_contains_iff by done.
    unfold render. rewrite within_unlines by done. rewrite Exists_exists. split.
    - intros (l & Hin & Hw). rewrite Forall_forall in Hok. destruct (Hok l Hin) as [_ [Hl|[-> | ->]]]; [|done|].
      + apply within_quotes in Hw. lia.
      + apply str_contains_iff in Hw; [|done]. congruence.
    - intros Hw. exists (command_line s). split; [apply command_line_in|done]. }
  unfold generated_backend. cbn [find fst]. rewrite !Hn; try reflexivity; try (apply (bool_decide_eq_true_1 _); vm_compute; reflexivity).
  unfold command_line. by destruct (sk_backend s).
Qed.

(** C33: A generated file is recognised: the shape read back from it is the
    one it was rendered with, and so is its capture backend, whatever the
    workspace configures, unless one of its texts holds a line break or a
    double quote. *)
Theorem stack_marks_roundtrip config_dir s (Hclean : Forall clean (stack_texts config_dir s)) :
  stack_shape_in (render config_dir s) = Some STACK_SHAPE ∧
  generated_backend (render config_dir s) = match sk_backend s with BkNone => None | backend => Some backend end.
Proof. by apply render_marks. Qed.

(** ** Reading a service *)

Fixpoint skip_to (key : bytes) (ls : list bytes) : list bytes :=
  match ls with
  | [] => []
  | l :: ls => if bool_decide (l = key) then ls else skip_to key ls
  end.
Fixpoint while_indented (indent : bytes) (ls : list bytes) : list bytes :=
  match ls with
  | l :: ls => if starts_with l indent then l :: while_indented indent ls else []
  | [] => []
  end.
(** The lines of a service, those below one of its keys, and what they list:
    the items of a sequence, the entries of a mapping; comments are passed over. *)
Definition service (name : bytes) (ls : list bytes) : list bytes := while_indented (bs "    ") (skip_to (bs "  " ++ name ++ bs ":") ls).
Definition below (key : bytes) (ls : list bytes) : list bytes := while_indented (bs "      ") (skip_to (bs "    " ++ key ++ bs ":") ls).
Definition listed (ls : list bytes) : list bytes := omap (strip_prefix (bs "      - ")) ls.
Definition entry_line (l : bytes) : option bytes := if starts_with l (bs "      #") then None else strip_prefix (bs "      ") l.
Definition service_volumes (name compose : bytes) : list bytes := listed (below (bs "volumes") (service name (str_lines compose))).
Definition service_environment (name compose : bytes) : list bytes := omap entry_line (below (bs "environment") (service name (str_lines compose))).

Lemma skip_to_app key ls rest : key ∉ ls → skip_to key (ls ++ key :: rest) = rest.
Proof.
  induction ls as [|l ls IH]; cbn [app skip_to]; [by rewrite bool_decide_eq_true_2|]. intros [Hne Hn]%not_elem_of_cons.
  rewrite bool_decide_eq_false_2 by congruence. by apply IH.
Qed.
Lemma while_indented_app indent ls l rest :
  Forall (λ l, starts_with l indent = true) ls → starts_with l indent = false → while_indented indent (ls ++ l :: rest) = ls.
Proof. intros Hf Hl. induction Hf as [|l' ls Hl' _ IH]; cbn [app while_indented]; [by rewrite Hl|]. by rewrite Hl', IH. Qed.
Lemma while_indented_all indent ls : Forall (λ l, starts_with l indent = true) ls → while_indented indent ls = ls.
Proof. induction 1 as [|l' ls Hl' _ IH]; cbn [while_indented]; [done|]. by rewrite Hl', IH. Qed.
Lemma starts_with_self_app p l : starts_with (p ++ l) p = true.
Proof. apply bool_decide_eq_true. by eexists. Qed.
Lemma starts_with_prefix p q l : starts_with p q = true → starts_with (p ++ l) q = true.
Proof. unfold starts_with. rewrite !bool_decide_eq_true. intros [k ->]. exists (k ++ l). by rewrite app_assoc. Qed.
Lemma strip_item t : strip_prefix (bs "      - ") (item t) = Some t.
Proof. unfold item, strip_prefix. by rewrite starts_with_self_app, drop_app_length. Qed.
Lemma listed_app ls ls' : listed (ls ++ ls') = listed ls ++ listed ls'.
Proof. apply omap_app. Qed.
Lemma listed_items ts : listed (map item ts) = ts.
Proof. unfold listed. induction ts as [|t ts IH]; [done|]. cbn [map omap list_omap]. by rewrite strip_item, IH. Qed.

(** Lines whose first bytes are those of a fixed text. *)
Ltac indented :=
  lazymatch goal with
  | |- starts_with (?p ++ _) _ = true => apply starts_with_prefix; vm_compute; reflexivity
  | |- starts_with _ _ = true => vm_compute; reflexivity
  end.
Ltac all_indented :=
  repeat lazymatch goal with
  | |- Forall _ (_ ++ _) => apply Forall_app_2
  | |- Forall _ (_ :: _) => apply Forall_cons_2
  | |- Forall _ [] => constructor
  | |- Forall _ (map _ _) => apply Forall_fmap, Forall_forall; intros ? ?; unfold compose; cbv beta
  | |- starts_with _ _ = true => unfold item; indented
  end.

Section Services.
Context (config_dir : option Path) (s : Stack).

Lemma hodor_body_indented : Forall (λ l, starts_with l (bs "    ") = true) (hodor_body config_dir s).
Proof.
  unfold hodor_body. destruct (backend_service _ _) as [[serve extra_caps] service_extra] eqn:Eb.
  assert (service_extra = (backend_service (sk_backend s) (sk_project s)).2) as -> by (by rewrite Eb).
  rewrite !Forall_app; split_and!; try solve [all_indented].
  - destruct (sk_backend s); cbn [backend_service snd]; all_indented.
  - unfold hodor_env, when. destruct (is_ebpf _); unfold bypass_line; all_indented.
  - destruct (port_items s); all_indented.
  - destruct (sk_networks s); all_indented.
Qed.
Lemma agent_body_indented : Forall (λ l, starts_with l (bs "    ") = true) (agent_body config_dir s).
Proof.
  unfold agent_body. rewrite !Forall_app; split_and!; try solve [all_indented].
  - unfold agent_head. rewrite !Forall_app; split_and!; try solve [all_indented].
    + destruct (as_build _); all_indented.
    + unfold when. destruct (is_ebpf _); all_indented.
  - unfold agent_env. rewrite !Forall_app; split_and!; try solve [all_indented].
    + unfold when. destruct (is_ebpf _); unfold bypass_line; all_indented.
    + destruct (sk_init s); all_indented.
    + destruct (sk_passthrough s); all_indented.
  - unfold agent_volume_lines. rewrite !Forall_app; split_and!; all_indented.
Qed.

(** A key is not among lines that are indented, or start, otherwise. *)
Lemma key_absent key p ls : Forall (λ l, starts_with l p = true) ls → starts_with key p = false → key ∉ ls.
Proof. intros Hf Hk Hin. rewrite Forall_forall in Hf. apply Hf in Hin. congruence. Qed.

Lemma service_agent : service (bs "agent") (render_lines config_dir s) = agent_body config_dir s.
Proof.
  unfold service, render_lines.
  replace (head_lines s ++ [bs "  hodor:"] ++ hodor_body config_dir s ++ [[]; bs "  agent:"] ++ agent_body config_dir s ++ [[]; bs "  fwd:"] ++ fwd_body s ++ network_lines s)
    with ((head_lines s ++ [bs "  hodor:"] ++ hodor_body config_dir s ++ [[]]) ++ (bs "  " ++ bs "agent" ++ bs ":") :: agent_body config_dir s ++ [] :: [bs "  fwd:"] ++ fwd_body s ++ network_lines s)
    by (rewrite <- !app_assoc; reflexivity).
  rewrite skip_to_app; [by apply while_indented_app; [apply agent_body_indented|]|].
  rewrite !not_elem_of_app. split_and!.
  - unfold head_lines. rewrite !not_elem_of_cons. split_and!; try discriminate. apply not_elem_of_nil.
  - by rewrite list_elem_of_singleton.
  - eapply key_absent; [apply hodor_body_indented|]. done.
  - by rewrite list_elem_of_singleton.
Qed.
Lemma service_hodor : service (bs "hodor") (render_lines config_dir s) = hodor_body config_dir s.
Proof.
  unfold service, render_lines. change ([bs "  hodor:"] ++ ?x) with ((bs "  " ++ bs "hodor" ++ bs ":") :: x).
  rewrite skip_to_app; [by apply while_indented_app; [apply hodor_body_indented|]|].
  unfold head_lines. rewrite !not_elem_of_cons. split_and!; try discriminate. apply not_elem_of_nil.
Qed.
End Services.

Lemma key_ne p x key : starts_with key p = false → key ≠ p ++ x.
Proof. intros Hk ->. by rewrite starts_with_self_app in Hk. Qed.
Ltac no_key :=
  repeat (rewrite not_elem_of_app; split);
  repeat lazymatch goal with
  | |- _ ∉ _ :: _ => apply not_elem_of_cons; split
  | |- _ ∉ [] => apply not_elem_of_nil
  | |- _ ≠ _ ++ _ => apply key_ne; vm_compute; reflexivity
  | |- _ ≠ _ => discriminate
  end.

Lemma agent_head_no_key s : bs "    environment:" ∉ agent_head s ∧ bs "    volumes:" ∉ agent_head s.
Proof.
  unfold agent_head. split; rewrite !not_elem_of_app; split_and!; try solve [no_key].
  - destruct (as_build _); no_key.
  - unfold when. destruct (is_ebpf _); no_key.
  - destruct (as_build _); no_key.
  - unfold when. destruct (is_ebpf _); no_key.
Qed.

Lemma agent_env_indented s : Forall (λ l, starts_with l (bs "      ") = true) (agent_env s).
Proof.
  unfold agent_env. rewrite !Forall_app; split_and!; try solve [all_indented].
  - unfold when. destruct (is_ebpf _); unfold bypass_line; all_indented.
  - destruct (sk_init s); all_indented.
  - destruct (sk_passthrough s); all_indented.
Qed.
Lemma hodor_env_indented s : Forall (λ l, starts_with l (bs "      ") = true) (hodor_env s).
Proof. unfold hodor_env, when. destruct (is_ebpf _); unfold bypass_line; all_indented. Qed.

Section ServiceBlocks.
Context (config_dir : option Path) (s : Stack).

Lemma agent_volumes_listed :
  listed (below (bs "volumes") (agent_body config_dir s)) = map mount_text (agent_mounts s) ++ agent_support config_dir s ++ [storage_text s].
Proof.
  unfold below, agent_body.
  replace (agent_head s ++ [bs "    environment:"] ++ agent_env s ++ [bs "    volumes:"] ++ agent_volume_lines config_dir s ++ [dq "    network_mode: ^service:hodor^"])
    with ((agent_head s ++ [bs "    environment:"] ++ agent_env s) ++ (bs "    " ++ bs "volumes" ++ bs ":") :: agent_volume_lines config_dir s ++ [dq "    network_mode: ^service:hodor^"])
    by (rewrite <- !app_assoc; reflexivity).
  rewrite skip_to_app, while_indented_app.
  - unfold agent_volume_lines. rewrite !listed_app, <- map_map, !listed_items. do 2 f_equal.
  - unfold agent_volume_lines. rewrite !Forall_app; split_and!; all_indented.
  - by vm_compute.
  - rewrite !not_elem_of_app. split_and!; [apply agent_head_no_key|no_key|]. eapply key_absent; [apply agent_env_indented|done].
Qed.

Lemma agent_environment_below : below (bs "environment") (agent_body config_dir s) = agent_env s.
Proof.
  unfold below, agent_body. change ([bs "    environment:"] ++ ?x) with ((bs "    " ++ bs "environment" ++ bs ":") :: x).
  rewrite skip_to_app; [|apply agent_head_no_key]. change ([bs "    volumes:"] ++ ?x) with (bs "    volumes:" :: x).
  apply while_indented_app; [apply agent_env_indented|done].
Qed.

Lemma hodor_volumes_listed : listed (below (bs "volumes") (hodor_body config_dir s)) = hodor_volumes config_dir s.
Proof.
  unfold below, hodor_body. destruct (backend_service _ _) as [[serve extra_caps] service_extra] eqn:Eb.
  assert (service_extra = (backend_service (sk_backend s) (sk_project s)).2) as -> by (by rewrite Eb).
  match goal with |- listed (while_indented _ (skip_to _ ?l)) = _ => 
    assert (∃ before, l = before ++ (bs "    " ++ bs "volumes" ++ bs ":") :: map item (hodor_volumes config_dir s) ∧ bs "    volumes:" ∉ before) as (before & -> & Hb) end.
  - eexists. split.
    + match goal with |- ?a ++ ?b ++ ?c ++ ?d ++ ?e ++ ?f ++ ?g ++ ?h ++ ?i ++ ?j ++ [bs "    stop_grace_period: 1s"; bs "    volumes:"] ++ ?k = _ =>
        transitivity ((a ++ b ++ c ++ d ++ e ++ f ++ g ++ h ++ i ++ j ++ [bs "    stop_grace_period: 1s"]) ++ (bs "    " ++ bs "volumes" ++ bs ":") :: k) end.
      * rewrite <- !app_assoc. reflexivity.
      * reflexivity.
    + rewrite !not_elem_of_app. split_and!; try solve [no_key].
      * destruct (sk_backend s); cbn [backend_service snd]; no_key.
      * eapply key_absent; [apply hodor_env_indented|done].
      * eapply (key_absent _ (bs "      ")); [all_indented|done].
      * destruct (port_items s); [no_key|]. apply not_elem_of_cons. split; [discriminate|]. eapply (key_absent _ (bs "      ")); [all_indented|done].
      * eapply (key_absent _ (bs "      ")); [all_indented|done].
      * destruct (sk_networks s); [no_key|]. apply not_elem_of_cons. split; [discriminate|]. eapply (key_absent _ (bs "      ")); [all_indented|done].
  - rewrite skip_to_app by done. rewrite while_indented_all by all_indented. apply listed_items.
Qed.
End ServiceBlocks.

(** What the agent's environment says, less the comments. *)
Definition agent_entries (s : Stack) : list bytes :=
  [bs "NODE_EXTRA_CA_CERTS: /etc/ssl/certs/ca-certificates.crt"; bs "REQUESTS_CA_BUNDLE: /etc/ssl/certs/ca-certificates.crt"] ++
  when (is_ebpf (sk_backend s)) [bs "HODOR_EBPF_BYPASS_FILE: " ++ BYPASS_CONTAINER_PATH] ++
  match sk_init s with Some init => [bs "HODOR_INIT: " ++ quoted init] | None => [] end ++
  map (λ d, de_env d ++ bs ": " ++ quoted (de_value d)) (sk_decoys s) ++
  map (λ name, name ++ bs ": " ++ quoted (bs "${" ++ name ++ bs "}")) (sk_passthrough s).

Lemma entry_line_name name rest : head (name ++ bs ": " ++ rest) ≠ Some Byte.x23 → entry_line (bs "      " ++ name ++ bs ": " ++ rest) = Some (name ++ bs ": " ++ rest).
Proof.
  intros Hh. unfold entry_line, strip_prefix. rewrite starts_with_self_app, drop_app_length.
  destruct (starts_with _ (bs "      #")) eqn:E; [|done]. unfold starts_with in E. apply bool_decide_eq_true in E as [k Hk].
  change (bs "      #" ++ k) with (bs "      " ++ Byte.x23 :: k) in Hk. apply app_inv_head in Hk. by rewrite Hk in Hh.
Qed.
Lemma entry_lines_map {A} (name rest : A → bytes) (l : list A) :
  Forall (λ a, head (name a ++ bs ": ") ≠ Some Byte.x23) l →
  omap entry_line (map (λ a, bs "      " ++ name a ++ bs ": " ++ rest a) l) = map (λ a, name a ++ bs ": " ++ rest a) l.
Proof.
  induction 1 as [|a l Ha _ IH]; [done|]. cbn [map omap list_omap]. rewrite IH, entry_line_name; [done|]. by destruct (name a).
Qed.

Lemma agent_entries_listed s :
  Forall (λ d, head (de_env d ++ bs ": ") ≠ Some Byte.x23) (sk_decoys s) → Forall (λ n, head (n ++ bs ": ") ≠ Some Byte.x23) (sk_passthrough s) →
  omap entry_line (agent_env s) = agent_entries s.
Proof.
  intros Hd Hp. unfold agent_env, agent_entries. rewrite !omap_app. rewrite (entry_lines_map de_env (λ d, quoted (de_value d))) by done.
  rewrite (entry_lines_map (λ n, n) (λ n, quoted (bs "${" ++ n ++ bs "}"))) by done.
  assert (omap entry_line match sk_passthrough s with [] => [] | _ => [bs "      # passthrough — compose interpolates these from the host at `up`, never baked"] end = []) as ->
    by (destruct (sk_passthrough s); [done|vm_compute; reflexivity]).
  rewrite app_nil_l. f_equal. unfold when. f_equal; [destruct (is_ebpf _); [vm_compute; reflexivity|done]|].
  f_equal. destruct (sk_init s) as [init|]; [|done]. cbn [omap list_omap].
  change (bs "      HODOR_INIT: " ++ quoted init) with (bs "      " ++ bs "HODOR_INIT" ++ bs ": " ++ quoted init). by rewrite entry_line_name.
Qed.


(** ** Witnesses *)

Definition sample_mount (host container : bytes) (ro : bool) : Mount := {| mt_host := components host; mt_container := components container; mt_ro := ro |}.
Definition sample_stack (backend : ProxyBackend) (init : option bytes) : Stack :=
  {| sk_backend := backend; sk_project := bs "ws"; sk_decoys := [{| de_env := bs "GH_TOKEN"; de_value := bs "ghp_0a" |}];
     sk_agent := {| as_root := components (bs "/home/eng/ws"); as_home := bs "/home/eng"; as_storage := components (bs "/state/containers");
                    as_uid := 1000; as_devices := [bs "/dev/kvm"]; as_cap_add := []; as_image := DEFAULT_AGENT_IMAGE; as_build := None |};
     sk_mounts := [sample_mount (bs "/home/u/ws") (bs "/home/eng/ws") false]; sk_tool_mounts := []; sk_fnox := [];
     sk_guest := []; sk_init := init; sk_ports := [3000%N]; sk_expose := [{| em_port := 80; em_host := 8080 |}]; sk_networks := [bs "net"];
     sk_extra_hosts := []; sk_passthrough := [bs "TERM"]; sk_file_mounts := [];
     sk_grants_mounts := [sample_mount (bs "/state/grants") GRANTS_STATE_DIR true]; sk_hodor_version := bs "1.0" |}.

Lemma sample_clean backend : Forall clean (stack_texts None (sample_stack backend None)).
Proof.
  assert (∀ t, bool_decide (LF ∉ t ∧ CR ∉ t ∧ Byte.x22 ∉ t) = true → clean t) as Hc by (intros t (? & ? & ?)%bool_decide_eq_true; by split).
  repeat (constructor; [apply Hc; vm_compute; reflexivity|]). constructor.
Qed.

Lemma stack_marks_roundtrip_witness :
  stack_shape_in (render None (sample_stack BkTun None)) = Some 14%N ∧ generated_backend (render None (sample_stack BkTun None)) = Some BkTun.
Proof. apply (stack_marks_roundtrip None (sample_stack BkTun None)). apply sample_clean. Defined.


(** A quoted text passes into the file as it is: an init script that quotes
    takes a tun stack for an ebpf one. *)
Example quoted_init_misread :
  generated_backend (render None (sample_stack BkTun (Some (dq "x ^--proxy-backend^, ^ebpf^")))) = Some BkEbpf.
Proof. vm_compute. reflexivity. Qed.
(** The stated gateway is on hodor's service alone, and so are the extra hosts. *)
Example extra_hosts_on_hodor :
  bs "    extra_hosts:" ∈ hodor_body None (sample_stack BkTun None) ∧ bs "    extra_hosts:" ∉ agent_body None (sample_stack BkTun None).
Proof. split; apply (bool_decide_eq_true_1 _); vm_compute; reflexivity. Qed.

(** The last grant going leaves the layer as it was: its real credentials stay
    in the state directory, no longer mounted. *)
Example removed_grants_stay can_list can_write can_remove state_dir root layer :
  sb_grants can_list can_write can_remove state_dir root layer [] = Ok (layer, []).
Proof. reflexivity. Qed.
