(* ===== verification/TomlEdit.v ===== *)
(** * Edited configuration files

    The two places that edit a TOML file in place: the mise tasks of the agent
    ([crates/hodor-compose/src/confine.rs]) and the [[workspace.expose]]
    mapping ([expose.rs]). A document is the tree of [toml_edit]; its comments
    and spacing, which the crate keeps, are not modelled, and parsing and
    printing are parameters. *)

From S2P Require Import Prelude Decoy ConnString Grants Rules Registry Secrets Config Engine Paths Adapt.

(** ** Documents *)

(** Numbers other than integers, and dates, are their text. *)
Inductive EditValue :=
| EvString (s : bytes)
| EvInteger (n : Z)
| EvOther (text : bytes)
| EvArray (items : list EditValue)
| EvInline (entries : list (bytes * EditValue)).
Inductive EditItem :=
| EiNone
| EiValue (v : EditValue)
| EiTable (entries : list (bytes * EditItem))
| EiTables (tables : list (list (bytes * EditItem))).
Abbreviation EditTable := (list (bytes * EditItem)).

Class TomlEdit := {
  te_parse : bytes → option EditTable;
  te_print : EditTable → bytes;
}.
(** What is printed parses as it was. *)
Class TomlEditLaws `{!TomlEdit} : Prop := { te_parse_print t : te_parse (te_print t) = Some t }.

Definition e_get (key : bytes) (t : EditTable) : option EditItem := snd <$> find (λ kv : bytes * EditItem, bool_decide (kv.1 = key)) t.
(** The item of a key changed where it is, or put at the end. *)
Fixpoint e_set (key : bytes) (item : EditItem) (t : EditTable) : EditTable :=
  match t with
  | [] => [(key, item)]
  | kv :: t => if bool_decide (kv.1 = key) then (key, item) :: t else kv :: e_set key item t
  end.

(** ** The agent's mise tasks *)

Section Mise.
Context (host_home : option Path) (home : bytes).

(** [Path::join] with nothing leaves a separator at the end. *)
Definition join_text (base : bytes) (rest : Path) : bytes :=
  match rest with
  | [] => if bool_decide (last base = Some Byte.x2f) then base else base ++ bs "/"
  | _ => display (path_join (components base) rest)
  end.
Definition rewrite_mise_string (value : bytes) : bytes :=
  if str_contains value (bs "://") then value
  else
    let expanded :=
      if bool_decide (value = bs "~") || starts_with value (bs "~/") then
        (λ host_home, display host_home ++ drop 1 value) <$> host_home
      else Some value in
    match expanded with
    | None => value
    | Some expanded =>
        match host_home ≫= path_strip_prefix (components expanded) with
        | Some rest => join_text home rest
        | None => value
        end
    end.
Fixpoint rewrite_mise_value (v : EditValue) : EditValue :=
  match v with
  | EvString text => EvString (rewrite_mise_string text)
  | EvArray items => EvArray (map rewrite_mise_value items)
  | EvInline entries => EvInline (map (λ kv : bytes * EditValue, (kv.1, rewrite_mise_value kv.2)) entries)
  | EvInteger _ | EvOther _ => v
  end.
Fixpoint rewrite_mise_item (i : EditItem) : EditItem :=
  match i with
  | EiNone => EiNone
  | EiValue v => EiValue (rewrite_mise_value v)
  | EiTable entries => EiTable (map (λ kv : bytes * EditItem, (kv.1, rewrite_mise_item kv.2)) entries)
  | EiTables tables => EiTables (map (map (λ kv : bytes * EditItem, (kv.1, rewrite_mise_item kv.2))) tables)
  end.
Definition rewrite_mise_toml `{!TomlEdit} (content : bytes) : option bytes :=
  document ← te_parse content;
  Some (te_print (map (λ kv : bytes * EditItem, (kv.1, rewrite_mise_item kv.2)) document)).
End Mise.

(** ** The expose mapping *)

Inductive EditError := NotToml | NotATable.
Definition mapping_table (port host : N) : EditTable :=
  [(bs "port", EiValue (EvInteger (Z.of_N port))); (bs "host", EiValue (EvInteger (Z.of_N host)))].
Definition has_integer (key : bytes) (n : N) (t : EditTable) : bool :=
  match e_get key t with Some (EiValue (EvInteger m)) => bool_decide (m = Z.of_N n) | _ => false end.
Definition same_mapping (port host : N) (t : EditTable) : bool := has_integer (bs "port") port t && has_integer (bs "host") host t.

(** [ensure_expose_entry] on the document: nothing when the mapping is there. *)
Definition insert_mapping (port host : N) (document : EditTable) : result EditError (option EditTable) :=
  let workspace := match e_get (bs "workspace") document with None | Some EiNone => EiTable [] | Some item => item end in
  match workspace with
  | EiTable workspace =>
      match default (EiTables []) (e_get (bs "expose") workspace) with
      | EiTables tables =>
          if existsb (same_mapping port host) tables then Ok None
          else Ok (Some (e_set (bs "workspace") (EiTable (e_set (bs "expose") (EiTables (tables ++ [mapping_table port host])) workspace)) document))
      | _ => Err NotATable
      end
  | _ => Err NotATable
  end.
(** On the text; a file that is not there is an empty one. *)
Definition ensure_expose_entry `{!TomlEdit} (content : option bytes) (port host : N) : result EditError (option bytes) :=
  document ← ok_or NotToml (te_parse (default [] content));
  changed ← insert_mapping port host document;
  Ok (option_map te_print changed).

(** ** Properties *)

Lemma e_get_set key item t : e_get key (e_set key item t) = Some item.
Proof.
  unfold e_get. induction t as [|[k i] t IH]; simpl; [by rewrite bool_decide_eq_true_2|]. destruct (decide (k = key)) as [-> |Hne].
  - rewrite bool_decide_eq_true_2 by done. simpl. by rewrite bool_decide_eq_true_2.
  - rewrite bool_decide_eq_false_2 by done. simpl. by rewrite bool_decide_eq_false_2.
Qed.
Lemma e_get_set_ne key key' item t : key ≠ key' → e_get key (e_set key' item t) = e_get key t.
Proof.
  intros Hne. unfold e_get. induction t as [|[k i] t IH]; simpl; [by rewrite bool_decide_eq_false_2 by congruence|].
  destruct (decide (k = key')) as [-> |Hk].
  - rewrite bool_decide_eq_true_2 by done. simpl. by rewrite bool_decide_eq_false_2 by congruence.
  - rewrite (bool_decide_eq_false_2 (k = key')) by done. simpl. case_bool_decide; [done|apply IH].
Qed.

(** The mappings a document states. *)
Definition mappings (document : EditTable) : list EditTable :=
  match e_get (bs "workspace") document with
  | Some (EiTable workspace) => match e_get (bs "expose") workspace with Some (EiTables tables) => tables | _ => [] end
  | _ => []
  end.
(** The rest of a document: its other keys, and the workspace's. *)
Definition rest_of (document : EditTable) (key sub : bytes) : option EditItem :=
  if bool_decide (key = bs "workspace") then
    match e_get key document with Some (EiTable workspace) => e_get sub workspace | _ => None end
  else e_get key document.

Lemma same_mapping_table port host : same_mapping port host (mapping_table port host) = true.
Proof. unfold same_mapping, has_integer, mapping_table, e_get. simpl. by rewrite !bool_decide_eq_true_2. Qed.

Lemma insert_mapping_spec port host document changed :
  insert_mapping port host document = Ok (Some changed) →
  mappings changed = mappings document ++ [mapping_table port host] ∧
  existsb (same_mapping port host) (mappings document) = false ∧
  ∀ key sub, (key ≠ bs "workspace" ∨ sub ≠ bs "expose") → rest_of changed key sub = rest_of document key sub.
Proof.
  unfold insert_mapping.
  set (workspace := match e_get (bs "workspace") document with None | Some EiNone => EiTable [] | Some item => item end).
  assert (∀ w, workspace = EiTable w → mappings document = match e_get (bs "expose") w with Some (EiTables tables) => tables | _ => [] end ∧
    ∀ sub, rest_of document (bs "workspace") sub = e_get sub w) as Hws.
  { intros w. unfold workspace, mappings, rest_of. rewrite (bool_decide_eq_true_2 (bs "workspace" = bs "workspace")) by done.
    destruct (e_get (bs "workspace") document) as [[]|]; intros Hw; simplify_eq; done. }
  destruct workspace as [| |w|]; try done. destruct (Hws w eq_refl) as [Hm Hr].
  destruct (default (EiTables []) (e_get (bs "expose") w)) as [| | |tables] eqn:Et; try done.
  assert (mappings document = tables) as Htables. { rewrite Hm. destruct (e_get (bs "expose") w); simpl in Et; simplify_eq; done. }
  destruct (existsb _ tables) eqn:Ex; [done|]. intros [= <-]. split_and!.
  - unfold mappings at 1. by rewrite e_get_set, e_get_set, Htables.
  - by rewrite Htables.
  - intros key sub Hks. unfold rest_of at 1. destruct (decide (key = bs "workspace")) as [-> |Hne].
    + destruct Hks as [?|Hs]; [done|]. rewrite bool_decide_eq_true_2, e_get_set, e_get_set_ne by done. by rewrite Hr.
    + unfold rest_of. by rewrite bool_decide_eq_false_2, e_get_set_ne by done.
Qed.

(** ** Documents as keys *)

Section ValueInd.
Context (P : EditValue → Prop) (Hstr : ∀ s, P (EvString s)) (Hint : ∀ n, P (EvInteger n)) (Hother : ∀ t, P (EvOther t))
  (Harr : ∀ items, Forall P items → P (EvArray items)) (Hinl : ∀ entries, Forall (λ kv, P kv.2) entries → P (EvInline entries)).
Fixpoint edit_value_ind (v : EditValue) : P v :=
  match v with
  | EvString s => Hstr s
  | EvInteger n => Hint n
  | EvOther t => Hother t
  | EvArray items =>
      Harr items ((fix go items : Forall P items := match items with [] => Forall_nil_2 _ | v :: items => Forall_cons_2 _ _ _ (edit_value_ind v) (go items) end) items)
  | EvInline entries =>
      Hinl entries ((fix go entries : Forall (λ kv, P kv.2) entries :=
        match entries with [] => Forall_nil_2 _ | kv :: entries => Forall_cons_2 _ _ _ (edit_value_ind kv.2) (go entries) end) entries)
  end.
End ValueInd.
Section ItemInd.
Context (P : EditItem → Prop) (Hnone : P EiNone) (Hval : ∀ v, P (EiValue v)) (Htab : ∀ entries, Forall (λ kv, P kv.2) entries → P (EiTable entries))
  (Htabs : ∀ tables, Forall (Forall (λ kv, P kv.2)) tables → P (EiTables tables)).
Fixpoint edit_item_ind (i : EditItem) : P i :=
  let entries_ind := fix go (entries : EditTable) : Forall (λ kv, P kv.2) entries :=
    match entries with [] => Forall_nil_2 _ | kv :: entries => Forall_cons_2 _ _ _ (edit_item_ind kv.2) (go entries) end in
  match i with
  | EiNone => Hnone
  | EiValue v => Hval v
  | EiTable entries => Htab entries (entries_ind entries)
  | EiTables tables =>
      Htabs tables ((fix go tables : Forall (Forall (λ kv, P kv.2)) tables :=
        match tables with [] => Forall_nil_2 _ | t :: tables => Forall_cons_2 _ _ _ (entries_ind t) (go tables) end) tables)
  end.
End ItemInd.

Abbreviation DocTree := (gen_tree (bytes + Z)).
(** Entries one after the other, a key before its tree. *)
Definition keyed {A} (f : A → DocTree) (entries : list (bytes * A)) : list DocTree := map (λ kv, GenNode 0 [GenLeaf (inl kv.1); f kv.2]) entries.
Definition unkeyed {A} (f : DocTree → option A) (ts : list DocTree) : option (list (bytes * A)) :=
  mapM (λ t, match t with GenNode 0 [GenLeaf (inl k); t] => a ← f t; Some (k, a) | _ => None end) ts.
Fixpoint value_tree (v : EditValue) : DocTree :=
  match v with
  | EvString s => GenNode 0 [GenLeaf (inl s)]
  | EvInteger n => GenNode 1 [GenLeaf (inr n)]
  | EvOther t => GenNode 2 [GenLeaf (inl t)]
  | EvArray items => GenNode 3 (map value_tree items)
  | EvInline entries => GenNode 4 (keyed value_tree entries)
  end.
Fixpoint tree_value (t : DocTree) : option EditValue :=
  match t with
  | GenNode 0 [GenLeaf (inl s)] => Some (EvString s)
  | GenNode 1 [GenLeaf (inr n)] => Some (EvInteger n)
  | GenNode 2 [GenLeaf (inl t)] => Some (EvOther t)
  | GenNode 3 ts => EvArray <$> mapM tree_value ts
  | GenNode 4 ts => EvInline <$> unkeyed tree_value ts
  | _ => None
  end.
Fixpoint item_tree (i : EditItem) : DocTree :=
  match i with
  | EiNone => GenNode 5 []
  | EiValue v => GenNode 6 [value_tree v]
  | EiTable entries => GenNode 7 (keyed item_tree entries)
  | EiTables tables => GenNode 8 (map (λ entries, GenNode 9 (keyed item_tree entries)) tables)
  end.
Fixpoint tree_item (t : DocTree) : option EditItem :=
  match t with
  | GenNode 5 [] => Some EiNone
  | GenNode 6 [t] => EiValue <$> tree_value t
  | GenNode 7 ts => EiTable <$> unkeyed tree_item ts
  | GenNode 8 ts => EiTables <$> mapM (λ t, match t with GenNode 9 ts => unkeyed tree_item ts | _ => None end) ts
  | _ => None
  end.
Lemma mapM_map {A B} (f : A → B) (g : B → option A) (l : list A) : Forall (λ x, g (f x) = Some x) l → mapM g (map f l) = Some l.
Proof. induction 1 as [|x l Hx _ IH]; [done|]. simpl. by rewrite Hx, IH. Qed.
Lemma unkeyed_keyed {A} (f : A → DocTree) (g : DocTree → option A) entries :
  Forall (λ kv : bytes * A, g (f kv.2) = Some kv.2) entries → unkeyed g (keyed f entries) = Some entries.
Proof. intros Hf. apply mapM_map. eapply Forall_impl; [exact Hf|]. intros [k a]. cbn. by intros ->. Qed.
Lemma tree_value_tree v : tree_value (value_tree v) = Some v.
Proof.
  induction v as [| | |items IH|entries IH] using edit_value_ind; try done; cbn [value_tree tree_value].
  - by rewrite mapM_map.
  - by rewrite unkeyed_keyed.
Qed.
Lemma tree_item_tree i : tree_item (item_tree i) = Some i.
Proof.
  induction i as [|v|entries IH|tables IH] using edit_item_ind; cbn [item_tree tree_item]; [done|by rewrite tree_value_tree|by rewrite unkeyed_keyed|].
  rewrite mapM_map; [done|]. eapply Forall_impl; [exact IH|]. intros entries He. by apply unkeyed_keyed.
Qed.
#[export] Instance edit_item_eq_dec : EqDecision EditItem.
Proof.
  intros i j. refine (cast_if (decide (item_tree i = item_tree j))); [|congruence].
  apply (inj Some). by rewrite <- !tree_item_tree, e.
Defined.
#[export] Instance edit_item_countable : Countable EditItem := inj_countable item_tree tree_item tree_item_tree.

(** A printer whose text reads back, for any countable data: the bits of its
    code. *)
Fixpoint bits_text (p : positive) : bytes :=
  match p with xH => [] | xO p => Byte.x30 :: bits_text p | xI p => Byte.x31 :: bits_text p end.
Fixpoint text_bits (t : bytes) : positive :=
  match t with [] => xH | b :: t => if bool_decide (b = Byte.x30) then xO (text_bits t) else xI (text_bits t) end.
Lemma text_bits_text p : text_bits (bits_text p) = p.
Proof. induction p as [p IH|p IH|]; simpl; [by rewrite IH|by rewrite IH|done]. Qed.
Definition coded_text `{Countable A} (a : A) : bytes := bits_text (countable.encode a).
Definition read_coded `{Countable A} (text : bytes) : option A := countable.decode (text_bits text).
Lemma read_coded_text `{Countable A} (a : A) : @read_coded A _ _ (coded_text a) = Some a.
Proof. unfold read_coded, coded_text. by rewrite text_bits_text, decode_encode. Qed.
(** An empty file is the empty document. *)
Definition coded_edit : TomlEdit := {| te_parse := read_coded; te_print := coded_text |}.
Lemma coded_edit_laws : @TomlEditLaws coded_edit.
Proof. split. intros t. apply read_coded_text. Qed.
Example coded_empty : te_parse (TomlEdit := coded_edit) [] = Some [].
Proof. vm_compute. reflexivity. Qed.
