(* ===== verification/Confine.v ===== *)
(** * The workspace lifecycle

    [crates/hodor-compose/src/confine.rs]: what [init], [up], [down], [agent]
    and [logs] do to a workspace's state directory, as commands over its state
    that may fail and leave what was done before. Loading the configuration,
    generating the stack, hashing, and what the host allows and [docker]
    answers are parameters. *)

From stdpp Require Import sorting.
From S2P Require Import Prelude Decoy ConnString Grants Rules Registry Secrets Config Engine Paths Adapt Kube Stack SshConfig Git Ambient Compose TomlEdit.

(** ** State *)

(** The files of a workspace this crate writes, the grant layer, and the
    compose commands run so far. *)
Record Ws := {
  wt_config : option bytes;
  wt_compose : option bytes;
  wt_digest : option bytes;
  wt_bypass : option bytes;
  wt_build_digest : option bytes;
  wt_ca : bool;
  wt_entrypoint : option bytes;
  wt_storage : bool;
  wt_mise_agent : option bytes;
  wt_layer : GrantState;
  wt_commands : list (list bytes);
}.
Definition with_config (c : option bytes) (s : Ws) : Ws :=
  {| wt_config := c; wt_compose := wt_compose s; wt_digest := wt_digest s; wt_bypass := wt_bypass s; wt_build_digest := wt_build_digest s;
     wt_ca := wt_ca s; wt_entrypoint := wt_entrypoint s; wt_storage := wt_storage s; wt_mise_agent := wt_mise_agent s; wt_layer := wt_layer s;
     wt_commands := wt_commands s |}.
Definition with_compose (c : bytes) (layer : GrantState) (s : Ws) : Ws :=
  {| wt_config := wt_config s; wt_compose := Some c; wt_digest := wt_digest s; wt_bypass := wt_bypass s; wt_build_digest := wt_build_digest s;
     wt_ca := wt_ca s; wt_entrypoint := wt_entrypoint s; wt_storage := wt_storage s; wt_mise_agent := wt_mise_agent s; wt_layer := layer;
     wt_commands := wt_commands s |}.
Definition with_digest (d : bytes) (s : Ws) : Ws :=
  {| wt_config := wt_config s; wt_compose := wt_compose s; wt_digest := Some d; wt_bypass := wt_bypass s; wt_build_digest := wt_build_digest s;
     wt_ca := wt_ca s; wt_entrypoint := wt_entrypoint s; wt_storage := wt_storage s; wt_mise_agent := wt_mise_agent s; wt_layer := wt_layer s;
     wt_commands := wt_commands s |}.
Definition with_build_digest (d : option bytes) (s : Ws) : Ws :=
  {| wt_config := wt_config s; wt_compose := wt_compose s; wt_digest := wt_digest s; wt_bypass := wt_bypass s; wt_build_digest := d;
     wt_ca := wt_ca s; wt_entrypoint := wt_entrypoint s; wt_storage := wt_storage s; wt_mise_agent := wt_mise_agent s; wt_layer := wt_layer s;
     wt_commands := wt_commands s |}.
(** The files the stack mounts. *)
Definition with_support (bypass : option bytes) (ca : bool) (entrypoint : option bytes) (storage : bool) (mise : option bytes) (s : Ws) : Ws :=
  {| wt_config := wt_config s; wt_compose := wt_compose s; wt_digest := wt_digest s; wt_bypass := bypass; wt_build_digest := wt_build_digest s;
     wt_ca := ca; wt_entrypoint := entrypoint; wt_storage := storage; wt_mise_agent := mise; wt_layer := wt_layer s;
     wt_commands := wt_commands s |}.
Definition with_command (argv : list bytes) (s : Ws) : Ws :=
  {| wt_config := wt_config s; wt_compose := wt_compose s; wt_digest := wt_digest s; wt_bypass := wt_bypass s; wt_build_digest := wt_build_digest s;
     wt_ca := wt_ca s; wt_entrypoint := wt_entrypoint s; wt_storage := wt_storage s; wt_mise_agent := wt_mise_agent s; wt_layer := wt_layer s;
     wt_commands := wt_commands s ++ [argv] |}.

(** A command: the state it leaves, and its result. *)
Definition Cmd (A : Type) : Type := Ws → Ws * result StackError A.
#[export] Instance cmd_ret : MRet Cmd := λ A a s, (s, Ok a).
#[export] Instance cmd_bind : MBind Cmd := λ A B f m s, match m s with (s, Ok a) => f a s | (s, Err err) => (s, Err err) end.
Definition lift {A} (r : result StackError A) : Cmd A := λ s, (s, r).
Definition fail {A} (err : StackError) : Cmd A := λ s, (s, Err err).
Definition gets {A} (f : Ws → A) : Cmd A := λ s, (s, Ok (f s)).
Definition modify (f : Ws → Ws) : Cmd () := λ s, (f s, Ok ()).
(** Whether the host lets something be done; of a write that fails, what it
    leaves: [fs::write] truncates the file before it writes, so unless the file
    could not be opened ([None]) it holds the first bytes of the new content, cut
    between two characters. *)
Inductive Outcome := Works | Fails (left_ : option nat).
(** [std::fs::write]. *)
Definition write_when (can : Outcome) (err : StackError) (content : bytes) (f : bytes → Ws → Ws) : Cmd () :=
  match can with
  | Works => modify (f content)
  | Fails None => fail err
  | Fails (Some n) => _ ← modify (f (take n content)); fail err
  end.

Definition ENTRYPOINT_SCRIPT : bytes := unlines
  [bs "#!/bin/sh";
   bs "set -e";
   bs "# The compose file mounts hodor's certificate at the system CA location, so";
   bs "# refreshing the store is the whole job. That needs root: run the agent service";
   bs "# as root, or grant it passwordless sudo (devcontainer images usually do).";
   dq "if [ ^$(id -u)^ = ^0^ ]; then";
   bs "  update-ca-certificates >/dev/null 2>&1 || true";
   bs "elif command -v sudo >/dev/null 2>&1 && sudo -n true 2>/dev/null; then";
   bs "  sudo -n update-ca-certificates >/dev/null 2>&1 || true";
   bs "else";
   dq "  echo ^hodor: run the agent as root or bake the certificate into the image^ >&2";
   dq "  echo ^hodor: https://github.com/casualjim/hodor/blob/main/docs/user/how-to/trust-the-ca.md^ >&2";
   bs "fi";
   bs "# Publish this container's podman subnets for hodor's eBPF bypass list.";
   bs "# Podman networks are created here long after hodor starts, so the loader";
   bs "# cannot know them up front: this loop rewrites the shared bypass file from";
   bs "# `podman network inspect` and hodor reloads it live. Only when the stack";
   bs "# wires the file (HODOR_EBPF_BYPASS_FILE); without podman the subshell exits";
   bs "# quietly, and a failing podman keeps the previous file. The temp-file plus";
   bs "# rename means hodor never reads a half-written list.";
   dq "if [ -n ^${HODOR_EBPF_BYPASS_FILE:-}^ ]; then";
   bs "  (";
   bs "    set +e";
   bs "    while true; do";
   bs "      if names=$(podman network ls --format '{{.Name}}' 2>/dev/null); then";
   dq "        if [ -z ^$names^ ]; then";
   dq "          : > ^${HODOR_EBPF_BYPASS_FILE}.tmp^ && mv ^${HODOR_EBPF_BYPASS_FILE}.tmp^ ^$HODOR_EBPF_BYPASS_FILE^";
   dq "        elif out=$(printf '%s\n' ^$names^ | xargs -r podman network inspect --format '{{range .Subnets}}{{.Subnet}}{{^\n^}}{{end}}' 2>/dev/null); then";
   dq "          printf '%s\n' ^$out^ | grep -E '" ++ bs "^" ++ dq "[0-9]+\.[0-9]+\.[0-9]+\.[0-9]+/[0-9]+$' | sort -u > ^${HODOR_EBPF_BYPASS_FILE}.tmp^ \";
   dq "            && mv ^${HODOR_EBPF_BYPASS_FILE}.tmp^ ^$HODOR_EBPF_BYPASS_FILE^";
   bs "        fi";
   bs "      fi";
   bs "      sleep 10";
   bs "    done";
   bs "  ) >/dev/null 2>&1 &";
   bs "fi";
   bs "# Hand over to the image's own init when there is one, so the container's real";
   bs "# startup (service supervisors, sockets, whatever the image ships) still runs:";
   bs "# HODOR_INIT names it for images without a common name, the usual entrypoint";
   bs "# script names are tried next, and with none of them the command runs directly.";
   dq "if [ -n ^${HODOR_INIT:-}^ ] && [ -x ^$HODOR_INIT^ ]; then";
   dq "  exec ^$HODOR_INIT^ ^$@^";
   bs "fi";
   bs "for init in /usr/local/bin/docker-entrypoint.sh /docker-entrypoint.sh /usr/local/bin/entrypoint.sh /entrypoint.sh; do";
   dq "  if [ -x ^$init^ ]; then";
   dq "    exec ^$init^ ^$@^";
   bs "  fi";
   bs "done";
   dq "exec ^$@^"].

Definition BYPASS_FILE_SKELETON : bytes := unlines
  [bs "# Hodor eBPF bypass CIDRs, one per line.";
   bs "# The agent entrypoint rewrites this file from `podman network inspect`;";
   bs "# hodor reloads it live. Blank lines and `#` comments are ignored."].

(** ** Digests *)

(** What is fed to the hasher. *)
Inductive HashItem := HBytes (b : bytes) | HAbsent | HPath (p : Path) | HLen (n : N) | HTime (t : option N).
Definition hash_file (path : Path) (content : option bytes) : list HashItem :=
  [match content with Some b => HBytes b | None => HAbsent end; HPath path].
Definition hash_rules_dir (dir : Path) (files : list (Path * option bytes)) : list HashItem :=
  match files with
  | [] => [HAbsent; HPath dir]
  | _ => flat_map (λ f : Path * option bytes, hash_file f.1 f.2) files
  end.
(** A build context, each directory in name order; a file has its length and
    modification time when they can be read. *)
Inductive TreeEntry := TeFile (relative : Path) (meta : option (N * option N)) | TeDir (entries : list TreeEntry).
Fixpoint hash_tree (t : TreeEntry) : list HashItem :=
  match t with
  | TeFile relative (Some (len, modified)) => [HPath relative; HLen len; HTime modified]
  | TeFile relative None => [HPath relative; HAbsent]
  | TeDir entries => flat_map hash_tree entries
  end.

(** The configuration files of the host: the global one, the legacy one of the
    workspace, and both trees of overrides in name order. *)
Record ConfigFiles := {
  cf_global : option (Path * option bytes);
  cf_workspace_path : Path;
  cf_legacy : Path * option bytes;
  cf_global_rules : option (Path * list (Path * option bytes));
  cf_project_rules : Path * list (Path * option bytes);
}.

(** ** The commands *)

(** What the host has, and allows to be made or written. *)
Inductive Target := TgtConfigDir | TgtStateDir | TgtBypass | TgtEntrypoint | TgtMode | TgtStorage | TgtMise | TgtCompose | TgtDigest | TgtBuildDigest | TgtBuildRemoval.
(** The tasks of a workspace that uses mise. *)
Record MiseFiles := { mi_toml : bool; mi_local : bool; mi_local_text : option bytes }.

(** What a compose command's exit means; [None] is a process that did not
    start. *)
Definition success (status : N) : bool := (status =? 0)%N.
(** An interrupt is what the user asked for. *)
Definition success_or_interrupt (status : N) : bool := (status =? 0)%N || (status =? 130)%N.
Definition exit_result (ok : N → bool) (exit : option N) : result StackError () :=
  match exit with
  | None => Err SpawnCompose
  | Some status => if ok status then Ok () else Err (ComposeFailed status)
  end.

Section Commands.
Context `{!TomlEdit, !Digests, !UrlCrate, !TomlRegistry}.
Context (root : Path) (host_home : option Path) (uid : N) (linux : bool) (can : Target → Outcome) (ca_ok : bool).
Context (load_config : option bytes → result StackError AppConfig).
Context (registry : result StackError Registry) (fnox : result StackError (option FnoxSource)).
(** [generate_stack], with the grant layer it leaves, on success and failure. *)
Context (generate : AppConfig → ProxyBackend → GrantState → GrantState * result StackError bytes).
Context (hasher : list HashItem → N) (files : ConfigFiles) (dockerfile : WorkspaceBuild → Path * option bytes) (context : WorkspaceBuild → TreeEntry).
Context (mise : MiseFiles) (global_compose workspace_compose : bool) (compose_exit : list (list bytes) → list bytes → option N).

Definition resolve_backend (backend : option ProxyBackend) : result StackError ProxyBackend :=
  if negb linux then Err LinuxOnly
  else match backend with
       | None => Ok BkEbpf
       | Some BkNone => Err BackendNone
       | Some backend => Ok backend
       end.

(** [write_entrypoint]: whether it was made now. *)
Definition write_entrypoint : Cmd bool :=
  existing ← gets wt_entrypoint;
  if bool_decide (existing = Some ENTRYPOINT_SCRIPT) then mret false
  else
    _ ← write_when (can TgtEntrypoint) (StWriteFile (path_join root [Normal (bs "agent-entrypoint.sh")])) ENTRYPOINT_SCRIPT
          (λ text s, with_support (wt_bypass s) (wt_ca s) (Some text) (wt_storage s) (wt_mise_agent s) s);
    if can TgtMode then mret (negb (bool_of_opt existing)) else fail (StChmodFile (path_join root [Normal (bs "agent-entrypoint.sh")])).
(** [ensure_support_files]: the CA and the storage only warn. *)
Definition ensure_support_files : Cmd () :=
  _ ← (if ca_ok then modify (λ s, with_support (wt_bypass s) true (wt_entrypoint s) (wt_storage s) (wt_mise_agent s) s) else mret ());
  _ ← write_entrypoint;
  if can TgtStorage then modify (λ s, with_support (wt_bypass s) (wt_ca s) (wt_entrypoint s) true (wt_mise_agent s) s) else mret ().
(** Both live below the hodor configuration directory. *)
Definition prepare_support_files : Cmd () :=
  _ ← (if can TgtConfigDir then mret () else fail StConfigDir); ensure_support_files.
Definition ensure_bypass_file : Cmd bool :=
  existing ← gets wt_bypass;
  if bool_of_opt existing then mret false
  else
    _ ← write_when (can TgtBypass) (StWriteFile (path_join root [Normal (bs "ebpf-bypass")])) BYPASS_FILE_SKELETON
          (λ text s, with_support (Some text) (wt_ca s) (wt_entrypoint s) (wt_storage s) (wt_mise_agent s) s);
    mret true.
Definition ensure_mise_agent (home : bytes) : Cmd bool :=
  existing ← gets wt_mise_agent;
  if negb (mi_toml mise) || negb (mi_local mise) || bool_of_opt existing then mret false
  else
    content ← lift (ok_or (StReadFile (path_join root [Normal (bs "mise.local.toml")])) (mi_local_text mise));
    rewritten ← lift (ok_or MiseParse (rewrite_mise_toml host_home home content));
    _ ← write_when (can TgtMise) (StWriteFile (path_join root [Normal (bs "mise.agent.toml")])) rewritten
          (λ text s, with_support (wt_bypass s) (wt_ca s) (wt_entrypoint s) (wt_storage s) (Some text) s);
    mret true.

Definition rules_warning (rules : list (bytes * RuleCfg)) (derivable : list bytes) : option bytes :=
  match rules, derivable with
  | [], [] => Some (bs "warning: no [rules.*] in play and nothing derives from fnox through the registry, " ++
                    bs "so nothing will be substituted and every credential the agent holds stays a decoy; " ++
                    bs "`hodor rules` lists what fnox and the registry cover")
  | _, _ => None
  end.

Definition digest_items (config : option bytes) : list HashItem :=
  flat_map (λ f : Path * option bytes, hash_file f.1 f.2) (option_list (cf_global files) ++ [(cf_workspace_path files, config); cf_legacy files]) ++
  flat_map (λ d : Path * list (Path * option bytes), hash_rules_dir d.1 d.2) (option_list (cf_global_rules files) ++ [cf_project_rules files]).
Definition config_digest (s : Ws) : N := hasher (digest_items (wt_config s)).

(** The shape of the stack is looked at first. *)
Definition stack_is_stale (s : Ws) : bool :=
  match wt_compose s with Some body => negb (bool_decide (stack_shape_in body = Some STACK_SHAPE)) | None => false end ||
  match wt_digest s with Some stored => negb (bool_decide (trim stored = dec (config_digest s))) | None => true end.

(** The backend a regeneration uses. *)
Definition kept_backend (backend : ProxyBackend) (explicit_backend : bool) (existing : option bytes) : ProxyBackend :=
  if explicit_backend then backend else default backend (existing ≫= generated_backend).
Definition regenerate (config : AppConfig) (backend : ProxyBackend) : Cmd () :=
  layer ← gets wt_layer;
  let '(layer, text) := generate config backend layer in
  _ ← modify (λ s, {| wt_config := wt_config s; wt_compose := wt_compose s; wt_digest := wt_digest s; wt_bypass := wt_bypass s;
                      wt_build_digest := wt_build_digest s; wt_ca := wt_ca s; wt_entrypoint := wt_entrypoint s; wt_storage := wt_storage s;
                      wt_mise_agent := wt_mise_agent s; wt_layer := layer; wt_commands := wt_commands s |});
  text ← lift text;
  _ ← write_when (can TgtCompose) (StWriteFile (path_join root [Normal (bs "compose.yml")])) text (λ text s, with_compose text (wt_layer s) s);
  digest ← gets config_digest;
  write_when (can TgtDigest) (StWriteFile (path_join root [Normal (bs "config.digest")])) (dec digest) with_digest.
Definition init_workspace (backend : ProxyBackend) (explicit_backend : bool) : Cmd () :=
  _ ← (if can TgtStateDir then mret () else fail (StCreateDir root));
  _ ← (if is_ebpf backend then ensure_bypass_file else mret false);
  text ← gets wt_config;
  config ← lift (load_config text);
  _ ← lift registry;
  _ ← lift fnox;
  _ ← prepare_support_files;
  _ ← match ws_home (ac_workspace config) with Some home => ensure_mise_agent home | None => mret false end;
  existing ← gets wt_compose;
  stale ← gets stack_is_stale;
  if bool_of_opt existing && negb stale then mret ()
  else regenerate config (kept_backend backend explicit_backend existing).

(** ** Docker compose *)

Definition compose_command : Cmd () :=
  compose ← gets wt_compose;
  if global_compose || bool_of_opt compose || workspace_compose then mret () else fail (NoComposeLayers root).
Definition compose_run (ok : N → bool) (argv : list bytes) : Cmd () :=
  _ ← compose_command;
  before ← gets wt_commands;
  _ ← modify (with_command argv);
  lift (exit_result ok (compose_exit before argv)).
Definition compose_status : list bytes → Cmd () := compose_run success.
Definition compose_status_interruptible : list bytes → Cmd () := compose_run success_or_interrupt.

Definition up_argv (will_build : bool) : list bytes := [bs "up"; bs "-d"] ++ when will_build [bs "--build"].
Definition build_items (build : WorkspaceBuild) : list HashItem :=
  hash_file (dockerfile build).1 (dockerfile build).2 ++ hash_tree (context build).
Definition build_digest (build : WorkspaceBuild) : N := hasher (build_items build).
Definition workspace_build : Cmd (option WorkspaceBuild) :=
  text ← gets wt_config; config ← lift (load_config text); mret (ws_build (ac_workspace config)).
Definition should_build (is_forced : bool) : Cmd bool :=
  build ← workspace_build;
  match build with
  | None => if is_forced then fail BuildNotConfigured else mret false
  | Some build =>
      if is_forced then mret true
      else stored ← gets wt_build_digest; mret (negb (bool_decide (trim (default [] stored) = dec (build_digest build))))
  end.
Definition record_build_digest (was_built : bool) : Cmd () :=
  build ← workspace_build;
  let file := path_join root [Normal (bs "build.digest")] in
  match build with
  | Some build =>
      if was_built then write_when (can TgtBuildDigest) (StWriteFile file) (dec (build_digest build)) (λ text, with_build_digest (Some text)) else mret ()
  | None =>
      stored ← gets wt_build_digest;
      if bool_of_opt stored then (if can TgtBuildRemoval then modify (with_build_digest None) else fail (StRemoveFile file)) else mret ()
  end.
Definition up_workspace (is_forced : bool) : Cmd () :=
  _ ← prepare_support_files;
  compose ← gets wt_compose;
  _ ← (if bool_decide (compose ≫= generated_backend = Some BkEbpf) then ensure_bypass_file else mret false);
  will_build ← should_build is_forced;
  _ ← compose_status (up_argv will_build);
  record_build_digest will_build.
Definition down_workspace : Cmd () := compose_status [bs "down"].

Record LogsArgs := { lg_follow : bool; lg_no_log_prefix : bool; lg_tail : bytes; lg_services : list bytes }.
Definition logs_argv (args : LogsArgs) : list bytes :=
  [bs "logs"] ++ when (lg_follow args) [bs "--follow"] ++ when (lg_no_log_prefix args) [bs "--no-log-prefix"] ++
  [bs "--tail"; lg_tail args] ++ lg_services args.
Definition logs_workspace (args : LogsArgs) : Cmd () := compose_status_interruptible (logs_argv args).

Definition exec_argv (config : AppConfig) (command : list bytes) : list bytes :=
  let home := container_home (ac_workspace config) in
  let argv := match command with [] => [default (bs "sh") (ws_shell (ac_workspace config))] | _ => command end in
  [bs "exec"; bs "-i"; bs "--workdir"; display (translate root host_home home); bs "--user"; dec uid; bs "agent"] ++ argv.
Definition exec_agent (command : list bytes) : Cmd () :=
  text ← gets wt_config;
  config ← lift (load_config text);
  compose_status_interruptible (exec_argv config command).

(** ** The subcommands, of a root that resolves *)

Definition init_run (backend : option ProxyBackend) : Cmd () :=
  resolved ← lift (resolve_backend backend); init_workspace resolved (bool_of_opt backend).
(** With [rm] the stack is stopped whatever the session's result, which is
    reported first. *)
Definition agent_run (rm build : bool) (command : list bytes) : Cmd () :=
  backend ← lift (resolve_backend None);
  _ ← init_workspace backend false;
  _ ← up_workspace build;
  if negb rm then exec_agent command
  else λ s,
    let '(s, exec) := exec_agent command s in
    let '(s, down) := down_workspace s in
    (s, _ ← exec; down).
End Commands.

(** ** Reasoning about commands *)

(** What a command run from [s] ends in. *)
Definition ends {A} (c : Cmd A) (s : Ws) (Q : Ws → result StackError A → Prop) : Prop := Q (c s).1 (c s).2.
Lemma ends_bind {A B} (m : Cmd A) (f : A → Cmd B) s Q :
  ends m s (λ s r, match r with Ok a => ends (f a) s Q | Err err => Q s (Err err) end) → ends (m ≫= f) s Q.
Proof. unfold ends, mbind, cmd_bind. by destruct (m s) as [? []]. Qed.
Lemma ends_mono {A} (c : Cmd A) s (Q R : Ws → result StackError A → Prop) : ends c s Q → (∀ s r, Q s r → R s r) → ends c s R.
Proof. unfold ends. eauto. Qed.
(** A command known by what it ends in, run before another. *)
Lemma ends_seq {A B} (m : Cmd A) (f : A → Cmd B) s P Q :
  ends m s P → (∀ s a, P s (Ok a) → ends (f a) s Q) → (∀ s err, P s (Err err) → Q s (Err err)) → ends (m ≫= f) s Q.
Proof. intros Hm Hok Herr. apply ends_bind. eapply ends_mono; [exact Hm|]. intros s' [a|err]; eauto. Qed.
Lemma bind_step {A B} (m : Cmd A) (f : A → Cmd B) s s1 a : m s = (s1, Ok a) → (m ≫= f) s = f a s1.
Proof. unfold mbind, cmd_bind. by intros ->. Qed.

(** What preparing leaves alone: everything but the files the stack mounts,
    of which the agent's own are not overwritten. *)
Record undisturbed (s s' : Ws) : Prop := {
  ud_config : wt_config s' = wt_config s;
  ud_compose : wt_compose s' = wt_compose s;
  ud_digest : wt_digest s' = wt_digest s;
  ud_build_digest : wt_build_digest s' = wt_build_digest s;
  ud_layer : wt_layer s' = wt_layer s;
  ud_commands : wt_commands s' = wt_commands s;
  ud_bypass text : wt_bypass s = Some text → wt_bypass s' = Some text;
  ud_mise text : wt_mise_agent s = Some text → wt_mise_agent s' = Some text;
  ud_entrypoint : wt_entrypoint s = Some ENTRYPOINT_SCRIPT → wt_entrypoint s' = Some ENTRYPOINT_SCRIPT;
  ud_ca : wt_ca s = true → wt_ca s' = true;
  ud_storage : wt_storage s = true → wt_storage s' = true;
}.
#[export] Instance undisturbed_pre : PreOrder undisturbed.
Proof. split; [by split|]. intros s s' s'' [] []. split; solve [congruence | naive_solver]. Qed.

Section Frames.
Context `{!TomlEdit, !Digests, !UrlCrate, !TomlRegistry}.
Context (root : Path) (host_home : option Path) (can : Target → Outcome) (ca_ok : bool) (mise : MiseFiles).

(** A command that only prepares. *)
Definition prepares {A} (c : Cmd A) : Prop := ∀ s, ends c s (λ s' _, undisturbed s s').
Lemma prepares_bind {A B} (m : Cmd A) (f : A → Cmd B) : prepares m → (∀ a, prepares (f a)) → prepares (m ≫= f).
Proof.
  intros Hm Hf s. eapply ends_seq; [apply Hm| |done]. intros s1 a Hs. eapply ends_mono; [apply Hf|]. intros s2 r Hs2. by transitivity s1.
Qed.
Lemma prepares_ret {A} (a : A) : prepares (mret a). Proof. intros s. unfold ends. simpl. reflexivity. Qed.
Lemma prepares_lift {A} (r : result StackError A) : prepares (lift r). Proof. intros s. unfold ends. simpl. reflexivity. Qed.
Lemma prepares_gets {A} (f : Ws → A) : prepares (gets f). Proof. intros s. unfold ends. simpl. reflexivity. Qed.
Lemma prepares_fail {A} err : prepares (@fail A err). Proof. intros s. unfold ends. simpl. reflexivity. Qed.
Hint Resolve prepares_ret prepares_lift prepares_gets prepares_fail : core.

(** A write that goes through, or leaves its file cut or as it was. *)
Lemma write_ends o err content f s (Q : Ws → result StackError () → Prop) :
  Q (f content s) (Ok ()) → Q s (Err err) → (∀ n, Q (f (take n content) s) (Err err)) → ends (write_when o err content f) s Q.
Proof. intros Hw Hn Hc. unfold ends, write_when. destruct o as [|[n|]]; [exact Hw|exact (Hc n)|exact Hn]. Qed.
Lemma entrypoint_ends s : ends (write_entrypoint root can) s (λ s' r, undisturbed s s' ∧ (∀ b, r = Ok b → wt_entrypoint s' = Some ENTRYPOINT_SCRIPT)).
Proof.
  unfold write_entrypoint. apply ends_bind. unfold ends at 1. cbn [gets fst snd]. case_bool_decide as He; [by split|].
  apply ends_bind. apply write_ends; [|by split|intros n; split; [by split|done]].
  destruct (can TgtMode); cbn [ends mret cmd_ret fail fst snd]; (split; [by split|done]).
Qed.
Lemma prepares_entrypoint : prepares (write_entrypoint root can).
Proof. intros s. eapply ends_mono; [apply entrypoint_ends|]. by intros ?? [? _]. Qed.
Lemma prepares_support : prepares (prepare_support_files root can ca_ok).
Proof.
  apply prepares_bind; [by destruct (can TgtConfigDir)|intros _]. apply prepares_bind; [|intros _; apply prepares_bind; [apply prepares_entrypoint|intros _]].
  - destruct ca_ok; [|done]. intros s. by split.
  - destruct (can TgtStorage); [|done]. intros s. by split.
Qed.
(** The file the agent writes is made when it is not there. *)
Lemma ensure_bypass_ends s : ends (ensure_bypass_file root can) s (λ s' r, undisturbed s s' ∧ (∀ b, r = Ok b → is_Some (wt_bypass s'))).
Proof.
  unfold ensure_bypass_file. apply ends_bind. unfold ends at 1. cbn [gets fst snd].
  destruct (wt_bypass s) as [text|] eqn:E; cbn [bool_of_opt]; [split; [reflexivity|by eexists]|].
  apply ends_bind. apply write_ends; [split; [|by intros; eexists]|by split|intros n; split; [|done]];
    (split; try done; intros text Ht; by rewrite E in Ht).
Qed.
Lemma prepares_bypass : prepares (ensure_bypass_file root can).
Proof. intros s. eapply ends_mono; [apply ensure_bypass_ends|]. by intros ?? [? _]. Qed.
Lemma mise_ends home s :
  ends (ensure_mise_agent root host_home can mise home) s (λ s' r,
    undisturbed s s' ∧ (∀ b, r = Ok b → negb (mi_toml mise) || negb (mi_local mise) || bool_of_opt (wt_mise_agent s') = true)).
Proof.
  unfold ensure_mise_agent. apply ends_bind. unfold ends at 1. cbn [gets fst snd].
  destruct (negb (mi_toml mise) || negb (mi_local mise) || bool_of_opt (wt_mise_agent s)) eqn:E; [by split|].
  apply orb_false_iff in E as [_ E].
  apply ends_bind. unfold ends at 1, lift at 1. cbn [fst snd]. destruct (ok_or _ (mi_local_text mise)) as [content|]; [|by split].
  apply ends_bind. unfold ends at 1, lift at 1. cbn [fst snd]. destruct (ok_or MiseParse _) as [text|]; [|by split].
  apply ends_bind. apply write_ends; [split; [|by intros; simpl; rewrite orb_true_r]|by split|intros n; split; [|done]];
    (split; try done; intros t Ht; by rewrite Ht in E).
Qed.
End Frames.

Section Support.
Context (root : Path) (can : Target → Outcome) (ca_ok : bool).

(** What the stack mounts is there, as far as it can be made. *)
Definition prepared (s : Ws) : Prop :=
  can TgtConfigDir = Works ∧ (ca_ok = true → wt_ca s = true) ∧ wt_entrypoint s = Some ENTRYPOINT_SCRIPT ∧ (can TgtStorage = Works → wt_storage s = true).
Lemma prepared_undisturbed s s' : prepared s → undisturbed s s' → prepared s'.
Proof. intros (Hd & Hca & He & Hst) []. split_and!; auto. Qed.

Lemma support_ends s : ends (prepare_support_files root can ca_ok) s (λ s' r, undisturbed s s' ∧ (r = Ok () → prepared s')).
Proof.
  unfold prepare_support_files. apply ends_bind. destruct (can TgtConfigDir) eqn:Edir; unfold ends at 1; cbn [mret cmd_ret fail fst snd]; [|by split].
  unfold ensure_support_files.
  assert (ends (if ca_ok then modify (λ s, with_support (wt_bypass s) true (wt_entrypoint s) (wt_storage s) (wt_mise_agent s) s) else mret ()) s
    (λ s' r, (undisturbed s s' ∧ (ca_ok = true → wt_ca s' = true)) ∧ r = Ok ())) as Hca by (destruct ca_ok; (split; [|done]); by split; [split|]).
  eapply ends_seq; [exact Hca| |by intros ? ? [_ ?]]. intros s1 [] [[Hs1 Hc1] _].
  eapply ends_seq; [apply entrypoint_ends| |]; [|intros s2 err [Hs2 _]; split; [by transitivity s1|done]].
  intros s2 b [Hs2 He2]. specialize (He2 b eq_refl). pose proof (ud_ca _ _ Hs2) as Hca2.
  assert (undisturbed s s2) as Hs by (by transitivity s1). unfold ends.
  destruct (can TgtStorage) eqn:Est; cbn [modify mret cmd_ret fst snd]; (split; [|intros _]).
  - transitivity s2; [done|by split].
  - split_and!; auto.
  - done.
  - split_and!; [done|auto|done|]. by rewrite Est.
Qed.
(** Nothing is written when it is there. *)
Lemma support_prepared s : prepared s → prepare_support_files root can ca_ok s = (s, Ok ()).
Proof.
  intros (Hd & Hca & He & Hst). unfold prepare_support_files. rewrite Hd, (bind_step _ _ s s ()) by done. unfold ensure_support_files. rewrite (bind_step _ _ s s ()).
  - rewrite (bind_step _ _ s s false); [|by unfold write_entrypoint, mbind, cmd_bind, gets; rewrite bool_decide_eq_true_2].
    destruct (can TgtStorage); [|done]. unfold modify, with_support. rewrite <- (Hst eq_refl). by destruct s.
  - destruct ca_ok; [|done]. unfold modify, with_support. rewrite <- (Hca eq_refl). by destruct s.
Qed.
End Support.

Class GeneratorMarks (generate : AppConfig → ProxyBackend → GrantState → GrantState * result StackError bytes) : Prop :=
  generator_marks config backend layer layer' text :
    backend ≠ BkNone → generate config backend layer = (layer', Ok text) →
    stack_shape_in text = Some STACK_SHAPE ∧ generated_backend text = Some backend.

Section Init.
Context `{!TomlEdit} (root : Path) (host_home : option Path) (can : Target → Outcome) (ca_ok : bool).
Context (load_config : option bytes → result StackError AppConfig).
Context (registry : result StackError Registry) (fnox : result StackError (option FnoxSource)).
Context (generate : AppConfig → ProxyBackend → GrantState → GrantState * result StackError bytes).
Context (hasher : list HashItem → N) (files : ConfigFiles) (mise : MiseFiles).
Local Abbreviation init := (init_workspace root host_home can ca_ok load_config registry fnox generate hasher files mise).

(** The stack on disk is one of the current configuration and shape. *)
Definition stack_current (s : Ws) : bool := bool_of_opt (wt_compose s) && negb (stack_is_stale hasher files s).
(** The stack of this run: what the generator makes for the loaded
    configuration and the kept backend over the grant layer there. *)
Definition regenerated (backend : ProxyBackend) (explicit_backend : bool) (s s' : Ws) (text : bytes) : Prop :=
  ∃ config, load_config (wt_config s) = Ok config ∧
    generate config (kept_backend backend explicit_backend (wt_compose s)) (wt_layer s) = (wt_layer s', Ok text).

(** What a run changes, whatever its result. *)
Record init_frame (s s' : Ws) : Prop := {
  if_config : wt_config s' = wt_config s;
  if_build_digest : wt_build_digest s' = wt_build_digest s;
  if_commands : wt_commands s' = wt_commands s;
  if_bypass text : wt_bypass s = Some text → wt_bypass s' = Some text;
  if_mise text : wt_mise_agent s = Some text → wt_mise_agent s' = Some text;
}.

(** What a regeneration that fails while it writes leaves of the new stack: its
    first bytes beside the old digest, or all of it beside the old digest or the
    first bytes of the new one. *)
Definition half_written (s s' : Ws) (text : bytes) : Prop :=
  (∃ n, wt_compose s' = Some (take n text) ∧ wt_digest s' = wt_digest s) ∨
  wt_compose s' = Some text ∧ (wt_digest s' = wt_digest s ∨ ∃ n, wt_digest s' = Some (take n (dec (config_digest hasher files s)))).

Lemma regenerate_ends backend config s :
  ends (regenerate root can generate hasher files config backend) s (λ s' r,
    ∃ layer text, generate config backend (wt_layer s) = (layer, text) ∧ wt_layer s' = layer ∧
    init_frame s s' ∧ wt_entrypoint s' = wt_entrypoint s ∧ wt_bypass s' = wt_bypass s ∧ wt_mise_agent s' = wt_mise_agent s ∧
    wt_ca s' = wt_ca s ∧ wt_storage s' = wt_storage s ∧
    match r with
    | Ok _ => ∃ t, text = Ok t ∧ wt_compose s' = Some t ∧ wt_digest s' = Some (dec (config_digest hasher files s))
    | Err _ => (wt_compose s' = wt_compose s ∧ wt_digest s' = wt_digest s) ∨ ∃ t, text = Ok t ∧ half_written s s' t
    end).
Proof.
  unfold regenerate. apply ends_bind. unfold ends at 1. cbn [gets fst snd]. destruct (generate config backend (wt_layer s)) as [layer text] eqn:Eg.
  apply ends_bind. unfold ends at 1. cbn [modify fst snd]. apply ends_bind. unfold ends at 1, lift at 1. cbn [fst snd].
  destruct text as [t|err]; [|exists layer, (Err err); split_and!; auto; by split].
  apply ends_bind. apply write_ends.
  - apply ends_bind. unfold ends at 1. cbn [gets fst snd]. apply write_ends; [| |intros n];
      exists layer, (Ok t); (split_and!; try done); [by exists t|right; exists t..]; (split; [done|]); right; (split; [done|]).
    + by left.
    + right. by exists n.
  - exists layer, (Ok t). split_and!; try done. by left.
  - intros n. exists layer, (Ok t). split_and!; try done. right. exists t. split; [done|]. left. by exists n.
Qed.

Lemma init_ends backend explicit_backend s :
  ends (init backend explicit_backend) s (λ s' r,
    init_frame s s' ∧
    match r with
    | Ok _ =>
        prepared can ca_ok s' ∧ (is_ebpf backend = true → is_Some (wt_bypass s')) ∧
        (∃ config, load_config (wt_config s) = Ok config ∧ ∀ home, ws_home (ac_workspace config) = Some home →
           negb (mi_toml mise) || negb (mi_local mise) || bool_of_opt (wt_mise_agent s') = true) ∧
        is_ok registry = true ∧ is_ok fnox = true ∧ can TgtStateDir = Works ∧
        if stack_current s then wt_compose s' = wt_compose s ∧ wt_digest s' = wt_digest s ∧ wt_layer s' = wt_layer s
        else ∃ text, regenerated backend explicit_backend s s' text ∧ wt_compose s' = Some text ∧ wt_digest s' = Some (dec (config_digest hasher files s))
    | Err _ =>
        (wt_compose s' = wt_compose s ∧ wt_digest s' = wt_digest s) ∨
        stack_current s = false ∧ ∃ text, regenerated backend explicit_backend s s' text ∧ half_written s s' text
    end).
Proof.
  assert (∀ s', undisturbed s s' → init_frame s s' ∧ ((wt_compose s' = wt_compose s ∧ wt_digest s' = wt_digest s) ∨
    stack_current s = false ∧ ∃ text, regenerated backend explicit_backend s s' text ∧ half_written s s' text)) as Hearly.
  { intros s' []. split; [by split|by left]. }
  unfold init_workspace. destruct (can TgtStateDir) eqn:Edir.
  2: { apply ends_bind. unfold ends, fail. cbn [fst snd]. by apply Hearly. }
  apply ends_bind. unfold ends at 1. cbn [mret cmd_ret fst snd].
  eapply (ends_seq _ _ _ (λ s' r, undisturbed s s' ∧ (∀ b, r = Ok b → is_ebpf backend = true → is_Some (wt_bypass s')))).
  { destruct (is_ebpf backend); [|by split]. eapply ends_mono; [apply ensure_bypass_ends|]. intros s' r [? Hb]. split; eauto. }
  2: { intros s' err [? _]. by apply Hearly. }
  intros s1 b [Hs1 Hb]. specialize (Hb b eq_refl). apply ends_bind. unfold ends at 1. cbn [gets fst snd].
  rewrite (ud_config _ _ Hs1). apply ends_bind. unfold ends at 1, lift. cbn [fst snd].
  destruct (load_config (wt_config s)) as [config|err] eqn:El; [|by apply Hearly].
  apply ends_bind. unfold ends at 1. cbn [fst snd]. destruct registry as [reg|err]; [|by apply Hearly].
  apply ends_bind. unfold ends at 1. cbn [fst snd]. destruct fnox as [fx|err]; [|by apply Hearly].
  eapply ends_seq; [apply support_ends| |]; [|intros s2 err [Hs2 _]; apply Hearly; by transitivity s1].
  intros s2 [] [Hs2 Hp2]. specialize (Hp2 eq_refl).
  eapply (ends_seq _ _ _ (λ s' r, undisturbed s2 s' ∧ (∀ b, r = Ok b → ∀ home, ws_home (ac_workspace config) = Some home →
    negb (mi_toml mise) || negb (mi_local mise) || bool_of_opt (wt_mise_agent s') = true))).
  { destruct (ws_home (ac_workspace config)) as [home|]; [|by split].
    eapply ends_mono; [apply mise_ends|]. intros s' r [? Hm]. split; [done|]. intros b' Hr home' [= <-]. by eapply Hm. }
  2: { intros s3 err [Hs3 _]. apply Hearly. transitivity s2; [by transitivity s1|done]. }
  intros s3 b3 [Hs3 Hm3]. assert (undisturbed s s3) as Hu by (transitivity s2; [by transitivity s1|done]).
  apply ends_bind. unfold ends at 1. cbn [gets fst snd]. apply ends_bind. unfold ends at 1. cbn [gets fst snd].
  assert (stack_is_stale hasher files s3 = stack_is_stale hasher files s) as Hst.
  { unfold stack_is_stale, config_digest. by rewrite (ud_compose _ _ Hu), (ud_digest _ _ Hu), (ud_config _ _ Hu). }
  rewrite Hst, (ud_compose _ _ Hu). fold (stack_current s).
  assert (is_ebpf backend = true → is_Some (wt_bypass s3)) as Hb3.
  { intros He. destruct (Hb He) as [text Ht]. exists text. by apply (ud_bypass _ _ Hs3), (ud_bypass _ _ Hs2). }
  assert (prepared can ca_ok s3) as Hp3 by (by eapply prepared_undisturbed).
  destruct (stack_current s) eqn:Ec.
  { unfold ends. cbn [mret cmd_ret fst snd]. split_and!; try done; try apply Hu; [by split; apply Hu|exists config; eauto]. }
  eapply ends_mono; [apply regenerate_ends|]. intros s4 r (layer & text & Hg & Hl & Hf & He & Hby & Hmi & Hca & Hsto & Hr).
  assert (init_frame s s4) as Hf4. { destruct Hu, Hf. split; solve [congruence|naive_solver]. }
  rewrite (ud_layer _ _ Hu) in Hg. split; [done|]. destruct r as [[]|err].
  - destruct Hr as (t & -> & Hct & Hdt). split_and!; try done; [|by rewrite Hby|exists config; by rewrite Hmi; eauto|].
    + destruct Hp3 as (? & ? & ? & ?). split_and!; by rewrite ?Hca, ?He, ?Hsto.
    + exists t. split_and!; [|done|].
      * exists config. by rewrite Hl.
      * rewrite Hdt. unfold config_digest. by rewrite (ud_config _ _ Hu).
  - destruct Hr as [[Hc Hd]|(t & -> & Ht)]; [left; by rewrite Hc, Hd, (ud_compose _ _ Hu), (ud_digest _ _ Hu)|].
    right. split; [done|]. exists t. split; [exists config; by rewrite Hl|]. revert Ht. unfold half_written, config_digest.
    by rewrite (ud_digest _ _ Hu), (ud_config _ _ Hu).
Qed.

Context `{!GeneratorMarks generate}.
Lemma kept_backend_some backend explicit_backend existing : backend ≠ BkNone → kept_backend backend explicit_backend existing ≠ BkNone.
Proof.
  intros Hb. unfold kept_backend. destruct explicit_backend; [done|]. destruct existing as [text|]; [|done]. cbn [mbind option_bind].
  unfold generated_backend. cbn [find]. repeat case_match; simplify_eq; done.
Qed.
Lemma stack_current_regenerated s s' text :
  stack_shape_in text = Some STACK_SHAPE → wt_compose s' = Some text → wt_config s' = wt_config s →
  wt_digest s' = Some (dec (config_digest hasher files s)) → stack_current s' = true.
Proof.
  intros Hs Hc Hf Hd. unfold stack_current, stack_is_stale, config_digest. rewrite Hc, Hd, Hf, trim_dec. simpl. by rewrite Hs, !bool_decide_eq_true_2.
Qed.
Lemma stack_current_frame s s' :
  wt_compose s' = wt_compose s → wt_digest s' = wt_digest s → wt_config s' = wt_config s → stack_current s' = stack_current s.
Proof. unfold stack_current, stack_is_stale, config_digest. by intros -> -> ->. Qed.

(** C25: What [init] does to a workspace, with a generator whose files state
    their shape and their backend, and asked for a backend that is not [none].
    It keeps the configuration, the build digest, and the bypass list and the
    mise tasks that are there, and runs no command. When it succeeds the
    entrypoint is the generated script, the bypass list exists if the backend
    asked for is ebpf, and the stack is current: it was, and then it is left
    byte for byte with its digest and the grant layer, or it is what the
    generator makes of the loaded configuration with the backend of the stack
    it replaces, unless one was named, beside the digest of that
    configuration. When it fails the old stack and digest are there; or, since
    [fs::write] truncates the file it writes, the stack was not current and
    what is there is the beginning of the new one with the old digest, or all
    of it with the old digest or the beginning of the new one. *)
Theorem init_exact backend explicit_backend s s' r (Hb : backend ≠ BkNone) (Hrun : init backend explicit_backend s = (s', r)) :
  init_frame s s' ∧
  match r with
  | Ok _ =>
      stack_current s' = true ∧ wt_entrypoint s' = Some ENTRYPOINT_SCRIPT ∧ (is_ebpf backend = true → is_Some (wt_bypass s')) ∧
      if stack_current s then wt_compose s' = wt_compose s ∧ wt_digest s' = wt_digest s ∧ wt_layer s' = wt_layer s
      else ∃ text, regenerated backend explicit_backend s s' text ∧ wt_compose s' = Some text ∧
             wt_digest s' = Some (dec (config_digest hasher files s)) ∧
             generated_backend text = Some (kept_backend backend explicit_backend (wt_compose s))
  | Err _ =>
      (wt_compose s' = wt_compose s ∧ wt_digest s' = wt_digest s) ∨
      stack_current s = false ∧ ∃ text, regenerated backend explicit_backend s s' text ∧ half_written s s' text
  end.
Proof.
  pose proof (init_ends backend explicit_backend s) as He. unfold ends in He. rewrite Hrun in He. cbn [fst snd] in He.
  destruct He as [Hf He]. split; [done|]. destruct r as [[]|err]; [|done].
  destruct He as (Hp & Hby & _ & _ & _ & _ & Hc). destruct (stack_current s) eqn:Ec.
  - destruct Hc as (Hc & Hd & Hl). split_and!; try done; [|apply Hp]. rewrite (stack_current_frame s s'); auto. apply Hf.
  - destruct Hc as (text & Hr & Hc & Hd). pose proof Hr as (config & _ & Hg).
    apply generator_marks in Hg as [Hs Hg]; [|by apply kept_backend_some].
    split_and!; [|apply Hp|done|exists text; by split_and!]. apply (stack_current_regenerated s s' text); auto. apply Hf.
Qed.

(** A second run of [init] settles: whatever backend it names, it succeeds
    and leaves every file of the workspace as it is. *)
Theorem init_settles backend explicit_backend s s' (Hb : backend ≠ BkNone) (Hrun : init backend explicit_backend s = (s', Ok ())) :
  ∀ backend' explicit_backend', (is_ebpf backend' = true → is_Some (wt_bypass s')) → init backend' explicit_backend' s' = (s', Ok ()).
Proof.
  intros backend' explicit_backend' Hby.
  pose proof (init_ends backend explicit_backend s) as He. unfold ends in He. rewrite Hrun in He. cbn [fst snd] in He.
  destruct He as (Hf & Hp & _ & (config & Hl & Hm) & Hreg & Hfx & Hdir & Hc).
  assert (stack_current s' = true) as Hcur.
  { destruct (stack_current s) eqn:Ec.
    - destruct Hc as (Hc & Hd & _). rewrite (stack_current_frame s s'); auto. apply Hf.
    - destruct Hc as (text & (? & _ & Hg) & Hc & Hd). apply generator_marks in Hg as [Hs _]; [|by apply kept_backend_some].
      apply (stack_current_regenerated s s' text); auto. apply Hf. }
  unfold init_workspace. rewrite Hdir, (bind_step _ _ s' s' ()) by done.
  rewrite (bind_step _ _ s' s' false).
  2: { destruct (is_ebpf backend') eqn:Eb; [|done]. destruct (Hby eq_refl) as [text Ht]. unfold ensure_bypass_file, mbind, cmd_bind, gets. by rewrite Ht. }
  rewrite (bind_step _ _ s' s' (wt_config s')) by done. rewrite (if_config _ _ Hf).
  rewrite (bind_step _ _ s' s' config) by (unfold lift; by rewrite Hl). unfold lift.
  destruct registry as [reg|]; [|done]. destruct fnox as [fx|]; [|done].
  rewrite (bind_step _ _ s' s' reg), (bind_step _ _ s' s' fx), (bind_step _ _ s' s' ()) by (done || by apply support_prepared).
  rewrite (bind_step _ _ s' s' false).
  2: { destruct (ws_home (ac_workspace config)) as [home|] eqn:Eh; [|done]. specialize (Hm home eq_refl).
       unfold ensure_mise_agent, mbind, cmd_bind, gets. by rewrite Hm. }
  rewrite (bind_step _ _ s' s' (wt_compose s')), (bind_step _ _ s' s' (stack_is_stale hasher files s')) by done.
  unfold stack_current in Hcur. by rewrite Hcur.
Qed.
End Init.

(** ** The generator *)

(** Generating is rendering the stack that was built, and the stack that is
    built has the backend that was asked for. *)
Definition renders (config_dir : option Path) (build : AppConfig → ProxyBackend → GrantState → GrantState * result StackError Stack)
    (config : AppConfig) (backend : ProxyBackend) (layer : GrantState) : GrantState * result StackError bytes :=
  let '(layer, stack) := build config backend layer in (layer, stack ← stack; Ok (render config_dir stack)).
Class CleanBuilds (config_dir : option Path) (build : AppConfig → ProxyBackend → GrantState → GrantState * result StackError Stack) : Prop :=
  clean_builds config backend layer layer' stack :
    build config backend layer = (layer', Ok stack) → sk_backend stack = backend ∧ Forall clean (stack_texts config_dir stack).
#[export] Instance rendered_marks config_dir build `{!CleanBuilds config_dir build} : GeneratorMarks (renders config_dir build).
Proof.
  intros config backend layer layer' text Hb. unfold renders. destruct (build config backend layer) as [l [stack|]] eqn:Eb; [|done].
  intros [= <- <-]. apply clean_builds in Eb as [Hk Hc]. destruct (render_marks config_dir stack Hc) as [Hs Hg]. rewrite Hk in Hg.
  split; [exact Hs|]. rewrite Hg. clear Hs Hc Hg Hk. destruct backend; try reflexivity. by destruct Hb.
Qed.

(** ** Running the stack *)

Section Up.
Context `{!TomlEdit} (root : Path) (host_home : option Path) (uid : N) (linux : bool) (can : Target → Outcome) (ca_ok : bool).
Context (load_config : option bytes → result StackError AppConfig).
Context (registry : result StackError Registry) (fnox : result StackError (option FnoxSource)).
Context (generate : AppConfig → ProxyBackend → GrantState → GrantState * result StackError bytes).
Context (hasher : list HashItem → N) (files : ConfigFiles) (dockerfile : WorkspaceBuild → Path * option bytes) (context : WorkspaceBuild → TreeEntry).
Context (mise : MiseFiles) (global_compose workspace_compose : bool) (compose_exit : list (list bytes) → list bytes → option N).
Local Abbreviation up := (up_workspace root can ca_ok load_config hasher dockerfile context global_compose workspace_compose compose_exit).
Local Abbreviation down := (down_workspace root global_compose workspace_compose compose_exit).
Local Abbreviation exec := (exec_agent root host_home uid load_config global_compose workspace_compose compose_exit).
Local Abbreviation agent := (agent_run root host_home uid linux can ca_ok load_config registry fnox generate hasher files dockerfile context mise
  global_compose workspace_compose compose_exit).

(** A compose command is recorded whatever its result, and changes nothing
    else. *)
Lemma compose_run_ends ok argv s :
  ends (compose_run root global_compose workspace_compose compose_exit ok argv) s (λ s' r,
    if global_compose || bool_of_opt (wt_compose s) || workspace_compose then
      s' = with_command argv s ∧ r = exit_result ok (compose_exit (wt_commands s) argv)
    else s' = s ∧ r = Err (NoComposeLayers root)).
Proof.
  unfold compose_run. apply ends_bind. unfold compose_command. apply ends_bind. unfold ends at 1. cbn [gets fst snd].
  destruct (global_compose || bool_of_opt (wt_compose s) || workspace_compose); [|done].
  unfold ends at 1. cbn [mret cmd_ret fst snd]. apply ends_bind. unfold ends at 1. cbn [gets fst snd]. apply ends_bind. unfold ends. by cbn [modify lift fst snd].
Qed.

(** The build a configuration asks for now. *)
Definition build_wanted (is_forced : bool) (config : AppConfig) (s : Ws) : result StackError bool :=
  match ws_build (ac_workspace config) with
  | None => if is_forced then Err BuildNotConfigured else Ok false
  | Some build => Ok (is_forced || negb (bool_decide (trim (default [] (wt_build_digest s)) = dec (build_digest hasher dockerfile context build))))
  end.
Lemma workspace_build_run config s :
  load_config (wt_config s) = Ok config → workspace_build load_config s = (s, Ok (ws_build (ac_workspace config))).
Proof. intros Hl. unfold workspace_build, mbind, cmd_bind, gets, lift. by rewrite Hl. Qed.
Lemma should_build_run is_forced s :
  should_build load_config hasher dockerfile context is_forced s = (s, config ← load_config (wt_config s); build_wanted is_forced config s).
Proof.
  unfold should_build. destruct (load_config (wt_config s)) as [config|err] eqn:El.
  - rewrite (bind_step _ _ s s _ (workspace_build_run _ _ El)). unfold build_wanted. cbn [mbind result_bind].
    destruct (ws_build (ac_workspace config)); by destruct is_forced.
  - unfold workspace_build, mbind, cmd_bind, gets, lift. by rewrite El.
Qed.
Lemma record_ends was_built config s :
  load_config (wt_config s) = Ok config →
  ends (record_build_digest root can load_config hasher dockerfile context was_built) s (λ s' r,
    match r with
    | Err _ => s' = s ∨ ∃ build n, ws_build (ac_workspace config) = Some build ∧ was_built = true ∧
        s' = with_build_digest (Some (take n (dec (build_digest hasher dockerfile context build)))) s
    | Ok _ => s' = with_build_digest (match ws_build (ac_workspace config) with
                                      | None => None
                                      | Some build => if was_built then Some (dec (build_digest hasher dockerfile context build)) else wt_build_digest s
                                      end) s
    end).
Proof.
  intros Hl. unfold record_build_digest, ends. rewrite (bind_step _ _ s s _ (workspace_build_run _ _ Hl)). destruct (ws_build (ac_workspace config)) as [build|].
  - destruct was_built; [apply write_ends; [done|by left|intros n; right; by exists build, n]|by destruct s].
  - rewrite (bind_step _ _ s s (wt_build_digest s)) by done. destruct (wt_build_digest s) as [d|] eqn:Ed; cbn [bool_of_opt].
    + destruct (can TgtBuildRemoval); [done|by left].
    + destruct s. cbn in *. by subst.
Qed.

(** What starting leaves alone: all but the build digest, the commands run and
    the files the stack mounts. *)
Record up_frame (s s' : Ws) : Prop := {
  uf_config : wt_config s' = wt_config s;
  uf_compose : wt_compose s' = wt_compose s;
  uf_digest : wt_digest s' = wt_digest s;
  uf_layer : wt_layer s' = wt_layer s;
  uf_bypass text : wt_bypass s = Some text → wt_bypass s' = Some text;
  uf_mise text : wt_mise_agent s = Some text → wt_mise_agent s' = Some text;
}.
Definition layered (s : Ws) : bool := global_compose || bool_of_opt (wt_compose s) || workspace_compose.

(** What a start that fails leaves of the build record: the old one, or after a
    build the first bytes of the new one. *)
Definition record_left (config : AppConfig) (b : bool) (s s' : Ws) : Prop :=
  wt_build_digest s' = wt_build_digest s ∨
  b = true ∧ ∃ build n, ws_build (ac_workspace config) = Some build ∧
    wt_build_digest s' = Some (take n (dec (build_digest hasher dockerfile context build))).

Lemma up_ends is_forced s :
  ends (up is_forced) s (λ s' r,
    up_frame s s' ∧
    match r with
    | Ok _ => ∃ config b, load_config (wt_config s) = Ok config ∧ build_wanted is_forced config s = Ok b ∧ layered s = true ∧
        wt_commands s' = wt_commands s ++ [up_argv b] ∧ exit_result success (compose_exit (wt_commands s) (up_argv b)) = Ok () ∧
        wt_build_digest s' = match ws_build (ac_workspace config) with
                             | None => None
                             | Some build => if b then Some (dec (build_digest hasher dockerfile context build)) else wt_build_digest s
                             end
    | Err _ => (wt_build_digest s' = wt_build_digest s ∧ wt_commands s' = wt_commands s) ∨
        ∃ config b, load_config (wt_config s) = Ok config ∧ build_wanted is_forced config s = Ok b ∧
          wt_commands s' = wt_commands s ++ [up_argv b] ∧ record_left config b s s'
    end).
Proof.
  assert (∀ s', undisturbed s s' → up_frame s s') as Hframe by (intros s' []; by split).
  assert (∀ s', undisturbed s s' → wt_build_digest s' = wt_build_digest s ∧ wt_commands s' = wt_commands s) as Hsame by (by intros s' []).
  unfold up_workspace. eapply ends_seq; [apply support_ends| |].
  2: { intros s1 err [Hs1 _]. destruct (Hsame s1 Hs1). eauto. }
  intros s1 [] [Hs1 _]. apply ends_bind. unfold ends at 1. cbn [gets fst snd]. rewrite (ud_compose _ _ Hs1).
  eapply (ends_seq _ _ _ (λ s' _, undisturbed s1 s')).
  { destruct (bool_decide _); [apply prepares_bypass|by unfold ends]. }
  2: { intros s2 err Hs2. assert (undisturbed s s2) as Hu by (by transitivity s1). destruct (Hsame s2 Hu). eauto. }
  intros s2 _ Hs2. assert (undisturbed s s2) as Hu by (by transitivity s1). destruct (Hsame s2 Hu) as [Hbd Hcs].
  apply ends_bind. unfold ends at 1. rewrite should_build_run. cbn [fst snd]. rewrite (ud_config _ _ Hu).
  destruct (load_config (wt_config s)) as [config|err] eqn:El; [|cbn [mbind result_bind]; eauto]. cbn [mbind result_bind].
  assert (build_wanted is_forced config s2 = build_wanted is_forced config s) as -> by (unfold build_wanted; by rewrite Hbd).
  destruct (build_wanted is_forced config s) as [b|err] eqn:Eb; [|eauto].
  eapply ends_seq; [apply (compose_run_ends success)| |]; unfold layered; rewrite (ud_compose _ _ Hu), Hcs;
    destruct (global_compose || bool_of_opt (wt_compose s) || workspace_compose).
  - intros s3 [] [-> Hr]. eapply ends_mono; [apply record_ends; rewrite <- El; f_equal; apply (ud_config _ _ Hu)|].
    assert (up_frame s (with_command (up_argv b) s2)) as Hf3 by (destruct Hu; by split).
    intros s4 [[]|err].
    + intros ->. split; [destruct Hf3; by split|]. exists config, b. cbn [with_build_digest with_command wt_commands wt_build_digest].
      rewrite Hcs. split_and!; try done. by rewrite Hbd.
    + intros Hrec. assert (up_frame s s4 ∧ wt_commands s4 = wt_commands s ++ [up_argv b] ∧ record_left config b s s4) as (? & ? & ?);
        [|split; [done|]; right; eauto 10].
      destruct Hrec as [->|(build & n & Hw & -> & ->)]; cbn [with_build_digest with_command wt_commands].
      * split_and!; [done|by rewrite Hcs|by left].
      * split_and!; [destruct Hf3; by split|by rewrite Hcs|right; eauto].
  - by intros s3 [] [_ ?].
  - intros s3 err [-> Hr]. split; [destruct Hu; by split|]. right. exists config, b. cbn [with_command wt_commands]. rewrite Hcs. split_and!; try done. by left.
  - intros s3 err [-> Hr]. eauto.
Qed.

(** What [up] does. It runs at most one compose command, [up -d], with
    [--build] exactly when that was forced or the build inputs differ from the
    ones of the last build that succeeded; only a successful start records
    them, so that a second [up] does not build again, and a failed one leaves
    the record as it was, or the beginning of the new one when that is what it
    failed to write. Without a build section a forced
    build is refused before anything runs and the record is removed. The
    configuration, the stack and the grant layer are left alone. *)
Theorem up_exact is_forced s s' r (Hrun : up is_forced s = (s', r)) :
  up_frame s s' ∧
  match r with
  | Ok _ => ∃ config b, load_config (wt_config s) = Ok config ∧ wt_commands s' = wt_commands s ++ [up_argv b] ∧
      compose_exit (wt_commands s) (up_argv b) = Some 0%N ∧
      match ws_build (ac_workspace config) with
      | None => is_forced = false ∧ b = false ∧ wt_build_digest s' = None
      | Some build =>
          (b = true ↔ is_forced = true ∨ trim (default [] (wt_build_digest s)) ≠ dec (build_digest hasher dockerfile context build)) ∧
          trim (default [] (wt_build_digest s')) = dec (build_digest hasher dockerfile context build)
      end
  | Err _ => (wt_build_digest s' = wt_build_digest s ∧ wt_commands s' = wt_commands s) ∨
      ∃ config b, load_config (wt_config s) = Ok config ∧ build_wanted is_forced config s = Ok b ∧
        wt_commands s' = wt_commands s ++ [up_argv b] ∧ record_left config b s s'
  end.
Proof.
  pose proof (up_ends is_forced s) as He. unfold ends in He. rewrite Hrun in He. cbn [fst snd] in He. destruct He as [Hf He].
  split; [done|]. destruct r as [[]|err]; [|done]. destruct He as (config & b & Hl & Hb & _ & Hc & Hx & Hd).
  exists config, b. split_and!; try done.
  { unfold exit_result, success in Hx. destruct (compose_exit _ _) as [n|]; [|done]. destruct (n =? 0)%N eqn:En; [|done]. apply N.eqb_eq in En. by subst. }
  unfold build_wanted in Hb. destruct (ws_build (ac_workspace config)) as [build|]; [|destruct is_forced; by simplify_eq].
  injection Hb as <-. rewrite Hd. split.
  - rewrite orb_true_iff, negb_true_iff, bool_decide_eq_false. done.
  - destruct is_forced; simpl; [apply trim_dec|]. case_bool_decide as Ht; simpl; [done|apply trim_dec].
Qed.

Lemma exec_agent_run config command s :
  load_config (wt_config s) = Ok config → layered s = true →
  exec command s = (with_command (exec_argv root host_home uid config command) s,
                    exit_result success_or_interrupt (compose_exit (wt_commands s) (exec_argv root host_home uid config command))).
Proof.
  intros Hl Hla. unfold exec_agent. rewrite (bind_step _ _ s s (wt_config s)) by done. rewrite (bind_step _ _ s s config) by (unfold lift; by rewrite Hl).
  pose proof (compose_run_ends success_or_interrupt (exec_argv root host_home uid config command) s) as Hc. unfold layered in Hla. rewrite Hla in Hc.
  destruct Hc as [Hs Hr]. unfold compose_status_interruptible. by rewrite <- Hs, <- Hr, <- surjective_pairing.
Qed.
Lemma down_run s :
  layered s = true → down s = (with_command [bs "down"] s, exit_result success (compose_exit (wt_commands s) [bs "down"])).
Proof.
  intros Hla. pose proof (compose_run_ends success [bs "down"] s) as Hc. unfold layered in Hla. rewrite Hla in Hc.
  destruct Hc as [Hs Hr]. unfold down_workspace, compose_status. by rewrite <- Hs, <- Hr, <- surjective_pairing.
Qed.

(** What an agent session runs. It ends before the session, with an error
    and at most the start tried; or the stack is started, the session entered
    and, asked to clean up, the stack stopped whatever the session's result,
    in that order and nothing else. An interrupted session counts as one that
    ended well; the session's error is reported before the stop's. *)
Theorem agent_session_exact rm build command s s' r (Hrun : agent rm build command s = (s', r)) :
  ∃ ran, wt_commands s' = wt_commands s ++ ran ∧
  (((∃ err, r = Err err) ∧ (ran = [] ∨ ∃ b, ran = [up_argv b])) ∨
   ∃ config b, load_config (wt_config s) = Ok config ∧
     let session := exec_argv root host_home uid config command in
     let started := wt_commands s ++ [up_argv b] in
     let ended := exit_result success_or_interrupt (compose_exit started session) in
     let stopped := exit_result success (compose_exit (started ++ [session]) [bs "down"]) in
     build_wanted build config s = Ok b ∧ compose_exit (wt_commands s) (up_argv b) = Some 0%N ∧
     ran = [up_argv b; session] ++ (if rm then [[bs "down"]] else []) ∧
     r = if rm then match ended with Ok _ => stopped | Err err => Err err end else ended).
Proof.
  revert Hrun. unfold agent_run. destruct (resolve_backend linux None) as [backend|err] eqn:Ebk.
  2: { intros [= <- <-]. exists []. rewrite app_nil_r. split; [done|]. left. eauto. }
  rewrite (bind_step _ _ s s backend) by done.
  pose proof (init_ends root host_home can ca_ok load_config registry fnox generate hasher files mise backend false s) as Hi. unfold ends in Hi.
  unfold mbind at 1, cmd_bind at 1. destruct (init_workspace _ _ _ _ _ _ _ _ _ _ _ _ _ s) as [s1 [[]|err]]; cbn [fst snd] in Hi; destruct Hi as [Hf Hi].
  2: { intros [= <- <-]. exists []. rewrite app_nil_r. split; [apply Hf|]. left. eauto. }
  assert (is_Some (wt_compose s1)) as [text Ht].
  { destruct Hi as (_ & _ & _ & _ & _ & _ & Hc). unfold stack_current in Hc. destruct (wt_compose s) as [t|]; [|destruct Hc as (t & _ & ? & _); eauto].
    cbn [bool_of_opt andb] in Hc. destruct (negb _); [destruct Hc as [? _]; eauto|destruct Hc as (t' & _ & ? & _); eauto]. }
  clear Hi. unfold mbind at 1, cmd_bind at 1. pose proof (up_ends build s1) as Hu. unfold ends in Hu.
  destruct (up build s1) as [s2 [[]|err]]; cbn [fst snd] in Hu; destruct Hu as [Hf2 Hu].
  2: { rewrite (if_commands _ _ Hf) in Hu. intros [= <- <-].
       destruct Hu as [[_ Hc]|(config & b & _ & _ & Hc & _)]; [exists []; rewrite app_nil_r|exists [up_argv b]]; (split; [done|]; left; eauto). }
  destruct Hu as (config & b & Hl & Hw & _ & Hc & Hx & _).
  unfold build_wanted in Hw. rewrite (if_build_digest _ _ Hf) in Hw. fold (build_wanted build config s) in Hw. rewrite (if_config _ _ Hf) in Hl. rewrite (if_commands _ _ Hf) in Hc, Hx.
  assert (compose_exit (wt_commands s) (up_argv b) = Some 0%N) as Hx'.
  { unfold exit_result, success in Hx. destruct (compose_exit _ _) as [n|]; [|done]. destruct (n =? 0)%N eqn:En; [|done]. apply N.eqb_eq in En. by subst. }
  assert (layered s2 = true) as Hla. { unfold layered. rewrite (uf_compose _ _ Hf2), Ht. by destruct global_compose. }
  assert (load_config (wt_config s2) = Ok config) as Hl2 by (by rewrite (uf_config _ _ Hf2), (if_config _ _ Hf)).
  destruct rm; cbn [negb]; rewrite (exec_agent_run config command s2 Hl2 Hla), Hc.
  - rewrite down_run by done. cbn [with_command wt_commands]. rewrite Hc. intros [= <- <-].
    exists [up_argv b; exec_argv root host_home uid config command; [bs "down"]]. cbn [with_command wt_commands]. rewrite Hc.
    split; [by rewrite <- !app_assoc|]. right. exists config, b. by split_and!.
  - intros [= <- <-]. exists [up_argv b; exec_argv root host_home uid config command]. cbn [with_command wt_commands]. rewrite Hc.
    split; [by rewrite <- app_assoc|]. right. by exists config, b.
Qed.
End Up.

(** ** Witnesses *)

Definition sample_workspace (build : option WorkspaceBuild) : WorkspaceCfg :=
  {| ws_name := None; ws_shell := Some (bs "fish"); ws_init := None; ws_include := []; ws_home := None; ws_profile := None; ws_ports := [];
     ws_expose := []; ws_passthrough := []; ws_file_rewrite := []; ws_devices := []; ws_cap_add := []; ws_networks := []; ws_extra_hosts := [];
     ws_image := None; ws_build := build |}.
Definition sample_config (build : option WorkspaceBuild) : AppConfig :=
  {| ac_proxy := {| px_listen := bs "127.0.0.1:8080"; px_ca_file := None; px_ssh_host_key := None; px_ssh_known_hosts := None; px_root_certs := [];
                    px_handshake_timeout_secs := 10 |};
     ac_workspace := sample_workspace build; ac_rules := []; ac_plugins := []; ac_tools := [] |}.
Definition sample_files : ConfigFiles :=
  {| cf_global := None; cf_workspace_path := components (bs "/ws/.config/hodor/config.toml"); cf_legacy := (components (bs "/ws/.config/hodor.toml"), None);
     cf_global_rules := None; cf_project_rules := (components (bs "/ws/.config/hodor/rules.d"), []) |}.
Definition sample_mise : MiseFiles := {| mi_toml := false; mi_local := false; mi_local_text := None |}.
Definition sample_ws : Ws :=
  {| wt_config := None; wt_compose := None; wt_digest := None; wt_bypass := None; wt_build_digest := None; wt_ca := false; wt_entrypoint := None;
     wt_storage := false; wt_mise_agent := None; wt_layer := {| gs_marker := None; gs_rules := ∅ |}; wt_commands := [] |}.
Definition sample_build (config : AppConfig) (backend : ProxyBackend) (layer : GrantState) : GrantState * result StackError Stack :=
  (layer, Ok (sample_stack backend None)).
#[local] Instance sample_builds : CleanBuilds None sample_build.
Proof. intros config backend layer layer' stack [= <- <-]. split; [done|apply sample_clean]. Qed.
#[local] Instance no_toml_edit : TomlEdit := {| te_parse _ := None; te_print _ := [] |}.
(** A hasher that counts what it is fed. *)
Definition sample_hasher (items : list HashItem) : N := N.of_nat (length items).
Local Abbreviation sample_init := (init_workspace (components (bs "/ws")) None (λ _, Works) true (λ _, Ok (sample_config None)) (Ok Registry_default) (Ok None)
  (renders None sample_build) sample_hasher sample_files sample_mise).
Lemma init_exact_witness :
  ∃ s', sample_init BkTun true sample_ws = (s', Ok ()) ∧ stack_current sample_hasher sample_files s' = true ∧
    ∃ text, wt_compose s' = Some text ∧ generated_backend text = Some BkTun.
Proof.
  assert ((sample_init BkTun true sample_ws).2 = Ok ()) as Hr by (vm_compute; reflexivity).
  destruct (sample_init BkTun true sample_ws) as [s' r] eqn:E. cbn [snd] in Hr. subst r.
  assert (BkTun ≠ BkNone) as Hb by done.
  destruct (init_exact _ _ _ _ _ _ _ (renders None sample_build) sample_hasher sample_files sample_mise BkTun true sample_ws s' (Ok ()) Hb E) as [_ (Hc & _ & _ & Hs)].
  exists s'. split; [reflexivity|]. split; [exact Hc|]. change (stack_current sample_hasher sample_files sample_ws) with false in Hs.
  destruct Hs as (text & _ & Hct & _ & Hg). by exists text.
Defined.
(** A stack whose shape is old and whose configuration did not change: a
    regeneration that fails while it writes the stack leaves its first bytes
    beside a digest that is right, and the next run takes them for current. *)
Definition cut_stack (n : nat) (target : Target) : Outcome := match target with TgtCompose => Fails (Some n) | _ => Works end.
Definition old_shape : Ws := with_digest (dec (config_digest sample_hasher sample_files sample_ws)) (with_compose (bs "# stack shape: 1") (wt_layer sample_ws) sample_ws).
Example cut_stack_taken_for_current :
  let run can := init_workspace (components (bs "/ws")) None can true (λ _, Ok (sample_config None)) (Ok Registry_default) (Ok None)
    (renders None sample_build) sample_hasher sample_files sample_mise BkTun true in
  let '(s, r) := run (cut_stack 20) old_shape in
  is_ok r = false ∧ option_map length (wt_compose s) = Some 20 ∧ stack_current sample_hasher sample_files s = true ∧ run (λ _, Works) s = (s, Ok ()).
Proof. vm_compute. done. Qed.
Lemma init_settles_witness :
  ∃ s', sample_init BkTun true sample_ws = (s', Ok ()) ∧ sample_init BkTproxy true s' = (s', Ok ()).
Proof.
  assert ((sample_init BkTun true sample_ws).2 = Ok ()) as Hr by (vm_compute; reflexivity).
  destruct (sample_init BkTun true sample_ws) as [s' r] eqn:E. cbn [snd] in Hr. subst r.
  exists s'. split; [reflexivity|]. assert (BkTun ≠ BkNone) as Hb by done.
  apply (init_settles _ _ _ _ _ _ _ (renders None sample_build) sample_hasher sample_files sample_mise BkTun true sample_ws s' Hb E). done.
Defined.
(** A docker that starts the stack and whose session is interrupted. *)
Definition sample_exit (before : list (list bytes)) (argv : list bytes) : option N := if bool_decide (length before = 1) then Some 130%N else Some 0%N.
Definition sample_build_section : WorkspaceBuild := {| wb_dockerfile := bs "Dockerfile"; wb_context := bs "." |}.
Local Abbreviation sample_up := (up_workspace (components (bs "/ws")) (λ _, Works) true (λ _, Ok (sample_config (Some sample_build_section)))
  sample_hasher (λ _, (components (bs "/ws/Dockerfile"), None)) (λ _, TeDir []) true false (λ _ _, Some 0%N)).
Lemma up_exact_witness :
  ∃ s', sample_up false sample_ws = (s', Ok ()) ∧ wt_commands s' = [up_argv true] ∧ wt_build_digest s' = Some (bs "2").
Proof.
  assert ((sample_up false sample_ws).2 = Ok () ∧ wt_build_digest (sample_up false sample_ws).1 = Some (bs "2")) as [Hr Hd] by (vm_compute; done).
  destruct (sample_up false sample_ws) as [s' r] eqn:E. cbn [fst snd] in Hr, Hd. subst r.
  destruct (up_exact _ _ _ _ sample_hasher _ _ _ _ _ false sample_ws s' (Ok ()) E) as [_ (config & b & Hl & Hc & _ & Hb)].
  injection Hl as <-. exists s'. split; [reflexivity|]. split; [|exact Hd]. rewrite Hc. change (wt_commands sample_ws) with (@nil (list bytes)).
  cbn [app]. do 2 f_equal. apply (proj1 Hb). right. vm_compute. discriminate.
Defined.
Local Abbreviation sample_agent := (agent_run (components (bs "/ws")) None 1000 true (λ _, Works) true (λ _, Ok (sample_config None)) (Ok Registry_default) (Ok None)
  (renders None sample_build) sample_hasher sample_files (λ _, (components (bs "/ws/Dockerfile"), None)) (λ _, TeDir []) sample_mise false false sample_exit).
Lemma agent_session_exact_witness :
  ∃ s', sample_agent true false [] sample_ws = (s', Ok ()) ∧
    wt_commands s' = [up_argv false;
      [bs "exec"; bs "-i"; bs "--workdir"; bs "/ws"; bs "--user"; bs "1000"; bs "agent"; bs "fish"]; [bs "down"]].
Proof.
  assert ((sample_agent true false [] sample_ws).2 = Ok ()) as Hr by (vm_compute; reflexivity).
  destruct (sample_agent true false [] sample_ws) as [s' r] eqn:E. cbn [snd] in Hr. subst r. exists s'. split; [reflexivity|].
  destruct (agent_session_exact _ _ _ _ _ _ _ _ _ _ sample_hasher _ _ _ _ _ _ _ true false [] sample_ws s' (Ok ()) E)
    as (ran & Hc & [[[err Herr] _]|(config & b & Hl & Hb & _ & Hran & _)]); [discriminate|].
  injection Hl as <-. injection Hb as <-. rewrite Hc, Hran. vm_compute. reflexivity.
Defined.

(** A home that names a variable: the stack is generated with its value and the
    session entered with its text. *)
Definition variable_home : AppConfig :=
  {| ac_proxy := ac_proxy (sample_config None);
     ac_workspace := {| ws_name := None; ws_shell := None; ws_init := None; ws_include := []; ws_home := Some (bs "/home/$AGENT"); ws_profile := None;
                        ws_ports := []; ws_expose := []; ws_passthrough := []; ws_file_rewrite := []; ws_devices := []; ws_cap_add := [];
                        ws_networks := []; ws_extra_hosts := []; ws_image := None; ws_build := None |};
     ac_rules := []; ac_plugins := []; ac_tools := [] |}.
Example session_home_unexpanded :
  let root := components (bs "/home/u/ws") in let host_home := Some (components (bs "/home/u")) in
  exec_argv root host_home 1000 variable_home [] =
    [bs "exec"; bs "-i"; bs "--workdir"; bs "/home/$AGENT/ws"; bs "--user"; bs "1000"; bs "agent"; bs "sh"] ∧
  display (translate root host_home (bs "/home/bob")) = bs "/home/bob/ws".
Proof. vm_compute. done. Qed.
