(* ===== verification/Expose.v ===== *)
(** * Exposed ports

    [crates/hodor-compose/src/expose.rs], with the [down] command of
    [confine.rs] that gives claims back: publishing a container port on a host
    port that no other workspace has claimed. The claims are one file shared by
    all workspaces; a command acts on it and on its own workspace. JSON, the
    edited TOML, what the host lets be read and written, and [docker] are
    parameters. The claims file is replaced by a rename; the project's file is
    written over in place, and a write of it that fails is taken to leave it as
    it was, where the code may leave the beginning of the new text. *)

From stdpp Require Import sorting.
From S2P Require Import Prelude Decoy ConnString Grants Rules Registry Secrets Config Engine Paths Adapt Kube Stack SshConfig Git Ambient Compose TomlEdit Confine.

(** ** Claims *)

Record Claim := { cl_workspace : bytes; cl_root : Path; cl_port : N }.
Abbreviation Claims := (gmap N Claim).
(** [serde_json] on the claims; printing fails on a root that is not UTF-8. *)
Class ClaimJson := {
  cj_parse : bytes → option Claims;
  cj_print : Claims → option bytes;
}.
(** What is printed reads back. *)
Class ClaimJsonLaws `{!ClaimJson} : Prop := { cj_parse_print claims text : cj_print claims = Some text → cj_parse text = Some claims }.

(** [check_claim]: a mapping of the same workspace may be claimed again. *)
Definition check_claim (registry : Claims) (slug : bytes) (host port : N) : result StackError () :=
  match registry !! host with
  | None => Ok ()
  | Some claim =>
      if bool_decide (cl_workspace claim = slug) && (cl_port claim =? port)%N then Ok ()
      else Err (ExposeInUse host (cl_workspace claim) (cl_root claim) (cl_port claim))
  end.

(** The order claims are listed in. *)
Definition host_le (a b : N * Claim) : Prop := (a.1 ≤ b.1)%N.
#[export] Instance host_le_dec a b : Decision (host_le a b) := decide (_ ≤ _)%N.

(** ** Commands over the claims and a workspace *)

(** The claims file, and the workspace of the command. *)
Record World := { wo_claims : option bytes; wo_ws : Ws }.
Definition Act (A : Type) : Type := World → World * result StackError A.
#[export] Instance act_ret : MRet Act := λ A a w, (w, Ok a).
#[export] Instance act_bind : MBind Act := λ A B f m w, match m w with (w, Ok a) => f a w | (w, Err err) => (w, Err err) end.
Definition on_ws {A} (c : Cmd A) : Act A := λ w, let '(s, r) := c (wo_ws w) in ({| wo_claims := wo_claims w; wo_ws := s |}, r).
Definition refuse {A} (err : StackError) : Act A := λ w, (w, Err err).
(** A result that is only reported. *)
Definition ignoring {A} (a : Act A) : Act () := λ w, ((a w).1, Ok ()).
Definition put_claims (text : bytes) : Act () := λ w, ({| wo_claims := Some text; wo_ws := wo_ws w |}, Ok ()).
Definition act_lift {A} (r : result StackError A) : Act A := λ w, (w, r).

(** What the host allows of the claims file and of the project's. *)
Inductive FileOp := OpReadClaims | OpClaimsDir | OpWriteClaims | OpRenameClaims | OpReadProject | OpProjectDir | OpWriteProject.

Section Expose.
Context `{!TomlEdit, !ClaimJson}.
(** [registry_file], when the state directory resolves. *)
Context (registry_file : option Path) (allows : FileOp → bool).

Definition read_registry : Act Claims := λ w,
  (w, match registry_file with
      | None => Ok ∅
      | Some path =>
          match wo_claims w with
          | None => Ok ∅
          | Some text => if allows OpReadClaims then ok_or ExposeRegistry (cj_parse text) else Err (StReadFile path)
          end
      end).
(** The file is replaced by a rename, so it is the old one or the new one. *)
Definition write_registry (registry : Claims) : Act () :=
  path ← act_lift (ok_or StConfigDir registry_file);
  _ ← (if allows OpClaimsDir then mret () else refuse (StCreateDir (pop path)));
  text ← act_lift (ok_or SerializeExpose (cj_print registry));
  if allows OpWriteClaims && allows OpRenameClaims then put_claims text else refuse (StWriteFile path).
Definition prune_workspace (slug : bytes) : Act bool :=
  registry ← read_registry;
  let kept := filter (λ entry : N * Claim, cl_workspace entry.2 ≠ slug) registry in
  if size kept =? size registry then mret false
  else _ ← write_registry kept; mret true.

(** [ensure_expose_entry] on the project's file. *)
Definition write_mapping (path : Path) (port host : N) : Act bool := λ w,
  if bool_of_opt (wt_config (wo_ws w)) && negb (allows OpReadProject) then (w, Err (StReadFile path))
  else match ensure_expose_entry (wt_config (wo_ws w)) port host with
       | Err NotToml => (w, Err ExposeConfigParse)
       | Err NotATable => (w, Err ExposeConfigType)
       | Ok None => (w, Ok false)
       | Ok (Some text) =>
           if negb (allows OpProjectDir) then (w, Err (StCreateDir (pop path)))
           else if negb (allows OpWriteProject) then (w, Err (StWriteFile path))
           else ({| wo_claims := wo_claims w; wo_ws := with_config (Some text) (wo_ws w) |}, Ok true)
       end.

Section Run.
Context (root : Path) (host_home : option Path) (linux : bool) (can : Target → Outcome) (ca_ok : bool).
Context (load_config : option bytes → result StackError AppConfig).
Context (registry : result StackError Registry) (fnox : result StackError (option FnoxSource)).
Context (generate : AppConfig → ProxyBackend → GrantState → GrantState * result StackError bytes).
Context (hasher : list HashItem → N) (files : ConfigFiles) (dockerfile : WorkspaceBuild → Path * option bytes) (context : WorkspaceBuild → TreeEntry).
Context (mise : MiseFiles) (global_compose workspace_compose : bool) (compose_exit : list (list bytes) → list bytes → option N).

(** [compose_port] as it ends in [run]: a failure names the host port. *)
Definition compose_port (port host : N) : Act () := λ w,
  match on_ws (compose_run root global_compose workspace_compose compose_exit success [bs "port"; bs "hodor"; dec port]) w with
  | (w, Err (ComposeFailed _)) => (w, Err (ExposeVerify host port))
  | res => res
  end.

Record ExposeArgs := { xa_port : option N; xa_host : option N; xa_list : bool }.
(** The check before the configuration is touched. *)
Definition refused_ports (port host : N) : result StackError () :=
  if (port =? 0)%N || (host =? 0)%N then Err (StConfig PortZero)
  else try_fold (λ _ refused, if (refused =? 15000)%N || (refused =? 15001)%N then Err (StConfig (CapturePort refused)) else Ok ()) () [port; host].
(** Its steps, which other commands may run between. *)
Definition expose_check (port host : N) : Act () :=
  claims ← read_registry;
  act_lift (check_claim claims (workspace_slug root) host port).
Definition expose_start (port host : N) : Act () :=
  _ ← write_mapping (cf_workspace_path files) port host;
  backend ← act_lift (resolve_backend linux None);
  _ ← on_ws (init_workspace root host_home can ca_ok load_config registry fnox generate hasher files mise backend false);
  on_ws (up_workspace root can ca_ok load_config hasher dockerfile context global_compose workspace_compose compose_exit false).
Definition expose_record (port host : N) : Act () :=
  claims ← read_registry;
  write_registry (<[host := {| cl_workspace := workspace_slug root; cl_root := root; cl_port := port |}]> claims).
Definition expose_steps (port host : N) : Act () :=
  _ ← expose_check port host; _ ← expose_start port host; _ ← expose_record port host; compose_port port host.
(** The command without [--list], which only prints. *)
Definition expose_run (args : ExposeArgs) : Act () :=
  match xa_port args with
  | None => refuse ExposeNoPort
  | Some port =>
      let host := default port (xa_host args) in
      _ ← act_lift (refused_ports port host); expose_steps port host
  end.

(** [hodor down]: a failure to give the claims back only warns. *)
Definition down_run : Act () :=
  _ ← on_ws (down_workspace root global_compose workspace_compose compose_exit);
  ignoring (prune_workspace (workspace_slug root)).

(** [list_exposes]: the lines printed, and how it ends. *)
Definition list_exposes (w : World) : list bytes * result StackError () :=
  match load_config (wt_config (wo_ws w)) with
  | Err err => ([], Err err)
  | Ok config =>
      let ws := ac_workspace config in
      let lines :=
        [bs "workspace " ++ display root ++ bs ":"] ++
        map (λ port, bs "  127.0.0.1:" ++ dec port ++ bs " -> :" ++ dec port ++ bs " ([workspace] ports)") (ws_ports ws) ++
        map (λ m, bs "  127.0.0.1:" ++ dec (em_host m) ++ bs " -> :" ++ dec (em_port m) ++ bs " ([[workspace.expose]])") (ws_expose ws) ++
        match ws_ports ws, ws_expose ws with [], [] => [bs "  (no publishings)"] | _, _ => [] end ++
        [bs "claims across workspaces:"] in
      match (read_registry w).2 with
      | Err err => (lines, Err err)
      | Ok claims =>
          (lines ++ (if bool_decide (claims = ∅) then [bs "  (none)"] else []) ++
           map (λ entry : N * Claim, bs "  127.0.0.1:" ++ dec entry.1 ++ bs " -> " ++ cl_workspace entry.2 ++ bs " :" ++ dec (cl_port entry.2) ++
                                      bs " (" ++ display (cl_root entry.2) ++ bs ")")
             (merge_sort host_le (map_to_list claims)), Ok ())
      end
  end.
End Run.
End Expose.

(** ** Properties *)

Lemma act_bind_inv {A B} (m : Act A) (f : A → Act B) w w' r :
  (m ≫= f) w = (w', r) → (∃ w1 a, m w = (w1, Ok a) ∧ f a w1 = (w', r)) ∨ (∃ err, m w = (w', Err err) ∧ r = Err err).
Proof. unfold mbind, act_bind. destruct (m w) as [w1 [a|err]]; [eauto|]. intros [= <- <-]. eauto. Qed.
(** A computation that touches nothing. *)
Lemma act_lift_inv {A} (x : result StackError A) w w' r : act_lift x w = (w', r) → w' = w ∧ r = x.
Proof. by intros [= <- <-]. Qed.
Lemma on_ws_inv {A} (c : Cmd A) w w' r : on_ws c w = (w', r) → wo_claims w' = wo_claims w ∧ c (wo_ws w) = (wo_ws w', r).
Proof. unfold on_ws. destruct (c (wo_ws w)) as [s x]. by intros [= <- <-]. Qed.

Section Files.
Context `{!ClaimJson} (registry_file : option Path) (allows : FileOp → bool).

(** The claims a file holds, when it holds some. *)
Definition claims_of (text : option bytes) : option Claims := match text with None => Some ∅ | Some text => cj_parse text end.
Lemma read_registry_inv w w' r :
  read_registry registry_file allows w = (w', r) →
  w' = w ∧ ∀ claims, r = Ok claims → registry_file = None ∧ claims = ∅ ∨ is_Some registry_file ∧ claims_of (wo_claims w) = Some claims.
Proof.
  unfold read_registry. intros [= <- <-]. split; [done|]. intros claims. destruct registry_file as [path|]; [|intros [= <-]; by left].
  intros Hr. right. split; [done|]. unfold claims_of. destruct (wo_claims w) as [text|]; [|congruence].
  destruct (allows OpReadClaims); [|done]. destruct (cj_parse text); simpl in Hr; congruence.
Qed.
Lemma write_registry_inv registry w w' r :
  write_registry registry_file allows registry w = (w', r) →
  wo_ws w' = wo_ws w ∧
  match r with
  | Err _ => w' = w
  | Ok _ => is_Some registry_file ∧ ∃ text, cj_print registry = Some text ∧ wo_claims w' = Some text
  end.
Proof.
  unfold write_registry. intros [(w1 & path & Hp & Hrun)|(err & Hp & ->)]%act_bind_inv; apply act_lift_inv in Hp as [-> Hp]; [|done].
  destruct registry_file as [p|]; [|done].
  apply act_bind_inv in Hrun as [(w2 & [] & Hd & Hrun)|(err & Hd & ->)]; destruct (allows OpClaimsDir);
    apply act_lift_inv in Hd as [-> Hd]; try done.
  apply act_bind_inv in Hrun as [(w3 & text & Ht & Hrun)|(err & Ht & ->)]; apply act_lift_inv in Ht as [-> Ht]; [|done].
  destruct (cj_print registry) as [t|]; [|done]. injection Ht as ->.
  destruct (allows OpWriteClaims && allows OpRenameClaims); injection Hrun as <- <-; [|done]. split; [done|]. split; [done|]. by exists t.
Qed.
Lemma prune_workspace_inv slug w w' r :
  prune_workspace registry_file allows slug w = (w', r) →
  wo_ws w' = wo_ws w ∧
  (wo_claims w' = wo_claims w ∨ ∃ claims text, claims_of (wo_claims w) = Some claims ∧ wo_claims w' = Some text ∧
     cj_print (filter (λ entry : N * Claim, cl_workspace entry.2 ≠ slug) claims) = Some text).
Proof.
  unfold prune_workspace. intros [(w1 & claims & Hr & Hrun)|(err & Hr & ->)]%act_bind_inv; apply read_registry_inv in Hr as [-> Hr]; [|eauto].
  destruct (_ =? _); [injection Hrun as <- _; eauto|]. specialize (Hr claims eq_refl).
  apply act_bind_inv in Hrun as [(w2 & [] & Hw & Hrun)|(err & Hw & ->)]; apply write_registry_inv in Hw as [Hs Hw]; [|subst; eauto].
  injection Hrun as <- _. split; [done|]. destruct Hw as ([path Hp] & text & Ht & Hc). right. destruct Hr as [[? _]|[_ Hr]]; [congruence|]. by exists claims, text.
Qed.
End Files.

Section Mapping.
Context `{!TomlEdit, !TomlEditLaws} (allows : FileOp → bool).

(** The project's file states the mapping. *)
Definition mapped (config : option bytes) (port host : N) : Prop :=
  ∃ document, te_parse (default [] config) = Some document ∧ existsb (same_mapping port host) (mappings document) = true.

Lemma insert_mapping_none port host document :
  insert_mapping port host document = Ok None → existsb (same_mapping port host) (mappings document) = true.
Proof.
  unfold insert_mapping, mappings. destruct (e_get (bs "workspace") document) as [[| |w|]|]; try done.
  destruct (e_get (bs "expose") w) as [[| | |tables]|]; simpl; try done. by destruct (existsb _ tables).
Qed.
Lemma write_mapping_inv path port host w w' r :
  write_mapping allows path port host w = (w', r) →
  wo_claims w' = wo_claims w ∧ wt_commands (wo_ws w') = wt_commands (wo_ws w) ∧
  (∀ p h, mapped (wt_config (wo_ws w)) p h → mapped (wt_config (wo_ws w')) p h) ∧
  (∀ b, r = Ok b → mapped (wt_config (wo_ws w')) port host) ∧
  (wo_ws w' = wo_ws w ∨ ∃ text, wo_ws w' = with_config (Some text) (wo_ws w)).
Proof.
  unfold write_mapping. destruct (_ && _); [intros [= <- <-]; split_and!; eauto; done|].
  unfold ensure_expose_entry. destruct (te_parse (default [] (wt_config (wo_ws w)))) as [document|] eqn:Ep;
    cbn [ok_or mbind result_bind]; [|intros [= <- <-]; split_and!; eauto; done].
  destruct (insert_mapping port host document) as [[changed|]|[]] eqn:Ei; cbn [option_map mbind result_bind];
    try by (intros [= <- <-]; split_and!; eauto; done).
  2: { intros [= <- <-]. split_and!; eauto. intros _ _. exists document. split; [done|]. by apply insert_mapping_none. }
  destruct (allows OpProjectDir); [|intros [= <- <-]; split_and!; eauto; done].
  destruct (allows OpWriteProject); [|intros [= <- <-]; split_and!; eauto; done].
  intros [= <- <-]. destruct (insert_mapping_spec _ _ _ _ Ei) as (Hm & _ & _).
  cbn [wo_claims wo_ws with_config wt_commands wt_config].
  split_and!; [done|done| | |by right; exists (te_print changed)].
  - intros p h (d & Hd & Hin). exists changed. split; [by apply te_parse_print|]. rewrite Hm, existsb_app. replace d with document in Hin by congruence. by rewrite Hin.
  - intros _ _. exists changed. split; [by apply te_parse_print|]. rewrite Hm, existsb_app. simpl. by rewrite same_mapping_table, orb_true_r.
Qed.
End Mapping.

Section Steps.
Context `{!TomlEdit, !TomlEditLaws, !ClaimJson} (registry_file : option Path) (allows : FileOp → bool).
Context (root : Path) (host_home : option Path) (linux : bool) (can : Target → Outcome) (ca_ok : bool).
Context (load_config : option bytes → result StackError AppConfig).
Context (registry : result StackError Registry) (fnox : result StackError (option FnoxSource)).
Context (generate : AppConfig → ProxyBackend → GrantState → GrantState * result StackError bytes).
Context (hasher : list HashItem → N) (files : ConfigFiles) (dockerfile : WorkspaceBuild → Path * option bytes) (context : WorkspaceBuild → TreeEntry).
Context (mise : MiseFiles) (global_compose workspace_compose : bool) (compose_exit : list (list bytes) → list bytes → option N).
Local Abbreviation start := (expose_start allows root host_home linux can ca_ok load_config registry fnox generate hasher files dockerfile context mise
  global_compose workspace_compose compose_exit).
Local Abbreviation check := (expose_check registry_file allows root).
Local Abbreviation record := (expose_record registry_file allows root).
Local Abbreviation steps := (expose_steps registry_file allows root host_home linux can ca_ok load_config registry fnox generate hasher files dockerfile context mise
  global_compose workspace_compose compose_exit).
Local Abbreviation expose := (expose_run registry_file allows root host_home linux can ca_ok load_config registry fnox generate hasher files dockerfile context mise
  global_compose workspace_compose compose_exit).
Local Abbreviation publish := (compose_port root global_compose workspace_compose compose_exit).
Local Abbreviation init := (init_workspace root host_home can ca_ok load_config registry fnox generate hasher files mise).
Local Abbreviation up := (up_workspace root can ca_ok load_config hasher dockerfile context global_compose workspace_compose compose_exit).

(** What a mapping that is there keeps, across a change of the workspace. *)
Definition keeps_mapped (s s' : Ws) : Prop := ∀ port host, mapped (wt_config s) port host → mapped (wt_config s') port host.

Lemma init_inv backend explicit_backend s s' r :
  init backend explicit_backend s = (s', r) → wt_config s' = wt_config s ∧ wt_commands s' = wt_commands s.
Proof.
  intros Hrun. pose proof (init_ends root host_home can ca_ok load_config registry fnox generate hasher files mise backend explicit_backend s) as He.
  unfold ends in He. rewrite Hrun in He. destruct He as [[] _]. done.
Qed.
Lemma up_inv is_forced s s' r :
  up is_forced s = (s', r) →
  wt_config s' = wt_config s ∧
  match r with
  | Ok _ => ∃ b, wt_commands s' = wt_commands s ++ [up_argv b] ∧ exit_result success (compose_exit (wt_commands s) (up_argv b)) = Ok () ∧
      layered global_compose workspace_compose s' = true
  | Err _ => wt_commands s' = wt_commands s ∨ ∃ b, wt_commands s' = wt_commands s ++ [up_argv b]
  end.
Proof.
  intros Hrun. pose proof (up_ends root can ca_ok load_config hasher dockerfile context global_compose workspace_compose compose_exit is_forced s) as He.
  unfold ends in He. rewrite Hrun in He. cbn [fst snd] in He. destruct He as [Hf He]. split; [apply Hf|]. destruct r as [[]|err].
  - destruct He as (config & b & _ & _ & Hla & Hc & Hx & _). exists b. split_and!; [done|done|]. unfold layered in *. by rewrite (uf_compose _ _ Hf).
  - destruct He as [[_ Hc]|(config & b & _ & _ & Hc & _)]; eauto.
Qed.
Lemma start_inv port host w w' r :
  start port host w = (w', r) →
  wo_claims w' = wo_claims w ∧ keeps_mapped (wo_ws w) (wo_ws w') ∧
  match r with
  | Ok _ => mapped (wt_config (wo_ws w')) port host ∧ layered global_compose workspace_compose (wo_ws w') = true ∧
      ∃ b, wt_commands (wo_ws w') = wt_commands (wo_ws w) ++ [up_argv b] ∧
        exit_result success (compose_exit (wt_commands (wo_ws w)) (up_argv b)) = Ok ()
  | Err _ => wt_commands (wo_ws w') = wt_commands (wo_ws w) ∨ ∃ b, wt_commands (wo_ws w') = wt_commands (wo_ws w) ++ [up_argv b]
  end.
Proof.
  unfold expose_start. intros [(w1 & b & Hm & Hrun)|(err & Hm & ->)]%act_bind_inv; apply write_mapping_inv in Hm as (Hc1 & Ho1 & Hk1 & Hm & _); [|by eauto].
  specialize (Hm b eq_refl).
  apply act_bind_inv in Hrun as [(w2 & backend & Hb & Hrun)|(err & Hb & ->)]; apply act_lift_inv in Hb as [-> Hb]; [|by eauto].
  apply act_bind_inv in Hrun as [(w3 & [] & Hi & Hrun)|(err & Hi & ->)]; apply on_ws_inv in Hi as [Hc3 Hi]; apply init_inv in Hi as [Hf3 Ho3].
  2: { unfold keeps_mapped. rewrite Hc3, Hf3, Ho3, Hc1, Ho1. eauto. }
  apply on_ws_inv in Hrun as [Hc4 Hrun]. apply up_inv in Hrun as [Hf4 Hr]. unfold keeps_mapped. rewrite Hc4, Hf4, Hc3, Hf3, Hc1.
  split; [done|]. split; [done|]. rewrite Ho3, Ho1 in Hr. destruct r as [[]|err]; [|done]. destruct Hr as (b' & ? & ? & ?). eauto 10.
Qed.
Lemma check_claim_ok claims slug host port :
  check_claim claims slug host port = Ok () ↔ ∀ claim, claims !! host = Some claim → cl_workspace claim = slug ∧ cl_port claim = port.
Proof.
  unfold check_claim. destruct (claims !! host) as [claim|]; [|by split]. destruct (decide (cl_workspace claim = slug)) as [Hs|Hs].
  - rewrite bool_decide_eq_true_2 by done. cbn [andb]. destruct (N.eqb_spec (cl_port claim) port) as [Hp|Hp]; [naive_solver|].
    split; [done|]. intros Hc. by destruct (Hc claim eq_refl).
  - rewrite bool_decide_eq_false_2 by done. split; [done|]. intros Hc. by destruct (Hc claim eq_refl).
Qed.
Lemma check_claim_err claims slug host port err :
  check_claim claims slug host port = Err err →
  ∃ claim, claims !! host = Some claim ∧ (cl_workspace claim ≠ slug ∨ cl_port claim ≠ port) ∧
    err = ExposeInUse host (cl_workspace claim) (cl_root claim) (cl_port claim).
Proof.
  unfold check_claim. destruct (claims !! host) as [claim|]; [|done]. destruct (_ && _) eqn:E; [done|]. intros [= <-]. exists claim. split_and!; [done| |done].
  apply andb_false_iff in E as [E%bool_decide_eq_false|E%N.eqb_neq]; auto.
Qed.
(** The claim a command records, and the command that proves it. *)
Definition own_claim (port : N) : Claim := {| cl_workspace := workspace_slug root; cl_root := root; cl_port := port |}.
Definition port_argv (port : N) : list bytes := [bs "port"; bs "hodor"; dec port].
Definition reads (w : World) : result StackError Claims := (read_registry registry_file allows w).2.

Lemma check_inv port host w w' r :
  check port host w = (w', r) →
  w' = w ∧
  match r with
  | Ok _ => ∃ claims, reads w = Ok claims ∧ check_claim claims (workspace_slug root) host port = Ok ()
  | Err err => reads w = Err err ∨ ∃ claims, reads w = Ok claims ∧ check_claim claims (workspace_slug root) host port = Err err
  end.
Proof.
  unfold expose_check, reads. intros [(w1 & claims & Hr & Hrun)|(err & Hr & ->)]%act_bind_inv; rewrite ?Hr; cbn [snd];
    apply read_registry_inv in Hr as [-> _]; [|eauto].
  apply act_lift_inv in Hrun as [-> Hrun]. split; [done|]. destruct r as [[]|err]; eauto.
Qed.
Lemma record_inv port host w w' r :
  record port host w = (w', r) →
  wo_ws w' = wo_ws w ∧
  match r with
  | Ok _ => is_Some registry_file ∧ ∃ claims text, reads w = Ok claims ∧ cj_print (<[host := own_claim port]> claims) = Some text ∧ wo_claims w' = Some text
  | Err _ => wo_claims w' = wo_claims w
  end.
Proof.
  unfold expose_record, reads. intros [(w1 & claims & Hr & Hrun)|(err & Hr & ->)]%act_bind_inv; rewrite ?Hr; cbn [snd];
    apply read_registry_inv in Hr as [-> _]; [|done].
  apply write_registry_inv in Hrun as [Hs Hw]. split; [done|]. destruct r as [[]|err]; [|by subst]. destruct Hw as (? & text & ? & ?). eauto 10.
Qed.
Lemma publish_inv port host w w' r :
  layered global_compose workspace_compose (wo_ws w) = true → publish port host w = (w', r) →
  wo_claims w' = wo_claims w ∧ wo_ws w' = with_command (port_argv port) (wo_ws w) ∧
  r = match compose_exit (wt_commands (wo_ws w)) (port_argv port) with
      | None => Err SpawnCompose
      | Some status => if (status =? 0)%N then Ok () else Err (ExposeVerify host port)
      end.
Proof.
  intros Hla. unfold compose_port. pose proof (compose_run_ends root global_compose workspace_compose compose_exit success (port_argv port) (wo_ws w)) as Hc.
  unfold layered in Hla. rewrite Hla in Hc. unfold ends in Hc.
  destruct (on_ws _ w) as [w1 r1] eqn:Eo. apply on_ws_inv in Eo as [Hcl Eo]. fold (port_argv port) in Eo. rewrite Eo in Hc. cbn [fst snd] in Hc.
  destruct Hc as [Hs ->]. unfold exit_result, success. destruct (compose_exit _ _) as [n|]; [destruct (n =? 0)%N|]; intros [= <- <-]; by rewrite Hs.
Qed.
Lemma refused_ports_ok port host :
  refused_ports port host = Ok () → Forall (λ p, p ≠ 0 ∧ p ≠ 15000 ∧ p ≠ 15001)%N [port; host].
Proof.
  unfold refused_ports. destruct ((port =? 0)%N || (host =? 0)%N) eqn:E0; [done|]. apply orb_false_iff in E0 as [Hp%N.eqb_neq Hh%N.eqb_neq].
  cbn [try_fold mbind result_bind]. destruct ((port =? 15000)%N || (port =? 15001)%N) eqn:Ep; [done|]. cbn [mbind result_bind].
  destruct ((host =? 15000)%N || (host =? 15001)%N) eqn:Eh; [done|]. intros _.
  apply orb_false_iff in Ep as [?%N.eqb_neq ?%N.eqb_neq]. apply orb_false_iff in Eh as [?%N.eqb_neq ?%N.eqb_neq]. by repeat constructor.
Qed.
Lemma reads_eq w w' : wo_claims w' = wo_claims w → reads w' = reads w.
Proof. unfold reads, read_registry. by intros ->. Qed.

(** Where a run that got past the check stops: before the claim, which is
    then not there, or after it. *)
Definition stopped_unclaimed (w w' : World) (r : result StackError ()) : Prop :=
  wo_claims w' = wo_claims w ∧ (∃ err, r = Err err) ∧
  (wt_commands (wo_ws w') = wt_commands (wo_ws w) ∨ ∃ b, wt_commands (wo_ws w') = wt_commands (wo_ws w) ++ [up_argv b]).
Definition claimed (port host : N) (claims : Claims) (w w' : World) (r : result StackError ()) : Prop :=
  ∃ b text, cj_print (<[host := own_claim port]> claims) = Some text ∧ wo_claims w' = Some text ∧ mapped (wt_config (wo_ws w')) port host ∧
    wt_commands (wo_ws w') = wt_commands (wo_ws w) ++ [up_argv b; port_argv port] ∧
    exit_result success (compose_exit (wt_commands (wo_ws w)) (up_argv b)) = Ok () ∧
    r = match compose_exit (wt_commands (wo_ws w) ++ [up_argv b]) (port_argv port) with
        | None => Err SpawnCompose
        | Some status => if (status =? 0)%N then Ok () else Err (ExposeVerify host port)
        end.

Lemma steps_inv port host w w' r :
  steps port host w = (w', r) →
  keeps_mapped (wo_ws w) (wo_ws w') ∧
  ((w' = w ∧ ∃ err, r = Err err ∧ (reads w = Err err ∨ ∃ claims, reads w = Ok claims ∧ check_claim claims (workspace_slug root) host port = Err err)) ∨
   ∃ claims, reads w = Ok claims ∧ check_claim claims (workspace_slug root) host port = Ok () ∧
     (stopped_unclaimed w w' r ∨ is_Some registry_file ∧ claimed port host claims w w' r)).
Proof.
  unfold expose_steps. intros [(w1 & [] & Hc & Hrun)|(err & Hc & ->)]%act_bind_inv; apply check_inv in Hc as [-> Hc].
  2: { split; [by intros ??|]. left. eauto. }
  destruct Hc as (claims & Hr & Hc).
  apply act_bind_inv in Hrun as [(w2 & [] & Hs & Hrun)|(err & Hs & ->)]; apply start_inv in Hs as (Hcl & Hk & Hs).
  2: { split; [done|]. right. exists claims. split_and!; [done|done|]. left. split_and!; eauto. }
  destruct Hs as (Hm & Hla & b & Hcmd & Hx).
  apply act_bind_inv in Hrun as [(w3 & [] & Hrec & Hrun)|(err & Hrec & ->)]; apply record_inv in Hrec as [Hws Hrec].
  2: { split; [by rewrite Hws|]. right. exists claims. split_and!; [done|done|]. left. unfold stopped_unclaimed. rewrite <- Hcl. split_and!; eauto. right. exists b. by rewrite Hws. }
  destruct Hrec as (Hreg & claims' & text & Hr' & Hp & Hcl3). rewrite (reads_eq _ _ Hcl), Hr in Hr'. injection Hr' as <-.
  apply publish_inv in Hrun as (Hcl4 & Hws4 & ->); [|by rewrite Hws].
  split. { unfold keeps_mapped. rewrite Hws4, Hws. exact Hk. }
  right. exists claims. split_and!; [done|done|]. right. split; [done|]. exists b, text. rewrite Hcl4, Hws4, Hws. cbn [with_command wt_config wt_commands].
  split_and!; try done.
  - by rewrite Hcmd, <- app_assoc.
  - by rewrite Hcmd.
Qed.

(** What [expose] does to the claims all workspaces share. Without a port,
    with port zero or a capture port, or when the claims cannot be read, it
    fails with nothing touched; so it does, naming the owner, when the host
    port is claimed for another workspace or another port. Otherwise it either
    fails before claiming, the claims as they were, or it started the stack
    with the mapping in the project's configuration and then recorded exactly
    its own claim beside the others; it succeeds if and only if the published
    port was then found. *)
Theorem expose_exact args w w' r (Hrun : expose args w = (w', r)) :
  match xa_port args with
  | None => w' = w ∧ r = Err ExposeNoPort
  | Some port =>
      let host := default port (xa_host args) in
      (w' = w ∧ ∃ err, r = Err err ∧ (refused_ports port host = Err err ∨ reads w = Err err)) ∨
      (∃ claims claim, reads w = Ok claims ∧ claims !! host = Some claim ∧ (cl_workspace claim ≠ workspace_slug root ∨ cl_port claim ≠ port) ∧
         w' = w ∧ r = Err (ExposeInUse host (cl_workspace claim) (cl_root claim) (cl_port claim))) ∨
      (∃ claims, reads w = Ok claims ∧ Forall (λ p, p ≠ 0 ∧ p ≠ 15000 ∧ p ≠ 15001)%N [port; host] ∧
         (∀ claim, claims !! host = Some claim → cl_workspace claim = workspace_slug root ∧ cl_port claim = port) ∧
         (stopped_unclaimed w w' r ∨ claimed port host claims w w' r))
  end.
Proof.
  unfold expose_run in Hrun. destruct (xa_port args) as [port|]; [|by injection Hrun as <- <-].
  cbv zeta in Hrun |- *. set (host := default port (xa_host args)) in *.
  apply act_bind_inv in Hrun as [(w1 & [] & Hp & Hrun)|(err & Hp & ->)]; apply act_lift_inv in Hp as [-> Hp]; [|left; eauto].
  apply steps_inv in Hrun as [_ [(-> & err & -> & [Hr|(claims & Hr & Hc)])|(claims & Hr & Hc & Hs)]].
  - left. eauto.
  - right. left. apply check_claim_err in Hc as (claim & Hl & Ho & ->). by exists claims, claim.
  - right. right. exists claims. split_and!; [done|by apply refused_ports_ok|by apply check_claim_ok|]. destruct Hs as [Hs|[_ Hs]]; auto.
Qed.
End Steps.

(** ** Many workspaces *)

(** The host as one command of one workspace finds it. *)
Record Site := {
  si_root : Path; si_home : option Path; si_uid : N; si_linux : bool; si_allows : FileOp → bool; si_can : Target → Outcome; si_ca_ok : bool;
  si_load : option bytes → result StackError AppConfig; si_registry : result StackError Registry; si_fnox : result StackError (option FnoxSource);
  si_generate : AppConfig → ProxyBackend → GrantState → GrantState * result StackError bytes;
  si_hasher : list HashItem → N; si_files : ConfigFiles; si_dockerfile : WorkspaceBuild → Path * option bytes; si_context : WorkspaceBuild → TreeEntry;
  si_mise : MiseFiles; si_global : bool; si_workspace : bool; si_exit : list (list bytes) → list bytes → option N;
}.
Inductive Command :=
| CmdInit (backend : option ProxyBackend)
| CmdUp (is_forced : bool)
| CmdDown
| CmdAgent (rm build : bool) (command : list bytes)
| CmdLogs (args : LogsArgs)
| CmdExpose (args : ExposeArgs).
(** The claims, and the workspaces by root; each has its own state directory,
    as roots whose slugs differ have. *)
Record Sys := { sy_claims : option bytes; sy_ws : Path → Ws }.

Section System.
Context `{!TomlEdit, !ClaimJson} (registry_file : option Path).

Definition command_act (site : Site) (c : Command) : Act () :=
  match c with
  | CmdInit backend => on_ws (init_run (si_root site) (si_home site) (si_linux site) (si_can site) (si_ca_ok site) (si_load site) (si_registry site) (si_fnox site)
      (si_generate site) (si_hasher site) (si_files site) (si_mise site) backend)
  | CmdUp is_forced => on_ws (up_workspace (si_root site) (si_can site) (si_ca_ok site) (si_load site) (si_hasher site) (si_dockerfile site) (si_context site)
      (si_global site) (si_workspace site) (si_exit site) is_forced)
  | CmdDown => down_run registry_file (si_allows site) (si_root site) (si_global site) (si_workspace site) (si_exit site)
  | CmdAgent rm build command => on_ws (agent_run (si_root site) (si_home site) (si_uid site) (si_linux site) (si_can site) (si_ca_ok site) (si_load site)
      (si_registry site) (si_fnox site) (si_generate site) (si_hasher site) (si_files site) (si_dockerfile site) (si_context site) (si_mise site)
      (si_global site) (si_workspace site) (si_exit site) rm build command)
  | CmdLogs args => on_ws (logs_workspace (si_root site) (si_global site) (si_workspace site) (si_exit site) args)
  | CmdExpose args => expose_run registry_file (si_allows site) (si_root site) (si_home site) (si_linux site) (si_can site) (si_ca_ok site) (si_load site)
      (si_registry site) (si_fnox site) (si_generate site) (si_hasher site) (si_files site) (si_dockerfile site) (si_context site) (si_mise site)
      (si_global site) (si_workspace site) (si_exit site) args
  end.
(** One command after the other; each acts on the workspace of its root. *)
Definition sys_step (s : Sys) (c : Site * Command) : Sys :=
  let root := si_root c.1 in
  let w := (command_act c.1 c.2 {| wo_claims := sy_claims s; wo_ws := sy_ws s root |}).1 in
  {| sy_claims := wo_claims w; sy_ws := λ p, if decide (p = root) then wo_ws w else sy_ws s p |}.
Definition sys_run (s : Sys) (cs : list (Site * Command)) : Sys := foldl sys_step s cs.

Lemma keeps_config_bind {A B} (m : Cmd A) (f : A → Cmd B) :
  (∀ s, wt_config (m s).1 = wt_config s) → (∀ a s, wt_config (f a s).1 = wt_config s) → ∀ s, wt_config ((m ≫= f) s).1 = wt_config s.
Proof.
  intros Hm Hf s. unfold mbind, cmd_bind. specialize (Hm s). destruct (m s) as [s1 [a|err]]; cbn [fst] in *; [|done]. by rewrite Hf.
Qed.
Lemma compose_run_config root g l x ok argv s : wt_config (compose_run root g l x ok argv s).1 = wt_config s.
Proof.
  pose proof (compose_run_ends root g l x ok argv s) as Hc. unfold ends in Hc.
  destruct (g || bool_of_opt (wt_compose s) || l); by destruct Hc as [-> _].
Qed.
Lemma exec_config root home uid load g l x command s : wt_config (exec_agent root home uid load g l x command s).1 = wt_config s.
Proof. unfold exec_agent. revert s. repeat (apply keeps_config_bind; [done|intros ?]). intros s. apply compose_run_config. Qed.
Lemma agent_config site rm build command w w' r :
  command_act site (CmdAgent rm build command) w = (w', r) → wt_config (wo_ws w') = wt_config (wo_ws w).
Proof.
  cbn [command_act]. intros [_ Hrun]%on_ws_inv. apply (f_equal fst) in Hrun. cbn [fst] in Hrun. rewrite <- Hrun. generalize (wo_ws w). clear.
  unfold agent_run. apply keeps_config_bind; [done|]. intros backend. apply keeps_config_bind.
  { intros s. destruct (init_workspace _ _ _ _ _ _ _ _ _ _ _ _ _ s) as [s' r] eqn:E. apply init_inv in E as [E _]. exact E. }
  intros _. apply keeps_config_bind.
  { intros s. destruct (up_workspace _ _ _ _ _ _ _ _ _ _ _ s) as [s' r] eqn:E. apply up_inv in E as [E _]. exact E. }
  intros _. destruct rm; cbn [negb]; [|apply exec_config]. intros s.
  pose proof (exec_config (si_root site) (si_home site) (si_uid site) (si_load site) (si_global site) (si_workspace site) (si_exit site) command s) as He.
  destruct (exec_agent _ _ _ _ _ _ _ _ s) as [s1 r1]. cbn [fst] in He.
  pose proof (compose_run_config (si_root site) (si_global site) (si_workspace site) (si_exit site) success [bs "down"] s1) as Hd.
  unfold down_workspace, compose_status. destruct (compose_run _ _ _ _ _ _ s1) as [s2 r2]. cbn [fst] in *. congruence.
Qed.

Context `{!TomlEditLaws, !ClaimJsonLaws}.
(** What a command may do to the claims: nothing, record its own where no
    other is, or give its workspace's back. *)
Lemma command_claims site c w w' r :
  command_act site c w = (w', r) →
  keeps_mapped (wo_ws w) (wo_ws w') ∧
  (wo_claims w' = wo_claims w ∨
   ∃ claims claims', claims_of (wo_claims w) = Some claims ∧ claims_of (wo_claims w') = Some claims' ∧
     ((∃ port host, check_claim claims (workspace_slug (si_root site)) host port = Ok () ∧
         claims' = <[host := own_claim (si_root site) port]> claims ∧ mapped (wt_config (wo_ws w')) port host) ∨
      c = CmdDown ∧ claims' = filter (λ entry : N * Claim, cl_workspace entry.2 ≠ workspace_slug (si_root site)) claims)).
Proof.
  assert (∀ s s', wt_config s' = wt_config s → keeps_mapped s s') as Hk by (unfold keeps_mapped; by intros s s' ->).
  destruct c as [backend|is_forced| |rm build command|args|args]; cbn [command_act]; intros Hrun.
  - apply on_ws_inv in Hrun as [Hc Hrun]. split; [|by left]. apply Hk. unfold init_run, mbind, cmd_bind, lift in Hrun.
    destruct (resolve_backend _ _) as [b|]; [apply init_inv in Hrun as [? _]; done|by injection Hrun as <- _].
  - apply on_ws_inv in Hrun as [Hc Hrun]. split; [|by left]. apply Hk. by apply up_inv in Hrun as [? _].
  - apply act_bind_inv in Hrun as [(w1 & [] & Hd & Hrun)|(err & Hd & ->)]; apply on_ws_inv in Hd as [Hc Hd];
      pose proof (compose_run_config (si_root site) (si_global site) (si_workspace site) (si_exit site) success [bs "down"] (wo_ws w)) as Hf;
      unfold down_workspace, compose_status in Hd; rewrite Hd in Hf; cbn [fst] in Hf; [|split; [by apply Hk|by left]].
    unfold ignoring in Hrun. destruct (prune_workspace _ _ _ w1) as [w2 r2] eqn:Ep. injection Hrun as <- _.
    apply prune_workspace_inv in Ep as [Hws Hp]. split; [apply Hk; cbn [fst]; by rewrite Hws|]. rewrite Hc in Hp. destruct Hp as [Hp|(claims & text & Hcl & Ht & Hpr)]; [by left|].
    right. exists claims, (filter (λ entry : N * Claim, cl_workspace entry.2 ≠ workspace_slug (si_root site)) claims). split; [done|]. split; [|by right].
    cbn [fst]. rewrite Ht. by apply cj_parse_print.
  - pose proof (agent_config site rm build command w w' r Hrun) as Hf. apply on_ws_inv in Hrun as [Hc _]. split; [by apply Hk|by left].
  - apply on_ws_inv in Hrun as [Hc Hrun]. split; [|by left]. apply Hk. apply (f_equal fst) in Hrun. cbn [fst] in Hrun. rewrite <- Hrun. apply compose_run_config.
  - unfold expose_run in Hrun. destruct (xa_port args) as [port|]; [|injection Hrun as <- _; by split; [apply Hk|left]].
    apply act_bind_inv in Hrun as [(w1 & [] & Hp & Hrun)|(err & Hp & ->)]; apply act_lift_inv in Hp as [-> Hp]; [|by split; [apply Hk|left]].
    apply steps_inv in Hrun as [Hkm [(-> & _)|(claims & Hr & Hc & [(Hcl & _)|[[path Hreg] (b & text & Hpr & Hcl & Hm & _)]])]];
      (split; [done|]); [by left|by left|]. right.
    unfold reads in Hr. destruct (read_registry _ _ w) as [w1 r1] eqn:Er. cbn [snd] in Hr. subst r1. apply read_registry_inv in Er as [_ Er].
    destruct (Er claims eq_refl) as [[? _]|[_ Hcls]]; [congruence|].
    exists claims, (<[default port (xa_host args) := own_claim (si_root site) port]> claims). split; [done|]. rewrite Hcl. split; [by apply cj_parse_print|]. left. eauto.
Qed.

(** The claims of a system. *)
Definition sys_claims (s : Sys) : option Claims := claims_of (sy_claims s).
(** Every claim is backed by its workspace's configuration. *)
Definition backed (s : Sys) : Prop :=
  ∀ claims host claim, sys_claims s = Some claims → claims !! host = Some claim → mapped (wt_config (sy_ws s (cl_root claim))) (cl_port claim) host.

(** C10: A claim is its workspace's until that workspace is stopped: after any
    commands of any workspaces, one after the other, whatever their results,
    the host port is still claimed for the same workspace and container port,
    unless the workspace ran [down] in between. *)
Theorem claims_kept s cs claims host claim
    (Hclaims : sys_claims s = Some claims) (Hclaim : claims !! host = Some claim)
    (Hdown : Forall (λ c, c.2 = CmdDown → workspace_slug (si_root c.1) ≠ cl_workspace claim) cs) :
  ∃ claims' claim', sys_claims (sys_run s cs) = Some claims' ∧ claims' !! host = Some claim' ∧
    cl_workspace claim' = cl_workspace claim ∧ cl_port claim' = cl_port claim.
Proof.
  revert s claims claim Hclaims Hclaim Hdown. induction cs as [|[site c] cs IH]; intros s claims claim Hclaims Hclaim Hdown; [by exists claims, claim|].
  apply Forall_cons in Hdown as [Hd Hdown]. cbn [fst snd] in Hd. unfold sys_run. cbn [foldl]. fold (sys_run (sys_step s (site, c)) cs).
  assert (∃ claims1 claim1, sys_claims (sys_step s (site, c)) = Some claims1 ∧ claims1 !! host = Some claim1 ∧
    cl_workspace claim1 = cl_workspace claim ∧ cl_port claim1 = cl_port claim) as (claims1 & claim1 & E1 & E2 & E3 & E4).
  2: { destruct (IH _ _ _ E1 E2) as (claims' & claim' & ? & ? & ? & ?); [by rewrite E3|]. exists claims', claim'. by rewrite <- E3, <- E4. }
  unfold sys_claims, sys_step. cbn [fst snd sy_claims]. destruct (command_act _ _ _) as [w' r] eqn:Er. cbn [fst]. unfold sys_claims in Hclaims.
  apply command_claims in Er as [_ [Hc|(cl & cl' & Hcl & Hcl' & Hcase)]]; cbn [wo_claims] in *.
  { rewrite Hc. by exists claims, claim. }
  rewrite Hclaims in Hcl. injection Hcl as <-. exists cl'. rewrite Hcl'. destruct Hcase as [(port & host' & Hck & -> & _)|[-> ->]].
  - destruct (decide (host' = host)) as [-> |Hne]; [|exists claim; by rewrite lookup_insert_ne].
    exists (own_claim (si_root site) port). rewrite lookup_insert. rewrite check_claim_ok in Hck. destruct (Hck _ Hclaim). by rewrite decide_True.
  - exists claim. split; [done|]. split; [|done]. apply map_lookup_filter_Some. split; [done|]. intros Heq. by destruct (Hd eq_refl).
Qed.

(** After any commands of any workspaces, one after the other, whatever
    their results, every claim is backed: the project of the workspace that
    holds it maps the claimed host port to the claimed container port. *)
Theorem claims_backed s cs (Hbacked : backed s) : backed (sys_run s cs).
Proof.
  revert s Hbacked. induction cs as [|[site c] cs IH]; intros s Hb; [done|]. apply IH. clear IH cs.
  intros claims host claim. unfold sys_claims, sys_step. cbn [fst snd sy_claims sy_ws]. destruct (command_act _ _ _) as [w' r] eqn:Er. cbn [fst].
  apply command_claims in Er as [Hk Hcase]. cbn [wo_claims wo_ws] in Hk, Hcase.
  assert (∀ claims, sys_claims s = Some claims → claims !! host = Some claim →
    mapped (wt_config (if decide (cl_root claim = si_root site) then wo_ws w' else sy_ws s (cl_root claim))) (cl_port claim) host) as Hold.
  { intros cl Hcl Hin. specialize (Hb cl host claim Hcl Hin). destruct (decide (cl_root claim = si_root site)) as [He|]; [|done].
    apply Hk. by rewrite <- He. }
  destruct Hcase as [-> |(cl & cl' & Hcl & -> & Hcase)]; [by apply Hold|]. intros [= <-]. destruct Hcase as [(port & host' & _ & -> & Hm)|[-> ->]].
  - destruct (decide (host' = host)) as [-> |Hne].
    + rewrite lookup_insert, decide_True by done. intros [= <-]. cbn [own_claim cl_root cl_port]. by rewrite decide_True.
    + rewrite lookup_insert_ne by done. by apply Hold.
  - intros [Hin _]%map_lookup_filter_Some. by eapply Hold.
Qed.
End System.

(** ** Witnesses *)

#[export] Instance claim_eq_dec : EqDecision Claim. Proof. solve_decision. Defined.
#[export] Instance claim_countable : Countable Claim :=
  inj_countable' (λ c, (cl_workspace c, cl_root c, cl_port c)) (λ t, {| cl_workspace := t.1.1; cl_root := t.1.2; cl_port := t.2 |}) ltac:(by intros []).
Definition coded_json : ClaimJson := {| cj_parse := read_coded; cj_print claims := Some (coded_text claims) |}.
Lemma coded_json_laws : @ClaimJsonLaws coded_json.
Proof. split. intros claims text [= <-]. apply read_coded_text. Qed.

Definition sample_site (root : bytes) : Site :=
  {| si_root := components root; si_home := None; si_uid := 1000; si_linux := true; si_allows _ := true; si_can _ := Works; si_ca_ok := true;
     si_load _ := Ok (sample_config None); si_registry := Ok Registry_default; si_fnox := Ok None; si_generate := renders None sample_build;
     si_hasher := sample_hasher; si_files := sample_files; si_dockerfile _ := (components (bs "/Dockerfile"), None); si_context _ := TeDir [];
     si_mise := sample_mise; si_global := false; si_workspace := false; si_exit _ _ := Some 0%N |}.
Definition claims_path : option Path := Some (components (bs "/state/hodor/exposed.json")).
Definition expose_3000 : ExposeArgs := {| xa_port := Some 3000%N; xa_host := None; xa_list := false |}.
Definition fresh_sys : Sys := {| sy_claims := None; sy_ws _ := sample_ws |}.
Local Abbreviation run_sample := (@sys_run coded_edit coded_json claims_path).

Example second_expose_refused :
  (@command_act coded_edit coded_json claims_path (sample_site (bs "/b")) (CmdExpose expose_3000)
     {| wo_claims := sy_claims (run_sample fresh_sys [(sample_site (bs "/a"), CmdExpose expose_3000)]); wo_ws := sample_ws |}).2 =
  Err (ExposeInUse 3000 (bs "a") (components (bs "/a")) 3000).
Proof. vm_compute. reflexivity. Qed.
Definition sample_claims : Claims := {[3000%N := own_claim (components (bs "/a")) 3000]}.
Local Abbreviation site_a := (sample_site (bs "/a")).
Local Abbreviation site_b := (sample_site (bs "/b")).
Local Abbreviation expose_a := (@expose_run coded_edit coded_json claims_path (λ _, true) (components (bs "/a")) None true (λ _, Works) true
  (λ _, Ok (sample_config None)) (Ok Registry_default) (Ok None) (renders None sample_build) sample_hasher sample_files
  (λ _, (components (bs "/Dockerfile"), None)) (λ _, TeDir []) sample_mise false false (λ _ _, Some 0%N)).
Lemma expose_exact_witness :
  ∃ w', expose_a expose_3000 {| wo_claims := None; wo_ws := sample_ws |} = (w', Ok ()) ∧
    wo_claims w' = Some (coded_text sample_claims).
Proof.
  set (w := {| wo_claims := None; wo_ws := sample_ws |}).
  assert ((expose_a expose_3000 w).2 = Ok ()) as Hr by (vm_compute; reflexivity).
  destruct (expose_a expose_3000 w) as [w' r] eqn:E. cbn [snd] in Hr. subst r. exists w'. split; [reflexivity|].
  pose proof (@expose_exact coded_edit coded_edit_laws coded_json claims_path _ _ _ _ _ _ _ _ _ _ sample_hasher _ _ _ _ _ _ _ expose_3000 w w' (Ok ()) E) as He.
  cbn [expose_3000 xa_port xa_host default] in He. destruct He as [[_ (err & Herr & _)]|[(? & ? & _ & _ & _ & _ & Herr)|(claims & Hc & _ & _ & Hs)]]; [discriminate|discriminate|].
  injection Hc as <-. destruct Hs as [(_ & [err Herr] & _)|(b & text & Hp & Hw & _)]; [discriminate|].
  rewrite Hw. cbn [cj_print coded_json] in Hp. by rewrite <- Hp, insert_empty.
Defined.
Local Abbreviation claimed_sys := {| sy_claims := Some (coded_text sample_claims); sy_ws := λ _, sample_ws |}.
Lemma claims_kept_witness :
  ∃ claims' claim', @sys_claims coded_json (run_sample claimed_sys [(site_b, CmdExpose expose_3000); (site_a, CmdUp false); (site_b, CmdDown)]) = Some claims' ∧
    claims' !! 3000%N = Some claim' ∧ cl_workspace claim' = bs "a" ∧ cl_port claim' = 3000%N.
Proof.
  apply (@claims_kept coded_edit coded_json claims_path coded_edit_laws coded_json_laws claimed_sys _ sample_claims 3000
    (own_claim (components (bs "/a")) 3000)).
  - apply read_coded_text.
  - apply lookup_singleton_eq.
  - repeat constructor; cbn [fst snd]; discriminate.
Defined.
Lemma claims_backed_witness : @backed coded_edit coded_json (run_sample fresh_sys [(site_a, CmdExpose expose_3000); (site_b, CmdDown); (site_a, CmdUp false)]).
Proof.
  apply (@claims_backed coded_edit coded_json claims_path coded_edit_laws coded_json_laws fresh_sys).
  intros claims host claim [= <-] Hin. by rewrite lookup_empty in Hin.
Defined.

(** ** What the commands do not protect *)

(** A port the project publishes itself is not seen by the check: the mapping
    is written before the configuration is validated, which then refuses both,
    and so does every later command. *)
Definition publishing_3000 `{!Digests, !UrlCrate, !TomlRegistry} (text : option bytes) : result StackError AppConfig :=
  let workspace := sample_workspace None in
  let exposed := match te_parse (TomlEdit := coded_edit) (default [] text) with
                 | Some document => if existsb (same_mapping 3000 3000) (mappings document) then [{| em_port := 3000; em_host := 3000 |}] else []
                 | None => []
                 end in
  let config :=
    {| ac_proxy := ac_proxy (sample_config None);
       ac_workspace := {| ws_name := ws_name workspace; ws_shell := ws_shell workspace; ws_init := None; ws_include := []; ws_home := None; ws_profile := None;
                          ws_ports := [3000%N]; ws_expose := exposed; ws_passthrough := []; ws_file_rewrite := []; ws_devices := []; ws_cap_add := [];
                          ws_networks := []; ws_extra_hosts := []; ws_image := None; ws_build := None |};
       ac_rules := []; ac_plugins := []; ac_tools := [] |} in
  _ ← map_err StConfig (validate config); Ok config.
Definition publishing_site `{!Digests, !UrlCrate, !TomlRegistry} : Site :=
  {| si_root := components (bs "/a"); si_home := None; si_uid := 1000; si_linux := true; si_allows _ := true; si_can _ := Works; si_ca_ok := true;
     si_load := publishing_3000; si_registry := Ok Registry_default; si_fnox := Ok None; si_generate := renders None sample_build;
     si_hasher := sample_hasher; si_files := sample_files; si_dockerfile _ := (components (bs "/Dockerfile"), None); si_context _ := TeDir [];
     si_mise := sample_mise; si_global := true; si_workspace := false; si_exit _ _ := Some 0%N |}.
Example expose_breaks_config `{!Digests, !UrlCrate, !TomlRegistry} :
  let conflict := Err (StConfig (ExposeHostConflict 3000)) in
  let run c := @command_act coded_edit coded_json claims_path publishing_site c in
  let start := {| wo_claims := None; wo_ws := sample_ws |} in
  (run (CmdUp false) start).2 = Ok () ∧
  (run (CmdExpose expose_3000) start).2 = conflict ∧
  (run (CmdUp false) (run (CmdExpose expose_3000) start).1).2 = conflict.
Proof. vm_compute. done. Qed.

(** Commands that overlap: both see the port unclaimed, and the second record
    takes the first one's claim. *)
Example overlapping_exposes_race :
  let check root := @expose_check coded_json claims_path (λ _, true) root 3000 3000 in
  let record root := @expose_record coded_json claims_path (λ _, true) root 3000 3000 in
  let a := components (bs "/a") in let b := components (bs "/b") in
  let '(w, r) := (_ ← check a; _ ← check b; _ ← record a; record b) {| wo_claims := None; wo_ws := sample_ws |} in
  r = Ok () ∧ @claims_of coded_json (wo_claims w) = Some {[3000%N := own_claim b 3000]}.
Proof. vm_compute. done. Qed.

(** [down] gives the claim back, and the mapping stays: the next [up] of the
    workspace publishes the port unclaimed. *)
Example mapping_outlives_claim :
  let s := run_sample fresh_sys [(site_a, CmdExpose expose_3000); (site_a, CmdDown); (site_a, CmdUp false)] in
  @sys_claims coded_json s = Some ∅ ∧
  (∃ document, te_parse (TomlEdit := coded_edit) (default [] (wt_config (sy_ws s (components (bs "/a"))))) = Some document ∧
     existsb (same_mapping 3000 3000) (mappings document) = true) ∧
  last (wt_commands (sy_ws s (components (bs "/a")))) = Some (up_argv false).
Proof. vm_compute. split; [done|]. split; [by eexists|done]. Qed.
