(* ===== verification/Raw.v ===== *)
(** * The raw wire

    [crates/hodor-proxy/src/transports/tcp/machine.rs] and the pair it is
    built into in [tcp/mod.rs]: equal-length swap over one direction of an
    unframed byte stream. *)

From S2P Require Import Prelude Decoy ConnString Grants Rules Mint Engine.

Record Raw := {
  rw_pairs : list CredentialPair;
  rw_tail_size : nat;
  rw_held : bytes;
}.

Definition with_held (m : Raw) (held : bytes) : Raw :=
  {| rw_pairs := rw_pairs m; rw_tail_size := rw_tail_size m; rw_held := held |}.

Definition equal_length (pair : CredentialPair) : bool :=
  length (cp_needle pair) =? length (cp_replacement pair).

Definition Raw_new (grants : list Grant) (scheme : Scheme) (host : bytes) (port : N) (dir : Direction) : Raw :=
  let pairs := filter (λ p, equal_length p = true) (eligible_pairs grants scheme host port dir) in
  {| rw_pairs := pairs; rw_tail_size := max_tail_size pairs; rw_held := [] |}.

(** The boundary window probed for a hit: the held bytes and the start of the chunk. *)
Definition boundary_window (m : Raw) (chunk : bytes) : bytes :=
  rw_held m ++ take (Nat.min (rw_tail_size m) (length chunk)) chunk.

Definition raw_hit (m : Raw) (chunk : bytes) : bool :=
  existsb (λ pair,
    find_new_match chunk (cp_needle pair) 0 ||
    (negb (bool_decide (rw_held m = [])) &&
     find_crossing (boundary_window m chunk) (cp_needle pair) (length (rw_held m)))) (rw_pairs m).

Definition Raw_feed (m : Raw) (chunk : bytes) : (Rewritten * list Hit) * Raw :=
  if bool_decide (chunk = []) then ((Emit (rw_held m), []), with_held m [])
  else if raw_hit m chunk then
    let '((out, hits), held) := window_step (rw_pairs m) (rw_tail_size m) Body (rw_held m) chunk in
    ((Emit out, hits), with_held m held)
  else
    let hold := if bool_decide (rw_held m = [])
                then needle_prefix_suffix_len chunk (rw_pairs m) (rw_tail_size m)
                else needle_prefix_suffix_len (boundary_window m chunk) (rw_pairs m) (rw_tail_size m) in
    let emit_len := length chunk - hold in
    ((Emit (take emit_len chunk), []),
     with_held m (if 0 <? hold then drop emit_len chunk else [])).

#[export] Instance Raw_wire : Wire Raw := {
  feed := Raw_feed;
  take_reply := no_reply;
  take_peer_note := no_peer_note;
  apply_peer_note := ignore_peer_note;
}.

(** [raw_tcp_pair]: the two directions of one cleartext connection. *)
Definition raw_tcp_pair (grants : list Grant) (host : bytes) (port : N) : Raw * Raw :=
  (Raw_new grants Tcp host port Downstream, Raw_new grants Tcp host port Upstream).

(** ** Properties *)

Lemma replace_in_none d pairs loc :
  (∀ p, p ∈ pairs → cp_needle p ≠ [] → ¬ occurs (cp_needle p) d) → replace_in d pairs loc = (d, []).
Proof.
  intros Hno. unfold replace_in. generalize (@nil Hit) as hits.
  induction pairs as [|p pairs IH]; intros hits; simpl; [done|].
  assert (replace_step loc (d, hits) p = (d, hits)) as ->; [|apply IH; intros; apply Hno; [by right|done]].
  unfold replace_step. simpl. destruct (decide (cp_needle p = [])) as [E|Hn]; [by rewrite E|].
  destruct (replace_bytes_subst _ (cp_replacement p) Hn d) as [_ ->]; [done|]. apply Hno; [by left|done].
Qed.

Lemma safe_emit_none d pairs emit :
  (∀ p, p ∈ pairs → cp_needle p ≠ [] → ¬ occurs (cp_needle p) d) → foldl (safe_emit_pair d) emit pairs = emit.
Proof.
  revert emit. induction pairs as [|p pairs IH]; intros emit Hno; simpl; [done|].
  assert (safe_emit_pair d emit p = emit) as ->; [|apply IH; intros; apply Hno; [by right|done]].
  destruct (decide (cp_needle p = [])) as [E|Hn].
  { unfold safe_emit_pair. by rewrite E. }
  rewrite safe_emit_pair_loop by done. specialize (Hno p ltac:(by left) Hn).
  generalize (S (length d)) as fuel, 0 as cur. intros fuel. induction fuel as [|fuel IHf]; intros cur; simpl; [done|].
  destruct (Nat.leb_spec (cur + length (cp_needle p)) (length d)); [|done].
  destruct (starts_with (drop cur d) (cp_needle p)) eqn:Hs; [|apply IHf].
  destruct Hno. exists cur. split; [lia|]. by apply starts_with_true.
Qed.

Lemma occurs_take needle k d : occurs needle (take k d) → occurs needle d.
Proof. intros H. rewrite <- (take_drop k d). by apply occurs_app_l. Qed.

(** Whenever nothing is held, or a needle is met, feeding a chunk is one
    step of the hold-back window: the longest prefix no needle can still grow
    from is substituted and emitted, the rest held. (What happens otherwise is
    the next statement.) *)
Theorem raw_feed_window m chunk :
  chunk ≠ [] → rw_held m = [] ∨ raw_hit m chunk = true →
  Raw_feed m chunk =
    let '((out, hits), held) := window_step (rw_pairs m) (rw_tail_size m) Body (rw_held m) chunk in
    ((Emit out, hits), with_held m held).
Proof.
  intros Hc Hm. unfold Raw_feed. rewrite bool_decide_eq_false_2 by done.
  destruct (raw_hit m chunk) eqn:Hhit; [done|]. destruct Hm as [Hh|]; [|done].
  rewrite Hh, bool_decide_eq_true_2 by done. unfold window_step. simpl.
  assert (∀ p, p ∈ rw_pairs m → cp_needle p ≠ [] → ¬ occurs (cp_needle p) chunk) as Hno.
  { intros p Hp Hn Ho. apply not_true_iff_false in Hhit. apply Hhit. apply existsb_exists.
    exists p. split; [by apply list_elem_of_In|]. apply orb_true_iff. left. by apply find_new_match_spec. }
  unfold needle_safe_emit_len. rewrite (safe_emit_none chunk) by done.
  rewrite replace_in_none. 2: { intros p Hp Hn Ho%occurs_take. by apply (Hno p). }
  do 2 f_equal. destruct (Nat.ltb_spec 0 (needle_prefix_suffix_len chunk (rw_pairs m) (rw_tail_size m))); [done|].
  rewrite drop_ge by lia. done.
Qed.

(** A stream fed chunk by chunk and flushed at its end: what reaches the peer. *)
Fixpoint raw_stream (m : Raw) (chunks : list bytes) : bytes :=
  match chunks with
  | [] => match (Raw_feed m []).1.1 with Emit out => out | _ => [] end
  | chunk :: chunks =>
      let '((rewritten, _), m) := Raw_feed m chunk in
      match rewritten with Emit out => out | _ => [] end ++ raw_stream m chunks
  end.

(** A chunk that meets no needle discards whatever was held: the emission
    and the new held bytes together are the chunk alone. A stream that pauses
    just after the first byte of a decoy loses that byte. *)
Theorem raw_miss_drops_held :
  (∀ m chunk, chunk ≠ [] → raw_hit m chunk = false →
     ∃ out m', Raw_feed m chunk = ((Emit out, []), m') ∧ out ++ rw_held m' = chunk) ∧
  ∃ m, rw_held m = [] ∧ rw_tail_size m = max_tail_size (rw_pairs m) ∧
    raw_stream m [bs "1a"; bs "2"] = bs "12".
Proof.
  split.
  - intros m chunk Hc Hm. unfold Raw_feed. rewrite bool_decide_eq_false_2, Hm by done.
    eexists _, _. split; [reflexivity|]. simpl. set (hold := if bool_decide (rw_held m = []) then _ else _).
    destruct (Nat.ltb_spec 0 hold) as [?|Hz]; [by rewrite take_drop|].
    rewrite take_ge by lia. by rewrite app_nil_r.
  - exists {| rw_pairs := [{| cp_needle := bs "abcd"; cp_replacement := bs "wxyz"; cp_label := bs "t" |}];
              rw_tail_size := 3; rw_held := [] |}.
    by vm_compute.
Qed.

Lemma raw_feed_window_witness :
  let m := Raw_new [] Tcp (bs "db") 5 Downstream in
  (Raw_feed m (bs "hello")).1.1 = Emit (bs "hello").
Proof. intros m. rewrite (raw_feed_window m (bs "hello")); [reflexivity|discriminate|by left]. Defined.

(** A token rule scoped to a raw TCP endpoint always swaps there: whatever
    its pattern, as long as the value is at most 4096 bytes the decoy is as long
    as the value, so the pair survives the raw machine's equal-length filter, in
    both directions, and it is the only pair of the rule. *)
Theorem token_rule_swaps_raw `{!Digests, !DigestLaws} label rule parsed value host port :
  rc_value rule = Some value → 0 < length value → (N.of_nat (length value) ≤ MAX_PATTERN_COUNT)%N →
  existsb (λ p, endpoint_match p.2 Tcp host port) parsed = true →
  let grants := collect_token [] label rule parsed in
  ∃ fake, length fake = length value ∧
    rw_pairs (raw_tcp_pair grants host port).1 =
      [{| cp_needle := fake; cp_replacement := value; cp_label := label |}] ∧
    rw_pairs (raw_tcp_pair grants host port).2 =
      [{| cp_needle := value; cp_replacement := fake; cp_label := label |}].
Proof.
  intros Hv Hpos Hcap Hm grants. unfold grants, collect_token. rewrite Hv. simpl.
  set (allow := map snd parsed).
  assert (existsb (λ e, endpoint_match e Tcp host port) allow = true) as Hm'.
  { apply existsb_exists in Hm as (p & Hp & Hm). apply existsb_exists. exists p.2. split; [by apply in_map|done]. }
  assert (existsb (λ s, bool_decide (es_scheme s = Tcp)) allow = true) as Htcp.
  { apply existsb_exists in Hm' as (e & He & Hme). apply existsb_exists. exists e. split; [done|].
    unfold endpoint_match in Hme. by apply andb_true_iff in Hme as [? _]. }
  set (fake := (decoy_for_rule (rc_env rule) (rc_pattern rule) allow (length value)).1).
  assert (length fake = length value) as Hlen.
  { unfold fake, decoy_for_rule. rewrite Htcp. simpl.
    destruct (Nat.eqb_spec (length (fake_for (rc_env rule) (rc_pattern rule))) (length value)); [done|]. simpl.
    pose proof (length_fake_for_hex (rc_env rule) _ Hcap) as Hh. unfold hex_template in Hh. simpl in Hh.
    rewrite Hh. lia. }
  exists fake. split; [done|]. unfold eligible_pairs. simpl.
  unfold grant_pair. simpl. rewrite Hm'. simpl.
  assert (fake ≠ []) by (intros E; rewrite E in Hlen; simpl in Hlen; lia).
  assert (value ≠ []) by (intros E; rewrite E in Hpos; simpl in Hpos; lia).
  rewrite !bool_decide_eq_false_2 by done. simpl. rewrite !filter_cons. unfold equal_length. simpl.
  by rewrite Hlen, !Nat.eqb_refl.
Qed.

Lemma token_rule_swaps_raw_witness :
  let _ := sample_digests in
  let rule := {| rc_env := bs "TOKEN"; rc_value := Some (bs "s3cr3t"); rc_real := None; rc_fnox_key := None;
                 rc_allow := [bs "tcp://db:5"]; rc_pattern := None; rc_oauth2 := None; rc_registry := None;
                 rc_if_missing := MissError; rc_tls := []; rc_ssh := [] |} in
  let scope := {| es_scheme := Tcp; es_host := Exact (bs "db"); es_port := 5; es_client_cert := None;
                  es_client_key := None; es_root_cert := None; es_guest_tls := Tls |} in
  length (rw_pairs (raw_tcp_pair (collect_token [] (bs "t") rule [(bs "tcp://db:5", scope)]) (bs "db") 5).1) = 1.
Proof.
  intros digests rule scope.
  destruct (@token_rule_swaps_raw digests sample_digest_laws (bs "t") rule [(bs "tcp://db:5", scope)]
    (bs "s3cr3t") (bs "db") 5) as (fake & _ & -> & _); [reflexivity|simpl; lia|by vm_compute|reflexivity|reflexivity].
Defined.
