(* ===== verification/Redis.v ===== *)
(** * The Redis wire

    [crates/hodor-proxy/src/transports/redis/machine.rs] and [redis_pair] of
    [redis/mod.rs]: client commands are cut off the stream as RESP arrays or
    inline lines, AUTH and HELLO credentials are reframed to the upstream
    spelling, everything the server says goes through the raw wire. *)

From S2P Require Import Prelude Decoy ConnString Grants Mint Engine Raw.

Definition MAX_COMMAND : nat := 16 * 1024.


Record Leg := {
  lg_buf : bytes;
  lg_legs : option (RedisLeg * RedisLeg);
  lg_fake : bytes;
  lg_real : bytes;
  lg_label : bytes;
  lg_closed : bool;
}.
Definition leg_with (l : Leg) (buf : bytes) (closed : bool) : Leg :=
  {| lg_buf := buf; lg_legs := lg_legs l; lg_fake := lg_fake l; lg_real := lg_real l;
     lg_label := lg_label l; lg_closed := closed |}.

Record Redis := {
  rs_downstream : option Leg;
  rs_inner : Raw;
}.

Definition Redis_leg (grants : list Grant) (host : bytes) (port : N) : option Leg :=
  grant ← find (λ g, bool_of_opt (Grant_redis g (Some host) port)) grants;
  scope ← Grant_redis grant (Some host) port;
  let up := rd_user (rd_upstream scope) in
  Some {| lg_buf := [];
          lg_legs := if bool_of_opt up && negb (bool_decide (up = rd_user (rd_downstream scope)))
                     then Some (rd_downstream scope, rd_upstream scope) else None;
          lg_fake := rd_password (rd_downstream scope);
          lg_real := rd_password (rd_upstream scope);
          lg_label := default [] (cr_label <$> Grant_credential grant);
          lg_closed := false |}.

Definition Redis_new (grants : list Grant) (host : bytes) (port : N) (dir : Direction) : Redis :=
  {| rs_downstream := match dir with Downstream => Redis_leg grants host port | Upstream => None end;
     rs_inner := Raw_new grants SRedis host port dir |}.

(** ** Cutting commands off the stream *)

Record Command := {
  cm_auth : bool;
  cm_hello : bool;
  cm_args : list (nat * nat);
  cm_tokens : list bytes;
}.

(** First LF, with its CR when present. *)
Definition line_end (buf : bytes) : option nat :=
  nl ← position (is_byte LF) buf;
  match nl with
  | 0 => None
  | S before => if bool_decide (buf !! before = Some CR) then Some (nl + 1) else None
  end.

(** Leading digits of a line, no sign. *)
Fixpoint leading_digits (line : bytes) : bytes :=
  match line with
  | b :: line => if is_digit b then b :: leading_digits line else []
  | [] => []
  end.
Definition parse_int (line : bytes) : option N :=
  match leading_digits line with
  | [] => None
  | digits => fold_digits usize_max 10 0 digits
  end.

Definition classify (tokens : list bytes) (args : list (nat * nat)) : Command :=
  let verb := default [] (head tokens) in
  {| cm_auth := eq_ignore_case verb (bs "AUTH"); cm_hello := eq_ignore_case verb (bs "HELLO");
     cm_args := args; cm_tokens := tokens |}.

(** [buf.get(i)] for a [usize] index. *)
Definition get_byte (buf : bytes) (i : N) : option byte :=
  if (i <? N.of_nat (length buf))%N then buf !! N.to_nat i else None.

(** One [$len] argument at [pos]: (offset of its bytes, their number, next position). *)
Definition take_arg (buf : bytes) (pos : nat) : option (nat * nat * nat) :=
  if negb (bool_decide (buf !! pos = Some Byte.x24)) then None
  else
    line ← line_end (drop pos buf);
    let len_line := pos + line in
    len ← parse_int (take (len_line - (pos + 1)) (drop (pos + 1) buf));
    e ← checked_add usize_max (N.of_nat len_line) len;
    e ← checked_add usize_max e 2;
    if bool_decide (get_byte buf (e - 2) = Some CR) && bool_decide (get_byte buf (e - 1) = Some LF)
    then Some (len_line, N.to_nat len, N.to_nat e) else None.

(** [for _ in 0..count]; every argument takes at least one byte, so the
    buffer's length is fuel enough. *)
Fixpoint take_args (fuel : nat) (buf : bytes) (count : N) (pos : nat) (args : list (nat * nat))
    : option (list (nat * nat) * nat) :=
  if (count =? 0)%N then Some (args, pos)
  else
    match fuel with
    | 0 => None
    | S fuel =>
        '(start, len, next) ← take_arg buf pos;
        take_args fuel buf (count - 1) next (args ++ [(start, len)])
    end.

(** A complete command: (frame, command, what is left of the buffer). *)
Definition take_array (buf : bytes) : option (bytes * Command * bytes) :=
  header_end ← line_end buf;
  count ← parse_int (take (header_end - 1) (drop 1 buf));
  '(args, pos) ← take_args (length buf) buf count header_end [];
  if length buf <? pos then None
  else
    let frame := take pos buf in
    let tokens := map (λ '(start, len), take len (drop start frame)) args in
    Some (frame, classify tokens args, drop pos buf).

Definition inline_tokens (line : bytes) : list bytes :=
  filter (λ t, t ≠ []) (split_byte Byte.x20 line).
Definition take_inline (buf : bytes) : option (bytes * Command * bytes) :=
  e ← line_end buf;
  let frame := take e buf in
  Some (frame, classify (inline_tokens (take (e - 2) frame)) [], drop e buf).

Definition take_command (buf : bytes) : option (bytes * Command * bytes) :=
  if bool_decide (head buf = Some Byte.x2a) then take_array buf else take_inline buf.

(** ** Rewriting credentials *)

Definition is_auth (token : bytes) : bool := eq_ignore_case token (bs "AUTH").

Definition auth_block (kind : Command) : option nat :=
  if cm_auth kind then Some 1
  else if negb (cm_hello kind) then None
  else
    i ← position is_auth (drop 1 (cm_tokens kind));
    let first := i + 2 in
    if first <? length (cm_args kind) then Some first else None.

(** [v.splice(i..j, body)]. *)
Definition splice (i j : nat) (body v : bytes) : bytes := take i v ++ body ++ drop j v.

(** Index of the last byte equal to [c]: [iter().rposition()]. *)
Definition rposition_byte (c : byte) (l : bytes) : option nat :=
  (λ i, length l - 1 - i) <$> position (is_byte c) (rev l).

(** Replace one RESP bulk string: body first, then its length line's digits. *)
Definition swap_token (frame : bytes) (at_ : nat * nat) (body : bytes) : bytes :=
  let '(start, len) := at_ in
  let frame := splice start (start + len) body frame in
  match rposition_byte Byte.x24 (take start frame) with
  | None => frame
  | Some dollar => splice (dollar + 1) (start - 2) (dec (N.of_nat (length body))) frame
  end.

(** Replace the first window equal to the token. *)
Definition splice_inline (frame token body : bytes) : bytes :=
  match position (λ w, bool_decide (w = token)) (windows (Nat.max 1 (length token)) frame) with
  | None => frame
  | Some start => splice start (start + length token) body frame
  end.

Section Rewrite.
Context (fake real : bytes) (legs : option (RedisLeg * RedisLeg)) (label : bytes).

(** The upstream user, when the legs name one. *)
Definition upstream_user : option bytes := legs ≫= λ l, rd_user l.2.

Definition auth_hit : Hit := {| hit_label := label; hit_location := Body |}.

(** [Err ()] is a command that breaks its own arity: fail closed. *)
Definition rewrite_array (frame : bytes) (kind : Command) : result () (bytes * list Hit) :=
  let count := length (cm_args kind) in
  if cm_auth kind && negb (count =? 2) && negb (count =? 3) then Err tt
  else
    match auth_block kind with
    | None => Ok (frame, [])
    | Some auth_at =>
        let two := cm_hello kind || (count - auth_at =? 2) in
        if two && (count <=? auth_at + 1) then Err tt
        else
          let user_at := if two then Some auth_at else None in
          let pass_at := if two then auth_at + 1 else auth_at in
          let '(start, len) := default (0, 0) (cm_args kind !! pass_at) in
          let '(frame, hits) :=
            if negb (bool_decide (fake = [])) && bool_decide (take len (drop start frame) = fake)
            then (swap_token frame (start, len) real, [auth_hit])
            else (frame, []) in
          let frame :=
            match user_at, upstream_user with
            | Some user_at, Some user => swap_token frame (default (0, 0) (cm_args kind !! user_at)) user
            | _, _ => frame
            end in
          Ok (frame, hits)
    end.

Definition rewrite_inline (frame : bytes) (kind : Command) : result () (bytes * list Hit) :=
  let count := length (cm_tokens kind) in
  if cm_auth kind && negb (count =? 2) && negb (count =? 3) then Err tt
  else
    let auth_at :=
      if cm_auth kind then Some 1
      else
        i ← position is_auth (drop 2 (cm_tokens kind));
        let i := i + 2 in
        if count - 1 <? i + 2 then None else Some (i + 1) in
    match auth_at with
    | None => Ok (frame, [])
    | Some auth_at =>
        let user_at := if auth_at + 2 <=? count then Some auth_at else None in
        let pass_at := auth_at + (if bool_of_opt user_at then 1 else 0) in
        let frame :=
          match user_at, upstream_user with
          | Some user_at, Some user => splice_inline frame (default [] (cm_tokens kind !! user_at)) user
          | _, _ => frame
          end in
        let pass := default [] (cm_tokens kind !! pass_at) in
        if negb (bool_decide (fake = [])) && bool_decide (pass = fake)
        then Ok (splice_inline frame pass real, [auth_hit])
        else Ok (frame, [])
    end.

Definition rewrite_command (frame : bytes) (kind : Command) : result () (bytes * list Hit) :=
  if negb (cm_auth kind) && negb (cm_hello kind) then Ok (frame, [])
  else if bool_decide (cm_args kind = []) then rewrite_inline frame kind
  else rewrite_array frame kind.
End Rewrite.

(** ** The wire *)

(** The command loop of [feed_downstream]: (output, hits, buffer, closed).
    Every command takes at least one byte of the buffer. *)
Fixpoint feed_commands (fuel : nat) (l : Leg) (buf out : bytes) (hits : list Hit)
    : bytes * list Hit * bytes * bool :=
  if MAX_COMMAND <? length buf then (out, hits, buf, true)
  else
    match take_command buf with
    | None => (out, hits, buf, lg_closed l)
    | Some (frame, kind, rest) =>
        match fuel with
        | 0 => (out, hits, buf, true)
        | S fuel =>
            match rewrite_command (lg_fake l) (lg_real l) (lg_legs l) (lg_label l) frame kind with
            | Ok (bytes, found) => feed_commands fuel l rest (out ++ bytes) (hits ++ found)
            | Err _ => ([], hits, rest, true)
            end
        end
    end.

Definition inner_feed (inner : Raw) (chunk : bytes) : (bytes * list Hit) * Raw :=
  let '((rewritten, hits), inner) := Raw_feed inner chunk in
  (match rewritten with Emit out => (out, hits) | Hold | Close => ([], hits) end, inner).

Definition feed_downstream (m : Redis) (l : Leg) (chunk : bytes) : (bytes * list Hit) * Redis :=
  if bool_decide (chunk = []) then
    let '(res, inner) := inner_feed (rs_inner m) (lg_buf l) in
    (res, {| rs_downstream := Some (leg_with l [] (lg_closed l)); rs_inner := inner |})
  else
    let buf := lg_buf l ++ chunk in
    let '(out, hits, buf, closed) := feed_commands (length buf) l buf [] [] in
    ((out, hits), {| rs_downstream := Some (leg_with l buf closed); rs_inner := rs_inner m |}).

Definition redis_closed (m : Redis) : bool :=
  match rs_downstream m with Some l => lg_closed l | None => false end.

Definition Redis_feed (m : Redis) (chunk : bytes) : (Rewritten * list Hit) * Redis :=
  let '((out, hits), m) :=
    match rs_downstream m with
    | Some l => feed_downstream m l chunk
    | None => let '(res, inner) := inner_feed (rs_inner m) chunk in
              (res, {| rs_downstream := None; rs_inner := inner |})
    end in
  ((if redis_closed m then Close else if bool_decide (out = []) then Hold else Emit out, hits), m).

#[export] Instance Redis_wire : Wire Redis := {
  feed := Redis_feed;
  take_reply := no_reply;
  take_peer_note := no_peer_note;
  apply_peer_note := ignore_peer_note;
}.

Definition redis_pair (grants : list Grant) (host : bytes) (port : N) : Redis * Redis :=
  (Redis_new grants host port Downstream, Redis_new grants host port Upstream).

(** ** Commands are cut the same way however the stream arrives *)

Lemma line_end_Some buf e :
  line_end buf = Some e → 2 ≤ e ≤ length buf ∧ ∀ x, line_end (buf ++ x) = Some e.
Proof.
  unfold line_end. destruct (position (is_byte LF) buf) as [[|nl]|] eqn:Hp; simpl; [done| |done].
  pose proof (position_lt _ _ _ Hp). case_bool_decide as Hcr; [|done]. intros [= <-]. split; [lia|]. intros x.
  assert (position (is_byte LF) (buf ++ x) = Some (S nl)) as ->.
  { apply position_Some in Hp as [(b & Hb & Hlf) Hlt]. apply position_Some. split.
    - exists b. by rewrite lookup_app_l by lia.
    - intros j y Hj. rewrite lookup_app_l by lia. by apply Hlt. }
  simpl. rewrite lookup_app_l by lia. by rewrite bool_decide_eq_true_2.
Qed.

Lemma get_byte_Some buf i b x :
  get_byte buf i = Some b → (i < N.of_nat (length buf))%N ∧ get_byte (buf ++ x) i = Some b.
Proof.
  unfold get_byte. destruct (N.ltb_spec i (N.of_nat (length buf))) as [Hi|]; [|done]. intros Hb.
  split; [done|]. rewrite length_app, (proj2 (N.ltb_lt _ _)) by lia. by rewrite lookup_app_l by lia.
Qed.

Lemma checked_add_Some m a b c : checked_add m a b = Some c → c = (a + b)%N.
Proof. unfold checked_add. case_match; by intros [= <-]. Qed.

Lemma take_arg_Some buf pos start len next x :
  take_arg buf pos = Some (start, len, next) →
  pos < start ∧ start + len + 2 = next ∧ next ≤ length buf ∧ take_arg (buf ++ x) pos = Some (start, len, next).
Proof.
  unfold take_arg. case_bool_decide as Hd; simpl; [|done].
  pose proof (lookup_lt_Some _ _ _ Hd) as Hpos.
  destruct (line_end (drop pos buf)) as [line|] eqn:Hline; simpl; [|done].
  apply line_end_Some in Hline as [Hl Hlx]. rewrite length_drop in Hl.
  destruct (parse_int _) as [n|] eqn:Hn; simpl; [|done].
  destruct (checked_add usize_max _ n) as [e1|] eqn:He1; simpl; [|done].
  destruct (checked_add usize_max e1 2) as [e|] eqn:He; simpl; [|done].
  case_bool_decide as Hcr; simpl; [|done]. case_bool_decide as Hlf; simpl; [|done].
  intros [= <- <- <-].
  pose proof (checked_add_Some _ _ _ _ He1) as E1. pose proof (checked_add_Some _ _ _ _ He) as E2.
  destruct (get_byte_Some _ _ _ x Hcr) as [_ Hcr']. destruct (get_byte_Some _ _ _ x Hlf) as [? Hlf'].
  split_and!; [lia|lia|lia|].
  rewrite lookup_app_l, bool_decide_eq_true_2 by done. simpl.
  rewrite (drop_app_le' pos), Hlx by lia. simpl.
  rewrite drop_app_le', take_app_le', Hn by (rewrite ?length_drop; lia). simpl.
  rewrite He1. simpl. rewrite He. simpl. rewrite Hcr', Hlf'. by rewrite !bool_decide_eq_true_2.
Qed.

Lemma take_args_Some fuel buf count pos args args' pos' x :
  take_args fuel buf count pos args = Some (args', pos') → pos ≤ length buf →
  pos ≤ pos' ≤ length buf ∧ ∀ fuel', fuel ≤ fuel' → take_args fuel' (buf ++ x) count pos args = Some (args', pos').
Proof.
  revert count pos args. induction fuel as [|fuel IH]; intros count pos args; simpl.
  - destruct (count =? 0)%N eqn:Hc; [|done]. intros [= <- <-] Hp. split; [lia|].
    intros [|fuel'] _; simpl; by rewrite Hc.
  - destruct (count =? 0)%N eqn:Hc.
    { intros [= <- <-] Hp. split; [lia|]. intros [|fuel'] _; simpl; by rewrite Hc. }
    destruct (take_arg buf pos) as [[[start len] next]|] eqn:Ha; simpl; [|done].
    intros Hrun Hp. destruct (take_arg_Some _ _ _ _ _ x Ha) as (? & ? & ? & Ha').
    destruct (IH _ _ _ Hrun) as [? Hfuel]; [lia|]. split; [lia|].
    intros [|fuel'] Hle; [lia|]. simpl. rewrite Hc, Ha'. simpl. apply Hfuel. lia.
Qed.

(** A command found in a buffer is a nonempty prefix of it, and more bytes
    behind it change nothing. *)
Lemma take_command_Some buf frame kind rest :
  take_command buf = Some (frame, kind, rest) →
  buf = frame ++ rest ∧ 0 < length frame ∧ ∀ x, take_command (buf ++ x) = Some (frame, kind, rest ++ x).
Proof.
  unfold take_command. intros Ht.
  assert (∀ x, head buf = None ∨ head (buf ++ x) = head buf) as Hhead by (destruct buf; auto).
  case_bool_decide as Hstar.
  - unfold take_array in *.
    destruct (line_end buf) as [he|] eqn:Hl; simpl in Ht; [|done]. apply line_end_Some in Hl as [? Hlx].
    destruct (parse_int _) as [n|] eqn:Hn; simpl in Ht; [|done].
    destruct (take_args _ _ _ _ _) as [[args pos]|] eqn:Ha; simpl in Ht; [|done].
    destruct (Nat.ltb_spec (length buf) pos); [done|].
    destruct (take_args_Some _ _ _ _ _ _ _ [] Ha) as [? _]; [lia|]. simplify_eq.
    split_and!; [by rewrite take_drop|rewrite length_take; lia|]. intros x.
    destruct (Hhead x) as [E| ->]; [by rewrite E in Hstar|]. rewrite bool_decide_eq_true_2 by done.
    rewrite Hlx. simpl. rewrite drop_app_le', take_app_le', Hn by (rewrite ?length_drop; lia). simpl.
    destruct (take_args_Some _ _ _ _ _ _ _ x Ha) as [_ Ha']; [lia|].
    rewrite Ha' by (rewrite length_app; lia). simpl.
    rewrite length_app, (proj2 (Nat.ltb_ge _ _)) by lia.
    rewrite drop_app_le', take_app_le' by lia. done.
  - unfold take_inline in *.
    destruct (line_end buf) as [e|] eqn:Hl; simpl in Ht; [|done]. apply line_end_Some in Hl as [? Hlx].
    simplify_eq. split_and!; [by rewrite take_drop|rewrite length_take; lia|]. intros x.
    assert (head (buf ++ x) = head buf) as ->.
    { destruct (Hhead x) as [E|]; [|done]. destruct buf; [simpl in *; lia|done]. }
    rewrite bool_decide_eq_false_2 by done. rewrite Hlx. simpl.
    by rewrite take_app_le', drop_app_le' by lia.
Qed.

Lemma take_command_nil : take_command [] = None.
Proof. done. Qed.

(** Enough fuel: any amount at least the buffer's length gives the same run. *)
Lemma feed_commands_fuel l fuel fuel' buf out hits :
  length buf ≤ fuel → length buf ≤ fuel' →
  feed_commands fuel l buf out hits = feed_commands fuel' l buf out hits.
Proof.
  revert fuel' buf out hits. induction fuel as [|fuel IH]; intros [|fuel'] buf out hits H1 H2; simpl; [done|..].
  1-2: destruct buf; [by rewrite take_command_nil|simpl in *; lia].
  destruct (MAX_COMMAND <? length buf); [done|].
  destruct (take_command buf) as [[[frame kind] rest]|] eqn:Ht; [|done].
  apply take_command_Some in Ht as (-> & Hf & _). rewrite length_app in *.
  destruct (rewrite_command _ _ _ _ frame kind) as [[bytes found]|]; [|done]. apply IH; lia.
Qed.


Lemma feed_commands_eq fuel l buf out hits :
  feed_commands (S fuel) l buf out hits =
    if MAX_COMMAND <? length buf then (out, hits, buf, true)
    else
      match take_command buf with
      | None => (out, hits, buf, lg_closed l)
      | Some (frame, kind, rest) =>
          match rewrite_command (lg_fake l) (lg_real l) (lg_legs l) (lg_label l) frame kind with
          | Ok (bytes, found) => feed_commands fuel l rest (out ++ bytes) (hits ++ found)
          | Err _ => ([], hits, rest, true)
          end
      end.
Proof. done. Qed.

Lemma feed_commands_app l fuel a b out hits out1 hits1 rest1 :
  lg_closed l = false → length (a ++ b) ≤ MAX_COMMAND → length (a ++ b) ≤ fuel →
  feed_commands fuel l a out hits = (out1, hits1, rest1, false) →
  feed_commands fuel l (a ++ b) out hits = feed_commands fuel l (rest1 ++ b) out1 hits1 ∧
  length rest1 ≤ length a.
Proof.
  intros Hcl. revert a out hits. induction fuel as [|fuel IH]; intros a out hits Hmax Hf.
  { destruct a, b; simpl in *; [|lia..]. intros [= <- <- <-]. done. }
  rewrite feed_commands_eq. destruct (MAX_COMMAND <? length a); [done|].
  destruct (take_command a) as [[[frame kind] rest]|] eqn:Ht.
  2: { by intros [= <- <- <- ?]. }
  rewrite (feed_commands_eq fuel l (a ++ b)), (proj2 (Nat.ltb_ge _ (length (a ++ b)))) by done.
  apply take_command_Some in Ht as (-> & Hpos & ->). rewrite !length_app in *.
  destruct (rewrite_command _ _ _ _ frame kind) as [[bytes found]|]; [|done].
  intros Hrun. destruct (IH rest _ _ ltac:(rewrite length_app; lia) ltac:(rewrite length_app; lia) Hrun) as [-> ?].
  split; [|lia]. apply feed_commands_fuel; rewrite length_app; lia.
Qed.

(** A run either closes or appends to what was emitted before it. *)
Lemma feed_commands_acc l fuel buf :
  (∀ out hits, (feed_commands fuel l buf out hits).2 = true) ∨
  ∃ o h rest c, ∀ out hits, feed_commands fuel l buf out hits = (out ++ o, hits ++ h, rest, c).
Proof.
  revert buf. induction fuel as [|fuel IH]; intros buf.
  - simpl. destruct (MAX_COMMAND <? length buf); [by left|].
    destruct (take_command buf) as [[[??]?]|]; [by left|].
    right. exists [], [], buf, (lg_closed l). intros. by rewrite !app_nil_r.
  - setoid_rewrite feed_commands_eq. destruct (MAX_COMMAND <? length buf); [by left|].
    destruct (take_command buf) as [[[frame kind] r]|].
    2: { right. exists [], [], buf, (lg_closed l). intros. by rewrite !app_nil_r. }
    destruct (rewrite_command _ _ _ _ frame kind) as [[bytes found]|]; [|by left].
    destruct (IH r) as [Hc|(o & h & rest & c & Hr)]; [by left|right].
    exists (bytes ++ o), (found ++ h), rest, c. intros. by rewrite Hr, !app_assoc.
Qed.

(** The command parser does not depend on how the guest's bytes are cut
    into chunks: as long as neither feed closes the stream and the buffered
    bytes stay within the cap, feeding two chunks emits what feeding them as one
    emits and leaves the same machine. *)
Theorem redis_split_invariant m l a b outa hitsa la outb hitsb mb :
  lg_closed l = false → a ≠ [] → b ≠ [] → length (lg_buf l ++ a ++ b) ≤ MAX_COMMAND →
  feed_downstream m l a = ((outa, hitsa), {| rs_downstream := Some la; rs_inner := rs_inner m |}) →
  lg_closed la = false →
  feed_downstream {| rs_downstream := Some la; rs_inner := rs_inner m |} la b = ((outb, hitsb), mb) →
  redis_closed mb = false →
  feed_downstream m l (a ++ b) = ((outa ++ outb, hitsa ++ hitsb), mb).
Proof.
  intros Hl Ha Hb Hmax. unfold feed_downstream.
  rewrite !bool_decide_eq_false_2 by (done || by destruct a). simpl.
  destruct (feed_commands _ l (lg_buf l ++ a) [] []) as [[[o1 h1] r1] c1] eqn:H1.
  intros [= <- <- <-]. simpl. intros ->.
  destruct (feed_commands _ (leg_with l r1 false) (r1 ++ b) [] []) as [[[o2 h2] r2] c2] eqn:H2.
  intros [= <- <- <-]. unfold redis_closed. simpl. intros ->.
  assert (∀ buf fuel out hits, feed_commands fuel (leg_with l r1 false) buf out hits = feed_commands fuel l buf out hits) as Hwith.
  { intros buf fuel. revert buf. clear -Hl. induction fuel as [|fuel IH]; intros buf out hits; simpl.
    - by rewrite Hl.
    - rewrite Hl. destruct (take_command buf) as [[[??]?]|]; [|done].
      destruct (rewrite_command _ _ _ _ _ _) as [[??]|]; [by rewrite IH|done]. }
  rewrite Hwith in H2. rewrite app_assoc in *.
  rewrite (feed_commands_fuel l _ (length ((lg_buf l ++ a) ++ b))) in H1 by (rewrite ?length_app; lia).
  destruct (feed_commands_app l _ _ b _ _ _ _ _ Hl Hmax (Nat.le_refl _) H1) as [-> Hr].
  rewrite (feed_commands_fuel l _ (length ((lg_buf l ++ a) ++ b))) in H2 by (rewrite ?length_app in *; lia).
  destruct (feed_commands_acc l (length ((lg_buf l ++ a) ++ b)) (r1 ++ b)) as [Hc|(o & h & rest & c & Hr')].
  - specialize (Hc [] []). by rewrite H2 in Hc.
  - rewrite Hr' in H2 |- *. by simplify_eq/=.
Qed.

(** ** RESP framing *)

(** A bulk string, and an array of them: what a client sends. *)
Definition bulk_header (t : bytes) : bytes := [Byte.x24] ++ dec (N.of_nat (length t)) ++ crlf.
Definition bulk (t : bytes) : bytes := bulk_header t ++ t ++ crlf.
Definition bulks (ts : list bytes) : bytes := concat (map bulk ts).
Definition array_header (ts : list bytes) : bytes := [Byte.x2a] ++ dec (N.of_nat (length ts)) ++ crlf.
Definition resp_array (ts : list bytes) : bytes := array_header ts ++ bulks ts.

(** Where each token of an array lies. *)
Fixpoint args_of (base : nat) (ts : list bytes) : list (nat * nat) :=
  match ts with
  | [] => []
  | t :: ts => (base + length (bulk_header t), length t) :: args_of (base + length (bulk t)) ts
  end.

Lemma line_end_crlf pre x : Forall (λ b, b ≠ LF) pre → line_end (pre ++ crlf ++ x) = Some (length pre + 2).
Proof.
  intros Hpre. unfold line_end. rewrite position_app.
  2: { eapply Forall_impl; [exact Hpre|]. intros b Hb. by apply bool_decide_eq_false. }
  simpl. rewrite Nat.add_1_r. rewrite bool_decide_eq_true_2.
  - f_equal. lia.
  - by rewrite lookup_app_r, Nat.sub_diag by lia.
Qed.

Lemma digit_not b c : is_digit b = true → is_digit c = false → b ≠ c.
Proof. congruence. Qed.

Lemma dec_not n c : is_digit c = false → Forall (λ b, b ≠ c) (dec n).
Proof. intros Hc. eapply Forall_impl; [apply dec_digits|]. intros b Hb. by apply digit_not. Qed.

Lemma parse_int_dec n c x : (n ≤ usize_max)%N → is_digit c = false → parse_int (dec n ++ c :: x) = Some n.
Proof.
  intros Hn Hc. unfold parse_int.
  assert (leading_digits (dec n ++ c :: x) = dec n) as ->.
  { pose proof (dec_digits n) as Hd. induction Hd as [|b l Hb _ IH]; simpl; [by rewrite Hc|]. by rewrite Hb, IH. }
  pose proof (parse_usize_dec n Hn) as Hp. unfold parse_usize, from_str_radix in Hp.
  pose proof (dec_digits n) as Hd. destruct (dec n) as [|b l]; [done|].
  rewrite decide_False in Hp; [done|]. apply Forall_cons in Hd as [Hb _]. by intros ->.
Qed.

Lemma take_arg_bulk p t x :
  (N.of_nat (length p + length (bulk t)) ≤ usize_max)%N →
  take_arg (p ++ bulk t ++ x) (length p) =
    Some (length p + length (bulk_header t), length t, length p + length (bulk t)).
Proof.
  intros Hmax. unfold take_arg. rewrite bool_decide_eq_true_2.
  2: { rewrite lookup_app_r by lia. by rewrite Nat.sub_diag. }
  cbn [negb]. rewrite drop_app_length.
  assert (bulk t ++ x = bulk_header t ++ t ++ crlf ++ x) as -> by (unfold bulk; by rewrite <- !app_assoc).
  assert (line_end (bulk_header t ++ t ++ crlf ++ x) = Some (length (bulk_header t))) as ->.
  { replace (bulk_header t ++ t ++ crlf ++ x)
      with (([Byte.x24] ++ dec (N.of_nat (length t))) ++ crlf ++ t ++ crlf ++ x)
      by (unfold bulk_header; by rewrite <- !app_assoc).
    rewrite line_end_crlf.
    - unfold bulk_header. f_equal. rewrite !length_app. simpl. lia.
    - constructor; [done|]. by apply dec_not. }
  cbn [mbind option_bind].
  assert (length (bulk t) = length (bulk_header t) + length t + 2) as Hlen.
  { unfold bulk. rewrite !length_app. simpl. lia. }
  assert (parse_int (take (length p + length (bulk_header t) - (length p + 1))
    (drop (length p + 1) (p ++ bulk_header t ++ t ++ crlf ++ x))) = Some (N.of_nat (length t))) as ->.
  { rewrite drop_app_add.
    replace (drop 1 (bulk_header t ++ t ++ crlf ++ x)) with ((dec (N.of_nat (length t)) ++ crlf) ++ t ++ crlf ++ x).
    2: { unfold bulk_header. simpl. by rewrite <- !app_assoc. }
    rewrite take_app_length'.
    - apply parse_int_dec; [lia|done].
    - unfold bulk_header. rewrite !length_app. simpl. lia. }
  cbn [mbind option_bind]. rewrite checked_add_ok by lia.
  cbn [mbind option_bind]. rewrite checked_add_ok by lia. cbn [mbind option_bind].
  assert (∀ k c, crlf !! k = Some c →
    get_byte (p ++ bulk_header t ++ t ++ crlf ++ x) (N.of_nat (length p + length (bulk_header t) + length t + k)) = Some c) as Hget.
  { intros k c Hk. pose proof (lookup_lt_Some _ _ _ Hk). unfold get_byte.
    rewrite (proj2 (N.ltb_lt _ _)) by (rewrite !length_app; lia). rewrite Nat2N.id.
    rewrite lookup_app_r by lia. rewrite lookup_app_r by lia. rewrite lookup_app_r by lia.
    rewrite lookup_app_l by lia. rewrite <- Hk. f_equal. lia. }
  replace (N.of_nat (length p + length (bulk_header t)) + N.of_nat (length t) + 2 - 2)%N
    with (N.of_nat (length p + length (bulk_header t) + length t + 0)) by lia.
  replace (N.of_nat (length p + length (bulk_header t)) + N.of_nat (length t) + 2 - 1)%N
    with (N.of_nat (length p + length (bulk_header t) + length t + 1)) by lia.
  rewrite (Hget 0 CR), (Hget 1 LF) by done. rewrite !bool_decide_eq_true_2 by done. cbn [andb].
  rewrite Nat2N.id. f_equal. f_equal. lia.
Qed.

Lemma bulks_app a b : bulks (a ++ b) = bulks a ++ bulks b.
Proof. unfold bulks. by rewrite map_app, concat_app. Qed.

Lemma take_args_bulks fuel p ts x args :
  length ts ≤ fuel → (N.of_nat (length p + length (bulks ts)) ≤ usize_max)%N →
  take_args fuel (p ++ bulks ts ++ x) (N.of_nat (length ts)) (length p) args =
    Some (args ++ args_of (length p) ts, length p + length (bulks ts)).
Proof.
  revert fuel p args. induction ts as [|t ts IH]; intros fuel p args Hf Hmax.
  { simpl. rewrite app_nil_r, Nat.add_0_r. by destruct fuel. }
  destruct fuel as [|fuel]; cbn [length] in *; [lia|]. cbn [take_args args_of].
  assert (bulks (t :: ts) = bulk t ++ bulks ts) as Hb by done. rewrite Hb in *. rewrite length_app in *.
  rewrite (proj2 (N.eqb_neq _ _)) by lia.
  rewrite <- app_assoc, take_arg_bulk by lia. cbn [mbind option_bind].
  replace (N.of_nat (S (length ts)) - 1)%N with (N.of_nat (length ts)) by lia.
  rewrite app_assoc. rewrite <- length_app. rewrite IH; [|lia|rewrite length_app; lia].
  rewrite length_app, <- app_assoc. simpl. do 2 f_equal. lia.
Qed.

Lemma args_of_slices p ts x :
  map (λ '(start, len), take len (drop start (p ++ bulks ts ++ x))) (args_of (length p) ts) = ts.
Proof.
  revert p. induction ts as [|t ts IH]; intros p; [done|]. cbn [args_of map]. f_equal.
  - change (bulks (t :: ts)) with (bulk t ++ bulks ts). unfold bulk. rewrite drop_app_add, <- !app_assoc.
    rewrite drop_app_length. by rewrite take_app_length.
  - change (bulks (t :: ts)) with (bulk t ++ bulks ts). rewrite <- app_assoc, app_assoc, <- length_app. apply IH.
Qed.

Lemma length_bulks_ge ts : length ts ≤ length (bulks ts).
Proof.
  induction ts as [|t ts IH]; [done|]. change (bulks (t :: ts)) with (bulk t ++ bulks ts).
  rewrite length_app. unfold bulk, bulk_header. rewrite !length_app. simpl. lia.
Qed.

(** A RESP array on the stream is cut off whole: the frame is exactly the
    array's bytes, the tokens are its elements, whatever bytes they hold, and
    what follows it is left in the buffer. *)
Theorem take_command_resp_array ts x :
  (N.of_nat (length (resp_array ts)) ≤ usize_max)%N →
  take_command (resp_array ts ++ x) =
    Some (resp_array ts, classify ts (args_of (length (array_header ts)) ts), x).
Proof.
  intros Hmax. unfold take_command. rewrite bool_decide_eq_true_2 by done. unfold take_array.
  unfold resp_array in *. rewrite length_app in Hmax. rewrite <- app_assoc.
  assert (line_end (array_header ts ++ bulks ts ++ x) = Some (length (array_header ts))) as ->.
  { replace (array_header ts ++ bulks ts ++ x)
      with (([Byte.x2a] ++ dec (N.of_nat (length ts))) ++ crlf ++ bulks ts ++ x)
      by (unfold array_header; by rewrite <- !app_assoc).
    rewrite line_end_crlf.
    - unfold array_header. f_equal. rewrite !length_app. simpl. lia.
    - constructor; [done|]. by apply dec_not. }
  cbn [mbind option_bind]. pose proof (length_bulks_ge ts).
  assert (parse_int (take (length (array_header ts) - 1) (drop 1 (array_header ts ++ bulks ts ++ x))) =
    Some (N.of_nat (length ts))) as ->.
  { replace (drop 1 (array_header ts ++ bulks ts ++ x)) with ((dec (N.of_nat (length ts)) ++ crlf) ++ bulks ts ++ x).
    2: { unfold array_header. simpl. by rewrite <- !app_assoc. }
    rewrite take_app_length'.
    - apply parse_int_dec; [lia|done].
    - unfold array_header. rewrite !length_app. simpl. lia. }
  cbn [mbind option_bind]. rewrite take_args_bulks; [|rewrite !length_app; lia|lia].
  cbn [mbind option_bind]. rewrite (proj2 (Nat.ltb_ge _ _)) by (rewrite !length_app; lia).
  rewrite <- length_app, app_assoc, take_app_length, drop_app_length.
  pose proof (args_of_slices (array_header ts) ts []) as Hs. rewrite app_nil_r in Hs.
  rewrite app_nil_l. by rewrite Hs.
Qed.

(** ** Rewriting inside an array *)

Lemma args_of_lookup base ts i t :
  ts !! i = Some t →
  args_of base ts !! i = Some (base + length (bulks (take i ts)) + length (bulk_header t), length t).
Proof.
  revert base i. induction ts as [|t' ts IH]; intros base [|i] Hi; [done|done|injection Hi as ->|]; cbn [args_of].
  - simpl. by rewrite Nat.add_0_r.
  - cbn in Hi. change (args_of (base + length (bulk t')) ts !! i =
      Some (base + length (bulks (take (S i) (t' :: ts))) + length (bulk_header t), length t)).
    rewrite (IH _ _ Hi). change (bulks (take (S i) (t' :: ts))) with (bulk t' ++ bulks (take i ts)).
    rewrite length_app. do 2 f_equal. lia.
Qed.
Lemma length_args_of base ts : length (args_of base ts) = length ts.
Proof. revert base. induction ts as [|t ts IH]; intros base; [done|]. cbn. by rewrite IH. Qed.

Lemma resp_array_split ts i t :
  ts !! i = Some t →
  resp_array ts = (array_header ts ++ bulks (take i ts)) ++ bulk t ++ bulks (drop (S i) ts).
Proof.
  intros Hi. unfold resp_array.
  assert (bulks ts = bulks (take i ts) ++ bulk t ++ bulks (drop (S i) ts)) as Hb.
  { rewrite <- (take_drop_middle ts i t Hi) at 1. by rewrite bulks_app. }
  by rewrite Hb, <- app_assoc.
Qed.

Lemma rposition_byte_last c p s :
  Forall (λ b, b ≠ c) s → rposition_byte c (p ++ c :: s) = Some (length p).
Proof.
  intros Hs. unfold rposition_byte. rewrite rev_app_distr. simpl. rewrite <- app_assoc, position_app.
  2: { apply Forall_forall. intros b Hb. apply bool_decide_eq_false.
       apply (proj1 (Forall_forall _ _) Hs). by apply list_elem_of_In, in_rev, list_elem_of_In. }
  simpl. unfold is_byte. rewrite bool_decide_eq_true_2 by done. simpl.
  rewrite length_rev, length_app. simpl. f_equal. lia.
Qed.

Lemma swap_token_bulk p t x body :
  swap_token (p ++ bulk t ++ x) (length p + length (bulk_header t), length t) body = p ++ bulk body ++ x.
Proof.
  unfold swap_token, splice, bulk.
  replace (p ++ (bulk_header t ++ t ++ crlf) ++ x) with ((p ++ bulk_header t) ++ t ++ crlf ++ x)
    by by rewrite <- !app_assoc.
  rewrite <- length_app, take_app_length, drop_app_add, drop_app_length.
  rewrite take_app_length.
  assert (bulk_header t = Byte.x24 :: (dec (N.of_nat (length t)) ++ crlf)) as Hh by done.
  rewrite Hh at 1. rewrite rposition_byte_last.
  2: { apply Forall_app. split; [by apply dec_not|]. repeat (constructor; [done|]). constructor. }
  replace (length (p ++ bulk_header t) - 2) with (length (p ++ [Byte.x24] ++ dec (N.of_nat (length t)))).
  2: { unfold bulk_header. rewrite !length_app. simpl. lia. }
  replace ((p ++ bulk_header t) ++ body ++ crlf ++ x)
    with ((p ++ [Byte.x24]) ++ dec (N.of_nat (length t)) ++ crlf ++ body ++ crlf ++ x)
    by (unfold bulk_header; by rewrite <- !app_assoc).
  rewrite take_app_length' by (rewrite length_app; simpl; lia).
  rewrite (app_assoc (p ++ [Byte.x24]) (dec (N.of_nat (length t)))), drop_app_length' by (rewrite !length_app; lia).
  unfold bulk_header. by rewrite <- !app_assoc.
Qed.

(** Swapping the token at an index of an array gives the array with that
    element replaced. *)
Lemma swap_token_array ts i t body :
  ts !! i = Some t →
  swap_token (resp_array ts) (default (0, 0) (args_of (length (array_header ts)) ts !! i)) body =
    resp_array (<[i:=body]> ts).
Proof.
  intros Hi. rewrite (args_of_lookup _ _ _ _ Hi). cbn [default].
  rewrite (resp_array_split ts i t Hi) at 1. rewrite <- length_app, swap_token_bulk.
  rewrite (resp_array_split (<[i:=body]> ts) i body).
  2: { apply list_lookup_insert_eq. by eapply lookup_lt_Some. }
  rewrite take_insert_ge, drop_insert_lt by lia. unfold array_header. by rewrite length_insert.
Qed.

Lemma args_of_insert base ts i j body :
  i < j → args_of base (<[j:=body]> ts) !! i = args_of base ts !! i.
Proof.
  intros Hij. destruct (ts !! i) as [t|] eqn:Hi.
  - rewrite (args_of_lookup _ _ _ _ Hi), (args_of_lookup _ (<[j:=body]> ts) i t).
    + by rewrite take_insert_ge by lia.
    + by rewrite list_lookup_insert_ne by lia.
  - rewrite !lookup_ge_None_2; [done|..]; rewrite length_args_of, ?length_insert; by apply lookup_ge_None_1.
Qed.

#[local] Arguments swap_token : simpl never.
#[local] Arguments resp_array : simpl never.
#[local] Arguments array_header : simpl never.
#[local] Arguments args_of : simpl never.

Section RewriteSpec.
Context (fake real : bytes) (legs : option (RedisLeg * RedisLeg)) (label : bytes).

(** What the upstream should see of a password and of a user. *)
Definition swapped_pass (p : bytes) : bytes :=
  if negb (bool_decide (fake = [])) && bool_decide (p = fake) then real else p.
Definition pass_hits (p : bytes) : list Hit :=
  if negb (bool_decide (fake = [])) && bool_decide (p = fake) then [auth_hit label] else [].
Definition swapped_user (u : bytes) : bytes := default u (upstream_user legs).

Lemma args_slice ts i t :
  ts !! i = Some t →
  let '(start, len) := default (0, 0) (args_of (length (array_header ts)) ts !! i) in
  take len (drop start (resp_array ts)) = t.
Proof.
  intros Hi. rewrite (args_of_lookup _ _ _ _ Hi). cbn [default].
  rewrite (resp_array_split ts i t Hi), <- length_app. cbn [id]. rewrite drop_app_add. unfold bulk.
  rewrite <- app_assoc, drop_app_length, <- app_assoc. by rewrite take_app_length.
Qed.

(** The password swap of [rewrite_array], at an index holding [p]. *)
Lemma pass_swap ts j p :
  ts !! j = Some p →
  let '(start, len) := default (0, 0) (args_of (length (array_header ts)) ts !! j) in
  (if negb (bool_decide (fake = [])) && bool_decide (take len (drop start (resp_array ts)) = fake)
   then (swap_token (resp_array ts) (start, len) real, [auth_hit label])
   else (resp_array ts, [])) = (resp_array (<[j:=swapped_pass p]> ts), pass_hits p).
Proof.
  intros Hj. pose proof (args_slice ts j p Hj) as Hs. pose proof (swap_token_array ts j p real Hj) as Hw.
  destruct (default (0, 0) _) as [start len]. rewrite Hs. unfold swapped_pass, pass_hits.
  destruct (_ && _); [by rewrite Hw|]. by rewrite list_insert_id.
Qed.

Lemma user_swap ts i j u p' :
  i < j → ts !! i = Some u → 
  match upstream_user legs with
  | Some user => swap_token (resp_array (<[j:=p']> ts)) (default (0, 0) (args_of (length (array_header ts)) ts !! i)) user
  | None => resp_array (<[j:=p']> ts)
  end = resp_array (<[i:=swapped_user u]> (<[j:=p']> ts)).
Proof.
  intros Hij Hi. assert ((<[j:=p']> ts) !! i = Some u) as Hi' by by rewrite list_lookup_insert_ne by lia.
  unfold swapped_user. destruct (upstream_user legs) as [user|]; cbn [default from_option id].
  2: { by rewrite (list_insert_id (<[j:=p']> ts)). }
  rewrite <- (args_of_insert _ _ i j p' Hij).
  rewrite <- (swap_token_array (<[j:=p']> ts) i u user Hi').
  unfold array_header. by rewrite length_insert.
Qed.

(** C2: An AUTH command sent as a RESP array reaches the upstream as the array
    with its credentials swapped, reframed at any length: the password when it
    is the rule's fake one, the user when the legs name different users; an
    AUTH of any other arity fails closed. *)
Theorem auth_array_reframed v args :
  is_auth v = true →
  let ts := v :: args in
  rewrite_command fake real legs label (resp_array ts) (classify ts (args_of (length (array_header ts)) ts)) =
    match args with
    | [p] => Ok (resp_array [v; swapped_pass p], pass_hits p)
    | [u; p] => Ok (resp_array [v; swapped_user u; swapped_pass p], pass_hits p)
    | _ => Err tt
    end.
Proof.
  intros Hv ts.
  assert (eq_ignore_case v (bs "HELLO") = false) as Hh.
  { apply bool_decide_eq_false. intros E. apply eq_ignore_case_spec in Hv. rewrite Hv in E. done. }
  assert (classify ts (args_of (length (array_header ts)) ts) =
    {| cm_auth := true; cm_hello := false; cm_args := args_of (length (array_header ts)) ts; cm_tokens := ts |}) as ->.
  { unfold classify. change (default [] (head ts)) with v. unfold is_auth in Hv. by rewrite Hh, Hv. }
  unfold rewrite_command. cbn [cm_auth cm_hello cm_args negb andb]. rewrite bool_decide_eq_false_2 by done.
  unfold rewrite_array, auth_block. cbn [cm_auth cm_hello cm_args]. rewrite length_args_of.
  destruct args as [|a [|b [|c args]]]; try done.
  - pose proof (pass_swap [v; a] 1 a eq_refl) as Hp. unfold ts. simpl in Hp |- *. by rewrite Hp.
  - pose proof (pass_swap [v; a; b] 2 b eq_refl) as Hp.
    pose proof (user_swap [v; a; b] 1 2 a (swapped_pass b) ltac:(lia) eq_refl) as Hu.
    unfold ts. simpl in Hp, Hu |- *. rewrite Hp. by destruct (upstream_user legs); rewrite Hu.
Qed.

(** A HELLO sent as a RESP array reaches the upstream with the credentials
    of its first AUTH block swapped and every other argument as sent; without
    an AUTH block it is sent on unchanged, as it is when AUTH is its last
    argument; an AUTH block with a user and no password fails closed. *)
Theorem hello_array_reframed v pre a rest :
  eq_ignore_case v (bs "HELLO") = true → Forall (λ t, is_auth t = false) pre →
  let run ts := rewrite_command fake real legs label (resp_array ts) (classify ts (args_of (length (array_header ts)) ts)) in
  run (v :: pre) = Ok (resp_array (v :: pre), []) ∧
  (is_auth a = true →
   run (v :: pre ++ a :: rest) =
    match rest with
    | [] => Ok (resp_array (v :: pre ++ [a]), [])
    | [_] => Err tt
    | u :: p :: post => Ok (resp_array (v :: pre ++ a :: swapped_user u :: swapped_pass p :: post), pass_hits p)
    end).
Proof.
  intros Hv Hpre run.
  assert (eq_ignore_case v (bs "AUTH") = false) as Hna.
  { apply bool_decide_eq_false. intros E. apply eq_ignore_case_spec in Hv. rewrite Hv in E. done. }
  assert (∀ l, run (v :: l) = rewrite_array fake real legs label (resp_array (v :: l))
    {| cm_auth := false; cm_hello := true; cm_args := args_of (length (array_header (v :: l))) (v :: l); cm_tokens := v :: l |}) as Hrun.
  { intros l. unfold run, rewrite_command, classify. change (default [] (head (v :: l))) with v.
    rewrite Hna, Hv. cbn [cm_auth cm_hello cm_args negb andb]. by rewrite bool_decide_eq_false_2. }
  split.
  { rewrite Hrun. unfold rewrite_array, auth_block. cbn [cm_auth cm_hello cm_args cm_tokens negb andb].
    change (drop 1 (v :: pre)) with pre. by rewrite (proj2 (position_None _ _) Hpre). }
  intros Ha. rewrite Hrun. unfold rewrite_array, auth_block. cbn [cm_auth cm_hello cm_args cm_tokens negb andb].
  change (drop 1 (v :: pre ++ a :: rest)) with (pre ++ a :: rest). rewrite position_app by done. cbn [position]. rewrite Ha. cbn [fmap option_fmap option_map mbind option_bind].
  rewrite length_args_of. cbn [length]. rewrite length_app. cbn [length]. rewrite Nat.add_0_r.
  set (q := v :: pre ++ [a]). assert (length q = length pre + 2) as Hq by (unfold q; simpl; rewrite length_app; simpl; lia).
  assert (∀ l, v :: pre ++ a :: l = q ++ l) as Hql by (intros l; unfold q; simpl; by rewrite <- app_assoc).
  rewrite Hql. destruct rest as [|u [|p post]].
  - rewrite (proj2 (Nat.ltb_ge _ _)) by (simpl; lia). by rewrite app_nil_r.
  - rewrite (proj2 (Nat.ltb_lt _ _)) by (simpl; lia). cbn [orb andb].
    by rewrite (proj2 (Nat.leb_le _ _)) by (simpl; lia).
  - rewrite (proj2 (Nat.ltb_lt _ _)) by (simpl; lia). cbn [orb andb].
    rewrite (proj2 (Nat.leb_gt _ _)) by (simpl; lia). rewrite <- Hq.
    pose proof (pass_swap (q ++ u :: p :: post) (length q + 1) p) as Hp.
    pose proof (user_swap (q ++ u :: p :: post) (length q) (length q + 1) u (swapped_pass p)) as Hu.
    rewrite lookup_app_r in Hp by lia. rewrite lookup_app_r in Hu by lia.
    replace (length q + 1 - length q) with 1 in Hp by lia. rewrite Nat.sub_diag in Hu.
    specialize (Hp eq_refl). specialize (Hu ltac:(lia) eq_refl).
    destruct (default (0, 0) (_ !! (length q + 1))) as [start len]. rewrite Hp.
    assert (<[length q:=swapped_user u]> (<[length q + 1:=swapped_pass p]> (q ++ u :: p :: post)) =
      q ++ swapped_user u :: swapped_pass p :: post) as Hins.
    { rewrite insert_app_r. by rewrite <- (Nat.add_0_r (length q)) at 1; rewrite insert_app_r. }
    rewrite Hins in Hu. rewrite Hql. by destruct (upstream_user legs); rewrite Hu.
Qed.
End RewriteSpec.

(** Failing closed is final: a command buffer past its cap, or a credential
    command that breaks its own arity, closes the stream, and a closed leg
    answers every later chunk with [Close] and never reopens. *)
Theorem redis_closed_is_final m l chunk :
  rs_downstream m = Some l →
  (lg_closed l = true → (Redis_feed m chunk).1.1 = Close ∧ redis_closed (Redis_feed m chunk).2 = true) ∧
  (chunk ≠ [] → MAX_COMMAND < length (lg_buf l ++ chunk) → (Redis_feed m chunk).1.1 = Close) ∧
  (chunk ≠ [] → ∀ frame kind rest, take_command (lg_buf l ++ chunk) = Some (frame, kind, rest) →
     rewrite_command (lg_fake l) (lg_real l) (lg_legs l) (lg_label l) frame kind = Err tt →
     (Redis_feed m chunk).1.1 = Close).
Proof.
  intros Hm. unfold Redis_feed. rewrite Hm. unfold feed_downstream. split_and!.
  - intros Hc. case_bool_decide as Hn.
    + destruct (inner_feed (rs_inner m) (lg_buf l)) as [[out hits] inner]. simpl. by rewrite Hc.
    + destruct (feed_commands _ l _ _ _) as [[[out hits] buf] closed] eqn:Hf.
      enough (closed = true) as -> by done. revert Hf.
      generalize (length (lg_buf l ++ chunk)) as fuel. intros fuel.
      generalize (lg_buf l ++ chunk) as b, (@nil byte) as o, (@nil Hit) as h. revert fuel. clear -Hc. intros fuel. induction fuel as [|fuel IH]; intros b o h Hf.
      * cbn [feed_commands] in Hf. destruct (MAX_COMMAND <? length b); [congruence|].
        destruct (take_command b) as [[[??]?]|]; congruence.
      * rewrite feed_commands_eq in Hf. destruct (MAX_COMMAND <? length b); [congruence|].
        destruct (take_command b) as [[[frame kind] rest]|]; [|congruence].
        destruct (rewrite_command _ _ _ _ _ _) as [[? ?]|]; [by eapply IH|congruence].
  - intros Hn Hmax. rewrite bool_decide_eq_false_2 by done.
    destruct (length (lg_buf l ++ chunk)) as [|k] eqn:Hk; simpl; rewrite Hk, (proj2 (Nat.ltb_lt _ _) Hmax); done.
  - intros Hn frame kind rest Ht Hr. rewrite bool_decide_eq_false_2 by done.
    pose proof (take_command_Some _ _ _ _ Ht) as (E & Hpos & _).
    destruct (length (lg_buf l ++ chunk)) as [|k] eqn:Hk.
    { rewrite E, length_app in Hk. lia. }
    rewrite feed_commands_eq. destruct (MAX_COMMAND <? length (lg_buf l ++ chunk)); [done|]. by rewrite Ht, Hr.
Qed.

(** An inline AUTH is rewritten by replacing the first place its token's
    bytes occur in the line, which need not be the token: a user name that
    occurs inside the verb corrupts the verb. *)
Theorem inline_user_corrupts_verb :
  let legs := Some ({| rd_host := bs "h"; rd_port := 1; rd_user := Some (bs "A"); rd_password := bs "f"; rd_database := None |},
                    {| rd_host := bs "h"; rd_port := 1; rd_user := Some (bs "root"); rd_password := bs "r"; rd_database := None |}) in
  ∃ kind, take_command (bs "AUTH A f" ++ crlf) = Some (bs "AUTH A f" ++ crlf, kind, []) ∧
    rewrite_command (bs "f") (bs "r") legs (bs "t") (bs "AUTH A f" ++ crlf) kind =
      Ok (bs "rootUTH A r" ++ crlf, [{| hit_label := bs "t"; hit_location := Body |}]).
Proof. eexists. split; reflexivity. Qed.

Definition sample_leg : Leg :=
  {| lg_buf := []; lg_legs := None; lg_fake := bs "decoy"; lg_real := bs "a-much-longer-secret";
     lg_label := bs "cache"; lg_closed := false |}.
Definition sample_redis : Redis :=
  {| rs_downstream := Some sample_leg; rs_inner := {| rw_pairs := []; rw_tail_size := 0; rw_held := [] |} |}.

Lemma take_command_resp_array_witness :
  ∃ kind, take_command (resp_array [bs "AUTH"; bs "decoy"] ++ bs "*1") =
    Some (resp_array [bs "AUTH"; bs "decoy"], kind, bs "*1").
Proof. eexists. apply (take_command_resp_array [bs "AUTH"; bs "decoy"] (bs "*1")). by vm_compute. Defined.

Lemma redis_split_invariant_witness :
  let a := bs "*2\r" in
  ∃ out hits m, feed_downstream sample_redis sample_leg (bs "AUTH dec" ++ bs "oy" ++ crlf) = ((out, hits), m).
Proof.
  intros a. eexists _, _, _.
  apply (redis_split_invariant sample_redis sample_leg (bs "AUTH dec") (bs "oy" ++ crlf)
    [] [] (leg_with sample_leg (bs "AUTH dec") false) (bs "AUTH a-much-longer-secret" ++ crlf)
    [{| hit_label := bs "cache"; hit_location := Body |}]
    {| rs_downstream := Some (leg_with sample_leg [] false); rs_inner := rs_inner sample_redis |});
    first [reflexivity|discriminate|idtac].
  apply Nat.leb_le. reflexivity.
Defined.

Lemma auth_array_reframed_witness :
  let ts := [bs "auth"; bs "decoy"] in
  rewrite_command (bs "decoy") (bs "a-much-longer-secret") None (bs "cache") (resp_array ts)
      (classify ts (args_of (length (array_header ts)) ts)) =
    Ok (resp_array [bs "auth"; bs "a-much-longer-secret"], [{| hit_label := bs "cache"; hit_location := Body |}]).
Proof.
  intros ts. exact (auth_array_reframed (bs "decoy") (bs "a-much-longer-secret") None (bs "cache")
    (bs "auth") [bs "decoy"] eq_refl).
Defined.

Lemma hello_array_reframed_witness :
  let ts := [bs "HELLO"; bs "3"; bs "AUTH"; bs "default"; bs "decoy"; bs "SETNAME"; bs "x"] in
  rewrite_command (bs "decoy") (bs "secret") None (bs "cache") (resp_array ts)
      (classify ts (args_of (length (array_header ts)) ts)) =
    Ok (resp_array [bs "HELLO"; bs "3"; bs "AUTH"; bs "default"; bs "secret"; bs "SETNAME"; bs "x"],
        [{| hit_label := bs "cache"; hit_location := Body |}]).
Proof.
  intros ts. exact (proj2 (hello_array_reframed (bs "decoy") (bs "secret") None (bs "cache") (bs "HELLO") [bs "3"] (bs "AUTH")
    [bs "default"; bs "decoy"; bs "SETNAME"; bs "x"] eq_refl 
    (Forall_cons_2 _ (bs "3") _ (eq_refl : is_auth (bs "3") = false) (Forall_nil_2 _))) eq_refl).
Defined.

Lemma redis_closed_is_final_witness :
  (Redis_feed sample_redis (bs "AUTH" ++ crlf)).1.1 = Close.
Proof.
  destruct (redis_closed_is_final sample_redis sample_leg (bs "AUTH" ++ crlf) eq_refl) as (_ & _ & H).
  eapply H; [discriminate|reflexivity|reflexivity].
Defined.
