(* ===== verification/Postgres.v ===== *)
(** * The Postgres wire

    [crates/hodor-proxy/src/transports/postgres/machine.rs], and of
    [postgres/mod.rs] the TLS decision of [serve], the egress certificate
    verifier and [postgres_pair]. Message shapes are judged by the [pgwire]
    crate, certificates by [rustls]: the classes [Pgwire] and [CertChecks]. *)

From S2P Require Import Prelude Decoy ConnString Grants Mint Engine Raw.

Class Pgwire := {
  is_ssl_request_packet : bytes → bool;
  is_gss_enc_request_packet : bytes → bool;
  startup_decodes : bytes → bool;     (* [Startup::decode_body(..).is_ok()] *)
  ssl_request_magic : N;              (* [SslRequest::BODY_MAGIC_NUMBER] *)
}.

Definition MAX_GREETING : nat := 16 * 1024.
Definition NEGOTIATION_LEN : nat := 8.
Definition TLS_RECORD_HANDSHAKE : byte := Byte.x16.
Definition NUL : byte := Byte.x00.

Inductive PgState := Greeting (buf : bytes) | Relay.

Record Postgres := {
  pm_state : PgState;
  pm_inner : Raw;
  pm_reply : option bytes;
  pm_user_rewrite : option bytes;
  pm_closed : bool;
}.
Definition pm_with (m : Postgres) (st : PgState) (inner : Raw) (reply : option bytes) (closed : bool) : Postgres :=
  {| pm_state := st; pm_inner := inner; pm_reply := reply; pm_user_rewrite := pm_user_rewrite m; pm_closed := closed |}.

Definition Postgres_user_rewrite (grants : list Grant) (host : bytes) (port : N) : option bytes :=
  scope ← find_map (λ g, Grant_postgres g (Some host) port) grants;
  let up := pg_user (pg_upstream scope) in
  if bool_of_opt up && negb (bool_decide (up = pg_user (pg_downstream scope))) then up else None.

Definition Postgres_new (grants : list Grant) (host : bytes) (port : N) (dir : Direction) : Postgres :=
  {| pm_state := match dir with Downstream => Greeting [] | Upstream => Relay end;
     pm_inner := Raw_new grants SPostgres host port dir;
     pm_reply := None;
     pm_user_rewrite := Postgres_user_rewrite grants host port;
     pm_closed := false |}.

(** [postgres_pair]. *)
Definition postgres_pair (grants : list Grant) (host : bytes) (port : N) : Postgres * Postgres :=
  (Postgres_new grants host port Downstream, Postgres_new grants host port Upstream).

(** Steady-state relay through the raw wire. *)
Definition postgres_inner_feed (m : Postgres) (chunk : bytes) : (bytes * list Hit) * Postgres :=
  let '((rewritten, hits), inner) := Raw_feed (pm_inner m) chunk in
  (match rewritten with Emit out => (out, hits) | Hold | Close => ([], hits) end,
   pm_with m (pm_state m) inner (pm_reply m) (pm_closed m)).

(** [greeting_len]: the length word when the whole message is here, [None] to
    hold; a malformed length reads as [Some 0] and latches closed. *)
Definition greeting_len (m : Postgres) : option nat * bool :=
  match pm_state m with
  | Relay => (Some 0, pm_closed m)
  | Greeting buf =>
      if length buf <? 4 then (None, pm_closed m)
      else
        let len := of_be (take 4 buf) in
        if negb ((8 <=? len) && (len <=? N.of_nat MAX_GREETING))%N then (Some 0, true)
        else (if (N.of_nat (length buf) <? len)%N then None else Some (N.to_nat len), pm_closed m)
  end.

(** Replace the startup [user] parameter, reframing the message. The loop
    advances past one [key\0value\0] pair a round. *)
Fixpoint rewrite_startup_user_go (fuel : nat) (msg user : bytes) (pos : nat) : bytes :=
  match fuel with
  | 0 => msg
  | S fuel =>
      if pos + 5 <? length msg then
        match position (is_byte NUL) (drop pos msg) with
        | None => msg
        | Some at_ =>
            let key_end := pos + at_ in
            let value_start := key_end + 1 in
            match position (is_byte NUL) (drop value_start msg) with
            | None => msg
            | Some at_ =>
                let value_end := value_start + at_ in
                if bool_decide (take (key_end - pos) (drop pos msg) = bs "user") then
                  let msg := take value_start msg ++ user ++ drop value_end msg in
                  be32 (N.min (N.of_nat (length msg)) (2 ^ 32 - 1)) ++ drop 4 msg
                else rewrite_startup_user_go fuel msg user (value_end + 1)
            end
        end
      else msg
  end.
Definition rewrite_startup_user (msg user : bytes) : bytes :=
  rewrite_startup_user_go (length msg) msg user 8.

Section Wire.
Context `{!Pgwire}.

Definition read_startup (msg : bytes) : bool :=
  (4 <=? length msg) && startup_decodes (drop 4 msg).

(** [refuse_negotiation]: answer one 8-byte request with [N] and consume it. *)
Definition refuse_negotiation (m : Postgres) : option Postgres :=
  match pm_state m with
  | Relay => None
  | Greeting buf =>
      if negb (is_ssl_request_packet (take 8 buf)) && negb (is_gss_enc_request_packet (take 8 buf)) then None
      else Some (pm_with m (Greeting (drop 8 buf)) (pm_inner m)
                   (Some (default [] (pm_reply m) ++ bs "N")) (pm_closed m))
  end.

(** [take_greeting] and [take_rest]: both answer empty outside the greeting. *)
Definition take_greeting (m : Postgres) (len : nat) : bytes * Postgres :=
  match pm_state m with
  | Relay => ([], m)
  | Greeting buf => (take len buf, pm_with m (Greeting (drop len buf)) (pm_inner m) (pm_reply m) (pm_closed m))
  end.
Definition take_rest (m : Postgres) : bytes * Postgres :=
  match pm_state m with
  | Relay => ([], m)
  | Greeting buf => (buf, pm_with m (Greeting []) (pm_inner m) (pm_reply m) (pm_closed m))
  end.

Definition pm_close (m : Postgres) : Postgres := pm_with m (pm_state m) (pm_inner m) (pm_reply m) true.

(** The loop of [feed_greeting]; a negotiation request consumes eight bytes a round. *)
Fixpoint greeting_loop (fuel : nat) (m : Postgres) : (bytes * list Hit) * Postgres :=
  let '(len, closed) := greeting_len m in
  let m := pm_with m (pm_state m) (pm_inner m) (pm_reply m) closed in
  match len with
  | None => (([], []), m)
  | Some len =>
      if len =? 8 then
        match refuse_negotiation m, fuel with
        | Some m, S fuel => greeting_loop fuel m
        | _, _ => (([], []), pm_close m)
        end
      else
        let '(msg, m) := take_greeting m len in
        if negb (read_startup msg) then (([], []), pm_close m)
        else
          let msg := match pm_user_rewrite m with Some user => rewrite_startup_user msg user | None => msg end in
          let m := pm_with m Relay (pm_inner m) (pm_reply m) (pm_closed m) in
          let '((out, hits), m) := postgres_inner_feed m msg in
          let '(rest, m) := take_rest m in
          if bool_decide (rest = []) then ((out, hits), m)
          else
            let '((tail, tail_hits), m) := postgres_inner_feed m rest in
            ((out ++ tail, hits ++ tail_hits), m)
  end.

Definition feed_greeting (m : Postgres) (chunk : bytes) : (bytes * list Hit) * Postgres :=
  match pm_state m with
  | Relay => postgres_inner_feed m chunk
  | Greeting buf =>
      if bool_decide (chunk = []) then postgres_inner_feed m chunk
      else
        let buf := buf ++ chunk in
        let m := pm_with m (Greeting buf) (pm_inner m) (pm_reply m) (pm_closed m) in
        if MAX_GREETING <? length buf then (([], []), pm_close m)
        else greeting_loop (length buf) m
  end.

Definition Postgres_feed (m : Postgres) (chunk : bytes) : (Rewritten * list Hit) * Postgres :=
  let '((out, hits), m) :=
    match pm_state m with Relay => postgres_inner_feed m chunk | Greeting _ => feed_greeting m chunk end in
  ((if pm_closed m then Close else if bool_decide (out = []) then Hold else Emit out, hits), m).

Definition Postgres_take_reply (m : Postgres) : option bytes * Postgres :=
  (pm_reply m, pm_with m (pm_state m) (pm_inner m) None (pm_closed m)).

#[export] Instance Postgres_wire : Wire Postgres := {
  feed := Postgres_feed;
  take_reply := Postgres_take_reply;
  take_peer_note := no_peer_note;
  apply_peer_note := ignore_peer_note;
}.

(** ** The guest's opening *)

Inductive GuestOpening := OpenTls (buf : bytes) | OpenCleartext (buf : bytes).

(** What one read of the guest inside the remaining budget gives. *)
Inductive ReadEvent := Data (chunk : bytes) | Eof | Elapsed | ReadError.

(** The rounds that need no read: the bytes written to the guest, and either an
    opening or the buffer so far. *)
Fixpoint judge_opening (fuel : nat) (buf : bytes) : bytes * (GuestOpening + bytes) :=
  if bool_decide (head buf = Some TLS_RECORD_HANDSHAKE) then ([], inl (OpenTls buf))
  else if NEGOTIATION_LEN <=? length buf then
    let request := take NEGOTIATION_LEN buf in
    if is_ssl_request_packet request then (bs "S", inl (OpenTls (drop NEGOTIATION_LEN buf)))
    else if is_gss_enc_request_packet request then
      match fuel with
      | 0 => ([], inr buf)
      | S fuel => let '(written, r) := judge_opening fuel (drop NEGOTIATION_LEN buf) in (bs "N" ++ written, r)
      end
    else ([], inl (OpenCleartext buf))
  else ([], inr buf).

(** [read_guest_opening]: what it wrote to the guest, its outcome and the reads
    it did not make. [Ok None] is a guest that closed or ran out of budget. *)
Fixpoint read_guest_opening (buf : bytes) (events : list ReadEvent)
    : bytes * result () (option GuestOpening) * list ReadEvent :=
  let '(written, r) := judge_opening (length buf) buf in
  match r with
  | inl opening => (written, Ok (Some opening), events)
  | inr buf =>
      match events with
      | Data chunk :: events =>
          let '(written', res, unread) := read_guest_opening (buf ++ chunk) events in (written ++ written', res, unread)
      | ReadError :: unread => (written, Err tt, unread)
      | Eof :: unread | Elapsed :: unread => (written, Ok None, unread)
      | [] => (written, Ok None, [])
      end
  end.

Definition ssl_request : bytes := be32 8 ++ be32 ssl_request_magic.

(** [request_upstream_tls]: (written to the server, accepted). The server's
    answer is a byte, or nothing inside the budget. *)
Definition request_upstream_tls (negotiation : SslNegotiation) (answer : option byte) : bytes * result () bool :=
  match negotiation with
  | NegDirect => ([], Ok true)
  | NegPostgres =>
      (ssl_request, match answer with
                    | Some a => Ok (bool_decide (a = Byte.x53))
                    | None => Err tt
                    end)
  end.

(** [serve], once the guest's opening is known: does the stream go on, and is
    the upstream leg under TLS? [Ok None] closes the connection. *)
Definition settle_upstream (ssl : SslMode) (negotiation : SslNegotiation) (guest_tls : bool) (answer : option byte)
    : bytes * result () (option bool) :=
  let asks_tls := match ssl with
                  | Disable => false
                  | Allow => guest_tls
                  | Prefer | Require_ | VerifyCa | VerifyFull => true
                  end in
  let '(written, accepted) :=
    if asks_tls then request_upstream_tls negotiation answer else ([], Ok false) in
  let needed := match ssl with Require_ | VerifyCa | VerifyFull => true | _ => false end in
  (written, accepted ← accepted; Ok (if needed && negb accepted then None else Some accepted)).
End Wire.

(** ** The egress certificate verifier *)

Class CertChecks := {
  Cert : Type;
  Roots : Type;
  cert_parses : Cert → bool;
  signed_by_anchor : Cert → Roots → list Cert → bool;
  name_matches : Cert → bytes → bool;
}.

Section Verifier.
Context `{!CertChecks}.

Record EgressCertVerifier := {
  ev_roots : option Roots;
  ev_check_name : bool;
}.

Definition verify_server_cert (v : EgressCertVerifier) (end_entity : Cert) (intermediates : list Cert)
    (server_name : bytes) : bool :=
  match ev_roots v with
  | None => true
  | Some roots =>
      cert_parses end_entity && signed_by_anchor end_entity roots intermediates &&
      (negb (ev_check_name v) || name_matches end_entity server_name)
  end.

(** The verifier [connect_server] builds: the store the scope's anchor loads,
    or an error when it cannot be read or is empty. *)
Definition egress_verifier (roots_for : RootCert → option Roots) (scope : PostgresScope) : option EgressCertVerifier :=
  roots ← match pg_root_cert scope with
          | Some root => Some <$> roots_for root
          | None => Some None
          end;
  Some {| ev_roots := roots; ev_check_name := bool_decide (pg_ssl scope = VerifyFull) |}.
End Verifier.

(** ** The greeting *)

Lemma max_greeting_ge : 8 ≤ MAX_GREETING.
Proof. unfold MAX_GREETING. lia. Qed.
#[local] Opaque MAX_GREETING.

Section GreetingProperties.
Context `{!Pgwire}.

(** A negotiation request as a client sends it: eight bytes, a length word of
    eight, a magic code pgwire knows. *)
Definition negotiation_request (req : bytes) : Prop :=
  length req = 8 ∧ of_be (take 4 req) = 8%N ∧
  (is_ssl_request_packet req || is_gss_enc_request_packet req) = true.

(** A complete startup message: its length word is its length, in range. *)
Definition startup_message (msg : bytes) : Prop :=
  8 < length msg ≤ MAX_GREETING ∧ of_be (take 4 msg) = N.of_nat (length msg) ∧ startup_decodes (drop 4 msg) = true.

(** The reply queued after [k] refused requests. *)
Definition refusals (reply : option bytes) (k : nat) : option bytes :=
  match k with 0 => reply | _ => Some (default [] reply ++ replicate k Byte.x4e) end.

Lemma refusals_S reply k : refusals (Some (default [] reply ++ bs "N")) k = refusals reply (S k).
Proof. destruct k; simpl; [done|]. by rewrite <- app_assoc. Qed.

Lemma greeting_len_full m st buf :
  pm_state m = Greeting (st ++ buf) → 8 ≤ length st ≤ MAX_GREETING → of_be (take 4 st) = N.of_nat (length st) →
  greeting_len m = (Some (length st), pm_closed m).
Proof.
  intros Hm Hl Hbe. unfold greeting_len. rewrite Hm, (proj2 (Nat.ltb_ge _ _)) by (rewrite length_app; lia).
  rewrite take_app_le', Hbe by lia.
  rewrite (proj2 (N.leb_le _ _)), (proj2 (N.leb_le _ _)) by lia. simpl.
  rewrite (proj2 (N.ltb_ge _ _)) by (rewrite length_app; lia). by rewrite Nat2N.id.
Qed.

Lemma pm_with_same m : pm_with m (pm_state m) (pm_inner m) (pm_reply m) (pm_closed m) = m.
Proof. by destruct m. Qed.

Lemma greeting_loop_request fuel m req buf :
  pm_state m = Greeting (req ++ buf) → negotiation_request req →
  greeting_loop (S fuel) m =
    greeting_loop fuel (pm_with m (Greeting buf) (pm_inner m) (Some (default [] (pm_reply m) ++ bs "N")) (pm_closed m)).
Proof.
  intros Hm (Hl & Hbe & Hmagic). cbn [greeting_loop].
  rewrite (greeting_len_full m req buf) by (done || (rewrite Hl; pose proof max_greeting_ge; lia) || by rewrite Hl).
  cbn iota beta. rewrite pm_with_same, Hl. cbn [Nat.eqb]. unfold refuse_negotiation. rewrite Hm.
  rewrite take_app_length' by done. rewrite drop_app_length' by done.
  apply orb_true_iff in Hmagic as [Hk|Hk]; rewrite Hk; cbn [negb andb]; [done|]. by rewrite andb_false_r.
Qed.

Lemma greeting_loop_requests reqs fuel m buf :
  length reqs ≤ fuel → pm_state m = Greeting (concat reqs ++ buf) → Forall negotiation_request reqs →
  greeting_loop fuel m =
    greeting_loop (fuel - length reqs)
      (pm_with m (Greeting buf) (pm_inner m) (refusals (pm_reply m) (length reqs)) (pm_closed m)).
Proof.
  revert fuel m. induction reqs as [|req reqs IH]; intros fuel m Hf Hm Hreqs; simpl in *.
  { rewrite Nat.sub_0_r. f_equal. rewrite <- (pm_with_same m) at 1. by rewrite Hm. }
  destruct fuel as [|fuel]; [lia|]. apply Forall_cons in Hreqs as [Hreq Hreqs].
  rewrite <- app_assoc in Hm. rewrite (greeting_loop_request fuel m req (concat reqs ++ buf)) by done.
  rewrite IH by (done || lia). cbn [pm_reply pm_with pm_inner pm_closed pm_user_rewrite].
  by rewrite refusals_S.
Qed.

(** The startup message as it goes upstream. *)
Definition relayed_startup (m : Postgres) (msg : bytes) : bytes :=
  match pm_user_rewrite m with Some user => rewrite_startup_user msg user | None => msg end.

Lemma greeting_loop_startup fuel m msg extra :
  pm_state m = Greeting (msg ++ extra) → startup_message msg →
  greeting_loop fuel m =
    postgres_inner_feed (pm_with m Relay (pm_inner m) (pm_reply m) (pm_closed m)) (relayed_startup m msg).
Proof.
  intros Hm (Hl & Hbe & Hdec).
  assert (greeting_len m = (Some (length msg), pm_closed m)) as Hlen by (apply (greeting_len_full m msg extra); [done|lia|done]).
  assert (∀ k, greeting_loop k m =
    (let '((out, hits), m') := postgres_inner_feed (pm_with m Relay (pm_inner m) (pm_reply m) (pm_closed m)) (relayed_startup m msg) in
     let '(rest, m') := take_rest m' in
     if bool_decide (rest = []) then ((out, hits), m')
     else let '((tail, tail_hits), m') := postgres_inner_feed m' rest in ((out ++ tail, hits ++ tail_hits), m'))) as ->.
  { intros k. destruct k; cbn [greeting_loop]; rewrite Hlen; cbn iota beta; rewrite pm_with_same.
    all: rewrite (proj2 (Nat.eqb_neq (length msg) 8)) by lia; unfold take_greeting; rewrite Hm.
    all: rewrite take_app_length, drop_app_length.
    all: unfold read_startup; rewrite (proj2 (Nat.leb_le _ _)), Hdec by lia; done. }
  unfold postgres_inner_feed. destruct (Raw_feed _ _) as [[rewritten hits] inner]. simpl.
  by destruct rewritten.
Qed.

(** C37: The Postgres greeting: from any point of it, the guest's negotiation
    requests are each refused with one [N], in order, and the first startup
    message after them is sent on through the raw wire, its user renamed when
    the rule's legs name different users; from then on the leg relays. The
    bytes the guest pipelined behind the startup are not part of what is
    sent: [extra] does not occur on the right. *)
Theorem greeting_relays_startup m held chunk reqs msg extra :
  pm_state m = Greeting held → chunk ≠ [] →
  held ++ chunk = concat reqs ++ msg ++ extra →
  length (held ++ chunk) ≤ MAX_GREETING → Forall negotiation_request reqs → startup_message msg →
  feed_greeting m chunk =
    postgres_inner_feed
      (pm_with m Relay (pm_inner m) (refusals (pm_reply m) (length reqs)) (pm_closed m)) (relayed_startup m msg).
Proof.
  intros Hm Hc Hbuf Hmax Hreqs Hmsg. unfold feed_greeting. rewrite Hm, bool_decide_eq_false_2 by done.
  rewrite (proj2 (Nat.ltb_ge _ _)) by done. rewrite Hbuf.
  assert (length reqs ≤ length (concat reqs)) as Hlr.
  { clear -Hreqs. induction Hreqs as [|req reqs (Hl & _) _ IH]; simpl; [done|]. rewrite length_app. lia. }
  rewrite (greeting_loop_requests reqs _ _ (msg ++ extra)) by (done || (rewrite length_app; lia)).
  cbn [pm_with pm_reply pm_inner pm_closed].
  by rewrite (greeting_loop_startup _ _ msg extra).
Qed.

(** A message still incomplete: no length word, or one in range that is longer
    than what has arrived. *)
Definition incomplete (part : bytes) : Prop :=
  length part < 4 ∨
  (4 ≤ length part ∧ (8 ≤ of_be (take 4 part) ≤ N.of_nat MAX_GREETING)%N ∧ (N.of_nat (length part) < of_be (take 4 part))%N).

(** What no greeting may be: a length word out of range, eight bytes with an
    unknown magic code, a message pgwire cannot decode. *)
Definition malformed (part : bytes) : Prop :=
  4 ≤ length part ∧
  let len := of_be (take 4 part) in
  (len < 8)%N ∨ (N.of_nat MAX_GREETING < len)%N ∨
  (len = 8%N ∧ 8 ≤ length part ∧
     is_ssl_request_packet (take 8 part) = false ∧ is_gss_enc_request_packet (take 8 part) = false) ∨
  ((8 < len ≤ N.of_nat MAX_GREETING)%N ∧ (len ≤ N.of_nat (length part))%N ∧
     startup_decodes (drop 4 (take (N.to_nat len) part)) = false).

Lemma greeting_loop_incomplete fuel m part :
  pm_state m = Greeting part → incomplete part → greeting_loop fuel m = (([], []), m).
Proof.
  intros Hm Hinc. assert (greeting_len m = (None, pm_closed m)) as Hlen.
  { unfold greeting_len. rewrite Hm. destruct (Nat.ltb_spec (length part) 4); [done|].
    destruct Hinc as [?|(_ & [? ?] & ?)]; [lia|].
    rewrite (proj2 (N.leb_le _ _)), (proj2 (N.leb_le _ _)) by done. simpl. by rewrite (proj2 (N.ltb_lt _ _)). }
  destruct fuel; cbn [greeting_loop]; rewrite Hlen; cbn iota beta; by rewrite pm_with_same.
Qed.

Lemma greeting_loop_malformed fuel m part :
  pm_state m = Greeting part → malformed part →
  ∃ m', greeting_loop fuel m = (([], []), m') ∧ pm_closed m' = true.
Proof.
  intros Hm (H4 & Hbad). unfold malformed in Hbad. simpl in Hbad.
  assert (Hout : ((of_be (take 4 part) < 8)%N ∨ (N.of_nat MAX_GREETING < of_be (take 4 part))%N) →
    greeting_len m = (Some 0, true)).
  { intros Hr. unfold greeting_len. rewrite Hm, (proj2 (Nat.ltb_ge _ _)) by done.
    destruct Hr as [Hr|Hr].
    - by rewrite (proj2 (N.leb_gt _ _) Hr).
    - by rewrite (proj2 (N.leb_gt _ _) Hr), andb_false_r. }
  destruct Hbad as [Hb|[Hb|[(Hb & Hl & Hssl & Hgss)|([Hb1 Hb2] & Hl & Hdec)]]].
  1-2: destruct fuel; cbn [greeting_loop]; rewrite Hout by auto; cbn iota beta; cbn [Nat.eqb];
    unfold take_greeting; cbn [pm_with pm_state]; rewrite Hm; eexists; (split; [reflexivity|done]).
  - assert (greeting_len m = (Some 8, pm_closed m)) as Hlen.
    { unfold greeting_len. rewrite Hm, (proj2 (Nat.ltb_ge _ _)), Hb by done. pose proof max_greeting_ge.
      rewrite (proj2 (N.leb_le _ (N.of_nat MAX_GREETING))) by lia. simpl.
      by rewrite (proj2 (N.ltb_ge _ _)) by lia. }
    destruct fuel; cbn [greeting_loop]; rewrite Hlen; cbn iota beta; rewrite pm_with_same; cbn [Nat.eqb];
      unfold refuse_negotiation; rewrite Hm, Hssl, Hgss; simpl; eexists; (split; [reflexivity|done]).
  - assert (greeting_len m = (Some (N.to_nat (of_be (take 4 part))), pm_closed m)) as Hlen.
    { unfold greeting_len. rewrite Hm, (proj2 (Nat.ltb_ge _ _)) by done.
      rewrite (proj2 (N.leb_le _ _)), (proj2 (N.leb_le _ _)) by lia. simpl. by rewrite (proj2 (N.ltb_ge _ _)). }
    destruct fuel; cbn [greeting_loop]; rewrite Hlen; cbn iota beta; rewrite pm_with_same;
      rewrite (proj2 (Nat.eqb_neq _ 8)) by lia; unfold take_greeting; rewrite Hm;
      unfold read_startup; rewrite Hdec, andb_false_r; simpl; eexists; (split; [reflexivity|done]).
Qed.

(** The greeting never lets a stray byte through: while the message after
    the negotiation requests is incomplete the leg emits nothing and keeps
    exactly those bytes; past the cap, or on a length out of range, an
    unknown magic code or a startup pgwire cannot decode, it emits nothing and
    closes. *)
Theorem greeting_holds_or_closes m held chunk reqs part :
  pm_state m = Greeting held → pm_closed m = false → chunk ≠ [] →
  held ++ chunk = concat reqs ++ part → Forall negotiation_request reqs →
  (length (held ++ chunk) ≤ MAX_GREETING → incomplete part →
     Postgres_feed m chunk =
       ((Hold, []), pm_with m (Greeting part) (pm_inner m) (refusals (pm_reply m) (length reqs)) false)) ∧
  (MAX_GREETING < length (held ++ chunk) ∨ malformed part → (Postgres_feed m chunk).1 = (Close, [])).
Proof.
  intros Hm Hopen Hc Hbuf Hreqs. unfold Postgres_feed, feed_greeting.
  rewrite Hm, bool_decide_eq_false_2 by done. rewrite <- Hopen.
  assert (length reqs ≤ length (concat reqs ++ part)) as Hlr.
  { rewrite length_app. clear -Hreqs. induction Hreqs as [|req reqs (Hl & _) _ IH]; simpl; [lia|]. rewrite length_app. lia. }
  split.
  - intros Hmax Hinc. rewrite (proj2 (Nat.ltb_ge _ _)), Hbuf by done.
    rewrite (greeting_loop_requests reqs _ _ part) by done. cbn [pm_with pm_reply pm_inner pm_closed].
    rewrite (greeting_loop_incomplete _ _ part) by done. cbn [pm_closed pm_with]. by rewrite Hopen.
  - intros Hbad. destruct (Nat.ltb_spec MAX_GREETING (length (held ++ chunk))) as [|Hmax]; [done|].
    destruct Hbad as [?|Hbad]; [lia|]. rewrite Hbuf.
    rewrite (greeting_loop_requests reqs _ _ part) by done. cbn [pm_with pm_reply pm_inner pm_closed].
    destruct (greeting_loop_malformed (length (concat reqs ++ part) - length reqs)
      (pm_with m (Greeting part) (pm_inner m) (refusals (pm_reply m) (length reqs)) (pm_closed m)) part) as (m' & Hloop & Hcl);
      [done..|]. unfold pm_with in Hloop |- *. cbn [pm_user_rewrite pm_reply pm_inner pm_closed pm_state] in *.
    rewrite Hloop. by rewrite Hcl.
Qed.
End GreetingProperties.

(** ** The startup user *)

Definition param (kv : bytes * bytes) : bytes := kv.1 ++ [NUL] ++ kv.2 ++ [NUL].
Definition params (kvs : list (bytes * bytes)) : bytes := concat (map param kvs).

(** A startup message: its length, the protocol word, the parameters, a NUL. *)
Definition startup_msg (protocol : bytes) (kvs : list (bytes * bytes)) : bytes :=
  be32 (N.of_nat (9 + length (params kvs))) ++ protocol ++ params kvs ++ [NUL].

(** The parameters with the first [user]'s value replaced. *)
Fixpoint set_user (user : bytes) (kvs : list (bytes * bytes)) : list (bytes * bytes) :=
  match kvs with
  | [] => []
  | (k, v) :: kvs => if bool_decide (k = bs "user") then (k, user) :: kvs else (k, v) :: set_user user kvs
  end.

Definition no_nul (l : bytes) : Prop := Forall (λ b, b ≠ NUL) l.

Lemma position_nul l x : no_nul l → position (is_byte NUL) (l ++ NUL :: x) = Some (length l).
Proof.
  intros Hl. rewrite position_app.
  - cbn [position]. unfold is_byte at 1. rewrite bool_decide_eq_true_2 by done. cbn. by rewrite Nat.add_0_r.
  - eapply Forall_impl; [exact Hl|]. intros b Hb. by apply bool_decide_eq_false.
Qed.

Lemma params_user_long k v kvs : (k, v) ∈ kvs → length k + 2 ≤ length (params kvs).
Proof.
  induction kvs as [|kv kvs IH]; intros Hin; [by apply elem_of_nil in Hin|].
  change (params (kv :: kvs)) with (param kv ++ params kvs). rewrite length_app.
  apply elem_of_cons in Hin as [<-|Hin]; [|specialize (IH Hin); lia].
  unfold param. rewrite !length_app. simpl. lia.
Qed.

Lemma set_user_none user kvs : (∀ v, (bs "user", v) ∉ kvs) → set_user user kvs = kvs.
Proof.
  induction kvs as [|[k v] kvs IH]; intros Hno; simpl; [done|]. rewrite bool_decide_eq_false_2.
  - rewrite IH; [done|]. intros v' Hin. apply (Hno v'). by right.
  - intros ->. apply (Hno v). left.
Qed.

Lemma rewrite_startup_user_go_spec fuel pre kvs user :
  length kvs ≤ fuel → Forall (λ kv, no_nul kv.1 ∧ no_nul kv.2) kvs →
  let out kvs := pre ++ params kvs ++ [NUL] in
  rewrite_startup_user_go fuel (out kvs) user (length pre) =
    if bool_decide (Exists (λ kv, kv.1 = bs "user") kvs)
    then be32 (N.min (N.of_nat (length (out (set_user user kvs)))) (2 ^ 32 - 1)) ++ drop 4 (out (set_user user kvs))
    else out kvs.
Proof.
  intros Hf Hkvs out. revert fuel pre out Hf.
  induction Hkvs as [|[k v] kvs [Hk Hv] Hkvs IH]; intros fuel pre out Hf.
  { rewrite bool_decide_eq_false_2 by (intros Hx; inversion Hx). destruct fuel; cbn [rewrite_startup_user_go]; [done|].
    rewrite (proj2 (Nat.ltb_ge _ _)); [done|]. unfold out. rewrite !length_app. simpl. lia. }
  destruct fuel as [|fuel]; [simpl in Hf; lia|]. cbn [rewrite_startup_user_go].
  assert (out ((k, v) :: kvs) = pre ++ k ++ NUL :: v ++ NUL :: params kvs ++ [NUL]) as Hout.
  { unfold out. change (params ((k, v) :: kvs)) with (param (k, v) ++ params kvs). unfold param. simpl.
    by rewrite <- !app_assoc, <- !app_comm_cons, <- app_assoc. }
  destruct (Nat.ltb_spec (length pre + 5) (length (out ((k, v) :: kvs)))) as [Hlt|Hge].
  2: { rewrite bool_decide_eq_false_2; [done|]. intros ([k' v'] & Hin & E)%Exists_exists. simpl in E. subst k'.
    apply params_user_long in Hin. unfold out in Hge. rewrite !length_app in Hge. simpl in Hin, Hge. lia. }
  rewrite Hout, drop_app_length, position_nul by done.
  replace (length pre + length k + 1) with (length (pre ++ k ++ [NUL])) by (rewrite !length_app; simpl; lia).
  replace (pre ++ k ++ NUL :: v ++ NUL :: params kvs ++ [NUL])
    with ((pre ++ k ++ [NUL]) ++ v ++ NUL :: params kvs ++ [NUL]) by by rewrite <- !app_assoc.
  rewrite drop_app_length, position_nul by done.
  replace (length pre + length k - length pre) with (length k) by lia. rewrite take_app_length.
  cbn [set_user]. destruct (decide (k = bs "user")) as [Hu|Hu].
  - subst k. rewrite !bool_decide_eq_true_2 by (done || by left). rewrite take_app_length.
    rewrite drop_app_add, drop_app_length.
    assert ((pre ++ bs "user" ++ [NUL]) ++ user ++ NUL :: params kvs ++ [NUL] = out ((bs "user", user) :: kvs)) as ->; [|done].
    unfold out. change (params ((bs "user", user) :: kvs)) with (param (bs "user", user) ++ params kvs).
    unfold param. by rewrite <- !app_assoc.
  - rewrite !(bool_decide_eq_false_2 (k = _)) by done.
    replace (length (pre ++ k ++ [NUL]) + length v + 1) with (length (pre ++ param (k, v))).
    2: { unfold param. rewrite !length_app. simpl. lia. }
    replace ((pre ++ k ++ [NUL]) ++ v ++ NUL :: params kvs ++ [NUL]) with ((pre ++ param (k, v)) ++ params kvs ++ [NUL]).
    2: { unfold param. cbn [fst snd]. by rewrite <- !app_assoc. }
    rewrite IH by (simpl in Hf; lia).
    assert (∀ l, (pre ++ param (k, v)) ++ params l ++ [NUL] = out ((k, v) :: l)) as Hcons.
    { intros l. unfold out. change (params ((k, v) :: l)) with (param (k, v) ++ params l). by rewrite <- !app_assoc. }
    rewrite !Hcons. rewrite (bool_decide_ext (Exists _ ((k, v) :: kvs)) (Exists (λ kv, kv.1 = bs "user") kvs)).
    + done.
    + rewrite Exists_cons. simpl. naive_solver.
Qed.

(** Renaming the startup user yields the startup message with the first
    [user] parameter's value replaced and every other parameter untouched,
    its length word again its length; a message that names no user is left
    as it is. *)
Theorem startup_user_renamed protocol kvs user :
  length protocol = 4 → Forall (λ kv, no_nul kv.1 ∧ no_nul kv.2) kvs →
  (N.of_nat (9 + length (params (set_user user kvs))) < 2 ^ 32)%N →
  rewrite_startup_user (startup_msg protocol kvs) user = startup_msg protocol (set_user user kvs).
Proof.
  intros Hp Hkvs Hlen. unfold rewrite_startup_user.
  assert (length kvs ≤ length (params kvs)) as Hk.
  { clear. induction kvs as [|kv kvs IH]; [done|]. change (params (kv :: kvs)) with (param kv ++ params kvs).
    rewrite length_app. unfold param. rewrite !length_app. simpl. lia. }
  set (pre l := be32 (N.of_nat (9 + length (params l))) ++ protocol).
  assert (∀ l, length (pre l) = 8) as Hpre by (intros l; unfold pre; rewrite length_app; simpl; lia).
  assert (∀ l, startup_msg protocol l = pre l ++ params l ++ [NUL]) as Hmsg by (intros l; unfold pre, startup_msg; by rewrite <- app_assoc).
  rewrite (Hmsg kvs). rewrite <- (Hpre kvs) at 1. rewrite rewrite_startup_user_go_spec.
  - case_bool_decide as Hu.
    + rewrite Hmsg, length_app, Hpre. rewrite N.min_l by (rewrite length_app; simpl; lia).
      replace (8 + length (params (set_user user kvs) ++ [NUL])) with (9 + length (params (set_user user kvs)))
        by (rewrite length_app; simpl; lia).
      unfold pre. by rewrite <- !app_assoc.
    + rewrite (set_user_none user kvs); [by rewrite Hmsg|]. intros v Hin. apply Hu, Exists_exists. by exists (bs "user", v).
  - rewrite !length_app. lia.
  - done.
Qed.

(** ** Openings and the two TLS decisions *)

Section OpeningProperties.
Context `{!Pgwire}.

(** What [written] answers: [N]s for refused requests, then an [S] exactly when
    an SSL request led to the opening. *)
Definition answers (written : bytes) (k : nat) (s : bool) : Prop :=
  written = replicate k Byte.x4e ++ (if s then bs "S" else []).

Definition opening_buf (o : GuestOpening) : bytes := match o with OpenTls b | OpenCleartext b => b end.

Lemma judge_opening_spec fuel buf :
  length buf ≤ fuel →
  let '(written, r) := judge_opening fuel buf in
  ∃ k s pre, answers written k s ∧ length pre = 8 * length written ∧
    match r with
    | inl (OpenTls b) => buf = pre ++ b ∧ (s = true ∨ head b = Some TLS_RECORD_HANDSHAKE)
    | inl (OpenCleartext b) => buf = pre ++ b ∧ s = false ∧ 8 ≤ length b ∧
        is_ssl_request_packet (take 8 b) = false ∧ is_gss_enc_request_packet (take 8 b) = false
    | inr b => buf = pre ++ b ∧ s = false ∧ length b < 8
    end.
Proof.
  revert buf. induction fuel as [|fuel IH]; intros buf Hf.
  { destruct buf; [|simpl in Hf; lia]. simpl. exists 0, false, []. split_and!; [done..|simpl; lia]. }
  cbn [judge_opening]. case_bool_decide as Hh.
  { exists 0, false, []. split_and!; [done..|by right]. }
  unfold NEGOTIATION_LEN. destruct (Nat.leb_spec 8 (length buf)) as [Hl|Hl].
  2: { exists 0, false, []. by split_and!. }
  destruct (is_ssl_request_packet (take 8 buf)) eqn:Hssl.
  { exists 0, true, (take 8 buf). split_and!; [done|rewrite length_take; cbn [length bs String.list_byte_of_string]; change (length (bs "S")) with 1; lia|by rewrite take_drop|by left]. }
  destruct (is_gss_enc_request_packet (take 8 buf)) eqn:Hgss.
  2: { exists 0, false, []. by split_and!. }
  specialize (IH (drop 8 buf)). destruct (judge_opening fuel (drop 8 buf)) as [written r].
  destruct IH as (k & s & pre & Ha & Hp & Hr); [rewrite length_drop; lia|].
  exists (S k), s, (take 8 buf ++ pre). split_and!.
  - unfold answers in *. by rewrite Ha.
  - change (bs "N" ++ written) with (Byte.x4e :: written). rewrite length_app, length_take. cbn [length]. lia.
  - assert (∀ b, drop 8 buf = pre ++ b → buf = (take 8 buf ++ pre) ++ b) as Hbuf.
    { intros b Hb. by rewrite <- app_assoc, <- Hb, take_drop. }
    destruct r as [[b|b]|b]; destruct Hr as [Hb Hr]; (split; [by apply Hbuf|done]).
Qed.

Definition event_bytes (e : ReadEvent) : bytes := match e with Data c => c | _ => [] end.

(** Reading a Postgres guest's opening loses no byte: whatever was read is
    the negotiation requests it answered, eight bytes each, followed by the
    buffer handed on; it answers [N] to every GSSENC request and [S] to at
    most one SSL request, the last; and it reports cleartext only for a guest
    whose next eight bytes are neither request. *)
Theorem guest_opening_conserves buf events written o unread :
  read_guest_opening buf events = (written, Ok (Some o), unread) →
  ∃ k s pre read, answers written k s ∧ events = read ++ unread ∧
    buf ++ concat (map event_bytes read) = pre ++ opening_buf o ∧ length pre = 8 * length written ∧
    match o with
    | OpenTls b => s = true ∨ head b = Some TLS_RECORD_HANDSHAKE
    | OpenCleartext b => s = false ∧ is_ssl_request_packet (take 8 b) = false ∧ is_gss_enc_request_packet (take 8 b) = false
    end.
Proof.
  revert buf written. induction events as [|e events IH]; intros buf written; cbn [read_guest_opening].
  all: pose proof (judge_opening_spec (length buf) buf ltac:(done)) as Hj;
    destruct (judge_opening (length buf) buf) as [w r]; destruct Hj as (k & s & pre & Ha & Hp & Hr).
  - destruct r as [[b|b]|b]; intros [= <- <- <-]; destruct Hr as [Hb Hr];
      exists k, s, pre, []; (split; [done|split; [done|split; [by rewrite app_nil_r|split; [done|naive_solver]]]]).
  - destruct r as [[b|b]|b].
    1-2: intros [= <- <- <-]; destruct Hr as [Hb Hr];
      exists k, s, pre, []; (split; [done|split; [done|split; [by rewrite app_nil_r|split; [done|naive_solver]]]]).
    destruct Hr as (Hb & -> & Hl). destruct e as [chunk| | |]; try done.
    destruct (read_guest_opening (b ++ chunk) events) as [[w' res] l'] eqn:Hrun. intros [= <- -> ->].
    destruct (IH _ _ Hrun) as (k' & s' & pre' & read & Ha' & -> & Hbuf & Hlen & Ho).
    exists (k + k'), s', (pre ++ pre'), (Data chunk :: read). split_and!.
    + unfold answers in *. rewrite Ha, Ha', app_nil_r, replicate_add. by rewrite app_assoc.
    + done.
    + simpl. rewrite Hb, <- app_assoc, <- app_assoc, <- Hbuf. by rewrite <- app_assoc.
    + rewrite !length_app. lia.
    + done.
Qed.

(** The upstream leg's TLS follows the entry's mode: [disable] never asks
    and never gets TLS; [allow] asks exactly when the guest did; [require] and
    the verifying modes never go on in cleartext; and only [allow] and
    [prefer] go on after the server's refusal. *)
Theorem settle_upstream_modes ssl negotiation guest_tls answer written r :
  settle_upstream ssl negotiation guest_tls answer = (written, Ok r) →
  (ssl = Disable → written = [] ∧ r = Some false) ∧
  (ssl = Allow → guest_tls = false → written = [] ∧ r = Some false) ∧
  (ssl = Require_ ∨ is_verifying ssl = true → r ≠ Some false) ∧
  (r = None ↔ (ssl = Require_ ∨ is_verifying ssl = true) ∧ negotiation = NegPostgres ∧ answer ≠ Some Byte.x53) ∧
  (r = Some true → negotiation = NegDirect ∨ answer = Some Byte.x53).
Proof.
  unfold settle_upstream, request_upstream_tls.
  destruct ssl, negotiation, guest_tls, answer as [a|]; simpl; try (intros; simplify_eq; naive_solver).
  all: case_bool_decide; intros; simplify_eq/=; naive_solver.
Qed.
End OpeningProperties.

(** A Postgres connection whose mode is [verify-ca] or [verify-full], as
    parsed from its connection strings, is never carried to a server whose
    certificate is not signed under the entry's own trust anchor, and under
    [verify-full] not to one whose certificate lacks the server's name. *)
Theorem verifying_modes_verify `{!UrlCrate, !CertChecks} fake real scope roots_for v cert chain name :
  PostgresScope_from_strings fake real = Ok scope →
  is_verifying (pg_ssl scope) = true →
  egress_verifier roots_for scope = Some v →
  verify_server_cert v cert chain name = true →
  ∃ anchor roots, pg_root_cert scope = Some anchor ∧ roots_for anchor = Some roots ∧
    signed_by_anchor cert roots chain = true ∧
    (pg_ssl scope = VerifyFull → name_matches cert name = true).
Proof.
  intros Hs Hv He Hok. apply PostgresScope_from_strings_wf in Hs as [Hwf _].
  destruct (pg_root_cert scope) as [anchor|] eqn:Hroot.
  2: { destruct (psw_verify _ Hwf Hv) as [? E]. congruence. }
  unfold egress_verifier in He. rewrite Hroot in He.
  destruct (roots_for anchor) as [roots|] eqn:Hr; simpl in He; [|done]. simplify_eq.
  unfold verify_server_cert in Hok. simpl in Hok. apply andb_true_iff in Hok as [Hok Hname].
  apply andb_true_iff in Hok as [_ Hsig]. exists anchor, roots. split_and!; [done..|].
  intros Hfull. rewrite bool_decide_eq_true_2 in Hname by done. done.
Qed.

(** ** Concrete inputs *)

(** The two request packets' magic codes, and a startup of at least a protocol word. *)
Definition sample_pgwire : Pgwire := {|
  is_ssl_request_packet l := bool_decide (drop 4 l = be32 80877103);
  is_gss_enc_request_packet l := bool_decide (drop 4 l = be32 80877104);
  startup_decodes l := 5 <=? length l;
  ssl_request_magic := 80877103;
|}.
Definition sample_certs : CertChecks := {|
  Cert := bytes * bytes; Roots := bytes;
  cert_parses _ := true;
  signed_by_anchor c roots _ := bool_decide (c.1 = roots);
  name_matches c n := bool_decide (c.2 = n);
|}.
Definition sample_startup : bytes := startup_msg (be32 196608) [(bs "user", bs "app")].
Definition sample_postgres : Postgres :=
  {| pm_state := Greeting []; pm_inner := {| rw_pairs := []; rw_tail_size := 0; rw_held := [] |};
     pm_reply := None; pm_user_rewrite := Some (bs "service"); pm_closed := false |}.

Lemma greeting_relays_startup_witness :
  let _ := sample_pgwire in
  let ssl := be32 8 ++ be32 80877103 in
  (feed_greeting sample_postgres (ssl ++ sample_startup ++ bs "Q")).1 =
    (startup_msg (be32 196608) [(bs "user", bs "service")], []).
Proof.
  intros p ssl.
  rewrite (greeting_relays_startup sample_postgres [] (ssl ++ sample_startup ++ bs "Q") [ssl] sample_startup (bs "Q")).
  - reflexivity.
  - reflexivity.
  - discriminate.
  - reflexivity.
  - apply Nat.leb_le. reflexivity.
  - constructor; [|constructor]. split; [reflexivity|split; reflexivity].
  - split; [split; apply Nat.leb_le; reflexivity|split; reflexivity].
Defined.

Lemma greeting_holds_or_closes_witness :
  let _ := sample_pgwire in
  (Postgres_feed sample_postgres (be32 8 ++ bs "XXXX")).1 = (Close, []).
Proof.
  intros p.
  apply (greeting_holds_or_closes sample_postgres [] (be32 8 ++ bs "XXXX") [] (be32 8 ++ bs "XXXX"));
    [reflexivity|reflexivity|discriminate|reflexivity|constructor|].
  right. split; [apply Nat.leb_le; reflexivity|]. right. right. left.
  split; [reflexivity|]. split; [apply Nat.leb_le; reflexivity|]. split; reflexivity.
Defined.

Lemma startup_user_renamed_witness :
  rewrite_startup_user sample_startup (bs "service") = startup_msg (be32 196608) [(bs "user", bs "service")].
Proof.
  apply (startup_user_renamed (be32 196608) [(bs "user", bs "app")] (bs "service")).
  - reflexivity.
  - repeat constructor; discriminate.
  - reflexivity.
Defined.

Lemma guest_opening_conserves_witness :
  let _ := sample_pgwire in
  ∃ pre : bytes, length pre = 16.
Proof.
  intros p.
  destruct (guest_opening_conserves (be32 8 ++ be32 80877104) [Data (be32 8 ++ be32 80877103)] (bs "NS") (OpenTls []) [])
    as (k & s & pre & read & _ & _ & _ & Hlen & _); [reflexivity|]. exists pre. exact Hlen.
Defined.

Lemma settle_upstream_modes_witness :
  let _ := sample_pgwire in
  (@None bool) ≠ Some false.
Proof.
  intros p.
  destruct (settle_upstream_modes Require_ NegPostgres true (Some Byte.x4e) ssl_request None) as (_ & _ & H & _);
    [reflexivity|]. apply H. by left.
Defined.

Lemma verifying_modes_verify_witness :
  let _ := sample_url in let _ := sample_certs in
  ∃ anchor : RootCert, ∃ roots : bytes, roots = bs "ca" .
Proof.
  intros u c.
  destruct (@verifying_modes_verify sample_url sample_certs (bs "postgres://app:FAKE@db:5432")
    (bs "postgres://app:REAL@db:5432?sslmode=verify-full&sslrootcert=system")
    {| pg_downstream := {| pg_host := bs "db"; pg_port := 5432; pg_user := Some (bs "app"); pg_password := bs "FAKE"; pg_database := None |};
       pg_upstream := {| pg_host := bs "db"; pg_port := 5432; pg_user := Some (bs "app"); pg_password := bs "REAL"; pg_database := None |};
       pg_ssl := VerifyFull; pg_negotiation := NegPostgres; pg_root_cert := Some System; pg_client_cert := None;
       pg_client_key := None; pg_guest_tls := Tls |}
    (λ _, Some (bs "ca")) (@Build_EgressCertVerifier sample_certs (Some (bs "ca")) true) (bs "ca", bs "db") [] (bs "db"))
    as (anchor & roots & _ & Hr & _); [reflexivity..|].
  exists anchor, roots. injection Hr as <-. reflexivity.
Defined.
