(* ===== verification/TlsLegs.v ===== *)
(** * TLS halves of the database transports

    What [crates/hodor-proxy/src/transports/postgres/mod.rs] and [redis/mod.rs]
    hand to the TLS library on each side, with the trust files and client
    identities of [connection.rs]: the leaves presented to guests and their
    cache, the trust anchors of the upstream and theirs, and the configuration of
    the upstream leg. Reading and making certificates are parameters. *)

From S2P Require Import Prelude Decoy ConnString Grants Mint Engine Raw Postgres.

Inductive TlsError :=
| LeafMint
| MtlsGuestRoots
| MtlsGuestVerifier
| MtlsLeaf
| SslRootCert (path : bytes)
| EmptyRootCert (path : bytes)
| SystemStore
| EmptySystemStore
| ReadFile (path : bytes)
| GuestCertificate (path : bytes)
| EmptyChain (path : bytes)
| ClientKey (path : bytes)
| ClientIdentity (path : bytes)
| BadServerName.
Inductive TrustAnchorsError := TrustRead (path : bytes) | TrustParse (path : bytes) | TrustEmpty (path : bytes).

(** PEM files and trust stores; [Err] of a certificate is one that does not
    decode. *)
Class TlsLibrary `{!CertChecks} := {
  Leaf : Type;
  Key : Type;
  pem_certs : bytes → list (result () Cert);
  pem_key : bytes → option Key;
  empty_roots : Roots;
  add_root : Cert → Roots → option Roots;
  roots_len : Roots → nat;
  (** The platform's store: whether it had errors, and its certificates. *)
  native_certs : bool * list Cert;
  usable_identity : list Cert → Key → bool;
  server_name_parses : bytes → bool;
}.

(** ** The guest's side *)

Section Legs.
Context `{!CertChecks, !TlsLibrary}.

(** [rustls::ServerConfig], by what this code sets of it. *)
Record ServerConfig := {
  sc_leaf : Leaf;
  sc_demands_client : bool;
  sc_alpn : list bytes;
}.
Abbreviation Leaves := (gmap bytes ServerConfig).
Definition POSTGRESQL_ALPN : bytes := bs "postgresql".
Definition mtls_key (sni : bytes) : bytes := sni ++ bs "|mtls".

Section Accept.
(** The identifiers offered; and what the making of a leaf, if it is made, and
    of the verifier give. *)
Context (alpn : list bytes).

Definition leaf (minted : option Leaf) (sni : bytes) (leaves : Leaves) : Leaves * result TlsError ServerConfig :=
  match leaves !! sni with
  | Some config => (leaves, Ok config)
  | None =>
      match minted with
      | None => (leaves, Err LeafMint)
      | Some leaf =>
          let config := {| sc_leaf := leaf; sc_demands_client := false; sc_alpn := alpn |} in
          (<[sni := config]> leaves, Ok config)
      end
  end.
Definition leaf_mtls (minted : option Leaf) (fails : option TlsError) (sni : bytes) (leaves : Leaves) : Leaves * result TlsError ServerConfig :=
  match leaves !! mtls_key sni with
  | Some config => (leaves, Ok config)
  | None =>
      match minted, fails with
      | None, _ => (leaves, Err LeafMint)
      | Some _, Some e => (leaves, Err e)
      | Some leaf, None =>
          let config := {| sc_leaf := leaf; sc_demands_client := true; sc_alpn := alpn |} in
          (<[mtls_key sni := config]> leaves, Ok config)
      end
  end.
Definition accept_config (minted : option Leaf) (fails : option TlsError) (name : bytes) (guest_tls : GuestTlsMode) (leaves : Leaves)
  : Leaves * result TlsError ServerConfig :=
  match guest_tls with
  | Tls => leaf minted name leaves
  | Mtls => leaf_mtls minted fails name leaves
  end.
End Accept.

(** ** Trust anchors *)

Section Upstream.
Context (read : bytes → option bytes).

Definition add_anchor (path : bytes) (acc : Roots * nat) (cert : result () Cert) : result TlsError (Roots * nat) :=
  cert ← map_err (λ _, SslRootCert path) cert;
  store ← ok_or (SslRootCert path) (add_root cert acc.1);
  mret (store, S acc.2).
Definition path_roots (path : bytes) : result TlsError Roots :=
  pem ← ok_or (SslRootCert path) (read path);
  '(store, anchors) ← try_fold (add_anchor path) (empty_roots, 0) (pem_certs pem);
  if anchors =? 0 then Err (EmptyRootCert path) else mret store.
Definition system_roots : result TlsError Roots :=
  if native_certs.1 then Err SystemStore
  else
    store ← try_fold (λ store cert, ok_or SystemStore (add_root cert store)) empty_roots native_certs.2;
    if roots_len store =? 0 then Err EmptySystemStore else mret store.

(** The stores read so far, by the anchor that names them. *)
Abbreviation Stores := (list (RootCert * Roots)).
Definition stored (root : RootCert) (stores : Stores) : option Roots :=
  snd <$> find (λ s : RootCert * Roots, bool_decide (s.1 = root)) stores.
Definition load_roots (root : RootCert) : result TlsError Roots :=
  match root with RootPath path => path_roots path | System => system_roots end.
Definition roots_for (root : RootCert) (stores : Stores) : Stores * result TlsError Roots :=
  match stored root stores with
  | Some store => (stores, Ok store)
  | None =>
      match load_roots root with
      | Ok store => ((root, store) :: stores, Ok store)
      | Err e => (stores, Err e)
      end
  end.

(** [trust_anchors], additive to the trust of the https relays. *)
Definition decoded {E} (e : E) (certs : list (result () Cert)) : result E (list Cert) :=
  mapM (λ cert, map_err (λ _, e) cert) certs.
Definition trust_anchors (path : bytes) : result TrustAnchorsError (list Cert) :=
  text ← ok_or (TrustRead path) (read path);
  chain ← decoded (TrustParse path) (pem_certs text);
  match chain with [] => Err (TrustEmpty path) | _ => mret chain end.
Definition client_identity (cert key : bytes) : result TlsError (list Cert * Key) :=
  cert_bytes ← ok_or (ReadFile cert) (read cert);
  key_bytes ← ok_or (ReadFile key) (read key);
  chain ← decoded (GuestCertificate cert) (pem_certs cert_bytes);
  match chain with
  | [] => Err (EmptyChain cert)
  | _ => private ← ok_or (ClientKey key) (pem_key key_bytes); mret (chain, private)
  end.

(** ** The upstream side *)

(** [rustls::ClientConfig], by what this code sets of it. *)
Record ClientConfig := {
  cl_verifier : EgressCertVerifier;
  cl_identity : option (list Cert * Key);
  cl_alpn : list bytes;
}.
(** The identity an entry names, and none otherwise. *)
Definition entry_identity (cert key : option bytes) : result TlsError (option (list Cert * Key)) :=
  match cert, key with
  | Some cert, Some key =>
      '(chain, private) ← client_identity cert key;
      if usable_identity chain private then mret (Some (chain, private)) else Err (ClientIdentity cert)
  | _, _ => mret None
  end.
Definition connect_postgres (scope : PostgresScope) (server_name : bytes) (stores : Stores) : Stores * result TlsError ClientConfig :=
  let '(stores, roots) := match pg_root_cert scope with
                          | Some root => let '(stores, r) := roots_for root stores in (stores, roots ← r; mret (Some roots))
                          | None => (stores, Ok None)
                          end in
  (stores,
   roots ← roots;
   identity ← entry_identity (pg_client_cert scope) (pg_client_key scope);
   if server_name_parses server_name then
     mret {| cl_verifier := {| ev_roots := roots; ev_check_name := bool_decide (pg_ssl scope = VerifyFull) |}; cl_identity := identity;
             cl_alpn := if bool_decide (pg_negotiation scope = NegDirect) then [POSTGRESQL_ALPN] else [] |}
   else Err BadServerName).
(** The library's own verifier checks the chain and the name. *)
Definition connect_redis (scope : RedisScope) (server_name : bytes) (stores : Stores) : Stores * result TlsError ClientConfig :=
  let '(stores, roots) := roots_for (default System (rd_root_cert scope)) stores in
  (stores,
   roots ← roots;
   identity ← entry_identity (rd_client_cert scope) (rd_client_key scope);
   if server_name_parses server_name then
     mret {| cl_verifier := {| ev_roots := Some roots; ev_check_name := true |}; cl_identity := identity; cl_alpn := [] |}
   else Err BadServerName).
End Upstream.
End Legs.

(** ** Leaves keep what they demand *)

Section Demands.
Context `{!CertChecks, !TlsLibrary} (alpn : list bytes).
Implicit Types (leaves : gmap bytes ServerConfig) (c : ServerConfig) (name : bytes).

(** A guest that is accepted, and what the library gave. *)
Record Accepted := { ac_name : bytes; ac_mode : GuestTlsMode; ac_minted : option Leaf; ac_fails : option TlsError }.
Fixpoint accept_all (guests : list Accepted) (leaves : gmap bytes ServerConfig) : gmap bytes ServerConfig * list (result TlsError ServerConfig) :=
  match guests with
  | [] => (leaves, [])
  | g :: guests =>
      let '(leaves, r) := accept_config alpn (ac_minted g) (ac_fails g) (ac_name g) (ac_mode g) leaves in
      let '(leaves, rs) := accept_all guests leaves in
      (leaves, r :: rs)
  end.
Definition leaf_key (g : Accepted) : bytes := match ac_mode g with Tls => ac_name g | Mtls => mtls_key (ac_name g) end.
(** A name that is no other name's key. *)
Definition plain_name (name : bytes) : Prop := ¬ ∃ u, name = mtls_key u.
Definition leaves_ok leaves : Prop :=
  map_Forall (λ key c, sc_alpn c = alpn ∧ (sc_demands_client c = true ↔ ∃ u, key = mtls_key u)) leaves.

Lemma accept_config_ok (g : Accepted) (leaves leaves' : gmap bytes ServerConfig) r :
  plain_name (ac_name g) → leaves_ok leaves → accept_config alpn (ac_minted g) (ac_fails g) (ac_name g) (ac_mode g) leaves = (leaves', r) →
  leaves_ok leaves' ∧ leaves ⊆ leaves' ∧ ∀ c, r = Ok c → leaves' !! leaf_key g = Some c.
Proof.
  intros Hn Hok. unfold accept_config, leaf, leaf_mtls, leaf_key.
  destruct (ac_mode g); destruct (leaves !! _) as [c|] eqn:El;
    try (intros [= <- <-]; split; [done|]; split; [done|]; by intros ? [= <-]);
    destruct (ac_minted g) as [l|]; try (by intros [= <- <-]); try (destruct (ac_fails g); [by intros [= <- <-]|]);
    (intros [= <- <-]; split; [apply map_Forall_insert_2; [split; [done|]|done]|split; [by apply insert_subseteq|intros ? [= <-]; apply lookup_insert_eq]]); simpl.
  - split; [done|]. intros [u Hu]. by destruct Hn; exists u.
  - split; [|done]. intros _. by eexists.
Qed.
Lemma accept_all_ok guests leaves leaves' rs :
  Forall (λ g, plain_name (ac_name g)) guests → leaves_ok leaves → accept_all guests leaves = (leaves', rs) →
  leaves_ok leaves' ∧ leaves ⊆ leaves' ∧ ∀ i g c, guests !! i = Some g → rs !! i = Some (Ok c) → leaves' !! leaf_key g = Some c.
Proof.
  revert leaves rs. induction guests as [|g guests IH]; intros leaves rs Hn Hok; cbn [accept_all].
  { intros [= <- <-]. by split_and!. }
  apply Forall_cons in Hn as [Hg Hn]. destruct (accept_config _ _ _ _ _ leaves) as [leaves1 r] eqn:E1. destruct (accept_all guests leaves1) as [leaves2 rs2] eqn:E2.
  intros [= <- <-]. destruct (accept_config_ok _ _ _ _ Hg Hok E1) as (Hok1 & Hsub1 & Hr). destruct (IH _ _ Hn Hok1 E2) as (Hok2 & Hsub2 & Hrs).
  split; [done|]. split; [by etrans|]. intros [|i] g' c Hi Hc; simplify_eq/=; [|by eapply Hrs]. eapply lookup_weaken; [by apply Hr|done].
Qed.

(** Over any guests, those of an [mtls] entry are always asked for a certificate
    and the others never, all are offered the identifiers of the protocol, and
    one name has one leaf for each of the two. *)
Theorem guest_demands_kept guests :
  Forall (λ g, plain_name (ac_name g)) guests →
  let rs := (accept_all guests ∅).2 in
  (∀ i g c, guests !! i = Some g → rs !! i = Some (Ok c) → sc_alpn c = alpn ∧ sc_demands_client c = match ac_mode g with Mtls => true | Tls => false end) ∧
  (∀ i j g g' c c', guests !! i = Some g → guests !! j = Some g' → rs !! i = Some (Ok c) → rs !! j = Some (Ok c') → leaf_key g = leaf_key g' → c = c').
Proof.
  intros Hn. destruct (accept_all guests ∅) as [leaves rs] eqn:E. cbn [snd].
  destruct (accept_all_ok _ _ _ _ Hn (map_Forall_empty _) E) as (Hok & _ & Hrs). split.
  - intros i g c Hi Hc. destruct (Hok _ _ (Hrs _ _ _ Hi Hc)) as [Ha Hd]. split; [done|].
    pose proof (proj1 (Forall_lookup _ _) Hn _ _ Hi) as Hp. cbn beta in Hp. unfold leaf_key in Hd. destruct (ac_mode g).
    + apply not_true_is_false. intros Ht. by apply Hp, Hd.
    + apply Hd. by eexists.
  - intros i j g g' c c' Hi Hj Hc Hc' Hk. pose proof (Hrs _ _ _ Hi Hc) as H1. pose proof (Hrs _ _ _ Hj Hc') as H2. congruence.
Qed.

(** The key of a name's [mtls] leaf is a name too: who is accepted by that name
    first decides whether the other's guests are asked for a certificate. *)
Lemma mtls_key_shared l name :
  (accept_all [{| ac_name := mtls_key name; ac_mode := Tls; ac_minted := Some l; ac_fails := None |};
               {| ac_name := name; ac_mode := Mtls; ac_minted := Some l; ac_fails := None |}] ∅).2 =
  let c := {| sc_leaf := l; sc_demands_client := false; sc_alpn := alpn |} in [Ok c; Ok c].
Proof.
  cbn [accept_all accept_config ac_name ac_mode ac_minted ac_fails]. unfold leaf, leaf_mtls.
  rewrite lookup_empty. cbn. by rewrite lookup_insert_eq.
Qed.
End Demands.

(** ** The upstream is verified *)

Section Verified.
Context `{!CertChecks, !TlsLibrary}.
Implicit Types (read : bytes → option bytes) (root : RootCert).

(** Every store kept was read for the anchor that names it. *)
Definition stores_ok (stores : list (RootCert * Roots)) : Prop := Forall (λ s, ∃ read, load_roots read s.1 = Ok s.2) stores.
Lemma roots_for_ok read root stores stores' r : stores_ok stores → roots_for read root stores = (stores', r) →
  stores_ok stores' ∧ ∀ store, r = Ok store → ∃ read', load_roots read' root = Ok store.
Proof.
  intros Hok. unfold roots_for, stored. destruct (find _ stores) as [[root' store]|] eqn:Ef.
  - intros [= <- <-]. split; [done|]. intros ? [= <-]. apply find_some in Ef as [Hin%list_elem_of_In He%bool_decide_eq_true].
    simpl in He. subst root'. exact (proj1 (Forall_forall _ _) Hok _ Hin).
  - simpl. destruct (load_roots read root) as [store|] eqn:El; intros [= <- <-]; (split; [|naive_solver]); [|done]. constructor; [by exists read|done].
Qed.

Lemma add_anchors path certs store n store' n' :
  try_fold (add_anchor path) (store, n) certs = Ok (store', n') → n' = n + length certs ∧ Forall (λ c, ∃ cert, c = Ok cert) certs.
Proof.
  revert store n. induction certs as [|c certs IH]; intros store n; cbn [try_fold]; [intros [= -> ->]; split; [simpl; lia|constructor]|].
  destruct (add_anchor path (store, n) c) as [[store1 n1]|] eqn:Ea; simpl; [|done].
  intros [-> Hall]%IH. unfold add_anchor in Ea. destruct c as [cert|]; simpl in Ea; [|done].
  destruct (add_root cert store); simpl in Ea; [|done]. injection Ea as <- <-. split; [lia|]. constructor; [by eexists|done].
Qed.
(** A bundle gives a store only when it has certificates and all of them decode. *)
Lemma path_roots_sound read path store : path_roots read path = Ok store →
  ∃ pem, read path = Some pem ∧ pem_certs pem ≠ [] ∧ Forall (λ c, ∃ cert, c = Ok cert) (pem_certs pem).
Proof.
  unfold path_roots. destruct (read path) as [pem|]; simpl; [|done]. destruct (try_fold _ _ _) as [[store' n]|] eqn:Et; simpl; [|done].
  apply add_anchors in Et as [-> Hall]. intros Hn. exists pem. split; [done|]. split; [|done]. intros Hnil. by rewrite Hnil in Hn.
Qed.

(** A redis leg over TLS always verifies the chain, under the anchor of its entry
    or the platform's, and the name; and presents the identity of its entry only. *)
Theorem redis_leg_verified read scope server_name stores stores' c :
  stores_ok stores → connect_redis read scope server_name stores = (stores', Ok c) →
  stores_ok stores' ∧
  (∃ roots read', cl_verifier c = {| ev_roots := Some roots; ev_check_name := true |} ∧ load_roots read' (default System (rd_root_cert scope)) = Ok roots) ∧
  entry_identity read (rd_client_cert scope) (rd_client_key scope) = Ok (cl_identity c).
Proof.
  intros Hok. unfold connect_redis. destruct (roots_for _ _ stores) as [stores1 r] eqn:Er. destruct (roots_for_ok _ _ _ _ _ Hok Er) as [Hok' Hr].
  intros [= <- Hc]. split; [done|]. destruct r as [roots|]; simpl in Hc; [|done]. destruct (Hr roots eq_refl) as [read' Hl].
  destruct (entry_identity _ _ _) as [id|]; simpl in Hc; [|done]. destruct (server_name_parses _); [|done]. injection Hc as <-.
  split; [|done]. by exists roots, read'.
Qed.
(** A postgres leg verifies under the anchor its entry names, if it names one. *)
Theorem postgres_leg_verified read scope server_name stores stores' c :
  stores_ok stores → connect_postgres read scope server_name stores = (stores', Ok c) →
  stores_ok stores' ∧
  ev_check_name (cl_verifier c) = bool_decide (pg_ssl scope = VerifyFull) ∧
  match pg_root_cert scope with
  | None => ev_roots (cl_verifier c) = None
  | Some root => ∃ roots read', ev_roots (cl_verifier c) = Some roots ∧ load_roots read' root = Ok roots
  end ∧
  entry_identity read (pg_client_cert scope) (pg_client_key scope) = Ok (cl_identity c) ∧
  cl_alpn c = if bool_decide (pg_negotiation scope = NegDirect) then [POSTGRESQL_ALPN] else [].
Proof.
  intros Hok. unfold connect_postgres. destruct (pg_root_cert scope) as [root|].
  - destruct (roots_for _ _ stores) as [stores1 r] eqn:Er. destruct (roots_for_ok _ _ _ _ _ Hok Er) as [Hok' Hr]. intros [= <- Hc]. split; [done|].
    destruct r as [roots|]; simpl in Hc; [|done]. destruct (entry_identity _ _ _) as [id|]; simpl in Hc; [|done]. destruct (server_name_parses _); [|done].
    injection Hc as <-. split; [done|]. split; [|done]. destruct (Hr roots eq_refl) as [read' Hl]. by exists roots, read'.
  - intros [= <- Hc]. split; [done|]. simpl in Hc. destruct (entry_identity _ _ _) as [id|]; simpl in Hc; [|done]. destruct (server_name_parses _); [|done].
    by injection Hc as <-.
Qed.
End Verified.
