(* ===== verification/Relay.v ===== *)
(** * The relay

    [crates/hodor-proxy/src/relay.rs]: two pumps over any [Wire], running
    concurrently. The request pump reads the guest and writes the server; it
    hands replies, framing facts and its terminal intent to the response pump
    over one FIFO channel, and the response pump, which alone writes the guest,
    ends it through a one-shot signal. A state of the relay is both pumps'
    program points, both machines, the channel and what has been written; a
    step is one await point of one pump, with whatever the network answered. *)

From S2P Require Import Prelude Engine ConnString Grants Raw Postgres.

Inductive ToResponse := Reply (reply : bytes) | PeerNote (n : nat) | RequestsEnded.
#[export] Instance ToResponse_eq_dec : EqDecision ToResponse.
Proof. solve_decision. Defined.

Inductive RelayError :=
| GuestRead | RequestHeadToUpstream | RequestHeadFlush | RequestChunkToUpstream | RequestFlushToUpstream
| UpstreamRead | ProtocolReplyToGuest | ProtocolReplyFlush | ResponseChunkToGuest | ResponseFlushToGuest
| GuestFlush | FinalGuestFlush.

(** What a read of a peer gives; a peer's FIN without [close_notify] is [Fin] too. *)
Inductive ReadResult := Bytes (chunk : bytes) | Fin | Failed.

(** Which write of the request pump is in progress. *)
Inductive WriteKind := WHead | WChunk | WFlush.
Inductive ReqPc :=
| ReqFirst (first : bytes)
| ReqRead
| ReqWrite (k : WriteKind) (out : bytes)
| ReqHeadFlush
| ReqExit (res : result RelayError ())
| ReqPanicked.

(** [RespDrain input]: draining the channel before the upstream bytes just read
    ([None]: before the final flush); [RespWrite]: carrying a chunk to the guest;
    [RespFlush]: the completion signal is sent, the last flush is awaited. *)
Inductive RespPc :=
| RespSelect
| RespDrain (input : option bytes)
| RespWrite (last : bool) (out : bytes)
| RespFinish (res : result RelayError ())
| RespFlush
| RespExit (res : result RelayError ()).

Section Relay.
Context {M : Type} `{!Wire M}.

(** The last three fields are a log: the replies the request machine queued,
    those the guest got, and what the request machine emitted. *)
Record Relay := {
  rl_down : M;
  rl_up : M;
  rl_req : ReqPc;
  rl_resp : RespPc;
  rl_chan : list ToResponse;
  rl_open : bool;                (* [requests_open] of the response pump *)
  rl_done : bool;                (* the one-shot fired, or its sender was dropped *)
  rl_taken : bool;               (* a stopped write took its completion *)
  rl_server_out : bytes;
  rl_server_shut : bool;
  rl_guest_out : bytes;
  rl_guest_shut : bool;
  rl_queued : list bytes;
  rl_delivered : list bytes;
  rl_emitted : bytes;
}.

Definition with_req (s : Relay) (pc : ReqPc) : Relay :=
  {| rl_down := rl_down s; rl_up := rl_up s; rl_req := pc; rl_resp := rl_resp s; rl_chan := rl_chan s;
     rl_open := rl_open s; rl_done := rl_done s; rl_taken := rl_taken s; rl_server_out := rl_server_out s;
     rl_server_shut := rl_server_shut s; rl_guest_out := rl_guest_out s; rl_guest_shut := rl_guest_shut s;
     rl_queued := rl_queued s; rl_delivered := rl_delivered s; rl_emitted := rl_emitted s |}.
Definition with_resp (s : Relay) (pc : RespPc) : Relay :=
  {| rl_down := rl_down s; rl_up := rl_up s; rl_req := rl_req s; rl_resp := pc; rl_chan := rl_chan s;
     rl_open := rl_open s; rl_done := rl_done s; rl_taken := rl_taken s; rl_server_out := rl_server_out s;
     rl_server_shut := rl_server_shut s; rl_guest_out := rl_guest_out s; rl_guest_shut := rl_guest_shut s;
     rl_queued := rl_queued s; rl_delivered := rl_delivered s; rl_emitted := rl_emitted s |}.
Definition with_chan (s : Relay) (chan : list ToResponse) : Relay :=
  {| rl_down := rl_down s; rl_up := rl_up s; rl_req := rl_req s; rl_resp := rl_resp s; rl_chan := chan;
     rl_open := rl_open s; rl_done := rl_done s; rl_taken := rl_taken s; rl_server_out := rl_server_out s;
     rl_server_shut := rl_server_shut s; rl_guest_out := rl_guest_out s; rl_guest_shut := rl_guest_shut s;
     rl_queued := rl_queued s; rl_delivered := rl_delivered s; rl_emitted := rl_emitted s |}.
Definition with_down (s : Relay) (m : M) : Relay :=
  {| rl_down := m; rl_up := rl_up s; rl_req := rl_req s; rl_resp := rl_resp s; rl_chan := rl_chan s;
     rl_open := rl_open s; rl_done := rl_done s; rl_taken := rl_taken s; rl_server_out := rl_server_out s;
     rl_server_shut := rl_server_shut s; rl_guest_out := rl_guest_out s; rl_guest_shut := rl_guest_shut s;
     rl_queued := rl_queued s; rl_delivered := rl_delivered s; rl_emitted := rl_emitted s |}.
Definition with_up (s : Relay) (m : M) : Relay :=
  {| rl_down := rl_down s; rl_up := m; rl_req := rl_req s; rl_resp := rl_resp s; rl_chan := rl_chan s;
     rl_open := rl_open s; rl_done := rl_done s; rl_taken := rl_taken s; rl_server_out := rl_server_out s;
     rl_server_shut := rl_server_shut s; rl_guest_out := rl_guest_out s; rl_guest_shut := rl_guest_shut s;
     rl_queued := rl_queued s; rl_delivered := rl_delivered s; rl_emitted := rl_emitted s |}.
Definition log_emit (s : Relay) (out : bytes) : Relay :=
  {| rl_down := rl_down s; rl_up := rl_up s; rl_req := rl_req s; rl_resp := rl_resp s; rl_chan := rl_chan s;
     rl_open := rl_open s; rl_done := rl_done s; rl_taken := rl_taken s; rl_server_out := rl_server_out s;
     rl_server_shut := rl_server_shut s; rl_guest_out := rl_guest_out s; rl_guest_shut := rl_guest_shut s;
     rl_queued := rl_queued s; rl_delivered := rl_delivered s; rl_emitted := rl_emitted s ++ out |}.
Definition to_server (s : Relay) (out : bytes) (shut : bool) : Relay :=
  {| rl_down := rl_down s; rl_up := rl_up s; rl_req := rl_req s; rl_resp := rl_resp s; rl_chan := rl_chan s;
     rl_open := rl_open s; rl_done := rl_done s; rl_taken := rl_taken s; rl_server_out := rl_server_out s ++ out;
     rl_server_shut := rl_server_shut s || shut; rl_guest_out := rl_guest_out s; rl_guest_shut := rl_guest_shut s;
     rl_queued := rl_queued s; rl_delivered := rl_delivered s; rl_emitted := rl_emitted s |}.
Definition to_guest (s : Relay) (out : bytes) (shut : bool) (reply : list bytes) : Relay :=
  {| rl_down := rl_down s; rl_up := rl_up s; rl_req := rl_req s; rl_resp := rl_resp s; rl_chan := rl_chan s;
     rl_open := rl_open s; rl_done := rl_done s; rl_taken := rl_taken s; rl_server_out := rl_server_out s;
     rl_server_shut := rl_server_shut s; rl_guest_out := rl_guest_out s ++ out;
     rl_guest_shut := rl_guest_shut s || shut;
     rl_queued := rl_queued s; rl_delivered := rl_delivered s ++ reply; rl_emitted := rl_emitted s |}.
Definition signal_done (s : Relay) : Relay :=
  {| rl_down := rl_down s; rl_up := rl_up s; rl_req := rl_req s; rl_resp := rl_resp s; rl_chan := rl_chan s;
     rl_open := rl_open s; rl_done := true; rl_taken := rl_taken s; rl_server_out := rl_server_out s;
     rl_server_shut := rl_server_shut s; rl_guest_out := rl_guest_out s; rl_guest_shut := rl_guest_shut s;
     rl_queued := rl_queued s; rl_delivered := rl_delivered s; rl_emitted := rl_emitted s |}.
Definition take_done (s : Relay) : Relay :=
  {| rl_down := rl_down s; rl_up := rl_up s; rl_req := rl_req s; rl_resp := rl_resp s; rl_chan := rl_chan s;
     rl_open := rl_open s; rl_done := rl_done s; rl_taken := true; rl_server_out := rl_server_out s;
     rl_server_shut := rl_server_shut s; rl_guest_out := rl_guest_out s; rl_guest_shut := rl_guest_shut s;
     rl_queued := rl_queued s; rl_delivered := rl_delivered s; rl_emitted := rl_emitted s |}.
Definition close_requests (s : Relay) : Relay :=
  {| rl_down := rl_down s; rl_up := rl_up s; rl_req := rl_req s; rl_resp := rl_resp s; rl_chan := rl_chan s;
     rl_open := false; rl_done := rl_done s; rl_taken := rl_taken s; rl_server_out := rl_server_out s;
     rl_server_shut := rl_server_shut s; rl_guest_out := rl_guest_out s; rl_guest_shut := rl_guest_shut s;
     rl_queued := rl_queued s; rl_delivered := rl_delivered s; rl_emitted := rl_emitted s |}.

Definition resp_exited (s : Relay) : bool := match rl_resp s with RespExit _ => true | _ => false end.

(** [responses.send(msg)]: dropped once the receiver is gone. *)
Definition send (s : Relay) (msg : ToResponse) : Relay :=
  if resp_exited s then s
  else
    {| rl_down := rl_down s; rl_up := rl_up s; rl_req := rl_req s; rl_resp := rl_resp s;
       rl_chan := rl_chan s ++ [msg]; rl_open := rl_open s; rl_done := rl_done s; rl_taken := rl_taken s;
       rl_server_out := rl_server_out s; rl_server_shut := rl_server_shut s;
       rl_guest_out := rl_guest_out s; rl_guest_shut := rl_guest_shut s;
       rl_queued := rl_queued s ++ match msg with Reply r => [r] | _ => [] end;
       rl_delivered := rl_delivered s; rl_emitted := rl_emitted s |}.

Definition end_requests (s : Relay) : Relay := send s RequestsEnded.

(** A queued reply first, then any framing fact. *)
Definition hand_over (s : Relay) : Relay :=
  let '(reply, m) := take_reply (rl_down s) in
  let s := match reply with Some r => send (with_down s m) (Reply r) | None => with_down s m end in
  let '(pending, m) := take_peer_note (rl_down s) in
  let s := with_down s m in
  if 0 <? pending then send s (PeerNote pending) else s.

(** Feed the request machine a chunk and hand over what it queued. *)
Definition feed_down (s : Relay) (chunk : bytes) : Rewritten * Relay :=
  let '((rewritten, _), m) := feed (rl_down s) chunk in
  (rewritten, hand_over (with_down s m)).

(** What the request pump does with a fed chunk: write, wait, or end the relay. *)
Definition after_feed (k : WriteKind) (s : Relay) (rewritten : Rewritten) : Relay :=
  match rewritten with
  | Close => with_req (end_requests s) (ReqExit (Ok tt))
  | Hold => with_req s ReqRead
  | Emit out => with_req (log_emit s out) (ReqWrite k out)
  end.

Definition write_error (k : WriteKind) : RelayError :=
  match k with
  | WHead => RequestHeadToUpstream
  | WChunk => RequestChunkToUpstream
  | WFlush => RequestFlushToUpstream
  end.
(** Where the request pump goes once a write is over. *)
Definition after_write (k : WriteKind) (s : Relay) : Relay :=
  match k with
  | WHead => with_req s ReqHeadFlush
  | WChunk => with_req s ReqRead
  | WFlush => with_req (to_server s [] true) (ReqExit (Ok tt))
  end.

(** One step of the request pump. A write that [write_or_stopped] abandons gives
    [Ok(None)], which its callers discard: the pump goes on as after a whole
    write, and the next poll of the one-shot, whose completion that write took,
    panics ([req_repolled], [req_write_repolled]). A read or a write that is
    ready first wins the [select!] without that poll. *)
Inductive req_step : Relay → Relay → Prop :=
| req_first_none s :
    rl_req s = ReqFirst [] → req_step s (with_req s ReqRead)
| req_first s first rewritten s' :
    rl_req s = ReqFirst first → first ≠ [] → feed_down s first = (rewritten, s') →
    req_step s (after_feed WHead s' rewritten)
| req_head_flushed s :
    rl_req s = ReqHeadFlush → req_step s (with_req s ReqRead)
| req_head_flush_failed s :
    rl_req s = ReqHeadFlush → req_step s (with_req s (ReqExit (Err RequestHeadFlush)))
| req_stopped s :
    rl_req s = ReqRead → rl_done s = true → rl_taken s = false → req_step s (with_req s (ReqExit (Ok tt)))
| req_repolled s :
    rl_req s = ReqRead → rl_taken s = true → req_step s (with_req s ReqPanicked)
| req_chunk s chunk rewritten s' :
    rl_req s = ReqRead → chunk ≠ [] → feed_down s chunk = (rewritten, s') →
    req_step s (after_feed WChunk s' rewritten)
| req_fin s rewritten s' :
    rl_req s = ReqRead → feed_down s [] = (rewritten, s') →
    req_step s match rewritten with
               | Emit flushed => with_req (log_emit s' flushed) (ReqWrite WFlush flushed)
               | Hold | Close => with_req (to_server s' [] true) (ReqExit (Ok tt))
               end
| req_failed s :
    rl_req s = ReqRead → req_step s (with_req (end_requests s) (ReqExit (Err GuestRead)))
| req_written s k out :
    rl_req s = ReqWrite k out → req_step s (after_write k (to_server s out false))
| req_write_failed s k out sent :
    rl_req s = ReqWrite k out → sent `prefix_of` out →
    req_step s (with_req (end_requests (to_server s sent false)) (ReqExit (Err (write_error k))))
| req_write_stopped s k out sent :
    rl_req s = ReqWrite k out → sent `prefix_of` out → rl_done s = true → rl_taken s = false →
    req_step s (after_write k (take_done (to_server s sent false)))
| req_write_repolled s k out sent :
    rl_req s = ReqWrite k out → sent `prefix_of` out → rl_taken s = true →
    req_step s (with_req (to_server s sent false) ReqPanicked).

(** [apply_message], once its writes to the guest went through. *)
Definition apply_message (s : Relay) (msg : ToResponse) : Relay :=
  match msg with
  | Reply reply => to_guest s reply false [reply]
  | PeerNote n => with_up s (apply_peer_note (rl_up s) n)
  | RequestsEnded => s
  end.

(** An early return of the response pump drops the one-shot's sender. *)
Definition resp_return (s : Relay) (e : RelayError) : Relay :=
  with_resp (signal_done s) (RespExit (Err e)).

(** Taking the next message where [cont] is the program point to come back to. *)
Inductive receive (s : Relay) (cont : RespPc) : Relay → Prop :=
| receive_end chan :
    rl_chan s = RequestsEnded :: chan → receive s cont (with_resp (with_chan s chan) (RespFinish (Ok tt)))
| receive_msg msg chan :
    rl_chan s = msg :: chan → msg ≠ RequestsEnded →
    receive s cont (with_resp (apply_message (with_chan s chan) msg) cont)
| receive_failed reply chan e sent :
    rl_chan s = Reply reply :: chan → sent `prefix_of` reply →
    (e = ProtocolReplyToGuest ∨ e = ProtocolReplyFlush) →
    receive s cont (resp_return (to_guest (with_chan s chan) sent false []) e).

(** The request pump's sender is gone once it returned. *)
Definition req_exited (s : Relay) : bool := match rl_req s with ReqExit _ => true | _ => false end.

(** One step of the response pump. *)
Inductive resp_step : Relay → Relay → Prop :=
| resp_receive s s' :
    rl_resp s = RespSelect → rl_open s = true → receive s RespSelect s' → resp_step s s'
| resp_senders_gone s :
    rl_resp s = RespSelect → rl_open s = true → rl_chan s = [] → req_exited s = true →
    resp_step s (close_requests s)
| resp_read s chunk :
    rl_resp s = RespSelect → chunk ≠ [] → resp_step s (with_resp s (RespDrain (Some chunk)))
| resp_fin s :
    rl_resp s = RespSelect → resp_step s (with_resp s (RespDrain None))
| resp_read_failed s :
    rl_resp s = RespSelect → resp_step s (with_resp s (RespFinish (Err UpstreamRead)))
| resp_drain s input s' :
    rl_resp s = RespDrain input → receive s (RespDrain input) s' → resp_step s s'
| resp_feed s input rewritten hits m :
    rl_resp s = RespDrain input → rl_chan s = [] → feed (rl_up s) (default [] input) = ((rewritten, hits), m) →
    resp_step s
      match rewritten, input with
      | Close, _ | Hold, None => with_resp (with_up s m) (RespFinish (Ok tt))
      | Hold, Some _ => with_resp (with_up s m) RespSelect
      | Emit out, _ => with_resp (with_up s m) (RespWrite (negb (bool_of_opt input)) out)
      end
| resp_written s last out :
    rl_resp s = RespWrite last out →
    resp_step s (with_resp (to_guest s out false []) (if last then RespFinish (Ok tt) else RespSelect))
| resp_write_failed s last out sent e :
    rl_resp s = RespWrite last out → sent `prefix_of` out →
    (e = if last then ResponseFlushToGuest else ResponseChunkToGuest) ∨ (last = false ∧ sent = out ∧ e = GuestFlush) →
    resp_step s (resp_return (to_guest s sent false []) e)
| resp_finish_ok s :
    rl_resp s = RespFinish (Ok tt) →
    resp_step s (with_resp (signal_done s) RespFlush)
| resp_flushed s :
    rl_resp s = RespFlush → resp_step s (with_resp (to_guest s [] true []) (RespExit (Ok tt)))
| resp_flush_failed s :
    rl_resp s = RespFlush → resp_step s (with_resp s (RespExit (Err FinalGuestFlush)))
| resp_finish_err s e :
    rl_resp s = RespFinish (Err e) → resp_step s (with_resp (signal_done s) (RespExit (Err e))).

Definition panicked (s : Relay) : bool := match rl_req s with ReqPanicked => true | _ => false end.

(** Both pumps run in one task ([tokio::join!]), so a panic of the request pump
    unwinds the response pump with it. *)
Definition relay_step (s s' : Relay) : Prop := req_step s s' ∨ panicked s = false ∧ resp_step s s'.

Definition relay_start (down up : M) (first : bytes) : Relay :=
  {| rl_down := down; rl_up := up; rl_req := ReqFirst first; rl_resp := RespSelect; rl_chan := [];
     rl_open := true; rl_done := false; rl_taken := false; rl_server_out := []; rl_server_shut := false;
     rl_guest_out := []; rl_guest_shut := false; rl_queued := []; rl_delivered := []; rl_emitted := [] |}.

(** [requests.or(responses)], once both pumps returned. *)
Definition relay_result (s : Relay) : option (result RelayError ()) :=
  match rl_req s, rl_resp s with
  | ReqExit (Ok _), RespExit _ => Some (Ok tt)
  | ReqExit (Err _), RespExit r => Some r
  | _, _ => None
  end.
End Relay.
Arguments Relay M : clear implicits.

(** ** Properties *)

Section RelayProperties.
Context {M : Type} `{!Wire M}.
Implicit Types s : Relay M.

Definition reply_of (msg : ToResponse) : option bytes := match msg with Reply r => Some r | _ => None end.

(** [s'] is [s] with messages, none of them terminal, sent to the response pump. *)
Definition handed s s' : Prop :=
  rl_req s' = rl_req s ∧ rl_resp s' = rl_resp s ∧ rl_open s' = rl_open s ∧ rl_done s' = rl_done s ∧ rl_taken s' = rl_taken s ∧
  rl_server_out s' = rl_server_out s ∧ rl_guest_out s' = rl_guest_out s ∧
  rl_delivered s' = rl_delivered s ∧ rl_emitted s' = rl_emitted s ∧
  if resp_exited s then rl_chan s' = rl_chan s ∧ rl_queued s' = rl_queued s
  else ∃ new, RequestsEnded ∉ new ∧ rl_chan s' = rl_chan s ++ new ∧ rl_queued s' = rl_queued s ++ omap reply_of new.

Lemma handed_resp s s' : handed s s' → resp_exited s' = resp_exited s.
Proof. intros (_ & Hr & _). unfold resp_exited. by rewrite Hr. Qed.

Lemma handed_trans s1 s2 s3 : handed s1 s2 → handed s2 s3 → handed s1 s3.
Proof.
  intros H12 H23. pose proof (handed_resp _ _ H12) as He.
  destruct H12 as (?&?&?&?&?&?&?&?&?&Hc1), H23 as (?&?&?&?&?&?&?&?&?&Hc2). rewrite He in Hc2.
  unfold handed. split_and!; try congruence.
  destruct (resp_exited s1); [intuition congruence|].
  destruct Hc1 as (n1 & Hn1 & E1 & Q1), Hc2 as (n2 & Hn2 & E2 & Q2). exists (n1 ++ n2). split_and!.
  - by rewrite not_elem_of_app.
  - by rewrite E2, E1, <- app_assoc.
  - by rewrite Q2, Q1, omap_app, <- app_assoc.
Qed.

Lemma handed_send s msg : msg ≠ RequestsEnded → handed s (send s msg).
Proof.
  intros Hm. unfold handed, send. destruct (resp_exited s); simpl; [by split_and!|]. split_and!; [done..|].
  exists [msg]. split_and!; [|done|by destruct msg].
  intros Hin%list_elem_of_singleton. by subst.
Qed.

Lemma handed_down s m : handed s (with_down s m).
Proof.
  unfold handed. simpl. split_and!; try done. destruct (resp_exited s); [done|].
  exists []. split_and!; [apply not_elem_of_nil|by rewrite app_nil_r|by rewrite app_nil_r].
Qed.

Lemma handed_hand_over s : handed s (hand_over s).
Proof.
  unfold hand_over. destruct (take_reply (rl_down s)) as [reply m1].
  set (s1 := match reply with Some r => _ | None => _ end).
  assert (handed s s1) as H1.
  { unfold s1. destruct reply as [r|]; [|apply handed_down].
    eapply handed_trans; [apply handed_down|]. by apply handed_send. }
  destruct (take_peer_note (rl_down s1)) as [pending m2].
  assert (handed s (with_down s1 m2)) by (eapply handed_trans; [done|apply handed_down]).
  destruct (0 <? pending); [|done]. eapply handed_trans; [done|]. by apply handed_send.
Qed.

Lemma handed_feed_down s chunk rewritten s' : feed_down s chunk = (rewritten, s') → handed s s'.
Proof.
  unfold feed_down. destruct (feed (rl_down s) chunk) as [[r hits] m]. intros [= <- <-].
  eapply handed_trans; [apply handed_down|apply handed_hand_over].
Qed.

(** The response pump has fired the one-shot, or dropped it by returning. *)
Definition signalled s : bool := match rl_resp s with RespFlush | RespExit _ => true | _ => false end.

Lemma exited_signalled s : resp_exited s = true → signalled s = true.
Proof. unfold resp_exited, signalled. by destruct (rl_resp s). Qed.

(** The invariant of the relay. *)
Record relay_inv s : Prop := {
  ri_done : rl_done s = signalled s;
  ri_taken : rl_taken s = true → rl_done s = true;
  ri_open : rl_open s = false → rl_chan s = [] ∧ req_exited s = true;
  ri_end : RequestsEnded ∈ rl_chan s → req_exited s = true ∧ ∃ pre, rl_chan s = pre ++ [RequestsEnded] ∧ RequestsEnded ∉ pre;
  ri_replies : if resp_exited s then rl_delivered s `prefix_of` rl_queued s
               else rl_queued s = rl_delivered s ++ omap reply_of (rl_chan s);
  ri_server : rl_taken s = false →
    match rl_req s with
    | ReqWrite _ out => rl_emitted s = rl_server_out s ++ out
    | ReqExit (Err (RequestHeadToUpstream | RequestChunkToUpstream | RequestFlushToUpstream)) =>
        rl_server_out s `prefix_of` rl_emitted s
    | _ => rl_emitted s = rl_server_out s
    end;
}.

Lemma relay_inv_start down up first : relay_inv (relay_start down up first).
Proof. constructor; simpl; try done. intros Hin. by apply elem_of_nil in Hin. Qed.

(** What a step of the request pump may do to the response pump's side: send
    messages, and the terminal one when [fin]. *)
Definition sends (fin : bool) s s' : Prop :=
  rl_resp s' = rl_resp s ∧ rl_open s' = rl_open s ∧ rl_done s' = rl_done s ∧ rl_taken s' = rl_taken s ∧ rl_delivered s' = rl_delivered s ∧
  if resp_exited s then rl_chan s' = rl_chan s ∧ rl_queued s' = rl_queued s
  else ∃ new, RequestsEnded ∉ new ∧ rl_chan s' = rl_chan s ++ new ++ (if fin then [RequestsEnded] else []) ∧
    rl_queued s' = rl_queued s ++ omap reply_of new.

Lemma handed_sends s s' : handed s s' → sends false s s'.
Proof.
  intros (?&?&?&?&?&?&?&?&?&Hc). unfold sends. split_and!; [done..|].
  destruct (resp_exited s); [done|]. destruct Hc as (new & ?&?&?). exists new. by rewrite app_nil_r.
Qed.

Lemma sends_refl s s' :
  rl_resp s' = rl_resp s → rl_open s' = rl_open s → rl_done s' = rl_done s → rl_taken s' = rl_taken s → rl_delivered s' = rl_delivered s →
  rl_chan s' = rl_chan s → rl_queued s' = rl_queued s → sends false s s'.
Proof.
  intros ????? Ec Eq. unfold sends. rewrite Ec, Eq. split_and!; [done..|]. destruct (resp_exited s); [done|].
  exists []. split_and!; [apply not_elem_of_nil|by rewrite app_nil_r|by rewrite app_nil_r].
Qed.

Lemma sends_with_req fin s s' pc : sends fin s s' → sends fin s (with_req s' pc).
Proof. done. Qed.

Lemma sends_end s s' pc : sends false s s' → sends true s (with_req (end_requests s') pc).
Proof.
  intros (Hr & Ho & Hd & Ht & Hdel & Hc). assert (resp_exited s' = resp_exited s) as He by (unfold resp_exited; by rewrite Hr).
  unfold sends, end_requests, send. rewrite He.
  destruct (resp_exited s); simpl; [by destruct_and?; split_and!|].
  split_and!; [done..|]. destruct Hc as (new & Hn & E & Q). exists new. rewrite E, Q, !app_nil_r, <- app_assoc. done.
Qed.

Definition server_inv s : Prop :=
  match rl_req s with
  | ReqWrite _ out => rl_emitted s = rl_server_out s ++ out
  | ReqExit (Err (RequestHeadToUpstream | RequestChunkToUpstream | RequestFlushToUpstream)) =>
      rl_server_out s `prefix_of` rl_emitted s
  | _ => rl_emitted s = rl_server_out s
  end.

Lemma inv_sends fin s s' :
  relay_inv s → req_exited s = false → sends fin s s' → (fin = true → req_exited s' = true) →
  (rl_taken s = false → server_inv s') → relay_inv s'.
Proof.
  intros [Hdone Htk Hopen Hend Hrep _] Hreq (Hr & Ho & Hd & Ht & Hdel & Hc) Hfin Hserver.
  assert (resp_exited s' = resp_exited s) as He by (unfold resp_exited; by rewrite Hr).
  assert (signalled s' = signalled s) as Hsg by (unfold signalled; by rewrite Hr).
  assert (rl_open s = true) as Hop by (destruct (rl_open s); [done|by destruct (Hopen eq_refl) as [_ ?]; congruence]).
  assert (RequestsEnded ∉ rl_chan s) as Hno by (intros Hin; destruct (Hend Hin); congruence).
  constructor; rewrite ?He, ?Hsg, ?Hd, ?Ht, ?Ho, ?Hdel; [done|done|congruence| | |done].
  - destruct (resp_exited s); [destruct Hc as [-> _]; done|]. destruct Hc as (new & Hn & -> & _).
    intros Hin. destruct fin.
    + split; [by apply Hfin|]. exists (rl_chan s ++ new). rewrite app_assoc. split; [done|]. by rewrite not_elem_of_app.
    + rewrite app_nil_r in Hin. by apply elem_of_app in Hin as [?|?].
  - destruct (resp_exited s); [by destruct Hc as [_ ->]|]. destruct Hc as (new & Hn & -> & ->).
    rewrite Hrep, !omap_app, <- app_assoc. do 2 f_equal. destruct fin; simpl; by rewrite app_nil_r.
Qed.

Lemma after_feed_inv k s s' rewritten :
  relay_inv s → req_exited s = false → handed s s' → (rl_taken s = false → rl_emitted s = rl_server_out s) →
  relay_inv (after_feed k s' rewritten).
Proof.
  intros Hinv Hreq Hh He. pose proof (handed_sends _ _ Hh) as Hs. destruct Hh as (_&_&_&_&_&Hso&_&_&Hem&_).
  destruct rewritten as [out| |]; simpl.
  - eapply (inv_sends false); [done|done|exact Hs|done|]. intros Hd. unfold server_inv. simpl. by rewrite Hso, Hem, He.
  - eapply (inv_sends false); [done|done|by apply sends_with_req|done|]. intros Hd. unfold server_inv. simpl. by rewrite Hso, Hem, He.
  - eapply (inv_sends true); [done|done|by apply sends_end|done|]. intros Hd. unfold server_inv. simpl.
    unfold end_requests, send. destruct (resp_exited s'); simpl; by rewrite Hso, Hem, He.
Qed.

Lemma end_requests_fields s : rl_emitted (end_requests s) = rl_emitted s ∧ rl_server_out (end_requests s) = rl_server_out s.
Proof. unfold end_requests, send. by destruct (resp_exited s). Qed.

Lemma after_write_inv k s sent :
  relay_inv s → req_exited s = false → (rl_taken s = false → rl_emitted s = rl_server_out s ++ sent) →
  relay_inv (after_write k (to_server s sent false)).
Proof.
  intros Hinv Hreq He. eapply (inv_sends false); [done|done| |done|].
  - by destruct k; apply sends_refl.
  - intros Hd. destruct k; unfold server_inv; simpl; rewrite ?app_nil_r; by apply He.
Qed.

Lemma after_write_taken_inv k s sent :
  relay_inv s → req_exited s = false → rl_done s = true → relay_inv (after_write k (take_done (to_server s sent false))).
Proof.
  intros [Hdone _ Hopen Hend Hrep _] Hreq Hd.
  assert (rl_open s = true) as Ho by (destruct (rl_open s); [done|by destruct (Hopen eq_refl); congruence]).
  assert (RequestsEnded ∉ rl_chan s) as Hno by (intros Hin; destruct (Hend Hin); congruence).
  destruct k; by constructor; simpl; rewrite ?Ho.
Qed.

Lemma req_step_inv s s' : req_step s s' → relay_inv s → relay_inv s'.
Proof.
  intros Hstep Hinv. pose proof (ri_server _ Hinv) as Hsv.
  destruct Hstep as [s Hpc|s first rw s1 Hpc Hne Hf|s Hpc|s Hpc|s Hpc Hd Ht|s Hpc Ht|s chunk rw s1 Hpc Hne Hf|s rw s1 Hpc Hf|s Hpc|s k out Hpc
    |s k out sent Hpc Hp|s k out sent Hpc Hp Hd Ht|s k out sent Hpc Hp Ht]; rewrite Hpc in Hsv;
    assert (req_exited s = false) as Hreq by (unfold req_exited; by rewrite Hpc).
  - eapply (inv_sends false); [done|done|by apply sends_refl|done|done].
  - eapply after_feed_inv; [done|done|by eapply handed_feed_down|done].
  - eapply (inv_sends false); [done|done|by apply sends_refl|done|done].
  - eapply (inv_sends false); [done|done|by apply sends_refl|done|done].
  - eapply (inv_sends false); [done|done|by apply sends_refl|done|done].
  - eapply (inv_sends false); [done|done|by apply sends_refl|done|]. intros ?. congruence.
  - eapply after_feed_inv; [done|done|by eapply handed_feed_down|done].
  - pose proof (handed_feed_down _ _ _ _ Hf) as Hh. pose proof (handed_sends _ _ Hh) as Hs.
    destruct Hh as (_&_&_&_&_&Hso&_&_&Hem&_).
    destruct rw as [out| |]; (eapply (inv_sends false); [done|done|exact Hs|done|]);
      intros Hd; unfold server_inv; simpl; rewrite ?app_nil_r, Hso, Hem, Hsv; done.
  - eapply (inv_sends true); [done|done|by apply sends_end, sends_refl|done|]. intros Hd. unfold server_inv. simpl.
    destruct (end_requests_fields s) as [-> ->]. by apply Hsv.
  - by apply after_write_inv.
  - eapply (inv_sends true); [done|done|by apply sends_end, sends_refl|done|]. intros Hd. unfold server_inv. simpl.
    destruct (end_requests_fields (to_server s sent false)) as [-> ->]. simpl. rewrite Hsv by done.
    destruct k; simpl; by apply prefix_app.
  - by apply after_write_taken_inv.
  - eapply (inv_sends false); [done|done|by apply sends_refl|done|]. intros ?. congruence.
Qed.

(** What a step of the response pump may do to what the invariant reads. *)
Lemma inv_resp s s' :
  relay_inv s → resp_exited s = false →
  rl_req s' = rl_req s → rl_queued s' = rl_queued s → rl_taken s' = rl_taken s → rl_emitted s' = rl_emitted s → rl_server_out s' = rl_server_out s →
  rl_done s' = signalled s' → (rl_done s = true → rl_done s' = true) →
  (rl_open s' = false → rl_open s = false ∨ (rl_chan s = [] ∧ req_exited s = true)) →
  rl_chan s' `suffix_of` rl_chan s →
  (if resp_exited s' then rl_delivered s' `prefix_of` rl_queued s
   else rl_queued s = rl_delivered s' ++ omap reply_of (rl_chan s')) →
  relay_inv s'.
Proof.
  intros [Hdone Htk Hopen Hend Hrep Hsv] He Hreq Hq Ht Hem Hso Hd Hmono Ho [taken Hsuf] Hrep'.
  assert (req_exited s' = req_exited s) as Hre by (unfold req_exited; by rewrite Hreq).
  constructor; rewrite ?Hre, ?Hq, ?Ht; [done|by auto| | |done|].
  - intros Hop. assert (rl_chan s = [] ∧ req_exited s = true) as [Hc ?].
    { destruct (Ho Hop) as [Hop'|]; [by apply Hopen|done]. }
    rewrite Hc in Hsuf. symmetry in Hsuf. apply app_eq_nil in Hsuf as [_ ?]. done.
  - intros Hin. assert (RequestsEnded ∈ rl_chan s) as Hin' by (rewrite Hsuf; apply elem_of_app; by right).
    destruct (Hend Hin') as (? & pre & E & Hno). split; [done|].
    destruct (rl_chan s') as [|m l _] using rev_ind; [by apply elem_of_nil in Hin|].
    rewrite E, app_assoc in Hsuf. apply app_inj_tail in Hsuf as [Hpre <-].
    exists l. split; [done|]. intros Hl. apply Hno. rewrite Hpre. apply elem_of_app. by right.
  - by rewrite Hreq, Hem, Hso.
Qed.

Lemma receive_inv s cont s' :
  relay_inv s → signalled s = false → match cont with RespFlush | RespExit _ => False | _ => True end →
  receive s cont s' → relay_inv s'.
Proof.
  intros Hinv Hs Hcont Hr. pose proof (ri_done _ Hinv) as Hd. pose proof (ri_replies _ Hinv) as Hrep.
  assert (resp_exited s = false) as He by (destruct (resp_exited s) eqn:E; [apply exited_signalled in E; congruence|done]).
  rewrite Hs in Hd. rewrite He in Hrep.
  destruct Hr as [chan Hc|msg chan Hc Hm|reply chan e sent Hc Hp He'].
  - apply (inv_resp s); try done; simpl; [by left|rewrite Hc; by exists [RequestsEnded]|by rewrite Hrep, Hc].
  - apply (inv_resp s); try done; try by destruct msg.
    + destruct msg; simpl; rewrite Hd; by destruct cont.
    + destruct msg; simpl; by left.
    + destruct msg; simpl; rewrite Hc; by eexists [_].
    + destruct msg; simpl; [..|done].
      * destruct cont; try done; unfold resp_exited; simpl; rewrite Hrep, Hc; simpl; by rewrite <- app_assoc.
      * destruct cont; try done; unfold resp_exited; simpl; by rewrite Hrep, Hc.
  - apply (inv_resp s); try done; simpl; [by left|rewrite Hc; by eexists [_]|].
    rewrite Hrep, app_nil_r. by apply prefix_app_r.
Qed.

Lemma resp_step_inv s s' : resp_step s s' → relay_inv s → relay_inv s'.
Proof.
  intros Hstep Hinv. pose proof (ri_done _ Hinv) as Hd. pose proof (ri_replies _ Hinv) as Hrep.
  assert (resp_exited s = false) as He.
  { destruct Hstep; unfold resp_exited; by match goal with Hx : rl_resp _ = _ |- _ => rewrite Hx end. }
  rewrite He in Hrep.
  assert (rl_delivered s `prefix_of` rl_queued s) as Hpre by (rewrite Hrep; by apply prefix_app_r).
  destruct Hstep as [s s' Hpc Ho Hr|s Hpc Ho Hc Hreq|s chunk Hpc Hne|s Hpc|s Hpc|s input s' Hpc Hr|s input rw hits m Hpc Hc Hf
    |s last out Hpc|s last out sent e Hpc Hp Hw|s Hpc|s Hpc|s Hpc|s e Hpc];
    assert (signalled s = match rl_resp s with RespFlush => true | _ => false end) as Hsg by (unfold signalled; by rewrite Hpc);
    rewrite Hpc in Hsg; rewrite Hsg in Hd.
  - by apply (receive_inv s RespSelect).
  - apply (inv_resp s); try done; simpl; [by rewrite Hd, <- Hsg|by right|].
    change (resp_exited (close_requests s)) with (resp_exited s). by rewrite He.
  - apply (inv_resp s); try done; simpl. by left.
  - apply (inv_resp s); try done; simpl. by left.
  - apply (inv_resp s); try done; simpl. by left.
  - by apply (receive_inv s (RespDrain input)).
  - destruct rw as [out| |], input as [chunk|]; (apply (inv_resp s); try done; simpl; by left).
  - apply (inv_resp s); try done; simpl; [by destruct last|by left|].
    unfold resp_exited. destruct last; simpl; by rewrite app_nil_r.
  - apply (inv_resp s); try done; simpl; [by left|]. by rewrite app_nil_r.
  - apply (inv_resp s); try done; simpl; by left.
  - apply (inv_resp s); try done; simpl; [by left|]. by rewrite app_nil_r.
  - apply (inv_resp s); try done; simpl; by left.
  - apply (inv_resp s); try done; simpl; by left.
Qed.

Lemma relay_reachable_inv down up first s :
  rtc relay_step (relay_start down up first) s → relay_inv s.
Proof.
  intros Hrun. pose proof (relay_inv_start down up first) as Hinv. revert Hinv.
  generalize (relay_start down up first) as s0, Hrun. clear Hrun. intros s0 Hrun.
  induction Hrun as [|x y z Hxy _ IH]; [done|]. intros Hinv. apply IH.
  destruct Hxy as [?|[_ ?]]; [by eapply req_step_inv|by eapply resp_step_inv].
Qed.


(** What the discarded [Ok(None)] does: a request pump that abandons a write of
    a chunk, or of the first bytes, before the guest's end of stream goes on to
    a poll of the one-shot it has already taken, and panics. *)
Theorem stopped_write_panics s k out :
  rl_req s = ReqWrite k out → k ≠ WFlush → rl_done s = true → rl_taken s = false →
  ∃ s', rtc relay_step s s' ∧ panicked s' = true.
Proof.
  intros Hr Hk Hd Ht.
  assert (relay_step s (after_write k (take_done (to_server s [] false)))) as H1 by
    (left; by apply (req_write_stopped s k out []); [|apply prefix_nil| |]).
  destruct k; simpl in H1; [..|done].
  - exists (with_req (with_req (with_req (take_done (to_server s [] false)) ReqHeadFlush) ReqRead) ReqPanicked). split; [|done].
    eapply rtc_l; [exact H1|]. eapply rtc_l; [left; by apply req_head_flushed|]. apply rtc_once. left. by apply req_repolled.
  - exists (with_req (with_req (take_done (to_server s [] false)) ReqRead) ReqPanicked). split; [|done].
    eapply rtc_l; [exact H1|]. apply rtc_once. left. by apply req_repolled.
Qed.

(** The terminal intent is honoured: once the request pump has queued it,
    nothing else follows it in the channel, no step of the response pump feeds
    its machine another upstream byte, and it stays queued until the response
    pump takes it and finishes. *)
Theorem terminal_intent_honoured down up first s s' :
  rtc relay_step (relay_start down up first) s → RequestsEnded ∈ rl_chan s →
  req_exited s = true ∧ (∃ pre, rl_chan s = pre ++ [RequestsEnded] ∧ RequestsEnded ∉ pre) ∧
  (resp_step s s' →
     (∀ last out, rl_resp s' = RespWrite last out → rl_resp s = RespWrite last out) ∧
     (RequestsEnded ∈ rl_chan s' ∨ rl_resp s' = RespFinish (Ok tt) ∨ resp_exited s' = true)).
Proof.
  intros Hrun%relay_reachable_inv Hin. destruct (ri_end _ Hrun Hin) as (Hreq & Hpre). split_and!; [done..|].
  intros Hstep.
  assert (∀ cont, match cont with RespWrite _ _ => False | _ => True end → receive s cont s' →
    (∀ last out, rl_resp s' = RespWrite last out → rl_resp s = RespWrite last out) ∧
    (RequestsEnded ∈ rl_chan s' ∨ rl_resp s' = RespFinish (Ok tt) ∨ resp_exited s' = true)) as Hrec.
  { intros cont Hcont [chan Hc|msg chan Hc Hm|reply chan e sent Hc Hp He']; simpl.
    - split; [done|]. by right; left.
    - split; [by destruct msg, cont|]. left. rewrite Hc in Hin. apply elem_of_cons in Hin as [?|?]; [congruence|]. by destruct msg.
    - split; [done|]. by right; right. }
  destruct Hstep as [s s' Hpc Ho Hr|s Hpc Ho Hc _|s chunk Hpc Hne|s Hpc|s Hpc|s input s' Hpc Hr|s input rw hits m Hpc Hc Hf
    |s last out Hpc|s last out sent e Hpc Hp Hw|s Hpc|s Hpc|s Hpc|s e Hpc].
  - by apply (Hrec RespSelect).
  - rewrite Hc in Hin. by apply elem_of_nil in Hin.
  - split; [done|by left].
  - split; [done|by left].
  - split; [done|by left].
  - by apply (Hrec (RespDrain input)).
  - rewrite Hc in Hin. by apply elem_of_nil in Hin.
  - split; [by destruct last|by left].
  - split; [done|by left].
  - split; [done|by left].
  - split; [done|by left].
  - split; [done|by left].
  - split; [done|by left].
Qed.

Lemma resp_exits_from s : resp_exited s = true ∨ (∃ r, rl_resp s = RespFinish r) → ∃ s', rtc resp_step s s' ∧ resp_exited s' = true.
Proof.
  intros [He|[[[]|e] Hr]]; [by exists s|..].
  - eexists. split; [eapply rtc_l; [by apply resp_finish_ok|]; apply rtc_once, resp_flushed; done|done].
  - eexists. split; [by apply rtc_once, resp_finish_err|done].
Qed.

Lemma drain_exits s chan cont :
  (cont = RespSelect ∧ rl_open s = true ∨ ∃ input, cont = RespDrain input) →
  rl_resp s = cont → rl_chan s = chan → RequestsEnded ∈ chan → ∃ s', rtc resp_step s s' ∧ resp_exited s' = true.
Proof.
  intros Hcont. revert s Hcont. induction chan as [|msg chan IH]; intros s Hcont Hr Hc Hin; [by apply elem_of_nil in Hin|].
  assert (∀ s', receive s cont s' → resp_step s s') as Hstep.
  { intros s' Hs'. destruct Hcont as [[-> Ho]|[input ->]]; [by apply resp_receive|by eapply resp_drain]. }
  destruct (decide (msg = RequestsEnded)) as [->|Hm].
  - destruct (resp_exits_from (with_resp (with_chan s chan) (RespFinish (Ok tt)))) as (s' & Hs' & He); [right; by eexists|].
    exists s'. split; [|done]. eapply rtc_l; [apply Hstep; by apply receive_end|done].
  - destruct (IH (with_resp (apply_message (with_chan s chan) msg) cont)) as (s' & Hs' & He).
    + destruct Hcont as [[? ?]|?]; [left|by right]. split; [done|]. by destruct msg.
    + by destruct msg.
    + by destruct msg.
    + apply elem_of_cons in Hin as [?|?]; [congruence|done].
    + exists s'. split; [|done]. eapply rtc_l; [apply Hstep; by eapply receive_msg|done].
Qed.

Definition req_over s : bool := req_exited s || panicked s.

Lemma read_over s : rl_req s = ReqRead → rl_done s = true → ∃ s', rtc req_step s s' ∧ req_over s' = true.
Proof.
  intros Hr Hd. destruct (rl_taken s) eqn:Ht; eexists.
  - split; [by apply rtc_once, req_repolled|done].
  - split; [by apply rtc_once, req_stopped|done].
Qed.

Lemma flush_over s : rl_req s = ReqHeadFlush → rl_done s = true → ∃ s', rtc req_step s s' ∧ req_over s' = true.
Proof.
  intros Hr Hd. destruct (read_over (with_req s ReqRead)) as (s' & Hs' & ?); [done..|].
  exists s'. split; [|done]. eapply rtc_l; [by apply req_head_flushed|done].
Qed.

Lemma write_over s k out : rl_req s = ReqWrite k out → rl_done s = true → ∃ s', rtc req_step s s' ∧ req_over s' = true.
Proof.
  intros Hr Hd. destruct (rl_taken s) eqn:Ht.
  { eexists. split; [apply rtc_once; by apply (req_write_repolled s k out []); [|apply prefix_nil|]|done]. }
  assert (∃ s', rtc req_step (after_write k (take_done (to_server s [] false))) s' ∧ req_over s' = true) as (s' & Hs' & ?).
  { destruct k; simpl; [by apply flush_over|by apply read_over|]. by eexists. }
  exists s'. split; [|done]. eapply rtc_l; [by apply (req_write_stopped s k out []); [|apply prefix_nil|..]|done].
Qed.

(** The relay always ends: once the request pump has queued its terminal
    intent the response pump can run to its return with no further byte from
    the server, and once the response pump has returned the request pump can run
    to its return, or to its panic, with no further byte from the guest. *)
Theorem relay_ends down up first s :
  rtc relay_step (relay_start down up first) s →
  (RequestsEnded ∈ rl_chan s → ∃ s', rtc resp_step s s' ∧ resp_exited s' = true) ∧
  (resp_exited s = true → ∃ s', rtc req_step s s' ∧ req_over s' = true).
Proof.
  intros Hrun. apply relay_reachable_inv in Hrun as Hinv. split.
  - intros Hin. assert (rl_open s = true) as Ho.
    { destruct (rl_open s) eqn:E; [done|]. destruct (ri_open _ Hinv E) as [Hc _]. rewrite Hc in Hin. by apply elem_of_nil in Hin. }
    destruct (rl_resp s) as [|input|last out|r| |r] eqn:Hr.
    + eapply drain_exits; [by left|done..].
    + eapply drain_exits; [by right; eexists|done..].
    + set (s1 := with_resp (to_guest s out false []) (if last then RespFinish (Ok tt) else RespSelect)).
      assert (∃ s', rtc resp_step s1 s' ∧ resp_exited s' = true) as (s' & Hs' & He).
      { destruct last.
        - apply resp_exits_from. right. by eexists.
        - by eapply (drain_exits s1 _ RespSelect); [left|..]. }
      exists s'. split; [|done]. eapply rtc_l; [by apply resp_written|done].
    + apply resp_exits_from. right. by eexists.
    + eexists. split; [by apply rtc_once, resp_flushed|done].
    + exists s. split; [done|]. unfold resp_exited. by rewrite Hr.
  - intros He. pose proof (ri_done _ Hinv) as Hd. rewrite (exited_signalled _ He) in Hd.
    destruct (rl_req s) as [first0| |k out| |r|] eqn:Hr;
      [|by apply read_over|by eapply write_over|by apply flush_over|..].
    + destruct (decide (first0 = [])) as [->|Hne].
      { destruct (read_over (with_req s ReqRead)) as (s' & Hs' & ?); [done..|].
        exists s'. split; [|done]. eapply rtc_l; [by apply req_first_none|done]. }
      destruct (feed_down s first0) as [rw s1] eqn:Hf.
      pose proof (handed_feed_down _ _ _ _ Hf) as (_ & _ & _ & Hd1 & _).
      assert (∃ s', rtc req_step (after_feed WHead s1 rw) s' ∧ req_over s' = true) as (s' & Hs' & ?).
      { destruct rw; simpl; [eapply write_over; [done|]|apply read_over; [done|]|by eexists]; simpl; congruence. }
      exists s'. split; [|done]. eapply rtc_l; [by eapply req_first|done].
    + exists s. split; [done|]. unfold req_over, req_exited. by rewrite Hr.
    + exists s. split; [done|]. unfold req_over, panicked. by rewrite Hr, orb_true_r.
Qed.
End RelayProperties.

(** ** Concrete runs, over the Postgres wire *)

Definition sample_run (first : bytes) : Relay Postgres :=
  let _ := sample_pgwire in
  let '(rewritten, s) := feed_down (relay_start sample_postgres sample_postgres first) first in
  after_feed WHead s rewritten.

Lemma sample_run_reaches (first : bytes) :
  let _ := sample_pgwire in
  first ≠ [] → rtc relay_step (relay_start sample_postgres sample_postgres first) (sample_run first).
Proof.
  intros p Hne. apply rtc_once. left. unfold sample_run.
  destruct (feed_down (relay_start sample_postgres sample_postgres first) first) as [rw s] eqn:Hf.
  by eapply req_first.
Qed.


Lemma terminal_intent_honoured_witness :
  req_exited (sample_run (be32 8 ++ bs "XXXX")) = true.
Proof.
  apply (@terminal_intent_honoured Postgres (@Postgres_wire sample_pgwire) sample_postgres sample_postgres
    (be32 8 ++ bs "XXXX") (sample_run (be32 8 ++ bs "XXXX")) (sample_run (be32 8 ++ bs "XXXX"))).
  - apply sample_run_reaches. discriminate.
  - left.
Defined.

Lemma relay_ends_witness :
  let _ := sample_pgwire in
  ∃ s', rtc resp_step (sample_run (be32 8 ++ bs "XXXX")) s' ∧ resp_exited s' = true.
Proof.
  intros p.
  apply (@relay_ends Postgres (@Postgres_wire sample_pgwire) sample_postgres sample_postgres (be32 8 ++ bs "XXXX")).
  - apply sample_run_reaches. discriminate.
  - left.
Defined.

(** A server that ends its answers while the guest's first bytes are still being
    written: a raw connection of an entry with no pair comes to the panic. *)
Lemma stopped_write_panics_reached :
  let raw := (raw_tcp_pair [] (bs "db") 5432).1 in
  ∃ s : Relay Raw, rtc relay_step (relay_start raw raw (bs "hi")) s ∧ panicked s = true.
Proof.
  intros raw. set (s0 := relay_start raw raw (bs "hi")).
  destruct (feed_down s0 (bs "hi")) as [rw s1] eqn:Hf.
  assert (s1 = (feed_down s0 (bs "hi")).2 ∧ rw = Emit (bs "hi")) as [-> ->].
  { split; [by rewrite Hf|]. by assert (rw = (feed_down s0 (bs "hi")).1) as -> by (by rewrite Hf). }
  set (s2 := after_feed WHead (feed_down s0 (bs "hi")).2 (Emit (bs "hi"))).
  set (w := with_resp (with_up (with_resp s2 (RespDrain None)) raw) (RespWrite true [])).
  set (s3 := with_resp (signal_done (with_resp (to_guest w [] false []) (RespFinish (Ok tt)))) RespFlush).
  destruct (stopped_write_panics s3 WHead (bs "hi")) as (s & Hrun & Hp); [reflexivity|done|reflexivity|reflexivity|].
  exists s. split; [|done].
  eapply rtc_l; [left; apply (req_first s0 (bs "hi")); [reflexivity|discriminate|exact Hf]|].
  eapply rtc_l; [right; split; [reflexivity|]; apply (resp_fin s2); reflexivity|].
  eapply rtc_l; [right; split; [reflexivity|]; apply (resp_feed (with_resp s2 (RespDrain None)) None (Emit []) [] raw); reflexivity|].
  eapply rtc_l; [right; split; [reflexivity|]; apply (resp_written w true []); reflexivity|].
  eapply rtc_l; [right; split; [reflexivity|]; apply resp_finish_ok; reflexivity|].
  exact Hrun.
Qed.
