(* ===== verification/HttpHead.v ===== *)
(** * HTTP/1 heads, framing and chunked bodies

    The pure half of [crates/hodor-proxy/src/transports/http/machine.rs]: head
    parsing and framing classification, the value swap of a head block, the
    minted head's [Content-Length], de-chunking, and the plugin's view of heads
    and trailers. [httparse] and [base64] are the classes [HttpParse] and
    [Base64]; the plugin trait of [hodor-plugin] is the class [RewriteHook]. *)

From S2P Require Import Prelude Mint Engine.

(** ** Plugin boundary *)

Record PluginHeader := {
  ph_name : bytes;
  ph_value : bytes;
}.
#[export] Instance PluginHeader_eq_decision : EqDecision PluginHeader.
Proof. solve_decision. Defined.

Inductive PluginHead :=
| PRequest (method path_with_query : bytes) (headers : list PluginHeader)
| PResponse (status : N) (headers : list PluginHeader).

Inductive Verdict := VContinue | VClose.

(** The trait object [dyn RewriteHook]: a state and its three calls. *)
Class RewriteHook := {
  hook_state : Type;
  rewrite_head : hook_state → PluginHead → Verdict * PluginHead * hook_state;
  rewrite_trailers : hook_state → list PluginHeader → Verdict * list PluginHeader * hook_state;
  rewrite_chunk : hook_state → bytes → bool → Verdict * bytes * hook_state;
}.

(** ** Libraries *)

(** [httparse]: [Some] is a complete parse; the first argument is the capacity
    of the header table, past which the parse fails. *)
Record httparse_Header := {
  hd_name : bytes;
  hd_value : bytes;
}.
Record httparse_Request := {
  rq_method : option bytes;
  rq_path : option bytes;
  rq_version : option N;
  rq_headers : list httparse_Header;
}.
Record httparse_Response := {
  rs_version : option N;
  rs_code : option N;
  rs_reason : option bytes;
  rs_headers : list httparse_Header;
}.
Class HttpParse := {
  request_parse : nat → bytes → option httparse_Request;
  response_parse : nat → bytes → option httparse_Response;
}.

(** ** Strings *)

(** [line.split_once(sep)] at one character. *)
Definition split_colon (line : bytes) : option (bytes * bytes) := split_once [Byte.x3a] line.
Definition field_is (name line : bytes) : bool :=
  match split_colon line with
  | Some (n, _) => eq_ignore_case n name
  | None => false
  end.

(** ** Head parsing *)

Definition MAX_HEAD_BYTES : nat := 64 * 1024.
Definition MAX_HEADERS : nat := 128.

Record ParsedHead := {
  pr_headers : list httparse_Header;
  pr_status : option N;
  pr_method : option bytes;
  pr_path : option bytes;
  pr_version : option N;
  pr_reason : option bytes;
}.

Definition parse_head_fields `{!HttpParse} (head : bytes) (dir : Direction) : option ParsedHead :=
  match dir with
  | Downstream =>
      req ← request_parse MAX_HEADERS head;
      Some {| pr_headers := rq_headers req; pr_status := None; pr_method := rq_method req;
              pr_path := rq_path req; pr_version := rq_version req; pr_reason := None |}
  | Upstream =>
      resp ← response_parse MAX_HEADERS head;
      Some {| pr_headers := rs_headers resp; pr_status := rs_code resp; pr_method := None;
              pr_path := None; pr_version := rs_version resp; pr_reason := rs_reason resp |}
  end.

(** ** Framing *)

Inductive Framing :=
| FBroken
| FChunked
| FFixed (len : N)
| FNone.

(** The inner loop of [parse_transfer_encoding]: the codings of one field. *)
Fixpoint te_codings (codings : list bytes) (saw_chunked : bool) : option bool :=
  match codings with
  | [] => Some saw_chunked
  | coding :: codings =>
      let coding := trim coding in
      let name := trim (match split_once (bs ";") coding with Some (n, _) => n | None => coding end) in
      if bool_decide (name = []) || negb (eq_ignore_case name (bs "chunked")) then None
      else if saw_chunked then None
      else te_codings codings true
  end.
Fixpoint te_fields (headers : list httparse_Header) (saw_chunked : bool) : option bool :=
  match headers with
  | [] => Some saw_chunked
  | header :: headers =>
      if negb (eq_ignore_case (hd_name header) (bs "transfer-encoding")) then te_fields headers saw_chunked
      else if negb (utf8_valid (hd_value header)) then None
      else saw ← te_codings (split_byte Byte.x2c (hd_value header)) saw_chunked; te_fields headers saw
  end.
Definition parse_transfer_encoding (headers : list httparse_Header) : option bool := te_fields headers false.

Fixpoint cl_fields (headers : list httparse_Header) (content_length : option N) : option (option N) :=
  match headers with
  | [] => Some content_length
  | header :: headers =>
      if negb (eq_ignore_case (hd_name header) (bs "content-length")) then cl_fields headers content_length
      else if negb (utf8_valid (hd_value header)) then None
      else
        parsed ← parse_usize (trim (hd_value header));
        match content_length with
        | Some existing => if (existing =? parsed)%N then cl_fields headers (Some parsed) else None
        | None => cl_fields headers (Some parsed)
        end
  end.
Definition parse_content_length (headers : list httparse_Header) : option (option N) := cl_fields headers None.

Definition parse_framing (headers : list httparse_Header) : Framing :=
  match parse_transfer_encoding headers, parse_content_length headers with
  | None, _ | _, None | Some true, Some (Some _) => FBroken
  | Some true, Some None => FChunked
  | Some false, Some (Some len) => FFixed len
  | Some false, Some None => FNone
  end.

Definition has_non_identity_content_encoding (headers : list httparse_Header) : bool :=
  existsb (λ header,
      if negb (utf8_valid (hd_value header)) then true
      else existsb (λ encoding, negb (eq_ignore_case (trim encoding) (bs "identity")))
             (split_byte Byte.x2c (hd_value header)))
    (filter (λ header, eq_ignore_case (hd_name header) (bs "content-encoding") = true) headers).

(** ** The value swap of a head block *)

Section BasicAuth.
Context `{!Base64}.

(** One line of [substitute_basic_lines]: (the line to emit, whether it changed). *)
Definition basic_line (needle replacement line : bytes) : bytes * bool :=
  match split_colon line with
  | None => (line, false)
  | Some (name, value) =>
      if negb (eq_ignore_case name (bs "authorization")) then (line, false)
      else
        let value := trim_start value in
        match find_whitespace value with
        | None => (line, false)
        | Some split_at =>
            if negb (eq_ignore_case (take split_at value) (bs "basic")) then (line, false)
            else
              match b64_decode (trim (drop split_at value)) with
              | None => (line, false)
              | Some decoded =>
                  if negb (utf8_valid decoded) || negb (str_contains decoded needle) then (line, false)
                  else (name ++ bs ": Basic " ++ b64_encode (str_replace decoded needle replacement), true)
              end
        end
  end.
Definition substitute_basic_lines (head needle replacement : bytes) : bytes * bool :=
  let lines := map (basic_line needle replacement) (split_crlf head) in
  (join crlf (map fst lines), existsb snd lines).

(** One pair of the Basic pass. *)
Definition basic_step (acc : bytes * list Hit) (pair : CredentialPair) : bytes * list Hit :=
  if negb (utf8_valid (cp_needle pair)) || negb (utf8_valid (cp_replacement pair)) then acc
  else
    let '(current, changed) := substitute_basic_lines acc.1 (cp_needle pair) (cp_replacement pair) in
    (current, if changed then acc.2 ++ [{| hit_label := cp_label pair; hit_location := BasicAuth |}] else acc.2).

(** One pair on one line of the byte pass; [replaced] marks pairs by index. *)
Definition line_step (acc : bytes * list bool) (ip : nat * CredentialPair) : bytes * list bool :=
  match replace_bytes acc.1 (cp_needle ip.2) (cp_replacement ip.2) with
  | Some next => (next, <[ip.1 := true]> acc.2)
  | None => acc
  end.
Definition substitute_line (pairs : list CredentialPair) (acc : list bytes * list bool) (line : bytes)
    : list bytes * list bool :=
  if field_is (bs "host") line then (acc.1 ++ [line], acc.2)
  else
    let '(buf, replaced) := foldl line_step (line, acc.2) (imap pair pairs) in
    (acc.1 ++ [utf8_lossy buf], replaced).

Definition substitute_head (head_str : bytes) (pairs : list CredentialPair) : bytes * list Hit :=
  let '(current, hits) := foldl basic_step (head_str, []) pairs in
  let '(lines, replaced) :=
    foldl (substitute_line pairs) ([], replicate (length pairs) false) (split_crlf current) in
  (join crlf lines,
   hits ++ omap (λ rp, if rp.1 : bool then Some {| hit_label := cp_label rp.2; hit_location := Header |} else None)
             (zip replaced pairs)).
End BasicAuth.

Definition find_header_boundary (data : bytes) : option nat :=
  pos ← find_window (crlf ++ crlf) data; Some (pos + 4).

(** The lines of the head with every [Content-Length] field rewritten; without
    one, the field is inserted before the last two bytes. *)
Definition rewrite_content_length (head : bytes) (len : nat) : bytes :=
  let boundary := default (length head) (find_header_boundary head) in
  let text := utf8_lossy (take boundary head) in
  let lines := split_crlf text in
  let field := bs "Content-Length: " ++ dec (N.of_nat len) in
  let out := join crlf (map (λ line, if field_is (bs "content-length") line then field else line) lines) in
  if existsb (field_is (bs "content-length")) lines then out
  else
    let insert := length out - 2 in
    take insert out ++ (field ++ crlf) ++ drop insert out.

(** ** Chunked bodies *)

Definition find_chunked_terminator (data : bytes) : bool :=
  bool_of_opt (find_window (crlf ++ bs "0" ++ crlf ++ crlf) data) || starts_with data (bs "0" ++ crlf ++ crlf).

Definition find_crlf (data : bytes) : option nat :=
  if length data <? 2 then None else find_window crlf data.

Definition parse_chunk_size (line : bytes) : option N :=
  let size := trim_ascii (default [] (head (split_byte Byte.x3b line))) in
  if bool_decide (size = []) then None
  else if negb (utf8_valid size) then None
  else from_str_radix usize_max 16 size.

(** What [dechunk] does: it returns the payload, refuses the framing, or
    panics. [size + 2] wraps in the release build, and the slice [rest[..size]]
    behind it panics; a build with overflow checks panics in the sum. *)
Inductive dechunked :=
| Payload (out : bytes)
| Violation
| Panic.

Definition reserve (rest : bytes) (size : N) : dechunked :=
  if (N.of_nat (length rest) <? wrapping_add size 2)%N then Violation
  else if (N.of_nat (length rest) <? size)%N then Panic
  else Payload (take (N.to_nat size) rest).
Fixpoint dechunk_loop (fuel : nat) (rest out : bytes) : option dechunked :=
  match fuel with
  | 0 => None
  | S fuel =>
      match find_window crlf rest with
      | None => Some Violation
      | Some line_end =>
          match parse_chunk_size (take line_end rest) with
          | None => Some Violation
          | Some size =>
              let rest := drop (line_end + 2) rest in
              if (size =? 0)%N then Some (Payload out)
              else
                match reserve rest size with
                | Payload data => dechunk_loop fuel (drop (N.to_nat size + 2) rest) (out ++ data)
                | failed => Some failed
                end
          end
      end
  end.
(** Every round takes at least the line's CRLF off the data. *)
Definition dechunk (data : bytes) : dechunked :=
  default Violation (dechunk_loop (S (length data)) data []).

(** [format!("{:X}\r\n", payload.len())] and the payload: the frame minting emits. *)
Definition chunk_frame (payload : bytes) : bytes :=
  hex_upper (N.of_nat (length payload)) ++ crlf ++ payload.

(** [emit_data_chunk]: what one substituted region appends to the output. *)
Definition emit_data_chunk (region : bytes) : bytes :=
  if bool_decide (region = []) then [] else chunk_frame region ++ crlf.

(** ** Heads and trailers as the plugin sees them *)

Definition plugin_header (header : httparse_Header) : PluginHeader :=
  {| ph_name := hd_name header; ph_value := hd_value header |}.
Definition plugin_head_from_parsed (parsed : ParsedHead) (dir : Direction) : PluginHead :=
  let headers := map plugin_header (pr_headers parsed) in
  match dir with
  | Downstream => PRequest (default [] (pr_method parsed)) (default [] (pr_path parsed)) headers
  | Upstream => PResponse (default 0%N (pr_status parsed)) headers
  end.

Definition headers_unchanged (hooked : list PluginHeader) (swapped : list httparse_Header) : bool :=
  (length hooked =? length swapped) &&
  forallb (λ hs, bool_decide (ph_name hs.1 = hd_name hs.2) && bool_decide (ph_value hs.1 = hd_value hs.2))
    (zip hooked swapped).

Definition append_plugin_headers (headers : list PluginHeader) : bytes :=
  concat (map (λ header, ph_name header ++ bs ": " ++ ph_value header ++ crlf) headers).

Definition rebuild_head_if_changed (hooked : PluginHead) (swapped : ParsedHead) (swapped_bytes : bytes)
    (dir : Direction) : option bytes :=
  let first_line := take (default (length swapped_bytes) (find_crlf swapped_bytes)) swapped_bytes in
  let version := if bool_decide (pr_version swapped = Some 0%N) then bs "HTTP/1.0" else bs "HTTP/1.1" in
  match hooked, dir with
  | PRequest method path headers, Downstream =>
      let same_start := bool_decide (Some method = pr_method swapped) && bool_decide (Some path = pr_path swapped) in
      if same_start && headers_unchanged headers (pr_headers swapped) then None
      else
        Some ((if same_start then first_line else method ++ bs " " ++ path ++ bs " " ++ version) ++ crlf ++
              append_plugin_headers headers ++ crlf)
  | PResponse status headers, Upstream =>
      let same_start := bool_decide (Some status = pr_status swapped) in
      if same_start && headers_unchanged headers (pr_headers swapped) then None
      else
        let reason := default [] (pr_reason swapped) in
        let start :=
          if same_start then first_line
          else if bool_decide (reason = []) then version ++ bs " " ++ dec status
          else version ++ bs " " ++ dec status ++ bs " " ++ reason in
        Some (start ++ crlf ++ append_plugin_headers headers ++ crlf)
  | _, _ => None
  end.

Definition trailer_line (line : bytes) : option PluginHeader :=
  let line := strip_cr line in
  if bool_decide (line = []) then None
  else
    colon ← position (λ b, bool_decide (b = Byte.x3a)) line;
    Some {| ph_name := trim (utf8_lossy (take colon line));
            ph_value := drop_while (λ b, bool_decide (b = Byte.x20) || bool_decide (b = Byte.x09)) (drop (colon + 1) line) |}.
Definition parse_trailer_block (block : bytes) : list PluginHeader :=
  omap trailer_line (split_byte LF block).
Definition serialize_trailer_block (headers : list PluginHeader) : bytes :=
  append_plugin_headers headers ++ crlf.

(** ** Framing: what each class means *)

Definition is_te (header : httparse_Header) : Prop :=
  eq_ignore_case (hd_name header) (bs "transfer-encoding") = true.
Definition is_cl (header : httparse_Header) : Prop :=
  eq_ignore_case (hd_name header) (bs "content-length") = true.

(** A coding that names [chunked], parameters aside. *)
Definition names_chunked (coding : bytes) : bool :=
  let coding := trim coding in
  eq_ignore_case (trim (match split_once (bs ";") coding with Some (n, _) => n | None => coding end)) (bs "chunked").
Definition one_chunked (header : httparse_Header) : Prop :=
  utf8_valid (hd_value header) = true ∧
  ∃ coding, split_byte Byte.x2c (hd_value header) = [coding] ∧ names_chunked coding = true.
Definition declares (len : N) (header : httparse_Header) : Prop :=
  utf8_valid (hd_value header) = true ∧ parse_usize (trim (hd_value header)) = Some len.

Lemma te_codings_cons coding codings saw :
  te_codings (coding :: codings) saw = if names_chunked coding && negb saw then te_codings codings true else None.
Proof.
  simpl. fold (names_chunked coding). unfold names_chunked.
  set (name := trim (match split_once _ _ with Some (n, _) => n | None => _ end)).
  destruct (bool_decide_reflect (name = [])) as [->|_]; [done|].
  simpl orb. by destruct (eq_ignore_case name (bs "chunked")), saw.
Qed.

Lemma te_codings_spec codings saw r :
  te_codings codings saw = Some r ↔
  (codings = [] ∧ r = saw) ∨ (saw = false ∧ r = true ∧ ∃ c, codings = [c] ∧ names_chunked c = true).
Proof.
  destruct codings as [|c codings]; [naive_solver|]. rewrite te_codings_cons.
  destruct (names_chunked c) eqn:Hc; simpl.
  2: { split; [done|]. intros [[? _]|(_ & _ & c' & [= <- _] & ?)]; congruence. }
  destruct saw; simpl; [split; [done|naive_solver]|].
  destruct codings as [|c' codings]; [simpl; naive_solver|]. rewrite te_codings_cons, andb_false_r. naive_solver.
Qed.

Lemma te_fields_spec hs saw r :
  te_fields hs saw = Some r ↔
  (filter is_te hs = [] ∧ r = saw) ∨ (saw = false ∧ r = true ∧ ∃ h, filter is_te hs = [h] ∧ one_chunked h).
Proof.
  revert saw. induction hs as [|h hs IH]; intros saw; [simpl; naive_solver|].
  cbn [te_fields]. destruct (eq_ignore_case _ _) eqn:He.
  2: { rewrite filter_cons_False by (unfold is_te; congruence). apply IH. }
  rewrite filter_cons_True by done. cbn [negb].
  destruct (utf8_valid (hd_value h)) eqn:Hu; cbn [negb].
  2: { split; [done|]. intros [[? _]|(_ & _ & h' & [= -> _] & Hone & _)]; [done|congruence]. }
  pose proof (split_byte_nonempty Byte.x2c (hd_value h)) as Hne.
  destruct (te_codings _ saw) as [saw'|] eqn:Hc; simpl.
  - apply te_codings_spec in Hc as [[Hc _]|(-> & -> & c & Hc & Hname)]; [done|].
    rewrite IH. split.
    + intros [[Hnil ->]|(? & _)]; [|done]. right. split_and!; [done..|]. exists h. rewrite Hnil.
      split; [done|]. split; [done|]. by exists c.
    + intros [[? _]|(_ & -> & h' & [= -> Hnil] & _)]; [done|]. by left.
  - split; [done|]. intros [[? _]|(-> & -> & h' & [= -> Hnil] & _ & c & Hsplit & Hname)]; [done|].
    enough (te_codings (split_byte Byte.x2c (hd_value h')) false = Some true) by congruence.
    apply te_codings_spec. right. split_and!; [done..|]. by exists c.
Qed.

Lemma cl_fields_spec hs acc r :
  cl_fields hs acc = Some r ↔
  (filter is_cl hs = [] ∧ r = acc) ∨
  (∃ len, r = Some len ∧ (acc = None ∨ acc = Some len) ∧ filter is_cl hs ≠ [] ∧
          Forall (declares len) (filter is_cl hs)).
Proof.
  revert acc. induction hs as [|h hs IH]; intros acc; [simpl; naive_solver|].
  cbn [cl_fields]. destruct (eq_ignore_case _ _) eqn:He.
  2: { rewrite filter_cons_False by (unfold is_cl; congruence). apply IH. }
  rewrite filter_cons_True by done. cbn [negb].
  destruct (utf8_valid (hd_value h)) eqn:Hu; cbn [negb].
  2: { split; [done|]. intros [[? _]|(len & _ & _ & _ & Hall)]; [done|].
       apply Forall_cons in Hall as [[? _] _]. congruence. }
  destruct (parse_usize _) as [len|] eqn:Hp; simpl.
  2: { split; [done|]. intros [[? _]|(len & _ & _ & _ & Hall)]; [done|].
       apply Forall_cons in Hall as [[_ ?] _]. congruence. }
  assert (declares len h) as Hd by done.
  assert (∀ l', Forall (declares l') (h :: filter is_cl hs) ↔ l' = len ∧ Forall (declares l') (filter is_cl hs)) as Hf.
  { intros l'. rewrite Forall_cons. split; [intros [[_ ?] ?]; split; [congruence|done]|intros [-> ?]; done]. }
  assert (cl_fields hs (Some len) = Some r ↔ r = Some len ∧ Forall (declares len) (filter is_cl hs)) as Hrest.
  { rewrite IH. split.
    - intros [[-> ->]|(l' & -> & [?|[= ->]] & _ & ?)]; [by split; [|constructor]|done..].
    - intros [-> Hall]. destruct (filter is_cl hs) eqn:Hfil; [by left|]. right. exists len. naive_solver. }
  destruct acc as [existing|].
  - destruct (N.eqb_spec existing len) as [->|Hne].
    + rewrite Hrest. setoid_rewrite Hf. naive_solver.
    + split; [done|]. setoid_rewrite Hf. naive_solver.
  - rewrite Hrest. setoid_rewrite Hf. naive_solver.
Qed.

(** Framing is unambiguous or refused: a length is used exactly when every
    [Content-Length] field declares it and no [Transfer-Encoding] field is
    there; chunked exactly when the one [Transfer-Encoding] field is the single
    coding [chunked] and no length is declared; no framing exactly when neither
    field is there. Anything else, both fields together included, is broken. *)
Theorem framing_unambiguous headers :
  (∀ len, parse_framing headers = FFixed len ↔
    filter is_te headers = [] ∧ filter is_cl headers ≠ [] ∧ Forall (declares len) (filter is_cl headers)) ∧
  (parse_framing headers = FChunked ↔
    filter is_cl headers = [] ∧ ∃ h, filter is_te headers = [h] ∧ one_chunked h) ∧
  (parse_framing headers = FNone ↔ filter is_te headers = [] ∧ filter is_cl headers = []).
Proof.
  unfold parse_framing, parse_transfer_encoding, parse_content_length.
  pose proof (te_fields_spec headers false) as Ht. pose proof (cl_fields_spec headers None) as Hc.
  destruct (te_fields headers false) as [te|].
  2: { assert (filter is_te headers ≠ []) as H1 by (intros H1; by specialize (proj2 (Ht false) (or_introl (conj H1 eq_refl)))).
       assert (∀ h, filter is_te headers = [h] → ¬ one_chunked h) as H2.
       { intros h ??. by specialize (proj2 (Ht true) (or_intror (conj eq_refl (conj eq_refl (ex_intro _ h (conj H H0)))))). }
       split_and!; [intros len|..]; (split; [done|]); [by intros [? _]|intros (_ & h & ? & ?); by destruct (H2 h)|by intros [? _]]. }
  destruct (cl_fields headers None) as [cl|].
  2: { assert (filter is_cl headers ≠ []) as H1 by (intros H1; by specialize (proj2 (Hc None) (or_introl (conj H1 eq_refl)))).
       split_and!; [intros len|..]; (split; [by destruct te|]); [|by intros [? _]|by intros [_ ?]].
       intros (_ & Hne & Hall). exfalso.
       enough (None = Some (Some len)) by done. apply Hc. right. by exists len; split_and!; [|left|..]. }
  destruct (proj1 (Ht te) eq_refl) as [[Hte ->]|(_ & -> & h & Hte & Hone)];
    destruct (proj1 (Hc cl) eq_refl) as [[Hcl ->]|(len & -> & _ & Hne & Hall)];
    clear Ht Hc; split_and!; try intros len'; (split; [intros [=]; subst; eauto|]).
  - by intros (_ & ? & _).
  - intros (_ & h & Hh & _). by rewrite Hte in Hh.
  - done.
  - intros (_ & _ & Hall'). destruct (filter is_cl headers) as [|h hs]; [done|].
    apply Forall_cons in Hall as [[_ H1] _]. apply Forall_cons in Hall' as [[_ H2] _]. congruence.
  - by intros [? _].
  - by intros [_ ?].
  - by intros [? _]; rewrite Hte in *.
  - done.
  - by intros [? _]; rewrite Hte in *.
  - by intros [? _]; rewrite Hte in *.
  - by intros [? _].
  - by intros [? _]; rewrite Hte in *.
Qed.

(** ** The head swap, line by line *)

Definition no_crlf (l : bytes) : Prop := ∀ i, l !! i = Some CR → l !! S i ≠ Some LF.

Lemma no_crlf_cons c l : no_crlf (c :: l) ↔ ¬ (c = CR ∧ head l = Some LF) ∧ no_crlf l.
Proof.
  split.
  - intros H. split.
    + intros [-> Hl]. apply (H 0); [done|]. by destruct l.
    + intros i. apply (H (S i)).
  - intros [H Hl] [|i] Hi; simpl in *; [|by apply Hl].
    intros Hlf. apply H. split; [congruence|]. by destruct l.
Qed.

Lemma split_crlf_single l : no_crlf l → split_crlf l = [l].
Proof.
  induction l as [|c [|d l] IH]; intros H; [done..|].
  apply no_crlf_cons in H as [Hc Hl]. specialize (IH Hl). simpl in *.
  destruct (bool_decide_reflect (c = Byte.x0d)) as [->|]; simpl.
  - destruct (bool_decide_reflect (d = Byte.x0a)) as [->|]; [by destruct Hc|]. by rewrite IH.
  - by rewrite IH.
Qed.

Lemma split_crlf_app l r : no_crlf l → split_crlf (l ++ crlf ++ r) = l :: split_crlf r.
Proof.
  induction l as [|c l IH]; intros H; [done|]. apply no_crlf_cons in H as [Hc Hl]. specialize (IH Hl).
  destruct l as [|d l].
  - simpl in IH |- *. rewrite andb_false_r. by destruct c.
  - simpl in IH |- *. rewrite IH.
    destruct (bool_decide_reflect (c = Byte.x0d)) as [->|]; simpl; [|done].
    destruct (bool_decide_reflect (d = Byte.x0a)) as [->|]; [by destruct Hc|done].
Qed.

Lemma split_join ls : ls ≠ [] → Forall no_crlf ls → split_crlf (join crlf ls) = ls.
Proof.
  induction ls as [|l [|l' ls] IH]; intros Hne Hall; [done|..]; apply Forall_cons in Hall as [Hl Hls].
  - by apply split_crlf_single.
  - change (join crlf (l :: l' :: ls)) with (l ++ crlf ++ join crlf (l' :: ls)).
    rewrite split_crlf_app by done. f_equal. by apply IH.
Qed.

Lemma split_crlf_nonempty l : split_crlf l ≠ [].
Proof. destruct l as [|c [|d l]]; [done..|]. simpl. repeat case_match; done. Qed.

Lemma no_crlf_split l : Forall no_crlf (split_crlf l) ∧ (∀ p ps, split_crlf l = p :: ps → head p = None ∨ head p = head l).
Proof.
  induction l as [l IH] using (well_founded_induction (well_founded_ltof _ length)). unfold ltof in IH.
  assert (no_crlf []) as Hnil by (by intros i).
  destruct l as [|c [|d l]].
  - split; [by repeat constructor|]. intros p ps [= <- <-]. by left.
  - split; [|intros p ps [= <- <-]; by right]. simpl. constructor; [|constructor].
    apply no_crlf_cons. split; [by intros [_ ?]|done].
  - simpl. destruct (bool_decide (c = Byte.x0d) && bool_decide (d = Byte.x0a)) eqn:E.
    + split; [|intros p ps [= <- <-]; by left]. constructor; [done|]. apply (IH l). simpl. lia.
    + destruct (IH (d :: l)) as [Hall Hhd]; [simpl; lia|].
      simpl in Hall, Hhd.
      destruct (match l with | [] => [[d]] | _ => _ end) as [|p ps] eqn:Hs.
      * split; [|intros p ps [= <- <-]; by right]. repeat constructor. apply no_crlf_cons. split; [by intros [_ ?]|done].
      * apply Forall_cons in Hall as [Hp Hps]. split; [|intros ?? [= <- <-]; by right].
        constructor; [|done]. apply no_crlf_cons. split; [|done]. intros [-> Hl].
        destruct (Hhd p ps eq_refl) as [Hh|Hh]; [congruence|]. rewrite Hh in Hl. simpl in Hl.
        injection Hl as ->. done.
Qed.

Section HeadSwap.
Context `{!Base64}.

(** Both passes on one line: the Basic re-encoding for every pair, then the
    byte replacement, which leaves a [Host] line alone. *)
Definition basic_pass (pairs : list CredentialPair) (line : bytes) : bytes :=
  foldl (λ line pair,
    if negb (utf8_valid (cp_needle pair)) || negb (utf8_valid (cp_replacement pair)) then line
    else (basic_line (cp_needle pair) (cp_replacement pair) line).1) line pairs.
Definition byte_pass (pairs : list CredentialPair) (line : bytes) : bytes :=
  (replace_in line pairs Header).1.
Definition swap_line (pairs : list CredentialPair) (line : bytes) : bytes :=
  let line := basic_pass pairs line in
  if field_is (bs "host") line then line else utf8_lossy (byte_pass pairs line).

Lemma line_steps_fst n pairs line replaced :
  (foldl line_step (line, replaced) (imap (λ i p, (n + i, p)) pairs)).1 =
  (foldl (replace_step Header) (line, []) pairs).1.
Proof.
  generalize (@nil Hit) as hits. revert n line replaced.
  induction pairs as [|p pairs IH]; intros n line replaced hits; [done|].
  simpl. rewrite Nat.add_0_r.
  rewrite (imap_ext _ (λ i p, (S n + i, p))) by (intros; simpl; by rewrite Nat.add_succ_r).
  unfold line_step at 2, replace_step at 2. simpl. destruct (replace_bytes line _ _); simpl; apply (IH (S n)).
Qed.

Lemma byte_pass_lines pairs lines replaced done_ :
  (foldl (substitute_line pairs) (done_, replaced) lines).1 =
  done_ ++ map (λ line, if field_is (bs "host") line then line else utf8_lossy (byte_pass pairs line)) lines.
Proof.
  revert done_ replaced. induction lines as [|line lines IH]; intros done_ replaced; [by rewrite app_nil_r|].
  cbn [foldl map]. unfold substitute_line at 2. cbn [fst snd].
  destruct (field_is _ line); [by rewrite IH, <- app_assoc|].
  pose proof (line_steps_fst 0 pairs line replaced) as Hs. simpl in Hs.
  destruct (foldl line_step _ _) as [buf replaced'] eqn:E.
  assert (byte_pass pairs line = buf) as <-.
  { unfold byte_pass, replace_in. by rewrite <- Hs. }
  by rewrite IH, <- app_assoc.
Qed.

Lemma no_crlf_take i l : no_crlf l → no_crlf (take i l).
Proof.
  intros Hc j Hj. destruct (decide (j < i)) as [Hlt|]; [|by rewrite lookup_take_ge in Hj by lia].
  rewrite lookup_take_lt in Hj by done. destruct (decide (S j < i)); [|by rewrite lookup_take_ge by lia].
  rewrite lookup_take_lt by done. by apply Hc.
Qed.

Lemma no_crlf_app a b : no_crlf a → Forall (λ c, c ≠ CR) b → head b ≠ Some LF → no_crlf (a ++ b).
Proof.
  intros Ha Hb Hh. induction a as [|c a IH]; simpl.
  - intros i Hi. apply list_elem_of_lookup_2 in Hi. rewrite Forall_forall in Hb. by destruct (Hb _ Hi).
  - apply no_crlf_cons in Ha as [Hc Ha]. apply no_crlf_cons. split; [|by apply IH].
    intros [-> Hl]. destruct a as [|d a]; [done|]. by apply Hc.
Qed.

Lemma basic_line_no_crlf `{!Base64Laws} n r line : no_crlf line → no_crlf (basic_line n r line).1.
Proof.
  intros Hc. unfold basic_line. destruct (split_colon line) as [[name value]|] eqn:Hs; [|done].
  repeat case_match; try done. simpl.
  unfold split_colon, split_once in Hs. destruct (find_window _ line) as [i|]; [|done].
  simplify_eq/=. apply no_crlf_app; [by apply no_crlf_take| |done].
  do 8 (constructor; [done|]). apply b64_no_cr.
Qed.

Lemma basic_line_host n r line : field_is (bs "host") line = true → basic_line n r line = (line, false).
Proof.
  unfold field_is, basic_line. destruct (split_colon line) as [[name value]|]; [|done].
  rewrite !eq_ignore_case_spec. intros Hn.
  destruct (eq_ignore_case name (bs "authorization")) eqn:He; [|done].
  apply eq_ignore_case_spec in He. rewrite He in Hn. by vm_compute in Hn.
Qed.

Lemma basic_step_lines `{!Base64Laws} lines hits pair :
  lines ≠ [] → Forall no_crlf lines →
  (basic_step (join crlf lines, hits) pair).1 = join crlf (map (basic_pass [pair]) lines) ∧
  Forall no_crlf (map (basic_pass [pair]) lines).
Proof.
  intros Hne Hall. unfold basic_step, basic_pass, substitute_basic_lines. cbn [foldl fst snd].
  destruct (_ || _); [by rewrite map_id|].
  rewrite split_join, map_map by done. cbn [fst snd]. split; [done|].
  apply Forall_map. eapply Forall_impl; [exact Hall|]. intros l Hl. by apply basic_line_no_crlf.
Qed.

Lemma basic_steps_lines `{!Base64Laws} pairs lines hits :
  lines ≠ [] → Forall no_crlf lines →
  (foldl basic_step (join crlf lines, hits) pairs).1 = join crlf (map (basic_pass pairs) lines) ∧
  Forall no_crlf (map (basic_pass pairs) lines).
Proof.
  revert lines hits. induction pairs as [|p pairs IH]; intros lines hits Hne Hall.
  { by rewrite map_id. }
  destruct (basic_step_lines lines hits p Hne Hall) as [Heq Hall'].
  cbn [foldl]. destruct (basic_step _ p) as [cur hits']. cbn [fst] in Heq. subst cur.
  replace (map (basic_pass (p :: pairs)) lines) with (map (basic_pass pairs) (map (basic_pass [p]) lines))
    by (rewrite map_map; done).
  apply IH; [by destruct lines|done].
Qed.

Lemma join_split l : join crlf (split_crlf l) = l.
Proof.
  induction l as [l IH] using (well_founded_induction (well_founded_ltof _ length)). unfold ltof in IH.
  assert (∀ p ps, join crlf (p :: ps) = p ++ match ps with [] => [] | _ => crlf ++ join crlf ps end) as Hj.
  { intros p [|q ps]; simpl; [by rewrite app_nil_r|done]. }
  destruct l as [|c [|d l]]; [done..|]. simpl.
  destruct (bool_decide_reflect (c = Byte.x0d)) as [->|]; simpl.
  1: destruct (bool_decide_reflect (d = Byte.x0a)) as [->|]; simpl.
  - pose proof (split_crlf_nonempty l). destruct (split_crlf l) as [|p ps] eqn:E; [done|].
    rewrite <- E, IH by (simpl; lia). done.
  - specialize (IH (d :: l) ltac:(simpl; lia)). simpl in IH.
    destruct (match l with | [] => [[d]] | _ => _ end) as [|p ps]; [done|]. by rewrite Hj in IH |- *; rewrite <- IH.
  - specialize (IH (d :: l) ltac:(simpl; lia)). simpl in IH.
    destruct (match l with | [] => [[d]] | _ => _ end) as [|p ps]; [done|]. by rewrite Hj in IH |- *; rewrite <- IH.
Qed.

Lemma byte_pass_absent pairs line :
  Forall (λ p, ¬ occurs (cp_needle p) line) pairs → byte_pass pairs line = line.
Proof.
  unfold byte_pass, replace_in. generalize (@nil Hit) as hits.
  induction pairs as [|p pairs IH]; intros hits Hall; [done|].
  apply Forall_cons in Hall as [Hp Hall]. cbn [foldl]. unfold replace_step at 2. cbn [fst snd].
  destruct (decide (cp_needle p = [])) as [He|Hne].
  - rewrite He. simpl. by apply IH.
  - destruct (replace_bytes_subst _ (cp_replacement p) Hne line) as [_ Hno]. rewrite Hno by done. by apply IH.
Qed.

Lemma basic_pass_other pairs line :
  field_is (bs "authorization") line = false → basic_pass pairs line = line.
Proof.
  intros Hf. unfold basic_pass. induction pairs as [|p pairs IH]; [done|]. cbn [foldl].
  replace (if _ || _ then line else _) with line; [done|].
  destruct (_ || _); [done|]. unfold basic_line. unfold field_is in Hf.
  destruct (split_colon line) as [[name value]|]; [by rewrite Hf|done].
Qed.

Lemma swap_line_host pairs line : field_is (bs "host") line = true → swap_line pairs line = line.
Proof.
  intros Hl. enough (basic_pass pairs line = line) as Hb by (unfold swap_line; by rewrite Hb, Hl).
  unfold basic_pass. induction pairs as [|p pairs IH]; [done|]. cbn [foldl].
  destruct (_ || _); [done|]. by rewrite basic_line_host.
Qed.

(** The passes over a head are one function of its lines: first every
    [Authorization: Basic] value is decoded, swapped and re-encoded, then every
    line but [Host] has its bytes replaced; no line is added, dropped or moved.
    A [Host] line, which the routing went by, is emitted as it came, and so is
    every line that is no [Authorization] field and holds no needle. *)
Theorem head_swap_per_line `{!Base64Laws} head pairs :
  (substitute_head head pairs).1 = join crlf (map (swap_line pairs) (split_crlf head)) ∧
  (∀ line, field_is (bs "host") line = true → swap_line pairs line = line) ∧
  (∀ line, utf8_valid line = true → field_is (bs "authorization") line = false →
     Forall (λ p, ¬ occurs (cp_needle p) line) pairs → swap_line pairs line = line).
Proof.
  split_and!.
  - destruct (basic_steps_lines pairs (split_crlf head) [] (split_crlf_nonempty _) (proj1 (no_crlf_split _))) as [Hb Hn].
    rewrite join_split in Hb. unfold substitute_head.
    destruct (foldl basic_step _ pairs) as [current hits]. cbn [fst] in Hb. subst current.
    rewrite split_join; [|by destruct (split_crlf head) eqn:E; [apply split_crlf_nonempty in E|]|done].
    pose proof (byte_pass_lines pairs (map (basic_pass pairs) (split_crlf head)) (replicate (length pairs) false) []) as Hl.
    destruct (foldl (substitute_line pairs) _ _) as [lines replaced]. cbn [fst] in Hl |- *. subst lines.
    by rewrite map_map.
  - intros line. apply swap_line_host.
  - intros line Hu Ha Hp. unfold swap_line. cbv zeta. rewrite basic_pass_other, byte_pass_absent, utf8_lossy_valid by done.
    by case_match.
Qed.
End HeadSwap.

(** ** Chunked bodies: what is framed is read back *)

Lemma hex_char_plain b : hex_char b = true → b ≠ CR ∧ b ≠ Byte.x3b ∧ is_ascii_ws b = false ∧ (u8 b < 128)%N.
Proof. destruct b; vm_compute; done. Qed.

Lemma drop_while_none {A} (p : A → bool) l : Forall (λ x, p x = false) l → drop_while p l = l.
Proof. destruct 1 as [|x l Hx _]; [done|]. simpl. by rewrite Hx. Qed.

Lemma parse_chunk_size_hex n : (n ≤ usize_max)%N → parse_chunk_size (hex_upper n) = Some n.
Proof.
  intros Hn. pose proof (hex_digits n) as Hd.
  assert (∀ P : byte → Prop, (∀ b, hex_char b = true → P b) → Forall P (hex_upper n)) as Hall.
  { intros P HP. eapply Forall_impl; [exact Hd|]. exact HP. }
  unfold parse_chunk_size. rewrite split_byte_none by (apply Hall; intros; by apply hex_char_plain).
  cbn [head default from_option id].
  assert (trim_ascii (hex_upper n) = hex_upper n) as ->.
  { unfold trim_ascii. rewrite !drop_while_none; [apply rev_involutive|..]; try apply Forall_rev;
      rewrite ?drop_while_none; apply Hall; intros; by apply hex_char_plain. }
  pose proof (digits_go_nonempty (N.to_nat (N.size n)) 16 n []) as Hne. fold (to_digits 16 n) in Hne. fold (hex_upper n) in Hne.
  rewrite bool_decide_eq_false_2 by (intros He; rewrite He in Hne; simpl in Hne; lia).
  rewrite utf8_valid_ascii by (apply Hall; intros; by apply hex_char_plain).
  by apply from_str_radix_to_digits.
Qed.

(** A body of chunks, as the machine frames them, and its terminator. *)
Definition enchunk (payloads : list bytes) : bytes := concat (map emit_data_chunk payloads).
Definition chunk_end : bytes := bs "0" ++ crlf ++ crlf.

Definition sized (payload : bytes) : Prop := (N.of_nat (length payload) + 2 ≤ usize_max)%N.

Lemma dechunk_loop_frames fuel payloads out x :
  Forall sized payloads → length payloads < fuel →
  dechunk_loop fuel (enchunk payloads ++ bs "0" ++ crlf ++ x) out = Some (Payload (out ++ concat payloads)).
Proof.
  revert fuel out. induction payloads as [|p ps IH]; intros fuel out Hs Hf; (destruct fuel as [|fuel]; [lia|]).
  - cbn [enchunk map concat app]. cbn [dechunk_loop].
    change (bs "0" ++ crlf ++ x) with (hex_upper 0 ++ crlf ++ x).
    rewrite find_crlf_first by (eapply Forall_impl; [apply hex_digits|]; intros; by apply hex_char_plain).
    rewrite take_app_length, parse_chunk_size_hex by done. by rewrite app_nil_r.
  - apply Forall_cons in Hs as [Hp Hps]. unfold enchunk. cbn [map concat].
    destruct (decide (p = [])) as [->|Hne]; [by apply IH; [|simpl in Hf; lia]|].
    unfold emit_data_chunk at 1. rewrite bool_decide_eq_false_2 by done. unfold chunk_frame.
    cbn [dechunk_loop]. rewrite <- !app_assoc.
    rewrite find_crlf_first by (eapply Forall_impl; [apply hex_digits|]; intros; by apply hex_char_plain).
    rewrite take_app_length. unfold sized in Hp. rewrite parse_chunk_size_hex by lia.
    rewrite (proj2 (N.eqb_neq _ _)) by (destruct p; [done|simpl; lia]).
    set (n := length (hex_upper (N.of_nat (length p)))).
    set (rest := p ++ crlf ++ concat (map emit_data_chunk ps) ++ bs "0" ++ crlf ++ x).
    assert (drop (n + 2) (hex_upper (N.of_nat (length p)) ++ crlf ++ rest) = rest) as ->.
    { rewrite drop_app_ge by (unfold n; lia). fold n. replace (n + 2 - n) with 2 by lia. done. }
    assert (length p + 2 ≤ length rest) as Hlen by (unfold rest; rewrite !length_app; simpl; lia).
    unfold reserve. rewrite wrapping_add_small by (unfold usize_mod, usize_max in *; lia).
    rewrite (proj2 (N.ltb_ge _ _)), (proj2 (N.ltb_ge _ _)) by lia.
    assert (drop (length p + 2) rest = enchunk ps ++ bs "0" ++ crlf ++ x) as Hdrop.
    { unfold rest. rewrite drop_app_ge by lia. replace (length p + 2 - length p) with 2 by lia. done. }
    rewrite Nat2N.id, Hdrop. unfold rest. rewrite take_app_length, IH; [|done|simpl in Hf; lia]. by rewrite <- app_assoc.
Qed.

Lemma enchunk_cons p ps : enchunk (p :: ps) = emit_data_chunk p ++ enchunk ps.
Proof. done. Qed.

Lemma length_enchunk ps : Forall (λ p, p ≠ []) ps → 3 * length ps ≤ length (enchunk ps).
Proof.
  induction 1 as [|p ps Hp _ IH]; [simpl; lia|]. rewrite enchunk_cons, length_app. unfold emit_data_chunk.
  rewrite bool_decide_eq_false_2 by done. unfold chunk_frame. rewrite !length_app. simpl. destruct p; [done|simpl; lia].
Qed.

Lemma enchunk_filter ps :
  enchunk ps = enchunk (filter (λ p, p ≠ []) ps) ∧ concat ps = concat (filter (λ p, p ≠ []) ps).
Proof.
  induction ps as [|p ps [IH1 IH2]]; [done|]. rewrite filter_cons. rewrite enchunk_cons. cbn [concat].
  destruct (decide (p ≠ [])) as [Hp|Hp].
  - rewrite enchunk_cons. cbn [concat]. by rewrite IH1, IH2.
  - destruct p; [by rewrite <- IH1, <- IH2|by destruct Hp].
Qed.

(** De-chunking inverts framing. *)
Lemma dechunk_enchunk ps x : Forall sized ps → dechunk (enchunk ps ++ bs "0" ++ crlf ++ x) = Payload (concat ps).
Proof.
  intros Hs. destruct (enchunk_filter ps) as [-> ->]. set (qs := filter (λ p, p ≠ []) ps).
  assert (Forall (λ p, p ≠ []) qs) as Hne by (apply Forall_forall; intros p Hp; by apply list_elem_of_filter in Hp as [? _]).
  assert (Forall sized qs) as Hsq.
  { rewrite Forall_forall in Hs |- *. intros p Hp. apply list_elem_of_filter in Hp as [_ Hp]. by apply Hs. }
  pose proof (length_enchunk qs Hne). unfold dechunk.
  rewrite dechunk_loop_frames; [done|done|rewrite length_app; lia].
Qed.

Lemma sized_concat ps : sized (concat ps) → Forall sized ps.
Proof.
  unfold sized. induction ps as [|p ps IH]; intros Hs; [constructor|]. cbn [concat] in Hs. rewrite length_app in Hs.
  constructor; [lia|]. apply IH. lia.
Qed.

(** ** The minted head *)

(** What the [Content-Length] line of a head declares. *)
Definition declared_length (line : bytes) : option N :=
  '(name, value) ← split_colon line;
  if eq_ignore_case name (bs "content-length") then parse_usize (trim value) else None.

Definition length_field (len : nat) : bytes := bs "Content-Length: " ++ dec (N.of_nat len).

Lemma length_field_declares len :
  (N.of_nat len ≤ usize_max)%N → declared_length (length_field len) = Some (N.of_nat len) ∧ no_crlf (length_field len).
Proof.
  intros Hl. split.
  - unfold declared_length.
    assert (split_colon (length_field len) = Some (bs "Content-Length", bs " " ++ dec (N.of_nat len))) as ->.
    { unfold split_colon, split_once. rewrite find_window_1. reflexivity. }
    cbn [mbind option_bind]. rewrite trim_space_dec. by apply parse_usize_dec.
  - rewrite <- (app_nil_l (length_field len)). apply no_crlf_app; [by intros i| |done].
    apply Forall_app. split; [by repeat constructor|]. eapply Forall_impl; [apply dec_digits|].
    intros b Hb ->. by vm_compute in Hb.
Qed.

(** The head of a minted response tells the truth: its lines are the lines
    the server sent, except that every [Content-Length] line declares the
    length of the body that now follows, so the decoys may change its length. *)
Theorem minted_head_tells_length head len :
  utf8_valid head = true → find_header_boundary head = Some (length head) →
  Exists (λ line, field_is (bs "content-length") line = true) (split_crlf head) →
  (N.of_nat len ≤ usize_max)%N →
  split_crlf (rewrite_content_length head len) =
    map (λ line, if field_is (bs "content-length") line then length_field len else line) (split_crlf head) ∧
  declared_length (length_field len) = Some (N.of_nat len) ∧
  Forall (λ line, field_is (bs "content-length") line = true → declared_length line = Some (N.of_nat len))
    (split_crlf (rewrite_content_length head len)).
Proof.
  intros Hu Hb Hex Hl. destruct (length_field_declares len Hl) as [Hd Hn].
  assert (split_crlf (rewrite_content_length head len) =
    map (λ line, if field_is (bs "content-length") line then length_field len else line) (split_crlf head)) as He.
  { unfold rewrite_content_length. rewrite Hb. cbn [default from_option id].
    rewrite firstn_all, utf8_lossy_valid by done. fold (length_field len). cbv zeta.
    assert (existsb (field_is (bs "content-length")) (split_crlf head) = true) as ->.
    { apply existsb_exists. apply Exists_exists in Hex as (line & Hin & Hf). exists line. by rewrite <- list_elem_of_In. }
    apply split_join; [by destruct (split_crlf head) eqn:E; [apply split_crlf_nonempty in E|]|].
    apply Forall_map. eapply Forall_impl; [apply no_crlf_split|]. intros line Hline. cbn beta. by case_match. }
  split_and!; [done|done|]. rewrite He. apply Forall_map, Forall_forall. intros line _ Hf.
  cbn beta in *. destruct (field_is _ line) eqn:E; [done|congruence].
Qed.

(** ** Concrete libraries, for the witnesses *)

Definition sample_fields (lines : list bytes) : list httparse_Header :=
  omap (λ line, '(name, value) ← split_colon line; Some {| hd_name := name; hd_value := trim value |}) lines.
Definition sample_httparse : HttpParse := {|
  request_parse _ text :=
    match split_crlf text with
    | start :: lines =>
        match split_byte Byte.x20 start with
        | [method; path; _] =>
            Some {| rq_method := Some method; rq_path := Some path; rq_version := Some 1%N; rq_headers := sample_fields lines |}
        | _ => None
        end
    | [] => None
    end;
  response_parse _ text :=
    match split_crlf text with
    | start :: lines =>
        match split_byte Byte.x20 start with
        | _ :: code :: reason =>
            code ← parse_usize code;
            Some {| rs_version := Some 1%N; rs_code := Some code; rs_reason := head reason; rs_headers := sample_fields lines |}
        | _ => None
        end
    | [] => None
    end;
|}.

(** Two hexadecimal digits per byte. *)
Fixpoint sample_decode (l : bytes) : option bytes :=
  match l with
  | a :: b :: l =>
      hi ← digit_value 16 a; lo ← digit_value 16 b; rest ← sample_decode l; Some (byte_of (hi * 16 + lo) :: rest)
  | [] => Some []
  | [_] => None
  end.
Definition sample_base64 : Base64 := {|
  b64_decode := sample_decode;
  b64_encode l := concat (map (λ b, [digit_char (u8 b / 16); digit_char (u8 b mod 16)]) l);
|}.

Lemma sample_base64_laws : @Base64Laws sample_base64.
Proof.
  split; cbn [b64_decode b64_encode sample_base64].
  - induction l as [|b l IH]; [done|]. cbn [map concat app sample_decode].
    assert (digit_value 16 (digit_char (u8 b / 16)) = Some (u8 b / 16)%N ∧
            digit_value 16 (digit_char (u8 b mod 16)) = Some (u8 b mod 16)%N ∧
            byte_of (u8 b / 16 * 16 + u8 b mod 16) = b) as (-> & -> & Hb) by (destruct b; vm_compute; done).
    cbn [mbind option_bind]. rewrite IH. cbn [mbind option_bind]. by rewrite Hb.
  - induction l as [|b l IH]; [constructor|]. cbn [map concat app].
    assert (digit_char (u8 b / 16) ≠ CR ∧ digit_char (u8 b mod 16) ≠ CR) as [? ?] by (destruct b; vm_compute; done).
    by repeat constructor.
Qed.

Lemma head_swap_per_line_witness :
  let _ := sample_base64 in
  let p := {| cp_needle := bs "decoy"; cp_replacement := bs "secret"; cp_label := bs "t" |} in
  let head := bs "GET / HTTP/1.1" ++ crlf ++ bs "Host: decoy.test" ++ crlf ++ bs "X-Key: decoy" ++ crlf ++ crlf in
  (substitute_head head [p]).1 =
  bs "GET / HTTP/1.1" ++ crlf ++ bs "Host: decoy.test" ++ crlf ++ bs "X-Key: secret" ++ crlf ++ crlf.
Proof.
  intros b p head.
  etrans; [exact (proj1 (@head_swap_per_line sample_base64 sample_base64_laws head [p]))|]. by vm_compute.
Defined.

Lemma minted_head_tells_length_witness :
  let head := bs "HTTP/1.1 200 OK" ++ crlf ++ bs "content-length: 3" ++ crlf ++ crlf in
  split_crlf (rewrite_content_length head 12) = [bs "HTTP/1.1 200 OK"; bs "Content-Length: 12"; []; []].
Proof.
  intros head. destruct (minted_head_tells_length head 12) as [-> _].
  - by vm_compute.
  - by vm_compute.
  - apply Exists_exists. exists (bs "content-length: 3"). split; [|by vm_compute]. right. left.
  - by vm_compute.
  - by vm_compute.
Defined.
