(* ===== verification/HttpMachine.v ===== *)
(** * The HTTP/1 machine

    [crates/hodor-proxy/src/transports/http/machine.rs], the struct [Http]: one
    direction of one connection as a state machine over arriving chunks. Heads
    are buffered to their boundary and swapped, bodies stream through the
    hold-back window or are scanned, token responses are buffered to be minted.

    The shared mint store is the field [ht_mint]: its contents at the moment
    of the call, which other connections may replace between two calls. *)

From S2P Require Import Prelude Decoy ConnString Grants Mint Engine HttpHead.

Inductive State := SHead | SFixed | SChunked | SScan | SDrain | SOpaque | SCloseDelimited | SMintBody.

Inductive ChunkPhase := CSizeLine | CData | CAfterData | CTrailers | CBroken.

Inductive BodyMode := Substitute | ScanOnly.

#[export] Instance State_eq_decision : EqDecision State.
Proof. solve_decision. Defined.
#[export] Instance ChunkPhase_eq_decision : EqDecision ChunkPhase.
Proof. solve_decision. Defined.
#[export] Instance BodyMode_eq_decision : EqDecision BodyMode.
Proof. solve_decision. Defined.

Record Http `{!RewriteHook} := {
  ht_pairs : list CredentialPair;
  ht_dir : Direction;
  ht_state : State;
  ht_head_buf : bytes;
  ht_raw_held : bytes;
  ht_line_buf : bytes;
  ht_trailer_buf : bytes;
  ht_chunk_phase : ChunkPhase;
  ht_data_remaining : N;
  ht_scan_tail : bytes;
  ht_tail_size : nat;
  ht_fixed_remaining : N;
  ht_body_mode : BodyMode;
  ht_scan_remaining : N;
  ht_head_requests : nat;
  ht_suppress_body : nat;
  ht_must_close : bool;
  ht_hook : option hook_state;
  ht_static_pairs : list CredentialPair;
  ht_mint : option MintStore;
  ht_mint_plan : option MintPlan;
  ht_mint_head : bytes;
  ht_mint_body : bytes;
  ht_mint_remaining : option N;
}.
Arguments Http {_}.

(** What a call does: it returns, it panics, or the model's fuel is out. *)
Inductive ran (A : Type) := Ran (a : A) | Panicked | NoFuel.
Arguments Ran {_} _.
Arguments Panicked {_}.
Arguments NoFuel {_}.

(** One state step's outcome: remaining input, or spilled bytes to loop on. *)
Inductive Step := Rest (rest : bytes) | Spill (bytes : bytes).

(** How one line of chunked framing leaves its loop. *)
Inductive Flow := Continue | ReturnRest | ReturnEmpty.

Section Setters.
Context `{!RewriteHook}.

(** The record spelled out, so that [set_field] can abstract one field of it. *)
Definition Http_eta (m : Http) : Http :=
  Build_Http _ (ht_pairs m) (ht_dir m) (ht_state m) (ht_head_buf m) (ht_raw_held m) (ht_line_buf m)
    (ht_trailer_buf m) (ht_chunk_phase m) (ht_data_remaining m) (ht_scan_tail m) (ht_tail_size m)
    (ht_fixed_remaining m) (ht_body_mode m) (ht_scan_remaining m) (ht_head_requests m) (ht_suppress_body m)
    (ht_must_close m) (ht_hook m) (ht_static_pairs m) (ht_mint m) (ht_mint_plan m) (ht_mint_head m)
    (ht_mint_body m) (ht_mint_remaining m).

Definition set_pairs (m : Http) (v : list CredentialPair) : Http := ltac:(set_field Http_eta ht_pairs m v).
Definition set_state (m : Http) (v : State) : Http := ltac:(set_field Http_eta ht_state m v).
Definition set_head_buf (m : Http) (v : bytes) : Http := ltac:(set_field Http_eta ht_head_buf m v).
Definition set_raw_held (m : Http) (v : bytes) : Http := ltac:(set_field Http_eta ht_raw_held m v).
Definition set_line_buf (m : Http) (v : bytes) : Http := ltac:(set_field Http_eta ht_line_buf m v).
Definition set_trailer_buf (m : Http) (v : bytes) : Http := ltac:(set_field Http_eta ht_trailer_buf m v).
Definition set_chunk_phase (m : Http) (v : ChunkPhase) : Http := ltac:(set_field Http_eta ht_chunk_phase m v).
Definition set_data_remaining (m : Http) (v : N) : Http := ltac:(set_field Http_eta ht_data_remaining m v).
Definition set_scan_tail (m : Http) (v : bytes) : Http := ltac:(set_field Http_eta ht_scan_tail m v).
Definition set_tail_size (m : Http) (v : nat) : Http := ltac:(set_field Http_eta ht_tail_size m v).
Definition set_fixed_remaining (m : Http) (v : N) : Http := ltac:(set_field Http_eta ht_fixed_remaining m v).
Definition set_body_mode (m : Http) (v : BodyMode) : Http := ltac:(set_field Http_eta ht_body_mode m v).
Definition set_scan_remaining (m : Http) (v : N) : Http := ltac:(set_field Http_eta ht_scan_remaining m v).
Definition set_head_requests (m : Http) (v : nat) : Http := ltac:(set_field Http_eta ht_head_requests m v).
Definition set_suppress_body (m : Http) (v : nat) : Http := ltac:(set_field Http_eta ht_suppress_body m v).
Definition set_must_close (m : Http) (v : bool) : Http := ltac:(set_field Http_eta ht_must_close m v).
Definition set_hook (m : Http) (v : option hook_state) : Http := ltac:(set_field Http_eta ht_hook m v).
Definition set_mint (m : Http) (v : option MintStore) : Http := ltac:(set_field Http_eta ht_mint m v).
Definition set_mint_head (m : Http) (v : bytes) : Http := ltac:(set_field Http_eta ht_mint_head m v).
Definition set_mint_body (m : Http) (v : bytes) : Http := ltac:(set_field Http_eta ht_mint_body m v).
Definition set_mint_remaining (m : Http) (v : option N) : Http := ltac:(set_field Http_eta ht_mint_remaining m v).
End Setters.

Section Machine.
Context `{!Digests, !JsonCrate, !HttpParse, !Base64, !RewriteHook}.

(** ** Construction and pairs *)

Definition refresh_minted_pairs (m : Http) : Http :=
  match ht_mint m with
  | None => m
  | Some mint =>
      let pairs := ht_static_pairs m ++ minted_pairs mint (ht_dir m) in
      set_pairs (set_tail_size m (max_tail_size pairs)) pairs
  end.

Definition Http_new (grants : list Grant) (scheme : Scheme) (host : bytes) (port : N) (dir : Direction)
    (hook : option hook_state) (mint : option MintStore) : Http :=
  let static_pairs := eligible_pairs grants scheme host port dir in
  let mint_plan := match dir with Upstream => mint_plan_for grants scheme host port | Downstream => None end in
  refresh_minted_pairs
    {| ht_pairs := static_pairs; ht_dir := dir; ht_state := SHead; ht_head_buf := []; ht_raw_held := [];
       ht_line_buf := []; ht_trailer_buf := []; ht_chunk_phase := CSizeLine; ht_data_remaining := 0;
       ht_scan_tail := []; ht_tail_size := max_tail_size static_pairs; ht_fixed_remaining := 0;
       ht_body_mode := Substitute; ht_scan_remaining := 0; ht_head_requests := 0; ht_suppress_body := 0;
       ht_must_close := false; ht_hook := hook; ht_static_pairs := static_pairs; ht_mint := mint;
       ht_mint_plan := mint_plan; ht_mint_head := []; ht_mint_body := []; ht_mint_remaining := None |}.

(** ** Scanning and failing closed *)

Definition fail_closed_on_degrade (m : Http) : Http :=
  match ht_hook m with Some _ => set_must_close m true | None => m end.

Definition scan_chunk (m : Http) (data : bytes) (location : Location) : list Hit * Http :=
  let '(hits, tail) := scan_with_tail (ht_pairs m) (ht_scan_tail m) (ht_tail_size m) data location in
  (hits, set_scan_tail m tail).

(** [if self.dir == Upstream && !hits.is_empty() { self.must_close = true }]. *)
Definition latch_upstream_hits (m : Http) (hits : list Hit) : Http :=
  match ht_dir m, hits with Upstream, _ :: _ => set_must_close m true | _, _ => m end.

(** Hits found in [data], which is forwarded as it is. *)
Definition forward_scanned (m : Http) (data : bytes) : list Hit * Http :=
  let '(hits, m) := scan_chunk m data Body in
  (hits, latch_upstream_hits m hits).

(** ** The hold-back window and the chunk hook *)

Definition swap_region (m : Http) (data : bytes) (eof : bool) : option (nat * bytes) * list Hit * Http :=
  let combined := ht_raw_held m ++ data in
  let emit_len := if eof then length combined else needle_safe_emit_len combined (ht_pairs m) (ht_tail_size m) in
  let '(region, hits) := replace_in (take emit_len combined) (ht_pairs m) Body in
  let m := set_raw_held m (drop emit_len combined) in
  if bool_decide (region = []) && negb eof then (Some (emit_len, region), hits, m)
  else
    match ht_hook m with
    | None => (Some (emit_len, region), hits, m)
    | Some h =>
        let '(verdict, region, h) := rewrite_chunk h region eof in
        let m := set_hook m (Some h) in
        match verdict with
        | VClose => (None, hits, set_must_close m true)
        | VContinue => (Some (emit_len, region), hits, m)
        end
    end.

(** ** Fixed-length, scanned, drained and close-delimited bodies

    Each step returns (what remains, what it emits, its hits, the machine). *)

Definition step_fixed (m : Http) (rest : bytes) : Step * bytes * list Hit * Http :=
  let n := take_min (ht_fixed_remaining m) rest in
  let m := set_fixed_remaining m (ht_fixed_remaining m - N.of_nat n) in
  let eof := (ht_fixed_remaining m =? 0)%N in
  match swap_region m (take n rest) eof with
  | (None, hits, m) => (Rest [], [], hits, m)
  | (Some (emit_len, region), hits, m) =>
      if negb (length region =? emit_len) then (Rest [], [], hits, set_must_close m true)
      else (Rest (drop n rest), region, hits, if eof then set_state m SHead else m)
  end.

Definition step_scan (m : Http) (rest : bytes) : Step * bytes * list Hit * Http :=
  let n := take_min (ht_scan_remaining m) rest in
  let '(hits, m) := forward_scanned m (take n rest) in
  let m := set_scan_remaining m (ht_scan_remaining m - N.of_nat n) in
  (Rest (drop n rest), take n rest, hits, if (ht_scan_remaining m =? 0)%N then set_state m SHead else m).

Definition step_drain (m : Http) (rest : bytes) : Step * bytes * list Hit * Http :=
  match find_header_boundary rest with
  | None =>
      let '(hits, m) := forward_scanned m rest in
      (Rest [], rest, hits, fail_closed_on_degrade (set_state m SOpaque))
  | Some e =>
      let '(hits, m) := forward_scanned m (take e rest) in
      (Rest (drop e rest), take e rest, hits, set_state m SHead)
  end.

Definition step_close (m : Http) (rest : bytes) : Step * bytes * list Hit * Http :=
  match swap_region m rest false with
  | (Some (_, region), hits, m) => (Rest [], region, hits, m)
  | (None, hits, m) => (Rest [], [], hits, m)
  end.

(** [State::Opaque]: forward and scan for good. *)
Definition step_opaque (m : Http) (rest : bytes) : Step * bytes * list Hit * Http :=
  let '(hits, m) := forward_scanned m rest in
  (Rest [], rest, hits, fail_closed_on_degrade m).

(** ** Chunked bodies *)

Definition finish_chunked_message (m : Http) : Http :=
  set_state (set_chunk_phase (set_data_remaining (set_trailer_buf (set_line_buf m []) []) 0) CSizeLine) SHead.

Definition take_line (m : Http) (rest : bytes) : option (bytes * bytes * Http) :=
  let line := ht_line_buf m in
  if bool_decide (last line = Some CR) && bool_decide (head rest = Some LF) then
    Some (take (length line - 1) line, drop 1 rest, set_line_buf m [])
  else
    rel ← find_crlf rest;
    Some (line ++ take rel rest, drop (rel + 2) rest, set_line_buf m []).

Definition rewrite_trailer_block (m : Http) (block : bytes) : option bytes * list Hit * Http :=
  let '(swapped, hits) := replace_in block (ht_pairs m) Body in
  let headers := parse_trailer_block swapped in
  match headers, ht_hook m with
  | _ :: _, Some h =>
      let '(verdict, headers, h) := rewrite_trailers h headers in
      let m := set_hook m (Some h) in
      match verdict with
      | VClose => (None, hits, set_must_close m true)
      | VContinue => (Some (serialize_trailer_block headers), hits, m)
      end
  | _, _ => (Some (serialize_trailer_block headers), hits, m)
  end.

(** One complete line in [ChunkPhase::SizeLine]. *)
Definition size_line (m : Http) (line : bytes) : Flow * bytes * list Hit * Http :=
  match parse_chunk_size line with
  | Some 0%N =>
      match ht_body_mode m with
      | ScanOnly => (ReturnRest, line ++ crlf ++ crlf, [], finish_chunked_message m)
      | Substitute =>
          match swap_region m [] true with
          | (None, hits, m) => (ReturnEmpty, [], hits, m)
          | (Some (_, region), hits, m) =>
              (Continue, emit_data_chunk region ++ bs "0" ++ crlf, hits, set_chunk_phase m CTrailers)
          end
      end
  | Some size =>
      (Continue, match ht_body_mode m with ScanOnly => line ++ crlf | Substitute => [] end, [],
       set_chunk_phase (set_data_remaining m size) CData)
  | None =>
      let '(hits, m) := forward_scanned m line in
      (Continue, line ++ crlf, hits, set_chunk_phase m CBroken)
  end.

(** One complete line in [ChunkPhase::Trailers]. *)
Definition trailers_line (m : Http) (line : bytes) : Flow * bytes * list Hit * Http :=
  match line with
  | [] =>
      match ht_body_mode m with
      | ScanOnly => (ReturnRest, crlf, [], finish_chunked_message m)
      | Substitute =>
          let block := ht_trailer_buf m in
          match rewrite_trailer_block (set_trailer_buf m []) block with
          | (None, hits, m) => (ReturnEmpty, [], hits, m)
          | (Some trailers, hits, m) => (ReturnRest, trailers, hits, finish_chunked_message m)
          end
      end
  | _ => (Continue, [], [], set_trailer_buf m (ht_trailer_buf m ++ line ++ crlf))
  end.

(** [None] parks the parser for the next arrival. *)
Definition step_chunked_data (m : Http) (rest : bytes) : option bytes * bytes * list Hit * Http :=
  if bool_decide (rest = []) && (0 <? ht_data_remaining m)%N then (None, [], [], m)
  else
    let n := take_min (ht_data_remaining m) rest in
    let m := set_data_remaining m (ht_data_remaining m - N.of_nat n) in
    let close m := if (ht_data_remaining m =? 0)%N then set_chunk_phase m CAfterData else m in
    match ht_body_mode m with
    | Substitute =>
        match swap_region m (take n rest) false with
        | (None, hits, m) => (None, [], hits, m)
        | (Some (_, region), hits, m) => (Some (drop n rest), emit_data_chunk region, hits, close m)
        end
    | ScanOnly =>
        let '(hits, m) := forward_scanned m (take n rest) in
        (Some (drop n rest), take n rest, hits, close m)
    end.

(** The CRLF behind a chunk's data; a lone CR may be left over in [line_buf]. *)
Definition step_chunked_after_data (m : Http) (rest : bytes) : option bytes * bytes * list Hit * Http :=
  let delimiter m rest :=
    (Some rest, match ht_body_mode m with ScanOnly => crlf | Substitute => [] end, [], set_chunk_phase m CSizeLine) in
  let broken m data rest :=
    let '(hits, m) := forward_scanned m data in (Some rest, data, hits, set_chunk_phase m CBroken) in
  match ht_line_buf m, rest with
  | _, [] => (None, [], [], m)
  | (_ :: _) as pending, b :: rest =>
      let m := set_line_buf m [] in
      if bool_decide (b = LF) then delimiter m rest else broken m pending rest
  | [], b0 :: b1 :: rest' =>
      if bool_decide (b0 = CR) && bool_decide (b1 = LF) then delimiter m rest' else broken m [b0; b1] rest'
  | [], [b] => if bool_decide (b = CR) then (None, [], [], set_line_buf m [CR]) else broken m [b] []
  end.

(** One round of the loop of [step_chunked]: whether it goes round again, the
    bytes left, what was emitted, the hits and the machine. *)
Definition line_round (r : Flow * bytes * list Hit * Http) (tail : bytes) : bool * bytes * bytes * list Hit * Http :=
  let '(flow, o, h, m) := r in
  match flow with
  | Continue => (true, tail, o, h, m)
  | ReturnRest => (false, tail, o, h, m)
  | ReturnEmpty => (false, [], o, h, m)
  end.
Definition resume_round (r : option bytes * bytes * list Hit * Http) : bool * bytes * bytes * list Hit * Http :=
  let '(remaining, o, h, m) := r in
  match remaining with
  | Some rest => (true, rest, o, h, m)
  | None => (false, [], o, h, m)
  end.

(** No complete line yet: the fragment is kept, unless it outgrows a head. The
    round that breaks the framing leaves [rest] in place. *)
Definition fragment_round (m : Http) (rest : bytes) : bool * bytes * bytes * list Hit * Http :=
  let m := set_line_buf m (ht_line_buf m ++ rest) in
  if (MAX_HEAD_BYTES <? length (ht_line_buf m)) ||
     (bool_decide (ht_chunk_phase m = CTrailers) &&
      (MAX_HEAD_BYTES <? length (ht_trailer_buf m) + length (ht_line_buf m)))
  then
    let buffered := ht_line_buf m in
    let '(h, m) := forward_scanned (set_line_buf m []) buffered in
    (true, rest, buffered, h, set_chunk_phase m CBroken)
  else (false, [], [], [], m).

Definition chunked_round (m : Http) (rest : bytes) : bool * bytes * bytes * list Hit * Http :=
  match ht_chunk_phase m with
  | CBroken =>
      let '(h, m) := forward_scanned m rest in
      (false, [], rest, h, fail_closed_on_degrade (set_state m SOpaque))
  | CSizeLine =>
      match take_line m rest with
      | None => fragment_round m rest
      | Some (line, tail, m) => line_round (size_line m line) tail
      end
  | CTrailers =>
      match take_line m rest with
      | None => fragment_round m rest
      | Some (line, tail, m) => line_round (trailers_line m line) tail
      end
  | CData => resume_round (step_chunked_data m rest)
  | CAfterData => resume_round (step_chunked_after_data m rest)
  end.

Fixpoint chunked_loop (fuel : nat) (m : Http) (rest out : bytes) (hits : list Hit)
    : option (bytes * bytes * list Hit * Http) :=
  match fuel with
  | 0 => None
  | S fuel =>
      let '(again, rest, o, h, m) := chunked_round m rest in
      if again : bool then chunked_loop fuel m rest (out ++ o) (hits ++ h)
      else Some (rest, out ++ o, hits ++ h, m)
  end.

(** Every round but the last two takes a byte off [rest]. *)
Definition step_chunked (m : Http) (rest : bytes) : option (Step * bytes * list Hit * Http) :=
  '(rest, out, hits, m) ← chunked_loop (length rest + 3) m rest [] [];
  Some (Rest rest, out, hits, m).

(** ** Token responses *)

Definition mint_and_redact (m : Http) (body : bytes) : bytes * list Hit * Http :=
  match ht_mint_plan m, ht_mint m with
  | Some plan, Some mint =>
      let '(body, hits, mint) := Engine.mint_and_redact plan mint body (ht_pairs m) in
      (body, hits, set_mint m (Some mint))
  | _, _ =>
      let '(redacted, hits) := replace_in body (ht_pairs m) Body in
      (redacted, hits, m)
  end.

Definition finish_mint_fixed (m : Http) (head body : bytes) : bytes * list Hit * Http :=
  let '(body, hits, m) := mint_and_redact m body in
  (rewrite_content_length head (length body) ++ body, hits, m).

Definition finish_mint_chunked (m : Http) (head body : bytes) : ran (bytes * list Hit * Http) :=
  match dechunk body with
  | Panic => Panicked
  | Violation => Ran ([], [], set_must_close m true)
  | Payload payload =>
      let '(payload, hits, m) := mint_and_redact m payload in
      Ran (head ++ chunk_frame payload ++ crlf ++ bs "0" ++ crlf ++ crlf, hits, m)
  end.

Definition step_mint (m : Http) (rest : bytes) : ran (Step * bytes * list Hit * Http) :=
  match ht_mint_remaining m with
  | None =>
      let m := set_mint_body m (ht_mint_body m ++ rest) in
      if MAX_MINT_BODY + 4096 <? length (ht_mint_body m) then Ran (Rest [], [], [], set_must_close m true)
      else if find_chunked_terminator (ht_mint_body m) then
        let head := ht_mint_head m in
        let body := ht_mint_body m in
        match finish_mint_chunked (set_mint_body (set_mint_head m []) []) head body with
        | Ran (emitted, hits, m) => Ran (Rest [], emitted, hits, set_state m SHead)
        | Panicked => Panicked
        | NoFuel => NoFuel
        end
      else Ran (Rest [], [], [], m)
  | Some remaining =>
      let n := take_min remaining rest in
      let m := set_mint_body m (ht_mint_body m ++ take n rest) in
      let left := (remaining - N.of_nat n)%N in
      if (left =? 0)%N then
        let head := ht_mint_head m in
        let body := ht_mint_body m in
        let '(emitted, hits, m) :=
          finish_mint_fixed (set_mint_body (set_mint_head (set_mint_remaining m None) []) []) head body in
        Ran (Rest (drop n rest), emitted, hits, set_state m SHead)
      else Ran (Rest (drop n rest), [], [], set_mint_remaining m (Some left))
  end.

(** ** Heads *)

(** Where the machine goes for the body the final head announces. *)
Definition enter_framing_state (m : Http) (new_head : bytes) (hits : list Hit) (framing : Framing)
    (content_swapped : bool) (status : option N) : bytes * list Hit * Http :=
  let mint_framing :=
    match framing with FFixed len => (len <=? N.of_nat MAX_MINT_BODY)%N | FChunked => true | _ => false end in
  if bool_decide (ht_dir m = Upstream) && bool_of_opt (ht_mint m) && bool_of_opt (ht_mint_plan m) &&
     negb content_swapped && mint_framing
  then
    let m := set_mint_remaining m (match framing with FFixed len => Some len | _ => None end) in
    ([], hits, set_state (set_mint_body (set_mint_head m new_head) []) SMintBody)
  else
    match framing with
    | FBroken => (new_head, hits, fail_closed_on_degrade (set_state m SOpaque))
    | FChunked =>
        let m := set_body_mode m (if content_swapped then ScanOnly else Substitute) in
        let m := if content_swapped then fail_closed_on_degrade m else m in
        (new_head, hits,
         set_state (set_chunk_phase (set_data_remaining (set_trailer_buf (set_line_buf m []) []) 0) CSizeLine) SChunked)
    | FFixed len =>
        (new_head, hits,
         if (len =? 0)%N then set_state m SHead
         else if content_swapped then fail_closed_on_degrade (set_state (set_scan_remaining m len) SScan)
         else set_state (set_fixed_remaining m len) SFixed)
    | FNone =>
        (new_head, hits,
         if bool_decide (ht_dir m = Upstream) && negb (response_has_no_body status) then
           match ht_pairs m with
           | [] => fail_closed_on_degrade (set_state m SOpaque)
           | _ => set_state m SCloseDelimited
           end
         else set_state m SHead)
    end.

(** The plugin's turn on the swapped head: (go on, the head, the machine). *)
Definition rewrite_head_hooked (m : Http) (head_bytes : bytes) : bool * bytes * Http :=
  match parse_head_fields head_bytes (ht_dir m), ht_hook m with
  | Some swapped, Some h =>
      let '(verdict, plugin_head, h) := rewrite_head h (plugin_head_from_parsed swapped (ht_dir m)) in
      let m := set_hook m (Some h) in
      match verdict with
      | VClose => (false, head_bytes, set_must_close m true)
      | VContinue =>
          (true, default head_bytes (rebuild_head_if_changed plugin_head swapped head_bytes (ht_dir m)), m)
      end
  | _, _ => (true, head_bytes, m)
  end.

(** What follows the framing classification of the final head: the HEAD
    bookkeeping of both directions, then the body state. *)
Definition classify_head (m : Http) (new_head : bytes) (hits : list Hit) (final_head : ParsedHead)
    : bytes * list Hit * Http :=
  let framing := parse_framing (pr_headers final_head) in
  let content_swapped := has_non_identity_content_encoding (pr_headers final_head) in
  let status := pr_status final_head in
  let is_head_request :=
    match pr_method final_head with Some method => eq_ignore_case method (bs "head") | None => false end in
  let framable := match framing with FBroken => false | _ => true end in
  let m := if framable && bool_decide (ht_dir m = Downstream) && is_head_request
           then set_head_requests m (ht_head_requests m + 1) else m in
  let interim := match status with Some code => ((100 <=? code) && (code <? 200))%N | None => false end in
  if framable && bool_decide (ht_dir m = Upstream) && response_has_no_body status then
    (new_head, hits,
     set_state (if negb interim && (0 <? ht_suppress_body m)
                then set_suppress_body m (ht_suppress_body m - 1) else m) SHead)
  else if framable && bool_decide (ht_dir m = Upstream) && (0 <? ht_suppress_body m) then
    (new_head, hits, set_state (set_suppress_body m (ht_suppress_body m - 1)) SHead)
  else enter_framing_state m new_head hits framing content_swapped status.

Definition process_head (m : Http) (head : bytes) : bytes * list Hit * Http :=
  if negb (utf8_valid head) then
    let '(hits, m) := scan_chunk m head Header in
    (head, hits, fail_closed_on_degrade (set_state m SOpaque))
  else
    let '(new_head, hits) := substitute_head head (ht_pairs m) in
    match parse_head_fields head (ht_dir m) with
    | None => (new_head, hits, fail_closed_on_degrade (set_state m SOpaque))
    | Some _ =>
        let '(go, new_head, m) := rewrite_head_hooked m new_head in
        if negb go then (new_head, hits, m)
        else
          match parse_head_fields new_head (ht_dir m) with
          | None => (new_head, hits, set_state (set_must_close m true) SOpaque)
          | Some final_head => classify_head m new_head hits final_head
          end
    end.

Definition step_head (m : Http) (rest : bytes) : Step * bytes * list Hit * Http :=
  let need := MAX_HEAD_BYTES + 4 - length (ht_head_buf m) in
  let n := Nat.min need (length rest) in
  let m := set_head_buf m (ht_head_buf m ++ take n rest) in
  let rest := drop n rest in
  match find_header_boundary (ht_head_buf m) with
  | Some e =>
      let buf := ht_head_buf m in
      let m := refresh_minted_pairs m in
      let '(head_out, hits, m) := process_head (set_head_buf m []) (take e buf) in
      (Spill (drop e buf ++ rest), head_out, hits, m)
  | None =>
      if MAX_HEAD_BYTES <? length (ht_head_buf m) then
        let buffered := ht_head_buf m in
        let '(hits, m) := scan_chunk (set_head_buf m []) buffered Header in
        (Rest rest, buffered, hits, fail_closed_on_degrade (set_state m SDrain))
      else (Rest rest, [], [], m)
  end.

(** ** Stream end, and one arriving chunk *)

Definition flush_held (m : Http) : ran (bytes * list Hit * Http) :=
  let out := ht_head_buf m in
  let m := set_head_buf m [] in
  let opaque o hits m := Ran (out ++ o, hits, set_state m SOpaque) in
  match ht_state m with
  | SFixed | SCloseDelimited =>
      match swap_region m [] true with
      | (None, hits, m) => opaque [] hits m
      | (Some (emit_len, region), hits, m) =>
          if bool_decide (ht_state m = SFixed) && negb (length region =? emit_len)
          then opaque [] hits (set_must_close m true)
          else opaque region hits m
      end
  | SChunked =>
      let o := ht_line_buf m ++ ht_trailer_buf m in
      match swap_region (set_trailer_buf (set_line_buf m []) []) [] true with
      | (None, hits, m) => opaque o hits m
      | (Some (_, region), hits, m) => opaque (o ++ region) hits m
      end
  | SMintBody =>
      let head := ht_mint_head m in
      let body := ht_mint_body m in
      let m := set_mint_body (set_mint_head m []) [] in
      match ht_mint_remaining m with
      | Some _ =>
          let '(emitted, hits, m) := mint_and_redact (set_must_close m true) body in
          opaque (rewrite_content_length head (length emitted) ++ emitted) hits m
      | None =>
          match dechunk body with
          | Panic => Panicked
          | Payload payload =>
              let '(emitted, hits, m) := mint_and_redact m payload in
              opaque (head ++ chunk_frame emitted) hits m
          | Violation => opaque body [] (set_must_close m true)
          end
      end
  | _ => opaque [] [] m
  end.

(** The dispatch on the state, one round of the loop of [substitute]. *)
Definition http_step (m : Http) (rest : bytes) : ran (Step * bytes * list Hit * Http) :=
  match ht_state m with
  | SHead => Ran (step_head m rest)
  | SFixed => Ran (step_fixed m rest)
  | SChunked => match step_chunked m rest with Some r => Ran r | None => NoFuel end
  | SScan => Ran (step_scan m rest)
  | SDrain => Ran (step_drain m rest)
  | SOpaque => Ran (step_opaque m rest)
  | SCloseDelimited => Ran (step_close m rest)
  | SMintBody => step_mint m rest
  end.

Fixpoint substitute_loop (fuel : nat) (m : Http) (rest out : bytes) (hits : list Hit)
    : ran (bytes * list Hit * Http) :=
  match rest, fuel with
  | [], _ => Ran (out, hits, m)
  | _, 0 => NoFuel
  | _, S fuel =>
      match http_step m rest with
      | Panicked => Panicked
      | NoFuel => NoFuel
      | Ran (Rest remaining, o, h, m) => substitute_loop fuel m remaining (out ++ o) (hits ++ h)
      | Ran (Spill spill, o, h, m) => substitute_loop fuel m spill (out ++ o) (hits ++ h)
      end
  end.

(** A message takes a head, so two rounds for every byte at hand, buffered
    head included, are enough. *)
Definition substitute_fuel (m : Http) (chunk : bytes) : nat :=
  2 * (length (ht_head_buf m) + length chunk) + 2.

Definition substitute (m : Http) (chunk : bytes) : ran (bytes * list Hit * Http) :=
  match chunk with
  | [] => flush_held m
  | _ => substitute_loop (substitute_fuel m chunk) m chunk [] []
  end.

(** ** The wire *)

Definition Http_feed (m : Http) (chunk : bytes) : ran ((Rewritten * list Hit) * Http) :=
  match substitute m chunk with
  | Panicked => Panicked
  | NoFuel => NoFuel
  | Ran (out, hits, m) =>
      Ran ((if ht_must_close m then Close else match out with [] => Hold | _ => Emit out end, hits), m)
  end.
Definition Http_take_peer_note (m : Http) : nat * Http := (ht_head_requests m, set_head_requests m 0).
Definition Http_apply_peer_note (m : Http) (n : nat) : Http := set_suppress_body m (ht_suppress_body m + n).
End Machine.

(** ** Every call returns *)

#[local] Opaque MAX_MINT_BODY MAX_HEAD_BYTES.

Section Totality.
Context `{!Digests, !JsonCrate, !HttpParse, !Base64, !RewriteHook}.

(** What [swap_region] may change: the held bytes, the hook's state and the latch. *)
Lemma swap_region_frame m data eof r hits m' :
  swap_region m data eof = (r, hits, m') →
  ∃ held hook close, m' = set_must_close (set_hook (set_raw_held m held) hook) close ∧
    (hook = None ↔ ht_hook m = None) ∧ (ht_must_close m = true → close = true) ∧ (r = None → close = true).
Proof.
  unfold swap_region. set (e := if eof then _ else _). destruct (replace_in _ _ _) as [region hits0].
  cbv zeta. intros Hs. exists (drop e (ht_raw_held m ++ data)).
  destruct (_ && _).
  { injection Hs as <- <- <-. by exists (ht_hook m), (ht_must_close m). }
  change (ht_hook (set_raw_held m _)) with (ht_hook m) in Hs.
  destruct (ht_hook m) as [h|] eqn:Hh.
  - destruct (rewrite_chunk h region eof) as [[v region'] h'].
    destruct v; injection Hs as <- <- <-; [by exists (Some h'), (ht_must_close m)|by exists (Some h'), true].
  - injection Hs as <- <- <-. exists None, (ht_must_close m). split; [|done].
    unfold set_must_close, set_hook. simpl. by rewrite <- Hh.
Qed.

Lemma forward_scanned_frame m data :
  (forward_scanned m data).2 = set_must_close (set_scan_tail m (ht_scan_tail (forward_scanned m data).2))
                                 (ht_must_close (forward_scanned m data).2) ∧
  (ht_must_close m = true → ht_must_close (forward_scanned m data).2 = true).
Proof.
  unfold forward_scanned, scan_chunk. destruct (scan_with_tail _ _ _ _ _) as [hits tail].
  unfold latch_upstream_hits. simpl. destruct m as [? [] ????????????????????? ?]; simpl; [done|].
  destruct hits; done.
Qed.

Lemma find_crlf_le rest rel : find_crlf rest = Some rel → rel + 2 ≤ length rest.
Proof.
  unfold find_crlf. case_match; [done|]. intros Hf. unfold find_window in Hf.
  apply position_lt in Hf. rewrite length_windows in Hf. simpl in Hf. lia.
Qed.

Lemma take_line_shorter m rest line tail m' :
  take_line m rest = Some (line, tail, m') → length tail < length rest ∧ m' = set_line_buf m [].
Proof.
  unfold take_line. destruct (_ && _) eqn:E.
  - intros [= <- <- <-]. split; [|done]. to_prop. destruct rest; [naive_solver|simpl; rewrite length_drop; lia].
  - destruct (find_crlf rest) as [rel|] eqn:Hf; simpl; [|done]. intros [= <- <- <-]. split; [|done].
    apply find_crlf_le in Hf. rewrite length_drop. lia.
Qed.

(** The rounds the chunked loop still needs. *)
Definition phase_weight (m : Http) : nat :=
  match ht_chunk_phase m with
  | CData => if (ht_data_remaining m =? 0)%N then 3 else 2
  | CBroken => 1
  | _ => 2
  end.

Lemma size_line_weight m line o h m' : size_line m line = (Continue, o, h, m') → phase_weight m' ≤ 2.
Proof.
  unfold size_line. destruct (parse_chunk_size line) as [[|p]|].
  - destruct (ht_body_mode m); [|done]. destruct (swap_region m [] true) as [[[[? ?]|] ?] m1]; [|done].
    by intros [= <- <- <-].
  - by intros [= <- <- <-].
  - destruct (forward_scanned m line) as [? m1]. intros [= <- <- <-]. unfold phase_weight. simpl. lia.
Qed.

Lemma trailers_line_weight m line o h m' :
  ht_chunk_phase m = CTrailers → trailers_line m line = (Continue, o, h, m') → phase_weight m' ≤ 2.
Proof.
  intros Hp. unfold trailers_line. destruct line as [|b line].
  - destruct (ht_body_mode _); [|done]. by destruct (rewrite_trailer_block _ _) as [[[?|] ?] ?].
  - intros [= <- <- <-]. unfold phase_weight. simpl. by rewrite Hp.
Qed.

Lemma step_chunked_data_weight m rest rest' o h m' :
  ht_chunk_phase m = CData → step_chunked_data m rest = (Some rest', o, h, m') →
  length rest' + phase_weight m' < length rest + phase_weight m.
Proof.
  intros Hp. unfold step_chunked_data. pose proof (take_min_le (ht_data_remaining m) rest) as [Hn1 Hn2].
  set (n := take_min _ rest) in *.
  assert (∀ m1, ht_chunk_phase m1 = CData →
            ht_data_remaining m1 = (ht_data_remaining m - N.of_nat n)%N →
            (bool_decide (rest = []) && (0 <? ht_data_remaining m)%N) = false →
            length (drop n rest) + phase_weight (if (ht_data_remaining m1 =? 0)%N then set_chunk_phase m1 CAfterData else m1)
              < length rest + phase_weight m) as Hgen.
  { intros m1 Hp1 Hr1 Hg. rewrite length_drop. unfold phase_weight at 2. rewrite Hp.
    assert (n = 0 → ht_data_remaining m = 0%N) as Hn0.
    { intros Hz. destruct (bool_decide_reflect (rest = [])) as [->|Hne]; simpl in Hg.
      - apply N.ltb_ge in Hg. lia.
      - unfold n, take_min in Hz. destruct rest; [done|]. simpl in Hz. lia. }
    rewrite Hr1. destruct (N.eqb_spec (ht_data_remaining m - N.of_nat n) 0).
    - unfold phase_weight. simpl. destruct (N.eqb_spec (ht_data_remaining m) 0); lia.
    - unfold phase_weight. rewrite Hp1, Hr1. rewrite (proj2 (N.eqb_neq _ _)) by done.
      destruct (N.eqb_spec (ht_data_remaining m) 0); lia. }
  destruct (_ && _) eqn:Hg; [done|]. destruct (ht_body_mode _).
  - destruct (swap_region _ _ _) as [[[[? ?]|] ?] m1] eqn:Hs; [|done]. intros [= <- <- <- <-].
    apply swap_region_frame in Hs as (? & ? & ? & -> & _). by apply Hgen.
  - destruct (forward_scanned _ _) as [? m1] eqn:Hs.
    pose proof (proj1 (forward_scanned_frame (set_data_remaining m (ht_data_remaining m - N.of_nat n)) (take n rest))) as Hf.
    rewrite Hs in Hf. simpl in Hf. intros [= <- <- <- <-]. apply Hgen; [by rewrite Hf| by rewrite Hf|done].
Qed.

Lemma step_chunked_after_data_weight m rest rest' o h m' :
  ht_chunk_phase m = CAfterData → step_chunked_after_data m rest = (Some rest', o, h, m') →
  length rest' + phase_weight m' < length rest + phase_weight m.
Proof.
  intros Hp. assert (phase_weight m = 2) as -> by (unfold phase_weight; by rewrite Hp).
  unfold step_chunked_after_data.
  destruct (ht_line_buf m) as [|p pending], rest as [|b0 [|b1 rest]]; try done; cbv zeta;
    repeat (case_match; try done); intros [= <- <- <- <-]; unfold phase_weight; simpl; lia.
Qed.

Lemma chunked_round_weight m rest rest' o h m' :
  chunked_round m rest = (true, rest', o, h, m') → length rest' + phase_weight m' < length rest + phase_weight m.
Proof.
  unfold chunked_round. intros Hr.
  assert (phase_weight m = 2 → fragment_round m rest = (true, rest', o, h, m') →
          length rest' + phase_weight m' < length rest + phase_weight m) as Hfrag.
  { intros ->. unfold fragment_round. destruct (_ || _); [|done]. destruct (forward_scanned _ _).
    intros [= <- <- <- <-]. unfold phase_weight. simpl. lia. }
  destruct (ht_chunk_phase m) eqn:Hp; unfold line_round, resume_round in Hr.
  - assert (phase_weight m = 2) as Hw by (unfold phase_weight; by rewrite Hp).
    destruct (take_line m rest) as [[[line tail] m1]|] eqn:Ht; [|by apply Hfrag].
    apply take_line_shorter in Ht as [Hlt ->]. destruct (size_line _ line) as [[[[] ?] ?] ?] eqn:Hs; try done.
    injection Hr as <- <- <- <-. apply size_line_weight in Hs. lia.
  - destruct (step_chunked_data m rest) as [[[[?|] ?] ?] ?] eqn:Hs; [|done].
    injection Hr as <- <- <- <-. by apply step_chunked_data_weight in Hs.
  - destruct (step_chunked_after_data m rest) as [[[[?|] ?] ?] ?] eqn:Hs; [|done].
    injection Hr as <- <- <- <-. by apply step_chunked_after_data_weight in Hs.
  - assert (phase_weight m = 2) as Hw by (unfold phase_weight; by rewrite Hp).
    destruct (take_line m rest) as [[[line tail] m1]|] eqn:Ht; [|by apply Hfrag].
    apply take_line_shorter in Ht as [Hlt ->]. destruct (trailers_line _ line) as [[[[] ?] ?] ?] eqn:Hs; try done.
    injection Hr as <- <- <- <-. apply trailers_line_weight in Hs; [|done]. lia.
  - by destruct (forward_scanned m rest).
Qed.

Lemma chunked_loop_total fuel m rest out hits :
  length rest + phase_weight m ≤ fuel → is_Some (chunked_loop fuel m rest out hits).
Proof.
  revert m rest out hits. induction fuel as [|fuel IH]; intros m rest out hits Hf.
  { unfold phase_weight in Hf. repeat case_match; lia. }
  cbn [chunked_loop]. destruct (chunked_round m rest) as [[[[again rest'] o] h] m'] eqn:Hr.
  destruct again; [|done]. apply IH. apply chunked_round_weight in Hr. lia.
Qed.

(** What no body step touches: the leg's fixed fields and the buffered head
    stay, the hook stays present or absent, the latch is never undone. *)
Record same_leg (m m' : Http) : Prop := {
  sl_dir : ht_dir m' = ht_dir m;
  sl_pairs : ht_pairs m' = ht_pairs m;
  sl_tail_size : ht_tail_size m' = ht_tail_size m;
  sl_head_buf : ht_head_buf m' = ht_head_buf m;
  sl_plan : ht_mint_plan m' = ht_mint_plan m;
  sl_mode : ht_body_mode m' = ht_body_mode m;
  sl_hook : ht_hook m' = None ↔ ht_hook m = None;
  sl_close : ht_must_close m = true → ht_must_close m' = true;
}.

#[local] Instance same_leg_preorder : PreOrder same_leg.
Proof.
  split; [by intros m|]. intros m1 m2 m3 [] []. split; etrans; eauto; naive_solver.
Qed.

Lemma swap_region_leg m data eof r hits m' :
  swap_region m data eof = (r, hits, m') → same_leg m m' ∧ ht_state m' = ht_state m ∧ (r = None → ht_must_close m' = true).
Proof. intros (held & hook & close & -> & Hh & Hc & Hr)%swap_region_frame. by repeat split; try apply Hh. Qed.

Lemma forward_scanned_leg m data hits m' :
  forward_scanned m data = (hits, m') → same_leg m m' ∧ ht_state m' = ht_state m.
Proof.
  intros Hf. destruct (forward_scanned_frame m data) as [He Hc]. rewrite Hf in He, Hc. simpl in He, Hc.
  rewrite He. by repeat split.
Qed.

Lemma forward_scanned_frame' m data hits m' :
  forward_scanned m data = (hits, m') →
  same_leg m m' ∧ ht_state m' = ht_state m ∧ ht_scan_remaining m' = ht_scan_remaining m.
Proof.
  intros Hf. destruct (forward_scanned_leg _ _ _ _ Hf) as [Hl Hs].
  destruct (forward_scanned_frame m data) as [He _]. rewrite Hf in He. simpl in He. split_and!; [done..|by rewrite He].
Qed.

Lemma fail_closed_leg m : same_leg m (fail_closed_on_degrade m) ∧ ht_state (fail_closed_on_degrade m) = ht_state m.
Proof. unfold fail_closed_on_degrade. by destruct (ht_hook m). Qed.

Definition line_ends (m m' : Http) (f : Flow) : Prop :=
  same_leg m m' ∧ match f with ReturnRest => ht_state m' = SHead | _ => ht_state m' = ht_state m end.

Lemma rewrite_trailer_block_leg m block r hits m' :
  rewrite_trailer_block m block = (r, hits, m') → same_leg m m' ∧ ht_state m' = ht_state m.
Proof.
  unfold rewrite_trailer_block. destruct (replace_in _ _ _) as [swapped hits0].
  destruct (parse_trailer_block swapped), (ht_hook m) eqn:Hh; try (by intros [= <- <- <-]).
  destruct (rewrite_trailers _ _) as [[[] ?] ?]; intros [= <- <- <-]; repeat split; simpl; try done; by rewrite Hh.
Qed.

Lemma size_line_leg m line f o h m' : size_line m line = (f, o, h, m') → line_ends m m' f.
Proof.
  unfold size_line. destruct (parse_chunk_size line) as [[|p]|].
  - destruct (ht_body_mode m) eqn:Hb; [|intros [= <- <- <- <-]; by repeat split].
    destruct (swap_region m [] true) as [[[[? ?]|] ?] m1] eqn:Hs; apply swap_region_leg in Hs as [[] [Hst _]];
      intros [= <- <- <- <-]; by repeat split; try apply sl_hook0.
  - intros [= <- <- <- <-]. by repeat split.
  - destruct (forward_scanned m line) as [? m1] eqn:Hs. apply forward_scanned_leg in Hs as [[] Hst].
    intros [= <- <- <- <-]. by repeat split; try apply sl_hook0.
Qed.

Lemma trailers_line_leg m line f o h m' : trailers_line m line = (f, o, h, m') → line_ends m m' f.
Proof.
  unfold trailers_line. destruct line as [|b line]; [|intros [= <- <- <- <-]; by repeat split].
  destruct (ht_body_mode m) eqn:Hb; [|intros [= <- <- <- <-]; by repeat split].
  destruct (rewrite_trailer_block _ _) as [[[?|] ?] m1] eqn:Hs; apply rewrite_trailer_block_leg in Hs as [[] Hst];
    intros [= <- <- <- <-]; by repeat split; try apply sl_hook0.
Qed.

Lemma take_line_leg m rest line tail m' :
  take_line m rest = Some (line, tail, m') → same_leg m m' ∧ ht_state m' = ht_state m ∧ length tail < length rest.
Proof. intros [? ->]%take_line_shorter. by repeat split. Qed.

Lemma step_chunked_data_leg m rest r o h m' :
  step_chunked_data m rest = (r, o, h, m') →
  same_leg m m' ∧ ht_state m' = ht_state m ∧ length (default [] r) ≤ length rest.
Proof.
  unfold step_chunked_data. destruct (_ && _); [intros [= <- <- <- <-]; split_and!; [done|done|simpl; lia]|].
  set (n := take_min _ _). set (m0 := set_data_remaining m _). cbv zeta.
  assert (same_leg m m0 ∧ ht_state m0 = ht_state m) as [Hl0 Hst0] by by repeat split.
  assert (∀ m1, same_leg m1 (if (ht_data_remaining m1 =? 0)%N then set_chunk_phase m1 CAfterData else m1)
            ∧ ht_state (if (ht_data_remaining m1 =? 0)%N then set_chunk_phase m1 CAfterData else m1) = ht_state m1) as Hc.
  { intros m1. by case_match. }
  destruct (ht_body_mode m0).
  - destruct (swap_region _ _ _) as [[[[? ?]|] ?] m1] eqn:Hs; apply swap_region_leg in Hs as (Hl & Hst & _);
      intros [= <- <- <- <-].
    + destruct (Hc m1). split_and!; [by etrans; [|etrans]|congruence|simpl; rewrite length_drop; lia].
    + split_and!; [by etrans|congruence|simpl; lia].
  - destruct (forward_scanned _ _) as [? m1] eqn:Hs. apply forward_scanned_leg in Hs as [Hl Hst].
    intros [= <- <- <- <-]. destruct (Hc m1).
    split_and!; [by etrans; [|etrans]|congruence|simpl; rewrite length_drop; lia].
Qed.

Lemma step_chunked_after_data_leg m rest r o h m' :
  step_chunked_after_data m rest = (r, o, h, m') →
  same_leg m m' ∧ ht_state m' = ht_state m ∧ length (default [] r) ≤ length rest.
Proof.
  unfold step_chunked_after_data. cbv zeta.
  assert (∀ A B C : Prop, A ∧ B → C → A ∧ B ∧ C) as Hand by tauto.
  assert (∀ m1 m2 data hs c, same_leg m m1 → ht_state m1 = ht_state m → forward_scanned m1 data = (hs, m2) →
            same_leg m (set_chunk_phase m2 c) ∧ ht_state (set_chunk_phase m2 c) = ht_state m) as Hb.
  { intros m1 m2 data hs c Hl1 Hs1 [Hl2 Hs2]%forward_scanned_leg. split; [|simpl; congruence].
    etrans; [exact Hl1|]. etrans; [exact Hl2|]. by repeat split. }
  destruct (ht_line_buf m) as [|p pending], rest as [|b0 [|b1 rest]]; repeat (case_match; try done);
    intros [= <- <- <- <-]; apply Hand; try (simpl; lia);
    solve [by repeat split|by eapply Hb; [| |done]].
Qed.

(** A plugin-active machine that is past framing is latched closed. *)
Definition latched (m : Http) : Prop := ht_hook m ≠ None → ht_must_close m = true.

Lemma fail_closed_latched m : latched (fail_closed_on_degrade m).
Proof. unfold latched, fail_closed_on_degrade. by destruct (ht_hook m) eqn:E; simpl; rewrite ?E. Qed.

Definition chunked_ends (m m' : Http) (rest r : bytes) : Prop :=
  same_leg m m' ∧ length r ≤ length rest ∧
  (ht_state m' = SHead ∨ r = [] ∧ (ht_state m' = ht_state m ∨ ht_state m' = SOpaque ∧ latched m')).

Lemma chunked_ends_trans m m1 m' rest rest1 r :
  same_leg m m1 → ht_state m1 = ht_state m → length rest1 ≤ length rest →
  chunked_ends m1 m' rest1 r → chunked_ends m m' rest r.
Proof.
  intros Hl Hs Hlen (Hl' & Hr & Hst). split_and!; [by etrans|lia|]. rewrite Hs in Hst. exact Hst.
Qed.

Lemma fragment_round_leg m rest again r o h m' :
  fragment_round m rest = (again, r, o, h, m') →
  same_leg m m' ∧ ht_state m' = ht_state m ∧ length r ≤ length rest ∧ (again = false → r = []).
Proof.
  unfold fragment_round. destruct (_ || _).
  - destruct (forward_scanned _ _) as [hh m1] eqn:Hf. apply forward_scanned_leg in Hf as [Hl Hs].
    intros [= <- <- <- <- <-]. split_and!; [|exact Hs|lia|done].
    etrans; [|by etrans; [exact Hl|repeat split]]. by repeat split.
  - intros [= <- <- <- <- <-]. split_and!; [by repeat split|done|simpl; lia|done].
Qed.

(** One round: either it goes on in the same state, or it ends the step. *)
Lemma chunked_round_leg m rest again r o h m' :
  chunked_round m rest = (again, r, o, h, m') →
  same_leg m m' ∧ length r ≤ length rest ∧ (if again then ht_state m' = ht_state m else chunked_ends m m' rest r).
Proof.
  assert (∀ m1 f tail oo hh m2, take_line m rest = Some (tail.1, tail.2, m1) → line_ends m1 m2 f →
            line_round (f, oo, hh, m2) tail.2 = (again, r, o, h, m') →
            same_leg m m' ∧ length r ≤ length rest ∧
            (if again then ht_state m' = ht_state m else chunked_ends m m' rest r)) as Hline.
  { intros m1 f [line tail] oo hh m2 (Hl1 & Hs1 & Hlt)%take_line_leg [Hl2 Hs2].
    assert (same_leg m m2) as Hl by by etrans.
    simpl in *. destruct f; intros [= <- <- <- <- <-]; split_and!; try done; try (simpl; lia); try congruence.
    - split_and!; [done|lia|by left].
    - split_and!; [done|simpl; lia|]. right. split; [done|]. left. congruence. }
  assert (∀ res, same_leg m res.2 ∧ ht_state res.2 = ht_state m ∧ length (default [] res.1.1.1) ≤ length rest →
            resume_round res = (again, r, o, h, m') →
            same_leg m m' ∧ length r ≤ length rest ∧
            (if again then ht_state m' = ht_state m else chunked_ends m m' rest r)) as Hresume.
  { intros [[[[rest1|] oo] hh] m2] (Hl & Hs & Hlen); intros [= <- <- <- <- <-]; split_and!; try done.
    split_and!; [done..|]. right. split; [done|]. by left. }
  assert (fragment_round m rest = (again, r, o, h, m') →
          same_leg m m' ∧ length r ≤ length rest ∧
          (if again then ht_state m' = ht_state m else chunked_ends m m' rest r)) as Hfrag.
  { intros (Hl & Hs & Hlen & Hr)%fragment_round_leg. split_and!; [done..|]. destruct again; [done|].
    split_and!; [done..|]. right. split; [by apply Hr|]. by left. }
  unfold chunked_round. destruct (ht_chunk_phase m) eqn:Hp.
  - destruct (take_line m rest) as [[[line tail] m1]|] eqn:Ht; [|exact Hfrag].
    destruct (size_line m1 line) as [[[f oo] hh] m2] eqn:Hsl.
    apply (Hline m1 f (line, tail) oo hh m2); [done|by eapply size_line_leg].
  - apply Hresume. destruct (step_chunked_data m rest) as [[[r1 oo] hh] m2] eqn:Hd. by eapply step_chunked_data_leg.
  - apply Hresume. destruct (step_chunked_after_data m rest) as [[[r1 oo] hh] m2] eqn:Hd.
    by eapply step_chunked_after_data_leg.
  - destruct (take_line m rest) as [[[line tail] m1]|] eqn:Ht; [|exact Hfrag].
    destruct (trailers_line m1 line) as [[[f oo] hh] m2] eqn:Hsl.
    apply (Hline m1 f (line, tail) oo hh m2); [done|by eapply trailers_line_leg].
  - destruct (forward_scanned m rest) as [hh m1] eqn:Hf. apply forward_scanned_leg in Hf as [Hl Hs].
    intros [= <- <- <- <- <-]. destruct (fail_closed_leg (set_state m1 SOpaque)) as [Hl2 Hs2].
    assert (same_leg m (fail_closed_on_degrade (set_state m1 SOpaque))) as Hl3.
    { etrans; [exact Hl|]. etrans; [|exact Hl2]. by repeat split. }
    split_and!; [done|simpl; lia|]. split_and!; [done|simpl; lia|].
    right. split; [done|]. right. split; [by rewrite Hs2|apply fail_closed_latched].
Qed.

Lemma chunked_loop_leg fuel m rest out hits r o h m' :
  chunked_loop fuel m rest out hits = Some (r, o, h, m') → chunked_ends m m' rest r.
Proof.
  revert m rest out hits. induction fuel as [|fuel IH]; intros m rest out hits; [done|].
  cbn [chunked_loop]. destruct (chunked_round m rest) as [[[[again rest'] oo] hh] m1] eqn:Hr.
  apply chunked_round_leg in Hr as (Hl & Hlen & Hst). destruct again.
  - intros Hloop%IH. by eapply chunked_ends_trans.
  - by intros [= <- <- <- <-].
Qed.

(** What no step at all touches. *)
Record same_conn (m m' : Http) : Prop := {
  sc_dir : ht_dir m' = ht_dir m;
  sc_plan : ht_mint_plan m' = ht_mint_plan m;
  sc_hook : ht_hook m' = None ↔ ht_hook m = None;
  sc_close : ht_must_close m = true → ht_must_close m' = true;
}.
#[local] Instance same_conn_preorder : PreOrder same_conn.
Proof.
  split; [by intros m|]. intros m1 m2 m3 [] []. split; etrans; eauto; naive_solver.
Qed.
Lemma same_leg_conn m m' : same_leg m m' → same_conn m m'.
Proof. by intros []. Qed.

(** A state that passes a body on unread, where a hook must have been latched. *)
Definition unread (m : Http) : bool :=
  match ht_state m with
  | SScan | SDrain | SOpaque => true
  | SChunked => bool_decide (ht_body_mode m = ScanOnly)
  | _ => false
  end.
Definition well_latched (m : Http) : Prop := unread m = true → latched m.

Definition head_ends (m m' : Http) : Prop := same_conn m m' ∧ ht_head_buf m' = ht_head_buf m ∧ well_latched m'.

Lemma latched_well m : latched m → well_latched m.
Proof. by intros ? _. Qed.
Lemma read_well m : unread m = false → well_latched m.
Proof. intros Hu Hu'. congruence. Qed.

Lemma head_ends_trans m m1 m' : same_conn m m1 → ht_head_buf m1 = ht_head_buf m → head_ends m1 m' → head_ends m m'.
Proof. intros Hc Hb (Hc' & Hb' & Hw). split_and!; [by etrans|congruence|done]. Qed.

Lemma fail_closed_ends m : head_ends m (fail_closed_on_degrade m).
Proof.
  destruct (fail_closed_leg m) as [Hl _]. split_and!; [by apply same_leg_conn|apply Hl|].
  apply latched_well, fail_closed_latched.
Qed.

Lemma enter_framing_state_ends m new_head hits framing swapped status :
  ht_state m = SHead → head_ends m (enter_framing_state m new_head hits framing swapped status).2.
Proof.
  intros Hs. unfold enter_framing_state. destruct (_ && _ && _ && _ && _).
  { split_and!; [by repeat split|done|by apply read_well]. }
  destruct framing as [| |len|].
  - eapply head_ends_trans; [| |apply fail_closed_ends]; by repeat split.
  - destruct swapped; cbn [snd].
    + destruct (fail_closed_ends (set_body_mode m ScanOnly)) as (Hc & Hb & _).
      pose proof (fail_closed_latched (set_body_mode m ScanOnly)) as Hl.
      set (m1 := fail_closed_on_degrade _) in *. split_and!; [|done|by apply latched_well].
      transitivity (set_body_mode m ScanOnly); [by repeat split|]. transitivity m1; [exact Hc|by repeat split].
    + split_and!; [by repeat split|done|by apply read_well].
  - cbn [snd]. destruct (len =? 0)%N; [split_and!; [by repeat split|done|by apply read_well]|].
    destruct swapped; [|split_and!; [by repeat split|done|by apply read_well]].
    eapply head_ends_trans; [| |apply fail_closed_ends]; by repeat split.
  - cbn [snd]. destruct (_ && _); [destruct (ht_pairs m)|].
    + eapply head_ends_trans; [| |apply fail_closed_ends]; by repeat split.
    + split_and!; [by repeat split|done|by apply read_well].
    + split_and!; [by repeat split|done|by apply read_well].
Qed.

Lemma classify_head_ends m new_head hits parsed :
  ht_state m = SHead → head_ends m (classify_head m new_head hits parsed).2.
Proof.
  intros Hs. unfold classify_head. set (framable := match parse_framing _ with FBroken => false | _ => true end).
  set (m0 := if _ && _ && _ then _ else m).
  assert (same_conn m m0 ∧ ht_head_buf m0 = ht_head_buf m ∧ ht_state m0 = SHead) as (Hc & Hb & Hs0).
  { unfold m0. destruct (_ && _ && _); by repeat split. }
  clearbody m0. cbv zeta. destruct (_ && _ && response_has_no_body _); [|destruct (_ && _ && _)].
  - apply (head_ends_trans m m0); [done..|]. cbn [snd].
    destruct (_ && _); (split_and!; [by repeat split|done|by apply read_well]).
  - apply (head_ends_trans m m0); [done..|]. split_and!; [by repeat split|done|by apply read_well].
  - apply (head_ends_trans m m0); [done..|]. by apply enter_framing_state_ends.
Qed.

Lemma scan_chunk_conn m data loc :
  same_conn m (scan_chunk m data loc).2 ∧ ht_head_buf (scan_chunk m data loc).2 = ht_head_buf m ∧
  ht_state (scan_chunk m data loc).2 = ht_state m.
Proof. unfold scan_chunk. destruct (scan_with_tail _ _ _ _ _). by repeat split. Qed.

Lemma process_head_ends m head : ht_state m = SHead → head_ends m (process_head m head).2.
Proof.
  intros Hs. unfold process_head. destruct (negb _).
  { destruct (scan_chunk_conn m head Header) as (Hc & Hb & _). destruct (scan_chunk m head Header) as [hits m1].
    simpl in *. eapply head_ends_trans; [exact Hc|exact Hb|].
    eapply head_ends_trans; [| |apply fail_closed_ends]; by repeat split. }
  destruct (substitute_head _ _) as [new_head hits]. destruct (parse_head_fields head _); cbn [snd].
  2: { eapply head_ends_trans; [| |apply fail_closed_ends]; by repeat split. }
  destruct (rewrite_head_hooked m new_head) as [[go new_head'] m1] eqn:Hr.
  assert (same_conn m m1 ∧ ht_head_buf m1 = ht_head_buf m ∧ ht_state m1 = SHead) as (Hc & Hb & Hs1).
  { unfold rewrite_head_hooked in Hr. destruct (parse_head_fields new_head _), (ht_hook m) eqn:Hh; simplify_eq; try done.
    destruct (rewrite_head _ _) as [[[] ?] ?]; simplify_eq; repeat split; simpl; try done; by rewrite Hh. }
  apply (head_ends_trans m m1); [done..|].
  destruct go; cbn [negb]; [|split_and!; [done|done|by apply read_well; unfold unread; simpl; rewrite Hs1]].
  destruct (parse_head_fields new_head' _); [by apply classify_head_ends|].
  split_and!; [by repeat split|done|by apply latched_well].
Qed.

Lemma find_header_boundary_bounds data e : find_header_boundary data = Some e → 4 ≤ e ≤ length data.
Proof.
  unfold find_header_boundary, find_window. destruct (position _ _) as [i|] eqn:Hp; simpl; [|done].
  intros [= <-]. apply position_lt in Hp. rewrite length_windows in Hp. simpl in Hp. lia.
Qed.

(** ** One step of the dispatch *)

(** A step leaves a well-latched machine of the same connection, and unless it
    used up its input it came closer to the end of the loop. *)
Definition step_measure (m : Http) (rest : bytes) : nat :=
  2 * (length (ht_head_buf m) + length rest) + (if bool_decide (ht_state m = SHead) then 0 else 1).
Definition step_left (s : Step) : bytes := match s with Rest r => r | Spill r => r end.
Definition step_ok (m : Http) (rest : bytes) (r : Step * bytes * list Hit * Http) : Prop :=
  let '(s, _, _, m') := r in
  same_conn m m' ∧ (well_latched m → well_latched m') ∧
  (step_left s = [] ∨ step_measure m' (step_left s) < step_measure m rest).

Lemma refresh_minted_pairs_conn m :
  same_conn m (refresh_minted_pairs m) ∧ ht_head_buf (refresh_minted_pairs m) = ht_head_buf m ∧
  ht_state (refresh_minted_pairs m) = ht_state m.
Proof. unfold refresh_minted_pairs. by destruct (ht_mint m). Qed.

Lemma step_head_ok m rest : ht_state m = SHead → step_ok m rest (step_head m rest).
Proof.
  intros Hs. unfold step_head, step_ok.
  set (n := _ `min` _). assert (n ≤ length rest) as Hn by (unfold n; lia).
  set (m0 := set_head_buf m _). cbv zeta.
  assert (ht_head_buf m0 = ht_head_buf m ++ take n rest) as Hb0 by done.
  assert (same_conn m m0) as Hc0 by by repeat split.
  destruct (find_header_boundary (ht_head_buf m0)) as [e|] eqn:Hf.
  - apply find_header_boundary_bounds in Hf. rewrite Hb0, length_app, length_take in Hf.
    destruct (refresh_minted_pairs_conn m0) as (Hc1 & Hb1 & Hs1).
    set (m1 := set_head_buf (refresh_minted_pairs m0) []).
    pose proof (process_head_ends m1 (take e (ht_head_buf m0))) as Hp.
    destruct (process_head m1 _) as [[head_out hits] m2]. destruct Hp as (Hc2 & Hb2 & Hw); [by unfold m1; simpl; rewrite Hs1|].
    split_and!; [|done|].
    + etrans; [exact Hc0|]. etrans; [exact Hc1|]. etrans; [|exact Hc2]. by repeat split.
    + right. unfold step_measure. cbn [snd] in *. rewrite Hb2, Hs. cbn [step_left].
      change (ht_head_buf m1) with (@nil byte). rewrite (length_app (drop e _)), !length_drop, Hb0, length_app, length_take.
      cbn [length].
      rewrite (bool_decide_eq_true_2 (SHead = SHead)) by done. case_bool_decide; lia.
  - destruct (Nat.ltb_spec MAX_HEAD_BYTES (length (ht_head_buf m0))) as [Hlt|Hle].
    + destruct (scan_chunk_conn (set_head_buf m0 []) (ht_head_buf m0) Header) as (Hc1 & Hb1 & Hs1).
      destruct (scan_chunk _ _ _) as [hits m1]. simpl in Hc1, Hb1, Hs1.
      destruct (fail_closed_ends (set_state m1 SDrain)) as (Hc2 & Hb2 & Hw).
      split_and!; [|done|].
      * etrans; [exact Hc0|]. transitivity (set_head_buf m0 []); [by repeat split|]. etrans; [exact Hc1|].
        etrans; [|exact Hc2]. by repeat split.
      * right. unfold step_measure. rewrite Hb2, Hs. cbn [ht_head_buf set_state step_left]. rewrite Hb1.
        rewrite length_drop. rewrite Hb0, length_app, length_take in Hlt. cbn [length ht_head_buf set_head_buf].
        rewrite (bool_decide_eq_true_2 (SHead = SHead)) by done. case_bool_decide; lia.
    + split_and!; [done| |].
      * intros _. apply read_well. unfold unread. change (ht_state m0) with (ht_state m). by rewrite Hs.
      * left. cbn [step_left]. apply length_zero_iff_nil. rewrite length_drop.
        rewrite Hb0, length_app, length_take in Hle. unfold n in *. lia.
Qed.

Lemma same_leg_latched m m' : same_leg m m' → ht_state m' = ht_state m → well_latched m → well_latched m'.
Proof.
  intros [] Hs Hw Hu Hh. apply sl_close0, Hw; [|by rewrite <- sl_hook0].
  unfold unread in *. by rewrite Hs, sl_mode0 in Hu.
Qed.

Lemma body_step_ok m rest s o h m' :
  ht_state m ≠ SHead → same_conn m m' → ht_head_buf m' = ht_head_buf m → (well_latched m → well_latched m') →
  step_left s = [] ∨ ht_state m' = SHead ∧ length (step_left s) ≤ length rest →
  step_ok m rest (s, o, h, m').
Proof.
  intros Hs Hc Hb Hw Hl. split_and!; [done..|]. destruct Hl as [Hl|[Hs' Hl]]; [by left|right].
  unfold step_measure. rewrite Hb, Hs'. rewrite bool_decide_eq_true_2, bool_decide_eq_false_2 by done. lia.
Qed.

(** The common end of a body step: still in its state with no input left, or
    back at a head. *)
Lemma leg_step_ok m m1 rest s o h eof :
  ht_state m ≠ SHead → same_leg m m1 → ht_state m1 = ht_state m →
  (eof = false → step_left s = []) → length (step_left s) ≤ length rest →
  step_ok m rest (s, o, h, if eof : bool then set_state m1 SHead else m1).
Proof.
  intros Hs Hl Hs1 Heof Hlen. apply body_step_ok; [done|..].
  - apply same_leg_conn in Hl. by destruct eof; [etrans; [exact Hl|repeat split]|].
  - destruct eof; apply Hl.
  - destruct eof; [by intros _; apply read_well|by apply same_leg_latched].
  - destruct eof; [by right|left; by apply Heof].
Qed.

Lemma step_fixed_ok m rest : ht_state m = SFixed → step_ok m rest (step_fixed m rest).
Proof.
  intros Hs. assert (ht_state m ≠ SHead) as Hne by congruence.
  unfold step_fixed. set (n := take_min _ _). set (m0 := set_fixed_remaining m _). cbv zeta.
  assert (same_leg m m0 ∧ ht_state m0 = ht_state m) as [Hl0 Hs0] by by repeat split.
  destruct (swap_region _ _ _) as [[[[emit_len region]|] hits] m1] eqn:Hsw;
    apply swap_region_leg in Hsw as (Hl & Hs1 & _); assert (same_leg m m1) as Hl1 by (by etrans).
  - destruct (negb _).
    + apply (leg_step_ok m (set_must_close m1 true) rest (Rest []) [] hits false);
        [done|by etrans; [exact Hl1|repeat split]|exact (eq_trans Hs1 Hs0)|done|apply le_0_n].
    + apply leg_step_ok; [done|done|exact (eq_trans Hs1 Hs0)| |simpl; rewrite length_drop; lia].
      intros He. by apply take_min_rest.
  - apply (leg_step_ok m m1 rest (Rest []) [] hits false);
      [done|done|exact (eq_trans Hs1 Hs0)|done|apply le_0_n].
Qed.

Lemma step_scan_ok m rest : ht_state m = SScan → step_ok m rest (step_scan m rest).
Proof.
  intros Hs. assert (ht_state m ≠ SHead) as Hne by congruence.
  unfold step_scan. set (n := take_min _ _). cbv zeta. destruct (forward_scanned _ _) as [hits m1] eqn:Hf.
  apply forward_scanned_frame' in Hf as (Hl & Hs1 & Hr).
  apply leg_step_ok; [done|etrans; [exact Hl|by repeat split]|done| |simpl; rewrite length_drop; lia].
  cbn [ht_scan_remaining set_scan_remaining]. rewrite Hr. apply take_min_rest.
Qed.

Lemma step_drain_ok m rest : ht_state m = SDrain → step_ok m rest (step_drain m rest).
Proof.
  intros Hs. assert (ht_state m ≠ SHead) as Hne by congruence.
  unfold step_drain. destruct (find_header_boundary rest) as [e|];
    destruct (forward_scanned _ _) as [hits m1] eqn:Hf; apply forward_scanned_leg in Hf as [Hl Hs1].
  - apply (leg_step_ok m m1 rest _ _ hits true); [done..|simpl; rewrite length_drop; lia].
  - destruct (fail_closed_ends (set_state m1 SOpaque)) as (Hc & Hb & Hw).
    apply body_step_ok; [done| |by rewrite Hb; apply Hl|done|by left].
    etrans; [by apply same_leg_conn|]. etrans; [|exact Hc]. by repeat split.
Qed.

Lemma step_close_ok m rest : ht_state m = SCloseDelimited → step_ok m rest (step_close m rest).
Proof.
  intros Hs. assert (ht_state m ≠ SHead) as Hne by congruence. unfold step_close.
  destruct (swap_region m rest false) as [[[[? region]|] hits] m1] eqn:Hsw;
    apply swap_region_leg in Hsw as (Hl & Hs1 & _);
    apply (leg_step_ok m m1 rest (Rest []) _ hits false); (done || apply le_0_n).
Qed.

Lemma step_opaque_ok m rest : ht_state m = SOpaque → step_ok m rest (step_opaque m rest).
Proof.
  intros Hs. assert (ht_state m ≠ SHead) as Hne by congruence. unfold step_opaque.
  destruct (forward_scanned m rest) as [hits m1] eqn:Hf. apply forward_scanned_leg in Hf as [Hl Hs1].
  destruct (fail_closed_ends m1) as (Hc & Hb & Hw).
  apply body_step_ok; [done| |by rewrite Hb; apply Hl|done|by left].
  etrans; [by apply same_leg_conn|exact Hc].
Qed.

Lemma mint_and_redact_conn m body out hits m' :
  mint_and_redact m body = (out, hits, m') →
  same_conn m m' ∧ ht_head_buf m' = ht_head_buf m ∧ ht_state m' = ht_state m ∧ ht_must_close m' = ht_must_close m.
Proof.
  unfold mint_and_redact. destruct (ht_mint_plan m) as [plan|] eqn:Hp, (ht_mint m) as [mint|] eqn:Hm.
  1: { destruct (Engine.mint_and_redact _ _ _ _) as [[? ?] ?]. intros [= <- <- <-]. by repeat split. }
  all: destruct (replace_in _ _ _); intros [= <- <- <-]; by repeat split.
Qed.

Lemma step_mint_ok m rest r : ht_state m = SMintBody → step_mint m rest = Ran r → step_ok m rest r.
Proof.
  intros Hs. assert (ht_state m ≠ SHead) as Hne by congruence. unfold step_mint.
  assert (∀ m', unread m' = false → well_latched m → well_latched m') as Hw by (intros ? ? _; by apply read_well).
  destruct (ht_mint_remaining m) as [remaining|]; cbv zeta.
  - destruct (_ =? 0)%N eqn:He.
    + destruct (finish_mint_fixed _ _ _) as [[emitted hits] m1] eqn:Hf. unfold finish_mint_fixed in Hf.
      destruct (mint_and_redact _ _) as [[? ?] m2] eqn:Hm. injection Hf as <- <- <-.
      apply mint_and_redact_conn in Hm as (Hc & Hb & _). intros [= <-].
      apply body_step_ok; [done| |simpl; by rewrite Hb|by apply Hw|right; split; [done|simpl; rewrite length_drop; lia]].
      etrans; [|by etrans; [exact Hc|repeat split]]. by repeat split.
    + intros [= <-]. apply body_step_ok; [done|by repeat split|done| |left; by apply take_min_rest].
      apply Hw. unfold unread. change (ht_state (set_mint_remaining _ _)) with (ht_state m). by rewrite Hs.
  - case_match; [|case_match].
    + intros [= <-]. apply body_step_ok; [done|by repeat split|done|by intros _; apply latched_well|by left].
    + unfold finish_mint_chunked. destruct (dechunk _) as [payload| |]; [| |done].
      * destruct (mint_and_redact _ _) as [[? ?] m2] eqn:Hm. apply mint_and_redact_conn in Hm as (Hc & Hb & _).
        intros [= <-]. apply body_step_ok; [done| |simpl; by rewrite Hb|by apply Hw|by left].
        etrans; [|by etrans; [exact Hc|repeat split]]. by repeat split.
      * intros [= <-]. apply body_step_ok; [done|by repeat split|done|by apply Hw|by left].
    + intros [= <-]. apply body_step_ok; [done|by repeat split|done| |by left].
      apply Hw. unfold unread. change (ht_state (set_mint_body _ _)) with (ht_state m). by rewrite Hs.
Qed.

Lemma step_chunked_ok m rest r : ht_state m = SChunked → step_chunked m rest = Some r → step_ok m rest r.
Proof.
  intros Hs. assert (ht_state m ≠ SHead) as Hne by congruence. unfold step_chunked.
  destruct (chunked_loop _ m rest [] []) as [[[[left out] hits] m']|] eqn:Hl; simpl; [|done]. intros [= <-].
  apply chunked_loop_leg in Hl as (Hl & Hlen & Hst).
  apply body_step_ok; [done|by apply same_leg_conn|apply Hl| |].
  - destruct Hst as [Hh|(_ & [Hh|[Ho Hlat]])]; [|by apply same_leg_latched|by intros _; apply latched_well].
    intros _. apply read_well. unfold unread. by rewrite Hh.
  - destruct Hst as [Hh|[-> _]]; [by right|by left].
Qed.

Lemma http_step_ok m rest : http_step m rest ≠ NoFuel ∧ ∀ r, http_step m rest = Ran r → step_ok m rest r.
Proof.
  unfold http_step. destruct (ht_state m) eqn:Hs; (split; [try done|intros r Hr]);
    try (injection Hr as <-;
         auto using step_head_ok, step_fixed_ok, step_scan_ok, step_drain_ok, step_opaque_ok, step_close_ok).
  - unfold step_chunked. destruct (chunked_loop_total (length rest + 3) m rest [] []) as [[[[??]?]?] Hl]; [|by rewrite Hl].
    unfold phase_weight. repeat case_match; lia.
  - destruct (step_chunked m rest) eqn:Hc; [|done]. injection Hr as <-. by apply step_chunked_ok.
  - unfold step_mint, finish_mint_chunked. clear. repeat case_match; congruence.
  - by apply step_mint_ok.
Qed.

Lemma substitute_loop_ok fuel m rest out hits :
  step_measure m rest < fuel →
  substitute_loop fuel m rest out hits ≠ NoFuel ∧
  ∀ o h m', substitute_loop fuel m rest out hits = Ran (o, h, m') →
    same_conn m m' ∧ (well_latched m → well_latched m').
Proof.
  revert m rest out hits. induction fuel as [|fuel IH]; intros m rest out hits Hf; [lia|].
  destruct rest as [|b rest]; [split; [done|by intros ??? [= _ _ <-]]|]. cbn [substitute_loop].
  destruct (http_step_ok m (b :: rest)) as [Hno Hok].
  destruct (http_step m (b :: rest)) as [[[[s oo] hh] m1]| |] eqn:Hst; [|done|done].
  destruct (Hok _ eq_refl) as (Hc & Hw & Hl).
  assert (substitute_loop fuel m1 (step_left s) (out ++ oo) (hits ++ hh) ≠ NoFuel ∧
          ∀ o h m', substitute_loop fuel m1 (step_left s) (out ++ oo) (hits ++ hh) = Ran (o, h, m') →
            same_conn m1 m' ∧ (well_latched m1 → well_latched m')) as [Hn' Hr'].
  { destruct Hl as [Hl|Hl]; [rewrite Hl|apply IH; lia].
    destruct fuel; (split; [done|by intros ??? [= _ _ <-]]). }
  destruct s; (split; [done|]); intros o h m' [Hc' Hw']%Hr'; (split; [by etrans|by auto]).
Qed.

(** Without a mint plan the machine never enters [SMintBody]. *)
Lemma fail_closed_state m : ht_state (fail_closed_on_degrade m) = ht_state m.
Proof. apply fail_closed_leg. Qed.

Lemma classify_head_no_mint m new_head hits parsed :
  ht_mint_plan m = None → ht_state (classify_head m new_head hits parsed).2 ≠ SMintBody.
Proof.
  intros Hp. unfold classify_head. set (m0 := if _ && _ && _ then _ else m).
  assert (ht_mint_plan m0 = None) as Hp0 by (unfold m0; by destruct (_ && _ && _)). clearbody m0. cbv zeta.
  destruct (_ && _ && response_has_no_body _); [done|]. destruct (_ && _ && (0 <? _)); [done|].
  unfold enter_framing_state. rewrite Hp0. cbn [bool_of_opt]. rewrite andb_false_r. cbn [andb].
  destruct (parse_framing _) as [| |len|]; cbv zeta; cbn [snd]; repeat case_match; rewrite ?fail_closed_state; done.
Qed.

Lemma step_head_no_mint m rest s o h m' :
  ht_mint_plan m = None → ht_state m = SHead → step_head m rest = (s, o, h, m') → ht_state m' ≠ SMintBody.
Proof.
  intros Hp Hs. unfold step_head. cbv zeta. set (m0 := set_head_buf m _).
  destruct (find_header_boundary _) as [e|].
  - destruct (refresh_minted_pairs_conn m0) as (Hc1 & _ & Hs1).
    set (m1 := set_head_buf (refresh_minted_pairs m0) []).
    assert (ht_mint_plan m1 = None ∧ ht_state m1 = SHead) as [Hp1 Hst1].
    { split; [etrans; [exact (sc_plan _ _ Hc1)|done]|etrans; [exact Hs1|done]]. }
    destruct (process_head m1 _) as [[ho hh] m2] eqn:Hph. intros [= _ _ _ <-].
    unfold process_head in Hph. destruct (negb _).
    { destruct (scan_chunk _ _ _). injection Hph as _ _ <-. by rewrite fail_closed_state. }
    destruct (substitute_head _ _). destruct (parse_head_fields (take e _) _).
    2: { injection Hph as _ _ <-. by rewrite fail_closed_state. }
    destruct (rewrite_head_hooked m1 _) as [[go nh] m3] eqn:Hr.
    assert (ht_mint_plan m3 = None ∧ ht_state m3 = SHead) as [Hp3 Hst3].
    { unfold rewrite_head_hooked in Hr. repeat case_match; simplify_eq; done. }
    destruct go; [|by injection Hph as _ _ <-; rewrite Hst3].
    destruct (parse_head_fields nh _); [|by injection Hph as _ _ <-].
    simpl in Hph. pose proof (classify_head_no_mint m3 nh l0 p0 Hp3) as Hcl. by rewrite Hph in Hcl.
  - destruct (_ <? _); [destruct (scan_chunk _ _ _)|]; intros [= _ _ _ <-].
    + by rewrite fail_closed_state.
    + change (ht_state m0) with (ht_state m). by rewrite Hs.
Qed.

Lemma Ran_inj {A} (a b : A) : Ran a = Ran b → a = b.
Proof. congruence. Qed.

Lemma http_step_no_mint m rest s o h m' :
  ht_mint_plan m = None → ht_state m ≠ SMintBody → http_step m rest = Ran (s, o, h, m') →
  ht_state m' ≠ SMintBody.
Proof.
  intros Hp Hne. unfold http_step. destruct (ht_state m) eqn:Hs; [..|done]; [intros Hst%Ran_inj|..].
  - by eapply step_head_no_mint.
  - intros Hst%Ran_inj. unfold step_fixed in Hst. cbv zeta in Hst.
    destruct (swap_region _ _ _) as [[[[? ?]|] ?] ?] eqn:Hsw; apply swap_region_leg in Hsw as (_ & Hs1 & _);
      change (ht_state (set_fixed_remaining m _)) with (ht_state m) in Hs1; repeat case_match; simplify_eq; simpl; congruence.
  - unfold step_chunked. destruct (chunked_loop _ _ _ _ _) as [[[[? ?] ?] ?]|] eqn:Hl; simpl; [|done].
    intros [= <- <- <- <-]. apply chunked_loop_leg in Hl as (_ & _ & [Hh|(_ & [Hh|[Hh _]])]); congruence.
  - intros Hst%Ran_inj. unfold step_scan in Hst. cbv zeta in Hst. destruct (forward_scanned _ _) eqn:Hf.
    apply forward_scanned_leg in Hf as [_ Hs1]. injection Hst as _ _ _ <-. case_match; simpl; congruence.
  - intros Hst%Ran_inj. unfold step_drain in Hst. repeat case_match; injection Hst as _ _ _ <-; [done|by rewrite fail_closed_state].
  - intros Hst%Ran_inj. unfold step_opaque in Hst. destruct (forward_scanned _ _) eqn:Hf.
    apply forward_scanned_leg in Hf as [_ Hs1]. injection Hst as _ _ _ <-. rewrite fail_closed_state. congruence.
  - intros Hst%Ran_inj. unfold step_close in Hst.
    destruct (swap_region _ _ _) as [[[[? ?]|] ?] ?] eqn:Hsw; apply swap_region_leg in Hsw as (_ & Hs1 & _);
      injection Hst as _ _ _ <-; congruence.
Qed.

Lemma substitute_loop_no_panic fuel m rest out hits :
  ht_mint_plan m = None → ht_state m ≠ SMintBody → substitute_loop fuel m rest out hits ≠ Panicked.
Proof.
  revert m rest out hits. induction fuel as [|fuel IH]; intros m rest out hits Hp Hs; destruct rest as [|b rest]; try done.
  cbn [substitute_loop]. destruct (http_step m (b :: rest)) as [[[[s oo] hh] m1]| |] eqn:Hst; [| |done].
  - pose proof (http_step_no_mint _ _ _ _ _ _ Hp Hs Hst) as Hs1.
    destruct (http_step_ok m (b :: rest)) as [_ Hok]. destruct (Hok _ Hst) as (Hc & _).
    destruct s; (apply IH; [etrans; [exact (sc_plan _ _ Hc)|exact Hp]|exact Hs1]).
  - unfold http_step in Hst. repeat case_match; congruence.
Qed.

(** A call always comes back: whatever the machine and the chunk, the
    dispatch loop ends, and the one way to panic is a chunk size in a token
    response: a machine without a mint plan never does. *)
Theorem substitute_total m chunk :
  substitute m chunk ≠ NoFuel ∧
  (ht_mint_plan m = None → ht_state m ≠ SMintBody → substitute m chunk ≠ Panicked).
Proof.
  unfold substitute. destruct chunk as [|b chunk].
  - unfold flush_held. cbv zeta. split; [|intros _ Hs];
      change (ht_state (set_head_buf m [])) with (ht_state m); repeat case_match; congruence.
  - split; [|by apply substitute_loop_no_panic].
    apply substitute_loop_ok. unfold step_measure, substitute_fuel. case_bool_decide; lia.
Qed.

Lemma Http_new_latched grants scheme host port dir hook mint :
  well_latched (Http_new grants scheme host port dir hook mint).
Proof. apply read_well. unfold Http_new, refresh_minted_pairs. by destruct mint. Qed.

End Totality.

(** ** What a body comes out as *)

Section Bodies.
Context `{!Digests, !JsonCrate, !HttpParse, !Base64, !RewriteHook}.
Context (pair : CredentialPair) (Hn : cp_needle pair ≠ []).
Let swap (d : bytes) : bytes := subst (cp_needle pair) (cp_replacement pair) 0 d.

(** No plugin, one pair, and a window it could have left behind. *)
Record plain (m : Http) : Prop := {
  pl_hook : ht_hook m = None;
  pl_pairs : ht_pairs m = [pair];
  pl_tail : ht_tail_size m = max_tail_size [pair];
  pl_held : ¬ occurs (cp_needle pair) (ht_raw_held m);
  pl_short : length (ht_raw_held m) < length (cp_needle pair);
}.

Lemma swap_region_eof m data :
  plain m → ∃ hits, swap_region m data true =
    (Some (length (ht_raw_held m ++ data), swap (ht_raw_held m ++ data)), hits, set_raw_held m []).
Proof.
  intros [Hh Hp _ _ _]. unfold swap_region. rewrite Hp, firstn_all, drop_all. cbv zeta.
  pose proof (replace_in_one pair (ht_raw_held m ++ data) Body Hn) as Hr.
  destruct (replace_in _ _ _) as [region hits]. simpl in Hr. subst region. exists hits.
  rewrite andb_false_r. change (ht_hook (set_raw_held m [])) with (ht_hook m). by rewrite Hh.
Qed.

(** In the stream the window emits the swap of a prefix, cut where it does not
    matter, and stays a window. *)
Lemma swap_region_stream m data :
  plain m → ∃ e hits, swap_region m data false =
      (Some (e, swap (take e (ht_raw_held m ++ data))), hits, set_raw_held m (drop e (ht_raw_held m ++ data))) ∧
    plain (set_raw_held m (drop e (ht_raw_held m ++ data))) ∧ e ≤ length (ht_raw_held m ++ data) ∧
    (∀ more, swap (ht_raw_held m ++ data ++ more) =
             swap (take e (ht_raw_held m ++ data)) ++ swap (drop e (ht_raw_held m ++ data) ++ more)).
Proof.
  intros [Hh Hp Ht _ _]. unfold swap_region. rewrite Hp, Ht. cbv zeta.
  set (c := ht_raw_held m ++ data). set (e := needle_safe_emit_len c [pair] (max_tail_size [pair])).
  pose proof (replace_in_one pair (take e c) Body Hn) as Hr.
  destruct (replace_in _ _ _) as [region hits]. simpl in Hr. subst region. exists e, hits.
  destruct (safe_emit_split pair c [] Hn) as (Hle & Hlen & _ & Ho). fold e in Hle, Hlen, Ho.
  split_and!; [| |done|].
  - destruct (_ && _); [done|]. change (ht_hook (set_raw_held m _)) with (ht_hook m). by rewrite Hh.
  - split; try done. simpl. rewrite length_drop. lia.
  - intros more. destruct (safe_emit_split pair c more Hn) as (_ & _ & Hreach & _). fold e in Hreach.
    rewrite app_assoc. fold c. unfold swap. rewrite <- subst_app by done. by rewrite app_assoc, take_drop.
Qed.

Lemma substitute_one m chunk s o h m' :
  chunk ≠ [] → http_step m chunk = Ran (s, o, h, m') → step_left s = [] → substitute m chunk = Ran (o, h, m').
Proof.
  intros Hne Hs Hl. unfold substitute. destruct chunk as [|b chunk]; [done|].
  assert (∃ f, substitute_fuel m (b :: chunk) = S f) as [f ->].
  { unfold substitute_fuel. exists (2 * (length (ht_head_buf m) + length (b :: chunk)) + 1). lia. }
  cbn [substitute_loop]. rewrite Hs. destruct s as [r|r]; cbn [step_left] in Hl; subst r; by destruct f.
Qed.

(** Feeding chunk after chunk, with everything emitted put together. *)
Fixpoint substitute_all (m : Http) (chunks : list bytes) : ran (bytes * Http) :=
  match chunks with
  | [] => Ran ([], m)
  | chunk :: chunks =>
      match substitute m chunk with
      | Ran (o, _, m) =>
          match substitute_all m chunks with
          | Ran (os, m) => Ran (o ++ os, m)
          | failed => failed
          end
      | Panicked => Panicked
      | NoFuel => NoFuel
      end
  end.

Lemma length_swap d : length (cp_needle pair) = length (cp_replacement pair) → length (swap d) = length d.
Proof. apply length_subst, Hn. Qed.

Lemma fixed_body_run chunks m :
  length (cp_needle pair) = length (cp_replacement pair) →
  plain m → ht_state m = SFixed → Forall (λ c, c ≠ []) chunks → concat chunks ≠ [] →
  ht_fixed_remaining m = N.of_nat (length (concat chunks)) →
  ∃ m', substitute_all m chunks = Ran (swap (ht_raw_held m ++ concat chunks), m') ∧
    ht_state m' = SHead ∧ ht_raw_held m' = [] ∧ ht_must_close m' = ht_must_close m.
Proof.
  intros Hlen. revert m. induction chunks as [|c chunks IH]; intros m Hp Hs Hall Hne Hrem; [done|].
  apply Forall_cons in Hall as [Hc Hall]. cbn [concat] in Hrem |- *. rewrite length_app in Hrem.
  assert (take_min (ht_fixed_remaining m) c = length c) as Htm by (unfold take_min; lia).
  set (m0 := set_fixed_remaining m (ht_fixed_remaining m - N.of_nat (length c))).
  assert (plain m0) as Hp0 by (by destruct Hp).
  assert (http_step m c = Ran (step_fixed m c)) as Hstep by (unfold http_step; by rewrite Hs).
  unfold step_fixed in Hstep. rewrite Htm, firstn_all, drop_all in Hstep. cbv zeta in Hstep. fold m0 in Hstep.
  cbn [substitute_all]. destruct (decide (concat chunks = [])) as [Hend|Hmore].
  - assert (chunks = []) as ->.
    { destruct chunks as [|c' cs]; [done|]. apply Forall_cons in Hall as [? _]. simpl in Hend.
      by apply app_eq_nil in Hend as [? _]. }
    assert ((ht_fixed_remaining m0 =? 0)%N = true) as He by (apply N.eqb_eq; simpl in *; lia).
    rewrite He in Hstep. destruct (swap_region_eof m0 c Hp0) as [hits Hsw].
    rewrite Hsw in Hstep. fold (swap (ht_raw_held m0 ++ c)) in Hstep. rewrite length_swap, Nat.eqb_refl in Hstep by done.
    rewrite (substitute_one _ _ _ _ _ _ Hc Hstep eq_refl). cbn [substitute_all].
    eexists. split; [simpl; by rewrite !app_nil_r|done].
  - assert ((ht_fixed_remaining m0 =? 0)%N = false) as He.
    { apply N.eqb_neq. simpl. destruct (concat chunks); [done|simpl in *; lia]. }
    rewrite He in Hstep. destruct (swap_region_stream m0 c Hp0) as (e & hits & Hsw & Hp1 & Hle & Hcut).
    rewrite Hsw in Hstep. fold (swap (take e (ht_raw_held m0 ++ c))) in Hstep.
    rewrite length_swap, length_take_le, Nat.eqb_refl in Hstep by done.
    rewrite (substitute_one _ _ _ _ _ _ Hc Hstep eq_refl).
    destruct (IH (set_raw_held m0 (drop e (ht_raw_held m0 ++ c)))) as (m' & Hrun & Hst' & Hheld' & Hclose');
      [done..|simpl; lia|].
    rewrite Hrun. exists m'. split; [|done]. f_equal. f_equal. symmetry. apply Hcut.
Qed.

(** A [Content-Length] body leaves as it should however it arrived: over
    any sequence of chunks the bytes emitted are the left-to-right swap of the
    whole body, of the same length, the machine is back at a head with nothing
    held and the leg stays open. *)
Theorem fixed_body_swapped m chunks :
  length (cp_needle pair) = length (cp_replacement pair) →
  plain m → ht_raw_held m = [] → ht_state m = SFixed → Forall (λ c, c ≠ []) chunks → concat chunks ≠ [] →
  ht_fixed_remaining m = N.of_nat (length (concat chunks)) →
  ∃ out m', substitute_all m chunks = Ran (out, m') ∧
    out = subst (cp_needle pair) (cp_replacement pair) 0 (concat chunks) ∧ length out = length (concat chunks) ∧
    ht_state m' = SHead ∧ ht_raw_held m' = [] ∧ ht_must_close m' = ht_must_close m.
Proof.
  intros Hlen Hp Hheld Hs Hall Hne Hrem. destruct (fixed_body_run chunks m) as (m' & Hrun & Hrest); [done..|].
  rewrite Hheld in Hrun. eexists _, m'. split; [exact Hrun|]. split; [done|]. split; [by apply length_swap|done].
Qed.

(** A chunked body between two chunks. *)
Record between (m : Http) : Prop := {
  bt_plain : plain m;
  bt_state : ht_state m = SChunked;
  bt_phase : ht_chunk_phase m = CSizeLine;
  bt_line : ht_line_buf m = [];
  bt_trailer : ht_trailer_buf m = [];
  bt_mode : ht_body_mode m = Substitute;
}.

Lemma take_line_fresh m line more :
  ht_line_buf m = [] → Forall (λ b, b ≠ CR) line →
  take_line m (line ++ crlf ++ more) = Some (line, more, set_line_buf m []).
Proof.
  intros Hl Hcr. unfold take_line. rewrite Hl. cbn [last]. rewrite bool_decide_eq_false_2 by done. cbn [andb].
  unfold find_crlf. rewrite (proj2 (Nat.ltb_ge _ _)) by (rewrite !length_app; simpl; lia).
  rewrite find_crlf_first by done. cbn [mbind option_bind app]. rewrite take_app_length.
  rewrite drop_app_ge by lia. replace (length line + 2 - length line) with 2 by lia. done.
Qed.

(** The three rounds of one chunk. *)
Lemma chunk_rounds m p more fuel out hits :
  between m → p ≠ [] → sized p →
  ∃ e m' hits', chunked_loop (S (S (S fuel))) m (chunk_frame p ++ crlf ++ more) out hits =
      chunked_loop fuel m' more (out ++ emit_data_chunk (swap (take e (ht_raw_held m ++ p)))) hits' ∧
    between m' ∧ ht_raw_held m' = drop e (ht_raw_held m ++ p) ∧ ht_must_close m' = ht_must_close m ∧
    (∀ rest, swap (ht_raw_held m ++ p ++ rest) =
             swap (take e (ht_raw_held m ++ p)) ++ swap (drop e (ht_raw_held m ++ p) ++ rest)).
Proof.
  intros [Hp Hs Hph Hl Ht Hm] Hne Hsz. unfold sized in Hsz. set (size := N.of_nat (length p)).
  assert (0 < size)%N as Hpos by (unfold size; destruct p; [done|simpl; lia]).
  set (m2 := set_chunk_phase (set_data_remaining (set_line_buf m []) size) CData).
  assert (chunked_round m (chunk_frame p ++ crlf ++ more) = (true, p ++ crlf ++ more, [], [], m2)) as R1.
  { unfold chunked_round, chunk_frame. rewrite Hph, <- !app_assoc.
    rewrite take_line_fresh by (done || (eapply Forall_impl; [apply hex_digits|]; intros; by apply hex_char_plain)).
    unfold size_line. rewrite parse_chunk_size_hex by lia. fold size.
    change (ht_body_mode (set_line_buf m [])) with (ht_body_mode m). rewrite Hm.
    unfold m2. by destruct size. }
  set (m3 := set_data_remaining m2 0).
  assert (plain m3) as Hp3 by by destruct Hp.
  destruct (swap_region_stream m3 p Hp3) as (e & hs & Hsw & Hp4 & Hle & Hcut).
  change (ht_raw_held m3) with (ht_raw_held m) in *.
  set (m4 := set_chunk_phase (set_raw_held m3 (drop e (ht_raw_held m ++ p))) CAfterData).
  assert (chunked_round m2 (p ++ crlf ++ more) =
          (true, crlf ++ more, emit_data_chunk (swap (take e (ht_raw_held m ++ p))), hs, m4)) as R2.
  { unfold chunked_round. change (ht_chunk_phase m2) with CData. unfold step_chunked_data.
    rewrite bool_decide_eq_false_2 by (by destruct p). cbn [andb]. cbv zeta.
    change (ht_data_remaining m2) with size.
    assert (take_min size (p ++ crlf ++ more) = length p) as -> by (unfold take_min; rewrite length_app; unfold size; lia).
    rewrite take_app_length, drop_app_length. replace (size - N.of_nat (length p))%N with 0%N by (unfold size; lia).
    fold m3. change (ht_body_mode m3) with (ht_body_mode m). rewrite Hm, Hsw. done. }
  exists e, (set_chunk_phase m4 CSizeLine), (((hits ++ []) ++ hs) ++ []).
  split; [|split; [|done]]; [|split; try done; by destruct Hp4].
  cbn [chunked_loop]. rewrite R1. cbn [chunked_loop]. rewrite R2.
  assert (chunked_round m4 (crlf ++ more) = (true, more, [], [], set_chunk_phase m4 CSizeLine)) as ->.
  { unfold chunked_round. change (ht_chunk_phase m4) with CAfterData. unfold step_chunked_after_data.
    change (ht_line_buf m4) with (@nil byte). cbn [app crlf].
    change (ht_body_mode m4) with (ht_body_mode m). by rewrite Hm. }
  by rewrite !app_nil_r.
Qed.

(** The last two rounds: the terminator flushes the window. *)
Lemma terminator_rounds m next fuel out hits :
  between m →
  ∃ hits' m', chunked_loop (S (S fuel)) m (chunk_end ++ next) out hits =
      Some (next, out ++ emit_data_chunk (swap (ht_raw_held m)) ++ chunk_end, hits', m') ∧
    ht_state m' = SHead ∧ ht_raw_held m' = [] ∧ ht_must_close m' = ht_must_close m.
Proof.
  intros [Hp Hs Hph Hl Ht Hm].
  assert (plain (set_line_buf m [])) as Hp1 by by destruct Hp.
  destruct (swap_region_eof (set_line_buf m []) [] Hp1) as [hs Hsw].
  change (ht_raw_held (set_line_buf m [])) with (ht_raw_held m) in Hsw. rewrite app_nil_r in Hsw.
  set (m2 := set_chunk_phase (set_raw_held (set_line_buf m []) []) CTrailers).
  assert (chunked_round m (chunk_end ++ next) =
          (true, crlf ++ next, emit_data_chunk (swap (ht_raw_held m)) ++ bs "0" ++ crlf, hs, m2)) as R1.
  { unfold chunked_round, chunk_end. rewrite Hph, <- !app_assoc. rewrite take_line_fresh by (done || by repeat constructor).
    unfold size_line. change (parse_chunk_size (bs "0")) with (Some 0%N). cbv iota beta.
    change (ht_body_mode (set_line_buf m [])) with (ht_body_mode m). by rewrite Hm, Hsw. }
  cbn [chunked_loop]. rewrite R1. cbn [chunked_loop].
  set (m3 := set_trailer_buf (set_line_buf m2 []) []).
  assert (chunked_round m2 (crlf ++ next) = (false, next, crlf, [], finish_chunked_message m3)) as ->.
  { unfold chunked_round. change (ht_chunk_phase m2) with CTrailers.
    pose proof (take_line_fresh m2 [] next eq_refl (Forall_nil_2 _)) as Htl. rewrite app_nil_l in Htl. rewrite Htl.
    unfold trailers_line. change (ht_body_mode (set_line_buf m2 [])) with (ht_body_mode m). rewrite Hm.
    change (ht_trailer_buf (set_line_buf m2 [])) with (ht_trailer_buf m). rewrite Ht. fold m3.
    unfold rewrite_trailer_block. change (ht_pairs m3) with (ht_pairs m). rewrite (pl_pairs _ Hp).
    pose proof (replace_in_one pair [] Body Hn) as Hr. unfold replace_in, replace_step in Hr |- *. cbn [foldl fst snd] in Hr |- *.
    destruct (replace_bytes [] _ _) eqn:Hb; cbn [fst] in *; [|done].
    unfold replace_bytes in Hb. rewrite bool_decide_eq_false_2, (proj2 (Nat.ltb_lt _ _)) in Hb; try done.
    destruct (cp_needle pair); [done|simpl; lia]. }
  eexists _, _. split; [by rewrite <- !app_assoc|done].
Qed.

Lemma chunked_body_run payloads m next fuel out hits :
  between m → Forall (λ p, p ≠ []) payloads → Forall sized payloads → 3 * length payloads + 2 ≤ fuel →
  ∃ regions hits' m', chunked_loop fuel m (enchunk payloads ++ chunk_end ++ next) out hits =
      Some (next, out ++ enchunk regions ++ chunk_end, hits', m') ∧
    concat regions = swap (ht_raw_held m ++ concat payloads) ∧
    ht_state m' = SHead ∧ ht_raw_held m' = [] ∧ ht_must_close m' = ht_must_close m.
Proof.
  intros Hb Hne Hsz. revert m fuel out hits Hb.
  induction Hne as [|p ps Hp _ IH]; intros m fuel out hits Hb Hf.
  - destruct fuel as [|[|fuel]]; [simpl in Hf; lia..|].
    destruct (terminator_rounds m next fuel out hits Hb) as (hits' & m' & Hrun & Hrest).
    exists [swap (ht_raw_held m)], hits', m'. split; [|split; [|done]].
    + rewrite enchunk_cons. cbn [enchunk map concat app]. by rewrite app_nil_r.
    + cbn [concat]. by rewrite !app_nil_r.
  - apply Forall_cons in Hsz as [Hszp Hsz]. destruct fuel as [|[|[|fuel]]]; [simpl in Hf; lia..|].
    assert (enchunk (p :: ps) ++ chunk_end ++ next = chunk_frame p ++ crlf ++ (enchunk ps ++ chunk_end ++ next)) as ->.
    { rewrite enchunk_cons. unfold emit_data_chunk. rewrite bool_decide_eq_false_2 by done. by rewrite <- !app_assoc. }
    destruct (chunk_rounds m p (enchunk ps ++ chunk_end ++ next) fuel out hits Hb Hp Hszp)
      as (e & m1 & hits1 & Hrun & Hb1 & Hheld & Hclose & Hcut).
    set (region := swap (take e (ht_raw_held m ++ p))) in *.
    destruct (IH Hsz m1 fuel (out ++ emit_data_chunk region) hits1 Hb1) as (rs & hits' & m' & Hrun' & Hconcat & Hst & Hh & Hc).
    { simpl in Hf. lia. }
    exists (region :: rs), hits', m'. split; [|split; [|split_and!; [done|done|congruence]]].
    + rewrite Hrun, Hrun', enchunk_cons. by rewrite <- !app_assoc.
    + cbn [concat]. rewrite Hconcat, Hheld. symmetry. apply Hcut.
Qed.

(** C6: A chunked body is read, swapped and framed anew, on a leg with a
    single credential pair (with a nonempty needle), no plugin and a body to
    substitute, between two chunks and with nothing held. Given in one call
    the whole body, as chunks with canonical sizes (upper-case hexadecimal, no
    extension) and nonempty payloads whose lengths, and that of the swapped
    whole, fit a [usize], its terminator without trailers and whatever
    follows, the step emits well-formed chunks whose payload is the swap of
    the body's payload, needles that span chunks included, leaves what follows
    for the next message and is back at a head with nothing held. *)
Theorem chunked_body_swapped m payloads next :
  between m → ht_raw_held m = [] → Forall (λ p, p ≠ []) payloads → Forall sized payloads →
  sized (subst (cp_needle pair) (cp_replacement pair) 0 (concat payloads)) →
  ∃ out hits m', step_chunked m (enchunk payloads ++ chunk_end ++ next) = Some (Rest next, out, hits, m') ∧
    dechunk out = Payload (subst (cp_needle pair) (cp_replacement pair) 0 (concat payloads)) ∧
    (∃ body, out = body ++ chunk_end) ∧
    ht_state m' = SHead ∧ ht_raw_held m' = [] ∧ ht_must_close m' = ht_must_close m.
Proof.
  intros Hb Hheld Hne Hsz Hszs. unfold step_chunked.
  destruct (chunked_body_run payloads m next (length (enchunk payloads ++ chunk_end ++ next) + 3) [] [] Hb Hne Hsz)
    as (rs & hits & m' & Hrun & Hconcat & Hrest).
  { pose proof (length_enchunk payloads Hne). rewrite length_app. lia. }
  rewrite Hrun. cbn [mbind option_bind app]. rewrite Hheld in Hconcat.
  eexists _, hits, m'. split; [done|]. split; [|split; [by eexists|done]].
  unfold chunk_end. rewrite dechunk_enchunk; [by rewrite Hconcat|]. apply sized_concat. by rewrite Hconcat.
Qed.
End Bodies.

(** ** Framing is never lied about *)

Section FramingSafety.
Context `{!Digests, !JsonCrate, !HttpParse, !Base64, !RewriteHook}.

Lemma needle_safe_emit_len_le data pairs bound : needle_safe_emit_len data pairs bound ≤ length data.
Proof.
  unfold needle_safe_emit_len. assert (length data - needle_prefix_suffix_len data pairs bound ≤ length data) as He by lia.
  revert He. generalize (length data - needle_prefix_suffix_len data pairs bound) as e.
  induction pairs as [|p pairs IH]; intros e He; [done|]. cbn [foldl]. apply IH.
  unfold safe_emit_pair. destruct (_ || _); [done|]. by apply safe_emit_loop_le.
Qed.

Lemma swap_region_some m data eof e region hits m' :
  swap_region m data eof = (Some (e, region), hits, m') →
  ht_raw_held m' = drop e (ht_raw_held m ++ data) ∧ e ≤ length (ht_raw_held m ++ data) ∧
  (eof = true → e = length (ht_raw_held m ++ data)) ∧ ht_must_close m' = ht_must_close m ∧
  ht_fixed_remaining m' = ht_fixed_remaining m ∧ ht_state m' = ht_state m.
Proof.
  unfold swap_region. cbv zeta.
  pose proof (needle_safe_emit_len_le (ht_raw_held m ++ data) (ht_pairs m) (ht_tail_size m)) as Hle.
  set (c := ht_raw_held m ++ data) in *. set (e0 := if eof then _ else _).
  assert (e0 ≤ length c ∧ (eof = true → e0 = length c)) as [He0 Heof] by (unfold e0; by destruct eof).
  clearbody e0. destruct (replace_in _ _ _) as [rg hh].
  destruct (_ && _); [by intros [= <- <- <- <-]|].
  change (ht_hook (set_raw_held m _)) with (ht_hook m). destruct (ht_hook m); [|by intros [= <- <- <- <-]].
  destruct (rewrite_chunk _ _ _) as [[[] ?] ?]; [by intros [= <- <- <- <-]|done].
Qed.

(** A [Content-Length] is kept to: whatever the pairs and whatever a plugin
    does to a region, a step that leaves the connection open emits exactly as
    many bytes as it takes out of the held window and the declared length, so
    the body the peer sees is as long as the head said; any drift latches the
    connection closed, and nothing of the drifted region goes out. *)
Theorem fixed_body_never_drifts m rest s out hits m' :
  ht_state m = SFixed → step_fixed m rest = (s, out, hits, m') →
  (ht_must_close m' = false →
     N.of_nat (length out + length (ht_raw_held m')) + ht_fixed_remaining m' =
     N.of_nat (length (ht_raw_held m)) + ht_fixed_remaining m)%N ∧
  (ht_must_close m' = false → ht_state m' = SHead → ht_fixed_remaining m' = 0%N ∧ ht_raw_held m' = []) ∧
  (ht_must_close m = false → ht_must_close m' = true → out = []).
Proof.
  intros Hs. unfold step_fixed. pose proof (take_min_le (ht_fixed_remaining m) rest) as [Hn1 Hn2].
  set (n := take_min _ _) in *. set (m0 := set_fixed_remaining m _). cbv zeta.
  destruct (swap_region m0 _ _) as [[[[e region]|] hs] m1] eqn:Hsw.
  2: { apply swap_region_leg in Hsw as (_ & _ & Hc). intros [= <- <- <- <-]. rewrite Hc by done. by split_and!. }
  apply swap_region_some in Hsw as (Hh & He & Heof & Hclose & Hrem & Hst0).
  change (ht_raw_held m0) with (ht_raw_held m) in *. change (ht_state m0) with (ht_state m) in *.
  change (ht_must_close m0) with (ht_must_close m) in *.
  destruct (Nat.eqb_spec (length region) e) as [Hre|Hre]; cbn [negb]; intros [= <- <- <- <-].
  2: { split_and!; [done|done|done]. }
  change (ht_fixed_remaining m0) with (ht_fixed_remaining m - N.of_nat n)%N in *.
  set (eof := (_ =? 0)%N). assert (ht_raw_held (if eof then set_state m1 SHead else m1) = ht_raw_held m1 ∧
    ht_fixed_remaining (if eof then set_state m1 SHead else m1) = ht_fixed_remaining m1 ∧
    ht_must_close (if eof then set_state m1 SHead else m1) = ht_must_close m1) as (-> & -> & ->) by by destruct eof.
  split_and!.
  - intros _. rewrite Hh, Hrem, length_drop, Hre, length_app, length_take in *. lia.
  - intros _ Hst. assert (eof = true) as Ht.
    { destruct eof; [done|congruence]. }
    rewrite Hrem, Hh. split; [by apply N.eqb_eq|]. rewrite Heof by done. apply drop_all.
  - congruence.
Qed.
End FramingSafety.

(** ** Where the chunked parser and the token buffer slip *)

Section Slips.
Context `{!Digests, !JsonCrate, !HttpParse, !Base64, !RewriteHook}.

(** A size line that outgrows a head is forwarded twice: the round that breaks
    the framing emits the buffered line, which already holds the bytes at
    hand, and the next round emits those bytes again. *)
Theorem oversize_line_forwarded_twice m rest :
  ht_chunk_phase m = CSizeLine → ht_line_buf m = [] → find_crlf rest = None →
  MAX_HEAD_BYTES < length rest →
  ∃ hits m', step_chunked m rest = Some (Rest [], rest ++ rest, hits, m').
Proof.
  intros Hp Hl Hf Hlen. unfold step_chunked. replace (length rest + 3) with (S (S (S (length rest)))) by lia.
  assert (∃ h m1, chunked_round m rest = (true, rest, rest, h, m1) ∧ ht_chunk_phase m1 = CBroken) as (h & m1 & R1 & Hp1).
  { unfold chunked_round. rewrite Hp. unfold take_line. rewrite Hl, Hf. cbn [last]. rewrite bool_decide_eq_false_2 by done.
    cbn [andb mbind option_bind]. unfold fragment_round. rewrite Hl. cbn [app]. cbv zeta.
    change (ht_line_buf (set_line_buf m rest)) with rest. rewrite (proj2 (Nat.ltb_lt _ _) Hlen). cbn [orb].
    destruct (forward_scanned _ _) as [h m1]. by eexists _, _. }
  cbn [chunked_loop]. rewrite R1. cbn [chunked_loop]. unfold chunked_round at 1. rewrite Hp1.
  destruct (forward_scanned m1 rest) as [h2 m2]. by eexists _, _.
Qed.

(** Behind a chunk's data, a CR that is not followed by LF is forwarded but the
    byte after it is dropped. *)
Theorem byte_after_lone_cr_lost m b rest :
  ht_chunk_phase m = CAfterData → ht_line_buf m = [CR] → b ≠ LF →
  ∃ hits m', step_chunked m (b :: rest) = Some (Rest [], CR :: rest, hits, m').
Proof.
  intros Hp Hl Hb. unfold step_chunked. cbn [length Nat.add].
  assert (∃ h m1, chunked_round m (b :: rest) = (true, rest, [CR], h, m1) ∧ ht_chunk_phase m1 = CBroken)
    as (h & m1 & R1 & Hp1).
  { unfold chunked_round, step_chunked_after_data. rewrite Hp, Hl. cbv zeta.
    rewrite (bool_decide_eq_false_2 (b = LF)) by done.
    destruct (forward_scanned _ _) as [h m1].  by eexists _, _. }
  replace (length rest + 3) with (S (length rest + 2)) by lia.
  cbn [chunked_loop]. rewrite R1. cbn [chunked_loop]. unfold chunked_round at 1. rewrite Hp1.
  destruct (forward_scanned m1 rest) as [h2 m2]. by eexists _, _.
Qed.

(** An encoded chunked body gets its last CRLF made up at the size line of the
    terminator, so the CRLF on the wire, or the trailers, go to the next head. *)
Theorem scan_only_terminator_doubled m rest :
  ht_chunk_phase m = CSizeLine → ht_line_buf m = [] → ht_body_mode m = ScanOnly →
  ∃ m', step_chunked m (bs "0" ++ crlf ++ rest) = Some (Rest rest, chunk_end, [], m') ∧ ht_state m' = SHead.
Proof.
  intros Hp Hl Hm. unfold step_chunked.
  replace (length (bs "0" ++ crlf ++ rest) + 3) with (S (length rest + 5)) by (rewrite !length_app; simpl; lia).
  assert (chunked_round m (bs "0" ++ crlf ++ rest) =
          (false, rest, chunk_end, [], finish_chunked_message (set_line_buf m []))) as R1.
  { unfold chunked_round. rewrite Hp, take_line_fresh by (done || by repeat constructor). unfold size_line.
    change (parse_chunk_size (bs "0")) with (Some 0%N). cbv iota beta.
    change (ht_body_mode (set_line_buf m [])) with (ht_body_mode m). by rewrite Hm. }
  cbn [chunked_loop]. rewrite R1. eexists. by split.
Qed.
End Slips.

(** *** Concrete machines *)

Definition sample_hook : RewriteHook := {|
  hook_state := unit;
  rewrite_head h head := (VContinue, head, h);
  rewrite_trailers h headers := (VContinue, headers, h);
  rewrite_chunk h region eof := (VContinue, region, h);
|}.

Section Samples.
#[local] Existing Instances sample_hook sample_digests sample_json sample_httparse sample_base64.

Definition sample_pair : CredentialPair :=
  {| cp_needle := bs "decoy!"; cp_replacement := bs "secret"; cp_label := bs "t" |}.
Definition sample_http (dir : Direction) (hook : option unit) : Http :=
  Build_Http sample_hook [sample_pair] dir SHead [] [] [] [] CSizeLine 0 [] (max_tail_size [sample_pair]) 0 Substitute
    0 0 0 false hook [sample_pair] None None [] [] None.

(** The response side of a token endpoint, with an empty store. *)
Definition sample_issuer : Http :=
  Build_Http sample_hook [] Upstream SHead [] [] [] [] CSizeLine 0 [] 0 0 Substitute 0 0 0 false None [] (Some ∅)
    (Some {| pl_label := bs "issuer"; pl_pattern := Some (bs "decoy"); pl_fields := [bs "access_token"] |}) [] [] None.
Definition chunked_head : bytes :=
  bs "HTTP/1.1 200 OK" ++ crlf ++ bs "Transfer-Encoding: chunked" ++ crlf ++ crlf.

(** An empty response of a token endpoint is held until the connection ends,
    and then closes it: the guest never sees the head. *)
Theorem empty_token_response_held :
  let head := bs "HTTP/1.1 200 OK" ++ crlf ++ bs "Content-Length: 0" ++ crlf ++ crlf in
  ∃ hits m, Http_feed sample_issuer head = Ran ((Hold, hits), m) ∧ ht_state m = SMintBody ∧
    ∃ hits' m', Http_feed m [] = Ran ((Close, hits'), m').
Proof. eexists _, _. split; [by vm_compute|]. split; [done|]. eexists _, _. by vm_compute. Qed.

(** An empty chunked token response leaves with two terminators. *)
Theorem empty_chunked_token_two_terminators :
  ∃ hits m, Http_feed sample_issuer (chunked_head ++ chunk_end) =
    Ran ((Emit (chunked_head ++ chunk_end ++ chunk_end), hits), m) ∧ ht_must_close m = false.
Proof. eexists _, _. split; [by vm_compute|done]. Qed.

(** The head that follows a chunked token response in one arrival is lost. *)
Theorem response_behind_token_lost :
  let body := enchunk [bs "access_token=real"] ++ chunk_end in
  ∃ out hits m, Http_feed sample_issuer (chunked_head ++ body ++ bs "HTTP/1.1 404") = Ran ((Emit out, hits), m) ∧
    Http_feed sample_issuer (chunked_head ++ body) = Ran ((Emit out, hits), m) ∧
    ht_state m = SHead ∧ ht_head_buf m = [].
Proof. eexists _, _, _. split_and!; by vm_compute. Qed.

(** At the end of the stream a head that is not complete is forwarded as it is,
    and the machine is opaque, without the latch though it has a plugin. *)
Example end_forwards_partial_head :
  ∃ hits m, Http_feed (sample_http Downstream (Some tt)) (bs "POST / HTTP/1.1") = Ran ((Hold, hits), m) ∧
    ∃ hits' m', Http_feed m [] = Ran ((Emit (bs "POST / HTTP/1.1"), hits'), m') ∧
      unread m' = true ∧ ht_hook m' ≠ None ∧ ht_must_close m' = false.
Proof. eexists _, _. split; [by vm_compute|]. eexists _, _. split; [by vm_compute|]. done. Qed.

(** A chunk size next to 2^64 in a token response panics. *)
Theorem token_chunk_size_panics :
  Http_feed sample_issuer (chunked_head ++ bs "FFFFFFFFFFFFFFFF" ++ crlf ++ crlf ++ chunk_end) = Panicked.
Proof. by vm_compute. Qed.

Lemma sample_plain dir : plain sample_pair (sample_http dir None).
Proof. split; try done; [|simpl; lia]. intros ([|i] & Hi & Hp); [|simpl in Hi; lia]. by destruct Hp. Qed.

Lemma fixed_body_swapped_witness :
  let m := set_fixed_remaining (set_state (sample_http Downstream None) SFixed) 16 in
  ∃ out m', substitute_all m [bs "key=de"; bs "coy!&"; bs "x=yzw"] = Ran (out, m') ∧ out = bs "key=secret&x=yzw".
Proof.
  intros m. destruct (fixed_body_swapped sample_pair ltac:(done) m [bs "key=de"; bs "coy!&"; bs "x=yzw"])
    as (out & m' & Hrun & Hout & _).
  - reflexivity.
  - by destruct (sample_plain Downstream).
  - reflexivity.
  - reflexivity.
  - by repeat constructor.
  - discriminate.
  - reflexivity.
  - exists out, m'. split; [exact Hrun|]. rewrite Hout. by vm_compute.
Defined.

Lemma chunked_body_swapped_witness :
  let m := set_state (sample_http Downstream None) SChunked in
  ∃ out hits m', step_chunked m (enchunk [bs "a=dec"; bs "oy!"] ++ chunk_end ++ bs "GET /") = Some (Rest (bs "GET /"), out, hits, m') ∧
    dechunk out = Payload (bs "a=secret").
Proof.
  intros m. destruct (chunked_body_swapped sample_pair ltac:(done) m [bs "a=dec"; bs "oy!"] (bs "GET /"))
    as (out & hits & m' & Hrun & Hout & _).
  - split; try reflexivity. by destruct (sample_plain Downstream).
  - reflexivity.
  - by repeat constructor.
  - by repeat constructor.
  - by vm_compute.
  - exists out, hits, m'. split; [exact Hrun|]. rewrite Hout. by vm_compute.
Defined.

Lemma fixed_body_never_drifts_witness :
  let m := set_fixed_remaining (set_state (sample_http Downstream None) SFixed) 11 in
  let '(_, out, _, m') := step_fixed m (bs "key=deco") in
  (N.of_nat (length out + length (ht_raw_held m')) + ht_fixed_remaining m' = 11)%N ∧ out = bs "key=".
Proof.
  intros m. destruct (step_fixed m (bs "key=deco")) as [[[s out] hits] m'] eqn:Hs.
  destruct (fixed_body_never_drifts m (bs "key=deco") s out hits m' eq_refl Hs) as [Hlen _].
  vm_compute in Hs. injection Hs as <- <- <- <-. split; [exact (Hlen eq_refl)|reflexivity].
Defined.

End Samples.
