(* ===== verification/H2.v ===== *)
(** * The HTTP/2 machine

    [crates/hodor-proxy/src/transports/http/h2.rs]: one direction of one HTTP/2
    connection over arriving chunks. Frames are cut from the buffer; header
    blocks are decoded, swapped, shown to the plugin and encoded again; DATA
    payloads go through a hold-back window per stream, or are buffered whole
    where tokens are minted; a framing violation degrades to scan-only
    forwarding for good. HPACK is the [httlib_hpack] crate, a parameter. *)

From S2P Require Import Prelude Decoy ConnString Grants Mint Engine HttpHead.

(** ** Constants *)

Definition H2_PREFACE : bytes := bs "PRI * HTTP/2.0" ++ crlf ++ crlf ++ bs "SM" ++ crlf ++ crlf.
Definition H2_MAX_BLOCK : nat := 64 * 1024.
Definition H2_MAX_FIELDS : nat := 1024.
Definition H2_MAX_STREAMS : nat := 1024.
Definition H2_OUTBOUND_PAYLOAD : nat := 16 * 1024.
Definition F_DATA : N := 0x0.
Definition F_HEADERS : N := 0x1.
Definition F_RST_STREAM : N := 0x3.
Definition F_PUSH_PROMISE : N := 0x5.
Definition F_CONTINUATION : N := 0x9.
Definition FLAG_END_STREAM : N := 0x1.
Definition FLAG_END_HEADERS : N := 0x4.
Definition FLAG_PADDED : N := 0x8.
Definition FLAG_PRIORITY : N := 0x20.

(** A decoded field: name, value, HPACK flags. *)
Definition Field : Type := bytes * bytes * N.

(** [httlib_hpack]: the two coders carry their dynamic tables; [None] is an
    error. *)
Class Hpack := {
  HpackDecoder : Type;
  HpackEncoder : Type;
  decoder_default : HpackDecoder;
  encoder_default : HpackEncoder;
  NEVER_INDEXED : N;
  hpack_decode : HpackDecoder → bytes → option (list Field) * HpackDecoder;
  hpack_encode : HpackEncoder → Field → option bytes * HpackEncoder;
}.

(** ** Frames *)

(** [flags & flag != 0]. *)
Definition flag_set (flags flag : N) : bool := negb (N.land flags flag =? 0)%N.

(** The three length bytes of [len.to_be_bytes()[1..]]. *)
Definition frame_head_len (payload : bytes) : bytes :=
  let len := N.of_nat (length payload) in
  drop 1 (be32 (if (len <=? 2 ^ 32 - 1)%N then len else 2 ^ 32 - 1)%N).
Definition append_frame (kind flags stream_id : N) (payload : bytes) : bytes :=
  frame_head_len payload ++ [byte_of kind; byte_of flags] ++ be32 stream_id ++ payload.

(** Frames no longer than the 24-bit length allows. *)
Fixpoint split_frames (fuel : nat) (stream_id : N) (rest : bytes) : bytes :=
  match fuel, rest with
  | 0, _ | _, [] => []
  | S fuel, _ =>
      let take_ := take_min 0xffffff rest in
      append_frame F_DATA 0 stream_id (take take_ rest) ++ split_frames fuel stream_id (drop take_ rest)
  end.
Definition data_frames (stream_id : N) (body : bytes) : bytes := split_frames (length body) stream_id body.

Fixpoint header_frames (fuel : nat) (stream_id : N) (end_stream first : bool) (rest : bytes) : bytes :=
  match fuel with
  | 0 => []
  | S fuel =>
      if first || negb (bool_decide (rest = [])) then
        let take_ := Nat.min (length rest) H2_OUTBOUND_PAYLOAD in
        let flags := N.lor (if length rest =? take_ then FLAG_END_HEADERS else 0)
                           (if first && end_stream then FLAG_END_STREAM else 0) in
        append_frame (if first then F_HEADERS else F_CONTINUATION) flags stream_id (take take_ rest) ++
        header_frames fuel stream_id end_stream false (drop take_ rest)
      else []
  end.
Definition append_header_frames (stream_id : N) (end_stream : bool) (block : bytes) : bytes :=
  header_frames (S (length block)) stream_id end_stream true block.

Definition headers_fragment (flags : N) (payload : bytes) : option bytes :=
  '(start, pad_len) ← (if flag_set flags FLAG_PADDED then pad ← head payload; Some (1, N.to_nat (u8 pad))
                       else Some (0, 0));
  let start := if flag_set flags FLAG_PRIORITY then start + 5 else start in
  if length payload <? start + pad_len then None
  else Some (take (length payload - pad_len - start) (drop start payload)).

Definition data_payload (flags : N) (payload : bytes) : option bytes :=
  if negb (flag_set flags FLAG_PADDED) then Some payload
  else
    pad ← head payload;
    let pad_len := N.to_nat (u8 pad) in
    if length payload <? 1 + pad_len then None
    else Some (take (length payload - pad_len - 1) (drop 1 payload)).

(** The fields of a complete frame. *)
Definition frame_len (buf : bytes) : nat := N.to_nat (of_be (take 3 buf)).
Definition frame_kind (raw : bytes) : N := octet raw 3.
Definition frame_flags (raw : bytes) : N := octet raw 4.
Definition frame_stream (raw : bytes) : N := N.land (of_be (take 4 (drop 5 raw))) 0x7fffffff.

(** ** Header values *)

Definition field_named (name : bytes) (field : Field) : bool := eq_ignore_case field.1.1 name.

(** [value.trim().parse::<u16>().ok()] of a UTF-8 value. *)
Definition parse_status (value : bytes) : option N := from_str_radix u16_max 10 (trim value).
Definition status_field (field : Field) : option N :=
  if field_named (bs ":status") field && utf8_valid field.1.2 then parse_status field.1.2 else None.

Definition is_head_method (headers : list Field) : bool :=
  existsb (λ f, field_named (bs ":method") f && eq_ignore_case f.1.2 (bs "head")) headers.
Definition response_status_no_body (headers : list Field) : bool :=
  response_has_no_body (find_map status_field headers).

Section Values.
Context `{!Base64}.

Definition substitute_basic_value (value needle replacement : bytes) : option bytes :=
  '(scheme, encoded) ← split_once_ws value;
  if negb (eq_ignore_case scheme (bs "basic")) then None
  else
    decoded ← b64_decode (trim encoded);
    if negb (utf8_valid decoded) || negb (str_contains decoded needle) then None
    else Some (bs "Basic " ++ b64_encode (str_replace decoded needle replacement)).

(** One pair on one field: the field, and whether a Basic or a plain value hit. *)
Definition basic_value (pair : CredentialPair) (field : Field) : option bytes :=
  if field_named (bs "authorization") field && utf8_valid (cp_needle pair) && utf8_valid (cp_replacement pair) &&
     utf8_valid field.1.2
  then substitute_basic_value field.1.2 (cp_needle pair) (cp_replacement pair) else None.
Definition substitute_field (pair : CredentialPair) (field : Field) : Field * bool * bool :=
  let '(name, value, flag) := field in
  if field_named (bs ":authority") field then (field, false, false)
  else
    match basic_value pair field with
    | Some new_val => ((name, new_val, flag), true, false)
    | None =>
        match replace_bytes value (cp_needle pair) (cp_replacement pair) with
        | Some next => ((name, next, flag), false, true)
        | None => (field, false, false)
        end
    end.
Definition substitute_pair (acc : list Field * list Hit) (pair : CredentialPair) : list Field * list Hit :=
  let r := map (substitute_field pair) acc.1 in
  let hit location := {| hit_label := cp_label pair; hit_location := location |} in
  (map (λ x, x.1.1) r,
   acc.2 ++ (if existsb (λ x, x.1.2) r then [hit BasicAuth] else []) ++ (if existsb (λ x, x.2) r then [hit Header] else [])).
Definition substitute_h2_values (headers : list Field) (pairs : list CredentialPair) : list Field * list Hit :=
  foldl substitute_pair (headers, []) pairs.
End Values.

(** ** The plugin's view of a head *)

Definition is_pseudo (name : bytes) : bool := bool_decide (head name = Some Byte.x3a).
Definition h2_plugin_header (field : Field) : PluginHeader :=
  {| ph_name := utf8_lossy field.1.1; ph_value := field.1.2 |}.
Definition regular_h2_headers (headers : list Field) : list PluginHeader :=
  map h2_plugin_header (filter (λ f : Field, is_pseudo f.1.1 = false) headers).
Definition pseudo_value (headers : list Field) (name : bytes) : option bytes :=
  find_map (λ f, if field_named name f then Some (utf8_lossy f.1.2) else None) headers.

Section Head.
Context `{!RewriteHook, !Hpack}.

Definition never_indexed (header : PluginHeader) : Field := (ph_name header, ph_value header, NEVER_INDEXED).

(** The pseudo-headers that come from the plugin's head, and its regular ones. *)
Definition hooked_head (is_response : bool) (head : PluginHead) : list (bytes * bytes) * list PluginHeader :=
  match head, is_response with
  | PRequest method path_with_query headers, false => ([(bs ":method", method); (bs ":path", path_with_query)], headers)
  | PResponse status headers, true => ([(bs ":status", dec status)], headers)
  | PRequest _ _ headers, true | PResponse _ headers, false => ([], headers)
  end.
Definition rebuild_h2_head (headers : list Field) (pseudos : list (bytes * bytes)) (hooked : list PluginHeader)
    : list Field :=
  let others := filter (λ f : Field, is_pseudo f.1.1 = true ∧ existsb (λ p, eq_ignore_case p.1 f.1.1) pseudos = false)
                  headers in
  map (λ p, (p.1, p.2, NEVER_INDEXED)) pseudos ++ others ++ map never_indexed hooked.

(** (whether the head goes on, the fields, the hook). *)
Definition rewrite_h2_head (hook : hook_state) (headers : list Field) : bool * list Field * hook_state :=
  let is_response := existsb (field_named (bs ":status")) headers in
  let head :=
    if is_response then
      status ← pseudo_value headers (bs ":status") ≫= parse_status;
      Some (PResponse status (regular_h2_headers headers))
    else
      Some (PRequest (default [] (pseudo_value headers (bs ":method"))) (default [] (pseudo_value headers (bs ":path")))
              (regular_h2_headers headers)) in
  match head with
  | None => (true, headers, hook)
  | Some head =>
      let '(verdict, head, hook) := rewrite_head hook head in
      match verdict with
      | VClose => (false, headers, hook)
      | VContinue =>
          let '(pseudos, hooked) := hooked_head is_response head in
          (true, rebuild_h2_head headers pseudos hooked, hook)
      end
  end.
End Head.

(** ** The machine *)

Record H2Block := {
  bk_stream : N;
  bk_end_stream : bool;
  bk_fragments : bytes;
  bk_raw : bytes;
}.
Inductive H2Phase := Preface | Framing | Opaque.
#[export] Instance H2Phase_eq_decision : EqDecision H2Phase.
Proof. solve_decision. Defined.

Record H2 `{!RewriteHook, !Hpack} := {
  h2_pairs : list CredentialPair;
  h2_dir : Direction;
  h2_hook : option hook_state;
  h2_decoder : HpackDecoder;
  h2_encoder : HpackEncoder;
  h2_buffer : bytes;
  h2_phase : H2Phase;
  h2_block : option H2Block;
  h2_open_streams : gset N;
  h2_data_tails : gmap N bytes;
  h2_scan_tail : bytes;
  h2_tail_size : nat;
  h2_head_requests : nat;
  h2_suppress_body : nat;
  h2_must_close : bool;
  h2_static_pairs : list CredentialPair;
  h2_mint : option MintStore;
  h2_mint_plan : option MintPlan;
  h2_mint_streams : gmap N bytes;
}.
Arguments H2 {_ _}.

Section Setters.
Context `{!RewriteHook, !Hpack}.

Definition H2_eta (m : H2) : H2 :=
  Build_H2 _ _ (h2_pairs m) (h2_dir m) (h2_hook m) (h2_decoder m) (h2_encoder m) (h2_buffer m) (h2_phase m) (h2_block m)
    (h2_open_streams m) (h2_data_tails m) (h2_scan_tail m) (h2_tail_size m) (h2_head_requests m) (h2_suppress_body m)
    (h2_must_close m) (h2_static_pairs m) (h2_mint m) (h2_mint_plan m) (h2_mint_streams m).

Definition set_pairs (m : H2) (v : list CredentialPair) : H2 := ltac:(set_field H2_eta h2_pairs m v).
Definition set_hook (m : H2) (v : option hook_state) : H2 := ltac:(set_field H2_eta h2_hook m v).
Definition set_decoder (m : H2) (v : HpackDecoder) : H2 := ltac:(set_field H2_eta h2_decoder m v).
Definition set_encoder (m : H2) (v : HpackEncoder) : H2 := ltac:(set_field H2_eta h2_encoder m v).
Definition set_buffer (m : H2) (v : bytes) : H2 := ltac:(set_field H2_eta h2_buffer m v).
Definition set_phase (m : H2) (v : H2Phase) : H2 := ltac:(set_field H2_eta h2_phase m v).
Definition set_block (m : H2) (v : option H2Block) : H2 := ltac:(set_field H2_eta h2_block m v).
Definition set_open (m : H2) (v : gset N) : H2 := ltac:(set_field H2_eta h2_open_streams m v).
Definition set_tails (m : H2) (v : gmap N bytes) : H2 := ltac:(set_field H2_eta h2_data_tails m v).
Definition set_scan (m : H2) (v : bytes) : H2 := ltac:(set_field H2_eta h2_scan_tail m v).
Definition set_tail_size (m : H2) (v : nat) : H2 := ltac:(set_field H2_eta h2_tail_size m v).
Definition set_head_requests (m : H2) (v : nat) : H2 := ltac:(set_field H2_eta h2_head_requests m v).
Definition set_suppress (m : H2) (v : nat) : H2 := ltac:(set_field H2_eta h2_suppress_body m v).
Definition set_close (m : H2) : H2 := ltac:(set_field H2_eta h2_must_close m true).
Definition set_mint (m : H2) (v : option MintStore) : H2 := ltac:(set_field H2_eta h2_mint m v).
Definition set_mint_streams (m : H2) (v : gmap N bytes) : H2 := ltac:(set_field H2_eta h2_mint_streams m v).
(** Everything but the scan tail and the fail-closed latch, which depend on how
    scan-only bytes arrive. *)
Definition forget (m : H2) : H2 := ltac:(set_field H2_eta h2_must_close (set_scan m []) false).

End Setters.

Section Machine.
Context `{!Digests, !JsonCrate, !Base64, !RewriteHook, !Hpack}.

(** ** Construction and pairs *)

Definition refresh_minted_pairs (m : H2) : H2 :=
  match h2_mint m with
  | None => m
  | Some mint =>
      let pairs := h2_static_pairs m ++ minted_pairs mint (h2_dir m) in
      set_pairs (set_tail_size m (max_tail_size pairs)) pairs
  end.

Definition H2_new (grants : list Grant) (scheme : Scheme) (host : bytes) (port : N) (dir : Direction)
    (hook : option hook_state) (mint : option MintStore) : H2 :=
  let static_pairs := eligible_pairs grants scheme host port dir in
  let mint_plan := match dir with Upstream => mint_plan_for grants scheme host port | Downstream => None end in
  refresh_minted_pairs
    {| h2_pairs := static_pairs; h2_dir := dir; h2_hook := hook; h2_decoder := decoder_default;
       h2_encoder := encoder_default; h2_buffer := [];
       h2_phase := match dir with Downstream => Preface | Upstream => Framing end; h2_block := None;
       h2_open_streams := ∅; h2_data_tails := ∅; h2_scan_tail := []; h2_tail_size := max_tail_size static_pairs;
       h2_head_requests := 0; h2_suppress_body := 0; h2_must_close := false; h2_static_pairs := static_pairs;
       h2_mint := mint; h2_mint_plan := mint_plan; h2_mint_streams := ∅ |}.

Definition mint_active (m : H2) : bool :=
  bool_decide (h2_dir m = Upstream) && bool_of_opt (h2_mint m) && bool_of_opt (h2_mint_plan m).

(** ** Scanning and degrading *)

Definition h2_scan (m : H2) (data : bytes) : list Hit * H2 :=
  let '(hits, tail) := scan_with_tail (h2_pairs m) (h2_scan_tail m) (h2_tail_size m) data Body in
  (hits, set_scan m tail).

Definition go_opaque (m : H2) : bytes * list Hit * H2 :=
  let m := set_block (set_phase m Opaque) None in
  let m := match h2_hook m with Some _ => set_close m | None => m end in
  let m := if bool_decide (h2_mint_streams m = ∅) then m else set_close (set_mint_streams m ∅) in
  let rest := h2_buffer m in
  let '(hits, m) := h2_scan (set_buffer m []) rest in
  (rest, hits, m).

(** ** Bodies *)

Definition h2_mint_body (m : H2) (body : bytes) : bytes * list Hit * H2 :=
  match h2_mint_plan m, h2_mint m with
  | Some plan, Some mint =>
      let '(minted, hits, mint) := mint_and_redact plan mint body (h2_pairs m) in (minted, hits, set_mint m (Some mint))
  | _, _ => let '(redacted, hits) := replace_in body (h2_pairs m) Body in (redacted, hits, m)
  end.

(** A stream's slot and buffers are released. *)
Definition close_stream (m : H2) (stream_id : N) : H2 := set_open m (h2_open_streams m ∖ {[stream_id]}).

Definition too_long (body : bytes) : bool := (0xffffff <? N.of_nat (length body))%N.

Definition mint_data_frame (m : H2) (stream_id flags : N) (data : bytes) : bytes * list Hit * H2 :=
  let buf := default [] (h2_mint_streams m !! stream_id) ++ data in
  let release m := close_stream (set_mint_streams m (delete stream_id (h2_mint_streams m))) stream_id in
  if MAX_MINT_BODY <? length buf then ([], [], release (set_close m))
  else if negb (flag_set flags FLAG_END_STREAM) then ([], [], set_mint_streams m (<[stream_id := buf]> (h2_mint_streams m)))
  else
    let '(new_body, hits, m) := h2_mint_body (release m) buf in
    if too_long new_body then ([], hits, set_close m)
    else (append_frame F_DATA FLAG_END_STREAM stream_id new_body, hits, m).

(** The chunk hook: [None] is a close. *)
Definition hook_chunk (m : H2) (chunk : bytes) (eof : bool) : option bytes * H2 :=
  match h2_hook m with
  | None => (Some chunk, m)
  | Some h =>
      let '(verdict, chunk, h) := rewrite_chunk h chunk eof in
      let m := set_hook m (Some h) in
      match verdict with VClose => (None, set_close m) | VContinue => (Some chunk, m) end
  end.

Definition take_tail (m : H2) (stream_id : N) : bytes * H2 :=
  (default [] (h2_data_tails m !! stream_id), set_tails m (alter (λ _, []) stream_id (h2_data_tails m))).

Definition data_frame (m : H2) (stream_id flags : N) (payload raw : bytes) : result bytes bytes * list Hit * H2 :=
  if (stream_id =? 0)%N || negb (bool_decide (stream_id ∈ h2_open_streams m)) then (Err raw, [], m)
  else
    match data_payload flags payload with
    | None => (Err raw, [], m)
    | Some data =>
        if mint_active m then let '(emit, hits, m) := mint_data_frame m stream_id flags data in (Ok emit, hits, m)
        else
          let end_stream := flag_set flags FLAG_END_STREAM in
          let '(held_tail, m) := take_tail m stream_id in
          let combined := held_tail ++ data in
          let emit_len := if end_stream then length combined
                          else needle_safe_emit_len combined (h2_pairs m) (h2_tail_size m) in
          let '(new_emit, hits) := replace_in (take emit_len combined) (h2_pairs m) Body in
          match hook_chunk m new_emit end_stream with
          | (None, m) => (Ok [], hits, m)
          | (Some new_emit, m) =>
              let m := if end_stream then close_stream (set_tails m (delete stream_id (h2_data_tails m))) stream_id
                       else if emit_len <? length combined
                            then set_tails m (<[stream_id := drop emit_len combined]> (h2_data_tails m))
                            else m in
              let out_flags := N.lor (N.ldiff flags (N.lor FLAG_PADDED FLAG_END_STREAM))
                                     (if end_stream then FLAG_END_STREAM else 0) in
              if too_long new_emit then
                if bool_of_opt (h2_hook m) then (Ok [], hits, set_close m) else (Err raw, hits, m)
              else (Ok (append_frame F_DATA out_flags stream_id new_emit), hits, m)
          end
    end.

(** ** Header blocks *)

Definition flush_trailer_held (m : H2) (stream_id : N) : bytes * list Hit * H2 :=
  let held := default [] (h2_data_tails m !! stream_id) in
  let m := set_tails m (delete stream_id (h2_data_tails m)) in
  if bool_decide (held = []) then ([], [], m)
  else
    let '(new_held, hits) := replace_in held (h2_pairs m) Body in
    match hook_chunk m new_held true with
    | (None, m) => ([], hits, m)
    | (Some new_held, m) => (data_frames stream_id new_held, hits, m)
    end.

(** The head hook or the trailer hook; [None] is a close. *)
Definition hook_block (m : H2) (headers : list Field) : option (list Field) * H2 :=
  match h2_hook m with
  | None => (Some headers, m)
  | Some h =>
      if existsb (field_named (bs ":method")) headers || existsb (field_named (bs ":status")) headers then
        let '(goes_on, headers, h) := rewrite_h2_head h headers in
        let m := set_hook m (Some h) in
        if goes_on : bool then (Some headers, m) else (None, set_close m)
      else
        let '(verdict, trailers, h) := rewrite_trailers h (map h2_plugin_header headers) in
        let m := set_hook m (Some h) in
        match verdict with
        | VClose => (None, set_close m)
        | VContinue => (Some (map (λ t, (ph_name t, ph_value t, 0%N)) trailers), m)
        end
  end.

Fixpoint encode_fields (enc : HpackEncoder) (headers : list Field) (encoded : bytes) : option bytes * HpackEncoder :=
  match headers with
  | [] => (Some encoded, enc)
  | f :: headers =>
      match hpack_encode enc (f.1.1, f.1.2, NEVER_INDEXED) with
      | (Some b, enc) => encode_fields enc headers (encoded ++ b)
      | (None, enc) => (None, enc)
      end
  end.

(** HEAD bookkeeping: whether this block's message has no body. *)
Definition count_head (m : H2) (headers : list Field) : H2 :=
  if bool_decide (h2_dir m = Downstream) && is_head_method headers
  then set_head_requests m (h2_head_requests m + 1) else m.
Definition suppress_step (m : H2) (headers : list Field) : bool * H2 :=
  let upstream := bool_decide (h2_dir m = Upstream) in
  let no_body := upstream && ((0 <? h2_suppress_body m) || response_status_no_body headers) in
  let status := find_map status_field headers in
  let interim := match status with Some code => ((100 <=? code) && (code <? 200))%N | None => false end in
  (no_body,
   if bool_of_opt status && negb interim && (0 <? h2_suppress_body m) && upstream
   then set_suppress m (h2_suppress_body m - 1) else m).

(** The end of a stream at a header block: the minted body and the held tail
    go out in front of it; [None] fails closed with nothing emitted. *)
Definition end_block (m : H2) (stream_id : N) : option bytes * list Hit * H2 :=
  let body := h2_mint_streams m !! stream_id in
  let m := set_mint_streams m (delete stream_id (h2_mint_streams m)) in
  let '(minted, hits, m) :=
    match body with
    | None => (Some [], [], m)
    | Some body =>
        let '(new_body, hits, m) := h2_mint_body m body in
        if too_long new_body then (None, hits, set_close m)
        else (Some (if bool_decide (new_body = []) then [] else append_frame F_DATA 0 stream_id new_body), hits, m)
    end in
  match minted with
  | None => (None, hits, m)
  | Some minted =>
      let '(held, held_hits, m) := flush_trailer_held m stream_id in
      (Some (minted ++ held), hits ++ held_hits, close_stream m stream_id)
  end.

Definition finish_block (m : H2) (block : H2Block) : result bytes bytes * list Hit * H2 :=
  match hpack_decode (h2_decoder m) (bk_fragments block) with
  | (None, dec) => (Err (bk_raw block), [], set_decoder m dec)
  | (Some headers, dec) =>
      let m := set_decoder m dec in
      if H2_MAX_FIELDS <? length headers then (Err (bk_raw block), [], m)
      else
        let m := refresh_minted_pairs m in
        let '(headers, hits) := substitute_h2_values headers (h2_pairs m) in
        match hook_block m headers with
        | (None, m) => (Err (bk_raw block), hits, m)
        | (Some headers, m) =>
            let m := count_head m headers in
            let '(no_body, m) := suppress_step m headers in
            match encode_fields (h2_encoder m) headers [] with
            | (None, enc) => (Err (bk_raw block), hits, set_encoder m enc)
            | (Some encoded, enc) =>
                let m := set_encoder m enc in
                let opens := negb no_body && negb (bool_decide (bk_stream block ∈ h2_open_streams m)) in
                if opens && (H2_MAX_STREAMS <=? size (h2_open_streams m)) then (Err (bk_raw block), hits, m)
                else
                  let m := if opens then set_open m ({[bk_stream block]} ∪ h2_open_streams m) else m in
                  if bk_end_stream block then
                    match end_block m (bk_stream block) with
                    | (None, end_hits, m) => (Ok [], hits ++ end_hits, m)
                    | (Some out, end_hits, m) =>
                        (Ok (out ++ append_header_frames (bk_stream block) true encoded), hits ++ end_hits, m)
                    end
                  else (Ok (append_header_frames (bk_stream block) false encoded), hits, m)
            end
        end
  end.

Definition headers_frame (m : H2) (stream_id flags : N) (payload raw : bytes) : result bytes bytes * list Hit * H2 :=
  if (stream_id =? 0)%N then (Err raw, [], m)
  else
    match headers_fragment flags payload with
    | None => (Err raw, [], m)
    | Some fragment =>
        if H2_MAX_BLOCK <? length fragment then (Err raw, [], m)
        else
          let block := {| bk_stream := stream_id; bk_end_stream := flag_set flags FLAG_END_STREAM;
                          bk_fragments := fragment; bk_raw := raw |} in
          if flag_set flags FLAG_END_HEADERS then finish_block m block else (Ok [], [], set_block m (Some block))
    end.

Definition continuation_frame (m : H2) (stream_id flags : N) (payload raw : bytes) : result bytes bytes * list Hit * H2 :=
  match h2_block m with
  | None => (Err raw, [], m)
  | Some block =>
      let m := set_block m None in
      if (stream_id =? 0)%N || negb (stream_id =? bk_stream block)%N then (Err (bk_raw block ++ raw), [], m)
      else
        let block := {| bk_stream := bk_stream block; bk_end_stream := bk_end_stream block;
                        bk_fragments := bk_fragments block ++ payload; bk_raw := bk_raw block ++ raw |} in
        if H2_MAX_BLOCK <? length (bk_fragments block) then (Err (bk_raw block), [], m)
        else if flag_set flags FLAG_END_HEADERS then finish_block m block else (Ok [], [], set_block m (Some block))
  end.

(** ** Frames and chunks *)

Definition reset_stream (m : H2) (stream_id : N) : H2 :=
  set_mint_streams (set_tails (close_stream m stream_id) (delete stream_id (h2_data_tails m)))
                   (delete stream_id (h2_mint_streams m)).

Definition process_frame (m : H2) (raw : bytes) : result bytes bytes * list Hit * H2 :=
  let kind := frame_kind raw in
  let flags := frame_flags raw in
  let stream_id := frame_stream raw in
  let payload := drop 9 raw in
  match h2_block m with
  | Some block =>
      if negb (kind =? F_CONTINUATION)%N then (Err (bk_raw block ++ raw), [], set_block m None)
      else continuation_frame m stream_id flags payload raw
  | None =>
      if (kind =? F_HEADERS)%N then headers_frame m stream_id flags payload raw
      else if (kind =? F_CONTINUATION)%N then continuation_frame m stream_id flags payload raw
      else if (kind =? F_DATA)%N then data_frame m stream_id flags payload raw
      else if (kind =? F_RST_STREAM)%N then
        if (stream_id =? 0)%N then (Err raw, [], m) else (Ok raw, [], reset_stream m stream_id)
      else if (kind =? F_PUSH_PROMISE)%N then (Err raw, [], m)
      else (Ok raw, [], m)
  end.

(** The frame loop of [substitute], which takes the buffer out of the machine;
    [None] is the model out of fuel. *)
Fixpoint frame_loop (fuel : nat) (m : H2) (buf out : bytes) (hits : list Hit) : option (bytes * list Hit * H2) :=
  if (length buf <? 9) || (length buf <? 9 + frame_len buf) then Some (out, hits, set_buffer m buf)
  else
    match fuel with
    | 0 => None
    | S fuel =>
        let full := 9 + frame_len buf in
        match process_frame m (take full buf) with
        | (Ok emit, h, m) => frame_loop fuel m (drop full buf) (out ++ emit) (hits ++ h)
        | (Err violation, h, m) =>
            let '(scan_hits, m) := h2_scan m violation in
            let '(rest, rest_hits, m) := go_opaque (set_buffer m (drop full buf)) in
            Some (out ++ violation ++ rest, hits ++ h ++ scan_hits ++ rest_hits, m)
        end
    end.

(** The end of the stream: what is buffered, then the held tails and the bodies
    to be minted, stream after stream (the order is the map's). *)
Definition flush_tails (m : H2) : bytes * list Hit :=
  foldl (λ acc sh,
           if bool_decide (sh.2 = []) then acc
           else let '(new_held, hits) := replace_in sh.2 (h2_pairs m) Body in
                (acc.1 ++ data_frames sh.1 new_held, acc.2 ++ hits))
        ([], []) (map_to_list (h2_data_tails m)).
Definition flush_mints (m : H2) : bytes * list Hit * H2 :=
  foldl (λ acc sb, let '(out, hits, m) := acc in
                   let '(new_body, body_hits, m) := h2_mint_body m sb.2 in
                   (out ++ data_frames sb.1 new_body, hits ++ body_hits, m))
        ([], [], set_mint_streams m ∅) (map_to_list (h2_mint_streams m)).
Definition flush_eof (m : H2) : bytes * list Hit * H2 :=
  let out := h2_buffer m ++ match h2_block m with Some block => bk_raw block | None => [] end in
  let m := set_block (set_buffer m []) None in
  let '(held, held_hits) := flush_tails m in
  let '(minted, mint_hits, m) := flush_mints (set_tails m ∅) in
  (out ++ held ++ minted, held_hits ++ mint_hits, m).

Definition substitute (m : H2) (chunk : bytes) : option (bytes * list Hit * H2) :=
  if bool_decide (chunk = []) then Some (flush_eof m)
  else if bool_decide (h2_phase m = Opaque) then
    let '(hits, m) := h2_scan m chunk in
    Some (chunk, hits, match h2_dir m, hits with Upstream, _ :: _ => set_close m | _, _ => m end)
  else
    let buf := h2_buffer m ++ chunk in
    if bool_decide (h2_phase m = Preface) then
      if length buf <? length H2_PREFACE then Some ([], [], set_buffer m buf)
      else if negb (starts_with buf H2_PREFACE) then Some (go_opaque (set_buffer m buf))
      else
        let rest := drop (length H2_PREFACE) buf in
        frame_loop (length rest) (set_buffer (set_phase m Framing) []) rest H2_PREFACE []
    else frame_loop (length buf) (set_buffer m []) buf [] [].

(** ** The wire *)

Definition H2_feed (m : H2) (chunk : bytes) : option ((Rewritten * list Hit) * H2) :=
  '(out, hits, m) ← substitute m chunk;
  Some ((if h2_must_close m then Close else match out with [] => Hold | _ => Emit out end, hits), m).
Definition H2_take_peer_note (m : H2) : nat * H2 := (h2_head_requests m, set_head_requests m 0).
Definition H2_apply_peer_note (m : H2) (n : nat) : H2 := set_suppress m (h2_suppress_body m + n).
End Machine.

(** * What the machine promises *)

Section Frames.
Context `{!Digests, !JsonCrate, !Base64, !RewriteHook, !Hpack}.

(** What processing a frame leaves alone; the fail-closed latch only closes. *)
Record keeps (m m' : H2) : Prop := {
  k_phase : h2_phase m' = h2_phase m;
  k_buffer : h2_buffer m' = h2_buffer m;
  k_dir : h2_dir m' = h2_dir m;
  k_plan : h2_mint_plan m' = h2_mint_plan m;
  k_mint : h2_mint m' = None ↔ h2_mint m = None;
  k_hook : h2_hook m' = None ↔ h2_hook m = None;
  k_close : h2_must_close m = true → h2_must_close m' = true;
}.
#[local] Instance keeps_preorder : PreOrder keeps.
Proof.
  split; [by intros m; split|]. intros m1 m2 m3 [] []. split; try congruence; tauto.
Qed.
Lemma keeps_trans m1 m2 m3 : keeps m1 m2 → keeps m2 m3 → keeps m1 m3.
Proof. apply transitivity. Qed.

Lemma refresh_keeps m : keeps m (refresh_minted_pairs m).
Proof. unfold refresh_minted_pairs. destruct (h2_mint m) eqn:Hm; [|done]. by split. Qed.

Lemma h2_mint_body_keeps m body : keeps m (h2_mint_body m body).2.
Proof.
  unfold h2_mint_body. destruct (h2_mint_plan m); [destruct (h2_mint m) as [mint|] eqn:Hm|]; cbn [snd].
  2, 3: destruct (replace_in _ _ _); done.
  destruct (mint_and_redact _ _ _ _) as [[out hits] mint']. split; try done. cbn. by rewrite Hm.
Qed.

Lemma hook_chunk_keeps m chunk eof : keeps m (hook_chunk m chunk eof).2.
Proof.
  unfold hook_chunk. destruct (h2_hook m) as [h|] eqn:Hh; [|done].
  destruct (rewrite_chunk h chunk eof) as [[[] c] h']; split; try done; cbn; by rewrite Hh.
Qed.

Lemma mint_data_frame_keeps m sid flags data : keeps m (mint_data_frame m sid flags data).2.
Proof.
  unfold mint_data_frame. case_match; [by split|]. case_match; [by split|].
  pose proof (h2_mint_body_keeps (close_stream (set_mint_streams m (delete sid (h2_mint_streams m))) sid)
                (default [] (h2_mint_streams m !! sid) ++ data)) as Hk.
  destruct (h2_mint_body _ _) as [[body hits] m1]. cbn [snd] in Hk.
  destruct Hk. destruct (too_long body); split; done.
Qed.

Lemma data_frame_keeps m sid flags payload raw : keeps m (data_frame m sid flags payload raw).2.
Proof.
  unfold data_frame. case_match; [done|]. destruct (data_payload flags payload) as [data|]; [|done].
  destruct (mint_active m).
  { pose proof (mint_data_frame_keeps m sid flags data) as Hk. by destruct (mint_data_frame _ _ _ _) as [[emit hits] m1]. }
  unfold take_tail. set (m0 := set_tails m _). assert (keeps m m0) as Hk0 by done. clearbody m0.
  destruct (replace_in _ _ _) as [new_emit hits].
  pose proof (hook_chunk_keeps m0 new_emit (flag_set flags FLAG_END_STREAM)) as Hk.
  destruct (hook_chunk _ _ _) as [[out|] m1]; cbn [snd] in *; [|by etrans].
  apply (keeps_trans _ m1); [by etrans|]. clear. repeat case_match; by split.
Qed.

Lemma flush_trailer_keeps m sid : keeps m (flush_trailer_held m sid).2.
Proof.
  unfold flush_trailer_held. set (m0 := set_tails m _). assert (keeps m m0) as Hk0 by done. clearbody m0.
  case_match; [done|]. destruct (replace_in _ _ _) as [new_held hits].
  pose proof (hook_chunk_keeps m0 new_held true) as Hk. destruct (hook_chunk _ _ _) as [[out|] m1]; cbn [snd] in *; by etrans.
Qed.

Lemma hook_block_keeps m headers : keeps m (hook_block m headers).2.
Proof.
  unfold hook_block. destruct (h2_hook m) as [h|] eqn:Hh; [|done]. case_match.
  - destruct (rewrite_h2_head h headers) as [[[] hs] h']; split; try done; cbn; by rewrite Hh.
  - destruct (rewrite_trailers h _) as [[[] hs] h']; split; try done; cbn; by rewrite Hh.
Qed.

Lemma end_block_keeps m sid : keeps m (end_block m sid).2.
Proof.
  unfold end_block. set (m0 := set_mint_streams m _). assert (keeps m m0) as Hk0 by done. clearbody m0.
  assert (∀ m1, keeps m m1 → keeps m (let '(held, held_hits, m2) := flush_trailer_held m1 sid in close_stream m2 sid)) as Hf.
  { intros m1 Hk. pose proof (flush_trailer_keeps m1 sid) as Hk'. destruct (flush_trailer_held m1 sid) as [[held hh] m2].
    cbn [snd] in Hk'. apply (keeps_trans _ m2); [by etrans|done]. }
  destruct (h2_mint_streams m !! sid) as [body|].
  - pose proof (h2_mint_body_keeps m0 body) as Hk. destruct (h2_mint_body m0 body) as [[nb hits] m1]. cbn [snd] in Hk.
    assert (keeps m m1) as Hm1 by by etrans.
    destruct (too_long nb); [apply (keeps_trans _ m1); [done|by split]|].
    specialize (Hf m1 Hm1). by destruct (flush_trailer_held m1 sid) as [[held hh] m2].
  - specialize (Hf m0 Hk0). by destruct (flush_trailer_held m0 sid) as [[held hh] m2].
Qed.

Lemma finish_block_keeps m block : keeps m (finish_block m block).2.
Proof.
  unfold finish_block. destruct (hpack_decode _ _) as [[headers|] dec]; [|done]. case_match; [done|].
  pose proof (refresh_keeps (set_decoder m dec)) as Hr. set (m0 := refresh_minted_pairs _) in *.
  assert (keeps m m0) as Hk0 by (by apply (keeps_trans _ (set_decoder m dec))). clearbody m0. clear Hr.
  destruct (substitute_h2_values _ _) as [headers' hits]. pose proof (hook_block_keeps m0 headers') as Hk.
  destruct (hook_block m0 headers') as [[hs|] m1]; cbn [snd] in Hk; [|by etrans].
  assert (keeps m (count_head m1 hs)) as Hk1 by (etrans; [by etrans|]; unfold count_head; by case_match).
  set (m2 := count_head m1 hs) in *. clearbody m2. clear Hk.
  assert (keeps m (suppress_step m2 hs).2) as H2' by (etrans; [done|]; unfold suppress_step; cbn [snd]; by case_match).
  destruct (suppress_step m2 hs) as [no_body m3]. cbn [snd] in H2'. clear Hk1.
  destruct (encode_fields (h2_encoder m3) hs []) as [[encoded|] enc]; [|by etrans].
  case_match; [by etrans|]. match goal with |- context [if ?b then set_open ?a ?c else ?a] => set (m4 := if b then set_open a c else a) end.
  assert (keeps m m4) as Hk4 by (etrans; [done|]; unfold m4; by case_match). clearbody m4.
  destruct (bk_end_stream block); [|done].
  pose proof (end_block_keeps m4 (bk_stream block)) as Hk. destruct (end_block m4 _) as [[[out|] eh] m5]; by etrans.
Qed.

Lemma process_frame_keeps m raw : keeps m (process_frame m raw).2.
Proof.
  assert (∀ m sid fl pl raw, keeps m (continuation_frame m sid fl pl raw).2) as Hc.
  { intros m' sid fl pl raw'. unfold continuation_frame. destruct (h2_block m') as [b|]; [|done].
    repeat case_match; try done. etrans; [|apply finish_block_keeps]. done. }
  unfold process_frame. destruct (h2_block m) as [b|]; [by case_match|].
  case_match; [|case_match; [apply Hc|case_match; [apply data_frame_keeps|by repeat case_match]]].
  unfold headers_frame. repeat case_match; try done. apply finish_block_keeps.
Qed.

(** ** Cutting frames *)

(** A complete frame is at hand. *)
Definition has_frame (buf : bytes) : bool := negb ((length buf <? 9) || (length buf <? 9 + frame_len buf)).

Lemma has_frame_bounds buf : has_frame buf = true → 9 ≤ 9 + frame_len buf ≤ length buf.
Proof. intros Hf%negb_true_iff%orb_false_iff. destruct Hf as [?%Nat.ltb_ge Hl%Nat.ltb_ge]. lia. Qed.

Lemma frame_len_app buf x : 9 ≤ length buf → frame_len (buf ++ x) = frame_len buf.
Proof. intros Hl. unfold frame_len. by rewrite take_app_le' by lia. Qed.

Lemma has_frame_app buf x : has_frame buf = true → has_frame (buf ++ x) = true.
Proof.
  intros Hf. apply has_frame_bounds in Hf as Hb. unfold has_frame. rewrite frame_len_app, length_app by lia.
  by rewrite !(proj2 (Nat.ltb_ge _ _)) by lia.
Qed.

Definition violate (m : H2) (violation rest out : bytes) (hits : list Hit) : bytes * list Hit * H2 :=
  let '(scan_hits, m) := h2_scan m violation in
  let '(rest', rest_hits, m) := go_opaque (set_buffer m rest) in
  (out ++ violation ++ rest', hits ++ scan_hits ++ rest_hits, m).

Lemma frame_loop_unfold fuel m buf out hits : length buf ≤ fuel →
  frame_loop fuel m buf out hits =
  if has_frame buf then
    match process_frame m (take (9 + frame_len buf) buf) with
    | (Ok emit, h, m) => frame_loop (length (drop (9 + frame_len buf) buf)) m (drop (9 + frame_len buf) buf) (out ++ emit) (hits ++ h)
    | (Err violation, h, m) => Some (violate m violation (drop (9 + frame_len buf) buf) out (hits ++ h))
    end
  else Some (out, hits, set_buffer m buf).
Proof.
  revert buf m out hits. induction fuel as [fuel IH] using lt_wf_ind. intros buf m out hits Hl.
  destruct fuel as [|fuel]; cbn [frame_loop]; unfold has_frame;
    destruct ((length buf <? 9) || (length buf <? 9 + frame_len buf)) eqn:Hf; [done| |done|]; cbn [negb].
  - apply orb_false_iff in Hf as [?%Nat.ltb_ge _]. lia.
  - destruct (process_frame m (take (9 + frame_len buf) buf)) as [[[emit|violation] h] m1].
    + assert (length (drop (9 + frame_len buf) buf) ≤ fuel) as Hd by (rewrite length_drop; lia).
      rewrite (IH fuel) by lia. apply orb_false_iff in Hf as [?%Nat.ltb_ge ?%Nat.ltb_ge].
      rewrite (IH (length (drop _ buf))); [done|rewrite length_drop; lia|done].
    + unfold violate. cbv zeta. destruct (h2_scan m1 violation) as [sh m2]. destruct (go_opaque _) as [[r rh] m3].
      by rewrite <- !app_assoc.
Qed.

Lemma frame_loop_fuel fuel m buf out hits : length buf ≤ fuel →
  frame_loop fuel m buf out hits = frame_loop (length buf) m buf out hits.
Proof. intros Hl. by rewrite !frame_loop_unfold by lia. Qed.

(** Induction on the frames of a buffer. *)
Lemma buffer_ind (P : bytes → Prop) :
  (∀ buf, has_frame buf = false → P buf) →
  (∀ buf, has_frame buf = true → P (drop (9 + frame_len buf) buf) → P buf) → ∀ buf, P buf.
Proof.
  intros Hno Hyes buf. remember (length buf) as n eqn:Hn. revert buf Hn. induction n as [n IH] using lt_wf_ind. intros buf ->.
  destruct (has_frame buf) eqn:Hf; [|by apply Hno]. apply Hyes; [done|]. apply has_frame_bounds in Hf.
  eapply IH; [|done]. rewrite length_drop. lia.
Qed.

Lemma frame_loop_total m buf out hits : is_Some (frame_loop (length buf) m buf out hits).
Proof.
  revert m out hits. induction buf as [buf Hf|buf Hf IH] using buffer_ind; intros m out hits; rewrite frame_loop_unfold, Hf by done;
    [done|]. by destruct (process_frame _ _) as [[[emit|violation] h] m1].
Qed.

(** Every call of [substitute] returns, on every machine and chunk: each round
    of the frame loop takes at least the nine bytes of a frame head. *)
Lemma h2_substitute_total m chunk : ∃ out hits m', substitute m chunk = Some (out, hits, m').
Proof.
  assert (∀ r : option (bytes * list Hit * H2), is_Some r → ∃ out hits m', r = Some (out, hits, m')) as Hr.
  { intros r [[[out hits] m'] ->]. by eexists _, _, _. }
  apply Hr. unfold substitute. repeat case_match; try done; apply frame_loop_total.
Qed.

(** ** Chunking *)

Lemma h2_scan_forget m data : forget (h2_scan m data).2 = forget m.
Proof. unfold h2_scan. by destruct (scan_with_tail _ _ _ _ _). Qed.

Lemma go_opaque_forget m : (go_opaque m).1.1 = h2_buffer m ∧
  forget (go_opaque m).2 = forget (set_mint_streams (set_block (set_phase (set_buffer m []) Opaque) None) ∅).
Proof.
  unfold go_opaque. cbv zeta.
  match goal with |- context [h2_scan ?m0 ?r] => pose proof (h2_scan_forget m0 r) as Hs; destruct (h2_scan m0 r) as [hits m1] end.
  cbn [snd fst] in *. rewrite Hs. clear Hs. destruct m as [???????????????????]; cbn.
  destruct h2_hook0; cbn; case_bool_decide; (split; [done|]); [subst h2_mint_streams0|..|subst h2_mint_streams0|]; done.
Qed.

Lemma violate_spec m violation rest out hits :
  (violate m violation rest out hits).1.1 = out ++ violation ++ rest ∧
  h2_phase (violate m violation rest out hits).2 = Opaque ∧
  forget (violate m violation rest out hits).2 = forget (set_mint_streams (set_block (set_phase (set_buffer m []) Opaque) None) ∅).
Proof.
  unfold violate. pose proof (h2_scan_forget m violation) as Hs. destruct (h2_scan m violation) as [sh m1]. cbn [snd] in Hs.
  destruct (go_opaque_forget (set_buffer m1 rest)) as [Ho Hf]. destruct (go_opaque (set_buffer m1 rest)) as [[r rh] m2].
  cbn [fst snd] in *. rewrite Ho. split; [done|].
  assert (forget m2 = forget (set_mint_streams (set_block (set_phase (set_buffer m []) Opaque) None) ∅)) as Heq.
  { rewrite Hf. by apply (f_equal (λ x, set_mint_streams (set_block (set_phase (set_buffer x []) Opaque) None) ∅)) in Hs. }
  split; [|done]. by apply (f_equal h2_phase) in Heq.
Qed.

(** The loop only appends to what is out already. *)
Lemma frame_loop_out m buf out hits :
  frame_loop (length buf) m buf out hits =
  '(o, h, m') ← frame_loop (length buf) m buf [] []; Some (out ++ o, hits ++ h, m').
Proof.
  revert m out hits. induction buf as [buf Hf|buf Hf IH] using buffer_ind; intros m out hits;
    rewrite !(frame_loop_unfold (length buf)), Hf by done; [cbn; by rewrite !app_nil_r|].
  destruct (process_frame _ _) as [[[emit|violation] h] m1].
  - rewrite IH, (IH m1 ([] ++ emit)). destruct (frame_loop _ _ _ _ _) as [[[o h'] m']|]; [|done].
    cbn [mbind option_bind app]. by rewrite <- !app_assoc.
  - unfold violate. destruct (h2_scan m1 violation) as [sh m2]. destruct (go_opaque _) as [[r rh] m3].
    cbn [mbind option_bind app]. by rewrite <- !app_assoc.
Qed.

(** A buffer and what follows it: the loop over both goes on where the loop over
    the first part stopped, or has gone opaque and passes the rest. *)
Lemma frame_loop_app m buf out hits o h m1 :
  h2_buffer m = [] → h2_phase m = Framing → frame_loop (length buf) m buf out hits = Some (o, h, m1) →
  (∃ mw l, m1 = set_buffer mw l ∧ h2_buffer mw = [] ∧ h2_phase mw = Framing ∧
     ∀ x, frame_loop (length (buf ++ x)) m (buf ++ x) out hits = frame_loop (length (l ++ x)) mw (l ++ x) o h) ∨
  (h2_phase m1 = Opaque ∧
     ∀ x, ∃ h' m', frame_loop (length (buf ++ x)) m (buf ++ x) out hits = Some (o ++ x, h', m') ∧ forget m' = forget m1).
Proof.
  revert m out hits. induction buf as [buf Hf|buf Hf IH] using buffer_ind; intros m out hits Hb Hp;
    rewrite (frame_loop_unfold (length buf)), Hf by done.
  { intros [= <- <- <-]. left. by exists m, buf. }
  assert (∀ x, frame_loop (length (buf ++ x)) m (buf ++ x) out hits =
    match process_frame m (take (9 + frame_len buf) buf) with
    | (Ok emit, h, m) => frame_loop (length (drop (9 + frame_len buf) buf ++ x)) m (drop (9 + frame_len buf) buf ++ x)
                           (out ++ emit) (hits ++ h)
    | (Err violation, h, m) => Some (violate m violation (drop (9 + frame_len buf) buf ++ x) out (hits ++ h))
    end) as Hx.
  { intros x. apply has_frame_bounds in Hf as Hbd.
    rewrite (frame_loop_unfold (length (buf ++ x))), has_frame_app, frame_len_app by (done || lia).
    by rewrite take_app_le', drop_app_le' by lia. }
  pose proof (process_frame_keeps m (take (9 + frame_len buf) buf)) as Hk.
  destruct (process_frame _ _) as [[[emit|violation] h1] m2]; cbn [snd] in Hk.
  - intros Hrun. apply IH in Hrun; [|by rewrite (k_buffer _ _ Hk)|by rewrite (k_phase _ _ Hk)].
    destruct Hrun as [(mw & l & ? & ? & ? & Hrun)|[Hop Hrun]]; [left|right].
    + exists mw, l. split_and!; [done..|]. intros x. by rewrite Hx, Hrun.
    + split; [done|]. intros x. rewrite Hx. apply Hrun.
  - intros Hv. right.
    destruct (violate_spec m2 violation (drop (9 + frame_len buf) buf) out (hits ++ h1)) as (Ho & Hph & Hfg).
    assert (violate m2 violation (drop (9 + frame_len buf) buf) out (hits ++ h1) = (o, h, m1)) as E by congruence.
    rewrite E in *. cbn [fst snd] in *. split; [done|]. intros x. rewrite Hx.
    destruct (violate_spec m2 violation (drop (9 + frame_len buf) buf ++ x) out (hits ++ h1)) as (Ho' & _ & Hfg').
    exists (violate m2 violation (drop (9 + frame_len buf) buf ++ x) out (hits ++ h1)).1.2, (violate m2 violation (drop (9 + frame_len buf) buf ++ x) out (hits ++ h1)).2.
    rewrite Hfg', Hfg. split; [|done]. rewrite Ho, <- !app_assoc, <- Ho'. by destruct (violate _ _ _ _ _) as [[]].
Qed.

Lemma substitute_framing m chunk : chunk ≠ [] → h2_phase m = Framing →
  substitute m chunk = frame_loop (length (h2_buffer m ++ chunk)) (set_buffer m []) (h2_buffer m ++ chunk) [] [].
Proof. intros Hc Hp. unfold substitute. by rewrite Hp, !bool_decide_eq_false_2. Qed.

Lemma substitute_opaque m chunk : chunk ≠ [] → h2_phase m = Opaque →
  ∃ hits m', substitute m chunk = Some (chunk, hits, m') ∧ forget m' = forget m ∧ h2_phase m' = Opaque.
Proof.
  intros Hc Hp. unfold substitute. rewrite Hp, bool_decide_eq_false_2, bool_decide_eq_true_2 by done.
  pose proof (h2_scan_forget m chunk) as Hs. destruct (h2_scan m chunk) as [hits m1]. cbn [snd] in Hs.
  assert (∀ m2, forget m2 = forget m1 → forget m2 = forget m ∧ h2_phase m2 = Opaque) as Hgo.
  { intros m2 E. rewrite E, Hs. split; [done|]. rewrite Hs in E. apply (f_equal h2_phase) in E. by change (h2_phase m2 = h2_phase m) in E; rewrite E. }
  eexists _, _. split; [done|]. apply Hgo. by repeat case_match.
Qed.

Lemma substitute_preface m chunk : chunk ≠ [] → h2_phase m = Preface →
  substitute m chunk =
  let buf := h2_buffer m ++ chunk in
  if length buf <? length H2_PREFACE then Some ([], [], set_buffer m buf)
  else if negb (starts_with buf H2_PREFACE) then Some (go_opaque (set_buffer m buf))
  else frame_loop (length (drop (length H2_PREFACE) buf)) (set_buffer (set_phase m Framing) [])
         (drop (length H2_PREFACE) buf) H2_PREFACE [].
Proof. intros Hc Hp. unfold substitute. by rewrite Hp, bool_decide_eq_false_2, bool_decide_eq_false_2, bool_decide_eq_true_2. Qed.

Lemma set_buffer_take mw l : h2_buffer mw = [] → set_buffer (set_buffer mw l) [] = mw.
Proof. destruct mw. cbn. by intros ->. Qed.

(** Two chunks through the frame loop. *)
Lemma frame_loop_split m buf b out hits o1 h1 m1 :
  h2_buffer m = [] → h2_phase m = Framing → b ≠ [] → frame_loop (length buf) m buf out hits = Some (o1, h1, m1) →
  ∃ o2 h2 m2 h m', substitute m1 b = Some (o2, h2, m2) ∧
    frame_loop (length (buf ++ b)) m (buf ++ b) out hits = Some (o1 ++ o2, h, m') ∧ forget m' = forget m2.
Proof.
  intros Hb Hp Hne Hrun.
  destruct (frame_loop_app _ _ _ _ _ _ _ Hb Hp Hrun) as [(mw & l & -> & Hbw & Hpw & Hx)|[Hop Hx]].
  - rewrite (substitute_framing (set_buffer mw l) b Hne Hpw), set_buffer_take, Hx by done.
    change (h2_buffer (set_buffer mw l)) with l. destruct (frame_loop_total mw (l ++ b) [] []) as [[[o2 h2] m2] Hl].
    exists o2, h2, m2, (h1 ++ h2), m2. split; [done|]. by rewrite frame_loop_out, Hl.
  - destruct (substitute_opaque m1 b Hne Hop) as (hits2 & m2 & -> & Hf & _). destruct (Hx b) as (h' & m' & -> & Hf').
    exists b, hits2, m2, h', m'. split_and!; [done..|]. by rewrite Hf', Hf.
Qed.

Lemma starts_with_app (l x p : bytes) : length p ≤ length l → starts_with (l ++ x) p = starts_with l p.
Proof.
  intros Hl. unfold starts_with. apply bool_decide_ext. rewrite !prefix_take_iff. by rewrite take_app_le'.
Qed.

Lemma preface_split m a b : a ≠ [] → b ≠ [] → h2_phase m = Preface →
  ∃ o1 h1 m1 o2 h2 m2 h m', substitute m a = Some (o1, h1, m1) ∧ substitute m1 b = Some (o2, h2, m2) ∧
    substitute m (a ++ b) = Some (o1 ++ o2, h, m') ∧ forget m' = forget m2.
Proof.
  intros Ha Hb Hp. assert (a ++ b ≠ []) as Hab by (by destruct a). rewrite !(substitute_preface m) by done. cbv zeta.
  rewrite !(app_assoc (h2_buffer m)). set (buf := h2_buffer m ++ a).
  destruct (Nat.ltb_spec (length buf) (length H2_PREFACE)) as [Hlt|Hge].
  - destruct (h2_substitute_total (set_buffer m buf) b) as (o2 & h2 & m2 & Hs).
    exists [], [], (set_buffer m buf), o2, h2, m2, h2, m2. split_and!; [done..| |done]. rewrite app_nil_l, <- Hs.
    by rewrite (substitute_preface (set_buffer m buf)).
  - rewrite (proj2 (Nat.ltb_ge (length (buf ++ b)) _)) by (rewrite length_app; lia). rewrite starts_with_app by done.
    destruct (starts_with buf H2_PREFACE); cbn [negb].
    + rewrite drop_app_le' by done. set (rest := drop (length H2_PREFACE) buf). set (m0 := set_buffer (set_phase m Framing) []).
      destruct (frame_loop_total m0 rest H2_PREFACE []) as [[[o1 h1] m1] Hrun].
      destruct (frame_loop_split m0 rest b H2_PREFACE [] o1 h1 m1) as (o2 & h2 & m2 & h & m' & Hs & Hl & Hf); [done..|].
      by exists o1, h1, m1, o2, h2, m2, h, m'.
    + destruct (go_opaque_forget (set_buffer m buf)) as (Ho & Hf). destruct (go_opaque_forget (set_buffer m (buf ++ b))) as (Ho' & Hf').
      assert (h2_phase (go_opaque (set_buffer m buf)).2 = Opaque) as Hph by (by apply (f_equal h2_phase) in Hf).
      destruct (go_opaque (set_buffer m buf)) as [[o1 h1] m1]. destruct (go_opaque (set_buffer m (buf ++ b))) as [[o' h'] m'].
      cbn [fst snd] in *. destruct (substitute_opaque m1 b Hb Hph) as (h2 & m2 & Hs2 & Hf2 & _).
      exists o1, h1, m1, b, h2, m2, h', m'. split_and!; [done..| |].
      * by rewrite Ho, Ho'.
      * by rewrite Hf', Hf2, Hf.
Qed.

(** C30: How the stream is cut into chunks does not change what is emitted:
    two nonempty chunks fed one after the other give the bytes one chunk of
    both gives, and leave the same machine but for two fields, the scan tail
    and the fail-closed latch of scan-only forwarding; those two, and with the
    latch whether the feed closes, do depend on the cut
    ([violation_hit_forwarded]). *)
Theorem h2_split_invariant m a b : a ≠ [] → b ≠ [] →
  ∃ o1 h1 m1 o2 h2 m2 h m', substitute m a = Some (o1, h1, m1) ∧ substitute m1 b = Some (o2, h2, m2) ∧
    substitute m (a ++ b) = Some (o1 ++ o2, h, m') ∧ forget m' = forget m2.
Proof.
  intros Ha Hb. assert (a ++ b ≠ []) as Hab by (by destruct a). destruct (h2_phase m) eqn:Hp.
  - by apply preface_split.
  - rewrite !(substitute_framing m) by done.
    destruct (frame_loop_total (set_buffer m []) (h2_buffer m ++ a) [] []) as [[[o1 h1] m1] Hrun].
    destruct (frame_loop_split (set_buffer m []) (h2_buffer m ++ a) b [] [] o1 h1 m1) as (o2 & h2 & m2 & h & m' & Hs & Hl & Hf); [done..|].
    exists o1, h1, m1, o2, h2, m2, h, m'. by rewrite app_assoc.
  - destruct (substitute_opaque m a Ha Hp) as (h1 & m1 & Hs1 & Hf1 & Hp1).
    destruct (substitute_opaque m1 b Hb Hp1) as (h2 & m2 & Hs2 & Hf2 & _).
    destruct (substitute_opaque m (a ++ b) Hab Hp) as (h & m' & Hs & Hf & _).
    exists a, h1, m1, b, h2, m2, h, m'. split_and!; [done..|]. by rewrite Hf, Hf2, Hf1.
Qed.
End Frames.
