(* ===== verification/H2Streams.v ===== *)
(** * The HTTP/2 machine: what it promises

    Over the definitions of [H2.v]: header frames read back, header values
    swapped field by field, DATA swapped stream by stream, and the invariant of
    every reachable machine; then concrete machines. *)

From S2P Require Import Prelude Decoy ConnString Grants Mint Engine HttpHead H2.

(** ** Frames written and read *)

Lemma of_be_len24 n : (n ≤ 0xffffff)%N → of_be (drop 1 (be32 n)) = n.
Proof.
  intros Hn. rewrite <- (of_be_be32 n) at 2 by lia. unfold be32. cbn [drop].
  assert (byte_of (n / 16777216) = Byte.x00) as ->; [|done].
  by rewrite N.div_small by lia.
Qed.

(** The frames of a buffer, as the machine reads them. *)
Definition Frame : Type := N * N * N * bytes.
Definition read_frame (raw : bytes) : Frame := (frame_kind raw, frame_flags raw, frame_stream raw, drop 9 raw).
Fixpoint read_frames (fuel : nat) (buf : bytes) : option (list Frame) :=
  match fuel, buf with
  | _, [] => Some []
  | 0, _ => None
  | S fuel, _ =>
      if has_frame buf then
        frames ← read_frames fuel (drop (9 + frame_len buf) buf); Some (read_frame (take (9 + frame_len buf) buf) :: frames)
      else None
  end.

Lemma length_append_frame k fl sid p : length (append_frame k fl sid p) = 9 + length p.
Proof. unfold append_frame, frame_head_len. rewrite !length_app, length_drop. simpl. lia. Qed.

(** A frame that fits its length field is cut off and read back exactly. *)
Lemma append_frame_reads k fl sid p x :
  (k < 256)%N → (fl < 256)%N → (sid < 2 ^ 31)%N → (N.of_nat (length p) ≤ 0xffffff)%N →
  has_frame (append_frame k fl sid p ++ x) = true ∧
  take (9 + frame_len (append_frame k fl sid p ++ x)) (append_frame k fl sid p ++ x) = append_frame k fl sid p ∧
  drop (9 + frame_len (append_frame k fl sid p ++ x)) (append_frame k fl sid p ++ x) = x ∧
  read_frame (append_frame k fl sid p) = (k, fl, sid, p).
Proof.
  intros Hk Hfl Hsid Hp.
  assert (frame_len (append_frame k fl sid p ++ x) = length p) as Hl.
  { unfold frame_len, append_frame, frame_head_len. rewrite (proj2 (N.leb_le _ _)) by lia.
    rewrite <- app_assoc, take_app_le', take_ge by (cbn; lia). rewrite of_be_len24 by done. lia. }
  unfold has_frame. rewrite Hl, length_app, length_append_frame, !(proj2 (Nat.ltb_ge _ _)) by lia.
  split; [done|]. rewrite <- (length_append_frame k fl sid p), take_app_length, drop_app_length. split; [done|]. split; [done|].
  unfold read_frame, frame_kind, frame_flags, frame_stream, append_frame, frame_head_len, octet, be32.
  cbn [drop app lookup list_lookup default from_option fmap option_fmap option_map take id].
  rewrite !u8_byte_of, !N.mod_small by done. do 2 f_equal.
  rewrite take_0. change [byte_of (sid / 16777216); byte_of (sid / 65536); byte_of (sid / 256); byte_of sid] with (be32 sid).
  rewrite of_be_be32 by lia. change 0x7fffffff%N with (N.ones 31). rewrite N.land_ones. by apply N.mod_small.
Qed.

Lemma read_frames_app fuel k fl sid p x :
  (k < 256)%N → (fl < 256)%N → (sid < 2 ^ 31)%N → (N.of_nat (length p) ≤ 0xffffff)%N →
  read_frames (S fuel) (append_frame k fl sid p ++ x) = (frames ← read_frames fuel x; Some ((k, fl, sid, p) :: frames)).
Proof.
  intros Hk Hfl Hsid Hp. destruct (append_frame_reads k fl sid p x) as (Hf & Ht & Hd & Hr); [done..|].
  cbn [read_frames]. destruct (append_frame k fl sid p ++ x) as [|b l] eqn:E.
  { apply (f_equal length) in E. rewrite length_app, length_append_frame in E. simpl in E. lia. }
  rewrite Hf, Hd, Ht, Hr. done.
Qed.

(** A header block's frames for the pieces of its fragment: HEADERS first, then
    CONTINUATION; END_HEADERS on the last and END_STREAM on the first alone. *)
Fixpoint block_frames (sid : N) (end_stream first : bool) (pieces : list bytes) : list Frame :=
  match pieces with
  | [] => []
  | p :: pieces =>
      (if first then F_HEADERS else F_CONTINUATION,
       N.lor (match pieces with [] => FLAG_END_HEADERS | _ => 0 end) (if first && end_stream then FLAG_END_STREAM else 0),
       sid, p) :: block_frames sid end_stream false pieces
  end%N.

#[local] Opaque H2_OUTBOUND_PAYLOAD.
Lemma outbound_payload_pos : 0 < H2_OUTBOUND_PAYLOAD ∧ (N.of_nat H2_OUTBOUND_PAYLOAD ≤ 0xffffff)%N.
Proof. #[local] Transparent H2_OUTBOUND_PAYLOAD. unfold H2_OUTBOUND_PAYLOAD. lia. Qed.
#[local] Opaque H2_OUTBOUND_PAYLOAD.

Lemma header_frames_pieces fuel sid es first block :
  (sid < 2 ^ 31)%N → length block < fuel → first = true ∨ block ≠ [] →
  ∃ pieces, concat pieces = block ∧ Forall (λ p, length p ≤ H2_OUTBOUND_PAYLOAD) pieces ∧ pieces ≠ [] ∧
    length pieces ≤ length (header_frames fuel sid es first block) ∧
    ∀ f, length pieces ≤ f → read_frames f (header_frames fuel sid es first block) = Some (block_frames sid es first pieces).
Proof.
  destruct outbound_payload_pos as [Hpos Hfit]. revert first block.
  induction fuel as [|fuel IH]; intros first block Hsid Hl Hf; [lia|]. cbn [header_frames].
  replace (first || negb (bool_decide (block = []))) with true
    by (destruct Hf as [->|Hf]; [done|rewrite bool_decide_eq_false_2 by done; by destruct first]).
  set (n := Nat.min (length block) H2_OUTBOUND_PAYLOAD).
  assert (length (take n block) ≤ H2_OUTBOUND_PAYLOAD) as Hn by (rewrite length_take; lia).
  set (fl := N.lor _ _). set (k := if first then F_HEADERS else F_CONTINUATION).
  assert ((k < 256)%N ∧ (fl < 256)%N) as [Hk Hfl].
  { unfold k, fl. by destruct first, (length block =? n), es. }
  destruct (Nat.eqb_spec (length block) n) as [Heq|Hne].
  - exists [block]. rewrite drop_ge by lia. rewrite take_ge in Hn |- * by lia.
    assert (∀ f, header_frames f sid es false [] = []) as Hnil by (by intros []).
    rewrite Hnil. split_and!; [simpl; by rewrite app_nil_r|by apply Forall_singleton|done|rewrite length_app, length_append_frame; simpl; lia|].
    intros [|f] Hlf; [simpl in Hlf; lia|]. rewrite read_frames_app by (done || lia).
    assert (read_frames f [] = Some []) as -> by (by destruct f). done.
  - assert (drop n block ≠ []) as Hd by (intros E%(f_equal length); rewrite length_drop in E; simpl in E; lia).
    destruct (IH false (drop n block)) as (pieces & Hc & Hall & Hpne & Hlen & Hr); [done|rewrite length_drop; unfold n; lia|by right|].
    exists (take n block :: pieces). split_and!; [simpl; by rewrite Hc, take_drop|by constructor|done| |].
    + rewrite length_app, length_append_frame. simpl. lia.
    + intros [|f] Hlf; [simpl in Hlf; lia|]. rewrite read_frames_app by (done || lia).
      rewrite Hr by (simpl in Hlf; lia). cbn [mbind option_bind block_frames].
      assert (fl = N.lor (match pieces with [] => FLAG_END_HEADERS | _ => 0%N end) (if first && es then FLAG_END_STREAM else 0%N)) as Hfe;
        [|by rewrite <- Hfe]. by destruct pieces.
Qed.

(** A header block is written as one HEADERS frame and as many CONTINUATION
    frames as it needs, each within the payload cap; read back with the
    machine's own frame reader they give the block again, with END_HEADERS on
    the last frame alone and END_STREAM on the first alone. *)
Theorem header_frames_reassemble sid end_stream block : (sid < 2 ^ 31)%N →
  ∃ pieces, concat pieces = block ∧ Forall (λ p, length p ≤ H2_OUTBOUND_PAYLOAD) pieces ∧
    read_frames (length (append_header_frames sid end_stream block)) (append_header_frames sid end_stream block) =
      Some (block_frames sid end_stream true pieces).
Proof.
  intros Hsid. unfold append_header_frames.
  destruct (header_frames_pieces (S (length block)) sid end_stream true block) as (pieces & Hc & Hall & _ & Hlen & Hr);
    [done|lia|by left|]. exists pieces. split_and!; [done..|]. by apply Hr.
Qed.

(** ** Header values *)

Section HeaderValues.
Context `{!Base64}.

(** The passes of all pairs over one field. *)
Definition swap_field (pairs : list CredentialPair) (field : Field) : Field :=
  foldl (λ f p, (substitute_field p f).1.1) field pairs.

Lemma substitute_field_keeps pair f :
  (substitute_field pair f).1.1.1.1 = f.1.1 ∧ (substitute_field pair f).1.1.2 = f.2.
Proof. destruct f as [[name value] flag]. unfold substitute_field. by repeat case_match. Qed.

Lemma substitute_field_authority pair f :
  field_named (bs ":authority") f = true → substitute_field pair f = (f, false, false).
Proof. destruct f as [[name value] flag]. intros Ha. unfold substitute_field. by rewrite Ha. Qed.

Lemma substitute_field_plain pair f :
  field_named (bs ":authority") f = false → field_named (bs "authorization") f = false →
  (substitute_field pair f).1.1.1.2 = default f.1.2 (replace_bytes f.1.2 (cp_needle pair) (cp_replacement pair)).
Proof.
  destruct f as [[name value] flag]. intros Ha Hb. unfold substitute_field, basic_value. rewrite Ha, Hb. cbn [andb fst snd].
  by destruct (replace_bytes _ _ _).
Qed.

Lemma substitute_field_no_hit pair f : (substitute_field pair f).1.2 = false → (substitute_field pair f).2 = false →
  (substitute_field pair f).1.1 = f.
Proof. destruct f as [[name value] flag]. unfold substitute_field. by repeat case_match. Qed.

Lemma field_named_same n f f' : f'.1.1 = f.1.1 → field_named n f' = field_named n f.
Proof. unfold field_named. by intros ->. Qed.

Lemma swap_field_keeps pairs f : (swap_field pairs f).1.1 = f.1.1 ∧ (swap_field pairs f).2 = f.2.
Proof.
  revert f. induction pairs as [|p pairs IH]; intros f; [done|]. cbn [swap_field foldl].
  destruct (IH (substitute_field p f).1.1) as [Hn Hf]. unfold swap_field in Hn, Hf. rewrite Hn, Hf. apply substitute_field_keeps.
Qed.

Lemma swap_field_authority pairs f : field_named (bs ":authority") f = true → swap_field pairs f = f.
Proof.
  intros Ha. induction pairs as [|p pairs IH]; [done|]. unfold swap_field in *. cbn [foldl].
  by rewrite (substitute_field_authority p f Ha).
Qed.

Lemma swap_field_plain pairs f loc :
  field_named (bs ":authority") f = false → field_named (bs "authorization") f = false →
  (swap_field pairs f).1.2 = (replace_in f.1.2 pairs loc).1.
Proof.
  unfold replace_in. generalize (@nil Hit) as hits. revert f. induction pairs as [|p pairs IH]; intros f hits Ha Hb; [done|].
  destruct (substitute_field_keeps p f) as [Hn _].
  change (swap_field (p :: pairs) f) with (swap_field pairs (substitute_field p f).1.1). cbn [foldl].
  unfold replace_step at 2. cbn [fst snd]. pose proof (substitute_field_plain p f Ha Hb) as Hv.
  rewrite <- (field_named_same _ _ _ Hn) in Ha. rewrite <- (field_named_same _ _ _ Hn) in Hb.
  destruct (replace_bytes f.1.2 (cp_needle p) (cp_replacement p)) as [next|]; cbn [default from_option id] in Hv;
    rewrite <- Hv; by apply IH.
Qed.

Lemma substitute_pairs_spec pairs acc :
  let r := foldl substitute_pair acc pairs in
  r.1 = map (swap_field pairs) acc.1 ∧ (∃ more, r.2 = acc.2 ++ more) ∧ (r.2 = acc.2 → r.1 = acc.1).
Proof.
  revert acc. induction pairs as [|p pairs IH]; intros [headers hits]; cbn [foldl fst snd].
  { split; [by rewrite map_id|]. split; [by exists []; rewrite app_nil_r|done]. }
  specialize (IH (substitute_pair (headers, hits) p)) as (Hm & [more Hh] & Hn).
  set (r := foldl substitute_pair (substitute_pair (headers, hits) p) pairs) in *.
  unfold substitute_pair in Hm, Hh, Hn. cbn [fst snd] in *. set (bh := if existsb _ _ then _ else []) in *.
  set (hh := if existsb (λ x, x.2) _ then _ else []) in *. split_and!.
  - rewrite Hm, !map_map. done.
  - exists ((bh ++ hh) ++ more). by rewrite Hh, <- app_assoc.
  - intros He. rewrite Hh, <- app_assoc in He. apply (f_equal length) in He. rewrite !length_app in He.
    assert (bh = [] ∧ hh = []) as [Hb0 Hh0] by (split; apply length_zero_iff_nil; lia).
    rewrite Hn by (by rewrite Hb0, Hh0, app_nil_r, Hh, Hb0, Hh0, app_nil_r; destruct more; [by rewrite app_nil_r|simpl in *; lia]).
    unfold bh, hh in Hb0, Hh0. rewrite map_map. clear -Hb0 Hh0. induction headers as [|f headers IH]; [done|]. cbn [map existsb] in *.
    destruct (substitute_field p f).1.2 eqn:E1; [done|]. destruct (substitute_field p f).2 eqn:E2; [done|]. cbn [orb] in *.
    rewrite substitute_field_no_hit by done. f_equal. by apply IH.
Qed.

(** The swap of a header block is a function of each field alone: names,
    flags and order stay, [:authority] is never touched, and every field but an
    authorization one gets exactly the byte swap the bodies get; a block
    without a hit is left as it was. *)
Theorem h2_values_per_field headers pairs :
  let '(out, hits) := substitute_h2_values headers pairs in
  out = map (swap_field pairs) headers ∧ map (λ f : Field, (f.1.1, f.2)) out = map (λ f : Field, (f.1.1, f.2)) headers ∧
  (hits = [] → out = headers) ∧
  (∀ f, field_named (bs ":authority") f = true → swap_field pairs f = f) ∧
  (∀ f, field_named (bs ":authority") f = false → field_named (bs "authorization") f = false →
     (swap_field pairs f).1.2 = (replace_in f.1.2 pairs Header).1).
Proof.
  unfold substitute_h2_values. destruct (substitute_pairs_spec pairs (headers, [])) as (Hm & _ & Hn).
  destruct (foldl substitute_pair (headers, []) pairs) as [out hits]. cbn [fst snd] in *. split_and!; [done| |done| |].
  - rewrite Hm, map_map. apply map_ext. intros f. by destruct (swap_field_keeps pairs f) as [-> ->].
  - apply swap_field_authority.
  - intros f. apply swap_field_plain.
Qed.
End HeaderValues.

(** ** DATA over streams *)

Section Streams.
Context `{!Digests, !JsonCrate, !Base64, !RewriteHook, !Hpack}.
Context (pair : CredentialPair) (Hn : cp_needle pair ≠ []).
(** Up to [bound] bytes still fit a frame when they are swapped. *)
Context (bound : nat) (Hfit : ∀ d, length d ≤ bound → too_long (subst (cp_needle pair) (cp_replacement pair) 0 d) = false).
#[local] Abbreviation swap := (subst (cp_needle pair) (cp_replacement pair) 0).

(** One credential pair, no plugin, nothing minted, between header blocks. *)
Record plain_h2 (m : H2) : Prop := {
  ph_pairs : h2_pairs m = [pair];
  ph_tail : h2_tail_size m = max_tail_size [pair];
  ph_hook : h2_hook m = None;
  ph_mint : mint_active m = false;
  ph_block : h2_block m = None;
}.

Definition tail_of (m : H2) (sid : N) : bytes := default [] (h2_data_tails m !! sid).

(** A held tail is shorter than the needle and holds no complete one. *)
Definition held_ok (m : H2) : Prop :=
  ∀ sid, length (tail_of m sid) < length (cp_needle pair) ∧ ¬ occurs (cp_needle pair) (tail_of m sid) ∧
         (sid ∉ h2_open_streams m → tail_of m sid = []).

(** DATA frames as (stream, flags, payload), each on a stream still open. *)
Definition DataFrame : Type := N * N * bytes.
Definition data_of (f : DataFrame) : bytes := default [] (data_payload f.1.2 f.2).
Definition ends_stream (f : DataFrame) : bool := flag_set f.1.2 FLAG_END_STREAM.
Definition open_after (open : gset N) (f : DataFrame) : gset N := if ends_stream f then open ∖ {[f.1.1]} else open.
Definition data_frame_ok (open : gset N) (f : DataFrame) : Prop :=
  f.1.1 ∈ open ∧ (0 < f.1.1 < 2 ^ 31)%N ∧ (f.1.2 < 256)%N ∧ (N.of_nat (length f.2) ≤ 0xffffff)%N ∧
  data_payload f.1.2 f.2 = Some (data_of f) ∧ length (data_of f) + length (cp_needle pair) ≤ bound.
Fixpoint allowed (open : gset N) (frames : list DataFrame) : Prop :=
  match frames with
  | [] => True
  | f :: frames => data_frame_ok open f ∧ allowed (open_after open f) frames
  end.

(** The frames through the machine, with the payloads emitted per stream. *)
Fixpoint run_data (m : H2) (frames : list DataFrame) : option (list (N * bytes) * H2) :=
  match frames with
  | [] => Some ([], m)
  | f :: frames =>
      match process_frame m (append_frame F_DATA f.1.2 f.1.1 f.2) with
      | (Ok emit, _, m) => '(outs, m) ← run_data m frames; Some ((f.1.1, drop 9 emit) :: outs, m)
      | (Err _, _, _) => None
      end
  end.
Definition emitted_on (sid : N) (outs : list (N * bytes)) : bytes :=
  concat (map snd (filter (λ o : N * bytes, o.1 = sid) outs)).
Definition data_on (sid : N) (frames : list DataFrame) : bytes :=
  concat (map data_of (filter (λ f : DataFrame, f.1.1 = sid) frames)).

Lemma tail_of_insert (tails : gmap N bytes) sid sid' t :
  default [] (<[sid := t]> tails !! sid') = if decide (sid = sid') then t else default [] (tails !! sid').
Proof. destruct (decide (sid = sid')) as [<-|Hne]; [by rewrite lookup_insert_eq|by rewrite lookup_insert_ne]. Qed.

Lemma held_ok_step m m' sid t :
  held_ok m → length t < length (cp_needle pair) → ¬ occurs (cp_needle pair) t →
  (∀ s, tail_of m' s = if decide (sid = s) then t else tail_of m s) →
  (∀ s, s ∈ h2_open_streams m → s ∉ h2_open_streams m' → s = sid ∧ t = []) → sid ∈ h2_open_streams m → held_ok m'.
Proof.
  intros Hh Hl Ho Ht Hop Hsid s. rewrite Ht. destruct (Hh s) as (Hls & Hos & Hcs). case_decide as Hd.
  - subst s. split_and!; [done..|]. intros Hs. by apply Hop in Hs as [_ ?].
  - split_and!; [done..|]. intros Hs. apply Hcs. intros Hin. by destruct (Hop s Hin Hs) as [-> _].
Qed.

Lemma process_data m fl sid payload :
  h2_block m = None → (fl < 256)%N → (sid < 2 ^ 31)%N → (N.of_nat (length payload) ≤ 0xffffff)%N →
  process_frame m (append_frame F_DATA fl sid payload) = data_frame m sid fl payload (append_frame F_DATA fl sid payload).
Proof.
  intros Hb Hfl Hs Hp. destruct (append_frame_reads F_DATA fl sid payload []) as (_ & _ & _ & Hr); [done..|].
  unfold process_frame. rewrite Hb.
  rewrite (f_equal (λ x : Frame, x.1.1.1) Hr : frame_kind _ = _), (f_equal (λ x : Frame, x.1.1.2) Hr : frame_flags _ = _),
    (f_equal (λ x : Frame, x.1.2) Hr : frame_stream _ = _), (f_equal snd Hr : drop 9 _ = _). done.
Qed.

(** One DATA frame is one step of the stream's window. *)
Lemma one_data_frame m f :
  plain_h2 m → held_ok m → data_frame_ok (h2_open_streams m) f →
  ∃ ofl piece hits m', process_frame m (append_frame F_DATA f.1.2 f.1.1 f.2) = (Ok (append_frame F_DATA ofl f.1.1 piece), hits, m') ∧
    plain_h2 m' ∧ held_ok m' ∧ h2_open_streams m' = open_after (h2_open_streams m) f ∧
    (∀ sid, sid ≠ f.1.1 → tail_of m' sid = tail_of m sid) ∧
    ∀ rest, (ends_stream f = true → rest = []) →
      swap (tail_of m f.1.1 ++ data_of f ++ rest) = piece ++ swap (tail_of m' f.1.1 ++ rest).
Proof.
  destruct f as [[sid fl] payload]. unfold data_frame_ok, open_after, ends_stream. cbn [fst snd].
  intros Hp Hh (Hopen & Hsid & Hfl & Hpl & Hd & Hb). set (d := data_of (sid, fl, payload)) in *.
  rewrite process_data by (lia || by destruct Hp). unfold data_frame.
  rewrite (proj2 (N.eqb_neq sid 0)), bool_decide_eq_true_2, Hd, (ph_mint _ Hp) by (done || lia). cbn [negb orb]. unfold take_tail.
  change (default [] (h2_data_tails m !! sid)) with (tail_of m sid). set (combined := tail_of m sid ++ d).
  destruct (Hh sid) as (Htl & Hto & _).
  assert (length combined ≤ bound) as Hcb by (unfold combined; rewrite length_app; lia).
  destruct (flag_set fl FLAG_END_STREAM) eqn:Hend.
  - pose proof (replace_in_one pair (take (length combined) combined) Body Hn) as Hout. rewrite take_ge in Hout by lia.
    rewrite take_ge by lia. change (h2_pairs (set_tails m _)) with (h2_pairs m). rewrite (ph_pairs _ Hp).
    destruct (replace_in combined [pair] Body) as [new_emit hits]. cbn [fst] in Hout. unfold hook_chunk.
    change (h2_hook (set_tails m _)) with (h2_hook m). rewrite (ph_hook _ Hp), Hout, Hfit by done.
    eexists _, _, _, _. split; [done|]. set (m' := close_stream _ _).
    assert (∀ s, tail_of m' s = if decide (sid = s) then [] else tail_of m s) as Ht.
    { intros s. unfold tail_of at 1. cbn. destruct (decide (sid = s)) as [<-|Hne]; [by rewrite lookup_delete_eq|].
      by rewrite lookup_delete_ne, lookup_alter_ne. }
    pose proof (needle_pos _ Hn) as Hpos. split; [by destruct Hp; split|]. split.
    { apply (held_ok_step m m' sid []); [done..|by apply not_occurs_short|done| |done].
      intros s Hs Hs'. split; [|done]. destruct (decide (s = sid)) as [|Hne]; [done|]. destruct Hs'.
      by apply elem_of_difference, conj; [|rewrite elem_of_singleton]. }
    split; [done|]. split; [intros s Hs; rewrite Ht, decide_False by done; done|].
    intros rest Hrest. rewrite Hrest, Ht, decide_True, app_nil_r by done. cbn. by rewrite app_nil_r.
  - destruct (safe_emit_split pair combined [] Hn) as (Hle & Hlen & _ & Ho).
    change (h2_pairs (set_tails m _)) with (h2_pairs m). change (h2_tail_size (set_tails m _)) with (h2_tail_size m).
    rewrite (ph_pairs _ Hp), (ph_tail _ Hp). set (e := needle_safe_emit_len combined [pair] (max_tail_size [pair])) in *.
    pose proof (replace_in_one pair (take e combined) Body Hn) as Hout.
    destruct (replace_in (take e combined) [pair] Body) as [new_emit hits]. cbn [fst] in Hout. unfold hook_chunk.
    change (h2_hook (set_tails m _)) with (h2_hook m).
    rewrite (ph_hook _ Hp), Hout, Hfit by (rewrite length_take; lia).
    eexists _, _, _, _. split; [done|].
    match goal with |- context [if e <? length combined then ?a else ?b] => set (m' := if e <? length combined then a else b) end.
    assert (∀ s, tail_of m' s = if decide (sid = s) then drop e combined else tail_of m s) as Ht.
    { intros s. unfold m'. destruct (Nat.ltb_spec e (length combined)); unfold tail_of at 1; cbn [h2_data_tails set_tails].
      - rewrite tail_of_insert. case_decide; [done|]. by rewrite lookup_alter_ne.
      - rewrite (drop_ge combined e) by lia. destruct (decide (sid = s)) as [<-|Hne]; [|by rewrite lookup_alter_ne].
        rewrite lookup_alter_eq. by destruct (h2_data_tails m !! sid). }
    assert (h2_open_streams m' = h2_open_streams m) as Hop by (unfold m'; by case_match).
    split; [unfold m'; destruct Hp; by case_match; split|].
    split.
    { apply (held_ok_step m m' sid (drop e combined)); [done|by rewrite length_drop|done..| |done]. intros s Hs. by rewrite Hop. }
    split; [done|]. split; [intros s Hs; rewrite Ht, decide_False by done; done|].
    intros rest _. rewrite Ht, decide_True, app_assoc by done. fold combined.
    destruct (safe_emit_split pair combined rest Hn) as (_ & _ & Hreach & _). fold e in Hreach.
    unfold swap. rewrite <- subst_app by done. by rewrite app_assoc, take_drop.
Qed.

Lemma open_after_subseteq open f : open_after open f ⊆ open.
Proof. unfold open_after. case_match; set_solver. Qed.

Lemma allowed_closed open frames sid : sid ∉ open → allowed open frames → data_on sid frames = [].
Proof.
  revert open. induction frames as [|f frames IH]; intros open Hs Ha; [done|]. destruct Ha as [[Hf _] Ha].
  unfold data_on. rewrite filter_cons_False by (by intros <-). apply (IH (open_after open f)); [|done].
  intros Hin. by apply Hs, (open_after_subseteq open f).
Qed.

Lemma run_data_spec frames m : plain_h2 m → held_ok m → allowed (h2_open_streams m) frames →
  ∃ outs m', run_data m frames = Some (outs, m') ∧ held_ok m' ∧
    h2_open_streams m' = foldl open_after (h2_open_streams m) frames ∧
    ∀ sid, emitted_on sid outs ++ tail_of m' sid = swap (tail_of m sid ++ data_on sid frames).
Proof.
  revert m. induction frames as [|f frames IH]; intros m Hp Hh Ha.
  { exists [], m. split_and!; [done..|]. intros sid. cbn. rewrite app_nil_r, subst_no_occurrence; [done|apply Hh]. }
  destruct Ha as [Hf Ha]. destruct (one_data_frame m f Hp Hh Hf) as (ofl & piece & hits & m1 & Hrun & Hp1 & Hh1 & Ho1 & Hother & Hthis).
  rewrite <- Ho1 in Ha. destruct (IH m1 Hp1 Hh1 Ha) as (outs & m' & Hr & Hh' & Ho' & Hem). cbn [run_data]. rewrite Hrun, Hr.
  eexists _, m'. split; [done|]. split; [done|]. split; [cbn [foldl]; by rewrite Ho', Ho1|]. intros sid.
  assert (drop 9 (append_frame F_DATA ofl f.1.1 piece) = piece) as -> by done.
  unfold emitted_on, data_on. destruct (decide (f.1.1 = sid)) as [<-|Hne].
  - rewrite !filter_cons_True by done. cbn [map concat snd]. rewrite <- app_assoc.
    change (concat (map snd (filter (λ o : N * bytes, o.1 = f.1.1) outs))) with (emitted_on f.1.1 outs).
    rewrite Hem. symmetry. apply Hthis. intros He. apply (allowed_closed (h2_open_streams m1)); [|done].
    rewrite Ho1. unfold open_after. rewrite He. set_solver.
  - rewrite !filter_cons_False by done. rewrite <- (Hother sid) by done. apply Hem.
Qed.

(** C26: DATA frames of any number of streams, in any interleaving, padded or
    not, ended or not, on a leg with a single credential pair, no plugin and
    nothing minted, with no header block begun and no tail held: when the
    frames are all DATA, each on a stream that is open when it comes, with
    padding that fits and a payload so short that a text of its length and the
    needle's, and whatever shorter, fits a frame once it is swapped, each
    stream's emitted payloads, with the tail still held of it, are the
    left-to-right swap of that stream's whole body; a stream that ended has
    nothing held, and a held tail has no complete needle. *)
Theorem stream_bodies_swapped m frames :
  plain_h2 m → h2_data_tails m = ∅ → allowed (h2_open_streams m) frames →
  ∃ outs m', run_data m frames = Some (outs, m') ∧
    h2_open_streams m' = foldl open_after (h2_open_streams m) frames ∧
    ∀ sid, emitted_on sid outs ++ tail_of m' sid = swap (data_on sid frames) ∧ ¬ occurs (cp_needle pair) (tail_of m' sid) ∧
           (sid ∉ h2_open_streams m' → tail_of m' sid = []).
Proof.
  intros Hp Ht Ha. assert (∀ sid, tail_of m sid = []) as Hnil by (intros sid; unfold tail_of; by rewrite Ht, lookup_empty).
  assert (held_ok m) as Hh.
  { intros sid. rewrite Hnil. pose proof (needle_pos _ Hn). split_and!; [done|by apply not_occurs_short|done]. }
  destruct (run_data_spec frames m Hp Hh Ha) as (outs & m' & Hr & Hh' & Ho & Hem). exists outs, m'. split_and!; [done..|].
  intros sid. specialize (Hem sid). rewrite Hnil in Hem. destruct (Hh' sid) as (_ & Hocc & Hc). done.
Qed.
End Streams.

(** ** The invariant *)

Section Invariant.
Context `{!Digests, !JsonCrate, !Base64, !RewriteHook, !Hpack}.
#[local] Opaque H2_MAX_STREAMS H2_MAX_BLOCK MAX_MINT_BODY.

(** Streams are bounded and every tail and body held belongs to an open one; a
    leg either holds tails or buffers bodies to be minted. Bodies and a block's
    fragments have their caps. Of the length of a held tail, and of the frames of
    an open block that are kept beside its fragments ([bk_raw]), nothing is
    stated: the latter has no cap ([empty_continuations_grow]). *)
Record streams_ok (m : H2) : Prop := {
  so_open : size (h2_open_streams m) ≤ H2_MAX_STREAMS;
  so_tails : dom (h2_data_tails m) ⊆ h2_open_streams m;
  so_mints : dom (h2_mint_streams m) ⊆ h2_open_streams m;
  so_excl : if mint_active m then h2_data_tails m = ∅ else h2_mint_streams m = ∅;
  so_mint_len : map_Forall (λ _ body, length body ≤ MAX_MINT_BODY) (h2_mint_streams m);
  so_block : ∀ block, h2_block m = Some block → length (bk_fragments block) ≤ H2_MAX_BLOCK;
}.

(** The fields the invariant is about. *)
Definition view (m : H2) := (h2_open_streams m, h2_data_tails m, h2_mint_streams m, h2_block m, mint_active m).
Lemma streams_ok_view m m' : view m' = view m → streams_ok m → streams_ok m'.
Proof. intros [= Hop Ht Hm Hb Ha] []. by split; rewrite ?Hop, ?Ht, ?Hm, ?Hb, ?Ha. Qed.

Lemma mint_body_view m body : view (h2_mint_body m body).2 = view m.
Proof.
  unfold h2_mint_body. destruct (h2_mint_plan m) eqn:Hp; [destruct (h2_mint m) as [mint|] eqn:Hm|]; cbn [snd].
  2, 3: by destruct (replace_in _ _ _).
  destruct (mint_and_redact _ _ _ _) as [[out hits] mint']. unfold view, mint_active. cbn. by rewrite Hm.
Qed.
Lemma hook_chunk_view m chunk eof : view (hook_chunk m chunk eof).2 = view m.
Proof. unfold hook_chunk. destruct (h2_hook m); [|done]. by destruct (rewrite_chunk _ _ _) as [[[] c] h']. Qed.
Lemma hook_block_view m headers : view (hook_block m headers).2 = view m.
Proof.
  unfold hook_block. destruct (h2_hook m); [|done]. case_match.
  - by destruct (rewrite_h2_head _ _) as [[[] hs] h'].
  - by destruct (rewrite_trailers _ _) as [[[] hs] h'].
Qed.
Lemma refresh_view m : view (refresh_minted_pairs m) = view m.
Proof. unfold refresh_minted_pairs. by case_match. Qed.

(** Releasing a stream with its buffers. *)
Lemma close_ok m m' sid : streams_ok m →
  view m' = (h2_open_streams m ∖ {[sid]}, delete sid (h2_data_tails m), delete sid (h2_mint_streams m), h2_block m, mint_active m) →
  streams_ok m'.
Proof.
  intros [Ho Ht Hm He Hl Hb] [= Eo Et Em Eb Ea]. split; rewrite ?Eo, ?Et, ?Em, ?Eb, ?Ea.
  - etrans; [|done]. apply subseteq_size. set_solver.
  - rewrite dom_delete_L. set_solver.
  - rewrite dom_delete_L. set_solver.
  - destruct (mint_active m); rewrite He; apply delete_empty.
  - by apply map_Forall_delete.
  - done.
Qed.

Lemma mint_data_frame_ok m sid fl data : streams_ok m → mint_active m = true → sid ∈ h2_open_streams m →
  streams_ok (mint_data_frame m sid fl data).2.
Proof.
  intros Hok Ha Hs. pose proof (so_excl _ Hok) as Ht. rewrite Ha in Ht. unfold mint_data_frame. cbv zeta.
  set (buf := default [] _ ++ data). set (rel := close_stream (set_mint_streams m _) sid).
  assert (streams_ok rel) as Hrel.
  { apply (close_ok m _ sid Hok). unfold rel, view. cbn. by rewrite Ht, delete_empty. }
  destruct (Nat.ltb_spec MAX_MINT_BODY (length buf)); [by apply (streams_ok_view rel)|].
  destruct (flag_set fl FLAG_END_STREAM); cbn [negb].
  - pose proof (mint_body_view rel buf) as Hv. destruct (h2_mint_body rel buf) as [[body hits] m1]. cbn [snd] in Hv.
    assert (streams_ok m1) as Hm1 by (by apply (streams_ok_view rel)).
    destruct (too_long body); [by apply (streams_ok_view m1)|done].
  - destruct Hok as [Ho Ht' Hm He Hl Hb]. split; try done; cbn [snd set_mint_streams h2_mint_streams h2_open_streams].
    + rewrite dom_insert_L. set_solver.
    + change (mint_active (set_mint_streams m _)) with (mint_active m). by rewrite Ha.
    + by apply map_Forall_insert_2.
Qed.

Lemma data_frame_ok' m sid fl payload raw : streams_ok m → streams_ok (data_frame m sid fl payload raw).2.
Proof.
  intros Hok. unfold data_frame. destruct ((sid =? 0)%N || negb (bool_decide (sid ∈ h2_open_streams m))) eqn:Hg; [done|].
  apply orb_false_iff in Hg as [_ Hopen%negb_false_iff%bool_decide_eq_true_1].
  destruct (data_payload fl payload) as [data|]; [|done]. destruct (mint_active m) eqn:Ha.
  { pose proof (mint_data_frame_ok m sid fl data Hok Ha Hopen) as Hm. by destruct (mint_data_frame m sid fl data) as [[e h] m1]. }
  pose proof (so_excl _ Hok) as Hm. rewrite Ha in Hm. unfold take_tail. set (m0 := set_tails m _).
  assert (streams_ok m0) as Hok0.
  { destruct Hok. split; try done; [by cbn; rewrite dom_alter_L|by change (mint_active m0) with (mint_active m); rewrite Ha]. }
  assert (sid ∈ h2_open_streams m0 ∧ mint_active m0 = false) as [Hopen0 Ha0] by done. clearbody m0. clear Hok Hopen Ha Hm.
  set (combined := _ ++ data). destruct (replace_in _ _ _) as [new_emit hits].
  pose proof (hook_chunk_view m0 new_emit (flag_set fl FLAG_END_STREAM)) as Hv.
  destruct (hook_chunk _ _ _) as [[out|] m1]; cbn [snd] in *; [|by apply (streams_ok_view m0)].
  assert (streams_ok m1) as Hok1 by (by apply (streams_ok_view m0)). injection Hv as Eo _ _ _ Ea. rewrite <- Eo in Hopen0. rewrite <- Ea in Ha0.
  clear Eo Ea Hok0. pose proof (so_excl _ Hok1) as Hm. rewrite Ha0 in Hm.
  match goal with |- context [if flag_set fl FLAG_END_STREAM then ?a else ?b] =>
    set (m2 := if flag_set fl FLAG_END_STREAM then a else b) end.
  assert (streams_ok m2) as Hok2.
  { unfold m2. destruct (flag_set fl FLAG_END_STREAM).
    - apply (close_ok m1 _ sid Hok1). unfold view. cbn. by rewrite Hm, delete_empty.
    - case_match; [|done]. destruct Hok1. split; try done; cbn; [rewrite dom_insert_L; set_solver|].
      change (mint_active (set_tails m1 _)) with (mint_active m1). by rewrite Ha0. }
  clearbody m2. repeat case_match; try done; by apply (streams_ok_view m2).
Qed.

Lemma end_block_ok m sid : streams_ok m → streams_ok (end_block m sid).2.
Proof.
  intros Hok. unfold end_block. set (m0 := set_mint_streams m _).
  assert (streams_ok m0 ∧ h2_mint_streams m0 !! sid = None) as [Hok0 Hno].
  { split; [|by cbn; rewrite lookup_delete_eq]. destruct Hok as [Ho Ht Hm He Hl Hb]. split; try done; cbn.
    - rewrite dom_delete_L. set_solver.
    - change (mint_active m0) with (mint_active m). destruct (mint_active m); [done|]. by rewrite He, delete_empty.
    - by apply map_Forall_delete. }
  clearbody m0.
  assert (∀ m1, view m1 = view m0 → streams_ok (close_stream (flush_trailer_held m1 sid).2 sid)) as Hf.
  { intros m1 Hv. apply (close_ok m0 _ sid Hok0). injection Hv as Eo Et Em Eb Ea.
    assert (view (flush_trailer_held m1 sid).2 = view (set_tails m1 (delete sid (h2_data_tails m1)))) as Hfv.
    { unfold flush_trailer_held. case_match; [done|]. destruct (replace_in _ _ _) as [nh hits].
      pose proof (hook_chunk_view (set_tails m1 (delete sid (h2_data_tails m1))) nh true) as Hh.
      by destruct (hook_chunk _ _ _) as [[o|] m2]. }
    destruct (flush_trailer_held m1 sid) as [[o h] m2]. cbn [snd] in *. injection Hfv as Eo' Et' Em' Eb' Ea'.
    change (mint_active m2 = mint_active m1) in Ea'. unfold view. change (mint_active (close_stream m2 sid)) with (mint_active m2).
    cbn. cbn in Eo', Et', Em', Eb'. rewrite Eo', Et', Em', Eb', Ea', Eo, Et, Em, Eb, Ea. f_equal. f_equal. f_equal.
    by rewrite delete_id. }
  destruct (h2_mint_streams m !! sid) as [body|].
  - pose proof (mint_body_view m0 body) as Hv. destruct (h2_mint_body m0 body) as [[nb hits] m1]. cbn [snd] in Hv.
    destruct (too_long nb); [by apply (streams_ok_view m0)|]. specialize (Hf m1 Hv).
    by destruct (flush_trailer_held m1 sid) as [[o h] m2].
  - specialize (Hf m0 eq_refl). by destruct (flush_trailer_held m0 sid) as [[o h] m2].
Qed.

Lemma finish_block_ok m block : streams_ok m → streams_ok (finish_block m block).2.
Proof.
  intros Hok. unfold finish_block. destruct (hpack_decode _ _) as [[headers|] dec]; [|by apply (streams_ok_view m)].
  case_match; [by apply (streams_ok_view m)|]. pose proof (refresh_view (set_decoder m dec)) as Hv.
  set (m0 := refresh_minted_pairs _) in *. clearbody m0. change (view m0 = view m) in Hv.
  destruct (substitute_h2_values _ _) as [headers' hits]. pose proof (hook_block_view m0 headers') as Hv1.
  destruct (hook_block m0 headers') as [[hs|] m1]; cbn [snd] in Hv1; [|apply (streams_ok_view m); [by rewrite <- Hv|done]].
  assert (view (count_head m1 hs) = view m1) as Hv2 by (unfold count_head; by case_match).
  set (m2 := count_head m1 hs) in *. clearbody m2.
  assert (view (suppress_step m2 hs).2 = view m2) as Hv3 by (unfold suppress_step; cbn [snd]; by case_match).
  destruct (suppress_step m2 hs) as [no_body m3]. cbn [snd] in Hv3.
  assert (streams_ok m3) as Hok3 by (apply (streams_ok_view m); [by rewrite Hv3, Hv2, Hv1|done]). clear Hv Hv1 Hv2 Hv3.
  destruct (encode_fields (h2_encoder m3) hs []) as [[encoded|] enc]; [|by apply (streams_ok_view m3)].
  set (m4 := set_encoder m3 enc). assert (streams_ok m4) as Hok4 by (by apply (streams_ok_view m3)). clearbody m4.
  destruct (negb no_body && negb (bool_decide (bk_stream block ∈ h2_open_streams m4))) eqn:Hopens; cbn [andb].
  - apply andb_true_iff in Hopens as [_ Hnew%negb_true_iff%bool_decide_eq_false_1].
    destruct (Nat.leb_spec H2_MAX_STREAMS (size (h2_open_streams m4))) as [|Hlt]; [done|].
    set (m5 := set_open m4 _). assert (streams_ok m5) as Hok5.
    { destruct Hok4. split; try done; cbn; [|set_solver..]. rewrite size_union by set_solver. rewrite size_singleton. lia. }
    clearbody m5. destruct (bk_end_stream block); [|done]. pose proof (end_block_ok m5 (bk_stream block) Hok5) as He.
    by destruct (end_block m5 _) as [[[out|] eh] m6].
  - destruct (bk_end_stream block); [|done]. pose proof (end_block_ok m4 (bk_stream block) Hok4) as He.
    by destruct (end_block m4 _) as [[[out|] eh] m6].
Qed.

Lemma set_block_ok m b : streams_ok m → (∀ block, b = Some block → length (bk_fragments block) ≤ H2_MAX_BLOCK) →
  streams_ok (set_block m b).
Proof. intros [] Hb. by split. Qed.

Lemma process_frame_ok m raw : streams_ok m → streams_ok (process_frame m raw).2.
Proof.
  intros Hok.
  assert (∀ sid fl pl raw, streams_ok (continuation_frame m sid fl pl raw).2) as Hc.
  { intros sid fl pl raw'. unfold continuation_frame. destruct (h2_block m) as [b|]; [|done].
    assert (streams_ok (set_block m None)) as Hn by (by apply set_block_ok).
    case_match; [done|]. destruct (Nat.ltb_spec H2_MAX_BLOCK (length (bk_fragments b ++ pl))) as [|Hle]; cbn [bk_fragments].
    - by rewrite (proj2 (Nat.ltb_lt _ _)).
    - rewrite (proj2 (Nat.ltb_ge _ _)) by done. case_match; [by apply finish_block_ok|]. apply set_block_ok; [done|]. by intros ? [= <-]. }
  unfold process_frame. destruct (h2_block m) as [b|]; [case_match; [by apply set_block_ok|apply Hc]|].
  case_match.
  { unfold headers_frame. case_match; [done|]. destruct (headers_fragment _ _) as [fragment|]; [|done].
    destruct (Nat.ltb_spec H2_MAX_BLOCK (length fragment)); [done|]. case_match; [by apply finish_block_ok|].
    apply set_block_ok; [done|]. by intros ? [= <-]. }
  case_match; [apply Hc|]. case_match; [by apply data_frame_ok'|]. case_match; [|by case_match].
  case_match; [done|]. by apply (close_ok m _ (frame_stream raw) Hok).
Qed.

(** What is buffered between two chunks, and the latch of a leg gone opaque. *)
Definition resting (m : H2) : Prop :=
  match h2_phase m with
  | Preface => length (h2_buffer m) < length H2_PREFACE
  | Framing => has_frame (h2_buffer m) = false
  | Opaque => h2_buffer m = [] ∧ h2_block m = None ∧ h2_mint_streams m = ∅ ∧ (h2_hook m ≠ None → h2_must_close m = true)
  end.

Lemma scan_view m data : view (h2_scan m data).2 = view m ∧ h2_hook (h2_scan m data).2 = h2_hook m ∧
  h2_must_close (h2_scan m data).2 = h2_must_close m.
Proof. unfold h2_scan. by destruct (scan_with_tail _ _ _ _ _). Qed.

Lemma go_opaque_ok m : streams_ok m → streams_ok (go_opaque m).2 ∧ resting (go_opaque m).2 ∧
  (h2_mint_streams m ≠ ∅ → h2_must_close (go_opaque m).2 = true).
Proof.
  intros Hok. unfold go_opaque. cbv zeta.
  match goal with |- context [h2_scan ?a ?r] => set (m0 := a); set (rest := r) end.
  assert (streams_ok m0 ∧ h2_phase m0 = Opaque ∧ h2_buffer m0 = [] ∧ h2_block m0 = None ∧ h2_mint_streams m0 = ∅ ∧
          (h2_hook m0 ≠ None → h2_must_close m0 = true) ∧ (h2_mint_streams m ≠ ∅ → h2_must_close m0 = true)) as Hm0.
  { destruct Hok as [Ho Ht Hm He Hl Hb]. unfold m0. destruct m as [??[hk|]????????????????]; cbn in *; case_bool_decide;
      (split; [split; cbn; try done; unfold mint_active in *; cbn in *; by case_match|]); by split_and!. }
  clearbody m0 rest. destruct Hm0 as (Hok0 & Hp & Hb & Hbl & Hms & Hh & Hc).
  destruct (scan_view m0 rest) as (Hv & Hhk & Hmc).
  assert (h2_phase (h2_scan m0 rest).2 = Opaque ∧ h2_buffer (h2_scan m0 rest).2 = []) as [Hp' Hb'].
  { pose proof (h2_scan_forget m0 rest) as Hf. split; [by rewrite <- Hp; apply (f_equal h2_phase) in Hf|by rewrite <- Hb; apply (f_equal h2_buffer) in Hf]. }
  destruct (h2_scan m0 rest) as [hits m1]. cbn [snd] in *. split; [by apply (streams_ok_view m0)|]. rewrite Hmc. split; [|done].
  unfold resting. rewrite Hp', Hhk, Hmc. injection Hv as _ _ Em Eb _. by rewrite Em, Eb.
Qed.

Lemma frame_loop_ok m buf out hits o h m' : streams_ok m → h2_phase m = Framing →
  frame_loop (length buf) m buf out hits = Some (o, h, m') → streams_ok m' ∧ resting m'.
Proof.
  revert m out hits. induction buf as [buf Hf|buf Hf IH] using buffer_ind; intros m out hits Hok Hp;
    rewrite (frame_loop_unfold (length buf)), Hf by done.
  - intros [= <- <- <-]. split; [by apply (streams_ok_view m)|]. unfold resting. cbn. by rewrite Hp.
  - pose proof (process_frame_ok m (take (9 + frame_len buf) buf) Hok) as Hok1.
    pose proof (process_frame_keeps m (take (9 + frame_len buf) buf)) as Hk.
    destruct (process_frame _ _) as [[[emit|violation] h1] m1]; cbn [snd] in *.
    + apply IH; [done|]. by rewrite (k_phase _ _ Hk).
    + unfold violate. destruct (scan_view m1 violation) as [Hv _]. destruct (h2_scan m1 violation) as [sh m2]. cbn [snd] in Hv.
      destruct (go_opaque_ok (set_buffer m2 (drop (9 + frame_len buf) buf))) as (Hok3 & Hr & _); [by apply (streams_ok_view m1)|].
      destruct (go_opaque _) as [[r rh] m3]. by intros [= <- <- <-].
Qed.

Lemma flush_eof_ok m : streams_ok m → resting m → streams_ok (flush_eof m).2 ∧ resting (flush_eof m).2.
Proof.
  intros Hok Hr. unfold flush_eof. destruct (flush_tails _) as [held hh].
  set (m0 := set_tails _ ∅).
  assert (∀ l acc, keeps m0 acc.2 ∧ view acc.2 = (h2_open_streams m, ∅, ∅, None, mint_active m) →
    keeps m0 (foldl (λ acc sb, let '(out, hits, m) := acc in
       let '(new_body, body_hits, m) := h2_mint_body m sb.2 in (out ++ data_frames sb.1 new_body, hits ++ body_hits, m)) acc l).2 ∧
    view (foldl (λ acc sb, let '(out, hits, m) := acc in
       let '(new_body, body_hits, m) := h2_mint_body m sb.2 in (out ++ data_frames sb.1 new_body, hits ++ body_hits, m)) acc l).2
    = (h2_open_streams m, ∅, ∅, None, mint_active m)) as Hfold.
  { induction l as [|sb l IH]; intros acc Hacc; [done|]. cbn [foldl]. apply IH. destruct acc as [[out hits] m1]. cbn [snd] in *.
    pose proof (h2_mint_body_keeps m1 sb.2) as Hk. pose proof (mint_body_view m1 sb.2) as Hv.
    destruct (h2_mint_body m1 sb.2) as [[nb bh] m2]. cbn [snd] in *. destruct Hacc as [Hk0 Hv0].
    split; [by eapply keeps_trans|by rewrite Hv]. }
  unfold flush_mints. specialize (Hfold (map_to_list (h2_mint_streams m0)) ([], [], set_mint_streams m0 ∅)).
  destruct (foldl _ _ _) as [[minted mh] m1]. cbn [snd] in *. destruct Hfold as [Hk Hv]; [by split|].
  destruct Hok as [Ho Ht Hm He Hl Hb]. destruct Hk as [Kp Kb _ _ _ Kh Kc]. change (h2_phase m1 = h2_phase m) in Kp. change (h2_buffer m1 = []) in Kb.
  change (h2_hook m1 = None ↔ h2_hook m = None) in Kh. change (h2_must_close m = true → h2_must_close m1 = true) in Kc.
  injection Hv as Vo Vt Vm Vb Va. split.
  - split; rewrite ?Vo, ?Vt, ?Vm, ?Vb, ?Va; [done|set_solver|set_solver|by case_match|apply map_Forall_empty|done].
  - unfold resting in *. rewrite Kp, Kb. destruct (h2_phase m); [cbn; lia|done|]. rewrite Vb, Vm. split_and!; [done..|].
    intros Hh. apply Kc, Hr. by rewrite <- Kh.
Qed.

Lemma substitute_ok m chunk out hits m' : streams_ok m → resting m → substitute m chunk = Some (out, hits, m') →
  streams_ok m' ∧ resting m'.
Proof.
  intros Hok Hr. destruct (decide (chunk = [])) as [->|Hc].
  { unfold substitute. rewrite bool_decide_eq_true_2 by done. intros Hs.
    pose proof (flush_eof_ok m Hok Hr) as Hf. destruct (flush_eof m) as [[o h] m1]. by injection Hs as <- <- <-. }
  destruct (h2_phase m) eqn:Hp.
  - rewrite substitute_preface by done. cbv zeta. destruct (Nat.ltb_spec (length (h2_buffer m ++ chunk)) (length H2_PREFACE)).
    + intros [= <- <- <-]. split; [by apply (streams_ok_view m)|]. unfold resting. cbn [set_buffer h2_phase h2_buffer]. by rewrite Hp.
    + case_match.
      * destruct (go_opaque_ok (set_buffer m (h2_buffer m ++ chunk))) as (Hg & Hg' & _); [by apply (streams_ok_view m)|].
        destruct (go_opaque _) as [[o h] m1]. by intros [= <- <- <-].
      * apply frame_loop_ok; [by apply (streams_ok_view m)|done].
  - rewrite substitute_framing by done. apply frame_loop_ok; [by apply (streams_ok_view m)|done].
  - unfold substitute. rewrite Hp, bool_decide_eq_false_2, bool_decide_eq_true_2 by done.
    destruct (scan_view m chunk) as (Hv & Hh & Hm). pose proof (h2_scan_forget m chunk) as Hf. destruct (h2_scan m chunk) as [hs m1]. cbn [snd] in *.
    intros [= <- <- <-]. unfold resting in *. rewrite Hp in Hr. destruct Hr as (Hb & Hbl & Hms & Hc').
    assert (h2_phase m1 = Opaque ∧ h2_buffer m1 = []) as [Hp1 Hb1] by (split; [apply (f_equal h2_phase) in Hf|apply (f_equal h2_buffer) in Hf]; by etrans).
    injection Hv as Eo Et Em Eb Ea.
    assert (∀ b, streams_ok (if b : bool then set_close m1 else m1) ∧ resting (if b then set_close m1 else m1)) as Hgo.
    { intros b. split; [apply (streams_ok_view m); [|done]; unfold view; destruct b; by rewrite <- Eo, <- Et, <- Em, <- Eb, <- Ea|].
      unfold resting. destruct b; cbn [set_close h2_phase h2_buffer h2_block h2_mint_streams h2_hook h2_must_close];
        rewrite Hp1, Eb, Em, ?Hh, ?Hm; by split_and!. }
    destruct (h2_dir m1); [apply (Hgo false)|]. destruct hs; [apply (Hgo false)|apply (Hgo true)].
Qed.

(** The states of a machine: built, fed, told by the other direction, and with
    the shared mint store changed by another connection. *)
Inductive h2_reached : H2 → Prop :=
| ReachedNew grants scheme host port dir hook mint : h2_reached (H2_new grants scheme host port dir hook mint)
| ReachedFeed m chunk out hits m' : h2_reached m → substitute m chunk = Some (out, hits, m') → h2_reached m'
| ReachedNote m n : h2_reached m → h2_reached (H2_apply_peer_note m n)
| ReachedTaken m : h2_reached m → h2_reached (H2_take_peer_note m).2
| ReachedMint m store store' : h2_reached m → h2_mint m = Some store → h2_reached (set_mint m (Some store')).

(** A CONTINUATION frame without a payload leaves the block open and its
    fragments as they are, and adds itself to the raw frames kept: a block that is
    never ended grows without bound. *)
Lemma empty_continuations_grow m block n :
  h2_block m = Some block → bk_stream block ≠ 0%N → length (bk_fragments block) ≤ H2_MAX_BLOCK →
  let frame := append_frame F_CONTINUATION 0 (bk_stream block) [] in
  let feed m := (continuation_frame m (bk_stream block) 0 [] frame).2 in
  let fed := Nat.iter n feed m in
  ∃ block', h2_block fed = Some block' ∧ bk_fragments block' = bk_fragments block ∧
    length (bk_raw block') = length (bk_raw block) + 9 * n.
Proof.
  intros Hb Hs Hl frame feed fed. unfold fed. clear fed.
  enough (∃ block', h2_block (Nat.iter n feed m) = Some block' ∧
    bk_stream block' = bk_stream block ∧ bk_fragments block' = bk_fragments block ∧
    length (bk_raw block') = length (bk_raw block) + 9 * n) as (b & ? & ? & ? & ?) by (by exists b).
  induction n as [|n (b & Hb' & Hs' & Hf & Hr)]; [exists block; split_and!; [done..|lia]|].
  change (Nat.iter (S n) feed m) with (feed (Nat.iter n feed m)). unfold feed at 1, continuation_frame. rewrite Hb'. cbv zeta. cbn [bk_stream bk_fragments].
  rewrite Hs', N.eqb_refl, (proj2 (N.eqb_neq _ _) Hs), app_nil_r, Hf. cbn [orb negb].
  rewrite (proj2 (Nat.ltb_ge _ _)) by done. change (flag_set 0 FLAG_END_HEADERS) with false. cbn [snd].
  eexists. split; [done|]. cbn [bk_stream bk_fragments bk_raw]. split_and!; [done..|].
  rewrite length_app, Hr. change (length frame) with 9. lia.
Qed.

(** C31: Whatever chunks arrive, in every state of a machine: at most
    [H2_MAX_STREAMS] streams are open, every held tail and every body to be
    minted belongs to an open one, header fragments and bodies to be minted stay
    within their caps, less than one frame (or preface) is left in the input
    buffer, and a leg that went opaque has an empty input buffer, with its latch
    closed whenever it has a plugin. The length of the tails is not stated, and the
    raw frames kept of an open header block are not bounded
    ([empty_continuations_grow]). *)
Theorem h2_invariant m : h2_reached m → streams_ok m ∧ resting m.
Proof.
  induction 1 as [grants scheme host port dir hook mint|m chunk out hits m' _ [Hok Hr] Hs|m n _ [Hok Hr]|m _ [Hok Hr]|m st st' _ [Hok Hr] Hm].
  - unfold H2_new. match goal with |- streams_ok (refresh_minted_pairs ?a) ∧ _ => set (m0 := a) end.
    assert (streams_ok m0) as Hok0.
    { split; cbn; [rewrite size_empty; lia|set_solver|set_solver|by case_match|apply map_Forall_empty|done]. }
    split; [apply (streams_ok_view m0); [apply refresh_view|done]|].
    assert (resting m0) as Hr0 by (unfold resting, m0; cbn; destruct dir; [cbn; lia|done]).
    unfold refresh_minted_pairs. by case_match.
  - by eapply substitute_ok.
  - split; [by apply (streams_ok_view m)|done].
  - split; [by apply (streams_ok_view m)|done].
  - split; [|done]. apply (streams_ok_view m); [|done]. unfold view, mint_active. cbn. by rewrite Hm.
Qed.
End Invariant.

(** ** Concrete machines *)

(** A coder without compression: a line per field, [name=value]. *)
Definition sample_encode (f : Field) : bytes := f.1.1 ++ bs "=" ++ f.1.2 ++ [LF].
Definition sample_hpack : Hpack := {|
  HpackDecoder := unit;
  HpackEncoder := unit;
  decoder_default := tt;
  encoder_default := tt;
  NEVER_INDEXED := 16;
  hpack_decode d block :=
    (Some (omap (λ line, '(n, v) ← split_once (bs "=") line; Some (n, v, 0%N)) (split_byte LF block)), d);
  hpack_encode e f := (Some (sample_encode f), e);
|}.
(** A plugin that signs what it sees. *)
Definition sample_signer : RewriteHook := {|
  hook_state := unit;
  rewrite_head h head := (VContinue, head, h);
  rewrite_trailers h headers := (VContinue, headers, h);
  rewrite_chunk h region eof := (VContinue, region ++ bs "#", h);
|}.

Section Samples.
#[local] Existing Instances sample_signer sample_hpack sample_digests sample_json sample_base64.

Definition sample_h2_pair : CredentialPair :=
  {| cp_needle := bs "decoy!"; cp_replacement := bs "secret"; cp_label := bs "t" |}.
(** A request leg that walks frames, with streams 1 and 3 open. *)
Definition sample_h2 (hook : option unit) : H2 :=
  Build_H2 sample_signer sample_hpack [sample_h2_pair] Downstream hook tt tt [] Framing None {[1; 3]}%N ∅ []
    (max_tail_size [sample_h2_pair]) 0 0 false [sample_h2_pair] None None ∅.

Lemma sample_h2_plain : plain_h2 sample_h2_pair (sample_h2 None).
Proof. by split. Qed.

Lemma h2_split_invariant_witness :
  let a := take 11 (append_frame F_DATA 0 1 (bs "key=decoy!")) in
  let b := drop 11 (append_frame F_DATA 0 1 (bs "key=decoy!")) in
  ∃ o1 h1 m1 o2 h2 m2, substitute (sample_h2 None) a = Some (o1, h1, m1) ∧ substitute m1 b = Some (o2, h2, m2) ∧
    o1 ++ o2 = append_frame F_DATA 0 1 (bs "key=secret").
Proof.
  intros a b. destruct (h2_split_invariant (sample_h2 None) a b ltac:(done) ltac:(done))
    as (o1 & h1 & m1 & o2 & h2 & m2 & h & m' & Hs1 & Hs2 & Hs & _).
  exists o1, h1, m1, o2, h2, m2. split; [exact Hs1|]. split; [exact Hs2|].
  assert ((λ r, r.1.1) <$> substitute (sample_h2 None) (a ++ b) = Some (append_frame F_DATA 0 1 (bs "key=secret"))) as Hv by (by vm_compute).
  rewrite Hs in Hv. by injection Hv.
Defined.

Lemma header_frames_reassemble_witness :
  (7 < 2 ^ 31)%N ∧ ∃ pieces, concat pieces = bs "block" ∧
    read_frames (length (append_header_frames 7 true (bs "block"))) (append_header_frames 7 true (bs "block")) =
      Some (block_frames 7 true true pieces).
Proof.
  split; [done|]. destruct (header_frames_reassemble 7 true (bs "block") ltac:(done)) as (pieces & Hc & _ & Hr). by exists pieces.
Defined.

Lemma stream_bodies_swapped_witness :
  let frames := [(1, 0, bs "a=dec"); (3, 1, bs "decoy!"); (1, 1, bs "oy!")]%N in
  ∃ outs m', run_data (sample_h2 None) frames = Some (outs, m') ∧
    emitted_on 1 outs = bs "a=secret" ∧ emitted_on 3 outs = bs "secret".
Proof.
  intros frames.
  assert (∀ d, length d ≤ 100 → too_long (subst (cp_needle sample_h2_pair) (cp_replacement sample_h2_pair) 0 d) = false) as Hfit.
  { intros d Hd. unfold too_long. rewrite length_subst by done. apply N.ltb_ge. lia. }
  destruct (stream_bodies_swapped sample_h2_pair ltac:(done) 100 Hfit (sample_h2 None) frames sample_h2_plain eq_refl) as (outs & m' & Hr & Ho & Hs).
  { unfold frames, allowed, data_frame_ok. split_and!; try done; vm_compute; lia. }
  exists outs, m'. split; [exact Hr|].
  assert (∀ sid, sid ∉ h2_open_streams m' → emitted_on sid outs = subst (cp_needle sample_h2_pair) (cp_replacement sample_h2_pair) 0 (data_on sid frames)) as He.
  { intros sid Hc. destruct (Hs sid) as (<- & _ & Ht). by rewrite (Ht Hc), app_nil_r. }
  rewrite Ho in He. split; (rewrite He; [by vm_compute|by vm_compute]).
Defined.

Lemma h2_invariant_witness :
  let m := H2_new [] Https (bs "h") 443 Downstream None None in
  h2_reached m ∧ streams_ok m ∧ resting m.
Proof. intros m. assert (h2_reached m) as Hm by constructor. split; [exact Hm|]. exact (h2_invariant m Hm). Defined.

(** What each chunk makes the machine emit. *)
Fixpoint emits (m : H2) (chunks : list bytes) : option (list bytes * H2) :=
  match chunks with
  | [] => Some ([], m)
  | chunk :: chunks => '(out, _, m) ← substitute m chunk; '(outs, m) ← emits m chunks; Some (out :: outs, m)
  end.

(** A tail held when the connection degrades is left behind: the frames after
    it pass, also the one that ends the stream, and the held bytes come out at
    the end of the connection, behind it. *)
Theorem opaque_strands_held :
  let held := append_frame F_DATA 0 1 (bs "x=dec") in
  let push := append_frame F_PUSH_PROMISE 0 1 [] in
  let last := append_frame F_DATA FLAG_END_STREAM 1 (bs "ade") in
  fst <$> emits (sample_h2 None) [held; push; last; []] =
    Some [append_frame F_DATA 0 1 (bs "x="); push; last; append_frame F_DATA 0 1 (bs "dec")].
Proof. by vm_compute. Qed.

(** At the end of the connection a held tail goes out without the plugin
    seeing it, and the leg is not closed for it. *)
Theorem eof_skips_plugin :
  (λ r, (r.1, h2_must_close r.2)) <$> emits (sample_h2 (Some tt)) [append_frame F_DATA 0 1 (bs "x=dec"); []] =
    Some ([append_frame F_DATA 0 1 (bs "x=#"); append_frame F_DATA 0 1 (bs "dec")], false).
Proof. by vm_compute. Qed.

(** The note of a HEAD request counts responses of the connection, not of its
    stream: a GET response that comes first is taken for the HEAD's, so its
    DATA is a violation and the whole connection stops being rewritten. *)
Theorem head_note_hits_other_stream :
  let response := append_frame F_HEADERS FLAG_END_HEADERS 1 (sample_encode (bs ":status", bs "200", 0%N)) in
  let body := append_frame F_DATA FLAG_END_STREAM 1 (bs "body") in
  let m := H2_new [] Https (bs "h") 443 Upstream None None in
  (λ r, h2_phase r.2) <$> emits m [response; body] = Some Framing ∧
  (λ r, h2_phase r.2) <$> emits (H2_apply_peer_note m 1) [response; body] = Some Opaque.
Proof. split; by vm_compute. Qed.

(** A needle in the bytes that break the framing of a response is reported and
    forwarded, and the leg stays open; in the next arrival it closes the leg. *)
Theorem violation_hit_forwarded :
  let m := Build_H2 sample_signer sample_hpack [swap_pair sample_h2_pair] Upstream None tt tt [] Framing None ∅ ∅ []
             (max_tail_size [swap_pair sample_h2_pair]) 0 0 false [] None None ∅ in
  let push := append_frame F_PUSH_PROMISE 0 1 (bs "secret") in
  fst <$> H2_feed m push = Some (Emit push, [{| hit_label := bs "t"; hit_location := Body |}]) ∧
  (r ← H2_feed m push; fst <$> H2_feed r.2 (bs "secret")) = Some (Close, [{| hit_label := bs "t"; hit_location := Body |}]).
Proof. split; by vm_compute. Qed.
End Samples.
