(* ===== verification/Tun.v ===== *)
(** * The TUN gateway: packets and UDP

    [crates/hodor-tun/src/classify.rs], the packet half of [udp.rs] and the
    ingress half of [tun.rs]: which packets the capture loop takes, the answer
    packet it builds, and the table of UDP sessions. A session's channel is its
    queue; the task behind it may have gone ([us_closed]). *)

From S2P Require Import Prelude.

(** ** Addresses *)

Inductive IpAddr := V4 (octets : bytes) | V6 (octets : bytes).
#[export] Instance IpAddr_eq_decision : EqDecision IpAddr.
Proof. solve_decision. Defined.
#[export] Instance IpAddr_countable : Countable IpAddr.
Proof.
  refine (inj_countable' (λ a, match a with V4 o => inl o | V6 o => inr o end)
                         (λ s, match s with inl o => V4 o | inr o => V6 o end) _).
  by intros [].
Defined.
Abbreviation SocketAddr := (IpAddr * N)%type.

(** ** Classification *)

Definition IP_PROTO_TCP : N := 6.
Definition IP_PROTO_UDP : N := 17.

Inductive IpPacket :=
| PTcp (src dst : SocketAddr) (syn : bool)
| PUdp (src dst : SocketAddr) (payload : bytes)
| POther.

(** Big-endian words. *)
Definition word (packet : bytes) (i : nat) : N := (octet packet i * 256 + octet packet (i + 1))%N.

Definition classify_packet (packet : bytes) : IpPacket :=
  if (length packet <? 20) || negb (N.shiftr (octet packet 0) 4 =? 4)%N then POther
  else
    let ihl := N.to_nat (N.land (octet packet 0) 15) * 4 in
    if (ihl <? 20) || (length packet <? ihl) then POther
    else
      let total_len := N.to_nat (word packet 2) in
      if (length packet <? total_len) || (total_len <? ihl) then POther
      else
        let flags_frag := word packet 6 in
        if negb (N.land flags_frag 0x1fff =? 0)%N || negb (N.land flags_frag 0x2000 =? 0)%N then POther
        else
          let src_ip := V4 (take 4 (drop 12 packet)) in
          let dst_ip := V4 (take 4 (drop 16 packet)) in
          let payload := take (total_len - ihl) (drop ihl packet) in
          if (octet packet 9 =? IP_PROTO_TCP)%N then
            if length payload <? 20 then POther
            else PTcp (src_ip, word payload 0) (dst_ip, word payload 2)
                      (negb (N.land (octet payload 13) 2 =? 0)%N && (N.land (octet payload 13) 16 =? 0)%N)
          else if (octet packet 9 =? IP_PROTO_UDP)%N then
            if length payload <? 8 then POther
            else PUdp (src_ip, word payload 0) (dst_ip, word payload 2) (drop 8 payload)
          else POther.

(** ** Building an answer *)

(** [sum += ...] of [ipv4_checksum], in a [u32]. *)
Definition u32_add (a b : N) : N := ((a + b) mod 2 ^ 32)%N.
Fixpoint checksum_words (header : bytes) (sum : N) : N :=
  match header with
  | a :: b :: header => checksum_words header (u32_add sum (u8 a * 256 + u8 b))
  | [last] => u32_add sum (N.shiftl (u8 last) 8)
  | [] => sum
  end.
(** [while sum >> 16 != 0]; three rounds are enough for a [u32]. *)
Fixpoint fold_carry (fuel : nat) (sum : N) : N :=
  match fuel with
  | 0 => sum
  | S fuel => if (N.shiftr sum 16 =? 0)%N then sum else fold_carry fuel (N.land sum 0xffff + N.shiftr sum 16)
  end.
Definition ipv4_checksum (header : bytes) : N :=
  let sum := fold_carry 3 (checksum_words header 0) in
  (0xffff - (if (sum <=? u16_max)%N then sum else u16_max))%N.

(** [pkt[at..at + data.len()].copy_from_slice(data)]. *)
Definition copy_at (start : nat) (data pkt : bytes) : bytes := take start pkt ++ data ++ drop (start + length data) pkt.

Definition build_udp_packet (src dst : SocketAddr) (payload : bytes) : option bytes :=
  match src.1, dst.1 with
  | V4 src_ip, V4 dst_ip =>
      let udp_len := 8 + length payload in
      let total_len := 20 + udp_len in
      if (u16_max <? N.of_nat total_len)%N then None
      else
        let pkt := replicate total_len Byte.x00 in
        let pkt := <[0 := Byte.x45]> pkt in
        let pkt := copy_at 2 (be16 (N.of_nat total_len)) pkt in
        let pkt := <[8 := byte_of 64]> pkt in
        let pkt := <[9 := byte_of IP_PROTO_UDP]> pkt in
        let pkt := copy_at 12 src_ip pkt in
        let pkt := copy_at 16 dst_ip pkt in
        let pkt := copy_at 10 (be16 (ipv4_checksum (take 20 pkt))) pkt in
        let pkt := copy_at 20 (be16 src.2) pkt in
        let pkt := copy_at 22 (be16 dst.2) pkt in
        let pkt := copy_at 24 (be16 (N.of_nat udp_len)) pkt in
        Some (copy_at 28 payload pkt)
  | _, _ => None
  end.

(** ** Sessions *)

Definition MAX_UDP_SESSIONS : nat := 1024.
Definition CHANNEL_CAP : nat := 32.

Record UdpSession := {
  us_upstream : SocketAddr;
  us_queue : list bytes;
  us_closed : bool;
}.
Abbreviation UdpTable := (gmap (SocketAddr * SocketAddr) UdpSession).

(** [tx.try_send(payload)]: [None] when the task has gone. A full queue drops
    the datagram. *)
Definition try_send (s : UdpSession) (payload : bytes) : option UdpSession :=
  if us_closed s then None
  else if CHANNEL_CAP <=? length (us_queue s) then Some s
  else Some {| us_upstream := us_upstream s; us_queue := us_queue s ++ [payload]; us_closed := false |}.

Definition open_session (udp : UdpTable) (key : SocketAddr * SocketAddr) (upstream : SocketAddr) (payload : bytes)
    : UdpTable :=
  let udp := if MAX_UDP_SESSIONS <=? size udp then filter (λ ks, us_closed ks.2 = false) udp else udp in
  if MAX_UDP_SESSIONS <=? size udp then udp
  else <[key := {| us_upstream := upstream; us_queue := [payload]; us_closed := false |}]> udp.

Definition forward_udp (udp : UdpTable) (upstream src dst : SocketAddr) (payload : bytes) : UdpTable :=
  let key := (src, dst) in
  match udp !! key with
  | Some s =>
      match try_send s payload with
      | Some s => <[key := s]> udp
      | None => open_session (delete key udp) key upstream payload
      end
  | None => open_session udp key upstream payload
  end.

(** ** The checksum *)

Lemma be16_value n : (n < 65536)%N → (u8 (byte_of (n / 256)) * 256 + u8 (byte_of n) = n)%N.
Proof.
  intros Hn. rewrite !u8_byte_of. rewrite (N.mod_small (n / 256)) by (apply N.Div0.div_lt_upper_bound; lia).
  pose proof (N.div_mod n 256 ltac:(lia)). lia.
Qed.

(** The one's-complement sum of a number: its residue modulo 65535, with 65535
    for the residue 0 of a positive number. *)
Definition ones_sum (x : N) : N := if (x =? 0)%N then 0%N else ((x - 1) mod 65535 + 1)%N.

Lemma ones_sum_small x : (x < 65536)%N → ones_sum x = x.
Proof.
  intros Hx. unfold ones_sum. destruct (N.eqb_spec x 0) as [->|]; [done|]. rewrite N.mod_small; lia.
Qed.

Lemma ones_sum_step x : (65536 ≤ x)%N → ones_sum (N.land x 0xffff + N.shiftr x 16) = ones_sum x ∧
  (N.land x 0xffff + N.shiftr x 16 = x mod 65536 + x / 65536)%N.
Proof.
  intros Hx. change 0xffff%N with (N.ones 16). rewrite N.land_ones, N.shiftr_div_pow2. change (2 ^ 16)%N with 65536%N.
  split; [|done]. pose proof (N.div_mod x 65536 ltac:(lia)) as Hdm. pose proof (N.mod_lt x 65536 ltac:(lia)).
  assert (0 < x / 65536)%N as Hq by (apply N.div_str_pos; lia). unfold ones_sum.
  revert Hdm Hq. generalize (x / 65536)%N (x mod 65536)%N. intros q r Hdm Hq.
  rewrite (proj2 (N.eqb_neq (r + q) 0)), (proj2 (N.eqb_neq x 0)) by lia. f_equal.
  replace (x - 1)%N with (r + q - 1 + q * 65535)%N by lia. by rewrite N.Div0.mod_add.
Qed.

Lemma fold_carry_sum x : (x < 2 ^ 32)%N → fold_carry 3 x = ones_sum x.
Proof.
  assert (∀ y, (N.shiftr y 16 =? 0)%N = (y <? 65536)%N) as Hs.
  { intros y. rewrite N.shiftr_div_pow2. change (2 ^ 16)%N with 65536%N.
    destruct (N.ltb_spec y 65536); [apply N.eqb_eq, N.div_small; lia|apply N.eqb_neq].
    assert (0 < y / 65536)%N by (apply N.div_str_pos; lia). lia. }
  assert (∀ n y, (y < 65536)%N → fold_carry n y = ones_sum y) as Hdone.
  { intros n y Hy. rewrite ones_sum_small by done. destruct n; [done|]. cbn [fold_carry].
    by rewrite Hs, (proj2 (N.ltb_lt _ _) Hy). }
  intros Hx. destruct (N.ltb_spec x 65536) as [Hlt|Hge]; [by apply Hdone|].
  cbn [fold_carry]. rewrite Hs, (proj2 (N.ltb_ge _ _) Hge).
  destruct (ones_sum_step x Hge) as [<- ->]. pose proof (N.mod_lt x 65536 ltac:(lia)).
  assert (x / 65536 < 65536)%N by (apply N.Div0.div_lt_upper_bound; lia).
  set (y := (x mod 65536 + x / 65536)%N) in *. rewrite Hs.
  destruct (N.ltb_spec y 65536) as [Hy|Hy]; [by rewrite ones_sum_small|].
  destruct (ones_sum_step y Hy) as [<- ->]. apply (Hdone 1).
  assert (y / 65536 = 1)%N by (symmetry; apply (N.div_unique y 65536 1 (y - 65536)); lia).
  pose proof (N.div_mod y 65536 ltac:(lia)). lia.
Qed.

(** The plain sum of the words of an even header. *)
Fixpoint words_sum (header : bytes) : N :=
  match header with
  | a :: b :: header => (u8 a * 256 + u8 b + words_sum header)%N
  | _ => 0%N
  end.

Lemma checksum_words_sum k header sum :
  length header = 2 * k → (sum + words_sum header < 2 ^ 32)%N → checksum_words header sum = (sum + words_sum header)%N.
Proof.
  revert header sum. induction k as [|k IH]; intros header sum Hl Hs.
  - destruct header; [simpl; lia|simpl in Hl; lia].
  - destruct header as [|a [|b header]]; [simpl in Hl; lia..|]. cbn [checksum_words words_sum] in *.
    unfold u32_add. rewrite N.mod_small by lia. rewrite IH by (simpl in Hl; lia). lia.
Qed.

(** Writing the checksum of a header into its zero checksum word makes the
    header's own checksum vanish. *)
Lemma checksum_completes x : (0 < x)%N → (x < 2 ^ 31)%N → ones_sum (x + (0xffff - ones_sum x)) = 0xffff%N.
Proof.
  intros Hx Hx'. unfold ones_sum at 2. rewrite (proj2 (N.eqb_neq _ _)) by lia.
  pose proof (N.mod_lt (x - 1) 65535 ltac:(lia)). pose proof (N.div_mod (x - 1) 65535 ltac:(lia)) as Hdm.
  unfold ones_sum. rewrite (proj2 (N.eqb_neq _ _)) by lia.
  replace (x + (65535 - ((x - 1) mod 65535 + 1)) - 1)%N with (65534 + ((x - 1) / 65535) * 65535)%N by lia.
  rewrite N.Div0.mod_add. by rewrite N.mod_small.
Qed.

(** ** The answer packet *)

Section Packet.
Context (s0 s1 s2 s3 d0 d1 d2 d3 : byte) (sp dp : N) (payload : bytes).
Let src : SocketAddr := (V4 [s0; s1; s2; s3], sp).
Let dst : SocketAddr := (V4 [d0; d1; d2; d3], dp).
Let total : N := N.of_nat (28 + length payload).

(** The header's first twenty bytes, with checksum [c]. *)
Definition ip_header (c : N) : bytes :=
  [Byte.x45; Byte.x00] ++ be16 total ++ [Byte.x00; Byte.x00; Byte.x00; Byte.x00; byte_of 64; byte_of IP_PROTO_UDP] ++
  be16 c ++ [s0; s1; s2; s3; d0; d1; d2; d3].
Definition udp_header : bytes := be16 sp ++ be16 dp ++ be16 (N.of_nat (8 + length payload)) ++ [Byte.x00; Byte.x00].

Lemma build_udp_packet_bytes :
  build_udp_packet src dst payload =
  if (u16_max <? total)%N then None
  else Some (ip_header (ipv4_checksum (ip_header 0)) ++ udp_header ++ payload).
Proof.
  unfold build_udp_packet. cbn [fst snd src dst]. change (20 + (8 + length payload)) with (28 + length payload).
  fold total. destruct (u16_max <? total)%N; [done|].
  unfold copy_at, ip_header, udp_header, be16. cbn [replicate Nat.add insert list_insert take drop app length].
  repeat (cbn [insert list_insert take drop app length Nat.add]).
  rewrite drop_ge by (rewrite length_replicate; lia). by rewrite app_nil_r.
Qed.

Lemma ip_header_sum c : (c < 65536)%N → (total < 65536)%N →
  words_sum (ip_header c) = (words_sum (ip_header 0) + c)%N ∧
  (0 < words_sum (ip_header 0))%N ∧ (words_sum (ip_header 0) + c < 2 ^ 31)%N ∧ length (ip_header c) = 2 * 10.
Proof.
  intros Hc Ht. unfold ip_header, be16. cbn [app words_sum length].
  rewrite (be16_value c), (be16_value total) by done. change (u8 (byte_of (0 / 256)) * 256 + u8 (byte_of 0))%N with 0%N.
  pose proof (u8_lt s0). pose proof (u8_lt s1). pose proof (u8_lt s2). pose proof (u8_lt s3).
  pose proof (u8_lt d0). pose proof (u8_lt d1). pose proof (u8_lt d2). pose proof (u8_lt d3).
  change (u8 Byte.x45) with 69%N. change (u8 Byte.x00) with 0%N.
  change (u8 (byte_of 64)) with 64%N. change (u8 (byte_of IP_PROTO_UDP)) with 17%N. lia.
Qed.

Lemma ip_header_verifies : (total < 65536)%N → ipv4_checksum (ip_header (ipv4_checksum (ip_header 0))) = 0%N.
Proof.
  intros Ht.
  assert (∀ c, (c < 65536)%N → ipv4_checksum (ip_header c) = (0xffff - ones_sum (words_sum (ip_header 0) + c))%N) as Hsum.
  { intros c Hc. destruct (ip_header_sum c Hc Ht) as (Hs & _ & Hb & Hl). unfold ipv4_checksum.
    rewrite (checksum_words_sum 10) by (done || lia). rewrite N.add_0_l, Hs, fold_carry_sum by lia.
    assert (ones_sum (words_sum (ip_header 0) + c) < 65536)%N as Ho.
    { unfold ones_sum. case_match; [lia|]. pose proof (N.mod_lt (words_sum (ip_header 0) + c - 1) 65535 ltac:(lia)). lia. }
    unfold u16_max. by rewrite (proj2 (N.leb_le _ _)) by lia. }
  destruct (ip_header_sum 0 ltac:(lia) Ht) as (_ & Hpos & Hb & _). rewrite N.add_0_r in Hb.
  rewrite (Hsum 0%N) by lia. rewrite N.add_0_r. rewrite Hsum by lia. by rewrite checksum_completes.
Qed.

Lemma word_be16 n l : (n < 65536)%N → word (be16 n ++ l) 0 = n.
Proof. intros Hn. unfold word, octet, be16. cbn. by apply be16_value. Qed.

Lemma classify_built : (total < 65536)%N → (sp < 65536)%N → (dp < 65536)%N → ∀ c,
  classify_packet (ip_header c ++ udp_header ++ payload) = PUdp src dst payload.
Proof.
  intros Ht Hs Hd c. set (pkt := ip_header c ++ udp_header ++ payload).
  assert (length pkt = N.to_nat total) as Hlen.
  { unfold pkt, ip_header, udp_header, be16. rewrite !length_app. cbn [length app]. unfold total. lia. }
  assert (word pkt 2 = total) as Hw by (unfold pkt, word, octet, ip_header, be16; cbn; by apply be16_value).
  assert (octet pkt 0 = 69%N ∧ word pkt 6 = 0%N ∧ octet pkt 9 = 17%N) as (H0 & H6 & H9) by done.
  unfold classify_packet. rewrite H0, H6, H9, Hw, Hlen. change (N.to_nat (N.land 69 15) * 4) with 20.
  assert (20 + 8 ≤ N.to_nat total) by (unfold total; lia).
  rewrite !(proj2 (Nat.ltb_ge _ _)) by lia. cbn [orb negb N.eqb N.shiftr N.land IP_PROTO_TCP IP_PROTO_UDP].
  change (negb (N.shiftr 69 4 =? 4)%N) with false. change (17 =? IP_PROTO_TCP)%N with false. cbv iota.
  assert (take (N.to_nat total - 20) (drop 20 pkt) = udp_header ++ payload) as ->.
  { change (drop 20 pkt) with (udp_header ++ payload). apply take_ge. rewrite length_app. unfold udp_header, be16, total.
    cbn [length app]. lia. }
  change (17 =? IP_PROTO_UDP)%N with true. cbv iota.
  assert (8 ≤ length (udp_header ++ payload)) as Hu by (rewrite length_app; unfold udp_header, be16; cbn [length app]; lia).
  rewrite (proj2 (Nat.ltb_ge _ _) Hu).
  f_equal; [f_equal; by apply word_be16|f_equal].
  unfold word, octet, udp_header, be16. cbn. by apply be16_value.
Qed.
End Packet.

(** The answer the gateway writes for a UDP reply is a packet its own
    classifier reads back exactly, with a header checksum that verifies; no
    packet is built only for a payload that does not fit 16-bit lengths, or
    for an address that is not IPv4. *)
Theorem udp_answer_roundtrip src dst payload :
  (src.2 ≤ u16_max)%N → (dst.2 ≤ u16_max)%N →
  (∀ o, src.1 = V4 o → length o = 4) → (∀ o, dst.1 = V4 o → length o = 4) →
  match build_udp_packet src dst payload with
  | Some pkt =>
      classify_packet pkt = PUdp src dst payload ∧ ipv4_checksum (take 20 pkt) = 0%N ∧
      length pkt = 28 + length payload
  | None => (∃ o, src.1 = V6 o ∨ dst.1 = V6 o) ∨ (u16_max < N.of_nat (28 + length payload))%N
  end.
Proof.
  destruct src as [[os|os] sp], dst as [[od|od] dp]; cbn [fst snd]; intros Hsp Hdp Hs Hd;
    [|left; exists od; by right|left; exists os; by left|left; exists os; by left].
  specialize (Hs os eq_refl). specialize (Hd od eq_refl).
  destruct os as [|s0 [|s1 [|s2 [|s3 [|]]]]]; try discriminate Hs.
  destruct od as [|d0 [|d1 [|d2 [|d3 [|]]]]]; try discriminate Hd.
  rewrite build_udp_packet_bytes. unfold u16_max in *.
  destruct (N.ltb_spec 65535 (N.of_nat (28 + length payload))) as [Hlt|Hge]; [by right|].
  split_and!; [apply classify_built; lia| |].
  - change (take 20 (ip_header s0 s1 s2 s3 d0 d1 d2 d3 payload (ipv4_checksum (ip_header s0 s1 s2 s3 d0 d1 d2 d3 payload 0)) ++ _))
      with (ip_header s0 s1 s2 s3 d0 d1 d2 d3 payload (ipv4_checksum (ip_header s0 s1 s2 s3 d0 d1 d2 d3 payload 0))).
    apply ip_header_verifies. lia.
  - unfold ip_header, udp_header, be16. rewrite !length_app. cbn [length app]. lia.
Qed.

Lemma octet_app p pad i : i < length p → octet (p ++ pad) i = octet p i.
Proof. intros Hi. unfold octet. by rewrite lookup_app_l. Qed.
Lemma word_app p pad i : i + 1 < length p → word (p ++ pad) i = word p i.
Proof. intros Hi. unfold word. by rewrite !octet_app by lia. Qed.

(** Classification reads nothing beyond the length the header declares:
    bytes that follow a TCP or UDP packet change nothing about it. *)
Theorem classify_ignores_trailer packet trailer :
  classify_packet packet ≠ POther → classify_packet (packet ++ trailer) = classify_packet packet.
Proof.
  unfold classify_packet. rewrite length_app.
  destruct (Nat.ltb_spec (length packet) 20) as [|H20]; [done|].
  rewrite (proj2 (Nat.ltb_ge (length packet + length trailer) 20)) by lia. cbn [orb].
  rewrite !octet_app, !word_app by lia.
  destruct (negb (N.shiftr (octet packet 0) 4 =? 4)%N); [done|].
  set (ihl := N.to_nat (N.land (octet packet 0) 15) * 4). set (tl := N.to_nat (word packet 2)).
  destruct (Nat.ltb_spec ihl 20) as [|Hi]; [done|]. destruct (Nat.ltb_spec (length packet) ihl) as [|Hil]; [done|].
  rewrite (proj2 (Nat.ltb_ge (length packet + length trailer) ihl)) by lia. cbn [orb].
  destruct (Nat.ltb_spec (length packet) tl) as [|Htl]; [done|].
  rewrite (proj2 (Nat.ltb_ge (length packet + length trailer) tl)) by lia. cbn [orb]. intros _.
  destruct (Nat.ltb_spec tl ihl) as [|Hti]; [done|].
  rewrite !(drop_app_le' _ packet trailer) by lia.
  rewrite !(take_app_le' 4) by (rewrite length_drop; lia).
  by rewrite (take_app_le' (tl - ihl)) by (rewrite length_drop; lia).
Qed.

(** ** The session table *)

(** The table is bounded, and so is every queue; no session serves QUIC, and
    DNS sessions go to the resolver, the others where the guest sent them. *)
Definition upstream_for (dns_upstream dst : SocketAddr) : SocketAddr := if (dst.2 =? 53)%N then dns_upstream else dst.
Definition session_ok (dns_upstream : SocketAddr) (key : SocketAddr * SocketAddr) (s : UdpSession) : Prop :=
  us_upstream s = upstream_for dns_upstream key.2 ∧ key.2.2 ≠ 443%N ∧ length (us_queue s) ≤ CHANNEL_CAP.
Definition table_ok (dns_upstream : SocketAddr) (udp : UdpTable) : Prop :=
  size udp ≤ MAX_UDP_SESSIONS ∧ map_Forall (session_ok dns_upstream) udp.
#[local] Opaque MAX_UDP_SESSIONS.

Lemma size_filter_le (P : (SocketAddr * SocketAddr) * UdpSession → Prop) `{!∀ x, Decision (P x)} (udp : UdpTable) :
  size (filter P udp) ≤ size udp.
Proof. rewrite <- !size_dom. apply subseteq_size, dom_filter_subseteq. Qed.

Lemma open_session_ok dns udp key upstream payload :
  table_ok dns udp → upstream = upstream_for dns key.2 → key.2.2 ≠ 443%N →
  table_ok dns (open_session udp key upstream payload).
Proof.
  intros [Hs Hall] -> Hq. unfold open_session.
  set (udp' := if MAX_UDP_SESSIONS <=? size udp then _ else udp).
  assert (size udp' ≤ MAX_UDP_SESSIONS ∧ map_Forall (session_ok dns) udp') as [Hs' Hall'].
  { unfold udp'. case_match; [|done]. split; [by etrans; [apply size_filter_le|]|].
    intros k s [Hl _]%map_lookup_filter_Some. by apply Hall. }
  clearbody udp'. destruct (Nat.leb_spec MAX_UDP_SESSIONS (size udp')); [done|]. split.
  - rewrite map_size_insert. case_match; simpl; lia.
  - apply map_Forall_insert_2; [|done]. split_and!; [done..|]. simpl. unfold CHANNEL_CAP. lia.
Qed.

Lemma forward_udp_ok dns udp src dst payload :
  table_ok dns udp → dst.2 ≠ 443%N → table_ok dns (forward_udp udp (upstream_for dns dst) src dst payload).
Proof.
  intros Hok Hq. unfold forward_udp. destruct (udp !! (src, dst)) as [s|] eqn:Hl; [|by apply open_session_ok].
  destruct Hok as [Hs Hall]. unfold try_send. destruct (us_closed s).
  - apply open_session_ok; [|done..]. split; [|by apply map_Forall_delete].
    rewrite map_size_delete, Hl. simpl. lia.
  - pose proof (Hall _ _ Hl) as (Hu & Hp & Hc).
    assert (∀ s', session_ok dns (src, dst) s' → table_ok dns (<[(src, dst):=s']> udp)) as Hins.
    { intros s' Hs'. split; [by rewrite map_size_insert_Some by (by eexists)|by apply map_Forall_insert_2]. }
    destruct (Nat.leb_spec CHANNEL_CAP (length (us_queue s))); apply Hins; [done|].
    split_and!; [done..|]. simpl. rewrite length_app. simpl. lia.
Qed.

(** ** Concrete packets *)

Definition sample_v4 (a b c d port : N) : SocketAddr := (V4 (map byte_of [a; b; c; d]), port).

Lemma udp_answer_roundtrip_witness :
  ∃ pkt, build_udp_packet (sample_v4 1 1 1 1 53) (sample_v4 10 0 0 2 40000) (bs "answer") = Some pkt ∧
    classify_packet pkt = PUdp (sample_v4 1 1 1 1 53) (sample_v4 10 0 0 2 40000) (bs "answer") ∧
    ipv4_checksum (take 20 pkt) = 0%N.
Proof.
  eexists. split; [reflexivity|].
  pose proof (udp_answer_roundtrip (sample_v4 1 1 1 1 53) (sample_v4 10 0 0 2 40000) (bs "answer")
    ltac:(done) ltac:(done) ltac:(by intros o [= <-]) ltac:(by intros o [= <-])) as Hr.
  split; [exact (proj1 Hr)|exact (proj1 (proj2 Hr))].
Defined.

Lemma classify_ignores_trailer_witness :
  let pkt := default [] (build_udp_packet (sample_v4 1 1 1 1 53) (sample_v4 10 0 0 2 40000) (bs "answer")) in
  classify_packet pkt ≠ POther ∧ classify_packet (pkt ++ bs "padding") = classify_packet pkt.
Proof.
  intros pkt. assert (classify_packet pkt ≠ POther) as Hp by (by vm_compute).
  split; [exact Hp|exact (classify_ignores_trailer pkt (bs "padding") Hp)].
Defined.
