(* ===== verification/Fwd.v ===== *)
(** * The forwarding sidecar

    [src/fwd.rs]: the loopback listeners of the shared network namespace, which
    of them the agent's processes hold, and the forwarders that expose them on
    the namespace's own addresses. The tables of [/proc], the links below it
    and whether a bind succeeds are parameters; the relaying of a connection's
    bytes and the interface list's pointers are not modelled. The tables are
    ASCII, and the machine is little-endian. *)

From S2P Require Import Prelude Tun.

(** ** The tables *)

Record Row := {
  rw_addr : IpAddr;
  rw_port : N;
  rw_inode : N;
}.

(** [u32::from_be(raw).to_be_bytes()]. *)
Definition group_octets (raw : N) : bytes := rev (be32 raw).

Fixpoint decode_groups (n : nat) (hex : bytes) : option bytes :=
  match n with
  | 0 => Some []
  | S n =>
      raw ← from_str_radix u32_max 16 (take 8 hex);
      rest ← decode_groups n (drop 8 hex);
      Some (group_octets raw ++ rest)
  end.
Definition decode_local (hex : bytes) : option IpAddr :=
  if length hex =? 8 then V4 <$> decode_groups 1 hex
  else if length hex =? 32 then V6 <$> decode_groups 4 hex
  else None.

(** [IpAddr::is_loopback]. *)
Definition loopback_octets : bytes := replicate 15 Byte.x00 ++ [Byte.x01].
Definition addr_is_loopback (addr : IpAddr) : bool :=
  match addr with
  | V4 octets => bool_decide (head octets = Some Byte.x7f)
  | V6 octets => bool_decide (octets = loopback_octets)
  end.

(** One line of a table. *)
Definition parse_row (line : bytes) : option Row :=
  let fields := words line in
  state ← fields !! 3;
  local ← fields !! 1;
  inode_text ← fields !! 9;
  if negb (bool_decide (state = bs "0A")) then None
  else
    '(addr_hex, port_hex) ← split_once (bs ":") local;
    port ← from_str_radix u16_max 16 port_hex;
    addr ← decode_local addr_hex;
    if negb (addr_is_loopback addr) then None
    else
      inode ← from_str_radix usize_max 10 inode_text;
      Some {| rw_addr := addr; rw_port := port; rw_inode := inode |}.
Definition parse_table (text : bytes) : list Row := omap parse_row (drop 1 (str_lines text)).

(** ** Attribution *)

Definition socket_inode (target : bytes) : option N :=
  rest ← strip_prefix (bs "socket:[") target;
  digits ← strip_suffix (bs "]") rest;
  from_str_radix usize_max 10 digits.

(** What [/proc] lists: for each process its descriptors, when they can be
    read, and for each of them its link. *)
Abbreviation ProcFds := (option (list (option (list (option bytes))))).
Definition attributable (proc : ProcFds) (inode : N) : bool :=
  existsb (λ fds, existsb (λ link, match link with
                                   | Some target => bool_decide (socket_inode (utf8_lossy target) = Some inode)
                                   | None => false
                                   end) (default [] fds)) (default [] proc).

(** ** What should be forwarded *)

(** The rows of each port in turn; a [BTreeMap] visits the ports in order,
    which changes nothing that is kept. *)
Definition port_rows (rows : list Row) (port : N) : list Row := filter (λ r, rw_port r = port) rows.
Definition desired_port (proc : ProcFds) (rows : list Row) (port : N) : option IpAddr :=
  let group := port_rows rows port in
  if 1 <? length (remove_dups (map rw_addr group)) then None
  else
    row ← head group;
    if attributable proc (rw_inode row) then Some (rw_addr row) else None.
Definition desired_step (proc : ProcFds) (rows : list Row) (desired : gmap N IpAddr) (port : N) : gmap N IpAddr :=
  match desired_port proc rows port with Some addr => <[port := addr]> desired | None => desired end.
Definition desired_listeners (tcp tcp6 : result bytes bytes) (proc : ProcFds) : result bytes (gmap N IpAddr) :=
  tcp ← tcp;
  tcp6 ← tcp6;
  let rows := parse_table tcp ++ parse_table tcp6 in
  Ok (foldl (desired_step proc rows) ∅ (remove_dups (map rw_port rows))).

(** ** Forwarders *)

Record Binds := {
  bn_v4 : IpAddr;
  bn_v6 : option IpAddr;
}.
Definition for_family (b : Binds) (family : IpAddr) : option IpAddr :=
  match family with V4 _ => Some (bn_v4 b) | V6 _ => bn_v6 b end.

(** A forwarder: where it listens, and the address behind it. *)
Record Forwarder := {
  fo_bind : IpAddr;
  fo_upstream : SocketAddr;
}.

Section Reconcile.
(** Whether the kernel gives the listener, in the order asked. *)
Context (can_bind : IpAddr → N → bool) (binds : Binds).

Definition start (bind : IpAddr) (upstream : SocketAddr) : option Forwarder :=
  if can_bind bind upstream.2 then Some {| fo_bind := bind; fo_upstream := upstream |} else None.

Definition is_stale (desired : gmap N IpAddr) (pf : N * Forwarder) : bool :=
  match desired !! pf.1 with
  | None => true
  | Some addr => negb (bool_decide ((addr, pf.1) = fo_upstream pf.2))
  end.
Definition start_missing (forwarders : gmap N Forwarder) (d : N * IpAddr) : gmap N Forwarder :=
  let '(port, addr) := d in
  match forwarders !! port with
  | Some _ => forwarders
  | None =>
      match for_family binds addr with
      | None => forwarders
      | Some bind => match start bind (addr, port) with Some f => <[port := f]> forwarders | None => forwarders end
      end
  end.
Definition reconcile (forwarders : gmap N Forwarder) (desired : gmap N IpAddr) : gmap N Forwarder :=
  let stale := map fst (filter (λ pf, is_stale desired pf = true) (map_to_list forwarders)) in
  foldl start_missing (foldl (λ m port, delete port m) forwarders stale) (map_to_list desired).
End Reconcile.

(** ** The netns's own addresses *)

(** An entry of [getifaddrs]: no address, an IPv4 or IPv6 one, or another. *)
Inductive IfAddr := IfNull | IfInet (octets : bytes) | IfInet6 (octets : bytes) | IfOther.

Definition v4_usable (octets : bytes) : bool :=
  negb (addr_is_loopback (V4 octets)) && negb (bool_decide (take 2 octets = map byte_of [169; 254]%N)).
Definition is_v6_link_local (octets : bytes) : bool :=
  match octets with
  | first :: second :: _ => bool_decide (u8 first = 0xFE%N) && bool_decide (N.land (u8 second) 0xC0 = 0x80%N)
  | _ => false
  end.
Definition v6_usable (octets : bytes) : bool := negb (addr_is_loopback (V6 octets)) && negb (is_v6_link_local octets).

Definition scan_entry (found : option IpAddr * option IpAddr) (entry : IfAddr) : option IpAddr * option IpAddr :=
  let '(v4, v6) := found in
  match entry with
  | IfInet octets => if bool_of_opt v4 then found else (if v4_usable octets then Some (V4 octets) else None, v6)
  | IfInet6 octets => if bool_of_opt v6 then found else (v4, if v6_usable octets then Some (V6 octets) else None)
  | IfNull | IfOther => found
  end.
Definition bridge_addresses (list : list IfAddr) : option Binds :=
  let '(v4, v6) := foldl scan_entry (None, None) list in
  v4 ← v4; Some {| bn_v4 := v4; bn_v6 := v6 |}.

(** ** The loop *)

(** What one poll meets: the tables, the links, and the kernel's answers. *)
Record Poll := {
  po_tcp : result bytes bytes;
  po_tcp6 : result bytes bytes;
  po_proc : ProcFds;
  po_can_bind : IpAddr → N → bool;
}.
Definition poll_step (binds : Binds) (forwarders : gmap N Forwarder) (p : Poll) : result bytes (gmap N Forwarder) :=
  desired ← desired_listeners (po_tcp p) (po_tcp6 p) (po_proc p);
  Ok (reconcile (po_can_bind p) binds forwarders desired).
(** [run], over the polls it makes. *)
Definition run (interfaces : result bytes (list IfAddr)) (polls : list Poll) : result bytes (gmap N Forwarder) :=
  interfaces ← interfaces;
  binds ← ok_or (bs "no non-loopback IPv4 address in this netns to expose on") (bridge_addresses interfaces);
  try_fold (poll_step binds) ∅ polls.

(** ** Properties *)

Section ReconcileProperties.
Context (can_bind : IpAddr → N → bool) (binds : Binds).

(** A forwarder that is there and not stale. *)
Definition kept (forwarders : gmap N Forwarder) (port : N) (addr : IpAddr) : option Forwarder :=
  f ← forwarders !! port; if bool_decide (fo_upstream f = (addr, port)) then Some f else None.
(** What is made of a wanted port: the forwarder it has, or a new one. *)
Definition served (forwarders : gmap N Forwarder) (port : N) (addr : IpAddr) : option Forwarder :=
  match kept forwarders port addr with
  | Some f => Some f
  | None => bind ← for_family binds addr; start can_bind bind (addr, port)
  end.

Lemma delete_fold {A} (m : gmap N A) ports port :
  foldl (λ m port, delete port m) m ports !! port = if bool_decide (port ∈ ports) then None else m !! port.
Proof.
  revert m. induction ports as [|p ports IH]; intros m; simpl; [done|]. rewrite IH.
  destruct (decide (port = p)) as [-> |Hne].
  - rewrite (bool_decide_eq_true_2 (p ∈ p :: ports)) by left. rewrite lookup_delete_eq. by case_bool_decide.
  - rewrite lookup_delete_ne by done. by rewrite (bool_decide_ext (port ∈ p :: ports) (port ∈ ports)) by set_solver.
Qed.

Lemma start_missing_lookup m d port :
  start_missing can_bind binds m d !! port =
  if bool_decide (port = d.1) then
    match m !! port with Some f => Some f | None => bind ← for_family binds d.2; start can_bind bind (d.2, port) end
  else m !! port.
Proof.
  destruct d as [p addr]. unfold start_missing. cbn [fst snd]. case_bool_decide as Hp.
  - subst. destruct (m !! p) as [f|] eqn:E; [done|]. destruct (for_family binds addr) as [bind|]; [|done]. simpl.
    destruct (start _ _ _); [by rewrite lookup_insert_eq|done].
  - destruct (m !! p); [done|]. destruct (for_family binds addr); [|done]. destruct (start _ _ _); [|done]. by rewrite lookup_insert_ne.
Qed.

Lemma start_fold m ds port :
  NoDup (map fst ds) →
  foldl (start_missing can_bind binds) m ds !! port =
  match m !! port with
  | Some f => Some f
  | None => d ← find (λ d : N * IpAddr, bool_decide (d.1 = port)) ds; bind ← for_family binds d.2; start can_bind bind (d.2, port)
  end.
Proof.
  revert m. induction ds as [|d ds IH]; intros m; cbn [foldl map find]; [by destruct (m !! port)|]. intros [Hn Hd]%NoDup_cons.
  rewrite IH, start_missing_lookup by done. destruct (decide (port = d.1)) as [-> |Hne].
  - rewrite bool_decide_eq_true_2 by done. simpl.
    destruct (m !! d.1); [done|]. destruct (for_family _ _) as [bind|]; simpl.
    + destruct (start _ _ _); [done|]. destruct (find _ ds) as [d'|] eqn:Ef; [|done]. apply find_some in Ef as [Hin Hp].
      apply bool_decide_eq_true in Hp. destruct Hn. rewrite <- Hp. apply list_elem_of_fmap. exists d'. split; [done|by apply list_elem_of_In].
    + destruct (find _ ds) as [d'|] eqn:Ef; [|done]. apply find_some in Ef as [Hin Hp].
      apply bool_decide_eq_true in Hp. destruct Hn. rewrite <- Hp. apply list_elem_of_fmap. exists d'. split; [done|by apply list_elem_of_In].
  - rewrite (bool_decide_eq_false_2 (port = d.1)), (bool_decide_eq_false_2 (d.1 = port)) by congruence. done.
Qed.

Lemma find_map_to_list (m : gmap N IpAddr) port :
  find (λ d : N * IpAddr, bool_decide (d.1 = port)) (map_to_list m) = pair port <$> m !! port.
Proof.
  destruct (find _ _) as [[p addr]|] eqn:Ef.
  - apply find_some in Ef as [Hin%list_elem_of_In%elem_of_map_to_list Hp%bool_decide_eq_true]. cbn [fst] in Hp. subst. by rewrite Hin.
  - destruct (m !! port) as [addr|] eqn:E; [|done]. apply elem_of_map_to_list, list_elem_of_In in E.
    apply find_none with (x := (port, addr)) in Ef; [|done]. cbn [fst] in Ef. by apply bool_decide_eq_false in Ef.
Qed.

(** [reconcile], port by port. *)
Lemma reconcile_lookup forwarders desired port :
  reconcile can_bind binds forwarders desired !! port = addr ← desired !! port; served forwarders port addr.
Proof.
  unfold reconcile. rewrite start_fold by apply NoDup_fst_map_to_list. rewrite delete_fold, find_map_to_list.
  assert (∀ f, forwarders !! port = Some f →
    (port ∈ map fst (filter (λ pf, is_stale desired pf = true) (map_to_list forwarders)) ↔ is_stale desired (port, f) = true)) as Hstale.
  { intros f Hf. rewrite list_elem_of_fmap. split.
    - intros ([p f'] & -> & [Hs Hin%elem_of_map_to_list]%list_elem_of_filter). cbn [fst] in *. by simplify_eq.
    - intros Hs. exists (port, f). split; [done|]. apply list_elem_of_filter. split; [done|by apply elem_of_map_to_list]. }
  unfold served, kept. destruct (forwarders !! port) as [f|] eqn:Ef; simpl.
  - rewrite (bool_decide_ext _ _ (Hstale f eq_refl)). unfold is_stale. cbn [fst snd].
    destruct (desired !! port) as [addr|]; simpl; [|done].
    assert (bool_decide ((addr, port) = fo_upstream f) = bool_decide (fo_upstream f = (addr, port))) as -> by (apply bool_decide_ext; split; congruence).
    by destruct (bool_decide (fo_upstream f = (addr, port))).
  - destruct (bool_decide _); simpl; by destruct (desired !! port).
Qed.
End ReconcileProperties.

Lemma desired_fold proc rows desired ports port :
  foldl (desired_step proc rows) desired ports !! port =
  if bool_decide (port ∈ ports) then match desired_port proc rows port with Some addr => Some addr | None => desired !! port end
  else desired !! port.
Proof.
  revert desired. induction ports as [|p ports IH]; intros desired; simpl; [done|]. rewrite IH. unfold desired_step.
  destruct (decide (port = p)) as [-> |Hne].
  - rewrite (bool_decide_eq_true_2 (p ∈ p :: ports)) by left. destruct (desired_port proc rows p) as [addr|]; [rewrite lookup_insert_eq|]; by case_bool_decide.
  - rewrite (bool_decide_ext (port ∈ p :: ports) (port ∈ ports)) by set_solver.
    destruct (desired_port proc rows p) as [addr|]; [by rewrite lookup_insert_ne by done|done].
Qed.

Lemma desired_lookup tcp tcp6 proc desired port :
  desired_listeners (Ok tcp) (Ok tcp6) proc = Ok desired →
  desired !! port = desired_port proc (parse_table tcp ++ parse_table tcp6) port.
Proof.
  unfold desired_listeners. simpl. intros [= <-]. rewrite desired_fold, lookup_empty. case_bool_decide as Hin; [by destruct (desired_port _ _ _)|].
  unfold desired_port. destruct (head (port_rows _ port)) as [row|] eqn:Eh; [|by destruct (_ <? _)]. destruct Hin.
  apply head_Some_elem_of in Eh. unfold port_rows in Eh. apply list_elem_of_filter in Eh as [<- Hin]. apply elem_of_remove_dups, list_elem_of_fmap.
  by exists row.
Qed.

Lemma parse_row_loopback line row : parse_row line = Some row → addr_is_loopback (rw_addr row) = true.
Proof.
  unfold parse_row. intros Hp. repeat (apply bind_Some in Hp as (? & _ & Hp)). case_match; [done|].
  apply bind_Some in Hp as ([] & _ & Hp). apply bind_Some in Hp as (? & _ & Hp). apply bind_Some in Hp as (addr & _ & Hp).
  destruct (addr_is_loopback addr) eqn:E; cbn [negb] in Hp; [|done]. apply bind_Some in Hp as (? & _ & [= <-]). done.
Qed.

(** What a wanted port has: listening rows at one loopback address alone, the
    first of them held by a process of the agent. *)
Lemma desired_port_Some proc rows port addr :
  desired_port proc rows port = Some addr ↔
  (∃ row, head (port_rows rows port) = Some row ∧ rw_addr row = addr ∧ attributable proc (rw_inode row) = true) ∧
  Forall (λ row, rw_addr row = addr) (port_rows rows port).
Proof.
  unfold desired_port. destruct (port_rows rows port) as [|row group] eqn:Eg.
  { simpl. split; [done|]. by intros [(? & ? & _) _]. }
  assert ((1 <? length (remove_dups (map rw_addr (row :: group)))) = false ↔ Forall (λ r, rw_addr r = rw_addr row) (row :: group)) as Hone.
  { rewrite Nat.ltb_ge. split.
    - intros Hl. apply Forall_forall. intros r Hr. pose proof (NoDup_remove_dups (map rw_addr (row :: group))) as Hnd.
      assert (∀ r, r ∈ row :: group → rw_addr r ∈ remove_dups (map rw_addr (row :: group))) as Hin.
      { intros r' Hr'. apply elem_of_remove_dups, list_elem_of_fmap. by exists r'. }
      pose proof (Hin r Hr) as Ha. pose proof (Hin row ltac:(left)) as Hb. destruct (remove_dups _) as [|x [|y l]]; simpl in Hl; [by apply elem_of_nil in Ha| |lia].
      apply list_elem_of_singleton in Ha, Hb. congruence.
    - intros Hf. assert (∀ l : list IpAddr, l ≠ [] → Forall (λ a, a = rw_addr row) l → remove_dups l = [rw_addr row]) as Hrd.
      { induction l as [|a [|b l] IH]; [done|..]; intros _ [-> Hl]%Forall_cons; cbn [remove_dups].
        - case_decide as Hx; [by apply elem_of_nil in Hx|done].
        - case_decide as Hx; [by apply IH|]. destruct Hx. apply Forall_cons in Hl as [-> _]. left. }
      rewrite Hrd; [done|done|]. apply Forall_fmap. eapply Forall_impl; [exact Hf|]. by intros r Hr. }
  destruct (1 <? _) eqn:E1.
  - split; [done|]. intros [(row' & [= <-] & <- & _) Hf]. by apply Hone in Hf.
  - cbn [head mbind option_bind]. split.
    + destruct (attributable _ _) eqn:Ea; [|done]. intros [= <-]. split; [by exists row|]. by apply Hone.
    + intros [(row' & [= <-] & <- & ->) _]. done.
Qed.

(** After every poll of the sidecar the forwarders are exactly these: for
    each port whose listening loopback rows all name one address, the first of
    them held by a process the sidecar can see, the forwarder the port already
    had to that address, or else a new one on the namespace's address of that
    family where there is one and the kernel gives it. Nothing else is
    forwarded, whatever was before. *)
Theorem poll_exact interfaces polls p forwarders (Hrun : run interfaces (polls ++ [p]) = Ok forwarders) :
  ∃ before binds tcp tcp6,
    run interfaces polls = Ok before ∧ interfaces ≫= (λ l, ok_or [] (bridge_addresses l)) = Ok binds ∧ po_tcp p = Ok tcp ∧ po_tcp6 p = Ok tcp6 ∧
    ∀ port f, forwarders !! port = Some f ↔
      ∃ addr, (∃ row, head (port_rows (parse_table tcp ++ parse_table tcp6) port) = Some row ∧ rw_addr row = addr ∧
                      attributable (po_proc p) (rw_inode row) = true) ∧
              Forall (λ row, rw_addr row = addr ∧ addr_is_loopback addr = true) (port_rows (parse_table tcp ++ parse_table tcp6) port) ∧
              served (po_can_bind p) binds before port addr = Some f.
Proof.
  revert Hrun. unfold run. destruct interfaces as [l|]; simpl; [|done]. destruct (bridge_addresses l) as [binds|]; simpl; [|done].
  rewrite try_fold_app. rewrite bind_ok. intros (before & -> & Hr). cbn [try_fold] in Hr. apply bind_ok in Hr as (after & Hp & [= <-]).
  revert Hp. unfold poll_step. rewrite bind_ok. intros (desired & Hd & [= <-]).
  destruct (po_tcp p) as [tcp|] eqn:Et; [|done]. destruct (po_tcp6 p) as [tcp6|] eqn:Et6; [|done].
  exists before, binds, tcp, tcp6. split_and!; [done..|]. intros port f. rewrite reconcile_lookup, (desired_lookup _ _ _ _ _ Hd), bind_Some.
  assert (∀ row, row ∈ parse_table tcp ++ parse_table tcp6 → addr_is_loopback (rw_addr row) = true) as Hloop.
  { intros row. rewrite elem_of_app. unfold parse_table. intros [Hin|Hin]; apply list_elem_of_omap in Hin as (line & _ & Hp);
      by apply parse_row_loopback in Hp. }
  split; intros (addr & Haddr); exists addr.
  - destruct Haddr as [[Hrow Hall]%desired_port_Some Hs]. split_and!; [done| |done].
    apply Forall_forall. intros row Hin. rewrite Forall_forall in Hall. pose proof (Hall _ Hin) as <-. split; [done|]. apply Hloop.
    unfold port_rows in Hin. by apply list_elem_of_filter in Hin as [_ Hin].
  - destruct Haddr as (Hrow & Hall & Hs). split; [|done]. apply desired_port_Some. split; [done|]. eapply Forall_impl; [exact Hall|]. by intros row [? _].
Qed.

(** ** What the kernel prints *)

Definition hex_pad (width : nat) (n : N) : bytes := replicate (width - length (hex_upper n)) Byte.x30 ++ hex_upper n.
(** The groups of an address, each the integer its four octets are in memory. *)
Fixpoint proc_groups (n : nat) (octets : bytes) : bytes :=
  match n with
  | 0 => []
  | S n => hex_pad 8 (of_be (rev (take 4 octets))) ++ proc_groups n (drop 4 octets)
  end.
Definition proc_local (addr : IpAddr) (port : N) : bytes :=
  match addr with V4 octets => proc_groups 1 octets | V6 octets => proc_groups 4 octets end ++ bs ":" ++ hex_pad 4 port.
Definition addr_octets_ok (addr : IpAddr) : Prop := match addr with V4 octets => length octets = 4 | V6 octets => length octets = 16 end.

(** A word of a line: printed ASCII. *)
Definition graphic (b : byte) : bool := in_range 33 126 b.
Definition word (w : bytes) : Prop := w ≠ [] ∧ Forall (λ b, graphic b = true) w.
Definition spaces (n : nat) : bytes := replicate n Byte.x20.
(** Words, with spaces between them and behind. *)
Definition padded (fields : list (bytes * nat)) (w : bytes) (trail : nat) : bytes :=
  concat (map (λ f : bytes * nat, f.1 ++ spaces (S f.2)) fields) ++ w ++ spaces trail.

Lemma ws_front_graphic b s : graphic b = true → ws_front (b :: s) = None.
Proof. destruct b; try (intros Hb; vm_compute in Hb; discriminate); intros _; reflexivity. Qed.

Lemma trim_start_graphic k s : head s = None ∨ (∃ b, head s = Some b ∧ graphic b = true) → trim_start (spaces k ++ s) = s.
Proof.
  intros Hs. unfold trim_start.
  assert (∀ fuel, k ≤ fuel → trim_start_go fuel (spaces k ++ s) = s) as Hgo; [|apply Hgo; rewrite length_app; unfold spaces; rewrite length_replicate; lia].
  induction k as [|k IH]; intros fuel Hf; simpl.
  - destruct Hs as [Hs|(b & Hs & Hb)]; destruct s as [|c s]; simplify_eq/=; [by destruct fuel|].
    destruct fuel; cbn [trim_start_go]; [done|]. by rewrite (ws_front_graphic _ s Hb).
  - destruct fuel as [|fuel]; [lia|]. cbn [trim_start_go]. change (ws_front (Byte.x20 :: spaces k ++ s)) with (Some 1). cbn [drop]. apply IH. lia.
Qed.

Lemma find_whitespace_word w s :
  Forall (λ b, graphic b = true) w → find_whitespace (w ++ s) = (λ i, length w + i) <$> find_whitespace s.
Proof.
  induction w as [|b w IH]; intros Hw; [simpl; by destruct (find_whitespace s)|]. apply Forall_cons in Hw as [Hb Hw].
  cbn [app find_whitespace]. rewrite (ws_front_graphic _ _ Hb). cbn [bool_of_opt]. rewrite IH by done. by destruct (find_whitespace s).
Qed.

Lemma word_head w s : word w → ∃ b, head (w ++ s) = Some b ∧ graphic b = true.
Proof. intros [Hne Hw]. destruct w as [|b w]; [done|]. exists b. by apply Forall_cons in Hw as [? _]. Qed.

Lemma words_go_last k w trail fuel : word w → 2 ≤ fuel → words_go fuel (spaces k ++ w ++ spaces trail) = [w].
Proof.
  intros Hw Hf. destruct fuel as [|[|fuel]]; [lia..|]. pose proof (word_head w (spaces trail) Hw) as Hh. destruct Hw as [Hne Hw].
  cbn [words_go]. rewrite trim_start_graphic by (by right).
  destruct (w ++ spaces trail) as [|b l] eqn:El; [by destruct w|]. rewrite <- El. rewrite find_whitespace_word by done.
  destruct trail as [|trail]; simpl; [by rewrite app_nil_r|]. rewrite Nat.add_0_r, take_app_length, drop_app_length. f_equal.
  change (Byte.x20 :: spaces trail) with (spaces (S trail)). rewrite <- (app_nil_r (spaces (S trail))). rewrite trim_start_graphic by (by left). done.
Qed.

Lemma words_padded k fields w trail :
  Forall (λ f, word f.1) fields → word w → words (spaces k ++ padded fields w trail) = map fst fields ++ [w].
Proof.
  intros Hf Hw. unfold words, padded.
  assert (∀ fuel k, length fields + 2 ≤ fuel →
    words_go fuel (spaces k ++ concat (map (λ f : bytes * nat, f.1 ++ spaces (S f.2)) fields) ++ w ++ spaces trail) = map fst fields ++ [w]) as Hgo.
  { induction Hf as [|[f n] fields Hf1 Hf IH]; intros fuel k' Hfuel; cbn [map concat length] in *; [apply words_go_last; [done|lia]|].
    destruct fuel as [|fuel]; [lia|]. cbn [words_go fst snd].
    pose proof (word_head f (spaces (S n) ++ concat (map (λ f : bytes * nat, f.1 ++ spaces (S f.2)) fields) ++ w ++ spaces trail) Hf1) as Hh.
    rewrite <- !app_assoc. rewrite trim_start_graphic by (by right). destruct Hf1 as [Hne Hf1]. cbn [fst] in *.
    match goal with |- match ?x with _ => _ end = _ => destruct x as [|b l] eqn:El; [by destruct f|]; rewrite <- El end.
    rewrite find_whitespace_word by done. change (find_whitespace (spaces (S n) ++ _)) with (Some 0). cbn [fmap option_fmap option_map].
    rewrite Nat.add_0_r, take_app_length, drop_app_length. cbn [app]. f_equal. apply IH. lia. }
  apply Hgo. assert (length fields ≤ length (concat (map (λ f : bytes * nat, f.1 ++ spaces (S f.2)) fields))) as Hl.
  { clear. induction fields as [|[f n] fields IH]; [done|]. cbn [map concat length]. rewrite !length_app. unfold spaces at 1. cbn [replicate length]. lia. }
  destruct Hw as [Hne _]. rewrite !length_app. destruct w; [done|]. simpl. lia.
Qed.

Lemma digits_go_length fuel radix n acc w :
  (2 ≤ radix)%N → (n < radix ^ N.of_nat w)%N → 0 < w → length (digits_go fuel radix n acc) ≤ w + length acc.
Proof.
  intros Hr. revert n acc w. induction fuel as [|fuel IH]; intros n acc w Hn Hw; cbn [digits_go]; [simpl; lia|].
  destruct (N.ltb_spec n radix); [simpl; lia|]. destruct w as [|[|w]]; [lia| |].
  - change (N.of_nat 1) with 1%N in Hn. rewrite N.pow_1_r in Hn. lia.
  - etrans; [apply (IH _ _ (S w)); [|lia]|simpl; lia]. apply N.Div0.div_lt_upper_bound.
    rewrite (Nat2N.inj_succ (S w)), N.pow_succ_r' in Hn. exact Hn.
Qed.

Lemma hex_pad_length w n : 0 < w → (n < 16 ^ N.of_nat w)%N → length (hex_pad w n) = w.
Proof.
  intros Hw Hn. unfold hex_pad. rewrite length_app, length_replicate. unfold hex_upper, to_digits.
  pose proof (digits_go_length (N.to_nat (N.size n)) 16 n [] w ltac:(lia) Hn Hw). simpl in *. lia.
Qed.

Lemma hex_pad_chars w n : Forall (λ b, hex_char b = true) (hex_pad w n).
Proof. unfold hex_pad. apply Forall_app. split; [|apply hex_digits]. by apply Forall_replicate. Qed.

Lemma hex_pad_read m w n : (n ≤ m)%N → from_str_radix m 16 (hex_pad w n) = Some n.
Proof.
  intros Hn. unfold hex_pad. pose proof (from_str_radix_to_digits m 16 n ltac:(lia) Hn) as Hr.
  generalize (w - length (hex_upper n)) as k. intros [|k]; [done|]. unfold from_str_radix. cbn [replicate app].
  rewrite decide_False by done.
  assert (∀ k l, fold_digits m 16 0 (replicate k Byte.x30 ++ l) = fold_digits m 16 0 l) as Hz.
  { clear. induction k as [|k IH]; intros l; [done|]. cbn [replicate app fold_digits]. change (digit_value 16 Byte.x30) with (Some 0%N). cbn [mbind option_bind].
    unfold checked_mul, checked_add. rewrite N.mul_0_l. destruct (0 <=? m)%N eqn:E0; [|apply N.leb_gt in E0; lia]. cbn [mbind option_bind].
    rewrite N.add_0_l, E0. cbn [mbind option_bind]. apply IH. }
  change (Byte.x30 :: replicate k Byte.x30 ++ hex_upper n) with (replicate (S k) Byte.x30 ++ hex_upper n). rewrite Hz.
  pose proof (hex_digits n) as Hd. change (to_digits 16 n) with (hex_upper n) in Hr. revert Hr. unfold from_str_radix. destruct (hex_upper n) as [|c l]; [intros Hx; discriminate Hx|].
  case_decide as Hc; [|done]. subst c. apply Forall_cons in Hd as [Hd _]. done.
Qed.

Lemma hex_pad_group octets : length octets = 4 → group_octets (of_be (rev octets)) = octets ∧ (of_be (rev octets) < 2 ^ 32)%N.
Proof.
  intros Hl. unfold group_octets. rewrite be32_of_be by (by rewrite length_rev). rewrite rev_involutive. split; [done|].
  pose proof (of_be_lt (rev octets)) as Hlt. by rewrite length_rev, Hl in Hlt.
Qed.

Lemma proc_groups_length n octets : length octets = n * 4 → length (proc_groups n octets) = n * 8.
Proof.
  revert octets. induction n as [|n IH]; intros octets Hl; [done|]. cbn [proc_groups].
  destruct (hex_pad_group (take 4 octets)) as [_ Hlt]; [rewrite length_take; lia|].
  rewrite length_app, hex_pad_length, IH; [lia|rewrite length_drop; lia|lia|exact Hlt].
Qed.

Lemma decode_groups_read n octets : length octets = n * 4 → decode_groups n (proc_groups n octets) = Some octets.
Proof.
  revert octets. induction n as [|n IH]; intros octets Hl; [by destruct octets|]. cbn [proc_groups decode_groups].
  destruct (hex_pad_group (take 4 octets)) as [Hg Hlt]; [rewrite length_take; lia|].
  pose proof (hex_pad_length 8 (of_be (rev (take 4 octets))) ltac:(lia) Hlt) as Hp.
  set (hex := hex_pad 8 _) in *. rewrite (take_app_le hex), (take_ge hex), (drop_app_length' hex) by lia. unfold hex in *. rewrite hex_pad_read by (unfold u32_max; lia). cbn [mbind option_bind].
  rewrite IH by (rewrite length_drop; lia). cbn [mbind option_bind].
  rewrite Hg. by rewrite take_drop.
Qed.

Lemma decode_local_read addr :
  addr_octets_ok addr → decode_local (match addr with V4 octets => proc_groups 1 octets | V6 octets => proc_groups 4 octets end) = Some addr.
Proof.
  unfold decode_local. destruct addr as [octets|octets]; cbn [addr_octets_ok]; intros Hl.
  - rewrite proc_groups_length by done. cbn [Nat.eqb Nat.mul Nat.add]. by rewrite decode_groups_read.
  - rewrite proc_groups_length by done. cbn [Nat.eqb Nat.mul Nat.add]. by rewrite decode_groups_read.
Qed.

Lemma proc_groups_chars n octets : Forall (λ b, hex_char b = true) (proc_groups n octets).
Proof. revert octets. induction n as [|n IH]; intros octets; [constructor|]. apply Forall_app. split; [apply hex_pad_chars|apply IH]. Qed.

(** A listening row whose local address is loopback is read back from the
    line the kernel prints for it, whatever its other columns hold and however
    they are padded: the octets of every 32-bit group in order, the port and
    the inode. *)
Theorem proc_row_roundtrip k fields w trail addr port inode
    (Hwords : Forall (λ f, word f.1) fields) (Hlast : word w)
    (Hlocal : (map fst fields ++ [w]) !! 1 = Some (proc_local addr port))
    (Hstate : (map fst fields ++ [w]) !! 3 = Some (bs "0A"))
    (Hinode : (map fst fields ++ [w]) !! 9 = Some (dec inode))
    (Haddr : addr_octets_ok addr) (Hloop : addr_is_loopback addr = true) (Hport : (port < 2 ^ 16)%N) (Hnode : (inode < 2 ^ 64)%N) :
  parse_row (spaces k ++ padded fields w trail) = Some {| rw_addr := addr; rw_port := port; rw_inode := inode |}.
Proof.
  unfold parse_row. rewrite words_padded by done. rewrite Hstate, Hlocal, Hinode. cbn [mbind option_bind].
  rewrite bool_decide_eq_true_2 by done. cbn [negb].
  set (groups := match addr with V4 octets => proc_groups 1 octets | V6 octets => proc_groups 4 octets end).
  assert (split_once (bs ":") (proc_local addr port) = Some (groups, hex_pad 4 port)) as ->.
  { unfold split_once, proc_local. fold groups. change (bs ":") with [Byte.x3a].
    assert (find_window [Byte.x3a] (groups ++ [Byte.x3a] ++ hex_pad 4 port) = Some (length groups)) as ->.
    { rewrite find_window_1. assert (Forall (λ b, hex_char b = true) groups) as Hg by (unfold groups; destruct addr; apply proc_groups_chars).
      revert Hg. clear. induction groups as [|b l IH]; [done|]. intros [Hb Hl]%Forall_cons. cbn [app position].
      rewrite bool_decide_eq_false_2 by (intros ->; done). change (Byte.x3a :: hex_pad 4 port) with ([Byte.x3a] ++ hex_pad 4 port). by rewrite IH. }
    cbn [mbind option_bind length]. rewrite take_app_length. f_equal. f_equal. rewrite app_assoc, drop_app_length'; [done|].
    rewrite length_app. simpl. lia. }
  cbn [mbind option_bind]. rewrite hex_pad_read by (unfold u16_max; lia). cbn [mbind option_bind].
  unfold groups. rewrite decode_local_read by done. cbn [mbind option_bind]. rewrite Hloop. cbn [negb].
  unfold dec. rewrite from_str_radix_to_digits; [done|lia|unfold usize_max; lia].
Qed.

(** ** Witnesses *)

Definition sample_fields : list (bytes * nat) :=
  map (λ w, (w, 0)) [bs "0:"; bs "0100007F:1F90"; bs "00000000:0000"; bs "0A"; bs "00000000:00000000"; bs "00:00000000"; bs "00000000"; bs "1000"; bs "0";
                     bs "4242"; bs "1"].
Definition sample_line : bytes := spaces 3 ++ padded sample_fields (bs "0") 6.
Definition sample_v4_addr (l : list N) : IpAddr := V4 (map byte_of l).
Definition sample_interfaces : list IfAddr := [IfInet (map byte_of [127; 0; 0; 1]%N); IfOther; IfInet (map byte_of [172; 18; 0; 2]%N)].
Definition sample_poll : Poll :=
  {| po_tcp := Ok (bs "  sl  local_address rem_address" ++ [LF] ++ sample_line ++ [LF]); po_tcp6 := Ok [];
     po_proc := Some [None; Some [None; Some (bs "/dev/null"); Some (bs "socket:[4242]")]]; po_can_bind _ _ := true |}.

Lemma proc_row_roundtrip_witness :
  parse_row sample_line = Some {| rw_addr := sample_v4_addr [127; 0; 0; 1]%N; rw_port := 8080; rw_inode := 4242 |}.
Proof.
  apply (proc_row_roundtrip 3 sample_fields (bs "0") 6 (sample_v4_addr [127; 0; 0; 1]%N) 8080 4242); try (vm_compute; reflexivity).
  - unfold sample_fields. repeat (constructor; [split; [discriminate|repeat (constructor; [reflexivity|]); constructor]|]). constructor.
  - split; [discriminate|repeat (constructor; [reflexivity|]); constructor].
Defined.

Lemma poll_exact_witness :
  match run (Ok sample_interfaces) [sample_poll] with
  | Ok forwarders =>
      forwarders !! 8080%N = Some {| fo_bind := sample_v4_addr [172; 18; 0; 2]%N; fo_upstream := (sample_v4_addr [127; 0; 0; 1]%N, 8080%N) |}
  | Err _ => False
  end.
Proof.
  destruct (run (Ok sample_interfaces) [sample_poll]) as [forwarders|err] eqn:E; [|vm_compute in E; discriminate].
  destruct (poll_exact (Ok sample_interfaces) [] sample_poll forwarders E) as (before & binds & tcp & tcp6 & Hb & Hi & Ht & Ht6 & Hall).
  vm_compute in Hi. injection Hi as <-. injection Ht as <-. injection Ht6 as <-. injection Hb as <-. apply Hall.
  exists (sample_v4_addr [127; 0; 0; 1]%N). split_and!.
  - eexists. split_and!; vm_compute; reflexivity.
  - match goal with |- Forall _ ?l => replace l with [{| rw_addr := sample_v4_addr [127; 0; 0; 1]%N; rw_port := 8080; rw_inode := 4242 |}] by (vm_compute; reflexivity) end.
    repeat constructor.
  - vm_compute. reflexivity.
Defined.

(** The first row of a port decides: where a process outside the agent listens
    on the same address and port as one of the agent's, whether the port is
    forwarded is a matter of the order of the rows. *)
Example first_row_decides :
  let row inode := {| rw_addr := sample_v4_addr [127; 0; 0; 1]%N; rw_port := 8080; rw_inode := inode |} in
  let proc := Some [Some [Some (bs "socket:[4242]")]] in
  desired_port proc [row 7; row 4242]%N 8080 = None ∧
  desired_port proc [row 4242; row 7]%N 8080 = Some (sample_v4_addr [127; 0; 0; 1]%N).
Proof. split; vm_compute; reflexivity. Qed.

(** An IPv4 link-local address is passed over like a loopback one. *)
Example link_local_excluded : bridge_addresses [IfInet (map byte_of [169; 254; 1; 2]%N)] = None.
Proof. vm_compute. reflexivity. Qed.

(** A listener on the IPv4-mapped loopback address is not loopback here. *)
Example mapped_loopback_unseen : addr_is_loopback (V6 (replicate 10 Byte.x00 ++ map byte_of [255; 255; 127; 0; 0; 1]%N)) = false.
Proof. vm_compute. reflexivity. Qed.
