(* ===== verification/Tracker.v ===== *)
(** * The TUN gateway: connections and the capture loop

    [crates/hodor-tun/src/tracker.rs], [chan.rs] and the loop of [tun.rs]. The
    sockets are smoltcp's, behind the class [Smoltcp]; a connection's two
    channels are their queues, with the liveness of the far end. [HashMap]s are
    finite maps: every pass treats each connection on its own, so their order
    does not matter. *)

From S2P Require Import Prelude Tun.

Inductive TcpState :=
| Closed | Listen | SynSent | SynReceived | Established | FinWait1 | FinWait2 | CloseWait | Closing | LastAck | TimeWait.
#[export] Instance TcpState_eq_decision : EqDecision TcpState.
Proof. solve_decision. Defined.

(** smoltcp's TCP socket, as far as the tracker uses it. [send_slice] gives the
    count it accepted, [recv_slice] at most so many bytes; [None] is an error. *)
Class Smoltcp := {
  Sock : Type;
  sock_listen : SocketAddr → option Sock;
  sock_state : Sock → TcpState;
  can_send : Sock → bool;
  send_slice : Sock → bytes → option nat * Sock;
  can_recv : Sock → bool;
  recv_slice : Sock → nat → option bytes * Sock;
  sock_abort : Sock → Sock;
  sock_close : Sock → Sock;
}.

(** Documented behaviour: what was accepted for sending and what is buffered for
    receiving are streams; the calls append to the one and take from the other. *)
Class SmoltcpLaws `{!Smoltcp} := {
  tx_bytes : Sock → bytes;
  rx_bytes : Sock → bytes;
  send_slice_law s data r s' : send_slice s data = (r, s') →
    tx_bytes s' = tx_bytes s ++ take (default 0 r) data ∧ default 0 r ≤ length data ∧ rx_bytes s' = rx_bytes s;
  recv_slice_law s n r s' : recv_slice s n = (r, s') →
    rx_bytes s = default [] r ++ rx_bytes s' ∧ tx_bytes s' = tx_bytes s;
}.

Definition MAX_TCP_CONNS : nat := 256.
Definition RELAY_BUF : nat := 16384.

Inductive TaskMsg := Data (data : bytes) | Abort.

(** [tc_out] is the queue towards the task and [tc_in] the one from it;
    [tc_to_proxy] tells whether the sender is still held, [tc_channels] whether
    the task's ends are. *)
Record TcpConn := {
  tc_src : SocketAddr;
  tc_dst : SocketAddr;
  tc_to_proxy : bool;
  tc_out : list bytes;
  tc_out_alive : bool;
  tc_in : list TaskMsg;
  tc_in_alive : bool;
  tc_channels : bool;
  tc_spawned : bool;
  tc_read_pending : option bytes;
  tc_write_pending : option (bytes * nat);
}.

Definition with_in (c : TcpConn) (q : list TaskMsg) : TcpConn :=
  {| tc_src := tc_src c; tc_dst := tc_dst c; tc_to_proxy := tc_to_proxy c; tc_out := tc_out c;
     tc_out_alive := tc_out_alive c; tc_in := q; tc_in_alive := tc_in_alive c; tc_channels := tc_channels c;
     tc_spawned := tc_spawned c; tc_read_pending := tc_read_pending c; tc_write_pending := tc_write_pending c |}.
Definition with_out (c : TcpConn) (q : list bytes) (pending : option bytes) : TcpConn :=
  {| tc_src := tc_src c; tc_dst := tc_dst c; tc_to_proxy := tc_to_proxy c; tc_out := q;
     tc_out_alive := tc_out_alive c; tc_in := tc_in c; tc_in_alive := tc_in_alive c; tc_channels := tc_channels c;
     tc_spawned := tc_spawned c; tc_read_pending := pending; tc_write_pending := tc_write_pending c |}.
Definition with_write (c : TcpConn) (w : option (bytes * nat)) : TcpConn :=
  {| tc_src := tc_src c; tc_dst := tc_dst c; tc_to_proxy := tc_to_proxy c; tc_out := tc_out c;
     tc_out_alive := tc_out_alive c; tc_in := tc_in c; tc_in_alive := tc_in_alive c; tc_channels := tc_channels c;
     tc_spawned := tc_spawned c; tc_read_pending := tc_read_pending c; tc_write_pending := w |}.
Definition with_ends (c : TcpConn) (to_proxy channels spawned : bool) : TcpConn :=
  {| tc_src := tc_src c; tc_dst := tc_dst c; tc_to_proxy := to_proxy; tc_out := tc_out c;
     tc_out_alive := tc_out_alive c; tc_in := tc_in c; tc_in_alive := tc_in_alive c; tc_channels := channels;
     tc_spawned := spawned; tc_read_pending := tc_read_pending c; tc_write_pending := tc_write_pending c |}.

Section Conn.
Context `{!Smoltcp}.

(** ** One connection's pass *)

(** A message of stream bytes: what the socket does not take is pending. *)
Definition deliver (c : TcpConn) (s : Sock) (data : bytes) : TcpConn * Sock :=
  if can_send s then
    match send_slice s data with
    | (Some written, s) => (if written <? length data then with_write c (Some (data, written)) else c, s)
    | (None, s) => (with_write c (Some (data, 0)), s)
    end
  else (with_write c (Some (data, 0)), s).

(** Task to socket: (abort, task gone, connection, socket). *)
Fixpoint drain_task (fuel : nat) (c : TcpConn) (s : Sock) : option (bool * bool * TcpConn * Sock) :=
  match tc_write_pending c, fuel with
  | Some _, _ => Some (false, false, c, s)
  | None, 0 => None
  | None, S fuel =>
      match tc_in c with
      | Abort :: q => Some (true, false, with_in c q, s)
      | Data data :: q => let '(c, s) := deliver (with_in c q) s data in drain_task fuel c s
      | [] => Some (false, negb (tc_in_alive c), c, s)
      end
  end.

(** One more attempt at a partial write. *)
Definition push_write (c : TcpConn) (s : Sock) (data : bytes) (offset : nat) : option TcpConn * Sock :=
  match send_slice s (drop offset data) with
  | (Some written, s) =>
      (Some (with_write c (if length data <=? offset + written then None else Some (data, offset + written))), s)
  | (None, s) => (None, s)
  end.
Definition finish_write (c : TcpConn) (s : Sock) : TcpConn * Sock :=
  match tc_write_pending c with
  | Some (data, offset) =>
      if can_send s then let '(r, s) := push_write c s data offset in (default c r, s) else (c, s)
  | None => (c, s)
  end.

(** The drain in front of an abort. *)
Fixpoint abort_drain (fuel : nat) (c : TcpConn) (s : Sock) : option (TcpConn * Sock) :=
  match tc_write_pending c, fuel with
  | None, _ => Some (c, s)
  | Some _, 0 => None
  | Some (data, offset), S fuel =>
      if negb (can_send s) then Some (c, s)
      else
        match push_write c s data offset with
        | (Some c, s) => abort_drain fuel c s
        | (None, s) => Some (c, s)
        end
  end.

(** [to_proxy.try_send(data)]; a refused chunk is pending. *)
Definition send_out (c : TcpConn) (data : bytes) : TcpConn :=
  if tc_out_alive c && (length (tc_out c) <? CHANNEL_CAP) then with_out c (tc_out c ++ [data]) None
  else with_out c (tc_out c) (Some data).
Definition flush_read (c : TcpConn) : TcpConn :=
  match tc_read_pending c with Some pending => send_out c pending | None => c end.

(** Socket to task, until the socket is empty or the channel refuses. *)
Fixpoint read_socket (fuel : nat) (c : TcpConn) (s : Sock) : option (TcpConn * Sock) :=
  match tc_read_pending c, fuel with
  | Some _, _ => Some (c, s)
  | None, 0 => None
  | None, S fuel =>
      if can_recv s then
        match recv_slice s RELAY_BUF with
        | (Some ((_ :: _) as chunk), s) => read_socket fuel (send_out c chunk) s
        | (_, s) => Some (c, s)
        end
      else Some (c, s)
  end.

Definition read_guest (c : TcpConn) (s : Sock) : option (TcpConn * Sock) :=
  if tc_to_proxy c then
    '(c, s) ← read_socket (CHANNEL_CAP + 2) (flush_read c) s;
    Some (if bool_decide (sock_state s = CloseWait) && bool_decide (tc_read_pending c = None) && negb (can_recv s)
          then with_ends c false (tc_channels c) (tc_spawned c) else c, s)
  else Some (c, s).

Definition relay_conn (c : TcpConn) (s : Sock) : option (TcpConn * Sock) :=
  if bool_decide (sock_state s = Closed) then Some (c, s)
  else
    '(abort, gone, c, s) ← drain_task (S (length (tc_in c))) c s;
    let '(c, s) := finish_write c s in
    if abort : bool then
      '(c, s) ← abort_drain 0 c s; Some (c, sock_abort s)
    else if gone && bool_decide (tc_write_pending c = None) then Some (c, sock_close s)
    else read_guest c s.

(** ** The tracker *)

Record TcpTracker := {
  tt_conns : gmap nat TcpConn;
  tt_keys : gset (SocketAddr * SocketAddr);
}.
Abbreviation SocketSet := (gmap nat Sock).

Definition has_socket_for (t : TcpTracker) (src dst : SocketAddr) : bool := bool_decide ((src, dst) ∈ tt_keys t).

Definition new_conn (src dst : SocketAddr) : TcpConn :=
  {| tc_src := src; tc_dst := dst; tc_to_proxy := true; tc_out := []; tc_out_alive := true; tc_in := [];
     tc_in_alive := true; tc_channels := true; tc_spawned := false; tc_read_pending := None; tc_write_pending := None |}.

(** [handle] is the free slot the socket set picks. *)
Definition create_socket (t : TcpTracker) (src dst : SocketAddr) (sockets : SocketSet) (handle : nat)
    : bool * TcpTracker * SocketSet :=
  if MAX_TCP_CONNS <=? size (tt_conns t) then (false, t, sockets)
  else
    match sock_listen dst with
    | None => (false, t, sockets)
    | Some socket =>
        (true,
         {| tt_conns := <[handle := new_conn src dst]> (tt_conns t); tt_keys := {[(src, dst)]} ∪ tt_keys t |},
         <[handle := socket]> sockets)
    end.

(** A pass over the connections; [None] is the panic of a handle without a
    socket, or the fuel of a loop. *)
Definition relay_one (sockets : option (gmap nat TcpConn * SocketSet)) (hc : nat * TcpConn)
    : option (gmap nat TcpConn * SocketSet) :=
  '(conns, sockets) ← sockets;
  if negb (tc_spawned hc.2) then Some (<[hc.1 := hc.2]> conns, sockets)
  else
    s ← sockets !! hc.1;
    '(c, s) ← relay_conn hc.2 s;
    Some (<[hc.1 := c]> conns, <[hc.1 := s]> sockets).
Definition relay (t : TcpTracker) (sockets : SocketSet) : option (TcpTracker * SocketSet) :=
  '(conns, sockets) ← foldl relay_one (Some (∅, sockets)) (map_to_list (tt_conns t));
  Some ({| tt_conns := conns; tt_keys := tt_keys t |}, sockets).

(** The connections whose task starts now: those whose ends were still held. *)
Definition starts (c : TcpConn) (s : Sock) : bool :=
  negb (tc_spawned c) && (bool_decide (sock_state s = Established) || bool_decide (sock_state s = CloseWait)).
Definition take_new_conn (sockets : SocketSet) (h : nat) (c : TcpConn) : TcpConn :=
  match sockets !! h with
  | Some s => if starts c s then with_ends c (tc_to_proxy c) false true else c
  | None => c
  end.
Definition take_new (t : TcpTracker) (sockets : SocketSet) : option (list SocketAddr * TcpTracker) :=
  if bool_decide (map_Forall (λ h c, tc_spawned c = false → is_Some (sockets !! h)) (tt_conns t)) then
    Some (omap (λ hc, s ← sockets !! hc.1;
                      if starts hc.2 s && tc_channels hc.2 then Some (tc_dst hc.2) else None) (map_to_list (tt_conns t)),
          {| tt_conns := map_imap (λ h c, Some (take_new_conn sockets h c)) (tt_conns t); tt_keys := tt_keys t |})
  else None.

Definition is_closed (sockets : SocketSet) (h : nat) : bool :=
  match sockets !! h with Some s => bool_decide (sock_state s = Closed) | None => false end.
Definition cleanup (t : TcpTracker) (sockets : SocketSet) : option (TcpTracker * SocketSet) :=
  if bool_decide (map_Forall (λ h _, is_Some (sockets !! h)) (tt_conns t)) then
    let dead := filter (λ hc, is_closed sockets hc.1 = true) (tt_conns t) in
    Some ({| tt_conns := filter (λ hc, is_closed sockets hc.1 = false) (tt_conns t);
             tt_keys := tt_keys t ∖ list_to_set (map (λ hc, (tc_src hc.2, tc_dst hc.2)) (map_to_list dead)) |},
          filter (λ hs, dead !! hs.1 = None) sockets)
  else None.

(** ** The capture loop *)

Record Gateway := {
  gw_rx : list bytes;      (* packets queued for the stack *)
  gw_tracker : TcpTracker;
  gw_sockets : SocketSet;
  gw_udp : UdpTable;
}.

Definition ingress (dns_upstream : SocketAddr) (g : Gateway) (packet : bytes) (handle : nat) : Gateway :=
  match classify_packet packet with
  | PTcp src dst syn =>
      let '(tracker, sockets) :=
        if syn && negb (has_socket_for (gw_tracker g) src dst)
        then let '(_, t, s) := create_socket (gw_tracker g) src dst (gw_sockets g) handle in (t, s)
        else (gw_tracker g, gw_sockets g) in
      {| gw_rx := gw_rx g ++ [packet]; gw_tracker := tracker; gw_sockets := sockets; gw_udp := gw_udp g |}
  | PUdp src dst payload =>
      if (dst.2 =? 443)%N then g
      else
        let upstream := if (dst.2 =? 53)%N then dns_upstream else dst in
        {| gw_rx := gw_rx g; gw_tracker := gw_tracker g; gw_sockets := gw_sockets g;
           gw_udp := forward_udp (gw_udp g) upstream src dst payload |}
  | POther => g
  end.

(** What one round does behind the packet: the stack turned the sockets into
    [polled], then relay, spawn and cleanup. *)
Definition round (g : Gateway) (polled : SocketSet) (rx : list bytes) : option (list SocketAddr * Gateway) :=
  '(t, sockets) ← relay (gw_tracker g) polled;
  '(new, t) ← take_new t sockets;
  '(t, sockets) ← cleanup t sockets;
  Some (new, {| gw_rx := rx; gw_tracker := t; gw_sockets := sockets; gw_udp := gw_udp g |}).

(** ** The stream of a connection's task *)

Record ChanStream := {
  cs_rx : list bytes;
  cs_rx_alive : bool;
  cs_pending : option (bytes * nat);
}.
(** [poll_read] with room for [n] bytes: [None] is pending, an empty read EOF.
    One received chunk is read at once, so the loop runs at most twice. *)
Definition read_chunk (rx : list bytes) (alive : bool) (data : bytes) (pos n : nat) : bytes * ChanStream :=
  let k := Nat.min (length data - pos) n in
  (take k (drop pos data),
   {| cs_rx := rx; cs_rx_alive := alive;
      cs_pending := if length data <=? pos + k then None else Some (data, pos + k) |}).
Definition poll_read (cs : ChanStream) (n : nat) : option bytes * ChanStream :=
  match cs_pending cs, cs_rx cs with
  | Some (data, pos), rx => let '(b, cs) := read_chunk rx (cs_rx_alive cs) data pos n in (Some b, cs)
  | None, data :: rx => let '(b, cs) := read_chunk rx (cs_rx_alive cs) data 0 n in (Some b, cs)
  | None, [] => (if cs_rx_alive cs then None else Some [], cs)
  end.
End Conn.

(** * What the tracker promises *)

(** ** A connection's two streams *)

Definition write_rest (c : TcpConn) : bytes :=
  match tc_write_pending c with Some (data, offset) => drop offset data | None => [] end.
Fixpoint in_data (q : list TaskMsg) : bytes :=
  match q with Data data :: q => data ++ in_data q | _ => [] end.

(** Offsets lie within their chunk, the queue within its capacity, and no chunk
    for the task is empty (an empty read means the end of the stream there). *)
Definition conn_ok (c : TcpConn) : Prop :=
  (∀ data offset, tc_write_pending c = Some (data, offset) → offset ≤ length data) ∧
  length (tc_out c) ≤ CHANNEL_CAP ∧ Forall (.≠ []) (tc_out c) ∧ tc_read_pending c ≠ Some [].

Section ConnFacts.
Context `{!Smoltcp, !SmoltcpLaws}.
Abbreviation SocketSet := (gmap nat Sock).

(** The bytes from the task, those of the socket first, up to an abort; and the
    bytes from the guest. *)
Definition down (c : TcpConn) (s : Sock) : bytes := tx_bytes s ++ write_rest c ++ in_data (tc_in c).
Definition up (c : TcpConn) (s : Sock) : bytes := concat (tc_out c) ++ default [] (tc_read_pending c) ++ rx_bytes s.

(** The task-to-socket half only changes the pending write and the queue. *)
Definition down_only (c c' : TcpConn) : Prop := ∃ q w, c' = with_write (with_in c q) w.

Lemma down_only_refl c : down_only c c.
Proof. exists (tc_in c), (tc_write_pending c). by destruct c. Qed.
Lemma down_only_write c w : down_only c (with_write c w).
Proof. exists (tc_in c), w. by destruct c. Qed.
#[local] Hint Resolve down_only_refl down_only_write : core.
Lemma down_only_trans c1 c2 c3 : down_only c1 c2 → down_only c2 c3 → down_only c1 c3.
Proof. intros (q & w & ->) (q' & w' & ->). by exists q', w'. Qed.
Lemma down_only_up c c' s s' : down_only c c' → rx_bytes s' = rx_bytes s → up c' s' = up c s.
Proof. intros (q & w & ->) Hr. unfold up. by rewrite Hr. Qed.
Lemma down_only_ok c c' : down_only c c' → conn_ok c →
  (∀ data offset, tc_write_pending c' = Some (data, offset) → offset ≤ length data) → conn_ok c'.
Proof. intros (q & w & ->) (_ & Hc) Hw. split; [apply Hw|apply Hc]. Qed.

Lemma deliver_spec c s data c' s' : tc_write_pending c = None → deliver c s data = (c', s') →
  tx_bytes s' ++ write_rest c' = tx_bytes s ++ data ∧ rx_bytes s' = rx_bytes s ∧ down_only c c' ∧ tc_in c' = tc_in c ∧
  (∀ d o, tc_write_pending c' = Some (d, o) → o ≤ length d).
Proof.
  intros Hw Hd. unfold deliver in Hd. destruct (can_send s).
  - destruct (send_slice s data) as [r s1] eqn:Hs. apply send_slice_law in Hs as (Htx & Hl & Hrx).
    destruct r as [n|]; cbn [default from_option id] in *.
    + destruct (Nat.ltb_spec n (length data)); injection Hd as <- <-; rewrite Htx; unfold write_rest; cbn [tc_write_pending with_write].
      * rewrite <- app_assoc, take_drop. split_and!; [done..|apply down_only_write|done|]. intros d o [= <- <-]. done.
      * rewrite Hw, app_nil_r, take_ge by lia. split_and!; [done..|apply down_only_refl|done|done].
    + injection Hd as <- <-. rewrite Htx, app_nil_r. unfold write_rest. cbn [tc_write_pending with_write].
      split_and!; [done..|apply down_only_write|done|]. intros d o [= <- <-]. lia.
  - injection Hd as <- <-. unfold write_rest. cbn [tc_write_pending with_write].
    split_and!; [done..|apply down_only_write|done|]. intros d o [= <- <-]. lia.
Qed.

Lemma drain_task_total fuel c s : length (tc_in c) < fuel → is_Some (drain_task fuel c s).
Proof.
  revert c s. induction fuel as [|fuel IH]; intros c s Hl; [lia|]. cbn [drain_task].
  destruct (tc_write_pending c) eqn:Hw; [done|]. destruct (tc_in c) as [|[data|] q] eqn:Hq; [done| |done].
  destruct (deliver (with_in c q) s data) as [c1 s1] eqn:Hd. apply deliver_spec in Hd as (_ & _ & _ & Hi & _); [|done].
  apply IH. rewrite Hi. cbn [with_in tc_in]. simpl in Hl. lia.
Qed.

Lemma drain_task_spec fuel c s abort gone c' s' : conn_ok c → drain_task fuel c s = Some (abort, gone, c', s') →
  rx_bytes s' = rx_bytes s ∧ down_only c c' ∧ conn_ok c' ∧
  (if abort : bool then tx_bytes s' = down c s ∧ Abort ∈ tc_in c ∧ tc_write_pending c' = None else down c' s' = down c s) ∧
  (gone = true → tc_in c' = [] ∧ tc_in_alive c = false).
Proof.
  revert c s. induction fuel as [|fuel IH]; intros c s Hok Hd; cbn [drain_task] in Hd; destruct (tc_write_pending c) as [w|] eqn:Hw;
    [|done| |].
  1, 2: by injection Hd as <- <- <- <-; split_and!; [done|apply down_only_refl|done..].
  destruct (tc_in c) as [|[data|] q] eqn:Hq.
  - injection Hd as <- <- <- <-. split_and!; [done|apply down_only_refl|done..|]. by intros ?%negb_true_iff.
  - destruct (deliver (with_in c q) s data) as [c1 s1] eqn:Hdel.
    apply deliver_spec in Hdel as (Htx & Hrx & Hdo & Hi & Ho); [|done].
    assert (down_only c c1) as Hdo1 by (eapply down_only_trans; [|done]; by exists q, (tc_write_pending c); destruct c).
    apply IH in Hd as (Hrx' & Hdo' & Hok' & Hdown & Hgone); [|by eapply down_only_ok].
    assert (down c1 s1 = down c s) as Hdn.
    { unfold down. rewrite app_assoc, Htx, Hi, Hq. unfold write_rest. rewrite Hw. cbn [with_in tc_in in_data app].
      by rewrite <- app_assoc. }
    assert (tc_in_alive c1 = tc_in_alive c) as Hal by (by destruct Hdo1 as (? & ? & ->)).
    split_and!; [by rewrite Hrx'|by eapply down_only_trans|done| |by rewrite <- Hal].
    destruct abort; rewrite <- Hdn; [|done]. destruct Hdown as (? & Ha & ?). split_and!; [done| |done].
    rewrite Hi in Ha. by apply list_elem_of_further.
  - injection Hd as <- <- <- <-. split; [done|]. split; [by exists q, (tc_write_pending c); destruct c|].
    split; [apply Hok|]. split; [|done]. split_and!; [|by left|done].
    unfold down, write_rest. rewrite Hw, Hq. cbn [in_data app]. by rewrite app_nil_r.
Qed.

Lemma finish_write_spec c s c' s' : conn_ok c → finish_write c s = (c', s') →
  down c' s' = down c s ∧ rx_bytes s' = rx_bytes s ∧ down_only c c' ∧ conn_ok c' ∧ tc_in c' = tc_in c ∧
  (tc_write_pending c = None → c' = c ∧ s' = s).
Proof.
  intros Hok Hf. unfold finish_write in Hf. destruct (tc_write_pending c) as [[data offset]|] eqn:Hw.
  2: by injection Hf as <- <-; split_and!; done.
  destruct (can_send s); [|by injection Hf as <- <-; split_and!; done].
  unfold push_write in Hf. destruct (send_slice s (drop offset data)) as [r s1] eqn:Hs.
  apply send_slice_law in Hs as (Htx & Hl & Hrx). rewrite length_drop in Hl. pose proof (proj1 Hok _ _ Hw) as Ho.
  destruct r as [n|]; cbn [default from_option id] in *; injection Hf as <- <-.
  2: { unfold down. rewrite Htx, app_nil_r. split_and!; done. }
  split; [|split; [done|split; [apply down_only_write|split; [|done]]]].
  - unfold down, write_rest. rewrite Hw, Htx. cbn [tc_write_pending with_write tc_in].
    rewrite <- app_assoc. f_equal. rewrite app_assoc. f_equal.
    destruct (Nat.leb_spec (length data) (offset + n)).
    + rewrite app_nil_r. apply take_ge. rewrite length_drop. lia.
    + by rewrite <- drop_drop, take_drop.
  - eapply down_only_ok; [apply down_only_write|done|]. cbn [tc_write_pending with_write].
    destruct (Nat.leb_spec (length data) (offset + n)); [done|]. intros d o [= <- <-]. lia.
Qed.

(** A chunk for the task is queued or pending, never dropped. *)
Lemma send_out_spec c data s : conn_ok c → tc_read_pending c = None → data ≠ [] →
  up (send_out c data) s = concat (tc_out c) ++ data ++ rx_bytes s ∧ conn_ok (send_out c data).
Proof.
  intros (Hw & Hc & Hne & _) Hr Hd. unfold send_out, up.
  destruct (tc_out_alive c && (length (tc_out c) <? CHANNEL_CAP)) eqn:Ha.
  - cbn [tc_out tc_read_pending with_out default from_option app]. rewrite concat_app. cbn [concat]. rewrite app_nil_r, <- app_assoc.
    split; [done|]. split_and!; [done| | |done]; cbn [tc_out with_out].
    + apply andb_true_iff in Ha as [_ Ha%Nat.ltb_lt]. rewrite length_app. cbn [length]. lia.
    + apply Forall_app. by split; [|apply Forall_singleton].
  - cbn [tc_out tc_read_pending with_out default from_option id]. split; [done|]. split_and!; [done..|]. by intros [= ->].
Qed.

Lemma send_out_refuses c data : tc_read_pending (send_out c data) = None →
  tc_out_alive (send_out c data) = true ∧ tc_out (send_out c data) = tc_out c ++ [data] ∧ length (tc_out c) < CHANNEL_CAP.
Proof.
  unfold send_out. destruct (tc_out_alive c && _) eqn:Ha; [|done]. intros _.
  apply andb_true_iff in Ha as [Ha Hl%Nat.ltb_lt]. done.
Qed.

(** What the socket-to-task half leaves alone. *)
Definition up_only (c c' : TcpConn) : Prop := ∃ q p, c' = with_out c q p.
Lemma up_only_send c data : up_only c (send_out c data).
Proof. unfold send_out. case_match; by eexists _, _. Qed.
Lemma up_only_trans c1 c2 c3 : up_only c1 c2 → up_only c2 c3 → up_only c1 c3.
Proof. intros (q & p & ->) (q' & p' & ->). by exists q', p'. Qed.
Lemma up_only_refl c : up_only c c.
Proof. exists (tc_out c), (tc_read_pending c). by destruct c. Qed.
#[local] Hint Resolve up_only_refl up_only_send : core.
Lemma up_only_down c c' s s' : up_only c c' → tx_bytes s' = tx_bytes s → down c' s' = down c s.
Proof. intros (q & p & ->) Ht. unfold down. by rewrite Ht. Qed.

Lemma flush_read_spec c s : conn_ok c → up (flush_read c) s = up c s ∧ conn_ok (flush_read c) ∧ up_only c (flush_read c).
Proof.
  intros Hok. unfold flush_read. destruct (tc_read_pending c) as [data|] eqn:Hr; [|by split_and!; [..|apply up_only_refl]].
  assert (conn_ok (with_out c (tc_out c) None)) as Hok0 by (destruct Hok as (? & ? & ? & ?); by split_and!).
  assert (data ≠ []) as Hd by (intros ->; by apply Hok).
  assert (send_out c data = send_out (with_out c (tc_out c) None) data) as -> by done.
  destruct (send_out_spec _ data s Hok0 eq_refl Hd) as [Hu Ho]. split_and!; [|done|].
  - rewrite Hu. unfold up. by rewrite Hr.
  - eapply up_only_trans; [|apply up_only_send]. by exists (tc_out c), None.
Qed.

Lemma read_socket_spec fuel c s c' s' : conn_ok c → read_socket fuel c s = Some (c', s') →
  up c' s' = up c s ∧ tx_bytes s' = tx_bytes s ∧ conn_ok c' ∧ up_only c c'.
Proof.
  revert c s. induction fuel as [|fuel IH]; intros c s Hok Hr; cbn [read_socket] in Hr; destruct (tc_read_pending c) as [w|] eqn:Hw;
    [|done| |].
  1, 2: injection Hr as <- <-; by split_and!; [..|apply up_only_refl].
  destruct (can_recv s); [|injection Hr as <- <-; by split_and!; [..|apply up_only_refl]].
  destruct (recv_slice s RELAY_BUF) as [r s1] eqn:Hs. apply recv_slice_law in Hs as [Hrx Htx].
  assert (∀ d, default [] r = d → up c s = concat (tc_out c) ++ d ++ rx_bytes s1) as Hup.
  { intros d <-. unfold up. by rewrite Hw, Hrx. }
  destruct r as [[|b chunk]|]; cbn [default from_option id] in *.
  2: { apply IH in Hr as (Hu & Ht & Ho & Hx); [|by apply send_out_spec].
       split_and!; [|by rewrite Ht|done|eapply up_only_trans; [apply up_only_send|done]].
       rewrite Hu, (Hup (b :: chunk)) by done. by apply send_out_spec. }
  all: injection Hr as <- <-; split_and!; [|done..|apply up_only_refl]; rewrite (Hup []) by done; unfold up; by rewrite Hw.
Qed.

(** Every chunk read takes a place in the queue, so the loop ends. *)
Lemma read_socket_total fuel c s : CHANNEL_CAP - length (tc_out c) + 1 < fuel → is_Some (read_socket fuel c s).
Proof.
  revert c s. induction fuel as [|fuel IH]; intros c s Hf; [lia|]. cbn [read_socket].
  destruct (tc_read_pending c); [done|]. destruct (can_recv s); [|done].
  destruct (recv_slice s RELAY_BUF) as [[[|b chunk]|] s1]; [done| |done].
  destruct (tc_read_pending (send_out c (b :: chunk))) eqn:Hp; [destruct fuel; cbn [read_socket]; by rewrite Hp|].
  destruct (send_out_refuses _ _ Hp) as (_ & Ho & Hl). apply IH. rewrite Ho, length_app. cbn [length]. lia.
Qed.

(** One pass over a connection: nothing lost, duplicated or reordered on
    either stream, and an abort or a close only behind everything sent. *)
Definition relayed (c : TcpConn) (s : Sock) (c' : TcpConn) (s' : Sock) : Prop :=
  tc_src c' = tc_src c ∧ tc_dst c' = tc_dst c ∧ conn_ok c' ∧
  (tc_to_proxy c' = tc_to_proxy c ∨ tc_read_pending c' = None ∧ can_recv s' = false) ∧
  ∃ s1, up c' s1 = up c s ∧
    (s' = s1 ∧ down c' s1 = down c s ∨
     s' = sock_abort s1 ∧ Abort ∈ tc_in c ∧ tx_bytes s1 = down c s ∨
     s' = sock_close s1 ∧ tc_in_alive c = false ∧ tx_bytes s1 = down c s).

Lemma relayed_refl c s : conn_ok c → relayed c s c s.
Proof. intros Hok. split_and!; [done..|by left|]. exists s. by split; [|left]. Qed.
Lemma down_only_keeps c c' : down_only c c' →
  tc_src c' = tc_src c ∧ tc_dst c' = tc_dst c ∧ tc_to_proxy c' = tc_to_proxy c ∧ tc_out c' = tc_out c ∧
  tc_read_pending c' = tc_read_pending c.
Proof. by intros (q & w & ->). Qed.
Lemma up_only_keeps c c' : up_only c c' → tc_src c' = tc_src c ∧ tc_dst c' = tc_dst c ∧ tc_to_proxy c' = tc_to_proxy c.
Proof. by intros (q & w & ->). Qed.

Lemma read_guest_spec c s : conn_ok c → ∃ c' s', read_guest c s = Some (c', s') ∧ relayed c s c' s' ∧ up c' s' = up c s ∧ down c' s' = down c s.
Proof.
  intros Hok. unfold read_guest. destruct (tc_to_proxy c) eqn:Hp.
  2: { exists c, s. split; [done|]. split; [by apply relayed_refl|done]. }
  destruct (flush_read_spec c s Hok) as (Hu & Hok1 & Hx1).
  destruct (read_socket_total (CHANNEL_CAP + 2) (flush_read c) s) as [[c1 s1] Hr]; [unfold CHANNEL_CAP; lia|].
  rewrite Hr. cbn [mbind option_bind]. apply read_socket_spec in Hr as (Hu' & Ht & Hok2 & Hx2); [|done].
  pose proof (up_only_trans _ _ _ Hx1 Hx2) as Hx. rewrite Hu in Hu'. pose proof (up_only_down _ _ _ _ Hx Ht) as Hd.
  destruct (up_only_keeps _ _ Hx) as (Hsrc & Hdst & Htp).
  destruct (bool_decide (sock_state s1 = CloseWait) && bool_decide (tc_read_pending c1 = None) && negb (can_recv s1)) eqn:He.
  - apply andb_true_iff in He as [[_ He%bool_decide_eq_true_1]%andb_true_iff Hc%negb_true_iff].
    eexists _, s1. split; [done|]. split; [|done]. split_and!; [done..|by right|]. exists s1. by split; [|left].
  - exists c1, s1. split; [done|]. split; [|done]. split_and!; [done..|by left|]. exists s1. by split; [|left].
Qed.

Lemma relay_conn_spec c s : conn_ok c → ∃ c' s', relay_conn c s = Some (c', s') ∧ relayed c s c' s'.
Proof.
  intros Hok. unfold relay_conn.
  destruct (bool_decide (sock_state s = Closed)); [exists c, s; split; [done|by apply relayed_refl]|].
  destruct (drain_task_total (S (length (tc_in c))) c s ltac:(lia)) as [[[[abort gone] c1] s1] Hd]. rewrite Hd.
  cbn [mbind option_bind]. apply drain_task_spec in Hd as (Hrx & Hdo & Hok1 & Hdown & Hgone); [|done].
  destruct (finish_write c1 s1) as [c2 s2] eqn:Hf.
  apply finish_write_spec in Hf as (Hdn & Hrx2 & Hdo2 & Hok2 & Hin2 & Hnone); [|done].
  pose proof (down_only_trans _ _ _ Hdo Hdo2) as Hdo3. destruct (down_only_keeps _ _ Hdo3) as (Hsrc & Hdst & Hp & _).
  assert (up c2 s2 = up c s) as Hup by (apply down_only_up; [done|by rewrite Hrx2]).
  destruct abort.
  - destruct Hdown as (Htx & Ha & Hw). destruct (Hnone Hw) as [-> ->]. exists c1, (sock_abort s1).
    cbn [abort_drain]. rewrite Hw. split; [done|]. split_and!; [done..|by left|]. exists s1. split; [done|]. by right; left.
  - destruct (gone && bool_decide (tc_write_pending c2 = None)) eqn:Hg.
    + apply andb_true_iff in Hg as [-> Hw%bool_decide_eq_true_1]. destruct (Hgone eq_refl) as [Hin Hal].
      exists c2, (sock_close s2). split; [done|]. split_and!; [done..|by left|]. exists s2. split; [done|]. right; right.
      split_and!; [done..|]. rewrite <- Hdown, <- Hdn. unfold down, write_rest. rewrite Hw, Hin2, Hin. cbn [in_data app].
      by rewrite app_nil_r.
    + destruct (read_guest_spec c2 s2 Hok2) as (c3 & s3 & Hr & (Hs3 & Hd3 & Hok3 & Hp3 & _) & Hu3 & Hdn3). rewrite Hr.
      exists c3, s3. split; [done|]. split_and!; [by rewrite Hs3|by rewrite Hd3|done|by rewrite <- Hp|].
      exists s3. split; [by rewrite Hu3|]. left. split; [done|]. by rewrite Hdn3, Hdn.
Qed.

(** ** A pass over all connections *)

Lemma relay_fold l conns sockets :
  NoDup l.*1 → Forall (λ hc, is_Some (sockets !! hc.1) ∧ conn_ok hc.2) l → (∀ h, h ∈ l.*1 → conns !! h = None) →
  ∃ conns' sockets', foldl relay_one (Some (conns, sockets)) l = Some (conns', sockets') ∧
    (∀ h, h ∉ l.*1 → conns' !! h = conns !! h ∧ sockets' !! h = sockets !! h) ∧
    (∀ h c s, (h, c) ∈ l → sockets !! h = Some s →
      ∃ c' s', conns' !! h = Some c' ∧ sockets' !! h = Some s' ∧ relayed c s c' s').
Proof.
  revert conns sockets. induction l as [|[h c] l IH]; intros conns sockets Hnd Hall Hfresh.
  { exists conns, sockets. split; [done|]. split; [done|]. by intros ??? ?%not_elem_of_nil. }
  cbn [foldl]. apply NoDup_cons in Hnd as [Hnot Hnd]. apply Forall_cons in Hall as [[[s Hs] Hok] Hall]. cbn [fst snd] in *.
  assert (∃ c' s', relay_one (Some (conns, sockets)) (h, c) = Some (<[h := c']> conns, <[h := s']> sockets) ∧
                   relayed c s c' s') as (c' & s' & -> & Hrel).
  { unfold relay_one. cbn [mbind option_bind fst snd]. destruct (tc_spawned c).
    - destruct (relay_conn_spec c s Hok) as (c' & s' & Hr & Hrel). exists c', s'. split; [|done].
      cbn [negb]. rewrite Hs. cbn [mbind option_bind]. by rewrite Hr.
    - exists c, s. split; [|by apply relayed_refl]. cbn [negb]. by rewrite (insert_id sockets h s). }
  assert (∀ k, k ∈ l.*1 → k ≠ h) as Hne by (by intros k Hk ->).
  destruct (IH (<[h := c']> conns) (<[h := s']> sockets)) as (conns' & sockets' & -> & Hout & Hin); [done| | |].
  - apply Forall_forall. intros [k d] Hkd. apply (proj1 (Forall_forall _ _) Hall) in Hkd as Hk. destruct Hk as [Hk Hd].
    split; [|done]. cbn [fst] in *. rewrite lookup_insert_ne; [done|].
    intros <-. by apply (Hne h); [apply list_elem_of_fmap; by exists (h, d)|].
  - intros k Hk. rewrite lookup_insert_ne by (intros <-; by apply (Hne h)). apply Hfresh. by right.
  - exists conns', sockets'. split; [done|]. split.
    + intros k Hk. apply not_elem_of_cons in Hk as [Hkh Hk]. destruct (Hout k Hk) as [-> ->]. by rewrite !lookup_insert_ne by done.
    + intros k d t Hkd Ht. apply list_elem_of_In in Hkd. destruct Hkd as [[= <- <-]|Hkd%list_elem_of_In].
      * rewrite Hs in Ht. injection Ht as <-. destruct (Hout h Hnot) as [-> ->]. rewrite !lookup_insert_eq. by exists c', s'.
      * apply (Hin k d t Hkd). rewrite lookup_insert_ne; [done|]. intros <-. apply (Hne h); [|done].
        apply list_elem_of_fmap. by exists (h, d).
Qed.

(** ** The tracker's invariant *)

Definition conn_key (c : TcpConn) : SocketAddr * SocketAddr := (tc_src c, tc_dst c).

(** Every connection has its socket, the keys are the connections' pairs, no
    pair twice, and the table stays within its cap. *)
Record tracker_ok (t : TcpTracker) (sockets : SocketSet) : Prop := {
  to_conns : ∀ h c, tt_conns t !! h = Some c → is_Some (sockets !! h) ∧ conn_ok c;
  to_keys : ∀ k, k ∈ tt_keys t ↔ ∃ h c, tt_conns t !! h = Some c ∧ conn_key c = k;
  to_inj : ∀ h1 h2 c1 c2, tt_conns t !! h1 = Some c1 → tt_conns t !! h2 = Some c2 → conn_key c1 = conn_key c2 → h1 = h2;
  to_size : size (tt_conns t) ≤ MAX_TCP_CONNS;
}.

(** Connections that change in place keep the invariant. *)
Definition in_place (conns conns' : gmap nat TcpConn) : Prop :=
  dom conns' = dom conns ∧
  ∀ h c c', conns !! h = Some c → conns' !! h = Some c' → conn_key c' = conn_key c ∧ conn_ok c'.

Lemma in_place_back conns conns' h c' : in_place conns conns' → conns' !! h = Some c' →
  ∃ c, conns !! h = Some c ∧ conn_key c' = conn_key c ∧ conn_ok c'.
Proof.
  intros [Hd Hp] Hc. assert (h ∈ dom conns) as [c Hl]%elem_of_dom by (rewrite <- Hd; by apply elem_of_dom).
  exists c. split; [done|]. by eapply Hp.
Qed.
Lemma in_place_there conns conns' h c : in_place conns conns' → conns !! h = Some c →
  ∃ c', conns' !! h = Some c' ∧ conn_key c' = conn_key c.
Proof.
  intros [Hd Hp] Hc. assert (h ∈ dom conns') as [c' Hl]%elem_of_dom by (rewrite Hd; by apply elem_of_dom).
  exists c'. split; [done|]. by eapply Hp.
Qed.

Lemma tracker_ok_in_place t conns' sockets sockets' :
  tracker_ok t sockets → in_place (tt_conns t) conns' → (∀ h, is_Some (sockets !! h) → is_Some (sockets' !! h)) →
  tracker_ok {| tt_conns := conns'; tt_keys := tt_keys t |} sockets'.
Proof.
  intros [Hc Hk Hi Hs] Hp Hsock. split; cbn [tt_conns tt_keys].
  - intros h c' Hc'. destruct (in_place_back _ _ _ _ Hp Hc') as (c & Hl & _ & Ho). split; [|done]. by apply Hsock; eapply Hc.
  - intros k. rewrite Hk. split; intros (h & c & Hl & <-).
    + destruct (in_place_there _ _ _ _ Hp Hl) as (c' & ? & ?). by exists h, c'.
    + destruct (in_place_back _ _ _ _ Hp Hl) as (c' & ? & ? & _). by exists h, c'.
  - intros h1 h2 c1 c2 H1 H2 He. destruct (in_place_back _ _ _ _ Hp H1) as (d1 & ? & E1 & _).
    destruct (in_place_back _ _ _ _ Hp H2) as (d2 & ? & E2 & _). rewrite E1, E2 in He. by eapply Hi.
  - rewrite <- size_dom, (proj1 Hp), size_dom. done.
Qed.

Lemma relay_spec t sockets : tracker_ok t sockets →
  ∃ conns' sockets', relay t sockets = Some ({| tt_conns := conns'; tt_keys := tt_keys t |}, sockets') ∧
    dom conns' = dom (tt_conns t) ∧
    (∀ h, h ∉ dom (tt_conns t) → sockets' !! h = sockets !! h) ∧
    ∀ h c s, tt_conns t !! h = Some c → sockets !! h = Some s →
      ∃ c' s', conns' !! h = Some c' ∧ sockets' !! h = Some s' ∧ relayed c s c' s'.
Proof.
  intros Hok. unfold relay.
  assert (∀ h, h ∈ (map_to_list (tt_conns t)).*1 ↔ h ∈ dom (tt_conns t)) as Hmem.
  { intros h. rewrite elem_of_dom. split.
    - intros ([k c] & -> & Hl%elem_of_map_to_list)%list_elem_of_fmap. by exists c.
    - intros [c Hc]. apply list_elem_of_fmap. exists (h, c). split; [done|]. by apply elem_of_map_to_list. }
  destruct (relay_fold (map_to_list (tt_conns t)) ∅ sockets) as (conns' & sockets' & Hf & Hout & Hin);
    [apply NoDup_fst_map_to_list| |by intros; rewrite lookup_empty|].
  { apply Forall_forall. intros [h c] Hl%elem_of_map_to_list. by eapply to_conns. }
  rewrite Hf. exists conns', sockets'. split; [done|].
  assert (∀ h c s, tt_conns t !! h = Some c → sockets !! h = Some s →
    ∃ c' s', conns' !! h = Some c' ∧ sockets' !! h = Some s' ∧ relayed c s c' s') as Hrel.
  { intros h c s Hc Hs. eapply Hin; [by apply elem_of_map_to_list|done]. }
  split_and!; [|intros h Hh; apply Hout; by rewrite Hmem|done].
  apply set_eq. intros h. destruct (decide (h ∈ dom (tt_conns t))) as [Hd|Hd].
  - split; [done|intros _]. apply elem_of_dom in Hd as [c Hc]. destruct (to_conns _ _ Hok _ _ Hc) as [[s Hs] _].
    destruct (Hrel h c s Hc Hs) as (c' & s' & Hl & _). by apply elem_of_dom.
  - split; [|done]. rewrite <- Hmem in Hd. destruct (Hout h Hd) as [Hl _]. rewrite lookup_empty in Hl.
    by intros [c Hc]%elem_of_dom; rewrite Hl in Hc.
Qed.

Lemma relay_ok t sockets : tracker_ok t sockets →
  ∃ t' sockets', relay t sockets = Some (t', sockets') ∧ tracker_ok t' sockets'.
Proof.
  intros Hok. destruct (relay_spec t sockets Hok) as (conns' & sockets' & Hr & Hd & Hout & Hrel).
  exists {| tt_conns := conns'; tt_keys := tt_keys t |}, sockets'. split; [done|].
  eapply tracker_ok_in_place; [done| |].
  - split; [done|]. intros h c c' Hc Hc'. destruct (to_conns _ _ Hok _ _ Hc) as [[s Hs] _].
    destruct (Hrel h c s Hc Hs) as (c2 & s2 & Hc2 & _ & (Hsrc & Hdst & Ho & _)). rewrite Hc' in Hc2. injection Hc2 as <-.
    split; [|done]. unfold conn_key. by rewrite Hsrc, Hdst.
  - intros h [s Hs]. destruct (decide (h ∈ dom (tt_conns t))) as [[c Hc]%elem_of_dom|Hn].
    + destruct (Hrel h c s Hc Hs) as (c2 & s2 & _ & Hs2 & _). by exists s2.
    + rewrite Hout by done. by exists s.
Qed.

Lemma take_new_ok t sockets : tracker_ok t sockets →
  ∃ new t', take_new t sockets = Some (new, t') ∧ tracker_ok t' sockets.
Proof.
  intros Hok. unfold take_new. rewrite bool_decide_eq_true_2 by (intros h c Hc _; by eapply to_conns).
  eexists _, _. split; [done|]. eapply tracker_ok_in_place; [done| |done].
  assert (∀ h c, conn_key (take_new_conn sockets h c) = conn_key c ∧ (conn_ok c → conn_ok (take_new_conn sockets h c))) as Hk.
  { intros h c. unfold take_new_conn. destruct (sockets !! h); [|done]. case_match; [|done]. split; [done|]. by intros (?&?&?&?). }
  split.
  - apply dom_imap_L. intros h. rewrite elem_of_dom. unfold is_Some. naive_solver.
  - intros h c c' Hc. rewrite map_lookup_imap, Hc. intros [= <-]. split; [apply Hk|]. apply Hk. by eapply to_conns.
Qed.

Lemma cleanup_ok t sockets : tracker_ok t sockets →
  ∃ t' sockets', cleanup t sockets = Some (t', sockets') ∧ tracker_ok t' sockets'.
Proof.
  intros Hok. unfold cleanup. rewrite bool_decide_eq_true_2 by (intros h c Hc; by eapply to_conns).
  eexists _, _. split; [done|]. destruct Hok as [Hc Hk Hi Hs]. split; cbn [tt_conns tt_keys].
  - intros h c [Hl Ha]%map_lookup_filter_Some. destruct (Hc _ _ Hl) as [[s Hsk] Ho]. split; [|done]. exists s.
    apply map_lookup_filter_Some. split; [done|]. cbn [fst]. apply map_lookup_filter_None. right. intros d _ Hd. cbn [fst] in *. congruence.
  - intros k. rewrite elem_of_difference, elem_of_list_to_set, Hk. split.
    + intros [(h & c & Hl & <-) Hn]. exists h, c. split; [|done]. apply map_lookup_filter_Some. split; [done|]. cbn [fst].
      apply not_true_is_false. intros Hd. apply Hn, list_elem_of_fmap. exists (h, c). split; [done|].
      apply elem_of_map_to_list, map_lookup_filter_Some. done.
    + intros (h & c & [Hl Ha]%map_lookup_filter_Some & <-). split; [by exists h, c|].
      intros ([h2 d] & He & [Hd Hx]%elem_of_map_to_list%map_lookup_filter_Some)%list_elem_of_fmap. cbn [fst snd] in *.
      assert (h = h2) as <- by (by eapply Hi). congruence.
  - intros h1 h2 c1 c2 [H1 _]%map_lookup_filter_Some [H2 _]%map_lookup_filter_Some. by eapply Hi.
  - etrans; [|exact Hs]. rewrite <- !size_dom. apply subseteq_size, dom_filter_subseteq.
Qed.

Lemma create_socket_ok t src dst sockets handle ok t' sockets' :
  tracker_ok t sockets → has_socket_for t src dst = false → sockets !! handle = None →
  create_socket t src dst sockets handle = (ok, t', sockets') → tracker_ok t' sockets'.
Proof.
  intros [Hc Hk Hi Hs] Hnew%bool_decide_eq_false_1 Hfree. unfold create_socket.
  destruct (Nat.leb_spec MAX_TCP_CONNS (size (tt_conns t))) as [|Hlt]; [by intros [= <- <- <-]|].
  destruct (sock_listen dst) as [sk|]; intros [= <- <- <-]; [|done].
  assert (tt_conns t !! handle = None) as Hh.
  { destruct (tt_conns t !! handle) as [c|] eqn:Hl; [|done]. destruct (Hc _ _ Hl) as [[s Hx] _]. congruence. }
  assert (∀ h c, tt_conns t !! h = Some c → conn_key c ≠ (src, dst)) as Hne.
  { intros h c Hl He. apply Hnew, Hk. by exists h, c. }
  split; cbn [tt_conns tt_keys].
  - intros h c [[<- <-]|[Hn Hl]]%lookup_insert_Some.
    + rewrite lookup_insert_eq. split; [done|]. split_and!; [done|cbn; lia|apply Forall_nil_2|done].
    + rewrite lookup_insert_ne by done. by eapply Hc.
  - intros k. rewrite elem_of_union, elem_of_singleton, Hk. split.
    + intros [->|(h & c & Hl & <-)]; [exists handle, (new_conn src dst); by rewrite lookup_insert_eq|].
      exists h, c. split; [|done]. rewrite lookup_insert_ne; [done|congruence].
    + intros (h & c & [[_ <-]|[_ Hl]]%lookup_insert_Some & <-); [by left|right; by exists h, c].
  - intros h1 h2 c1 c2 [[<- <-]|[Hn1 Hl1]]%lookup_insert_Some [[<- <-]|[Hn2 Hl2]]%lookup_insert_Some He; [done|..].
    + symmetry in He. by destruct (Hne _ _ Hl2).
    + by destruct (Hne _ _ Hl1).
    + by eapply Hi.
  - rewrite map_size_insert_None by done. lia.
Qed.

(** ** The gateway's runs *)

(** What a connection's task does to its channels: it receives a chunk, sends
    a message, or drops an end. *)
Inductive task_step : TcpConn → TcpConn → Prop :=
| TaskReceives c data q : tc_out c = data :: q → task_step c (with_out c q (tc_read_pending c))
| TaskSends c m : length (tc_in c) < CHANNEL_CAP → tc_in_alive c = true → task_step c (with_in c (tc_in c ++ [m]))
| TaskDrops c out_alive in_alive :
    task_step c {| tc_src := tc_src c; tc_dst := tc_dst c; tc_to_proxy := tc_to_proxy c; tc_out := tc_out c;
                   tc_out_alive := out_alive && tc_out_alive c; tc_in := tc_in c; tc_in_alive := in_alive && tc_in_alive c;
                   tc_channels := tc_channels c; tc_spawned := tc_spawned c; tc_read_pending := tc_read_pending c;
                   tc_write_pending := tc_write_pending c |}.

(** What a UDP session's task does: it takes datagrams, or ends. *)
Definition udp_step (s s' : UdpSession) : Prop :=
  us_upstream s' = us_upstream s ∧ ∃ sent, us_queue s = sent ++ us_queue s'.

Definition with_conn (g : Gateway) (h : nat) (c : TcpConn) : Gateway :=
  {| gw_rx := gw_rx g; gw_tracker := {| tt_conns := <[h := c]> (tt_conns (gw_tracker g)); tt_keys := tt_keys (gw_tracker g) |};
     gw_sockets := gw_sockets g; gw_udp := gw_udp g |}.
Definition with_session (g : Gateway) (k : SocketAddr * SocketAddr) (s : UdpSession) : Gateway :=
  {| gw_rx := gw_rx g; gw_tracker := gw_tracker g; gw_sockets := gw_sockets g; gw_udp := <[k := s]> (gw_udp g) |}.

(** The loop's steps and its tasks', in any order. The stack's own work before
    a round may leave the sockets in any state, but adds and removes none. *)
Inductive gw_step (dns : SocketAddr) : Gateway → Gateway → Prop :=
| GwIngress g packet handle : gw_sockets g !! handle = None → gw_step dns g (ingress dns g packet handle)
| GwRound g polled rx new g' : dom polled = dom (gw_sockets g) → round g polled rx = Some (new, g') → gw_step dns g g'
| GwTask g h c c' : tt_conns (gw_tracker g) !! h = Some c → task_step c c' → gw_step dns g (with_conn g h c')
| GwSession g k s s' : gw_udp g !! k = Some s → udp_step s s' → gw_step dns g (with_session g k s').

Definition gateway_start : Gateway :=
  {| gw_rx := []; gw_tracker := {| tt_conns := ∅; tt_keys := ∅ |}; gw_sockets := ∅; gw_udp := ∅ |}.

Definition gateway_ok (dns : SocketAddr) (g : Gateway) : Prop :=
  tracker_ok (gw_tracker g) (gw_sockets g) ∧ table_ok dns (gw_udp g).

Lemma round_ok dns g polled rx : gateway_ok dns g → dom polled = dom (gw_sockets g) →
  ∃ new g', round g polled rx = Some (new, g') ∧ gateway_ok dns g'.
Proof.
  intros [Ht Hu] Hd. unfold round.
  assert (tracker_ok (gw_tracker g) polled) as Hp.
  { destruct Ht as [Hc Hk Hi Hs]. split; [|done..]. intros h c Hl. destruct (Hc _ _ Hl) as [Hs' Ho]. split; [|done].
    apply elem_of_dom. rewrite Hd. by apply elem_of_dom. }
  destruct (relay_ok _ _ Hp) as (t1 & s1 & -> & H1). cbn [mbind option_bind].
  destruct (take_new_ok _ _ H1) as (new & t2 & -> & H2). cbn [mbind option_bind].
  destruct (cleanup_ok _ _ H2) as (t3 & s3 & -> & H3). eexists _, _. split; [done|]. by split.
Qed.

Lemma ingress_ok dns g packet handle : gateway_ok dns g → gw_sockets g !! handle = None → gateway_ok dns (ingress dns g packet handle).
Proof.
  intros [Ht Hu] Hfree. unfold ingress. destruct (classify_packet packet) as [src dst syn|src dst payload|]; [| |by split].
  - destruct (syn && negb (has_socket_for (gw_tracker g) src dst)) eqn:Hnew; [|by split].
    apply andb_true_iff in Hnew as [_ Hnew%negb_true_iff].
    destruct (create_socket _ _ _ _ _) as [[ok t'] s'] eqn:Hcs. split; [|done]. by eapply create_socket_ok.
  - destruct (N.eqb_spec dst.2 443) as [|Hq]; [by split|]. split; [done|]. by apply forward_udp_ok.
Qed.

Lemma task_step_ok c c' : task_step c c' → conn_ok c → conn_ok c' ∧ conn_key c' = conn_key c.
Proof.
  intros Hs (Hw & Hl & Hf & Hr). destruct Hs as [c data q Ho| |]; (split; [|done]); split_and!; try done; cbn [with_out tc_out].
  - rewrite Ho in Hl. simpl in Hl. lia.
  - rewrite Ho in Hf. by apply Forall_cons in Hf as [_ ?].
Qed.

Lemma gw_step_ok dns g g' : gw_step dns g g' → gateway_ok dns g → gateway_ok dns g'.
Proof.
  intros Hs Hok. destruct Hs as [g packet handle Hf|g polled rx new g' Hd Hr|g h c c' Hl Hs|g k s s' Hl [Hup [sent Hq]]].
  - by apply ingress_ok.
  - destruct (round_ok dns g polled rx Hok Hd) as (n2 & g2 & Hr2 & Hok2). rewrite Hr in Hr2. by injection Hr2 as <- <-.
  - destruct Hok as [Ht Hu]. split; [|done]. eapply tracker_ok_in_place; [done| |done].
    assert (∀ d, tt_conns (gw_tracker g) !! h = Some d → conn_ok d) as Hc by (intros d Hd; by eapply to_conns).
    split; [apply dom_insert_lookup_L; by exists c|]. intros k d d' Hd [[<- <-]|[_ Hd']]%lookup_insert_Some.
    + rewrite Hl in Hd. injection Hd as <-. destruct (task_step_ok _ _ Hs (Hc _ Hl)) as [? ->]. done.
    + rewrite Hd in Hd'. injection Hd' as <-. split; [done|]. by eapply to_conns.
  - destruct Hok as [Ht [Hsz Hall]]. split; [done|]. cbn [with_session gw_udp]. split; [by rewrite map_size_insert_Some by (by exists s)|].
    apply map_Forall_insert_2; [|done]. destruct (Hall _ _ Hl) as (Hu & Hp & Hc). split_and!; [by rewrite Hup|done|].
    rewrite Hq, length_app in Hc. lia.
Qed.

(** The drain in front of an abort never has anything to do: the abort is only
    read when no write is pending. *)
Lemma abort_drain_never_runs fuel c s gone c1 s1 c2 s2 :
  conn_ok c → drain_task fuel c s = Some (true, gone, c1, s1) → finish_write c1 s1 = (c2, s2) →
  abort_drain 0 c2 s2 = Some (c1, s1).
Proof.
  intros Hok Hd Hf. apply drain_task_spec in Hd as (_ & _ & Hok1 & (_ & _ & Hw) & _); [|done].
  apply finish_write_spec in Hf as (_ & _ & _ & _ & _ & Hn); [|done]. destruct (Hn Hw) as [-> ->].
  cbn [abort_drain]. by rewrite Hw.
Qed.

(** C32: Whatever packets arrive, however the stack drives the sockets and in
    whatever order the tasks run: every tracked connection keeps its socket,
    its pair is in the key set and no other connection's, at most
    [MAX_TCP_CONNS] connections and [MAX_UDP_SESSIONS] sessions exist, queues
    stay within their capacity, DNS sessions point at the resolver and QUIC has
    none; and no round panics on a missing socket or runs without end. *)
Theorem gateway_invariant dns g : rtc (gw_step dns) gateway_start g →
  gateway_ok dns g ∧ ∀ polled rx, dom polled = dom (gw_sockets g) → is_Some (round g polled rx).
Proof.
  intros Hrun.
  assert (gateway_ok dns g) as Hok.
  { revert Hrun. apply (rtc_ind_r (gateway_ok dns)).
    - split; [|split; [cbn [gateway_start gw_udp]; rewrite map_size_empty; lia|apply map_Forall_empty]]. split; cbn [gateway_start gw_tracker tt_conns tt_keys gw_sockets].
      + intros h c. by rewrite lookup_empty.
      + intros k. split; [set_solver|]. intros (h & c & Hc & _). by rewrite lookup_empty in Hc.
      + intros h1 h2 c1 c2. by rewrite lookup_empty.
      + rewrite map_size_empty. lia.
    - intros y z _ Hs Hy. by eapply gw_step_ok. }
  split; [done|]. intros polled rx Hd. destruct (round_ok dns g polled rx Hok Hd) as (new & g' & -> & _). done.
Qed.

(** A relay pass treats every tracked connection and only those: no byte
    of either direction is lost, repeated or reordered, the socket is aborted
    or closed only once everything the task sent before is in it, and the
    task's end of stream comes only after all the guest sent. *)
Theorem relay_conserves t sockets : tracker_ok t sockets →
  ∃ t' sockets', relay t sockets = Some (t', sockets') ∧ tt_keys t' = tt_keys t ∧ dom (tt_conns t') = dom (tt_conns t) ∧
    (∀ h, h ∉ dom (tt_conns t) → sockets' !! h = sockets !! h) ∧
    ∀ h c s, tt_conns t !! h = Some c → sockets !! h = Some s →
      ∃ c' s', tt_conns t' !! h = Some c' ∧ sockets' !! h = Some s' ∧ relayed c s c' s'.
Proof. intros Hok. destruct (relay_spec t sockets Hok) as (conns' & sockets' & -> & Hrest). by eexists _, _. Qed.
End ConnFacts.

(** ** The task's stream *)

Definition cs_bytes (cs : ChanStream) : bytes :=
  match cs_pending cs with Some (data, pos) => drop pos data | None => [] end ++ concat (cs_rx cs).
(** A pending chunk has bytes left, and no queued chunk is empty. *)
Definition cs_ok (cs : ChanStream) : Prop :=
  (∀ data pos, cs_pending cs = Some (data, pos) → pos < length data) ∧ Forall (.≠ []) (cs_rx cs).

(** Reading the task's stream gives the queued bytes in order, at most as
    many as there is room for; it waits only when nothing is left and the
    sender lives, and with room it reads nothing only at the end. *)
Theorem poll_read_in_order cs n r cs' : cs_ok cs → poll_read cs n = (r, cs') →
  cs_ok cs' ∧ default [] r ++ cs_bytes cs' = cs_bytes cs ∧ length (default [] r) ≤ n ∧
  (r = None → cs_bytes cs = [] ∧ cs_rx_alive cs = true) ∧
  (r = Some [] → 0 < n → cs_bytes cs = [] ∧ cs_rx_alive cs = false).
Proof.
  intros [Hp Hf] Hr. unfold poll_read in Hr.
  assert (∀ rx data pos, pos < length data → Forall (.≠ []) rx →
    let '(b, cs2) := read_chunk rx (cs_rx_alive cs) data pos n in
    cs_ok cs2 ∧ b ++ cs_bytes cs2 = drop pos data ++ concat rx ∧ length b ≤ n ∧ (b = [] → n = 0)) as Hchunk.
  { intros rx data pos Hlt Hrx. unfold read_chunk. set (k := Nat.min (length data - pos) n). split_and!.
    - split; [|done]. cbn [cs_pending]. destruct (Nat.leb_spec (length data) (pos + k)); [done|]. by intros d p [= <- <-].
    - unfold cs_bytes. cbn [cs_pending cs_rx]. rewrite app_assoc. f_equal.
      destruct (Nat.leb_spec (length data) (pos + k)); [rewrite app_nil_r; apply take_ge; rewrite length_drop; lia|].
      by rewrite <- drop_drop, take_drop.
    - rewrite length_take. lia.
    - intros Hb. apply (f_equal length) in Hb. rewrite length_take, length_drop in Hb. simpl in Hb. lia. }
  assert (∀ rx data pos b cs2, cs_bytes cs = drop pos data ++ concat rx → pos < length data → Forall (.≠ []) rx →
    read_chunk rx (cs_rx_alive cs) data pos n = (b, cs2) →
    cs_ok cs2 ∧ b ++ cs_bytes cs2 = cs_bytes cs ∧ length b ≤ n ∧ (Some b = None → cs_bytes cs = [] ∧ cs_rx_alive cs = true) ∧
    (Some b = Some [] → 0 < n → cs_bytes cs = [] ∧ cs_rx_alive cs = false)) as Hgo.
  { intros rx data pos b cs2 -> Hlt Hrx Hrc. specialize (Hchunk rx data pos Hlt Hrx). rewrite Hrc in Hchunk.
    destruct Hchunk as (? & ? & ? & Hz). split_and!; [done..|]. intros [= ->] Hn. specialize (Hz eq_refl). lia. }
  destruct (cs_pending cs) as [[data pos]|] eqn:Hpend.
  - destruct (read_chunk (cs_rx cs) (cs_rx_alive cs) data pos n) as [b cs2] eqn:Hrc. injection Hr as <- <-.
    apply (Hgo (cs_rx cs) data pos); [unfold cs_bytes; by rewrite Hpend|by apply Hp|done|done].
  - destruct (cs_rx cs) as [|data rx] eqn:Hrx.
    + destruct (cs_rx_alive cs) eqn:Hal; injection Hr as <- <-; unfold cs_bytes; rewrite Hpend, Hrx;
        (split; [by split; [rewrite Hpend|rewrite Hrx]|]); cbn; split_and!; (done || lia).
    + apply Forall_cons in Hf as [Hd Hf]. destruct (read_chunk rx (cs_rx_alive cs) data 0 n) as [b cs2] eqn:Hrc.
      injection Hr as <- <-. apply (Hgo rx data 0); [unfold cs_bytes; by rewrite Hpend, Hrx|destruct data; [done|cbn; lia]|done|done].
Qed.

(** ** Concrete sockets *)

(** A socket that takes four bytes at a time and gives what it has. *)
#[local] Instance sample_smoltcp : Smoltcp := {|
  Sock := TcpState * bytes * bytes;
  sock_listen dst := if (dst.2 =? 0)%N then None else Some (Listen, [], []);
  sock_state s := s.1.1;
  can_send s := bool_decide (length s.1.2 < 8);
  send_slice s data := (Some (length (take 4 data)), (s.1.1, s.1.2 ++ take 4 data, s.2));
  can_recv s := bool_decide (s.2 ≠ []);
  recv_slice s n := (Some (take n s.2), (s.1.1, s.1.2, drop n s.2));
  sock_abort s := (Closed, [], s.2);
  sock_close s := (FinWait1, s.1.2, s.2);
|}.
#[local] Instance sample_smoltcp_laws : SmoltcpLaws.
Proof.
  refine {| tx_bytes := λ s : Sock, s.1.2; rx_bytes := λ s : Sock, s.2 |}.
  - intros s data r s' [= <- <-]. cbn. rewrite length_take. split_and!; [|lia|done].
    f_equal. destruct (Nat.le_gt_cases 4 (length data)); [by rewrite Nat.min_l|]. by rewrite Nat.min_r, !take_ge by lia.
  - intros s n r s' [= <- <-]. cbn. by rewrite take_drop.
Defined.

Definition sample_guest : SocketAddr := (V4 (map byte_of [10; 0; 0; 2]%N), 40000%N).
Definition sample_server : SocketAddr := (V4 (map byte_of [93; 184; 216; 34]%N), 80%N).
(** A SYN from the guest to the server, without payload. *)
Definition sample_syn : bytes :=
  map byte_of ([69; 0; 0; 40; 0; 0; 0; 0; 64; 6; 0; 0; 10; 0; 0; 2; 93; 184; 216; 34] ++
               [156; 64; 0; 80; 0; 0; 0; 0; 0; 0; 0; 0; 80; 2; 0; 0; 0; 0; 0; 0])%N.
Definition sample_gateway : Gateway := ingress sample_server gateway_start sample_syn 0.

Lemma gateway_invariant_witness :
  tt_conns (gw_tracker sample_gateway) = {[0 := new_conn sample_guest sample_server]} ∧
  gateway_ok sample_server sample_gateway ∧
  ∀ polled rx, dom polled = dom (gw_sockets sample_gateway) → is_Some (round sample_gateway polled rx).
Proof.
  split; [by vm_compute|].
  apply (gateway_invariant sample_server sample_gateway). apply rtc_once. by apply GwIngress.
Defined.

(** A started connection: "hello, guest" and an abort from the task, "hi" from
    the guest. *)
Definition sample_conn : TcpConn :=
  with_ends (with_in (new_conn sample_guest sample_server) [Data (bs "hey"); Data (bs "you"); Abort]) true false true.
Definition sample_tracker : TcpTracker :=
  {| tt_conns := {[0 := sample_conn]}; tt_keys := {[(sample_guest, sample_server)]} |}.
Lemma sample_tracker_ok : tracker_ok sample_tracker {[0 := (Established, [], bs "hi")]}.
Proof.
  split; cbn [sample_tracker tt_conns tt_keys].
  - intros h c [<- <-]%lookup_singleton_Some. split; [done|]. split_and!; [done|cbn; lia|apply Forall_nil_2|done].
  - intros k. rewrite elem_of_singleton. split.
    + intros ->. exists 0, sample_conn. by rewrite lookup_singleton_eq.
    + by intros (h & c & [<- <-]%lookup_singleton_Some & <-).
  - by intros h1 h2 c1 c2 [<- <-]%lookup_singleton_Some [<- <-]%lookup_singleton_Some.
  - rewrite map_size_singleton. unfold MAX_TCP_CONNS. lia.
Qed.

Lemma relay_conserves_witness :
  tracker_ok sample_tracker {[0 := (Established, [], bs "hi")]} ∧
  ∃ t' sockets', relay sample_tracker {[0 := (Established, [], bs "hi")]} = Some (t', sockets') ∧
    (∃ c' s', tt_conns t' !! 0 = Some c' ∧ sockets' !! 0 = Some s' ∧ relayed sample_conn (Established, [], bs "hi") c' s').
Proof.
  split; [apply sample_tracker_ok|].
  destruct (relay_conserves sample_tracker {[0 := (Established, [], bs "hi")]} sample_tracker_ok) as (t' & s' & Hr & _ & _ & _ & Hrel).
  exists t', s'. split; [exact Hr|]. by apply Hrel.
Defined.

Lemma poll_read_in_order_witness :
  let cs := {| cs_rx := [bs "lo"]; cs_rx_alive := true; cs_pending := Some (bs "hel", 1) |} in
  cs_ok cs ∧ ∃ r cs', poll_read cs 8 = (r, cs') ∧ default [] r ++ cs_bytes cs' = bs "ello".
Proof.
  intros cs. assert (cs_ok cs) as Hok by (split; [intros d p [= <- <-]; cbn; lia|by apply Forall_singleton]).
  split; [exact Hok|]. eexists _, _. split; [reflexivity|].
  exact (proj1 (proj2 (poll_read_in_order cs 8 _ _ Hok eq_refl))).
Defined.
