(* ===== verification/Bypass.v ===== *)
(** * eBPF capture: the bypass list and the configuration

    The loader's half of [crates/hodor-ebpf/src/lib.rs] that decides what the
    programs leave alone: parsing CIDRs and the bypass file, merging the three
    tiers, building the [Config] map entry and following the file. What the
    kernel and the file system answer, and whether a map write succeeds, are
    inputs. An [Ipv4Addr] is its 32-bit value; its octets are [be32] of it. *)

From S2P Require Import Prelude.
From stdpp Require Import sorting.

Definition TCP_LISTEN_PORT : N := 15000.
Definition UDP_LISTEN_PORT : N := 15001.
(** [MAX_BYPASS], shared with the programs. *)
Definition MAX_BYPASS : nat := 8.

Abbreviation Ipv4Addr := N.
Abbreviation Cidr := (Ipv4Addr * N)%type.

(** ** Parsing *)

(** One group of [Ipv4Addr::from_str]: one to three digits, no leading zero. *)
Definition parse_octet (group : bytes) : option N :=
  if (1 <? length group) && bool_decide (head group = Some Byte.x30) then None
  else if 3 <? length group then None
  else if forallb is_digit group then from_str_radix 255 10 group else None.
(** [addr.parse::<Ipv4Addr>()]. *)
Definition parse_ipv4 (s : bytes) : option Ipv4Addr :=
  if 15 <? length s then None
  else match split_byte Byte.x2e s with
       | [a; b; c; d] =>
           a ← parse_octet a; b ← parse_octet b; c ← parse_octet c; d ← parse_octet d;
           Some (((a * 256 + b) * 256 + c) * 256 + d)%N
       | _ => None
       end.

Inductive CidrError := MissingSlash | BadAddress | BadPrefix | PrefixRange.

Definition parse_bypass_cidr (s : bytes) : result CidrError Cidr :=
  '(addr, len) ← ok_or MissingSlash (split_once (bs "/") s);
  addr ← ok_or BadAddress (parse_ipv4 addr);
  len ← ok_or BadPrefix (from_str_radix 255 10 len);
  if (len =? 0)%N || (32 <? len)%N then Err PrefixRange else Ok (addr, len).

(** [content.lines()]: a line ends at a line feed, less a carriage return
    before it. *)
Definition bypass_line (line : bytes) : option Cidr :=
  let line := trim line in
  if bool_decide (line = []) || starts_with line (bs "#") then None
  else match parse_bypass_cidr line with Ok cidr => Some cidr | Err _ => None end.
Definition parse_bypass_file (content : bytes) : list Cidr := omap bypass_line (str_lines content).

(** ** What the machine knows by itself *)

Definition AF_INET : N := 2.

(** [u32::from_be] and [u32::to_be], [u16::from_be] and [u16::to_be] on a
    little-endian machine: the bytes reversed. *)
Definition swap32 (n : N) : N := of_be (rev (be32 n)).
Definition swap16 (n : N) : N := of_be (rev (be16 n)).

(** [local_ipv4_addrs], over what [getifaddrs] lists: the family of each entry
    (0 without an address) and its [s_addr]. *)
Definition add_local (out : list Ipv4Addr) (entry : N * N) : list Ipv4Addr :=
  let addr := swap32 entry.2 in
  if negb (entry.1 =? AF_INET)%N then out
  else if negb (octet (be32 addr) 0 =? 127)%N && negb (bool_decide (addr ∈ out)) then out ++ [addr]
  else out.
Definition local_ipv4_addrs (ifaddrs : option (list (N * N))) : list Ipv4Addr :=
  match ifaddrs with Some entries => foldl add_local [] entries | None => [] end.

(** [content.split(sep)] for a non-empty [sep]. *)
Fixpoint split_str (fuel : nat) (sep s : bytes) : list bytes :=
  match fuel, split_once sep s with
  | S fuel, Some (part, rest) => part :: split_str fuel sep rest
  | _, _ => [s]
  end.
Definition quote : byte := Byte.x22.
Definition podman_subnets_in (content : bytes) : list Cidr :=
  omap (λ chunk,
    quoted ← split_byte quote chunk !! 1;
    match parse_bypass_cidr quoted with Ok cidr => Some cidr | Err _ => None end)
    (drop 1 (split_str (length content) ([quote] ++ bs "subnet" ++ [quote]) content)).
(** [podman_cidrs], over the directories that could be listed: each entry is
    whether its extension is [json], and its content when it could be read. *)
Definition podman_cidrs (dirs : list (list (bool * option bytes))) : list Cidr :=
  flat_map (flat_map (λ entry : bool * option bytes,
    if entry.1 then match entry.2 with Some content => podman_subnets_in content | None => [] end else [])) dirs.

(** ** Merging the tiers *)

(** [sort] of [(Ipv4Addr, u8)] pairs, then [dedup]. *)
Definition cidr_le (a b : Cidr) : Prop := (a.1 < b.1)%N ∨ (a.1 = b.1 ∧ (a.2 ≤ b.2)%N).
#[export] Instance cidr_le_dec a b : Decision (cidr_le a b).
Proof. unfold cidr_le. solve_decision. Defined.
Fixpoint dedup (l : list Cidr) : list Cidr :=
  match l with
  | a :: ((b :: _) as rest) => if decide (a = b) then dedup rest else a :: dedup rest
  | _ => l
  end.
Definition sort_dedup (l : list Cidr) : list Cidr := dedup (merge_sort cidr_le l).

(** [room] is [saturating_sub]; a tier that does not fit is cut. *)
Definition add_tier (out tier : list Cidr) : list Cidr :=
  let room := MAX_BYPASS - length out in
  if room <? length tier then out ++ take room tier else out ++ tier.

Definition build_bypass (local : list Ipv4Addr) (podman explicit file : list Cidr) : list Cidr :=
  let explicit := sort_dedup explicit in
  let file := filter (λ entry, entry ∉ explicit) (sort_dedup file) in
  let automatic := map (λ addr, (addr, 32%N)) local ++ podman in
  let automatic := filter (λ entry, entry ∉ explicit ∧ entry ∉ file) (sort_dedup automatic) in
  foldl add_tier explicit [file; automatic].

(** ** The configuration entry *)

Definition u32_max : N := 0xffffffff.
Definition mask_prefix (len : N) : N :=
  if (len =? 0)%N then 0%N
  else if (32 <=? len)%N then u32_max
  else N.land (N.shiftl u32_max (32 - len)) u32_max.

Record Config := {
  proxy_pid : N;
  proxy_cgroup : N;
  tcp_port : N;
  udp_port : N;
  netns_cookie : N;
  bypass_count : N;
  bypass_nets : list N;
  bypass_lens : list N;
}.

Inductive ConfigError :=
| ListenPortsZero
| TooManyBypasses (count : nat)
| InvalidBypassPrefix (prefix : N).

(** The loop over the entries of [Config::from_bypass], filling both arrays. *)
Fixpoint fill_bypass (i : nat) (bypass : list Cidr) (nets lens : list N) : result ConfigError (list N * list N) :=
  match bypass with
  | [] => Ok (nets, lens)
  | (addr, len) :: bypass =>
      if (len =? 0)%N || (32 <? len)%N then Err (InvalidBypassPrefix len)
      else fill_bypass (S i) bypass (<[i := N.land addr (mask_prefix len)]> nets) (<[i := len]> lens)
  end.
Definition from_bypass (pid cgroup tcp udp cookie : N) (bypass : list Cidr) : result ConfigError Config :=
  if (tcp =? 0)%N || (udp =? 0)%N then Err ListenPortsZero
  else if MAX_BYPASS <? length bypass then Err (TooManyBypasses (length bypass))
  else
    '(nets, lens) ← fill_bypass 0 bypass (replicate MAX_BYPASS 0%N) (replicate MAX_BYPASS 0%N);
    Ok {| proxy_pid := pid; proxy_cgroup := cgroup; tcp_port := tcp; udp_port := udp; netns_cookie := cookie;
          bypass_count := N.of_nat (length bypass); bypass_nets := nets; bypass_lens := lens |}.

(** ** Following the bypass file *)

(** What [read_to_string] answered. *)
Inductive FileRead := FileContent (raw : bytes) | FileMissing | FileUnreadable.

Definition read_bypass_file (read : FileRead) : list Cidr :=
  match read with
  | FileContent content => parse_bypass_file content
  | FileMissing | FileUnreadable => []
  end.

Record BypassWatch := {
  bw_explicit : list Cidr;
  bw_proxy_pid : N;
  bw_proxy_cgroup : N;
  bw_tcp_port : N;
  bw_udp_port : N;
  bw_netns_cookie : N;
}.

(** The local variables of [run], and the map entry it rewrites. *)
Record Watching := {
  w_last : list Cidr;
  w_last_raw : option bytes;
  w_config : option Config;
}.

(** One turn of the loop of [BypassWatch::run]; [write_ok] is whether
    [write_config_map] succeeds. *)
Definition watch_turn (bw : BypassWatch) (local : list Ipv4Addr) (podman : list Cidr) (read : FileRead)
    (write_ok : bool) (w : Watching) : Watching :=
  let apply raw :=
    if bool_decide (w_last_raw w = Some raw) then w
    else
      let merged := build_bypass local podman (bw_explicit bw) (parse_bypass_file raw) in
      let w := {| w_last := w_last w; w_last_raw := Some raw; w_config := w_config w |} in
      if bool_decide (merged = w_last w) then w
      else
        match from_bypass (bw_proxy_pid bw) (bw_proxy_cgroup bw) (bw_tcp_port bw) (bw_udp_port bw)
                (bw_netns_cookie bw) merged with
        | Ok config =>
            if write_ok then {| w_last := merged; w_last_raw := Some raw; w_config := Some config |} else w
        | Err _ => w
        end in
  match read with
  | FileContent raw => apply raw
  | FileMissing => apply []
  | FileUnreadable => w
  end.

(** The configuration part of [run_ebpf_with]: the startup entry, and the
    locals [run] starts with. *)
Definition configure (bw : BypassWatch) (bypass : list Cidr) : result ConfigError Config :=
  from_bypass (bw_proxy_pid bw) (bw_proxy_cgroup bw) (bw_tcp_port bw) (bw_udp_port bw) (bw_netns_cookie bw) bypass.
Definition start_capture (bw : BypassWatch) (local : list Ipv4Addr) (podman : list Cidr)
    (bypass_file : option FileRead) : result ConfigError Watching :=
  let file_initial := match bypass_file with Some read => read_bypass_file read | None => [] end in
  let bypass := build_bypass local podman (bw_explicit bw) file_initial in
  config ← configure bw bypass;
  Ok {| w_last := bypass; w_last_raw := None; w_config := Some config |}.

(** ** Sorting *)

#[local] Instance cidr_le_total : Total cidr_le.
Proof. intros a b. unfold cidr_le. lia. Qed.
#[local] Instance cidr_le_trans : Transitive cidr_le.
Proof. intros a b c. unfold cidr_le. lia. Qed.

Lemma dedup_cons a b l : dedup (a :: b :: l) = if decide (a = b) then dedup (b :: l) else a :: dedup (b :: l).
Proof. done. Qed.

Lemma elem_of_dedup x l : x ∈ dedup l ↔ x ∈ l.
Proof.
  induction l as [|a [|b l] IH]; [done..|]. rewrite dedup_cons. case_decide as Hab.
  - subst. rewrite IH. set_solver.
  - rewrite elem_of_cons, IH. set_solver.
Qed.

Lemma dedup_NoDup l : StronglySorted cidr_le l → NoDup (dedup l).
Proof.
  induction l as [|a [|b l] IH]; intros Hs; [constructor|by apply NoDup_singleton|].
  apply StronglySorted_inv in Hs as [Hs Ha]. rewrite dedup_cons. case_decide as Hab; [by apply IH|].
  apply NoDup_cons. split; [|by apply IH]. rewrite elem_of_dedup. intros Hin.
  apply StronglySorted_inv in Hs as [_ Hb]. apply Forall_cons in Ha as [Hab' _].
  rewrite Forall_forall in Hb. apply elem_of_cons in Hin as [|Hin]; [done|]. apply Hb in Hin.
  apply Hab. unfold cidr_le in *. destruct a, b; simpl in *. f_equal; lia.
Qed.

Lemma elem_of_sort_dedup x l : x ∈ sort_dedup l ↔ x ∈ l.
Proof. unfold sort_dedup. by rewrite elem_of_dedup, (merge_sort_Permutation cidr_le l). Qed.

Lemma sort_dedup_NoDup l : NoDup (sort_dedup l).
Proof. apply dedup_NoDup, (StronglySorted_merge_sort cidr_le). Qed.

#[export] Hint Resolve sort_dedup_NoDup : hodor.
#[export] Hint Rewrite elem_of_sort_dedup : hodor.

(** ** The three tiers *)

(** Adding a tier is cutting at the cap, unless the list was longer already. *)
Lemma add_tier_take out tier : add_tier out tier = take (MAX_BYPASS `max` length out) (out ++ tier).
Proof.
  unfold add_tier. destruct (Nat.ltb_spec (MAX_BYPASS - length out) (length tier)).
  - rewrite take_app. f_equal; [rewrite take_ge by lia; done|f_equal; lia].
  - rewrite take_ge by (rewrite length_app; lia). done.
Qed.

Lemma add_tiers_take out t u :
  foldl add_tier out [t; u] = take (MAX_BYPASS `max` length out) (out ++ t ++ u).
Proof.
  cbn [foldl]. rewrite !add_tier_take. set (n := MAX_BYPASS `max` length out).
  assert (length out ≤ length (out ++ t) ∧ MAX_BYPASS ≤ n ∧ length out ≤ n ∧ (n = MAX_BYPASS ∨ n = length out))
    as (Hlo & Hn & Hon & Hnn) by (rewrite length_app; lia).
  rewrite app_assoc. destruct (decide (length (out ++ t) ≤ n)) as [Hs|Hs].
  - rewrite (take_ge (out ++ t)) in * by lia.
    replace (MAX_BYPASS `max` length (out ++ t)) with n by lia. done.
  - assert (length (take n (out ++ t)) = n) as Hl by (rewrite length_take; lia).
    rewrite Hl. replace (MAX_BYPASS `max` n) with n by lia.
    rewrite (take_app_le' n (take n _) u), take_take, Nat.min_id, (take_app_le' n (out ++ t)) by lia. done.
Qed.

Definition file_tier (explicit file : list Cidr) : list Cidr :=
  filter (λ entry, entry ∉ sort_dedup explicit) (sort_dedup file).
Definition automatic_tier (local : list Ipv4Addr) (podman explicit file : list Cidr) : list Cidr :=
  filter (λ entry, entry ∉ sort_dedup explicit ∧ entry ∉ file_tier explicit file)
    (sort_dedup (map (λ addr, (addr, 32%N)) local ++ podman)).

Lemma build_bypass_take local podman explicit file :
  build_bypass local podman explicit file =
  take (MAX_BYPASS `max` length (sort_dedup explicit))
    (sort_dedup explicit ++ file_tier explicit file ++ automatic_tier local podman explicit file).
Proof. apply add_tiers_take. Qed.

Lemma tiers_NoDup local podman explicit file :
  NoDup (sort_dedup explicit ++ file_tier explicit file ++ automatic_tier local podman explicit file).
Proof.
  apply NoDup_app. split_and!; [auto with hodor|..].
  { intros x Hx Hin. apply elem_of_app in Hin as [Hin|Hin]; apply list_elem_of_filter in Hin; naive_solver. }
  apply NoDup_app. split_and!; [apply NoDup_filter; auto with hodor| |apply NoDup_filter; auto with hodor].
  intros x Hx Hin. apply list_elem_of_filter in Hin. naive_solver.
Qed.

(** What the merged list may hold. *)
Definition bypass_source (local : list Ipv4Addr) (podman explicit file : list Cidr) (entry : Cidr) : Prop :=
  entry ∈ explicit ∨ entry ∈ file ∨ entry ∈ podman ∨ (entry.1 ∈ local ∧ entry.2 = 32%N).

Lemma elem_of_tiers local podman explicit file entry :
  entry ∈ sort_dedup explicit ++ file_tier explicit file ++ automatic_tier local podman explicit file ↔
  bypass_source local podman explicit file entry.
Proof.
  unfold bypass_source, automatic_tier, file_tier.
  rewrite !elem_of_app, !list_elem_of_filter, !elem_of_sort_dedup, elem_of_app, list_elem_of_fmap.
  assert ((∃ y, entry = (y, 32%N) ∧ y ∈ local) ↔ entry.1 ∈ local ∧ entry.2 = 32%N) as ->.
  { destruct entry as [a l]. simpl. naive_solver. }
  destruct (decide (entry ∈ explicit)), (decide (entry ∈ file)); tauto.
Qed.

Lemma build_bypass_source local podman explicit file entry :
  entry ∈ build_bypass local podman explicit file → bypass_source local podman explicit file entry.
Proof.
  rewrite build_bypass_take. intros (i & Hi & _)%elem_of_take. by apply list_elem_of_lookup_2, elem_of_tiers in Hi.
Qed.

Lemma build_bypass_length local podman explicit file :
  length (build_bypass local podman explicit file) ≤ MAX_BYPASS `max` length (sort_dedup explicit).
Proof. rewrite build_bypass_take, length_take. lia. Qed.

(** C40: The merged bypass list has no duplicates and nothing but configured or
    discovered entries; it keeps every explicit entry; it never grows past the
    programs' eight entries unless the explicit entries alone do; and when
    something is left out the list is full, with no discovered entry kept while
    an entry of the file is dropped. *)
Theorem bypass_tiers local podman explicit file :
  let out := build_bypass local podman explicit file in
  NoDup out ∧
  (∀ entry, entry ∈ out → bypass_source local podman explicit file entry) ∧
  (∀ entry, entry ∈ explicit → entry ∈ out) ∧
  length out ≤ MAX_BYPASS `max` length (sort_dedup explicit) ∧
  (∀ entry, bypass_source local podman explicit file entry → entry ∉ out → MAX_BYPASS ≤ length out) ∧
  (∀ entry, entry ∈ file → entry ∉ out → ∀ kept, kept ∈ out → kept ∈ explicit ∨ kept ∈ file).
Proof.
  intros out. pose proof (build_bypass_source local podman explicit file) as Hsrc. subst out. revert Hsrc.
  rewrite build_bypass_take. intros Hsrc.
  set (e := sort_dedup explicit). set (f := file_tier explicit file). set (a := automatic_tier _ _ _ _).
  set (n := MAX_BYPASS `max` length e). pose proof (tiers_NoDup local podman explicit file) as Hnd.
  pose proof (elem_of_tiers local podman explicit file) as Hel.
  assert (∀ x, x ∈ take n (e ++ f ++ a) ∨ x ∈ drop n (e ++ f ++ a) ↔ x ∈ e ++ f ++ a) as Htd.
  { intros x. by rewrite <- elem_of_app, take_drop. }
  assert (∀ x, x ∈ take n (e ++ f ++ a) ↔ x ∈ e ∨ x ∈ take (n - length e) f ∨ x ∈ take (n - length e - length f) a)
    as Hcut.
  { intros x. rewrite take_app, (take_ge e), take_app by lia. by rewrite !elem_of_app. }
  split_and!.
  - eapply sublist_NoDup; [exact Hnd|apply sublist_take].
  - exact Hsrc.
  - intros entry Hin. apply Hcut. left. by apply elem_of_sort_dedup.
  - rewrite length_take. lia.
  - intros entry Hs Hout. apply Hel, Htd in Hs as [|Hin]; [done|]. apply list_elem_of_lookup in Hin as [i Hi].
    apply lookup_lt_Some in Hi. rewrite length_drop in Hi. rewrite length_take. lia.
  - intros entry Hf Hout kept Hk. apply Hcut in Hk as [Hk|[Hk|Hk]].
    + left. by apply elem_of_sort_dedup.
    + right. apply elem_of_take in Hk as (i & Hk%list_elem_of_lookup_2 & _).
      apply list_elem_of_filter in Hk as [_ Hk]. by apply elem_of_sort_dedup.
    + exfalso. apply Hout, Hcut. destruct (decide (entry ∈ e)) as [He|He]; [by left|right; left].
      apply list_elem_of_lookup in Hk as [i Hk]. apply lookup_lt_Some in Hk. rewrite length_take in Hk.
      rewrite take_ge by lia. apply list_elem_of_filter. split; [exact He|by apply elem_of_sort_dedup].
Qed.

(** ** The entry that is written *)

(** A prefix the loader accepts. *)
Definition prefix_ok (entry : Cidr) : Prop := (1 ≤ entry.2 ≤ 32)%N.

Lemma prefix_test len : ((len =? 0)%N || (32 <? len)%N) = false ↔ (1 ≤ len ≤ 32)%N.
Proof. rewrite orb_false_iff, N.eqb_neq, N.ltb_ge. lia. Qed.

Lemma fill_bypass_ok i bypass nets lens :
  Forall prefix_ok bypass → i + length bypass ≤ length nets → length lens = length nets →
  ∃ nets' lens', fill_bypass i bypass nets lens = Ok (nets', lens') ∧
    length nets' = length nets ∧ length lens' = length nets ∧
    (∀ j, j < i → nets' !! j = nets !! j ∧ lens' !! j = lens !! j) ∧
    (∀ j entry, bypass !! j = Some entry →
      nets' !! (i + j) = Some (N.land entry.1 (mask_prefix entry.2)) ∧ lens' !! (i + j) = Some entry.2).
Proof.
  revert i nets lens. induction bypass as [|[addr len] bypass IH]; intros i nets lens Hok Hi Hl.
  - exists nets, lens. by split_and!.
  - apply Forall_cons in Hok as [Hp Hok]. cbn [fill_bypass length] in *. rewrite (proj2 (prefix_test len) Hp).
    destruct (IH (S i) (<[i:=N.land addr (mask_prefix len)]> nets) (<[i:=len]> lens)) as (n' & l' & -> & Hn & Hl' & Hlow & Hhi).
    + done.
    + rewrite length_insert. lia.
    + by rewrite !length_insert.
    + rewrite length_insert in Hn, Hl'. exists n', l'. split_and!; [done..| |].
      * intros j Hj. destruct (Hlow j) as [-> ->]; [lia|]. by rewrite !list_lookup_insert_ne by lia.
      * intros [|j] entry He; [|rewrite Nat.add_succ_r; apply (Hhi j entry He)].
        injection He as <-. rewrite Nat.add_0_r. destruct (Hlow i) as [-> ->]; [lia|].
        by rewrite !list_lookup_insert_eq by lia.
Qed.

Lemma fill_bypass_bad i bypass nets lens :
  ¬ Forall prefix_ok bypass → ∃ e, fill_bypass i bypass nets lens = Err e.
Proof.
  revert i nets lens. induction bypass as [|[addr len] bypass IH]; intros i nets lens Hbad; [by destruct Hbad|].
  cbn [fill_bypass]. destruct ((len =? 0)%N || (32 <? len)%N) eqn:E; [by eexists|].
  apply IH. intros Hok. apply Hbad. constructor; [by apply prefix_test|done].
Qed.

(** What the programs rely on in the entry. *)
Record config_of (bypass : list Cidr) (config : Config) : Prop := {
  co_count : bypass_count config = N.of_nat (length bypass);
  co_cap : length bypass ≤ MAX_BYPASS;
  co_nets_len : length (bypass_nets config) = MAX_BYPASS;
  co_lens_len : length (bypass_lens config) = MAX_BYPASS;
  co_prefixes : Forall prefix_ok bypass;
  co_entries : ∀ j entry, bypass !! j = Some entry →
    bypass_nets config !! j = Some (N.land entry.1 (mask_prefix entry.2)) ∧ bypass_lens config !! j = Some entry.2;
}.

(** [Config::from_bypass] accepts exactly non-zero ports and at most
    [MAX_BYPASS] entries with prefixes from 1 to 32, and the entry it builds
    lists each network masked to its prefix, in order. *)
Theorem from_bypass_exact pid cgroup tcp udp cookie bypass :
  (∃ config, from_bypass pid cgroup tcp udp cookie bypass = Ok config) ↔
    (tcp ≠ 0 ∧ udp ≠ 0)%N ∧ length bypass ≤ MAX_BYPASS ∧ Forall prefix_ok bypass.
Proof.
  unfold from_bypass.
  destruct (decide (tcp = 0 ∨ udp = 0)%N) as [Hz|Hz].
  { assert (((tcp =? 0) || (udp =? 0))%N = true) as -> by (rewrite orb_true_iff, !N.eqb_eq; done). naive_solver. }
  assert (((tcp =? 0) || (udp =? 0))%N = false) as -> by (rewrite orb_false_iff, !N.eqb_neq; lia).
  destruct (Nat.ltb_spec MAX_BYPASS (length bypass)) as [Hc|Hc]; [naive_solver lia|].
  destruct (decide (Forall (λ e : Cidr, 1 ≤ e.2 ≤ 32)%N bypass)) as [Hp|Hp].
  - destruct (fill_bypass_ok 0 bypass (replicate MAX_BYPASS 0%N) (replicate MAX_BYPASS 0%N) Hp)
      as (n & l & -> & _); [done..|]. split; [intros _; split_and!; try done; lia|by eexists].
  - destruct (fill_bypass_bad 0 bypass (replicate MAX_BYPASS 0%N) (replicate MAX_BYPASS 0%N) Hp) as [e ->].
    split; [by intros [? ?]|naive_solver].
Qed.

Lemma from_bypass_config pid cgroup tcp udp cookie bypass config :
  from_bypass pid cgroup tcp udp cookie bypass = Ok config → config_of bypass config ∧
    (proxy_pid config, proxy_cgroup config, tcp_port config, udp_port config, netns_cookie config) =
    (pid, cgroup, tcp, udp, cookie).
Proof.
  intros He. assert (length bypass ≤ MAX_BYPASS ∧ Forall prefix_ok bypass) as [Hc Hp].
  { revert He. unfold from_bypass. case_match; [done|]. destruct (Nat.ltb_spec MAX_BYPASS (length bypass)); [done|].
    intros He. split; [done|]. destruct (decide (Forall (λ e : Cidr, 1 ≤ e.2 ≤ 32)%N bypass)) as [|Hp]; [done|].
    destruct (fill_bypass_bad 0 bypass (replicate MAX_BYPASS 0%N) (replicate MAX_BYPASS 0%N) Hp) as [e Ee].
    by rewrite Ee in He. }
  revert He. unfold from_bypass. case_match; [done|]. rewrite (proj2 (Nat.ltb_ge _ _) Hc).
  destruct (fill_bypass_ok 0 bypass (replicate MAX_BYPASS 0%N) (replicate MAX_BYPASS 0%N) Hp)
    as (n & l & -> & Hn & Hl & _ & Hall); [done..|].
  intros [= <-]. split; [by split|done].
Qed.

(** ** What the parsers accept *)

Lemma parse_bypass_cidr_ok s entry : parse_bypass_cidr s = Ok entry → prefix_ok entry.
Proof.
  unfold parse_bypass_cidr. destruct (split_once _ s) as [[addr len]|]; [|done]. simpl.
  destruct (parse_ipv4 addr); [|done]. simpl. destruct (from_str_radix 255 10 len) as [n'|]; [|done]. simpl.
  case_match eqn:E; [done|]. intros [= <-]. by apply prefix_test.
Qed.

Lemma parse_bypass_file_ok content : Forall prefix_ok (parse_bypass_file content).
Proof.
  apply Forall_forall. intros entry Hin. apply list_elem_of_omap in Hin as (line & _ & Hl). revert Hl.
  unfold bypass_line. case_match; [done|]. destruct (parse_bypass_cidr _) as [e|] eqn:E; [|done].
  intros [= <-]. by apply parse_bypass_cidr_ok in E.
Qed.

Lemma podman_subnets_ok content : Forall prefix_ok (podman_subnets_in content).
Proof.
  apply Forall_forall. intros entry Hin. apply list_elem_of_omap in Hin as (chunk & _ & Hl). revert Hl.
  destruct (split_byte quote chunk !! 1); [|done]. simpl. destruct (parse_bypass_cidr _) as [e|] eqn:E; [|done].
  intros [= <-]. by apply parse_bypass_cidr_ok in E.
Qed.

Lemma podman_cidrs_ok dirs : Forall prefix_ok (podman_cidrs dirs).
Proof.
  apply Forall_forall. intros entry Hin. apply list_elem_of_In, in_flat_map in Hin as (dir & _ & Hin).
  apply in_flat_map in Hin as ([json content] & _ & Hin). destruct json, content as [c|]; try done.
  apply list_elem_of_In in Hin. by apply (proj1 (Forall_forall _ _) (podman_subnets_ok c)).
Qed.

Lemma read_bypass_file_ok read : Forall prefix_ok (read_bypass_file read).
Proof. destruct read; [apply parse_bypass_file_ok|constructor..]. Qed.

(** The entries of a merge are accepted when the explicit ones are. *)
Lemma build_bypass_ok local podman explicit file :
  Forall prefix_ok explicit → Forall prefix_ok podman → Forall prefix_ok file →
  Forall prefix_ok (build_bypass local podman explicit file).
Proof.
  rewrite !Forall_forall. intros He Hp Hf entry Hin.
  apply build_bypass_source in Hin as [?|[?|[?|[_ Hl]]]]; [auto..|].
  unfold prefix_ok. lia.
Qed.

(** ** Following the file *)

Section Watch.
Context (bw : BypassWatch) (local : list Ipv4Addr) (podman : list Cidr).

Definition merged (raw : bytes) : list Cidr := build_bypass local podman (bw_explicit bw) (parse_bypass_file raw).

(** The text a poll acts on: a missing file reads as empty. *)
Definition polled (read : FileRead) : option bytes :=
  match read with FileContent raw => Some raw | FileMissing => Some [] | FileUnreadable => None end.

(** The explicit entries and the ports passed at startup. *)
Definition options_ok : Prop :=
  (bw_tcp_port bw ≠ 0 ∧ bw_udp_port bw ≠ 0)%N ∧ length (sort_dedup (bw_explicit bw)) ≤ MAX_BYPASS ∧
  Forall prefix_ok (bw_explicit bw).

Lemma configure_merged file :
  options_ok → Forall prefix_ok podman → Forall prefix_ok file →
  ∃ config, configure bw (build_bypass local podman (bw_explicit bw) file) = Ok config.
Proof.
  intros (Hports & Hl & Hp) Hpod Hfile. unfold configure, from_bypass.
  assert (((bw_tcp_port bw =? 0) || (bw_udp_port bw =? 0))%N = false) as -> by (rewrite orb_false_iff, !N.eqb_neq; lia).
  pose proof (build_bypass_length local podman (bw_explicit bw) file).
  destruct (Nat.ltb_spec MAX_BYPASS (length (build_bypass local podman (bw_explicit bw) file))); [lia|].
  destruct (fill_bypass_ok 0 _ (replicate MAX_BYPASS 0%N) (replicate MAX_BYPASS 0%N)
    (build_bypass_ok local podman (bw_explicit bw) file Hp Hpod Hfile)) as (n & l & -> & _); [done..|].
  by eexists.
Qed.

(** What holds between two polls while every write succeeds. *)
Record watching (w : Watching) : Prop := {
  wt_config : ∃ config, w_config w = Some config ∧ configure bw (w_last w) = Ok config;
  wt_last : ∀ raw, w_last_raw w = Some raw → w_last w = merged raw;
}.

Lemma watch_turn_spec read w :
  options_ok → Forall prefix_ok podman → watching w →
  let w' := watch_turn bw local podman read true w in
  watching w' ∧ w_last_raw w' = match polled read with Some raw => Some raw | None => w_last_raw w end.
Proof.
  intros Ho Hp [Hc Hl]. cbv zeta. unfold watch_turn.
  assert (∀ raw,
    let w1 := {| w_last := w_last w; w_last_raw := Some raw; w_config := w_config w |} in
    let w2 := if bool_decide (w_last_raw w = Some raw) then w
              else if bool_decide (merged raw = w_last w) then w1
              else match configure bw (merged raw) with
                   | Ok config => {| w_last := merged raw; w_last_raw := Some raw; w_config := Some config |}
                   | Err _ => w1 end in
    watching w2 ∧ w_last_raw w2 = Some raw) as Happly.
  { intros raw. cbv zeta. case_bool_decide as Hraw; [by split|].
    case_bool_decide as Hm; [split; [|done]; split; [done|]; by intros ? [= <-]|].
    destruct (configure_merged (parse_bypass_file raw) Ho Hp (parse_bypass_file_ok raw)) as [config Hcfg].
    fold (merged raw) in Hcfg. rewrite Hcfg. split; [|done]. split; [by exists config|]. by intros ? [= <-]. }
  destruct read; [apply (Happly raw)|apply (Happly [])|by split].
Qed.

(** C39: While writes succeed, the programs' entry follows the file: after any
    polls, the entry is the one built from the options, the machine's own
    addresses and the last text that could be read (a missing file reading as
    empty), whatever unreadable polls came in between. *)
Theorem watch_follows_file file w0 reads raw :
  start_capture bw local podman (Some file) = Ok w0 →
  options_ok → Forall prefix_ok podman →
  last (omap polled reads) = Some raw →
  let w := foldl (λ w read, watch_turn bw local podman read true w) w0 reads in
  ∃ config, w_config w = Some config ∧ configure bw (merged raw) = Ok config.
Proof.
  intros Hs Ho Hp Hlast. cbv zeta.
  assert (watching w0) as Hw0.
  { revert Hs. unfold start_capture. destruct (configure bw _) as [config|] eqn:E; [|done].
    intros [= <-]. split; [by exists config|done]. }
  clear Hs. assert (watching (foldl (λ w read, watch_turn bw local podman read true w) w0 reads) ∧
    w_last_raw (foldl (λ w read, watch_turn bw local podman read true w) w0 reads) =
      match last (omap polled reads) with Some r => Some r | None => w_last_raw w0 end) as [[(config & Hc & Hcfg) Hl] Hraw].
  { clear Hlast. induction reads as [|read reads IH] using rev_ind; [by split|].
    rewrite foldl_app, omap_app. cbn [foldl omap list_omap]. destruct IH as [IHw IHr].
    destruct (watch_turn_spec read _ Ho Hp IHw) as [Hw Hr]. split; [done|]. rewrite Hr, IHr.
    destruct (polled read); [by rewrite last_snoc|by rewrite app_nil_r]. }
  rewrite Hlast in Hraw. exists config. split; [done|]. by rewrite <- (Hl raw Hraw).
Qed.

(** A write that fails is never retried while the file stays as it is, though
    the comments and the log line say the next poll retries: [last_raw] is set
    before the write. *)
Lemma failed_write_not_retried raw w writes :
  w_last_raw w ≠ Some raw → merged raw ≠ w_last w →
  let w' := watch_turn bw local podman (FileContent raw) false w in
  w_config w' = w_config w ∧
  foldl (λ w ok, watch_turn bw local podman (FileContent raw) ok w) w' writes = w'.
Proof.
  intros Hr Hm. cbv zeta.
  assert (watch_turn bw local podman (FileContent raw) false w =
    {| w_last := w_last w; w_last_raw := Some raw; w_config := w_config w |}) as ->.
  { unfold watch_turn. rewrite (bool_decide_eq_false_2 _ Hr), (bool_decide_eq_false_2 _ Hm). by destruct (from_bypass _ _ _ _ _ _). }
  split; [done|]. induction writes as [|ok writes IH]; [done|]. cbn [foldl].
  unfold watch_turn at 2. cbn [w_last_raw]. by rewrite bool_decide_eq_true_2.
Qed.
End Watch.

(** ** Concrete lists *)

Definition sample_watch : BypassWatch :=
  {| bw_explicit := [(167772160, 8)]%N; bw_proxy_pid := 41; bw_proxy_cgroup := 7; bw_tcp_port := TCP_LISTEN_PORT;
     bw_udp_port := UDP_LISTEN_PORT; bw_netns_cookie := 1 |}.

Lemma watch_follows_file_witness :
  let reads := [FileContent (bs "10.89.0.0/16"); FileUnreadable] in
  match start_capture sample_watch [3232235777]%N [] (Some FileMissing) with
  | Ok w0 =>
      bypass_nets <$> w_config (foldl (λ w read, watch_turn sample_watch [3232235777]%N [] read true w) w0 reads) =
        Some [167772160; 173604864; 3232235777; 0; 0; 0; 0; 0]%N ∧
      ∃ config, w_config (foldl (λ w read, watch_turn sample_watch [3232235777]%N [] read true w) w0 reads) = Some config ∧
        configure sample_watch (merged sample_watch [3232235777]%N [] (bs "10.89.0.0/16")) = Ok config
  | Err _ => False
  end.
Proof.
  intros reads. destruct (start_capture sample_watch [3232235777]%N [] (Some FileMissing)) as [w0|e] eqn:E; [|by vm_compute in E].
  split; [vm_compute in E; injection E as <-; by vm_compute|].
  apply (watch_follows_file sample_watch [3232235777]%N [] FileMissing w0 reads (bs "10.89.0.0/16") E).
  - split_and!; [done|done|by apply Nat.leb_le; vm_compute|]. repeat constructor; by vm_compute.
  - constructor.
  - reflexivity.
Defined.
