(* ===== verification/Ebpf.v ===== *)
(** * eBPF capture: the programs and the flow tables

    [crates/hodor-ebpf-programs/src/main.rs] ([connect4], [recvmsg4],
    [capture_egress] and what they share), the lookup of
    [crates/hodor-ebpf/src/flow.rs], the address codecs of [lib.rs] and the
    janitor of [udp.rs]. Integers are as the kernel stores them on a
    little-endian machine. What the kernel decides, the eviction of its LRU
    maps, is the class [LruMaps]. *)

From S2P Require Import Prelude Tun Bypass.

(** ** Records shared with the loader *)

Record OrigDst := { od_ip : N; od_port : N; od_proto : N }.
Record FlowKey := { fk_ip : N; fk_port : N }.
#[export] Instance FlowKey_eq_decision : EqDecision FlowKey.
Proof. solve_decision. Defined.
#[export] Instance FlowKey_countable : Countable FlowKey :=
  inj_countable' (λ k, (fk_ip k, fk_port k)) (λ p, {| fk_ip := p.1; fk_port := p.2 |}) (λ k, match k with Build_FlowKey _ _ => eq_refl end).

Definition IPPROTO_TCP : N := 6.
Definition IPPROTO_UDP : N := 17.
Definition MAX_ENTRIES : nat := 16384.

(** The three maps. *)
Record Maps := {
  CONFIG : option Config;
  ORIG_DST : gmap N OrigDst;
  FLOW : gmap FlowKey N;
}.

(** [insert] of a kernel LRU hash: it may fail, it may evict other entries, and
    it never holds more than its capacity. *)
Class LruMaps := {
  lru_insert : ∀ {K V : Type} `{Countable K}, nat → K → V → gmap K V → option (gmap K V);
}.
Class LruMapsOk `{LruMaps} : Prop := {
  lru_insert_key : ∀ {K V : Type} `{Countable K} cap k v (m m' : gmap K V),
    lru_insert cap k v m = Some m' → m' !! k = Some v;
  lru_insert_sub : ∀ {K V : Type} `{Countable K} cap k v (m m' : gmap K V),
    lru_insert cap k v m = Some m' → m' ⊆ <[k:=v]> m;
  lru_insert_cap : ∀ {K V : Type} `{Countable K} cap k v (m m' : gmap K V),
    lru_insert cap k v m = Some m' → 0 < cap → size m ≤ cap → size m' ≤ cap;
}.

(** The process a hook runs for. *)
Record Task := { tk_pid_tgid : N; tk_cgroup : N }.

(** [bpf_sock_addr], with the cookies the helpers report for its socket. *)
Record SockAddr := {
  user_family : N;
  protocol : N;
  user_ip4 : N;
  user_port : N;
  sa_cookie : N;
  sa_netns_cookie : N;
}.
(** [__sk_buff]. *)
Record SkBuff := { skb_family : N; skb_cookie : N; local_ipv4 : N; local_port : N }.

(** ** What the hooks share *)

Definition is_proxy (config : option Config) (t : Task) : bool :=
  match config with
  | None => true
  | Some config =>
      if (N.shiftr (tk_pid_tgid t) 32 mod 2 ^ 32 =? proxy_pid config)%N then true
      else if (proxy_cgroup config =? 0)%N then false
      else (tk_cgroup t =? proxy_cgroup config)%N
  end.

Definition loopback_addr : N := swap32 0x7F000001.
Definition is_loopback (addr : N) : bool := (N.land (swap32 addr) 0xFF000000 =? 0x7F000000)%N.

(** The [while] of [is_bypassed], with [fuel] entries left to look at. *)
Fixpoint bypass_loop (fuel i : nat) (config : Config) (dst : N) : bool :=
  match fuel with
  | 0 => false
  | S fuel =>
      let len := default 0%N (bypass_lens config !! i) in
      if (len =? 0)%N then true
      else if (len <=? 32)%N then
        let net := default 0%N (bypass_nets config !! i) in
        if (32 <=? len)%N then if (dst =? net)%N then true else bypass_loop fuel (S i) config dst
        else if (N.shiftr dst (32 - len) =? N.shiftr net (32 - len))%N then true
        else bypass_loop fuel (S i) config dst
      else bypass_loop fuel (S i) config dst
  end.
Definition is_bypassed (config : option Config) (addr : N) : bool :=
  match config with
  | None => false
  | Some config =>
      let count := if (N.of_nat MAX_BYPASS <? bypass_count config)%N then MAX_BYPASS
                   else N.to_nat (bypass_count config) in
      bypass_loop count 0 config (swap32 addr)
  end.

Section Programs.
Context `{LruMaps}.

Definition set_dst (ip port : N) (a : SockAddr) : SockAddr :=
  {| user_family := user_family a; protocol := protocol a; user_ip4 := ip; user_port := port;
     sa_cookie := sa_cookie a; sa_netns_cookie := sa_netns_cookie a |}.
Definition set_orig_dst (t : gmap N OrigDst) (m : Maps) : Maps :=
  {| CONFIG := CONFIG m; ORIG_DST := t; FLOW := FLOW m |}.
Definition set_flow (t : gmap FlowKey N) (m : Maps) : Maps :=
  {| CONFIG := CONFIG m; ORIG_DST := ORIG_DST m; FLOW := t |}.

(** Every hook answers 1 (allow), so only its effects are kept. *)
Definition redirect (listener_port : N) (m : Maps) (a : SockAddr) : Maps * SockAddr :=
  if negb (user_family a =? AF_INET)%N then (m, a)
  else if is_loopback (user_ip4 a) then (m, a)
  else if is_bypassed (CONFIG m) (user_ip4 a) then (m, a)
  else if (sa_cookie a =? 0)%N then (m, a)
  else
    let orig := {| od_ip := user_ip4 a; od_port := user_port a; od_proto := (protocol a mod 256)%N |} in
    match lru_insert MAX_ENTRIES (sa_cookie a) orig (ORIG_DST m) with
    | None => (m, a)
    | Some t => (set_orig_dst t m, set_dst loopback_addr (swap16 (listener_port mod 65536)) a)
    end.

Definition connect4 (t : Task) (m : Maps) (a : SockAddr) : Maps * SockAddr :=
  if is_proxy (CONFIG m) t then (m, a)
  else if match CONFIG m with
          | Some config => negb (netns_cookie config =? 0)%N && negb (sa_netns_cookie a =? netns_cookie config)%N
          | None => false
          end then (m, a)
  else
    let listener :=
      if (protocol a =? IPPROTO_TCP)%N then tcp_port <$> CONFIG m
      else if (protocol a =? IPPROTO_UDP)%N then udp_port <$> CONFIG m
      else None in
    match listener with Some port => redirect port m a | None => (m, a) end.

Definition recvmsg4 (m : Maps) (a : SockAddr) : SockAddr :=
  if negb (user_family a =? AF_INET)%N || negb (is_loopback (user_ip4 a)) then a
  else if (sa_cookie a =? 0)%N then a
  else match ORIG_DST m !! sa_cookie a with
       | None => a
       | Some orig => set_dst (od_ip orig) (od_port orig) a
       end.

Definition flow_key (skb : SkBuff) : FlowKey := {| fk_ip := local_ipv4 skb; fk_port := (local_port skb mod 65536)%N |}.
Definition capture_egress (t : Task) (m : Maps) (skb : SkBuff) : Maps :=
  if is_proxy (CONFIG m) t then m
  else if negb (skb_family skb =? AF_INET)%N then m
  else if (skb_cookie skb =? 0)%N then m
  else match ORIG_DST m !! skb_cookie skb with
       | None => m
       | Some _ =>
           match lru_insert MAX_ENTRIES (flow_key skb) (skb_cookie skb) (FLOW m) with
           | None => m
           | Some f => set_flow f m
           end
       end.
End Programs.

(** ** The loader's codecs and lookup *)

Definition decode_addr (raw : N) : Ipv4Addr := swap32 raw.
Definition encode_addr (addr : Ipv4Addr) : N := swap32 addr.
(** [u16::try_from(raw & 0xffff)] never fails. *)
Definition decode_port (raw : N) : option N :=
  let low := N.land raw u16_max in
  if (low <=? u16_max)%N then Some (swap16 low) else None.

Definition socket_addr (orig : OrigDst) : option SocketAddr :=
  port ← decode_port (od_port orig); Some (V4 (be32 (decode_addr (od_ip orig))), port).

Definition from_peer (peer : SocketAddr) : option FlowKey :=
  match peer.1 with V4 octets => Some {| fk_ip := encode_addr (of_be octets); fk_port := peer.2 |} | V6 _ => None end.

(** [MapError], as far as the lookup tells cases apart. *)
Inductive MapError := KeyNotFound | MapFailure.
Inductive FlowError := ReadFlow (origin : MapError) | ReadOrigDst (origin : MapError).

(** [FlowTables]: the two maps through their [get]. *)
Record FlowTables := {
  flows : FlowKey → result MapError N;
  orig : N → result MapError OrigDst;
}.

Definition original (tables : FlowTables) (peer : SocketAddr) (proto : N) : result FlowError (option SocketAddr) :=
  match from_peer peer with
  | None => Ok None
  | Some key =>
      match flows tables key with
      | Err KeyNotFound => Ok None
      | Err err => Err (ReadFlow err)
      | Ok cookie =>
          match orig tables cookie with
          | Ok orig => if (od_proto orig =? proto)%N then Ok (socket_addr orig) else Ok None
          | Err KeyNotFound => Ok None
          | Err err => Err (ReadOrigDst err)
          end
      end
  end.

(** The kernel's maps read without failure. *)
Definition map_get {K V} `{Countable K} (m : gmap K V) (k : K) : result MapError V :=
  ok_or KeyNotFound (m !! k).
Definition tables_of (m : Maps) : FlowTables := {| flows := map_get (FLOW m); orig := map_get (ORIG_DST m) |}.

(** ** The UDP relay's table *)

(** [FLOW_IDLE], in seconds; [fl_locked] is whether a relay task holds the
    flow's lock. *)
Definition FLOW_IDLE : N := 60.
Record Flow := { fl_dst : SocketAddr; fl_last_active : N; fl_locked : bool }.
Definition idle (now : N) (flow : Flow) : bool := negb (fl_locked flow) && (FLOW_IDLE <? now - fl_last_active flow)%N.
Definition sweep (now : N) (table : gmap SocketAddr Flow) : gmap SocketAddr Flow :=
  let stale := omap (λ kf : SocketAddr * Flow, if idle now kf.2 then Some kf.1 else None) (map_to_list table) in
  foldl (λ table key, delete key table) table stale.

(** ** Encodings *)

Lemma be32_length n : length (be32 n) = 4.
Proof. done. Qed.

Lemma swap32_lt n : (swap32 n < 2 ^ 32)%N.
Proof. apply (of_be_lt (rev (be32 n))). Qed.

Lemma swap32_involutive n : (n < 2 ^ 32)%N → swap32 (swap32 n) = n.
Proof.
  intros Hn. unfold swap32. rewrite be32_of_be by (by rewrite length_rev). by rewrite rev_involutive, of_be_be32.
Qed.

Lemma swap16_lt n : (swap16 n < 65536)%N.
Proof. apply (of_be_lt (rev (be16 n))). Qed.

Lemma swap16_involutive n : (n < 65536)%N → swap16 (swap16 n) = n.
Proof.
  intros Hn. unfold swap16. rewrite be16_of_be by (by rewrite length_rev). by rewrite rev_involutive, of_be_be16.
Qed.

Lemma decode_port_swap port : (port < 65536)%N → decode_port (swap16 port) = Some port.
Proof.
  intros Hp. unfold decode_port. pose proof (swap16_lt port) as Hs.
  assert (N.land (swap16 port) u16_max = swap16 port) as ->.
  { change u16_max with (N.ones 16). by rewrite N.land_ones, N.mod_small. }
  rewrite (proj2 (N.leb_le _ _)) by (unfold u16_max; lia). by rewrite swap16_involutive.
Qed.

(** A value with its upper half set is truncated, not refused. *)
Lemma decode_port_truncates low high : (low < 65536)%N → decode_port (high * 65536 + low) = decode_port low.
Proof.
  intros Hl. unfold decode_port. change u16_max with (N.ones 16). rewrite !N.land_ones. change (2 ^ 16)%N with 65536%N.
  by rewrite N.add_comm, N.Div0.mod_add.
Qed.

Lemma from_peer_encode ip port : (ip < 2 ^ 32)%N →
  from_peer (V4 (be32 ip), port) = Some {| fk_ip := encode_addr ip; fk_port := port |}.
Proof. intros Hi. unfold from_peer. cbn [fst snd]. by rewrite of_be_be32. Qed.

(** ** What a CIDR covers *)

(** An address is in a network when their first [len] bits agree. *)
Definition in_cidr (dst : Ipv4Addr) (entry : Cidr) : Prop :=
  (dst / 2 ^ (32 - entry.2) = entry.1 / 2 ^ (32 - entry.2))%N.

Lemma masked_prefix net len :
  (net < 2 ^ 32)%N → (1 ≤ len ≤ 32)%N →
  N.shiftr (N.land net (mask_prefix len)) (32 - len) = N.shiftr net (32 - len).
Proof.
  intros Hn Hl. unfold mask_prefix. rewrite (proj2 (N.eqb_neq len 0)) by lia.
  assert (∀ k, (32 ≤ k)%N → N.testbit net k = false) as Hhigh.
  { intros k Hk. destruct (N.eq_dec net 0) as [->|Hz]; [apply N.bits_0|]. apply N.bits_above_log2.
    apply N.log2_lt_pow2 in Hn; lia. }
  change u32_max with (N.ones 32). apply N.bits_inj. intros i. rewrite !N.shiftr_spec', N.land_spec.
  destruct (N.leb_spec 32 len) as [Hle|Hlt].
  - destruct (N.ltb_spec (i + (32 - len)) 32); [rewrite N.ones_spec_low by done; apply andb_true_r|].
    by rewrite Hhigh by done.
  - rewrite N.land_spec, N.shiftl_spec_high' by lia.
    replace (i + (32 - len) - (32 - len))%N with i by lia.
    destruct (N.ltb_spec (i + (32 - len)) 32).
    + rewrite !N.ones_spec_low by lia. by rewrite andb_true_r.
    + by rewrite Hhigh by done.
Qed.

(** One entry of [is_bypassed]'s loop. *)
Lemma bypass_match dst net len :
  (net < 2 ^ 32)%N → (1 ≤ len ≤ 32)%N →
  in_cidr dst (net, len) ↔
  (if (32 <=? len)%N then (dst =? N.land net (mask_prefix len))%N
   else (N.shiftr dst (32 - len) =? N.shiftr (N.land net (mask_prefix len)) (32 - len))%N) = true.
Proof.
  intros Hn Hl. unfold in_cidr. cbn [fst snd]. rewrite <- !N.shiftr_div_pow2.
  pose proof (masked_prefix net len Hn Hl) as Hm. destruct (N.leb_spec 32 len).
  - assert (len = 32%N) as -> by lia. change (32 - 32)%N with 0%N in *. rewrite !N.shiftr_0_r in *.
    by rewrite Hm, N.eqb_eq.
  - by rewrite Hm, N.eqb_eq.
Qed.

Lemma bypass_loop_exact bypass config dst fuel i :
  config_of bypass config → Forall (λ e : Cidr, e.1 < 2 ^ 32)%N bypass → i + fuel = length bypass →
  bypass_loop fuel i config dst = true ↔ ∃ entry, entry ∈ drop i bypass ∧ in_cidr dst entry.
Proof.
  intros Hc Hn. revert i. induction fuel as [|fuel IH]; intros i Hi.
  - rewrite drop_ge by lia. cbn [bypass_loop]. split; [done|]. intros (e & Hin & _). by apply elem_of_nil in Hin.
  - destruct (lookup_lt_is_Some_2 bypass i ltac:(lia)) as [[net len] He].
    destruct (co_entries _ _ Hc i _ He) as [Hnet Hlen]. cbn [fst snd] in *.
    pose proof (proj1 (Forall_lookup _ _) (co_prefixes _ _ Hc) i _ He) as Hp. unfold prefix_ok in Hp. cbn [snd] in Hp.
    pose proof (proj1 (Forall_lookup _ _) Hn i _ He) as Hnl. cbn [fst] in Hnl.
    cbn [bypass_loop]. rewrite Hnet, Hlen. cbn [default from_option id].
    rewrite (proj2 (N.eqb_neq len 0)), (proj2 (N.leb_le len 32)) by lia.
    rewrite (drop_S bypass (net, len) i He). pose proof (bypass_match dst net len Hnl Hp) as Hm.
    specialize (IH (S i) ltac:(lia)).
    assert (∀ b, (b = true ↔ in_cidr dst (net, len)) →
      (if b then true else bypass_loop fuel (S i) config dst) = true ↔
      ∃ entry, entry ∈ (net, len) :: drop (S i) bypass ∧ in_cidr dst entry) as Hb.
    { intros b Hb. setoid_rewrite elem_of_cons. destruct b.
      - split; [intros _; exists (net, len); split; [by left|by apply Hb]|done].
      - rewrite IH. split; [naive_solver|]. intros (e & [->|Hin] & He'); [by apply Hb in He'|naive_solver]. }
    destruct (32 <=? len)%N; apply Hb; by rewrite Hm.
Qed.

(** With the entry the loader writes, the programs leave alone exactly the
    destinations that lie in one of its networks. *)
Lemma bypass_exact pid cgroup tcp udp cookie bypass config dst :
  from_bypass pid cgroup tcp udp cookie bypass = Ok config →
  Forall (λ e : Cidr, e.1 < 2 ^ 32)%N bypass → (dst < 2 ^ 32)%N →
  is_bypassed (Some config) (encode_addr dst) = true ↔ ∃ entry, entry ∈ bypass ∧ in_cidr dst entry.
Proof.
  intros [Hc _]%from_bypass_config Hn Hd. unfold is_bypassed, encode_addr. rewrite swap32_involutive by done.
  pose proof (co_cap _ _ Hc) as Hcap. rewrite (co_count _ _ Hc).
  rewrite (proj2 (N.ltb_ge _ _)), Nat2N.id by lia.
  by rewrite (bypass_loop_exact bypass config dst (length bypass) 0 Hc Hn), drop_0 by lia.
Qed.

(** ** The hooks *)

(** The socket address of a [connect] to [ip]:[port], and of a datagram that
    arrived from there. *)
Definition sock (family proto cookie netns : N) (ip : Ipv4Addr) (port : N) : SockAddr :=
  {| user_family := family; protocol := proto; user_ip4 := encode_addr ip; user_port := swap16 port;
     sa_cookie := cookie; sa_netns_cookie := netns |}.

Lemma swap32_loopback : swap32 loopback_addr = 0x7F000001%N.
Proof. by vm_compute. Qed.

Lemma is_loopback_encode ip : (ip < 2 ^ 32)%N → is_loopback (encode_addr ip) = (ip / 2 ^ 24 =? 127)%N.
Proof.
  intros Hi. unfold is_loopback, encode_addr. rewrite swap32_involutive by done.
  assert (N.land ip 0xFF000000 = N.shiftl (N.shiftr ip 24) 24) as ->.
  { apply N.bits_inj. intros k. rewrite N.land_spec. change 0xFF000000%N with (N.shiftl (N.ones 8) 24).
    destruct (N.ltb_spec k 24); [rewrite !N.shiftl_spec_low by done; apply andb_false_r|].
    rewrite !N.shiftl_spec_high', N.shiftr_spec' by done. replace (k - 24 + 24)%N with k by lia.
    destruct (N.ltb_spec (k - 24) 8); [by rewrite N.ones_spec_low, andb_true_r by done|].
    rewrite N.ones_spec_high, andb_false_r by done. symmetry. destruct (N.eq_dec ip 0) as [->|]; [apply N.bits_0|].
    apply N.bits_above_log2. apply N.log2_lt_pow2 in Hi; lia. }
  change 0x7F000000%N with (N.shiftl 127 24). rewrite !N.shiftl_mul_pow2, N.shiftr_div_pow2.
  destruct (N.eqb_spec (ip / 2 ^ 24) 127) as [->|Hne]; [apply N.eqb_refl|]. apply N.eqb_neq. lia.
Qed.

Section Hooks.
Context `{LM : LruMaps} {LO : LruMapsOk}.

(** The dials hodor means to capture: not its own, from its own network
    namespace when that is known, TCP or UDP over IPv4 from a socket with a
    cookie, to neither the loopback network nor a bypassed one. *)
Definition wanted (config : Config) (bypass : list Cidr) (t : Task) (family proto cookie netns : N) (ip : Ipv4Addr) : Prop :=
  (tk_pid_tgid t / 2 ^ 32 mod 2 ^ 32 ≠ proxy_pid config ∧
   (proxy_cgroup config = 0 ∨ tk_cgroup t ≠ proxy_cgroup config) ∧
   (netns_cookie config = 0 ∨ netns = netns_cookie config) ∧
   (proto = IPPROTO_TCP ∨ proto = IPPROTO_UDP) ∧ family = AF_INET ∧ cookie ≠ 0 ∧ ip / 2 ^ 24 ≠ 127)%N ∧
  ¬ ∃ entry, entry ∈ bypass ∧ in_cidr ip entry.

Lemma is_proxy_spec config t :
  is_proxy (Some config) t = true ↔
  (tk_pid_tgid t / 2 ^ 32 mod 2 ^ 32 = proxy_pid config ∨
   (proxy_cgroup config ≠ 0 ∧ tk_cgroup t = proxy_cgroup config))%N.
Proof.
  unfold is_proxy. rewrite N.shiftr_div_pow2.
  destruct (N.eqb_spec (tk_pid_tgid t / 2 ^ 32 mod 2 ^ 32) (proxy_pid config)); [tauto|].
  destruct (N.eqb_spec (proxy_cgroup config) 0); [naive_solver|]. rewrite N.eqb_eq. naive_solver.
Qed.

Definition listener (config : Config) (proto : N) : N :=
  if (proto =? IPPROTO_TCP)%N then tcp_port config else udp_port config.

(** The tests of the hook, in its own terms. *)
Record passes (config : Config) (t : Task) (m : Maps) (a : SockAddr) : Prop := {
  pa_config : CONFIG m = Some config;
  pa_own : is_proxy (Some config) t = false;
  pa_netns : netns_cookie config = 0%N ∨ sa_netns_cookie a = netns_cookie config;
  pa_protocol : protocol a = IPPROTO_TCP ∨ protocol a = IPPROTO_UDP;
  pa_family : user_family a = AF_INET;
  pa_loopback : is_loopback (user_ip4 a) = false;
  pa_bypass : is_bypassed (Some config) (user_ip4 a) = false;
  pa_cookie : sa_cookie a ≠ 0%N;
}.

Definition dst_record (a : SockAddr) : OrigDst :=
  {| od_ip := user_ip4 a; od_port := user_port a; od_proto := (protocol a mod 256)%N |}.
Definition to_listener (config : Config) (a : SockAddr) : SockAddr :=
  set_dst loopback_addr (swap16 (listener config (protocol a) mod 65536)) a.

Lemma connect4_passes config t m a :
  passes config t m a →
  connect4 t m a =
    match lru_insert MAX_ENTRIES (sa_cookie a) (dst_record a) (ORIG_DST m) with
    | None => (m, a)
    | Some tbl => (set_orig_dst tbl m, to_listener config a)
    end.
Proof.
  intros [Hc Ho Hns Hp Hf Hl Hb Hk].
  assert (∀ port, redirect port m a =
    match lru_insert MAX_ENTRIES (sa_cookie a) (dst_record a) (ORIG_DST m) with
    | None => (m, a)
    | Some tbl => (set_orig_dst tbl m, set_dst loopback_addr (swap16 (port mod 65536)) a)
    end) as Hr.
  { intros port. unfold redirect. rewrite Hf, Hl, Hc, Hb, (proj2 (N.eqb_neq _ _) Hk). done. }
  unfold connect4. rewrite Hc, Ho.
  assert (negb (netns_cookie config =? 0)%N && negb (sa_netns_cookie a =? netns_cookie config)%N = false) as ->.
  { destruct Hns as [-> | ->]; [done|]. by rewrite N.eqb_refl, andb_false_r. }
  unfold to_listener, listener. destruct Hp as [-> | ->]; cbn [N.eqb Pos.eqb IPPROTO_TCP IPPROTO_UDP fmap option_fmap option_map];
    apply Hr.
Qed.

Lemma connect4_guards t m a : connect4 t m a = (m, a) ∨ ∃ config, passes config t m a.
Proof.
  unfold connect4. destruct (CONFIG m) as [config|] eqn:Hc; [|by left].
  destruct (is_proxy (Some config) t) eqn:Ep; [by left|].
  destruct (negb (netns_cookie config =? 0)%N && negb (sa_netns_cookie a =? netns_cookie config)%N) eqn:En; [by left|].
  assert (netns_cookie config = 0%N ∨ sa_netns_cookie a = netns_cookie config) as Hns.
  { apply andb_false_iff in En as [En|En]; apply negb_false_iff, N.eqb_eq in En; auto. }
  assert (∀ port, redirect port m a = (m, a) ∨
    (user_family a = AF_INET ∧ is_loopback (user_ip4 a) = false ∧ is_bypassed (Some config) (user_ip4 a) = false ∧
     sa_cookie a ≠ 0%N)) as Hr.
  { intros port. unfold redirect. rewrite Hc. destruct (N.eqb_spec (user_family a) AF_INET); [|by left].
    cbn [negb]. destruct (is_loopback (user_ip4 a)); [by left|]. destruct (is_bypassed _ _); [by left|].
    destruct (N.eqb_spec (sa_cookie a) 0); [by left|]. by right. }
  cbn [fmap option_fmap option_map].
  destruct (N.eqb_spec (protocol a) IPPROTO_TCP) as [Ht|Ht].
  - destruct (Hr (tcp_port config)) as [|(? & ? & ? & ?)]; [by left|right]. exists config. split; auto.
  - destruct (N.eqb_spec (protocol a) IPPROTO_UDP) as [Hu|Hu]; [|by left].
    destruct (Hr (udp_port config)) as [|(? & ? & ? & ?)]; [by left|right]. exists config. split; auto.
Qed.

(** A dial that is not redirected is left as it is, and leaves no trace. *)
Lemma connect4_cases t m a :
  connect4 t m a = (m, a) ∨
  ∃ config tbl, passes config t m a ∧
    lru_insert MAX_ENTRIES (sa_cookie a) (dst_record a) (ORIG_DST m) = Some tbl ∧
    connect4 t m a = (set_orig_dst tbl m, to_listener config a).
Proof.
  destruct (connect4_guards t m a) as [|[config Hp]]; [by left|]. rewrite (connect4_passes config) by done.
  destruct (lru_insert _ _ _ _) as [tbl|] eqn:E; [right; by exists config, tbl|by left].
Qed.

(** [wanted] is what the tests decide. *)
Lemma passes_wanted pid cgroup tcp udp ns bypass config t m family proto cookie netns ip port :
  from_bypass pid cgroup tcp udp ns bypass = Ok config → CONFIG m = Some config →
  Forall (λ e : Cidr, e.1 < 2 ^ 32)%N bypass → (ip < 2 ^ 32)%N →
  passes config t m (sock family proto cookie netns ip port) ↔ wanted config bypass t family proto cookie netns ip.
Proof.
  intros Hb Hcfg Hn Hip. pose proof (bypass_exact _ _ _ _ _ _ _ ip Hb Hn Hip) as Hby.
  pose proof (is_loopback_encode ip Hip) as Hlo. pose proof (is_proxy_spec config t) as Hpx. unfold wanted.
  rewrite <- Hby. split.
  - intros [_ Ho Hns Hp Hf Hl Hb' Hk]. cbn [sock user_ip4 protocol user_family sa_cookie sa_netns_cookie] in *.
    rewrite Ho in Hpx. rewrite Hlo in Hl. apply N.eqb_neq in Hl. rewrite Hb'. split_and!; try done.
    + intros He. by discriminate (proj2 Hpx (or_introl He)).
    + destruct (N.eq_dec (proxy_cgroup config) 0); [by left|right]. intros He. by discriminate (proj2 Hpx (or_intror (conj n He))).
  - intros [(Hp1 & Hp2 & Hns & Hp & Hf & Hk & Hl) Hb'].
    split; cbn [sock user_ip4 protocol user_family sa_cookie sa_netns_cookie]; try done.
    + apply not_true_iff_false. rewrite Hpx. intros [He|[Hz He]]; [exact (Hp1 He)|destruct Hp2 as [Hp2|Hp2]; [exact (Hz Hp2)|exact (Hp2 He)]].
    + rewrite Hlo. by apply N.eqb_neq.
    + by apply not_true_iff_false.
Qed.

(** Under the entry the loader writes, [connect4] changes nothing, neither
    the socket nor the maps, for a dial hodor does not want; a wanted one is
    sent to the loopback listener of its protocol with its destination
    recorded under the socket, unless that record cannot be made. *)
Theorem connect4_exact pid cgroup tcp udp ns bypass config t m family proto cookie netns ip port :
  from_bypass pid cgroup tcp udp ns bypass = Ok config → CONFIG m = Some config →
  Forall (λ e : Cidr, e.1 < 2 ^ 32)%N bypass → (ip < 2 ^ 32)%N →
  let a := sock family proto cookie netns ip port in
  let record := {| od_ip := encode_addr ip; od_port := swap16 port; od_proto := (proto mod 256)%N |} in
  (¬ wanted config bypass t family proto cookie netns ip → connect4 t m a = (m, a)) ∧
  (wanted config bypass t family proto cookie netns ip →
   connect4 t m a =
     match lru_insert MAX_ENTRIES cookie record (ORIG_DST m) with
     | None => (m, a)
     | Some tbl => (set_orig_dst tbl m, set_dst loopback_addr (swap16 (listener config proto mod 65536)) a)
     end).
Proof.
  intros Hb Hcfg Hn Hip a record.
  pose proof (passes_wanted _ _ _ _ _ _ _ t m family proto cookie netns ip port Hb Hcfg Hn Hip) as Hpw. split.
  - intros Hw. destruct (connect4_guards t m a) as [|[config' Hp]]; [done|]. destruct Hw. apply Hpw.
    pose proof (pa_config _ _ _ _ Hp) as Hc. rewrite Hcfg in Hc. by injection Hc as ->.
  - intros Hw. exact (connect4_passes config t m a (proj2 Hpw Hw)).
Qed.
(** ** The tables against a ledger

    The kernel's maps forget; the ledger does not. It keeps, per socket, the
    last destination it was redirected from, and per local address the last
    redirected socket seen leaving from it. *)

Record Ledger := {
  dests : gmap N (SocketAddr * N);
  owners : gmap (Ipv4Addr * N) N;
}.

(** What happens on the machine: a dial, a packet leaving, a new entry from the
    loader. *)
Inductive event :=
| EvConnect (t : Task) (family proto cookie netns : N) (ip : Ipv4Addr) (port : N)
| EvEgress (t : Task) (family cookie : N) (ip : Ipv4Addr) (port : N)
| EvConfig (config : Config).

Definition event_ok (ev : event) : Prop :=
  match ev with
  | EvConnect _ _ _ _ _ ip port | EvEgress _ _ _ ip port => (ip < 2 ^ 32)%N ∧ (port < 65536)%N
  | EvConfig _ => True
  end.

Definition packet (family cookie : N) (ip : Ipv4Addr) (port : N) : SkBuff :=
  {| skb_family := family; skb_cookie := cookie; local_ipv4 := encode_addr ip; local_port := port |}.

Definition run_event (m : Maps) (ev : event) : Maps :=
  match ev with
  | EvConnect t family proto cookie netns ip port => (connect4 t m (sock family proto cookie netns ip port)).1
  | EvEgress t family cookie ip port => capture_egress t m (packet family cookie ip port)
  | EvConfig config => {| CONFIG := Some config; ORIG_DST := ORIG_DST m; FLOW := FLOW m |}
  end.

(** The ledger follows what can be seen from outside: a socket whose address
    was rewritten, a local address that was indexed. *)
Definition ledger_event (m : Maps) (l : Ledger) (ev : event) : Ledger :=
  match ev with
  | EvConnect t family proto cookie netns ip port =>
      if (user_ip4 (connect4 t m (sock family proto cookie netns ip port)).2 =? loopback_addr)%N &&
         negb (encode_addr ip =? loopback_addr)%N
      then {| dests := <[cookie := ((V4 (be32 ip), port), proto)]> (dests l); owners := owners l |}
      else l
  | EvEgress t family cookie ip port =>
      if bool_decide (FLOW (capture_egress t m (packet family cookie ip port)) !! {| fk_ip := encode_addr ip; fk_port := port |} = Some cookie)
      then {| dests := dests l; owners := <[(ip, port) := cookie]> (owners l) |}
      else l
  | EvConfig _ => l
  end.

Definition step_both (ml : Maps * Ledger) (ev : event) : Maps * Ledger :=
  (run_event ml.1 ev, ledger_event ml.1 ml.2 ev).
Definition run_both (ml : Maps * Ledger) (evs : list event) : Maps * Ledger := foldl step_both ml evs.

(** What the ledger says of a peer. *)
Definition intended (l : Ledger) (ip : Ipv4Addr) (port proto : N) : option SocketAddr :=
  cookie ← owners l !! (ip, port);
  '(dst, dst_proto) ← dests l !! cookie;
  if (dst_proto =? proto)%N then Some dst else None.

(** The tables say nothing the ledger does not, and stay within their size. *)
Record refines (m : Maps) (l : Ledger) : Prop := {
  rf_dests : ∀ cookie orig, ORIG_DST m !! cookie = Some orig →
    ∃ ip port proto, dests l !! cookie = Some ((V4 (be32 ip), port), proto) ∧ (ip < 2 ^ 32)%N ∧ (port < 65536)%N ∧
      (proto = IPPROTO_TCP ∨ proto = IPPROTO_UDP) ∧
      orig = {| od_ip := encode_addr ip; od_port := swap16 port; od_proto := (proto mod 256)%N |};
  rf_owners : ∀ ip port cookie, (ip < 2 ^ 32)%N → (port < 65536)%N →
    FLOW m !! {| fk_ip := encode_addr ip; fk_port := port |} = Some cookie → owners l !! (ip, port) = Some cookie;
  rf_size : size (ORIG_DST m) ≤ MAX_ENTRIES ∧ size (FLOW m) ≤ MAX_ENTRIES;
}.

Lemma encode_addr_inj a b : (a < 2 ^ 32)%N → (b < 2 ^ 32)%N → encode_addr a = encode_addr b → a = b.
Proof.
  unfold encode_addr. intros Ha Hb He. rewrite <- (swap32_involutive a Ha), <- (swap32_involutive b Hb). by rewrite He.
Qed.

Lemma lru_insert_lookup {K V} `{Countable K} cap k v (m m' : gmap K V) j w :
  lru_insert cap k v m = Some m' → m' !! j = Some w → (j = k ∧ w = v) ∨ (j ≠ k ∧ m !! j = Some w).
Proof.
  intros Hi Hj. destruct (decide (j = k)) as [->|Hne].
  - left. split; [done|]. rewrite (lru_insert_key _ _ _ _ _ Hi) in Hj. congruence.
  - right. split; [done|]. pose proof (lookup_weaken _ _ _ _ Hj (lru_insert_sub _ _ _ _ _ Hi)) as Hw.
    by rewrite lookup_insert_ne in Hw.
Qed.

Lemma max_entries_pos : 0 < MAX_ENTRIES.
Proof. apply Nat.ltb_lt. by vm_compute. Qed.

Lemma refines_connect m l t family proto cookie netns ip port :
  (ip < 2 ^ 32)%N → (port < 65536)%N → refines m l →
  refines (run_event m (EvConnect t family proto cookie netns ip port))
    (ledger_event m l (EvConnect t family proto cookie netns ip port)).
Proof.
  intros Hip Hport [Hd Ho [Hs1 Hs2]]. cbn [run_event ledger_event]. set (a := sock family proto cookie netns ip port).
  destruct (connect4_cases t m a) as [->|(config & tbl & Hp & Hi & ->)]; cbn [fst snd].
  - assert ((user_ip4 a =? loopback_addr)%N && negb (encode_addr ip =? loopback_addr)%N = false) as ->; [|by split].
    change (user_ip4 a) with (encode_addr ip). by destruct (_ =? _)%N.
  - assert ((user_ip4 (to_listener config a) =? loopback_addr)%N && negb (encode_addr ip =? loopback_addr)%N = true) as ->.
    { change (user_ip4 (to_listener config a)) with loopback_addr. rewrite N.eqb_refl. cbn [andb]. apply negb_true_iff, N.eqb_neq.
      intros He. pose proof (pa_loopback _ _ _ _ Hp) as Hl. change (user_ip4 a) with (encode_addr ip) in Hl.
      rewrite He in Hl. by vm_compute in Hl. }
    split; cbn [set_orig_dst ORIG_DST FLOW dests owners].
    + intros c orig Hc. destruct (lru_insert_lookup _ _ _ _ _ _ _ Hi Hc) as [[-> ->]|[Hne Hc']].
      * exists ip, port, proto. rewrite lookup_insert_eq. split_and!; try done. exact (pa_protocol _ _ _ _ Hp).
      * rewrite lookup_insert_ne by done. by apply Hd.
    + exact Ho.
    + split; [|done]. exact (lru_insert_cap _ _ _ _ _ Hi max_entries_pos Hs1).
Qed.

(** [capture_egress] does nothing or indexes a redirected socket. *)
Lemma capture_egress_cases t m skb :
  capture_egress t m skb = m ∨
  ∃ f, is_Some (ORIG_DST m !! skb_cookie skb) ∧
    lru_insert MAX_ENTRIES (flow_key skb) (skb_cookie skb) (FLOW m) = Some f ∧ capture_egress t m skb = set_flow f m.
Proof.
  unfold capture_egress. case_match; [by left|]. case_match; [by left|]. case_match; [by left|].
  destruct (ORIG_DST m !! skb_cookie skb) eqn:E; [|by left].
  destruct (lru_insert MAX_ENTRIES (flow_key skb) _ _) as [f|]; [right; by exists f|by left].
Qed.

Lemma flow_key_packet family cookie ip port : (port < 65536)%N →
  flow_key (packet family cookie ip port) = {| fk_ip := encode_addr ip; fk_port := port |}.
Proof. intros Hp. unfold flow_key. cbn [packet local_ipv4 local_port]. by rewrite N.mod_small. Qed.

Lemma refines_egress m l t family cookie ip port :
  (ip < 2 ^ 32)%N → (port < 65536)%N → refines m l →
  refines (run_event m (EvEgress t family cookie ip port)) (ledger_event m l (EvEgress t family cookie ip port)).
Proof.
  intros Hip Hport [Hd Ho [Hs1 Hs2]]. cbn [run_event ledger_event]. set (skb := packet family cookie ip port).
  destruct (capture_egress_cases t m skb) as [->|(f & _ & Hi & ->)].
  - case_bool_decide as Hf; [|by split]. split; [exact Hd| |done]. cbn [owners]. intros ip' port' c Hi' Hp' Hl.
    destruct (decide ((ip', port') = (ip, port))) as [[= -> ->]|Hne].
    + rewrite lookup_insert_eq. congruence.
    + rewrite lookup_insert_ne by congruence. by apply Ho.
  - cbn [set_flow FLOW]. rewrite (flow_key_packet family cookie ip port Hport : flow_key skb = _) in Hi. change (skb_cookie skb) with cookie in Hi.
    rewrite bool_decide_eq_true_2 by exact (lru_insert_key _ _ _ _ _ Hi).
    split; [exact Hd| |split; [done|exact (lru_insert_cap _ _ _ _ _ Hi max_entries_pos Hs2)]].
    cbn [owners FLOW]. intros ip' port' c Hi' Hp' Hl.
    destruct (lru_insert_lookup _ _ _ _ _ _ _ Hi Hl) as [[[= He ->] ->]|[Hne Hl']].
    + apply encode_addr_inj in He as ->; [|done..]. by rewrite lookup_insert_eq.
    + rewrite lookup_insert_ne; [by apply Ho|]. intros [= -> ->]. done.
Qed.

Lemma refines_run evs m l : Forall event_ok evs → refines m l →
  refines (run_both (m, l) evs).1 (run_both (m, l) evs).2.
Proof.
  revert m l. induction evs as [|ev evs IH]; intros m l Hok Hr; [done|]. apply Forall_cons in Hok as [Hev Hok].
  apply IH; [done|]. destruct ev; simpl in Hev; destruct_and?.
  - by apply refines_connect.
  - by apply refines_egress.
  - destruct Hr. by split.
Qed.

(** The lookup over tables that refine a ledger. *)
Lemma original_refines m l ip port proto : refines m l → (ip < 2 ^ 32)%N → (port < 65536)%N →
  original (tables_of m) (V4 (be32 ip), port) proto = Ok None ∨
  original (tables_of m) (V4 (be32 ip), port) proto = Ok (intended l ip port proto).
Proof.
  intros [Hd Ho _] Hip Hport. unfold original. rewrite from_peer_encode by done.
  cbn [tables_of flows orig]. unfold map_get.
  destruct (FLOW m !! _) as [cookie|] eqn:Ef; cbn [ok_or]; [|by left].
  destruct (ORIG_DST m !! cookie) as [od|] eqn:Eo; cbn [ok_or]; [|by left].
  destruct (Hd _ _ Eo) as (dip & dport & dproto & Hdl & Hdi & Hdp & Hpr & ->). cbn [od_proto].
  assert (dproto mod 256 = dproto)%N as -> by (destruct Hpr as [-> | ->]; done).
  destruct (dproto =? proto)%N eqn:Ep; [right|by left].
  unfold intended. rewrite (Ho _ _ _ Hip Hport Ef). cbn [mbind option_bind]. rewrite Hdl. cbn [mbind option_bind]. rewrite Ep.
  unfold socket_addr. cbn [od_port od_ip]. rewrite decode_port_swap by done. cbn [mbind option_bind].
  unfold decode_addr, encode_addr. by rewrite swap32_involutive.
Qed.

(** C34: The capture tables refine the ledger: after any dials, packets and
    configuration writes, in any order and whatever the kernel evicted, the
    tables stay within [MAX_ENTRIES] and the lookup of a peer answers nothing,
    or exactly the destination that the last redirected socket seen leaving
    from that local address was last redirected from, for its own protocol. *)
Theorem tables_refine_ledger config evs ip port proto :
  Forall event_ok evs → (ip < 2 ^ 32)%N → (port < 65536)%N →
  let '(m, l) := run_both ({| CONFIG := config; ORIG_DST := ∅; FLOW := ∅ |}, {| dests := ∅; owners := ∅ |}) evs in
  size (ORIG_DST m) ≤ MAX_ENTRIES ∧ size (FLOW m) ≤ MAX_ENTRIES ∧
  (original (tables_of m) (V4 (be32 ip), port) proto = Ok None ∨
   original (tables_of m) (V4 (be32 ip), port) proto = Ok (intended l ip port proto)).
Proof.
  intros Hok Hip Hport.
  assert (refines {| CONFIG := config; ORIG_DST := ∅; FLOW := ∅ |} {| dests := ∅; owners := ∅ |}) as Hr.
  { split; cbn [ORIG_DST FLOW]; [by intros ? ? []%lookup_empty_Some|by intros ? ? ? ? ? []%lookup_empty_Some|].
    rewrite !map_size_empty. lia. }
  pose proof (refines_run evs _ _ Hok Hr) as Hrun. destruct (run_both _ evs) as [m l]. cbn [fst snd] in Hrun.
  destruct (rf_size _ _ Hrun). split_and!; [done..|by apply original_refines].
Qed.

Lemma socket_addr_record family proto cookie netns ip port : (ip < 2 ^ 32)%N → (port < 65536)%N →
  socket_addr (dst_record (sock family proto cookie netns ip port)) = Some (V4 (be32 ip), port).
Proof.
  intros Hip Hport. unfold socket_addr, dst_record, sock. cbn [od_port od_ip user_port user_ip4].
  rewrite decode_port_swap by done. cbn [mbind option_bind]. unfold decode_addr, encode_addr. by rewrite swap32_involutive.
Qed.

(** C35: A wanted dial whose records are made is captured end to end: the
    client's socket points at the loopback listener of its protocol; once its
    first packet has left, the listener's peer resolves to exactly the address
    and port the client asked for, for that protocol and no other; and a
    datagram the listener sends back shows that same address as its source. *)
Theorem capture_resolves config t m family proto cookie netns ip port t' lip lport tbl f lnetns :
  let a := sock family proto cookie netns ip port in
  passes config t m a → (ip < 2 ^ 32)%N → (port < 65536)%N → (lip < 2 ^ 32)%N → (lport < 65536)%N →
  is_proxy (Some config) t' = false →
  lru_insert MAX_ENTRIES cookie (dst_record a) (ORIG_DST m) = Some tbl →
  lru_insert MAX_ENTRIES {| fk_ip := encode_addr lip; fk_port := lport |} cookie (FLOW m) = Some f →
  let '(m1, a1) := connect4 t m a in
  let m2 := capture_egress t' m1 (packet AF_INET cookie lip lport) in
  a1 = to_listener config a ∧
  (∀ proto', original (tables_of m2) (V4 (be32 lip), lport) proto' =
     Ok (if (proto =? proto')%N then Some (V4 (be32 ip), port) else None)) ∧
  recvmsg4 m2 (sock AF_INET proto cookie lnetns 0x7F000001 (listener config proto)) =
    sock AF_INET proto cookie lnetns ip port.
Proof.
  intros a Hp Hip Hport Hlip Hlport Ht' Hi Hf. rewrite (connect4_passes config) by done.
  change (sa_cookie a) with cookie. rewrite Hi. set (m1 := set_orig_dst tbl m).
  pose proof (lru_insert_key _ _ _ _ _ Hi) as Hk. pose proof (pa_cookie _ _ _ _ Hp) as Hc0. change (sa_cookie a) with cookie in Hc0.
  pose proof (pa_config _ _ _ _ Hp) as Hcfg.
  assert (proto mod 256 = proto)%N as Hpm.
  { destruct (pa_protocol _ _ _ _ Hp) as [He|He]; change (protocol a) with proto in He; by rewrite He. }
  assert (capture_egress t' m1 (packet AF_INET cookie lip lport) = set_flow f m1) as ->.
  { unfold capture_egress. change (CONFIG m1) with (CONFIG m). rewrite Hcfg, Ht'.
    cbn [packet skb_family skb_cookie]. rewrite N.eqb_refl, (proj2 (N.eqb_neq _ _) Hc0). cbn [negb].
    change (ORIG_DST m1) with tbl. rewrite Hk. change (FLOW m1) with (FLOW m).
    by rewrite (flow_key_packet AF_INET cookie lip lport Hlport), Hf. }
  split; [done|]. split.
  - intros proto'. unfold original. rewrite from_peer_encode by done. cbn [tables_of flows orig]. unfold map_get.
    change (FLOW (set_flow f m1)) with f. rewrite (lru_insert_key _ _ _ _ _ Hf). cbn [ok_or].
    change (ORIG_DST (set_flow f m1)) with tbl. rewrite Hk. cbn [ok_or].
    change (od_proto (dst_record a)) with (proto mod 256)%N. rewrite Hpm.
    rewrite (socket_addr_record family proto cookie netns ip port Hip Hport : socket_addr (dst_record a) = _).
    by destruct (proto =? proto')%N.
  - unfold recvmsg4. cbn [sock user_family user_ip4 sa_cookie].
    assert (is_loopback (encode_addr 0x7F000001) = true) as -> by (by vm_compute).
    rewrite N.eqb_refl, (proj2 (N.eqb_neq _ _) Hc0). cbn [negb orb].
    change (ORIG_DST (set_flow f m1)) with tbl. by rewrite Hk.
Qed.

(** The record of a socket outlives its use: a socket that reconnects to a
    loopback or bypassed destination keeps it, and a datagram from a genuine
    local service is then shown as coming from the earlier destination. *)
Lemma stale_record_rewrites_local config t m cookie netns ip port service sport old oldport :
  is_loopback (encode_addr ip) = true ∨ is_bypassed (CONFIG m) (encode_addr ip) = true →
  CONFIG m = Some config → cookie ≠ 0%N → is_loopback (encode_addr service) = true →
  ORIG_DST m !! cookie = Some {| od_ip := encode_addr old; od_port := swap16 oldport; od_proto := IPPROTO_UDP |} →
  let '(m', a') := connect4 t m (sock AF_INET IPPROTO_UDP cookie netns ip port) in
  a' = sock AF_INET IPPROTO_UDP cookie netns ip port ∧
  recvmsg4 m' (sock AF_INET IPPROTO_UDP cookie netns service sport) = sock AF_INET IPPROTO_UDP cookie netns old oldport.
Proof.
  intros Hlb Hcfg Hc Hs Hold. destruct (connect4_cases t m (sock AF_INET IPPROTO_UDP cookie netns ip port))
    as [->|(config' & tbl & Hp & _)].
  - split; [done|]. unfold recvmsg4. cbn [sock user_family user_ip4 sa_cookie].
    rewrite Hs, (proj2 (N.eqb_neq _ _) Hc). cbn [negb orb N.eqb AF_INET Pos.eqb]. by rewrite Hold.
  - exfalso. destruct Hlb as [Hl|Hb].
    + pose proof (pa_loopback _ _ _ _ Hp) as Hl'. cbn [sock user_ip4] in Hl'. congruence.
    + pose proof (pa_bypass _ _ _ _ Hp) as Hb'. rewrite (pa_config _ _ _ _ Hp) in Hb. cbn [sock user_ip4] in Hb'. congruence.
Qed.
End Hooks.

(** ** The janitor *)

(** [sweep] drops the idle flows and nothing else. *)
Lemma sweep_lookup now table client :
  sweep now table !! client = flow ← table !! client; if idle now flow then None else Some flow.
Proof.
  unfold sweep. set (stale := omap _ _).
  assert (∀ keys t, foldl (λ t key, delete key t) t keys !! client =
    if bool_decide (client ∈ keys) then None else (t : gmap SocketAddr Flow) !! client) as Hdel.
  { induction keys as [|k keys IH]; intros t; [done|]. cbn [foldl]. rewrite IH.
    destruct (decide (client = k)) as [->|Hne].
    - rewrite lookup_delete_eq, (bool_decide_eq_true_2 (k ∈ k :: keys)) by set_solver. by case_bool_decide.
    - rewrite lookup_delete_ne by done. by rewrite (bool_decide_ext (client ∈ keys) (client ∈ k :: keys)) by set_solver. }
  rewrite Hdel. assert (client ∈ stale ↔ ∃ flow, table !! client = Some flow ∧ idle now flow = true) as Hst.
  { unfold stale. rewrite list_elem_of_omap. split.
    - intros ([k flow] & Hin%elem_of_map_to_list & He). cbn [fst snd] in He. destruct (idle now flow) eqn:Ei; simplify_eq.
      by exists flow.
    - intros (flow & Hl & Hi). exists (client, flow). rewrite elem_of_map_to_list. cbn [fst snd]. by rewrite Hi. }
  case_bool_decide as Hin; rewrite Hst in Hin.
  - destruct Hin as (flow & -> & Hi). cbn. by rewrite Hi.
  - destruct (table !! client) as [flow|]; [|done]. cbn. destruct (idle now flow) eqn:Ei; [|done].
    destruct Hin. by exists flow.
Qed.

(** ** A concrete kernel and concrete flows *)

(** Maps that forget everything else when they are full. *)
#[local] Instance sample_lru : LruMaps := {|
  lru_insert K V _ _ cap k v m :=
    if decide (size (<[k:=v]> m) ≤ cap) then Some (<[k:=v]> m) else Some {[k := v]};
|}.

#[local] Instance sample_lru_ok : LruMapsOk.
Proof.
  split; intros K V ? ? cap k v m m'; unfold lru_insert, sample_lru; case_decide as Hs; intros [= <-].
  - apply lookup_insert_eq.
  - apply lookup_singleton_eq.
  - done.
  - apply map_singleton_subseteq_l, lookup_insert_eq.
  - done.
  - intros ? _. rewrite map_size_singleton. lia.
Qed.

Definition sample_config : Config :=
  match configure sample_watch (build_bypass [3232235777]%N [] (bw_explicit sample_watch) []) with
  | Ok config => config
  | Err _ => {| proxy_pid := 0; proxy_cgroup := 0; tcp_port := 0; udp_port := 0; netns_cookie := 0; bypass_count := 0;
                bypass_nets := []; bypass_lens := [] |}
  end.
Definition sample_client : Task := {| tk_pid_tgid := 77 * 2 ^ 32 + 77; tk_cgroup := 9 |}.
Definition sample_maps : Maps := {| CONFIG := Some sample_config; ORIG_DST := ∅; FLOW := ∅ |}.

Lemma connect4_exact_witness :
  connect4 sample_client sample_maps (sock AF_INET IPPROTO_TCP 5 1 0x08080808 443) =
    (set_orig_dst {[5%N := {| od_ip := encode_addr 0x08080808; od_port := swap16 443; od_proto := 6 |}]} sample_maps,
     set_dst loopback_addr (swap16 15000) (sock AF_INET IPPROTO_TCP 5 1 0x08080808 443)).
Proof.
  pose proof (connect4_exact 41 7 15000 15001 1 [(167772160, 8); (3232235777, 32)]%N sample_config sample_client
    sample_maps AF_INET IPPROTO_TCP 5 1 0x08080808 443 ltac:(by vm_compute) ltac:(done)
    ltac:(repeat constructor) ltac:(done)) as [_ Hw].
  rewrite Hw; [by vm_compute|]. split.
  { split_and!; [by vm_compute|right; by vm_compute|right; by vm_compute|by left|done|done|by vm_compute]. }
  intros (e & Hin & He). apply elem_of_cons in Hin as [->|Hin]; [by vm_compute in He|].
  apply elem_of_cons in Hin as [->|Hin]; [by vm_compute in He|]. by apply elem_of_nil in Hin.
Defined.

Lemma capture_resolves_witness :
  let a := sock AF_INET IPPROTO_UDP 6 1 0x01010101 53 in
  let '(m1, a1) := connect4 sample_client sample_maps a in
  let m2 := capture_egress sample_client m1 (packet AF_INET 6 0x7F000001 40000) in
  a1 = to_listener sample_config a ∧
  (∀ proto', original (tables_of m2) (V4 (be32 0x7F000001), 40000%N) proto' =
     Ok (if (IPPROTO_UDP =? proto')%N then Some (V4 (be32 0x01010101), 53%N) else None)) ∧
  recvmsg4 m2 (sock AF_INET IPPROTO_UDP 6 0 0x7F000001 (listener sample_config IPPROTO_UDP)) =
    sock AF_INET IPPROTO_UDP 6 0 0x01010101 53.
Proof.
  set (od := {| od_ip := encode_addr 0x01010101; od_port := swap16 53; od_proto := 17 |}).
  apply (capture_resolves sample_config sample_client sample_maps AF_INET IPPROTO_UDP 6 1 0x01010101 53 sample_client
    0x7F000001 40000 {[6%N := od]} {[ {| fk_ip := encode_addr 0x7F000001; fk_port := 40000 |} := 6%N ]} 0);
    try by vm_compute.
  split; try by vm_compute. all: vm_compute; auto.
Defined.

Lemma tables_refine_ledger_witness :
  let '(m, l) := run_both (sample_maps, {| dests := ∅; owners := ∅ |})
    [EvConnect sample_client AF_INET IPPROTO_TCP 5 1 0x08080808 443;
     EvEgress sample_client AF_INET 5 0x0A000002 50000] in
  size (ORIG_DST m) ≤ MAX_ENTRIES ∧ size (FLOW m) ≤ MAX_ENTRIES ∧
  (original (tables_of m) (V4 (be32 0x0A000002), 50000%N) IPPROTO_TCP = Ok None ∨
   original (tables_of m) (V4 (be32 0x0A000002), 50000%N) IPPROTO_TCP = Ok (intended l 0x0A000002 50000 IPPROTO_TCP)).
Proof.
  apply (tables_refine_ledger (Some sample_config)); [|done..].
  repeat constructor.
Defined.
