(* ===== verification/UdpRelay.v ===== *)
(** * The UDP relays

    [one] and [janitor] of [crates/hodor-ebpf/src/udp.rs], which relay the
    datagrams the eBPF programs redirect, and [udp_session_task] of
    [crates/hodor-tun/src/udp.rs]. The first runs one task for every datagram
    over a table of flows they share, so its tasks are interleaved: an event is
    one task going on to its next await, a datagram that arrives, or a sweep. *)

From S2P Require Import Prelude Tun Bypass Ebpf.

(** ** The relay of the eBPF capture *)

(** Where a task stands: it has its datagram; it knows the recorded destination
    and opens a socket; it waits for the lock of a flow; it holds it; it has sent
    and waits for a reply; it has ended. *)
Inductive UdpPc :=
| UpStart
| UpOpening (dst : SocketAddr)
| UpWaiting (flow : nat)
| UpHolding (flow : nat)
| UpSent (flow : nat)
| UpDone.
Record UdpTask := { ut_client : SocketAddr; ut_payload : bytes; ut_pc : UdpPc }.
(** A flow behind its lock, the client it was made for, and the datagrams its
    socket has received and not given yet. *)
Record UdpCell := { uc_client : SocketAddr; uc_flow : Flow; uc_inbox : list bytes }.

(** The table names flows; a flow lives as long as a task holds it, whatever the
    table says. The last three are logs: the destinations that were recorded, the
    sends, by task and flow, and the replies, by task, flow and data. *)
Record UdpRelay := {
  ur_table : gmap SocketAddr nat;
  ur_flows : list UdpCell;
  ur_tasks : list UdpTask;
  ur_recorded : list (SocketAddr * SocketAddr);
  ur_sent : list (nat * nat);
  ur_arrived : list (nat * bytes);
  ur_replied : list (nat * nat * bytes);
}.
Definition relay_new : UdpRelay :=
  {| ur_table := ∅; ur_flows := []; ur_tasks := []; ur_recorded := []; ur_sent := []; ur_arrived := []; ur_replied := [] |}.

Inductive UdpEvent :=
| UeReceived (client : SocketAddr) (payload : bytes)
| UeLookedUp (task : nat) (tables : FlowTables)
| UeOpened (task : nat) (now : N) (ok : bool)
| UeLocked (task : nat)
| UeSent (task : nat) (now : N) (ok : bool)
| UeArrived (flow : nat) (data : bytes)
| UeReplied (task : nat) (now : N) (delivered : bool)
| UeUnanswered (task : nat)
| UeSwept (now : N).

Definition goto (pc : UdpPc) (t : UdpTask) : UdpTask := {| ut_client := ut_client t; ut_payload := ut_payload t; ut_pc := pc |}.
Definition set_locked (locked : bool) (c : UdpCell) : UdpCell :=
  {| uc_client := uc_client c; uc_inbox := uc_inbox c;
     uc_flow := {| fl_dst := fl_dst (uc_flow c); fl_last_active := fl_last_active (uc_flow c); fl_locked := locked |} |}.
Definition touch (now : N) (c : UdpCell) : UdpCell :=
  {| uc_client := uc_client c; uc_inbox := uc_inbox c;
     uc_flow := {| fl_dst := fl_dst (uc_flow c); fl_last_active := now; fl_locked := fl_locked (uc_flow c) |} |}.
Definition set_inbox (inbox : list bytes) (c : UdpCell) : UdpCell := {| uc_client := uc_client c; uc_flow := uc_flow c; uc_inbox := inbox |}.

(** The state with other tasks, with other flows, and with another table. *)
Definition with_tasks (s : UdpRelay) (tasks : list UdpTask) : UdpRelay :=
  {| ur_table := ur_table s; ur_flows := ur_flows s; ur_tasks := tasks; ur_recorded := ur_recorded s; ur_sent := ur_sent s;
     ur_arrived := ur_arrived s; ur_replied := ur_replied s |}.
Definition with_flows (s : UdpRelay) (flows : list UdpCell) : UdpRelay :=
  {| ur_table := ur_table s; ur_flows := flows; ur_tasks := ur_tasks s; ur_recorded := ur_recorded s; ur_sent := ur_sent s;
     ur_arrived := ur_arrived s; ur_replied := ur_replied s |}.
Definition with_table (s : UdpRelay) (table : gmap SocketAddr nat) : UdpRelay :=
  {| ur_table := table; ur_flows := ur_flows s; ur_tasks := ur_tasks s; ur_recorded := ur_recorded s; ur_sent := ur_sent s;
     ur_arrived := ur_arrived s; ur_replied := ur_replied s |}.
Definition with_logs (s : UdpRelay) (recorded : list (SocketAddr * SocketAddr)) (sent : list (nat * nat)) (arrived : list (nat * bytes))
    (replied : list (nat * nat * bytes)) : UdpRelay :=
  {| ur_table := ur_table s; ur_flows := ur_flows s; ur_tasks := ur_tasks s; ur_recorded := recorded; ur_sent := sent;
     ur_arrived := arrived; ur_replied := replied |}.

Section Relay.
Context (upstream_override : option SocketAddr).

(** The flow of a client, or where its datagrams were going. *)
Definition look_up (s : UdpRelay) (i : nat) (t : UdpTask) (tables : FlowTables) : UdpRelay :=
  match ur_table s !! ut_client t with
  | Some flow => with_tasks s (<[i := goto (UpWaiting flow) t]> (ur_tasks s))
  | None =>
      match original tables (ut_client t) IPPROTO_UDP with
      | Ok (Some dst) =>
          with_logs (with_tasks s (<[i := goto (UpOpening (default dst upstream_override)) t]> (ur_tasks s)))
            ((ut_client t, dst) :: ur_recorded s) (ur_sent s) (ur_arrived s) (ur_replied s)
      | _ => with_tasks s (<[i := goto UpDone t]> (ur_tasks s))
      end
  end.
(** A new flow goes into the table, over one that a task that looked at the same
    time put there. *)
Definition open_flow (s : UdpRelay) (i : nat) (t : UdpTask) (dst : SocketAddr) (now : N) : UdpRelay :=
  let flow := length (ur_flows s) in
  let cell := {| uc_client := ut_client t; uc_flow := {| fl_dst := dst; fl_last_active := now; fl_locked := false |}; uc_inbox := [] |} in
  with_table (with_flows (with_tasks s (<[i := goto (UpWaiting flow) t]> (ur_tasks s))) (ur_flows s ++ [cell]))
    (<[ut_client t := flow]> (ur_table s)).
(** The sweep of the janitor, over the flows the table names. *)
Definition relay_view (s : UdpRelay) : gmap SocketAddr Flow := omap (λ flow, uc_flow <$> ur_flows s !! flow) (ur_table s).
Definition janitor_sweep (s : UdpRelay) (now : N) : UdpRelay :=
  let kept := sweep now (relay_view s) in
  with_table s (filter (λ kf : SocketAddr * nat, is_Some (kept !! kf.1)) (ur_table s)).

(** A task that ends lets go of its lock. *)
Definition let_go (s : UdpRelay) (i : nat) (t : UdpTask) (flow : nat) : UdpRelay :=
  with_flows (with_tasks s (<[i := goto UpDone t]> (ur_tasks s))) (alter (set_locked false) flow (ur_flows s)).

Definition relay_udp_step (s : UdpRelay) (e : UdpEvent) : option UdpRelay :=
  match e with
  | UeReceived client payload => Some (with_tasks s (ur_tasks s ++ [{| ut_client := client; ut_payload := payload; ut_pc := UpStart |}]))
  | UeLookedUp i tables =>
      t ← ur_tasks s !! i;
      match ut_pc t with UpStart => Some (look_up s i t tables) | _ => None end
  | UeOpened i now ok =>
      t ← ur_tasks s !! i;
      match ut_pc t with
      | UpOpening dst => Some (if ok : bool then open_flow s i t dst now else with_tasks s (<[i := goto UpDone t]> (ur_tasks s)))
      | _ => None
      end
  | UeLocked i =>
      t ← ur_tasks s !! i;
      match ut_pc t with
      | UpWaiting flow =>
          cell ← ur_flows s !! flow;
          if fl_locked (uc_flow cell) then None
          else Some (with_flows (with_tasks s (<[i := goto (UpHolding flow) t]> (ur_tasks s))) (alter (set_locked true) flow (ur_flows s)))
      | _ => None
      end
  | UeSent i now ok =>
      t ← ur_tasks s !! i;
      match ut_pc t with
      | UpHolding flow =>
          Some (if ok : bool then
                  with_logs (with_flows (with_tasks s (<[i := goto (UpSent flow) t]> (ur_tasks s))) (alter (touch now) flow (ur_flows s)))
                    (ur_recorded s) ((i, flow) :: ur_sent s) (ur_arrived s) (ur_replied s)
                else let_go s i t flow)
      | _ => None
      end
  | UeArrived flow data =>
      cell ← ur_flows s !! flow;
      Some (with_logs (with_flows s (<[flow := set_inbox (uc_inbox cell ++ [data]) cell]> (ur_flows s)))
              (ur_recorded s) (ur_sent s) ((flow, data) :: ur_arrived s) (ur_replied s))
  | UeReplied i now delivered =>
      t ← ur_tasks s !! i;
      match ut_pc t with
      | UpSent flow =>
          cell ← ur_flows s !! flow;
          match uc_inbox cell with
          | [] => None
          | data :: inbox =>
              let s1 := with_flows s (<[flow := touch now (set_inbox inbox cell)]> (ur_flows s)) in
              let s2 := if delivered : bool
                        then with_logs s1 (ur_recorded s) (ur_sent s) (ur_arrived s) ((i, flow, data) :: ur_replied s) else s1 in
              Some (let_go s2 i t flow)
          end
      | _ => None
      end
  | UeUnanswered i =>
      t ← ur_tasks s !! i;
      match ut_pc t with UpSent flow => Some (let_go s i t flow) | _ => None end
  | UeSwept now => Some (janitor_sweep s now)
  end.
Fixpoint udp_run (s : UdpRelay) (events : list UdpEvent) : option UdpRelay :=
  match events with [] => Some s | e :: events => s ← relay_udp_step s e; udp_run s events end.
End Relay.

(** ** What is relayed *)

(** A flow a task is at, and one whose lock it has. *)
Definition at_flow (pc : UdpPc) : option nat := match pc with UpWaiting flow | UpHolding flow | UpSent flow => Some flow | _ => None end.
Definition holds (pc : UdpPc) : option nat := match pc with UpHolding flow | UpSent flow => Some flow | _ => None end.

Section Relayed.
Context (upstream_override : option SocketAddr).
Implicit Types (s : UdpRelay) (t : UdpTask) (cell : UdpCell) (c : SocketAddr).

Definition owned (flows : list UdpCell) (flow : nat) c : Prop := ∃ cell, flows !! flow = Some cell ∧ uc_client cell = c.
Definition locked_at (flows : list UdpCell) (flow : nat) : Prop := ∃ cell, flows !! flow = Some cell ∧ fl_locked (uc_flow cell) = true.
(** A flow and a socket being opened lead to a destination recorded for their client. *)
Definition leads (recorded : list (SocketAddr * SocketAddr)) c (dst : SocketAddr) : Prop :=
  ∃ d, (c, d) ∈ recorded ∧ dst = default d upstream_override.

Record relay_ok s : Prop := {
  ro_table : ∀ c flow, ur_table s !! c = Some flow → owned (ur_flows s) flow c;
  ro_tasks : ∀ i t flow, ur_tasks s !! i = Some t → at_flow (ut_pc t) = Some flow → owned (ur_flows s) flow (ut_client t);
  ro_lock : ∀ i t flow, ur_tasks s !! i = Some t → holds (ut_pc t) = Some flow → locked_at (ur_flows s) flow;
  ro_alone : ∀ i j t t' flow, ur_tasks s !! i = Some t → ur_tasks s !! j = Some t' →
    holds (ut_pc t) = Some flow → holds (ut_pc t') = Some flow → i = j;
  ro_opening : ∀ i t dst, ur_tasks s !! i = Some t → ut_pc t = UpOpening dst → leads (ur_recorded s) (ut_client t) dst;
  ro_dst : ∀ flow cell, ur_flows s !! flow = Some cell → leads (ur_recorded s) (uc_client cell) (fl_dst (uc_flow cell));
  ro_inbox : ∀ flow cell d, ur_flows s !! flow = Some cell → d ∈ uc_inbox cell → (flow, d) ∈ ur_arrived s;
  ro_sent_once : NoDup (ur_sent s).*1;
  ro_sent : ∀ i flow, (i, flow) ∈ ur_sent s → ∃ t, ur_tasks s !! i = Some t ∧ (ut_pc t = UpSent flow ∨ ut_pc t = UpDone) ∧ owned (ur_flows s) flow (ut_client t);
  ro_is_sent : ∀ i t flow, ur_tasks s !! i = Some t → ut_pc t = UpSent flow → (i, flow) ∈ ur_sent s;
  ro_replied_once : NoDup (ur_replied s).*1.*1;
  ro_replied : ∀ i flow d, (i, flow, d) ∈ ur_replied s →
    (∃ t, ur_tasks s !! i = Some t ∧ ut_pc t = UpDone) ∧ (i, flow) ∈ ur_sent s ∧ (flow, d) ∈ ur_arrived s;
}.

Lemma relay_new_ok : relay_ok relay_new.
Proof. split; simpl; try (by intros; simplify_map_eq); try constructor; intros; by set_solver. Qed.

(** Another place for one task. *)
Lemma tasks_case (tasks : list UdpTask) i t pc j t' :
  tasks !! i = Some t → <[i := goto pc t]> tasks !! j = Some t' → j = i ∧ t' = goto pc t ∨ j ≠ i ∧ tasks !! j = Some t'.
Proof.
  intros Hi Hj. pose proof (lookup_lt_Some _ _ _ Hi). destruct (decide (i = j)) as [->|].
  - rewrite list_lookup_insert_eq in Hj by done. left. by simplify_eq.
  - rewrite list_lookup_insert_ne in Hj by done. right. by split.
Qed.
(** A task that does not hold a flow afterwards, and has ended if it has sent. *)
Lemma goto_ok s i t pc :
  relay_ok s → ur_tasks s !! i = Some t → (∀ flow, ut_pc t = UpSent flow → pc = UpDone) → ut_pc t ≠ UpDone →
  holds pc = None → (∀ flow, at_flow pc = Some flow → owned (ur_flows s) flow (ut_client t)) →
  (∀ dst, pc = UpOpening dst → leads (ur_recorded s) (ut_client t) dst) →
  relay_ok (with_tasks s (<[i := goto pc t]> (ur_tasks s))).
Proof.
  intros [] Hi Hs Hnd Hh Hat Hop. pose proof (lookup_lt_Some _ _ _ Hi) as Hlt.
  pose proof (λ j t', tasks_case (ur_tasks s) i t pc j t' Hi) as Hcase.
  split; simpl; try done.
  - intros j t' flow [[-> ->]|[_ Hj]]%Hcase Ha; [by apply Hat|by eapply ro_tasks0].
  - intros j t' flow [[-> ->]|[_ Hj]]%Hcase Ha; [simpl in Ha; congruence|by eapply ro_lock0].
  - intros j k t1 t2 flow [[-> ->]|[_ Hj]]%Hcase [[-> ->]|[_ Hk]]%Hcase H1 H2; simpl in *; try congruence. by eapply ro_alone0.
  - intros j t' dst [[-> ->]|[_ Hj]]%Hcase Ha; [by apply Hop|by eapply ro_opening0].
  - intros j flow Hj. destruct (ro_sent0 j flow Hj) as (t' & Ht' & Hpc & Ho). destruct (decide (i = j)) as [->|].
    + simplify_eq. exists (goto pc t). rewrite list_lookup_insert_eq by done. destruct Hpc as [Hpc|]; [|done]. split; [done|].
      split; [right; by apply (Hs flow)|done].
    + exists t'. by rewrite list_lookup_insert_ne.
  - intros j t' flow [[-> ->]|[_ Hj]]%Hcase Ha; simpl in Ha; [subst pc; done|by eapply ro_is_sent0].
  - intros j flow d Hj. destruct (ro_replied0 j flow d Hj) as ((t' & Ht' & Hpc) & Hsent). split; [|done]. exists t'.
    destruct (decide (i = j)) as [->|]; [by simplify_eq|]. by rewrite list_lookup_insert_ne.
Qed.

(** Flows that are the same but for their liveness, or new, or locked besides. *)
Lemma flows_ok s flows' :
  relay_ok s →
  (∀ flow cell, ur_flows s !! flow = Some cell →
    ∃ cell', flows' !! flow = Some cell' ∧ uc_client cell' = uc_client cell ∧ (fl_locked (uc_flow cell) = true → fl_locked (uc_flow cell') = true)) →
  (∀ flow cell', flows' !! flow = Some cell' →
    leads (ur_recorded s) (uc_client cell') (fl_dst (uc_flow cell')) ∧ ∀ d, d ∈ uc_inbox cell' → (flow, d) ∈ ur_arrived s) →
  relay_ok (with_flows s flows').
Proof.
  intros [] Hup Hdown.
  assert (∀ flow c, owned (ur_flows s) flow c → owned flows' flow c) as Howned.
  { intros flow c (cell & Hc & <-). destruct (Hup flow cell Hc) as (cell' & ? & ? & _). by exists cell'. }
  split; simpl; try done; eauto.
  - intros i t flow Hi Hh. destruct (ro_lock0 i t flow Hi Hh) as (cell & Hc & Hl). destruct (Hup flow cell Hc) as (cell' & ? & _ & ?).
    exists cell'. split; auto.
  - intros flow cell Hc. by destruct (Hdown flow cell Hc).
  - intros flow cell d Hc. destruct (Hdown flow cell Hc) as [_ Hin]. apply Hin.
  - intros i flow Hs. destruct (ro_sent0 i flow Hs) as (t & ? & ? & ?). exists t. eauto.
Qed.
(** A flow no task holds is unlocked. *)
Lemma unlock_ok s flow :
  relay_ok s → (∀ j t, ur_tasks s !! j = Some t → holds (ut_pc t) ≠ Some flow) → relay_ok (with_flows s (alter (set_locked false) flow (ur_flows s))).
Proof.
  intros [] Hno.
  assert (∀ k, alter (set_locked false) flow (ur_flows s) !! k = if decide (k = flow) then set_locked false <$> ur_flows s !! k else ur_flows s !! k) as Halter.
  { intros k. destruct (decide _) as [->|]; [by rewrite list_lookup_alter_eq|]. by rewrite list_lookup_alter_ne. }
  assert (∀ k c, owned (ur_flows s) k c → owned (alter (set_locked false) flow (ur_flows s)) k c) as Howned.
  { intros k c (cell & Hc & <-). unfold owned. rewrite Halter, Hc. by case_decide; eexists. }
  split; simpl; try done; eauto.
  - intros i t k Hi Hh. destruct (ro_lock0 i t k Hi Hh) as (cell & Hc & Hl). exists cell. rewrite Halter, Hc. case_decide; [subst; by destruct (Hno i t)|by split].
  - intros k cell. rewrite Halter. case_decide; intros Hc; [|by eapply ro_dst0]. destruct (ur_flows s !! k) as [cell0|] eqn:E; [|done]. injection Hc as <-. exact (ro_dst0 k cell0 E).
  - intros k cell d. rewrite Halter. case_decide; intros Hc; [|by eapply ro_inbox0]. destruct (ur_flows s !! k) as [cell0|] eqn:E; [|done]. injection Hc as <-. exact (ro_inbox0 k cell0 d E).
  - intros i k Hs. destruct (ro_sent0 i k Hs) as (t & ? & ? & ?). exists t. eauto.
Qed.
Lemma let_go_ok s i t flow :
  relay_ok s → ur_tasks s !! i = Some t → holds (ut_pc t) = Some flow → relay_ok (let_go s i t flow).
Proof.
  intros Hok Hi Hh. unfold let_go.
  assert (relay_ok (with_tasks s (<[i := goto UpDone t]> (ur_tasks s)))) as Hok'.
  { apply goto_ok; try done. intros Hd. by rewrite Hd in Hh. }
  apply (unlock_ok _ flow Hok'). simpl. intros j t' [[-> ->]|[Hne Hj]]%(tasks_case (ur_tasks s)) Hh'; [done| |done].
  by destruct Hne, (ro_alone _ Hok _ _ _ _ _ Hi Hj Hh Hh').
Qed.

Lemma received_ok s c payload : relay_ok s → relay_ok (with_tasks s (ur_tasks s ++ [{| ut_client := c; ut_payload := payload; ut_pc := UpStart |}])).
Proof.
  intros []. assert (∀ i t, (ur_tasks s ++ [{| ut_client := c; ut_payload := payload; ut_pc := UpStart |}]) !! i = Some t →
    ur_tasks s !! i = Some t ∨ ut_pc t = UpStart) as Hcase.
  { intros i t [Hi|[_ Hi]]%lookup_app_Some; [by left|right]. by apply list_lookup_singleton_Some in Hi as [_ <-]. }
  assert (∀ i t, ur_tasks s !! i = Some t → (ur_tasks s ++ [{| ut_client := c; ut_payload := payload; ut_pc := UpStart |}]) !! i = Some t) as Hup.
  { intros i t. by apply lookup_app_l_Some. }
  split; simpl; try done.
  - intros i t flow [Hi|Hi]%Hcase Hat; [by eapply ro_tasks0|by rewrite Hi in Hat].
  - intros i t flow [Hi|Hi]%Hcase Hat; [by eapply ro_lock0|by rewrite Hi in Hat].
  - intros i j t t' flow [Hi|Hi]%Hcase [Hj|Hj]%Hcase H1 H2; rewrite ?Hi in H1; rewrite ?Hj in H2; try done. by eapply ro_alone0.
  - intros i t dst [Hi|Hi]%Hcase Hpc; [by eapply ro_opening0|congruence].
  - intros i flow Hs. destruct (ro_sent0 i flow Hs) as (t & ? & ? & ?). exists t. auto.
  - intros i t flow [Hi|Hi]%Hcase Hpc; [by eapply ro_is_sent0|congruence].
  - intros i flow d Hr. destruct (ro_replied0 i flow d Hr) as ((t & ? & ?) & ?). split; [exists t; auto|done].
Qed.
Lemma recorded_ok s r : relay_ok s → relay_ok (with_logs s (r :: ur_recorded s) (ur_sent s) (ur_arrived s) (ur_replied s)).
Proof.
  intros []. split; simpl; try done.
  - intros i t dst Hi Hpc. destruct (ro_opening0 i t dst Hi Hpc) as (d & ? & ?). exists d. split; [by right|done].
  - intros flow cell Hc. destruct (ro_dst0 flow cell Hc) as (d & ? & ?). exists d. split; [by right|done].
Qed.
Lemma table_ok s table : relay_ok s → (∀ c flow, table !! c = Some flow → owned (ur_flows s) flow c) → relay_ok (with_table s table).
Proof. intros [] Ht. by split. Qed.
Lemma arrived_ok s a : relay_ok s → relay_ok (with_logs s (ur_recorded s) (ur_sent s) (a :: ur_arrived s) (ur_replied s)).
Proof.
  intros []. split; simpl; try done.
  - intros flow cell d Hc Hd. right. by eapply ro_inbox0.
  - intros i flow d Hr. destruct (ro_replied0 i flow d Hr) as (? & ? & ?). split; [done|]. split; [done|by right].
Qed.
Lemma replied_ok s i t flow d :
  relay_ok s → ur_tasks s !! i = Some t → ut_pc t = UpDone → (i, flow) ∈ ur_sent s → (flow, d) ∈ ur_arrived s → i ∉ (ur_replied s).*1.*1 →
  relay_ok (with_logs s (ur_recorded s) (ur_sent s) (ur_arrived s) ((i, flow, d) :: ur_replied s)).
Proof.
  intros [] Hi Hpc Hs Ha Hfresh. split; simpl; try done; [by constructor|].
  intros j k d' [[= -> -> ->]|Hr]%elem_of_cons; [|by apply ro_replied0]. split; [by exists t|done].
Qed.

Lemma locked_ok s i t flow cell :
  relay_ok s → ur_tasks s !! i = Some t → ut_pc t = UpWaiting flow → ur_flows s !! flow = Some cell → fl_locked (uc_flow cell) = false →
  relay_ok (with_flows (with_tasks s (<[i := goto (UpHolding flow) t]> (ur_tasks s))) (alter (set_locked true) flow (ur_flows s))).
Proof.
  intros Hok Hi Hpc Hc Hfree.
  assert (∀ j t', ur_tasks s !! j = Some t' → holds (ut_pc t') ≠ Some flow) as Hno.
  { intros j t' Hj Hh. destruct (ro_lock _ Hok _ _ _ Hj Hh) as (cell' & ? & ?). simplify_eq. congruence. }
  assert (∀ k cell', ur_flows s !! k = Some cell' → ∃ cell'', alter (set_locked true) flow (ur_flows s) !! k = Some cell'' ∧
    uc_client cell'' = uc_client cell' ∧ fl_dst (uc_flow cell'') = fl_dst (uc_flow cell') ∧ uc_inbox cell'' = uc_inbox cell' ∧
    (k = flow ∨ fl_locked (uc_flow cell') = true → fl_locked (uc_flow cell'') = true)) as Hup.
  { intros k cell' Hk. destruct (decide (k = flow)) as [->|Hne]; [rewrite list_lookup_alter_eq, Hk; by eexists|].
    rewrite list_lookup_alter_ne by done. exists cell'. repeat (split; [done|]). by intros [?|?]. }
  assert (relay_ok (with_flows s (alter (set_locked true) flow (ur_flows s)))) as [].
  { apply flows_ok; [done| |].
    - intros k cell' Hk. destruct (Hup k cell' Hk) as (cell'' & ? & ? & _ & _ & ?). exists cell''. auto.
    - intros k cell'' Hk. assert (is_Some (ur_flows s !! k)) as [cell' Hk'].
      { apply lookup_lt_is_Some. apply lookup_lt_Some in Hk. by rewrite length_alter in Hk. }
      destruct (Hup k cell' Hk') as (c'' & Hk'' & Hcl & Hd & Hin & _).
      simplify_eq. rewrite Hcl, Hd, Hin. split; [by eapply ro_dst|]. intros d. by apply (ro_inbox _ Hok). }
  simpl in *. pose proof (λ j t', tasks_case (ur_tasks s) i t (UpHolding flow) j t' Hi) as Hcase. pose proof (lookup_lt_Some _ _ _ Hi) as Hlt.
  split; simpl; try done.
  - intros j t' k [[-> ->]|[_ Hj]]%Hcase Hat; [|by eapply ro_tasks0]. injection Hat as <-. apply (ro_tasks0 i t flow Hi). by rewrite Hpc.
  - intros j t' k [[-> ->]|[_ Hj]]%Hcase Hh; [|by eapply ro_lock0]. injection Hh as <-. destruct (Hup flow cell Hc) as (cell' & ? & _ & _ & _ & ?). exists cell'. auto.
  - intros j k t1 t2 fl [[-> ->]|[_ Hj]]%Hcase [[-> ->]|[_ Hk]]%Hcase H1 H2; simpl in *; simplify_eq; try done; [by destruct (Hno k t2)|by destruct (Hno j t1)|by eapply ro_alone0].
  - intros j t' dst [[-> ->]|[_ Hj]]%Hcase Hd; [done|by eapply ro_opening0].
  - intros j k Hs. destruct (ro_sent0 j k Hs) as (t' & Ht' & Hpc' & Ho). exists t'. split; [|done]. rewrite list_lookup_insert_ne; [done|].
    intros ->. simplify_eq. destruct Hpc'; congruence.
  - intros j t' k [[-> ->]|[_ Hj]]%Hcase Hd; [done|by eapply ro_is_sent0].
  - intros j k d Hr. destruct (ro_replied0 j k d Hr) as ((t' & Ht' & Hpc') & ?). split; [|done]. exists t'. split; [|done]. rewrite list_lookup_insert_ne; [done|].
    intros ->. simplify_eq. congruence.
Qed.

(** The flow of a cell with other liveness and inbox. *)
Lemma cell_ok s flow cell cell' :
  relay_ok s → ur_flows s !! flow = Some cell → uc_client cell' = uc_client cell → fl_dst (uc_flow cell') = fl_dst (uc_flow cell) →
  fl_locked (uc_flow cell') = fl_locked (uc_flow cell) → (∀ d, d ∈ uc_inbox cell' → (flow, d) ∈ ur_arrived s) →
  relay_ok (with_flows s (<[flow := cell']> (ur_flows s))).
Proof.
  intros Hok Hc Hcl Hd Hl Hin. pose proof (lookup_lt_Some _ _ _ Hc) as Hlt. apply flows_ok; [done| |].
  - intros k c Hk. destruct (decide (flow = k)) as [->|].
    + exists cell'. rewrite list_lookup_insert_eq by done. simplify_eq. by rewrite Hl.
    + exists c. by rewrite list_lookup_insert_ne.
  - intros k c Hk. destruct (decide (flow = k)) as [->|].
    + rewrite list_lookup_insert_eq in Hk by done. simplify_eq. rewrite Hcl, Hd. split; [by eapply ro_dst|done].
    + rewrite list_lookup_insert_ne in Hk by done. split; [by eapply ro_dst|]. intros d. by apply (ro_inbox _ Hok).
Qed.

Lemma sent_ok s i t flow now :
  relay_ok s → ur_tasks s !! i = Some t → ut_pc t = UpHolding flow →
  relay_ok (with_logs (with_flows (with_tasks s (<[i := goto (UpSent flow) t]> (ur_tasks s))) (alter (touch now) flow (ur_flows s)))
    (ur_recorded s) ((i, flow) :: ur_sent s) (ur_arrived s) (ur_replied s)).
Proof.
  intros Hok Hi Hpc. destruct (ro_tasks _ Hok i t flow Hi) as (cell & Hc & Hcl); [by rewrite Hpc|].
  assert (alter (touch now) flow (ur_flows s) = <[flow := touch now cell]> (ur_flows s)) as ->.
  { apply list_eq. intros k. destruct (decide (flow = k)) as [->|].
    - rewrite list_lookup_alter_eq, Hc, list_lookup_insert_eq; [done|by eapply lookup_lt_Some].
    - rewrite list_lookup_alter_ne by done. by rewrite list_lookup_insert_ne. }
  assert (i ∉ (ur_sent s).*1) as Hfresh.
  { intros [[? k] [-> Hk]]%list_elem_of_fmap. destruct (ro_sent _ Hok _ _ Hk) as (t' & ? & Hpc' & _). simplify_eq/=. destruct Hpc'; congruence. }
  destruct (cell_ok s flow cell (touch now cell) Hok Hc eq_refl eq_refl eq_refl (λ d, ro_inbox _ Hok flow cell d Hc)) as [].
  simpl in *. pose proof (λ j t', tasks_case (ur_tasks s) i t (UpSent flow) j t' Hi) as Hcase. pose proof (lookup_lt_Some _ _ _ Hi) as Hlt.
  split; simpl; try done.
  - intros j t' k [[-> ->]|[_ Hj]]%Hcase Hat; [|by eapply ro_tasks0]. injection Hat as <-. apply (ro_tasks0 i t flow Hi). by rewrite Hpc.
  - intros j t' k [[-> ->]|[_ Hj]]%Hcase Hh; [|by eapply ro_lock0]. injection Hh as <-. apply (ro_lock0 i t flow Hi). by rewrite Hpc.
  - intros j k t1 t2 fl [[-> ->]|[Hne Hj]]%Hcase [[-> ->]|[Hne' Hk]]%Hcase H1 H2; simpl in *; simplify_eq; [done|..|by eapply ro_alone0];
      [destruct Hne'; symmetry|destruct Hne]; eapply ro_alone0; eauto; by rewrite Hpc.
  - intros j t' dst [[-> ->]|[_ Hj]]%Hcase Hd; [done|by eapply ro_opening0].
  - by constructor.
  - intros j k [[= -> ->]|Hs]%elem_of_cons.
    + exists (goto (UpSent flow) t). rewrite list_lookup_insert_eq by done. split; [done|]. split; [by left|]. apply (ro_tasks0 i t flow Hi). by rewrite Hpc.
    + destruct (ro_sent0 j k Hs) as (t' & Ht' & Hpc' & Ho). exists t'. split; [|done]. rewrite list_lookup_insert_ne; [done|].
      intros ->. simplify_eq. destruct Hpc'; congruence.
  - intros j t' k [[-> ->]|[_ Hj]]%Hcase Hd; [injection Hd as ->; by left|right; by eapply ro_is_sent0].
  - intros j k d Hr. destruct (ro_replied0 j k d Hr) as ((t' & Ht' & Hpc') & ? & ?). split; [|by split; [right|]]. exists t'. split; [|done].
    rewrite list_lookup_insert_ne; [done|]. intros ->. simplify_eq. congruence.
Qed.

Lemma look_up_ok s i t tables : relay_ok s → ur_tasks s !! i = Some t → ut_pc t = UpStart → relay_ok (look_up upstream_override s i t tables).
Proof.
  intros Hok Hi Hpc. unfold look_up.
  assert (∀ s' pc, relay_ok s' → ur_tasks s' = ur_tasks s → holds pc = None → (∀ flow, at_flow pc = Some flow → owned (ur_flows s') flow (ut_client t)) →
    (∀ dst, pc = UpOpening dst → leads (ur_recorded s') (ut_client t) dst) → relay_ok (with_tasks s' (<[i := goto pc t]> (ur_tasks s')))) as Hgo.
  { intros s' pc Hok' Ht Hh Ha Hd. apply goto_ok; try done; rewrite ?Ht, ?Hpc; done. }
  destruct (ur_table s !! ut_client t) as [flow|] eqn:Et.
  { apply Hgo; try done. intros k [= <-]. by apply (ro_table _ Hok). }
  destruct (original tables _ _) as [[dst|]|e]; [|by apply Hgo..].
  apply (Hgo (with_logs s ((ut_client t, dst) :: ur_recorded s) (ur_sent s) (ur_arrived s) (ur_replied s))); try done; [by apply recorded_ok|].
  intros d [= <-]. exists dst. split; [by left|done].
Qed.
Lemma open_flow_ok s i t dst now : relay_ok s → ur_tasks s !! i = Some t → ut_pc t = UpOpening dst → relay_ok (open_flow s i t dst now).
Proof.
  intros Hok Hi Hpc. unfold open_flow.
  set (cell := {| uc_client := _; uc_flow := _; uc_inbox := _ |}).
  assert (relay_ok (with_flows s (ur_flows s ++ [cell]))) as Hok1.
  { apply flows_ok; [done| |].
    - intros k c Hk. exists c. split; [by apply lookup_app_l_Some|done].
    - intros k c [Hk|[_ Hk]]%lookup_app_Some; [split; [by eapply ro_dst|intros d; by apply (ro_inbox _ Hok)]|].
      apply list_lookup_singleton_Some in Hk as [_ <-]. split; [by eapply ro_opening|]. simpl. intros d Hd. by apply not_elem_of_nil in Hd. }
  assert (owned (ur_flows s ++ [cell]) (length (ur_flows s)) (ut_client t)) as Hown.
  { exists cell. split; [|done]. by rewrite lookup_app_r, Nat.sub_diag. }
  apply (table_ok (with_tasks (with_flows s (ur_flows s ++ [cell])) (<[i := goto (UpWaiting (length (ur_flows s))) t]> (ur_tasks s)))).
  - apply (goto_ok (with_flows s (ur_flows s ++ [cell]))); try done; [by rewrite Hpc..|]. by intros k [= <-].
  - intros c k. simpl. intros [[<- <-]|[_ Hk]]%lookup_insert_Some; [done|]. by apply (ro_table _ Hok1).
Qed.

Lemma replied_step_ok s i t flow cell data inbox now (delivered : bool) :
  relay_ok s → ur_tasks s !! i = Some t → ut_pc t = UpSent flow → ur_flows s !! flow = Some cell → uc_inbox cell = data :: inbox →
  let s1 := with_flows s (<[flow := touch now (set_inbox inbox cell)]> (ur_flows s)) in
  relay_ok (let_go (if delivered then with_logs s1 (ur_recorded s) (ur_sent s) (ur_arrived s) ((i, flow, data) :: ur_replied s) else s1) i t flow).
Proof.
  intros Hok Hi Hpc Hc Hin s1.
  assert (relay_ok s1) as Hok1 by (eapply cell_ok; try done; simpl; intros d Hd; eapply ro_inbox; [done..|rewrite Hin; by right]).
  assert (relay_ok (let_go s1 i t flow)) as Hok2 by (apply let_go_ok; [done..|by rewrite Hpc]).
  destruct delivered; [|done].
  apply (replied_ok (let_go s1 i t flow) i (goto UpDone t)); try done.
  - simpl. by rewrite list_lookup_insert_eq by (by eapply lookup_lt_Some).
  - by eapply (ro_is_sent _ Hok).
  - eapply (ro_inbox _ Hok); [done|]. rewrite Hin. by left.
  - intros [[? k] [Hk' Hk]]%list_elem_of_fmap. apply list_elem_of_fmap in Hk as [[[j k'] d'] [Heq Hk]]. simplify_eq/=.
    destruct (ro_replied _ Hok _ _ _ Hk) as ((t' & ? & ?) & _). simplify_eq. congruence.
Qed.

Lemma relay_udp_step_ok s e s' : relay_ok s → relay_udp_step upstream_override s e = Some s' → relay_ok s'.
Proof.
  intros Hok. destruct e as [c payload|i tables|i now ok|i|i now ok|flow data|i now delivered|i|now]; simpl.
  - intros [= <-]. by apply received_ok.
  - destruct (ur_tasks s !! i) as [t|] eqn:Hi; [|done]. simpl. destruct (ut_pc t) eqn:Hpc; try done. intros [= <-]. by apply look_up_ok.
  - destruct (ur_tasks s !! i) as [t|] eqn:Hi; [|done]. simpl. destruct (ut_pc t) as [|dst| | | |] eqn:Hpc; try done. intros [= <-].
    destruct ok; [by apply open_flow_ok|]. apply goto_ok; try done; by rewrite Hpc.
  - destruct (ur_tasks s !! i) as [t|] eqn:Hi; [|done]. simpl. destruct (ut_pc t) as [| |flow| | |] eqn:Hpc; try done.
    destruct (ur_flows s !! flow) as [cell|] eqn:Hc; [|done]. simpl. destruct (fl_locked (uc_flow cell)) eqn:Hl; [done|]. intros [= <-]. by eapply locked_ok.
  - destruct (ur_tasks s !! i) as [t|] eqn:Hi; [|done]. simpl. destruct (ut_pc t) as [| | |flow| |] eqn:Hpc; try done. intros [= <-].
    destruct ok; [by apply sent_ok|]. apply let_go_ok; [done..|by rewrite Hpc].
  - destruct (ur_flows s !! flow) as [cell|] eqn:Hc; [|done]. simpl. intros [= <-].
    apply (cell_ok (with_logs s (ur_recorded s) (ur_sent s) ((flow, data) :: ur_arrived s) (ur_replied s)) flow cell); try done; [by apply arrived_ok|].
    simpl. intros d [Hd| ->%list_elem_of_singleton]%elem_of_app; [right; by eapply ro_inbox|by left].
  - destruct (ur_tasks s !! i) as [t|] eqn:Hi; [|done]. simpl. destruct (ut_pc t) as [| | | |flow|] eqn:Hpc; try done.
    destruct (ur_flows s !! flow) as [cell|] eqn:Hc; [|done]. simpl. destruct (uc_inbox cell) as [|data inbox] eqn:Hin; [done|]. intros [= <-].
    by eapply replied_step_ok.
  - destruct (ur_tasks s !! i) as [t|] eqn:Hi; [|done]. simpl. destruct (ut_pc t) as [| | | |flow|] eqn:Hpc; try done. intros [= <-].
    apply let_go_ok; [done..|by rewrite Hpc].
  - intros [= <-]. unfold janitor_sweep. apply table_ok; [done|]. intros c flow [Hf _]%map_lookup_filter_Some. by apply (ro_table _ Hok).
Qed.

(** The logs are of what happened. *)
Definition received (events : list UdpEvent) : list (SocketAddr * bytes) :=
  omap (λ e, match e with UeReceived c payload => Some (c, payload) | _ => None end) events.
Definition recorded_by (events : list UdpEvent) c d : Prop :=
  ∃ i tables, UeLookedUp i tables ∈ events ∧ original tables c IPPROTO_UDP = Ok (Some d).

Definition task_sent_by (t : UdpTask) : SocketAddr * bytes := (ut_client t, ut_payload t).
Lemma insert_goto (tasks : list UdpTask) i t pc : tasks !! i = Some t → task_sent_by <$> <[i := goto pc t]> tasks = task_sent_by <$> tasks.
Proof. intros Hi. rewrite list_fmap_insert. apply list_insert_id. by rewrite list_lookup_fmap, Hi. Qed.

(** One step, and what it logs. *)
Lemma relay_udp_step_logs s e s' : relay_udp_step upstream_override s e = Some s' →
  task_sent_by <$> ur_tasks s' = (task_sent_by <$> ur_tasks s) ++ received [e] ∧
  (∀ c d, (c, d) ∈ ur_recorded s' → (c, d) ∈ ur_recorded s ∨ recorded_by [e] c d) ∧
  (∀ flow data, (flow, data) ∈ ur_arrived s' → (flow, data) ∈ ur_arrived s ∨ e = UeArrived flow data).
Proof.
  destruct e as [c payload|i tables|i now ok|i|i now ok|flow data|i now delivered|i|now]; simpl.
  - intros [= <-]. simpl. rewrite fmap_app. by auto.
  - destruct (ur_tasks s !! i) as [t|] eqn:Hi; [|done]. simpl. destruct (ut_pc t); try done. intros [= <-]. unfold look_up. rewrite app_nil_r.
    destruct (ur_table s !! _); [simpl; rewrite insert_goto by done; auto|].
    destruct (original tables _ _) as [[dst|]|] eqn:Ho; simpl; rewrite insert_goto by done; try (by auto). split; [done|]. split; [|auto].
    intros c d [[= -> ->]|Hr]%elem_of_cons; [|by left]. right. exists i, tables. split; [by left|done].
  - destruct (ur_tasks s !! i) as [t|] eqn:Hi; [|done]. simpl. destruct (ut_pc t); try done. intros [= <-]. rewrite app_nil_r.
    destruct ok; simpl; rewrite insert_goto by done; auto.
  - destruct (ur_tasks s !! i) as [t|] eqn:Hi; [|done]. simpl. destruct (ut_pc t); try done. destruct (ur_flows s !! _) as [cell|]; [|done]. simpl.
    destruct (fl_locked _); [done|]. intros [= <-]. simpl. rewrite app_nil_r, insert_goto by done; auto.
  - destruct (ur_tasks s !! i) as [t|] eqn:Hi; [|done]. simpl. destruct (ut_pc t); try done. intros [= <-]. rewrite app_nil_r.
    destruct ok; simpl; rewrite insert_goto by done; auto.
  - destruct (ur_flows s !! flow) as [cell|] eqn:Hc; [|done]. simpl. intros [= <-]. simpl. rewrite app_nil_r. split; [done|]. split; [auto|].
    intros k d [[= -> ->]|Hr]%elem_of_cons; [by right|by left].
  - destruct (ur_tasks s !! i) as [t|] eqn:Hi; [|done]. simpl. destruct (ut_pc t); try done. destruct (ur_flows s !! _) as [cell|]; [|done]. simpl.
    destruct (uc_inbox cell) as [|d inbox]; [done|]. intros [= <-]. rewrite app_nil_r. destruct delivered; simpl; rewrite insert_goto by done; auto.
  - destruct (ur_tasks s !! i) as [t|] eqn:Hi; [|done]. simpl. destruct (ut_pc t); try done. intros [= <-]. simpl. rewrite app_nil_r, insert_goto by done; auto.
  - intros [= <-]. simpl. rewrite app_nil_r. auto.
Qed.
Lemma recorded_by_incl events events' c d : events ⊆ events' → recorded_by events c d → recorded_by events' c d.
Proof. intros Hsub (i & tables & Hin & Ho). exists i, tables. split; [by apply Hsub|done]. Qed.
Lemma udp_run_ok s events s' : relay_ok s → udp_run upstream_override s events = Some s' →
  relay_ok s' ∧ task_sent_by <$> ur_tasks s' = (task_sent_by <$> ur_tasks s) ++ received events ∧
  (∀ c d, (c, d) ∈ ur_recorded s' → (c, d) ∈ ur_recorded s ∨ recorded_by events c d) ∧
  (∀ flow data, (flow, data) ∈ ur_arrived s' → (flow, data) ∈ ur_arrived s ∨ UeArrived flow data ∈ events).
Proof.
  revert s. induction events as [|e events IH]; intros s Hok; cbn [udp_run].
  { intros [= <-]. simpl. rewrite app_nil_r. auto. }
  destruct (relay_udp_step _ s e) as [s1|] eqn:Es; [|done]. simpl. intros Hrun. destruct (relay_udp_step_logs _ _ _ Es) as (Ht1 & Hr1 & Ha1).
  destruct (IH s1 (relay_udp_step_ok _ _ _ Hok Es) Hrun) as (Hok' & Ht & Hr & Ha). split; [done|]. split; [|split].
  - rewrite Ht, Ht1, <- app_assoc. f_equal. unfold received. by rewrite <- omap_app.
  - intros c d [Hin|Hin]%Hr; [|right; eapply recorded_by_incl; [|done]; set_solver].
    destruct (Hr1 _ _ Hin) as [?|Hby]; [by left|right]. eapply recorded_by_incl; [|done]. set_solver.
  - intros flow data [Hin|Hin]%Ha; [|right; by right]. destruct (Ha1 _ _ Hin) as [?| ->]; [by left|right; by left].
Qed.

(** C21: The relay of captured UDP, over any interleaving of its tasks, arrivals
    and sweeps: a datagram is sent at most once, on a flow of its own client,
    whose destination is the one the capture recorded for that client (or the
    override); a datagram gets at most one reply, after it was sent, and the
    reply arrived on the very flow it was sent on; and one flow has never two
    sends waiting. So no more replies reach the clients than they sent
    datagrams. *)
Theorem udp_paired events s :
  udp_run upstream_override relay_new events = Some s →
  NoDup (ur_sent s).*1 ∧ NoDup (ur_replied s).*1.*1 ∧
  (∀ i flow, (i, flow) ∈ ur_sent s → ∃ c payload cell d, received events !! i = Some (c, payload) ∧ ur_flows s !! flow = Some cell ∧
    uc_client cell = c ∧ recorded_by events c d ∧ fl_dst (uc_flow cell) = default d upstream_override) ∧
  (∀ i flow data, (i, flow, data) ∈ ur_replied s → (i, flow) ∈ ur_sent s ∧ UeArrived flow data ∈ events) ∧
  (∀ i j t t' flow, ur_tasks s !! i = Some t → ur_tasks s !! j = Some t' → ut_pc t = UpSent flow → ut_pc t' = UpSent flow → i = j) ∧
  length (ur_replied s) ≤ length (ur_sent s) ≤ length (received events).
Proof.
  intros Hrun. destruct (udp_run_ok _ _ _ relay_new_ok Hrun) as (Hok & Ht & Hr & Ha). simpl in Ht.
  assert (∀ i flow, (i, flow) ∈ ur_sent s → ∃ c payload cell d, received events !! i = Some (c, payload) ∧ ur_flows s !! flow = Some cell ∧
    uc_client cell = c ∧ recorded_by events c d ∧ fl_dst (uc_flow cell) = default d upstream_override) as Hsent.
  { intros i flow Hs. destruct (ro_sent _ Hok i flow Hs) as (t & Hi & _ & cell & Hc & Hcl).
    destruct (ro_dst _ Hok flow cell Hc) as (d & Hd & Hdst). exists (ut_client t), (ut_payload t), cell, d.
    rewrite <- Ht, list_lookup_fmap, Hi. do 3 (split; [done|]). rewrite <- Hcl. split; [|done]. destruct (Hr _ _ Hd) as [Hnil|]; [by apply not_elem_of_nil in Hnil|done]. }
  split; [by apply Hok|]. split; [by apply Hok|]. split; [done|]. split; [|split; [|split]].
  - intros i flow data Hin. destruct (ro_replied _ Hok _ _ _ Hin) as (_ & ? & Har). split; [done|].
    destruct (Ha _ _ Har) as [Hnil|]; [by apply not_elem_of_nil in Hnil|done].
  - intros i j t t' flow Hi Hj Hp Hp'. eapply (ro_alone _ Hok); [done..|by rewrite Hp|by rewrite Hp'].
  - rewrite <- (length_fmap fst (ur_sent s)), <- (length_fmap fst (ur_replied s)), <- (length_fmap fst (ur_replied s).*1).
    apply submseteq_length, NoDup_submseteq; [by apply Hok|]. intros i [[? k] [-> Hk]]%list_elem_of_fmap. apply list_elem_of_fmap in Hk as [[[j k'] d] [Heq Hk]].
    simplify_eq/=. destruct (ro_replied _ Hok _ _ _ Hk) as (_ & Hs & _). apply list_elem_of_fmap. by exists (j, k').
  - rewrite <- (length_fmap fst (ur_sent s)). etrans; [apply (submseteq_length _ (seq 0 (length (received events))))|by rewrite length_seq].
    apply NoDup_submseteq; [by apply Hok|].
    intros i [[j k] [-> Hk]]%list_elem_of_fmap. destruct (Hsent j k Hk) as (? & ? & ? & ? & Hj & _). apply elem_of_seq. apply lookup_lt_Some in Hj. simpl. lia.
Qed.
End Relayed.

(** ** Two clients *)

Definition sample_guest (port : N) : SocketAddr := (V4 [byte_of 127; Byte.x00; Byte.x00; byte_of 1], port).
Definition sample_tables (ip : N) : FlowTables :=
  {| flows _ := Ok 1%N; orig _ := Ok {| od_ip := encode_addr ip; od_port := 53; od_proto := IPPROTO_UDP |} |}.
(** A datagram up to its send. *)
Definition sample_sends (task : nat) (client : SocketAddr) (ip : N) (payload : bytes) : list UdpEvent :=
  [UeReceived client payload; UeLookedUp task (sample_tables ip); UeOpened task 0 true; UeLocked task; UeSent task 0 true].
Definition sample_events : list UdpEvent :=
  sample_sends 0 (sample_guest 4000) 0x08080808 (bs "one") ++ sample_sends 1 (sample_guest 4001) 0x01010101 (bs "other") ++
  [UeArrived 0 (bs "first"); UeArrived 0 (bs "second"); UeReplied 0 1 true; UeUnanswered 1; UeSwept 1].
Definition sample_relay : UdpRelay := default relay_new (udp_run None relay_new sample_events).
Lemma sample_relay_run : udp_run None relay_new sample_events = Some sample_relay.
Proof. vm_compute. reflexivity. Qed.

Lemma udp_paired_witness :
  (∀ i flow data, (i, flow, data) ∈ ur_replied sample_relay → (i, flow) ∈ ur_sent sample_relay ∧ UeArrived flow data ∈ sample_events) ∧
  ur_replied sample_relay = [(0, 0, bs "first")].
Proof. split; [apply (udp_paired None sample_events sample_relay sample_relay_run)|vm_compute; reflexivity]. Defined.

(** A server that answers one datagram with two is heard once: the second answer
    stays in the socket until the client sends again, and is then taken for the
    reply to that datagram. *)
Example second_answer_waits :
  uc_inbox <$> ur_flows sample_relay !! 0 = Some [bs "second"] ∧ Forall (λ t, ut_pc t = UpDone) (ur_tasks sample_relay).
Proof. split; [vm_compute; reflexivity|]. vm_compute. by repeat constructor. Qed.
Example second_answer_late :
  ur_replied <$> udp_run None sample_relay
    [UeReceived (sample_guest 4000) (bs "two"); UeLookedUp 2 (sample_tables 0x08080808); UeLocked 2; UeSent 2 30 true; UeReplied 2 30 true] =
  Some [(2, 0, bs "second"); (0, 0, bs "first")].
Proof. vm_compute. reflexivity. Qed.
(** And a datagram is not sent while the one before it waits for an answer. *)
Example next_datagram_waits :
  (s ← udp_run None relay_new (sample_sends 0 (sample_guest 4000) 0x08080808 (bs "one") ++
         [UeReceived (sample_guest 4000) (bs "two"); UeLookedUp 1 (sample_tables 0x08080808)]); relay_udp_step None s (UeLocked 1)) = None.
Proof. vm_compute. reflexivity. Qed.

(** ** The session of the TUN gateway *)

(** What a session's socket is bound to: its family, its mark and its address. *)
Definition bind_marked_udp (upstream : SocketAddr) (fwmark : option N) : bool * option N * SocketAddr :=
  let ipv4 := match upstream.1 with V4 _ => true | V6 _ => false end in
  (ipv4, fwmark, if ipv4 then (V4 (replicate 4 Byte.x00), 0%N) else (V6 (replicate 16 Byte.x00), 0%N)).

(** What wakes a session, the last when nothing did for [UDP_IDLE_SECS]; and what
    it does. *)
Inductive SessionEvent := SeQuery (query : bytes) (sent : bool) | SeQueriesClosed | SeReply (reply : bytes) | SeRecvFailed | SeIdle.
Inductive SessionOut := SoSent (query : bytes) | SoPacket (packet : bytes).

Section Session.
Context (guest_src guest_dst : SocketAddr).
Fixpoint session_loop (events : list SessionEvent) : list SessionOut :=
  match events with
  | [] => []
  | SeQuery query sent :: events => if sent then SoSent query :: session_loop events else []
  | SeReply reply :: events =>
      match build_udp_packet guest_dst guest_src reply with
      | Some packet => SoPacket packet :: session_loop events
      | None => session_loop events
      end
  | SeQueriesClosed :: _ | SeRecvFailed :: _ | SeIdle :: _ => []
  end.
Definition udp_session_task (bound connected : bool) (events : list SessionEvent) : list SessionOut :=
  if bound && connected then session_loop events else [].

(** Every packet a session writes to the device is read by the guest as a reply
    of the upstream, from the address the guest had sent to and back to the
    address it had sent from; and what it sends are the guest's queries, in
    order and none twice. *)
Theorem session_answers bound connected events :
  (guest_src.2 ≤ u16_max)%N → (guest_dst.2 ≤ u16_max)%N →
  (∀ o, guest_src.1 = V4 o → length o = 4) → (∀ o, guest_dst.1 = V4 o → length o = 4) →
  let out := udp_session_task bound connected events in
  (∀ packet, SoPacket packet ∈ out → ∃ reply, SeReply reply ∈ events ∧ classify_packet packet = PUdp guest_dst guest_src reply) ∧
  omap (λ o, match o with SoSent query => Some query | _ => None end) out `prefix_of`
    omap (λ e, match e with SeQuery query _ => Some query | _ => None end) events.
Proof.
  intros Hsp Hdp Hs Hd out. subst out. unfold udp_session_task. destruct (bound && connected); [|split; [by intros p []%not_elem_of_nil|apply prefix_nil]].
  induction events as [|e events [IHp IHq]]; [split; [by intros p []%not_elem_of_nil|apply prefix_nil]|].
  assert (∀ packet, SoPacket packet ∈ session_loop events → ∃ reply, SeReply reply ∈ e :: events ∧ classify_packet packet = PUdp guest_dst guest_src reply) as IHp'.
  { intros packet Hin. destruct (IHp packet Hin) as (reply & ? & ?). exists reply. split; [by right|done]. }
  destruct e as [query sent| |reply| |]; cbn [session_loop];
    try (split; [by intros p []%not_elem_of_nil|apply prefix_nil]).
  - destruct sent; [|split; [by intros p []%not_elem_of_nil|apply prefix_nil]]. split; [|by apply prefix_cons].
    intros packet [[=]|Hin]%elem_of_cons. by apply IHp'.
  - pose proof (udp_answer_roundtrip guest_dst guest_src reply Hdp Hsp Hd Hs) as Hround.
    destruct (build_udp_packet guest_dst guest_src reply) as [pkt|]; [|by split]. split; [|done].
    intros packet [[= ->]|Hin]%elem_of_cons; [|by apply IHp']. exists reply. split; [by left|by destruct Hround].
Qed.
End Session.
