(* ===== verification/Serve.v ===== *)
(** * Serving with a capture backend

    What [src/main.rs] puts together: where the CA is, the mark of hodor's own
    connections for the backend that is chosen, and the run of the backend beside
    the listener. The mark is what keeps hodor's dials ([connection.rs]) out of
    what the backends of [hodor-tproxy] and [hodor-tun] capture; the eBPF programs
    know hodor by its process. *)

From S2P Require Import Prelude Paths Compose Dial Tun Bypass Ebpf Tproxy TunRoute.

(** ** Choices *)

Definition ca_path (ca_file : option Path) (is_file : Path → bool) (config_dir : option Path) : result bytes Path :=
  match ca_file with
  | Some path => Ok path
  | None =>
      let mounted := components (bs "/certs/ca.pem") in
      if is_file mounted then Ok mounted
      else ok_or (bs "unable to resolve user config directory")
             ((λ dir, path_join (path_join dir (components (bs "hodor"))) (components (bs "ca.pem"))) <$> config_dir)
  end.

(** The first checks of [serve], on a Linux host or another. *)
Definition refused (linux : bool) (backend : ProxyBackend) (ebpf_cgroup : option bytes) : option bytes :=
  if negb linux && negb (bool_decide (backend = BkNone)) then
    Some (bs "transparent capture (--proxy-backend) is only supported on Linux")
  else if bool_decide (backend = BkEbpf) && negb (bool_of_opt ebpf_cgroup) then
    Some (bs "--ebpf-cgroup is required for --proxy-backend ebpf")
  else None.

(** The mark of hodor's own sockets. *)
Definition egress_mark (backend : ProxyBackend) : option N :=
  match backend with
  | BkNone | BkEbpf => None
  | BkTproxy => Some EGRESS_MARK
  | BkTun => Some TunRoute.FWMARK
  end.

(** ** The backend beside the listener *)

(** What ends first: the listener; the task of the backend, with its result or by
    a panic; or an interrupt, which aborts the task, so that its guards run. *)
Inductive Ended := EndedServe | EndedCapture (r : result bytes ()) | EndedTask (e : bytes) | EndedInterrupt.
Definition with_capture (name : bytes) (ended : Ended) : result bytes () * bool :=
  match ended with
  | EndedServe => (Ok (), false)
  | EndedCapture r => (map_err (λ err, name ++ bs " capture failed: " ++ err) r, false)
  | EndedTask e => (Err (name ++ bs " task failed: " ++ e), false)
  | EndedInterrupt => (Ok (), true)
  end.

(** ** The dials of hodor are not captured *)

Section Escape.
Context `{!Net, !Netlink K, !Fib K, !Nftables, !NftablesLaws, !LruMaps}.
Context (k0 : K) (name : bytes) (options : Options) (listen_port : N).

(** C22: Whichever backend runs, a stream that hodor dials with the mark of
    that backend is not captured. Of the TUN backend, installed where nothing
    else uses its priorities and its table: its packets take the routes of the
    main table, when that has one for them and no rule before the capture's
    routes them; of TPROXY with a well-formed configuration: its TCP packets
    pass the output rules unchanged; of eBPF, the connect hook does nothing
    for a task whose process id, as the kernel tells it, is the configured
    one, or whose cgroup is the one configured, which is the guard that holds
    when hodor runs in a container. *)
Theorem own_dials_escape host port backend start later stream :
  dial_marked host port (egress_mark backend) start = (later, Ok stream) →
  match backend with
  | BkNone => stream_mark stream = None
  | BkTun =>
      clear k0 → ∀ s, install name (k0, []) = (s, Ok ()) → ∀ p, Some (dg_mark p) = stream_mark stream → answers k0 TABLE_MAIN p = true →
      (∀ m, m ∈ fv_rules k0 → (fu_pref m < TunRoute.RULE_PREF_CAPTURE)%N → fu_selects m p && answers k0 (fu_table m) p = false) →
      ∀ r, decides s.1 p r ↔ finds k0 TABLE_MAIN p r
  | BkTproxy =>
      config_ok (capture_config options listen_port) → ∀ p, packet_ok p → Some (pk_mark p) = stream_mark stream → pk_l4proto p = Tproxy.IPPROTO_TCP →
      eval_hook (capture_config options listen_port) (bs "output") p = Some p
  | BkEbpf =>
      ∀ config t m a, CONFIG m = Some config →
      (tk_pid_tgid t / 2 ^ 32 mod 2 ^ 32 = proxy_pid config ∨ proxy_cgroup config ≠ 0 ∧ tk_cgroup t = proxy_cgroup config)%N →
      connect4 t m a = (m, a)
  end.
Proof.
  intros Hd. assert (stream_mark stream = egress_mark backend) as Hmark.
  { pose proof (dial_within_budget host port (egress_mark backend) start) as Hb. rewrite Hd in Hb. destruct Hb as [_ Hb]. by destruct (Hb stream eq_refl). }
  rewrite Hmark. destruct backend; simpl; [| | |done].
  - intros config t m a Hc Hown%is_proxy_spec. unfold connect4. by rewrite Hc, Hown.
  - intros Hclear s Hi p [= Hp] Hmain Hearly r. destruct (install_ok k0 name s Hclear Hi) as (tun & lo & Hin).
    rewrite (installed_decides k0 name tun lo s.1 p Hclear Hin Hearly). by rewrite Hp, N.eqb_refl, Hmain.
  - intros Hc p Hp [= Hm] Htcp. rewrite output_exact by done. unfold output_spec, is_quic, Tproxy.captured. rewrite Htcp, Hm. simpl.
    by rewrite !andb_false_r.
Qed.
End Escape.

(** ** A sample *)

(** A name of two addresses, the first of which refuses. *)
Definition sample_net : Net := {|
  Dial.SocketAddr := N;
  lookup_host _ _ _ := (5%N, Ok [1%N; 2%N]);
  tcp_connect _ _ := (3%N, None);
  marked_connect _ addr _ := if (addr =? 1)%N then (7%N, Some (bs "refused")) else (3%N, None);
|}.
Example sample_dial : @dial_marked sample_net (bs "api.example.com") 443 (egress_mark BkTproxy) 100 = (115%N, Ok (@Marked sample_net 137%N 2%N)).
Proof. reflexivity. Qed.

#[local] Existing Instances sample_netlink sample_fib sample_nftables sample_nftables_laws.
(** hodor in a container: another process id there than the kernel's, the cgroup
    is what tells it. *)
Definition contained : Maps :=
  {| CONFIG := Some {| proxy_pid := proxy_pid sample_config; netns_cookie := netns_cookie sample_config; proxy_cgroup := 9; tcp_port := tcp_port sample_config;
                       udp_port := udp_port sample_config; bypass_count := bypass_count sample_config; bypass_nets := bypass_nets sample_config; bypass_lens := bypass_lens sample_config |};
     ORIG_DST := ∅; FLOW := ∅ |}.
Lemma own_dials_escape_witness :
  (∀ r, decides installed_online.1.1 (to_resolver TunRoute.FWMARK) r ↔ finds online TABLE_MAIN (to_resolver TunRoute.FWMARK) r) ∧
  eval_hook sample_capture (bs "output") (sample_packet 6 EGRESS_MARK (bs "eth0") 443) =
    Some (sample_packet 6 EGRESS_MARK (bs "eth0") 443) ∧
  ∃ inside, tk_pid_tgid inside = 1%N ∧ ∀ a, @connect4 sample_lru inside contained a = (contained, a).
Proof.
  pose proof (λ backend later, @own_dials_escape sample_net SampleFib sample_netlink sample_fib sample_nftables sample_nftables_laws sample_lru
    online TUN_NAME Options_default LISTEN_PORT (bs "api.example.com") 443%N backend 100%N later) as Hescape.
  split; [|split].
  - apply (Hescape BkTun 115%N (@Marked sample_net 136%N 2%N) eq_refl); [|reflexivity|reflexivity|reflexivity|].
    + apply host_clear. by repeat constructor.
    + apply host_early. repeat constructor; by intros.
  - apply (Hescape BkTproxy 115%N (@Marked sample_net 137%N 2%N) eq_refl sample_capture_ok); [by apply sample_packet_ok|reflexivity|reflexivity].
  - exists {| tk_pid_tgid := 1; tk_cgroup := 9 |}. split; [reflexivity|]. intros a.
    apply (Hescape BkEbpf _ (@Unmarked sample_net _) eq_refl _ _ contained a eq_refl). right. split; [done|reflexivity].
Defined.
