(* ===== verification/Dispatch.v ===== *)
(** * Connection dispatch

    How one guest connection finds its protocol, its peer and its machines:
    [crates/hodor-proxy/src/identity.rs] (the pick and the pre-authentication
    readers), [lib.rs] (the explicit ingress), [connection.rs] (the TLS opening,
    the client-auth policy, the dial) and the serve arms of [transports/*/mod.rs]
    up to the moment the relay or a TLS library takes over. A guest stream is
    the list of what its reads answer inside the budget; an exhausted list is an
    exhausted budget. What the arms ask of the outside is in [World]. *)

From S2P Require Import Prelude Decoy ConnString Grants Mint Engine Raw Redis Postgres HttpHead HttpMachine H2.

(** ** Libraries *)

(** [httparse::Request::parse]: its status, with the length of the head. *)
Inductive ParseStatus := PsError | PsPartial | PsComplete (len : nat) (req : httparse_Request).
Class RequestHead := { request_status : nat → bytes → ParseStatus }.

(** [rama]'s [ClientHello] parser. *)
Class TlsHello := {
  ClientHello : Type;
  parse_client_hello : bytes → option ClientHello;
  ext_server_name : ClientHello → option bytes;
}.

(** ** The pick *)

(** [Expect], with the scopes it borrows. *)
Inductive Expect :=
| ExTls
| ExPlain
| ExRaw
| ExPostgres (scope : PostgresScope)
| ExRedis (scope : RedisScope)
| ExSsh (scope : SshScope)
| ExSplice.

Fixpoint expect_endpoint (grants : list Grant) (host : option bytes) (port : N) (arms : list (Scheme * Expect)) : Expect :=
  match arms with
  | [] => ExSplice
  | (scheme, arm) :: arms =>
      if existsb (λ g, bool_of_opt (Grant_endpoint g scheme host port)) grants then arm
      else expect_endpoint grants host port arms
  end.

Definition expect (grants : list Grant) (host : option bytes) (port : N) : Expect :=
  match find_map (λ g, Grant_postgres g host port) grants with
  | Some scope => ExPostgres scope
  | None =>
      match find_map (λ g, Grant_redis g host port) grants with
      | Some scope => ExRedis scope
      | None =>
          match find_map (λ g, Grant_ssh g host port) grants with
          | Some scope => ExSsh scope
          | None => expect_endpoint grants host port [(Https, ExTls); (ConnString.Http, ExPlain); (Tcp, ExRaw)]
          end
      end
  end.

(** ** Plugins *)

Inductive HookDirection := HdRequest | HdResponse.
Inductive WorldSupport := WsRequest | WsResponse | WsBoth.

Definition direction_allows (configured : PluginDirection) (leg : HookDirection) : bool :=
  match configured, leg with
  | PdBoth, _ | PdRequest, HdRequest | PdResponse, HdResponse => true
  | _, _ => false
  end.
Definition world_supports (support : WorldSupport) (leg : HookDirection) : bool :=
  match support, leg with
  | WsBoth, _ | WsRequest, HdRequest | WsResponse, HdResponse => true
  | _, _ => false
  end.

Section Dispatch.
Context `{!Digests, !UrlCrate, !RequestHead, !TlsHello, !RewriteHook, !Pgwire}.

(** A loaded plugin; [lp_fresh] is a new instance of its component for a leg. *)
Record LoadedPlugin := {
  lp_allow : list EndpointScope;
  lp_direction : PluginDirection;
  lp_support : WorldSupport;
  lp_fresh : HookDirection → hook_state;
}.
Definition select (plugins : list LoadedPlugin) (scheme : Scheme) (host : bytes) (port : N) (leg : HookDirection)
    : option hook_state :=
  (λ p, lp_fresh p leg) <$> find (λ p, uri_match (lp_allow p) scheme host port && direction_allows (lp_direction p) leg &&
                                      world_supports (lp_support p) leg) plugins.

(** ** Authorities and heads *)

Definition authority_host (h : Host) : bytes := match h with Domain d => d | Ipv4 a => a | Ipv6 a => a end.

Definition parse_authority (authority : bytes) (default_port : option N) : option (bytes * N) :=
  if existsb (λ b, bool_decide (b ∈ bs "/?#@")) authority then None
  else
    match url_parse (bs "http://" ++ authority) with
    | Err _ => None
    | Ok url =>
        host ← url_host url;
        port ← match url_port url with Some port => Some port | None => default_port end;
        Some (authority_host host, port)
    end.

Definition head_boundary : bytes := crlf ++ crlf.
(** [head_len] of [identity.rs]. *)
Definition head_len (head : bytes) : option nat := (λ pos, pos + 4) <$> find_window head_boundary head.
(** [head_tail] of [lib.rs]. *)
Definition head_tail (head : bytes) : bytes :=
  match find_window head_boundary head with Some pos => drop (pos + 4) head | None => [] end.

Definition http_head_host (buf : bytes) (default_port : N) : option (bytes * N) :=
  match request_status 32 buf with
  | PsComplete len req =>
      expected ← head_len buf;
      if negb (len =? expected) then None
      else
        host ← find (λ h, eq_ignore_case (hd_name h) (bs "host")) (rq_headers req);
        if utf8_valid (hd_value host) then parse_authority (hd_value host) (Some default_port) else None
  | _ => None
  end.

(** ** Reading the opening *)

Definition MAX_HELLO : nat := 16 * 1024 + 5.
Definition MAX_HEAD : nat := 64 * 1024.
Definition TLS_HANDSHAKE : byte := Byte.x16.

Inductive Hello :=
| Named (buf sni : bytes) (hello : ClientHello)
| Unnamed (buf : bytes) (hello : option ClientHello).

Definition hello_sni (buf : bytes) : option (bytes * ClientHello) :=
  hello ← parse_client_hello buf; sni ← ext_server_name hello; Some (sni, hello).
Definition unnamed (buf : bytes) : option Hello :=
  if bool_decide (head buf = Some TLS_HANDSHAKE) then Some (Unnamed buf (parse_client_hello buf)) else None.

(** The readers return what they read and the reads they did not make. *)
Fixpoint read_client_hello (buf : bytes) (events : list ReadEvent) : result () (option Hello) * list ReadEvent :=
  match hello_sni buf with
  | Some (sni, hello) => (Ok (Some (Named buf sni hello)), events)
  | None =>
      if bool_of_opt (parse_client_hello buf) then (Ok (unnamed buf), events)
      else if MAX_HELLO <? length buf then (Ok (unnamed buf), events)
      else match events with
           | Data chunk :: events =>
               let buf := buf ++ chunk in
               if bool_decide (head buf = Some TLS_HANDSHAKE) then read_client_hello buf events else (Ok None, events)
           | ReadError :: events => (Err tt, events)
           | Eof :: events | Elapsed :: events => (Ok (unnamed buf), events)
           | [] => (Ok (unnamed buf), [])
           end
  end.

Fixpoint read_http_head (buf : bytes) (events : list ReadEvent) (default_port : N)
    : result () (option (bytes * bytes * N)) * list ReadEvent :=
  match http_head_host buf default_port with
  | Some (host, port) => (Ok (Some (buf, host, port)), events)
  | None =>
      if MAX_HEAD <? length buf then (Ok None, events)
      else match events with
           | Data chunk :: events => read_http_head (buf ++ chunk) events default_port
           | ReadError :: events => (Err tt, events)
           | Eof :: events | Elapsed :: events => (Ok None, events)
           | [] => (Ok None, [])
           end
  end.

(** [read_head] of [lib.rs]: [Err true] is the timeout, [Err false] a failed read. *)
Fixpoint read_head (buf : bytes) (events : list ReadEvent) : result bool bytes * list ReadEvent :=
  match events with
  | Data chunk :: events =>
      let buf := buf ++ chunk in
      if MAX_HEAD <? length buf then (Ok buf, events)
      else if bool_of_opt (find_window head_boundary buf) then (Ok buf, events)
      else read_head buf events
  | Eof :: events => (Ok buf, events)
  | ReadError :: events => (Err false, events)
  | Elapsed :: events => (Err true, events)
  | [] => (Err true, [])
  end.

Definition ssh_banner : bytes := bs "SSH-2.0-".
(** The banner loop of the ssh arm: [Ok None] closes. *)
Fixpoint read_banner (banner : bytes) (events : list ReadEvent) : result () (option bytes) * list ReadEvent :=
  if (length banner <? 8) && starts_with ssh_banner banner then
    match events with
    | Data chunk :: events => read_banner (banner ++ chunk) events
    | ReadError :: events => (Err tt, events)
    | Eof :: events | Elapsed :: events => (Ok None, events)
    | [] => (Ok None, [])
    end
  else (Ok (Some banner), events).

(** ** Serving *)

(** What the arms ask of the outside: whether a dial succeeds, the burst guard,
    the server's answer to an SSL request, whether a name is a host for [rama],
    and the client identity files. *)
Record World := {
  dials : bytes → N → bool;
  mint_allows : bool;
  ssl_answer : option byte;
  host_parses : bytes → bool;
  identity_loads : bytes → bytes → bool;
}.

Inductive ServeError :=
| ReadFailed
| HeadTimeout
| BadHead
| DialFailed (host : bytes) (port : N)
| BurstExceeded (identity : bytes)
| BadIdentity (identity : bytes)
| ClientIdentityError
| UnknownTrustBundle (path : bytes)
| SslRequestFailed
| SshHostKeyUnset.

(** [client_auth_policy]: the identity offered when the server requests one, and
    whether the guest must present a certificate. *)
Record ClientAuthPolicy := { ca_offers : option (bytes * bytes); ca_demands : bool }.

(** What a connection ends up as. [replay] is what was read of the guest and is
    fed to the machines, or to the TLS acceptor, first; [ctx] is the host and
    port the machines' pairs are selected by. *)
Inductive Served :=
| SvClosed
| SvFailed (e : ServeError)
| SvSpliced (dial : bytes * N) (replay : bytes)
| SvMitm (identity : bytes) (scope : EndpointScope) (policy : ClientAuthPolicy) (dial : bytes * N) (ctx : bytes * N)
         (replay : bytes)
| SvHttp (dial : bytes * N) (ctx : bytes * N) (replay : bytes)
| SvRaw (dial : bytes * N) (ctx : bytes * N) (replay : bytes)
| SvPostgres (scope : PostgresScope) (guest_tls : option bytes) (server_tls : bool) (dial : bytes * N) (ctx : bytes * N)
             (replay : bytes)
| SvRedis (scope : RedisScope) (guest_tls : option bytes) (server_tls : bool) (dial : bytes * N) (ctx : bytes * N)
          (replay : bytes)
| SvSsh (scope : SshScope) (dial : bytes * N) (name : bytes) (replay : bytes).

Record CandidateParams := {
  cn_dial_host : bytes;
  cn_port : N;
  cn_host : option bytes;
  cn_raw_host : bytes;
  cn_initial : bytes;
}.

(** [entry_anchors]: the bundles with a relay of their own. *)
Definition add_anchor (seen : list bytes) (scope : EndpointScope) : list bytes :=
  match es_root_cert scope with
  | Some path => if bool_decide (path ∈ seen) then seen else seen ++ [path]
  | None => seen
  end.
Definition entry_anchors (grants : list Grant) : list bytes :=
  foldl (λ seen g, match g with GToken _ allow _ _ => foldl add_anchor seen allow | _ => seen end) [] grants.

Context (w : World) (grants : list Grant).

Definition splice (dial_host : bytes) (port : N) (read : bytes) : Served :=
  if dials w dial_host port then SvSpliced (dial_host, port) read else SvFailed (DialFailed dial_host port).

Definition client_auth_policy (scope : EndpointScope) : option ClientAuthPolicy :=
  auth ← match es_client_cert scope, es_client_key scope with
         | Some cert, Some key => if identity_loads w cert key then Some (Some (cert, key)) else None
         | _, _ => Some None
         end;
  Some {| ca_offers := auth; ca_demands := match es_guest_tls scope with Mtls => true | Tls => false end |}.

(** The SNI must name the authority the ingress knows. *)
Definition sni_differs (host sni : option bytes) : bool :=
  match host, sni with Some authority, Some sni => negb (eq_ignore_case sni authority) | _, _ => false end.

Definition hello_parts (read : Hello) : bytes * option bytes * option ClientHello :=
  match read with Named buf sni hello => (buf, Some sni, Some hello) | Unnamed buf hello => (buf, None, hello) end.

(** The [https://] arm. *)
Definition serve_https (p : CandidateParams) (events : list ReadEvent) : Served * list ReadEvent :=
  match read_client_hello (cn_initial p) events with
  | (Err _, events) => (SvFailed ReadFailed, events)
  | (Ok None, events) => (SvClosed, events)
  | (Ok (Some read), events) =>
      let '(buf, sni, _) := hello_parts read in
      (if sni_differs (cn_host p) sni then SvClosed
       else
         match match cn_host p with Some host => Some host | None => sni end with
         | None => splice (cn_dial_host p) (cn_port p) buf
         | Some identity =>
             match find_map (λ g, Grant_endpoint g Https (Some identity) (cn_port p)) grants with
             | None => splice (cn_dial_host p) (cn_port p) buf
             | Some scope =>
                 if negb (mint_allows w) then SvFailed (BurstExceeded identity)
                 else if negb (dials w (cn_dial_host p) (cn_port p)) then SvFailed (DialFailed (cn_dial_host p) (cn_port p))
                 else if negb (host_parses w identity) then SvFailed (BadIdentity identity)
                 else
                   match client_auth_policy scope with
                   | None => SvFailed ClientIdentityError
                   | Some policy =>
                       let mitm := SvMitm identity scope policy (cn_dial_host p, cn_port p) (identity, cn_port p) buf in
                       match es_root_cert scope with
                       | None => mitm
                       | Some path =>
                           if bool_decide (path ∈ entry_anchors grants) then mitm else SvFailed (UnknownTrustBundle path)
                       end
                   end
             end
         end, events)
  end.

(** The [http://] arm. *)
Definition serve_http (p : CandidateParams) (events : list ReadEvent) : Served * list ReadEvent :=
  match read_http_head (cn_initial p) events (cn_port p) with
  | (Err _, events) => (SvFailed ReadFailed, events)
  | (Ok None, events) => (SvClosed, events)
  | (Ok (Some (head, head_host, head_port)), events) =>
      let named := existsb (λ g, bool_of_opt (Grant_endpoint g ConnString.Http (Some head_host) head_port)) grants in
      (if negb (dials w (cn_dial_host p) (cn_port p)) then SvFailed (DialFailed (cn_dial_host p) (cn_port p))
       else if named then SvHttp (cn_dial_host p, cn_port p) (head_host, head_port) head
       else SvRaw (cn_dial_host p, cn_port p) (cn_raw_host p, cn_port p) head, events)
  end.

(** The [tcp://] arm. *)
Definition serve_tcp (p : CandidateParams) (events : list ReadEvent) : Served * list ReadEvent :=
  (if dials w (cn_dial_host p) (cn_port p)
   then SvRaw (cn_dial_host p, cn_port p) (cn_raw_host p, cn_port p) (cn_initial p)
   else SvFailed (DialFailed (cn_dial_host p) (cn_port p)), events).

(** [guest_tls_opening]: the hello, the name to mint for and the server name. *)
Definition guest_tls_opening (initial : bytes) (events : list ReadEvent) (host : option bytes)
    : result ServeError (option (bytes * bytes * bytes)) * list ReadEvent :=
  match read_client_hello initial events with
  | (Err _, events) => (Err ReadFailed, events)
  | (Ok None, events) => (Ok None, events)
  | (Ok (Some read), events) =>
      let '(hello_buf, sni, _) := hello_parts read in
      (if sni_differs host sni then Ok None
       else
         let server_name := match host with Some host => Some host | None => sni end in
         match match sni with Some sni => Some sni | None => server_name end with
         | None => Ok None
         | Some identity =>
             if mint_allows w then Ok (Some (hello_buf, identity, default [] server_name))
             else Err (BurstExceeded identity)
         end, events)
  end.

(** The dial, the server's TLS and the pair of the [postgres://] arm. *)
Definition settle_postgres (scope : PostgresScope) (p : CandidateParams) (guest_tls server_name : option bytes)
    (replay : bytes) : Served :=
  let dial := (pg_host (pg_upstream scope), pg_port (pg_upstream scope)) in
  if negb (dials w dial.1 dial.2) then SvFailed (DialFailed dial.1 dial.2)
  else
    match settle_upstream (pg_ssl scope) (pg_negotiation scope) (bool_of_opt guest_tls) (ssl_answer w) with
    | (_, Err _) => SvFailed SslRequestFailed
    | (_, Ok None) => SvClosed
    | (_, Ok (Some accepted)) =>
        SvPostgres scope guest_tls accepted dial (default (cn_raw_host p) server_name, cn_port p) replay
    end.

(** The [postgres://] arm; what it answers the guest first is the first
    component of [read_guest_opening]. *)
Definition serve_postgres (scope : PostgresScope) (p : CandidateParams) (events : list ReadEvent)
    : Served * list ReadEvent :=
  match read_guest_opening (cn_initial p) events with
  | (_, Err _, events) => (SvFailed ReadFailed, events)
  | (_, Ok None, events) => (SvClosed, events)
  | (_, Ok (Some opening), events) =>
      match opening with
      | OpenCleartext buf => (settle_postgres scope p None (cn_host p) buf, events)
      | OpenTls buf =>
          match guest_tls_opening buf events (cn_host p) with
          | (Err e, events) => (SvFailed e, events)
          | (Ok None, events) => (SvClosed, events)
          | (Ok (Some (hello_buf, identity, sni_name)), events) => (settle_postgres scope p (Some identity) (Some sni_name) hello_buf, events)
          end
      end
  end.

(** The dial and the pair of the redis arm. *)
Definition settle_redis (scope : RedisScope) (p : CandidateParams) (guest_tls server_name : option bytes)
    (replay : bytes) : Served :=
  let dial := (rd_host (rd_upstream scope), rd_port (rd_upstream scope)) in
  if negb (dials w dial.1 dial.2) then SvFailed (DialFailed dial.1 dial.2)
  else SvRedis scope guest_tls (rd_is_upstream_tls scope) dial (default (cn_raw_host p) server_name, cn_port p) replay.

(** The [redis://] and [rediss://] arm. *)
Definition serve_redis (scope : RedisScope) (p : CandidateParams) (events : list ReadEvent)
    : Served * list ReadEvent :=
  if rd_is_downstream_tls scope then
    match guest_tls_opening (cn_initial p) events (cn_host p) with
    | (Err e, events) => (SvFailed e, events)
    | (Ok None, events) => (SvClosed, events)
    | (Ok (Some (hello_buf, identity, sni_name)), events) => (settle_redis scope p (Some identity) (Some sni_name) hello_buf, events)
    end
  else if bool_decide (head (cn_initial p) = Some TLS_HANDSHAKE) then (SvClosed, events)
  else (settle_redis scope p None (cn_host p) (cn_initial p), events).

(** The [ssh://] arm; [keys_set] is whether both key paths can be named. *)
Definition serve_ssh (keys_set : bool) (scope : SshScope) (p : CandidateParams) (events : list ReadEvent)
    : Served * list ReadEvent :=
  match read_banner (cn_initial p) events with
  | (Err _, events) => (SvFailed ReadFailed, events)
  | (Ok None, events) => (SvClosed, events)
  | (Ok (Some banner), events) =>
      (if negb (starts_with banner ssh_banner) then splice (cn_dial_host p) (cn_port p) banner
       else if negb keys_set then SvFailed SshHostKeyUnset
       else SvSsh scope (cn_dial_host p, cn_port p) (default (cn_dial_host p) (cn_host p)) banner, events)
  end.

(** [Expect::serve]. *)
Definition serve (keys_set : bool) (arm : Expect) (p : CandidateParams) (events : list ReadEvent)
    : Served * list ReadEvent :=
  match arm with
  | ExSplice => (splice (cn_dial_host p) (cn_port p) (cn_initial p), events)
  | ExRaw => serve_tcp p events
  | ExPlain => serve_http p events
  | ExTls => serve_https p events
  | ExPostgres scope => serve_postgres scope p events
  | ExRedis scope => serve_redis scope p events
  | ExSsh scope => serve_ssh keys_set scope p events
  end.

(** ** The ingresses *)

Definition serve_connect_stream (keys_set : bool) (host : bytes) (port : N) (initial : bytes) (events : list ReadEvent)
    : Served * list ReadEvent :=
  serve keys_set (expect grants (Some host) port)
    {| cn_dial_host := host; cn_port := port; cn_host := Some host; cn_raw_host := host; cn_initial := initial |} events.

Definition serve_transparent_stream (keys_set : bool) (dial_host : bytes) (port : N) (raw_host : bytes)
    (events : list ReadEvent) : Served * list ReadEvent :=
  serve keys_set (expect grants None port)
    {| cn_dial_host := dial_host; cn_port := port; cn_host := None; cn_raw_host := raw_host; cn_initial := [] |} events.

(** [forward_arm]: an absolute-form request on the explicit listener. *)
Definition forward_arm (head target : bytes) : Served :=
  if negb (eq_ignore_case (take 7 target) (bs "http://")) then SvClosed
  else
    match parse_authority (default [] (hd_error (split_byte Byte.x2f (drop 7 target)))) (Some 80%N) with
    | None => SvClosed
    | Some (host, port) =>
        if negb (dials w host port) then SvFailed (DialFailed host port)
        else if negb (existsb (λ g, Grant_matches g ConnString.Http host port) grants) then SvSpliced (host, port) head
        else SvHttp (host, port) (host, port) head
    end.

Definition connect_answer : bytes := bs "HTTP/1.1 200 OK" ++ crlf ++ crlf.

(** [dispatch]: what the explicit listener writes itself, and how it serves. *)
Definition dispatch (keys_set : bool) (events : list ReadEvent) : bytes * (Served * list ReadEvent) :=
  match read_head [] events with
  | (Err true, events) => ([], (SvFailed HeadTimeout, events))
  | (Err false, events) => ([], (SvFailed ReadFailed, events))
  | (Ok head, events) =>
      match request_status 64 head with
      | PsError => ([], (SvFailed BadHead, events))
      | PsPartial => ([], (SvClosed, events))
      | PsComplete _ req =>
          match rq_method req, rq_path req with
          | Some method, Some target =>
              if eq_ignore_case method (bs "connect") then
                match parse_authority target None with
                | None => ([], (SvClosed, events))
                | Some (host, port) =>
                    match expect grants (Some host) port with
                    | ExSplice =>
                        if dials w host port then (connect_answer, (SvSpliced (host, port) (head_tail head), events))
                        else ([], (SvFailed (DialFailed host port), events))
                    | _ => (connect_answer, serve_connect_stream keys_set host port (head_tail head) events)
                    end
                end
              else ([], (forward_arm head target, events))
          | _, _ => ([], (SvClosed, events))
          end
      end
  end.

(** ** Machines *)

Context `{!JsonCrate, !Hpack}.

(** Both directions of a connection: [http_pair] and [https_pair],
    [https_h2_pair], [raw_tls_pair]. *)
Definition http_pair (plugins : list LoadedPlugin) (mint : option MintStore) (scheme : Scheme) (ctx : bytes * N)
    : Http * Http :=
  (Http_new grants scheme ctx.1 ctx.2 Downstream (select plugins scheme ctx.1 ctx.2 HdRequest) mint,
   Http_new grants scheme ctx.1 ctx.2 Upstream (select plugins scheme ctx.1 ctx.2 HdResponse) mint).
Definition https_h2_pair (plugins : list LoadedPlugin) (mint : option MintStore) (ctx : bytes * N) : H2 * H2 :=
  (H2_new grants Https ctx.1 ctx.2 Downstream (select plugins Https ctx.1 ctx.2 HdRequest) mint,
   H2_new grants Https ctx.1 ctx.2 Upstream (select plugins Https ctx.1 ctx.2 HdResponse) mint).
Definition raw_tls_pair (ctx : bytes * N) : Raw * Raw :=
  (Raw_new grants Https ctx.1 ctx.2 Downstream, Raw_new grants Https ctx.1 ctx.2 Upstream).

Inductive Machines :=
| MaHttp (pair : Http * Http)
| MaH2 (pair : H2 * H2)
| MaRaw (pair : Raw * Raw)
| MaPostgres (pair : Postgres * Postgres)
| MaRedis (pair : Redis * Redis).

(** [SubstitutionService::serve]: the negotiated protocol picks the framing. *)
Definition substitution_machines (plugins : list LoadedPlugin) (mint : option MintStore) (negotiated : option bytes)
    (ctx : bytes * N) : Machines :=
  match negotiated with
  | Some proto =>
      if bool_decide (proto = bs "h2") then MaH2 (https_h2_pair plugins mint ctx)
      else if bool_decide (proto = bs "http/1.1") then MaHttp (http_pair plugins mint Https ctx)
      else MaRaw (raw_tls_pair ctx)
  | None => MaRaw (raw_tls_pair ctx)
  end.

(** The machines a served connection is pumped through. *)
Definition machines (plugins : list LoadedPlugin) (mint : option MintStore) (negotiated : option bytes) (sv : Served)
    : option Machines :=
  match sv with
  | SvMitm _ _ _ _ ctx _ => Some (substitution_machines plugins mint negotiated ctx)
  | SvHttp _ ctx _ => Some (MaHttp (http_pair plugins mint ConnString.Http ctx))
  | SvRaw _ ctx _ => Some (MaRaw (raw_tcp_pair grants ctx.1 ctx.2))
  | SvPostgres _ _ _ _ ctx _ => Some (MaPostgres (postgres_pair grants ctx.1 ctx.2))
  | SvRedis _ _ _ _ ctx _ => Some (MaRedis (redis_pair grants ctx.1 ctx.2))
  | SvClosed | SvFailed _ | SvSpliced _ _ | SvSsh _ _ _ _ => None
  end.
End Dispatch.

(** ** The pick is the grants' *)

Lemma find_map_Some {A B} (f : A → option B) l b : find_map f l = Some b → ∃ a, a ∈ l ∧ f a = Some b.
Proof.
  induction l as [|a l IH]; [done|]. simpl. destruct (f a) as [b'|] eqn:E.
  - intros [= ->]. exists a. split; [by left|done].
  - intros (a' & Hin & Ha)%IH. exists a'. split; [by right|done].
Qed.

Lemma find_map_None {A B} (f : A → option B) l : find_map f l = None ↔ ∀ a, a ∈ l → f a = None.
Proof.
  induction l as [|a l IH]; simpl.
  - split; [by intros _ a ?%elem_of_nil|done].
  - destruct (f a) as [b|] eqn:E.
    + split; [done|]. intros Ha. specialize (Ha a ltac:(by left)). congruence.
    + rewrite IH. setoid_rewrite elem_of_cons. naive_solver.
Qed.

Lemma existsb_elem {A} (p : A → bool) l : existsb p l = true ↔ ∃ a, a ∈ l ∧ p a = true.
Proof. rewrite existsb_exists. by setoid_rewrite list_elem_of_In. Qed.

Lemma bool_of_opt_true {A} (o : option A) : bool_of_opt o = true ↔ is_Some o.
Proof. destruct o; simpl; split; [done..|done|by intros []]. Qed.

(** What covers a destination: the schemes an arm serves, and the scope the
    grant's entry lookup returns. *)
Definition covers (g : Grant) (arm : Expect) (host : option bytes) (port : N) : Prop :=
  match arm with
  | ExPostgres scope => Grant_postgres g host port = Some scope
  | ExRedis scope => Grant_redis g host port = Some scope
  | ExSsh scope => Grant_ssh g host port = Some scope
  | ExTls => is_Some (Grant_endpoint g Https host port)
  | ExPlain => is_Some (Grant_endpoint g ConnString.Http host port)
  | ExRaw => is_Some (Grant_endpoint g Tcp host port)
  | ExSplice => False
  end.

Lemma expect_endpoint_spec grants host port arms :
  (∀ scheme arm, (scheme, arm) ∈ arms → ∀ g, covers g arm host port ↔ is_Some (Grant_endpoint g scheme host port)) →
  let arm := expect_endpoint grants host port arms in
  (arm = ExSplice ∧ ∀ scheme arm, (scheme, arm) ∈ arms → ∀ g, g ∈ grants → Grant_endpoint g scheme host port = None) ∨
  (∃ scheme g, (scheme, arm) ∈ arms ∧ g ∈ grants ∧ covers g arm host port).
Proof.
  induction arms as [|[scheme arm] arms IH]; intros Hc; cbv zeta; cbn [expect_endpoint].
  { left. split; [done|]. by intros ? ? ?%elem_of_nil. }
  destruct (existsb _ grants) eqn:E.
  - right. apply existsb_elem in E as (g & Hg & Hs%bool_of_opt_true). exists scheme, g.
    split; [by left|split; [done|]]. by apply (Hc scheme arm ltac:(by left)).
  - destruct IH as [[-> Hn]|(s & g & Hin & Hg & Hcov)].
    + intros s a Hin. apply Hc. by right.
    + left. split; [done|]. intros s a Hin g Hg. apply elem_of_cons in Hin as [[= -> ->]|Hin]; [|by apply (Hn s a)].
      destruct (Grant_endpoint g scheme host port) eqn:Eg; [|done]. exfalso.
      rewrite (proj2 (existsb_elem _ _)) in E; [done|]. exists g. by rewrite Eg.
    + right. exists s, g. split; [by right|done].
Qed.

(** An arm that a scope lookup picked. *)
Ltac found E :=
  let g := fresh in apply find_map_Some in E as (g & ? & ?); eexists; split; [done|]; right; split; [done|]; by exists g.

Lemma expect_spec grants host port :
  ∃ arm, expect grants host port = arm ∧
    ((arm = ExSplice ∧ ∀ g arm, g ∈ grants → ¬ covers g arm host port) ∨
     (arm ≠ ExSplice ∧ ∃ g, g ∈ grants ∧ covers g arm host port)).
Proof.
  unfold expect. destruct (find_map (λ g, Grant_postgres g host port) grants) as [scope|] eqn:Ep.
  { found Ep. }
  destruct (find_map (λ g, Grant_redis g host port) grants) as [scope|] eqn:Er.
  { found Er. }
  destruct (find_map (λ g, Grant_ssh g host port) grants) as [scope|] eqn:Es.
  { found Es. }
  rewrite find_map_None in Ep. rewrite find_map_None in Er. rewrite find_map_None in Es. eexists. split; [done|].
  edestruct (expect_endpoint_spec grants host port [(Https, ExTls); (ConnString.Http, ExPlain); (Tcp, ExRaw)])
    as [[-> Hn]|(s & g & Hin & Hg & Hc)].
  - intros s a Hin g. rewrite !elem_of_cons, elem_of_nil in Hin. by destruct Hin as [[= -> ->]|[[= -> ->]|[[= -> ->]|[]]]].
  - left. split; [done|]. intros g arm Hg Hc.
    assert (∀ s a, (s, a) ∈ [(Https, ExTls); (ConnString.Http, ExPlain); (Tcp, ExRaw)] →
      ¬ is_Some (Grant_endpoint g s host port)) as Hns.
    { intros s a Hin. rewrite (Hn s a Hin g Hg). by intros []. }
    destruct arm; simpl in Hc; [by apply (Hns Https ExTls); [set_solver|]|by apply (Hns ConnString.Http ExPlain); [set_solver|]|
      by apply (Hns Tcp ExRaw); [set_solver|]|rewrite Ep in Hc by done; done|rewrite Er in Hc by done; done|
      rewrite Es in Hc by done; done|done].
  - right. split; [intros He; by rewrite He in Hc|by exists g].
Qed.

Lemma expect_covered grants host port :
  expect grants host port ≠ ExSplice → ∃ g, g ∈ grants ∧ covers g (expect grants host port) host port.
Proof. destruct (expect_spec grants host port) as (arm & -> & [[-> _]|[_ Hc]]); [done|by intros _]. Qed.

(** The arm that serves a destination is stated by the grants: a grant of
    the configuration covers it with exactly the scope the arm borrows, and a
    destination is spliced exactly when no grant matches it under any scheme. *)
Theorem expect_exact grants host port :
  (expect grants host port ≠ ExSplice → ∃ g, g ∈ grants ∧ covers g (expect grants host port) host port) ∧
  (expect grants host port = ExSplice ↔ ∀ g arm, g ∈ grants → ¬ covers g arm host port).
Proof.
  destruct (expect_spec grants host port) as (arm & -> & Harm). destruct Harm as [[-> Hn]|[Hns (g & Hg & Hc)]].
  - by split.
  - split; [intros _; by exists g|]. split; [done|]. intros Hall. by destruct (Hall g arm Hg).
Qed.


(** ** The openings *)

Definition read_data (read : list ReadEvent) : bytes := concat (map event_bytes read).

Lemma eq_ignore_case_refl a : eq_ignore_case a a = true.
Proof. unfold eq_ignore_case. by case_bool_decide. Qed.

Section Openings.
Context `{!Digests, !UrlCrate, !RequestHead, !TlsHello, !Pgwire}.

Definition hello_buf (h : Hello) : bytes := (hello_parts h).1.1.

Lemma unnamed_buf buf h : unnamed buf = Some h → h = Unnamed buf (parse_client_hello buf).
Proof. unfold unnamed. case_bool_decide; [|done]. by intros [= <-]. Qed.

(** What a hello reader returns holds everything it was given and read, and its
    name is the one its own bytes carry. *)
Definition hello_of (seen : bytes) (h : Hello) : Prop :=
  hello_buf h = seen ∧ match h with Named buf sni hello => hello_sni buf = Some (sni, hello) | Unnamed buf hello => hello_sni buf = None end.

Lemma hello_sni_complete buf sni hello : hello_sni buf = Some (sni, hello) → parse_client_hello buf = Some hello.
Proof.
  unfold hello_sni. destruct (parse_client_hello buf) as [h|]; [|done]. simpl. destruct (ext_server_name h); [|done].
  simpl. by intros [= _ ->].
Qed.

(** The reads that were made, and nothing more of the stream. *)
Ltac stops read :=
  intros [= <- <-]; exists read; split; [done|]; unfold read_data; simpl; rewrite ?app_nil_r; intros ? [= Hstop].

Lemma read_data_nil : read_data [] = [].
Proof. done. Qed.
Lemma read_data_app read read' : read_data (read ++ read') = read_data read ++ read_data read'.
Proof. unfold read_data. by rewrite map_app, concat_app. Qed.
Lemma read_data_cons e read : read_data (e :: read) = event_bytes e ++ read_data read.
Proof. done. Qed.

Lemma read_client_hello_spec buf events res rest :
  read_client_hello buf events = (res, rest) →
  ∃ read, events = read ++ rest ∧ ∀ h, res = Ok (Some h) → hello_of (buf ++ read_data read) h.
Proof.
  assert (∀ b, hello_sni b = None → ∀ h, unnamed b = Some h → hello_of b h) as Hun.
  { intros b Hb h ->%unnamed_buf. by split. }
  revert buf. induction events as [|e events IH]; intros buf; cbn [read_client_hello];
    destruct (hello_sni buf) as [[sni hello]|] eqn:Es; try (stops (@nil ReadEvent); subst; by split);
    destruct (bool_of_opt (parse_client_hello buf)); try (stops (@nil ReadEvent); by apply Hun);
    destruct (MAX_HELLO <? length buf); try (stops (@nil ReadEvent); by apply Hun).
  destruct e as [chunk| | |]; [|stops [Eof]; by apply Hun|stops [Elapsed]; by apply Hun|by stops [ReadError]].
  cbv zeta. case_bool_decide; [|by stops [Data chunk]].
  intros (read & -> & Hh)%IH. exists (Data chunk :: read). split; [done|]. intros h Hr.
  rewrite read_data_cons, app_assoc. by apply Hh.
Qed.

Lemma read_http_head_spec buf events port res rest :
  read_http_head buf events port = (res, rest) →
  ∃ read, events = read ++ rest ∧ ∀ r, res = Ok (Some r) →
    r.1.1 = buf ++ read_data read ∧ http_head_host r.1.1 port = Some (r.1.2, r.2).
Proof.
  revert buf. induction events as [|e events IH]; intros buf; cbn [read_http_head];
    destruct (http_head_host buf port) as [[host p]|] eqn:Eh; try (stops (@nil ReadEvent); by subst);
    destruct (MAX_HEAD <? length buf); try (by stops (@nil ReadEvent)).
  destruct e as [chunk| | |]; [|by stops [Eof]|by stops [Elapsed]|by stops [ReadError]].
  intros (read & -> & Hh)%IH. exists (Data chunk :: read). split; [done|]. intros r Hr.
  rewrite read_data_cons, app_assoc. by apply Hh.
Qed.

Lemma read_banner_spec banner events res rest :
  read_banner banner events = (res, rest) →
  ∃ read, events = read ++ rest ∧ ∀ r, res = Ok (Some r) → r = banner ++ read_data read.
Proof.
  revert banner. induction events as [|e events IH]; intros banner; cbn [read_banner];
    destruct ((length banner <? 8) && starts_with ssh_banner banner); try (stops (@nil ReadEvent); by subst); try (by stops (@nil ReadEvent)).
  destruct e as [chunk| | |]; [|by stops [Eof]|by stops [Elapsed]|by stops [ReadError]].
  intros (read & -> & Hh)%IH. exists (Data chunk :: read). split; [done|]. intros r Hr.
  rewrite read_data_cons, app_assoc. by apply Hh.
Qed.

Lemma guest_tls_opening_spec w initial events host res rest :
  guest_tls_opening w initial events host = (res, rest) →
  ∃ read, events = read ++ rest ∧ ∀ buf identity name, res = Ok (Some (buf, identity, name)) →
    buf = initial ++ read_data read ∧
    match host with
    | Some authority => name = authority ∧ eq_ignore_case identity authority = true
    | None => name = identity ∧ fst <$> hello_sni buf = Some identity
    end.
Proof.
  unfold guest_tls_opening. destruct (read_client_hello initial events) as [r l] eqn:Er.
  destruct (read_client_hello_spec _ _ _ _ Er) as (read & -> & Hh).
  destruct r as [[h|]|e]; [|intros [= <- <-]; by exists read..].
  destruct (Hh h eq_refl) as [Hbuf Hsni]. unfold hello_buf in Hbuf.
  destruct (hello_parts h) as [[b sni] ch] eqn:Ep. simpl in Hbuf. subst b.
  intros [= <- <-]. exists read. split; [done|]. intros buf identity name.
  assert (∀ s, sni = Some s → fst <$> hello_sni (initial ++ read_data read) = Some s) as Hs.
  { intros s ->. destruct h as [b s' hello|b hello]; simpl in Ep; [|done]. injection Ep as -> -> _. by rewrite Hsni. }
  destruct (sni_differs host sni) eqn:Hd; [done|]. unfold sni_differs in Hd.
  destruct sni as [s|], host as [authority|]; simpl; try done; destruct (mint_allows w); try done; intros [= <- <- <-].
  - split_and!; [done..|]. by apply negb_false_iff.
  - split_and!; [done..|]. by apply Hs.
  - split_and!; [done..|]. apply eq_ignore_case_refl.
Qed.

(** *** What a connection is served as stays inside the scopes *)

(** The name a database connection is paired by, and the name its guest leg is
    terminated for: the authority's, or else what the guest's hello says. *)
Definition named_by (p : CandidateParams) (guest_tls : option bytes) (ctx : bytes * N) : Prop :=
  ctx.2 = cn_port p ∧
  match cn_host p with
  | Some host => ctx.1 = host ∧ ∀ identity, guest_tls = Some identity → eq_ignore_case identity host = true
  | None => ctx.1 = default (cn_raw_host p) guest_tls
  end.

(** The contract of both ingresses: where a served connection is dialed, which
    identity it is terminated for and which scope its machines are paired by.
    [cn_host] is the CONNECT authority, or nothing for a transparent capture. *)
Definition within (grants : list Grant) (p : CandidateParams) (sv : Served) : Prop :=
  let here := (cn_dial_host p, cn_port p) in
  match sv with
  | SvClosed | SvFailed _ => True
  | SvSpliced dial _ => dial = here
  | SvRaw dial ctx _ => dial = here ∧ ctx = (cn_raw_host p, cn_port p)
  | SvMitm identity scope policy dial ctx replay =>
      dial = here ∧ ctx = (identity, cn_port p) ∧
      (∃ g, g ∈ grants ∧ Grant_endpoint g Https (Some identity) (cn_port p) = Some scope) ∧
      ca_demands policy = (match es_guest_tls scope with Mtls => true | Tls => false end) ∧
      match cn_host p with
      | Some host => identity = host ∧ ∀ sni, fst <$> hello_sni replay = Some sni → eq_ignore_case sni identity = true
      | None => fst <$> hello_sni replay = Some identity
      end
  | SvHttp dial ctx replay =>
      dial = here ∧ http_head_host replay (cn_port p) = Some ctx ∧
      ∃ g, g ∈ grants ∧ is_Some (Grant_endpoint g ConnString.Http (Some ctx.1) ctx.2)
  | SvPostgres scope guest_tls _ dial ctx _ =>
      (∃ g, g ∈ grants ∧ Grant_postgres g (cn_host p) (cn_port p) = Some scope) ∧
      dial = (pg_host (pg_upstream scope), pg_port (pg_upstream scope)) ∧ named_by p guest_tls ctx
  | SvRedis scope guest_tls server_tls dial ctx _ =>
      (∃ g, g ∈ grants ∧ Grant_redis g (cn_host p) (cn_port p) = Some scope) ∧
      dial = (rd_host (rd_upstream scope), rd_port (rd_upstream scope)) ∧ named_by p guest_tls ctx ∧
      bool_of_opt guest_tls = rd_is_downstream_tls scope ∧ server_tls = rd_is_upstream_tls scope
  | SvSsh scope dial name _ =>
      (∃ g, g ∈ grants ∧ Grant_ssh g (cn_host p) (cn_port p) = Some scope) ∧
      dial = here ∧ name = default (cn_dial_host p) (cn_host p)
  end.

Lemma opened_named_by w p initial events buf identity name rest :
  guest_tls_opening w initial events (cn_host p) = (Ok (Some (buf, identity, name)), rest) →
  named_by p (Some identity) (name, cn_port p).
Proof.
  intros (read & _ & Hs)%guest_tls_opening_spec. destruct (Hs _ _ _ eq_refl) as [_ Hn]. split; [done|].
  destruct (cn_host p) as [host|]; [|by destruct Hn as [-> _]]. destruct Hn as [-> Hn]. split; [done|]. by intros ? [= <-].
Qed.

Lemma splice_within w grants p seen : within grants p (splice w (cn_dial_host p) (cn_port p) seen).
Proof. unfold splice. case_match; [reflexivity|exact I]. Qed.

Lemma serve_https_within w grants p events sv rest : serve_https w grants p events = (sv, rest) → within grants p sv.
Proof.
  unfold serve_https. destruct (read_client_hello (cn_initial p) events) as [r l] eqn:Er.
  destruct (read_client_hello_spec _ _ _ _ Er) as (read & -> & Hh).
  destruct r as [[h|]|e]; [|by intros [= <- _]..].
  destruct (Hh h eq_refl) as [_ Hsni]. destruct (hello_parts h) as [[b sni] ch] eqn:Ep.
  assert (fst <$> hello_sni b = sni) as Hb.
  { destruct h as [b' s' hello|b' hello]; simpl in Ep; injection Ep as -> <- _; [by rewrite Hsni|by rewrite (Hsni : _ = None)]. }
  destruct (sni_differs _ _) eqn:Hd; [by intros [= <- _]|].
  destruct (match cn_host p with Some host => Some host | None => sni end) as [identity|] eqn:Ei; [|intros [= <- _]; apply splice_within].
  destruct (find_map _ grants) as [scope|] eqn:Ef; [|intros [= <- _]; apply splice_within].
  apply find_map_Some in Ef. destruct (client_auth_policy w scope) as [policy|] eqn:Epol;
    [|intros [= <- _]; repeat case_match; exact I].
  assert (within grants p (SvMitm identity scope policy (cn_dial_host p, cn_port p) (identity, cn_port p) b)) as Hm.
  { cbn [within]. split_and!; [done..| |].
    - revert Epol. unfold client_auth_policy. repeat (case_match; simpl; try done); by intros [= <-].
    - destruct (cn_host p) as [host|]; [|by rewrite Hb]. injection Ei as <-. split; [done|]. rewrite Hb. intros s ->.
      by apply negb_false_iff. }
  intros [= <- _]. repeat case_match; first [exact I|exact Hm].
Qed.

Lemma serve_http_within w grants p events sv rest : serve_http w grants p events = (sv, rest) → within grants p sv.
Proof.
  unfold serve_http. destruct (read_http_head (cn_initial p) events (cn_port p)) as [r l] eqn:Er.
  destruct (read_http_head_spec _ _ _ _ _ Er) as (read & -> & Hh).
  destruct r as [[[[head host] port]|]|e]; [|by intros [= <- _]..].
  destruct (Hh _ eq_refl) as [_ Hhost]. simpl in Hhost. intros [= <- _].
  destruct (dials w _ _); [|exact I]. simpl. destruct (existsb _ grants) eqn:Ee; [|done].
  apply existsb_elem in Ee as (g & Hg & Hs%bool_of_opt_true). split_and!; [done..|]. by exists g.
Qed.

(** A connection opened in cleartext is paired by what the ingress knows. *)
Lemma cleartext_name p :
  named_by p None (default (cn_raw_host p) (cn_host p), cn_port p).
Proof. split; [done|]. by destruct (cn_host p). Qed.

Lemma settle_postgres_within w grants scope p guest_tls name replay :
  (∃ g, g ∈ grants ∧ Grant_postgres g (cn_host p) (cn_port p) = Some scope) →
  named_by p guest_tls (default (cn_raw_host p) name, cn_port p) →
  within grants p (settle_postgres w scope p guest_tls name replay).
Proof.
  intros Hg Hn. unfold settle_postgres. destruct (dials _ _ _); [|exact I]. cbn [negb].
  by destruct (settle_upstream _ _ _ _) as [? [[a|]|?]].
Qed.

Lemma serve_postgres_within w grants scope p events sv rest :
  (∃ g, g ∈ grants ∧ Grant_postgres g (cn_host p) (cn_port p) = Some scope) →
  serve_postgres w scope p events = (sv, rest) → within grants p sv.
Proof.
  intros Hg. unfold serve_postgres.
  destruct (read_guest_opening (cn_initial p) events) as [[written [[[b|b]|]|e]] l]; [| |by intros [= <- _]..].
  - destruct (guest_tls_opening w b l (cn_host p)) as [[[[[hello identity] name]|]|e] l'] eqn:Et; [|by intros [= <- _]..].
    intros [= <- _]. by apply settle_postgres_within, (opened_named_by _ _ _ _ _ _ _ _ Et).
  - intros [= <- _]. by apply settle_postgres_within, cleartext_name.
Qed.

Lemma serve_redis_within w grants scope p events sv rest :
  (∃ g, g ∈ grants ∧ Grant_redis g (cn_host p) (cn_port p) = Some scope) →
  serve_redis w scope p events = (sv, rest) → within grants p sv.
Proof.
  intros Hg. unfold serve_redis. destruct (rd_is_downstream_tls scope) eqn:Ed.
  - destruct (guest_tls_opening w (cn_initial p) events (cn_host p)) as [[[[[hello identity] name]|]|e] l'] eqn:Et;
      [|by intros [= <- _]..].
    intros [= <- _]. unfold settle_redis. apply opened_named_by in Et. by destruct (dials _ _ _).
  - case_bool_decide; intros [= <- _]; [exact I|]. unfold settle_redis. destruct (dials _ _ _); [|exact I].
    split_and!; [done..|apply cleartext_name|done|done].
Qed.

Lemma serve_ssh_within w grants keys_set scope p events sv rest :
  (∃ g, g ∈ grants ∧ Grant_ssh g (cn_host p) (cn_port p) = Some scope) →
  serve_ssh w keys_set scope p events = (sv, rest) → within grants p sv.
Proof.
  intros Hg. unfold serve_ssh. destruct (read_banner (cn_initial p) events) as [[[banner|]|e] l]; [|by intros [= <- _]..].
  intros [= <- _]. destruct (starts_with banner ssh_banner); [|apply splice_within]. by destruct keys_set.
Qed.


(** *** Nothing read is lost *)

Lemma read_guest_opening_stops buf events written res rest :
  read_guest_opening buf events = (written, res, rest) → ∃ read, events = read ++ rest.
Proof.
  revert buf written. induction events as [|e events IH]; intros buf written; cbn [read_guest_opening];
    destruct (judge_opening (length buf) buf) as [w [o|b]]; try (intros [= <- <- <-]; by exists []).
  destruct e as [chunk| | |]; [|intros [= <- <- <-]; eexists [_]; done..].
  destruct (read_guest_opening (b ++ chunk) events) as [[w' r] l] eqn:Er. intros [= <- <- <-].
  destruct (IH _ _ Er) as (read & ->). by exists (Data chunk :: read).
Qed.

Definition replay_of (sv : Served) : option bytes :=
  match sv with
  | SvClosed | SvFailed _ => None
  | SvSpliced _ r | SvMitm _ _ _ _ _ r | SvHttp _ _ r | SvRaw _ _ r | SvPostgres _ _ _ _ _ r | SvRedis _ _ _ _ _ r
  | SvSsh _ _ _ r => Some r
  end.

(** What a served connection was fed: all of [seen], less the negotiation
    packets of eight bytes that the Postgres opening answered itself. *)
Definition replays (arm : Expect) (seen : bytes) (sv : Served) : Prop :=
  ∀ r, replay_of sv = Some r → ∃ k pre, seen = pre ++ r ∧ length pre = 8 * k ∧
    match arm with ExPostgres _ => True | _ => k = 0 end.

Lemma replays_all arm seen sv : (∀ r, replay_of sv = Some r → r = seen) → replays arm seen sv.
Proof. intros Hr r ->%Hr. exists 0, []. split_and!; [done..|by destruct arm]. Qed.

Lemma splice_replay (w : World) host port seen r : replay_of (splice w host port seen) = Some r → r = seen.
Proof. unfold splice. destruct (dials _ _ _); [by intros [= ->]|done]. Qed.

Lemma serve_https_replays w grants p events sv rest :
  serve_https w grants p events = (sv, rest) →
  ∃ read, events = read ++ rest ∧ replays ExTls (cn_initial p ++ read_data read) sv.
Proof.
  unfold serve_https. destruct (read_client_hello (cn_initial p) events) as [r l] eqn:Er.
  destruct (read_client_hello_spec _ _ _ _ Er) as (read & -> & Hh).
  destruct r as [[h|]|e]; [|by intros [= <- <-]; exists read..].
  destruct (Hh h eq_refl) as [Hbuf _]. unfold hello_buf in Hbuf.
  destruct (hello_parts h) as [[b sni] ch]. simpl in Hbuf. subst b.
  intros [= <- <-]. exists read. split; [done|]. apply replays_all. intros r.
  repeat (case_match; try done); cbn [replay_of]; try (by intros [= ->]); apply splice_replay.
Qed.
Lemma serve_http_replays w grants p events sv rest :
  serve_http w grants p events = (sv, rest) →
  ∃ read, events = read ++ rest ∧ replays ExPlain (cn_initial p ++ read_data read) sv.
Proof.
  unfold serve_http. destruct (read_http_head (cn_initial p) events (cn_port p)) as [r l] eqn:Er.
  destruct (read_http_head_spec _ _ _ _ _ Er) as (read & -> & Hh).
  destruct r as [[[[head host] port]|]|e]; [|by intros [= <- <-]; exists read..].
  destruct (Hh _ eq_refl) as [Hhead _]. simpl in Hhead. subst head.
  intros [= <- <-]. exists read. split; [done|]. apply replays_all. intros r.
  repeat (case_match; try done); cbn [replay_of]; by intros [= ->].
Qed.

Lemma settle_postgres_replay w scope p guest_tls name seen r :
  replay_of (settle_postgres w scope p guest_tls name seen) = Some r → seen = r.
Proof. unfold settle_postgres. repeat (case_match; try done); cbn [replay_of]; by intros [= ->]. Qed.

Lemma serve_postgres_replays w scope p events sv rest :
  serve_postgres w scope p events = (sv, rest) →
  ∃ read, events = read ++ rest ∧ replays (ExPostgres scope) (cn_initial p ++ read_data read) sv.
Proof.
  unfold serve_postgres. destruct (read_guest_opening (cn_initial p) events) as [[written r] l] eqn:Er.
  destruct (read_guest_opening_stops _ _ _ _ _ Er) as (read1 & Hev).
  destruct r as [[o|]|e]; [|by intros [= <- <-]; exists read1..].
  destruct (guest_opening_conserves _ _ _ _ _ Er) as (k & s & pre & read & _ & -> & Hbuf & Hlen & _). clear Hev read1.
  destruct o as [b|b]; simpl in Hbuf.
  - destruct (guest_tls_opening w b l (cn_host p)) as [r l'] eqn:Et.
    destruct (guest_tls_opening_spec _ _ _ _ _ _ Et) as (read' & -> & Ht).
    destruct r as [[[[hello identity] name]|]|e];
      [|by intros [= <- <-]; exists (read ++ read'); rewrite app_assoc..].
    destruct (Ht _ _ _ eq_refl) as [-> _].
    intros [= <- <-]. exists (read ++ read'). rewrite app_assoc. split; [done|]. intros r Hr.
    exists (length written), pre. split_and!; [|done..].
    rewrite read_data_app, app_assoc, (Hbuf : cn_initial p ++ read_data read = _), <- app_assoc. f_equal.
    revert Hr. apply settle_postgres_replay.
  - intros [= <- <-]. exists read. split; [done|]. intros r Hr. exists (length written), pre.
    split_and!; [|done..]. unfold read_data. rewrite Hbuf. f_equal.
    revert Hr. apply settle_postgres_replay.
Qed.

Lemma serve_redis_replays w scope p events sv rest :
  serve_redis w scope p events = (sv, rest) →
  ∃ read, events = read ++ rest ∧ replays (ExRedis scope) (cn_initial p ++ read_data read) sv.
Proof.
  unfold serve_redis, settle_redis. destruct (rd_is_downstream_tls scope).
  - destruct (guest_tls_opening w (cn_initial p) events (cn_host p)) as [r l] eqn:Et.
    destruct (guest_tls_opening_spec _ _ _ _ _ _ Et) as (read & -> & Ht).
    destruct r as [[[[hello identity] name]|]|e]; [|by intros [= <- <-]; exists read..].
    destruct (Ht _ _ _ eq_refl) as [-> _].
    intros [= <- <-]. exists read. split; [done|]. apply replays_all. intros r.
    repeat (case_match; try done); cbn [replay_of]; by intros [= ->].
  - case_bool_decide; intros [= <- <-]; exists []; (split; [done|]); apply replays_all; intros r; [done|].
    rewrite app_nil_r. repeat (case_match; try done); cbn [replay_of]; by intros [= ->].
Qed.

Lemma serve_ssh_replays w keys_set scope p events sv rest :
  serve_ssh w keys_set scope p events = (sv, rest) →
  ∃ read, events = read ++ rest ∧ replays (ExSsh scope) (cn_initial p ++ read_data read) sv.
Proof.
  unfold serve_ssh. destruct (read_banner (cn_initial p) events) as [r l] eqn:Er.
  destruct (read_banner_spec _ _ _ _ Er) as (read & -> & Hb).
  destruct r as [[banner|]|e]; [|by intros [= <- <-]; exists read..].
  rewrite (Hb _ eq_refl). intros [= <- <-]. exists read. split; [done|]. apply replays_all. intros r.
  case_match; [apply splice_replay|]. repeat (case_match; try done); cbn [replay_of]; by intros [= ->].
Qed.

(** Serving a connection under any arm reads a prefix of the guest's
    stream and hands on, in order, everything that ingress and arm read of it:
    only the Postgres opening withholds the negotiation packets it answered,
    eight bytes each. No byte of a served or spliced opening is lost or
    repeated. *)
Theorem opening_replayed w grants keys_set arm p events sv rest :
  serve w grants keys_set arm p events = (sv, rest) →
  ∃ read, events = read ++ rest ∧ replays arm (cn_initial p ++ read_data read) sv.
Proof.
  destruct arm; cbn [serve];
    eauto using serve_https_replays, serve_http_replays, serve_postgres_replays, serve_redis_replays, serve_ssh_replays.
  - unfold serve_tcp. intros [= <- <-]. exists []. split; [done|]. apply replays_all. intros r. rewrite app_nil_r.
    repeat (case_match; try done); cbn [replay_of]; by intros [= ->].
  - intros [= <- <-]. exists []. split; [done|]. apply replays_all. intros r. rewrite app_nil_r. apply splice_replay.
Qed.

(** *** What the readers hold is bounded *)

Definition chunks_within (n : nat) (events : list ReadEvent) : Prop := Forall (λ e, length (event_bytes e) ≤ n) events.

Lemma unnamed_bounded n buf h : length buf ≤ n → unnamed buf = Some h → length (hello_buf h) ≤ n.
Proof. by intros Hl ->%unnamed_buf. Qed.

Lemma read_client_hello_bounded n buf events h rest :
  chunks_within n events → length buf ≤ MAX_HELLO + n → read_client_hello buf events = (Ok (Some h), rest) →
  length (hello_buf h) ≤ MAX_HELLO + n.
Proof.
  revert buf. induction events as [|e events IH]; intros buf Hc Hl; cbn [read_client_hello];
    destruct (hello_sni buf) as [[sni hello]|]; try (intros [= <- _]; exact Hl);
    destruct (bool_of_opt (parse_client_hello buf)); try (intros [= Hu _]; by eapply unnamed_bounded);
    destruct (Nat.ltb_spec MAX_HELLO (length buf)); try (intros [= Hu _]; by eapply unnamed_bounded).
  apply Forall_cons in Hc as [Hle Hc].
  destruct e as [chunk| | |]; [|intros [= Hu _]; by eapply unnamed_bounded..|done]. cbv zeta.
  case_bool_decide; [|done]. apply IH; [done|]. rewrite length_app. simpl in Hle. lia.
Qed.

Lemma read_http_head_bounded n buf events port r rest :
  chunks_within n events → length buf ≤ MAX_HEAD + n → read_http_head buf events port = (Ok (Some r), rest) →
  length r.1.1 ≤ MAX_HEAD + n.
Proof.
  revert buf. induction events as [|e events IH]; intros buf Hc Hl; cbn [read_http_head];
    destruct (http_head_host buf port) as [[host p]|]; try (intros [= <- _]; exact Hl);
    destruct (Nat.ltb_spec MAX_HEAD (length buf)); try done.
  apply Forall_cons in Hc as [Hle Hc].
  destruct e as [chunk| | |]; [|done..]. apply IH; [done|]. rewrite length_app. simpl in Hle. lia.
Qed.

(** A guest that never completes its hello or its head cannot make the reader
    hold more than the cap and the chunk that crossed it; what the caller has
    already read is inside the bound to begin with. *)
Theorem openings_bounded n initial events port :
  chunks_within n events → length initial ≤ MAX_HELLO + n →
  (∀ h rest, read_client_hello initial events = (Ok (Some h), rest) → length (hello_buf h) ≤ MAX_HELLO + n) ∧
  (∀ r rest, read_http_head initial events port = (Ok (Some r), rest) → length r.1.1 ≤ MAX_HEAD + n).
Proof.
  intros Hc Hl. split; intros x rest Hr.
  - by eapply read_client_hello_bounded.
  - eapply read_http_head_bounded; [done| |done]. pose proof (eq_refl : (MAX_HELLO <=? MAX_HEAD) = true) as Hle.
    apply Nat.leb_le in Hle. lia.
Qed.

(** *** Every trust bundle an entry names has its relay *)

Lemma add_anchor_incl seen scope path : path ∈ seen → path ∈ add_anchor seen scope.
Proof. unfold add_anchor. intros Hin. repeat case_match; set_solver. Qed.
Lemma add_anchor_adds seen scope path : es_root_cert scope = Some path → path ∈ add_anchor seen scope.
Proof. unfold add_anchor. intros ->. case_bool_decide; set_solver. Qed.

Lemma foldl_add_anchor allow seen path :
  path ∈ seen ∨ (∃ scope, scope ∈ allow ∧ es_root_cert scope = Some path) → path ∈ foldl add_anchor seen allow.
Proof.
  revert seen. induction allow as [|a allow IH]; simpl; intros seen.
  - intros [Hin|(scope & Hin & _)]; [done|]. by apply elem_of_nil in Hin.
  - intros Hd. apply IH. destruct Hd as [Hin|(scope & Hin & Hp)]; [left; by apply add_anchor_incl|].
    apply elem_of_cons in Hin as [->|Hin]; [left; by apply add_anchor_adds|]. right. by exists scope.
Qed.

Lemma entry_anchors_covers grants g scope path scheme host port :
  g ∈ grants → Grant_endpoint g scheme host port = Some scope → es_root_cert scope = Some path →
  path ∈ entry_anchors grants.
Proof.
  intros Hg He Hp. unfold entry_anchors.
  assert (∀ gs seen, path ∈ seen →
    path ∈ foldl (λ seen g, match g with GToken _ allow _ _ => foldl add_anchor seen allow | _ => seen end) seen gs) as Hkeep.
  { induction gs as [|g' gs IH]; intros seen Hin; [done|]. apply IH. destruct g'; try done. apply foldl_add_anchor. by left. }
  assert (∃ c allow pat flow, g = GToken c allow pat flow ∧ scope ∈ allow) as (c & allow & pat & flow & -> & Hin).
  { destruct g; try done. do 4 eexists. split; [done|]. apply find_some in He as [Hin _]. by apply list_elem_of_In. }
  generalize (@nil bytes) as seen. induction grants as [|g' gs IH]; [by apply elem_of_nil in Hg|]. intros seen.
  apply elem_of_cons in Hg as [<-|Hg]; [|by apply IH].
  cbn [foldl]. apply (Hkeep gs), foldl_add_anchor. right. by exists scope.
Qed.

(** The [https://] arm fails closed on an unknown trust bundle, and never does:
    every bundle an entry of the configuration names has its own relay. *)
Theorem trust_bundle_known w grants p events path rest :
  serve_https w grants p events ≠ (SvFailed (UnknownTrustBundle path), rest).
Proof.
  unfold serve_https. destruct (read_client_hello _ _) as [[[h|]|e] l]; [|done..].
  destruct (hello_parts h) as [[b sni] ch]. destruct (sni_differs _ _); [done|].
  destruct (match cn_host p with Some host => Some host | None => sni end) as [identity|];
    [|by unfold splice; destruct (dials _ _ _)].
  destruct (find_map _ grants) as [scope|] eqn:Ef; [|by unfold splice; destruct (dials _ _ _)].
  apply find_map_Some in Ef as (g & Hg & He).
  destruct (mint_allows w), (dials _ _ _), (host_parses _ _), (client_auth_policy w scope); simpl; try done.
  destruct (es_root_cert scope) as [path'|] eqn:Er; [|done].
  rewrite bool_decide_eq_true_2; [done|]. by eapply entry_anchors_covers.
Qed.
End Openings.

(** ** Concrete runs *)

Definition sample_status : RequestHead := {|
  request_status cap buf :=
    match head_len buf with
    | None => PsPartial
    | Some k => match @request_parse sample_httparse cap (take k buf) with Some req => PsComplete k req | None => PsError end
    end;
|}.
(** A hello that is a handshake byte, a name and a line end. *)
Definition sample_hello : TlsHello := {|
  ClientHello := bytes;
  parse_client_hello buf :=
    match buf with
    | b :: rest => if bool_decide (b = TLS_HANDSHAKE) && bool_decide (last rest = Some LF) then Some (take (length rest - 1) rest) else None
    | [] => None
    end;
  ext_server_name name := if bool_decide (name = []) then None else Some name;
|}.
#[local] Existing Instances sample_digests sample_url sample_status sample_hello sample_pgwire sample_hook.

Definition sample_world : World :=
  {| dials _ _ := true; mint_allows := true; ssl_answer := Some Byte.x4e; host_parses _ := true; identity_loads _ _ := true |}.
Definition sample_entry (scheme : Scheme) (host : bytes) (port : N) : EndpointScope :=
  {| es_scheme := scheme; es_host := Exact host; es_port := port; es_client_cert := None; es_client_key := None;
     es_root_cert := None; es_guest_tls := Tls |}.
Definition sample_token (label fake value : bytes) (entry : EndpointScope) : Grant :=
  GToken {| cr_label := label; cr_fake := fake; cr_value := value |} [entry] None None.
Definition sample_grants : list Grant :=
  [sample_token (bs "API") (bs "FAKE_API") (bs "real-api") (sample_entry ConnString.Http (bs "api.test") 80);
   sample_token (bs "LOG") (bs "FAKE_LOG") (bs "real-log") (sample_entry ConnString.Http (bs "logs.test") 80);
   sample_token (bs "WEB") (bs "FAKE_WEB") (bs "real-web") (sample_entry Https (bs "web.test") 443)].
Definition sample_request (host : bytes) : bytes :=
  bs "GET / HTTP/1.1" ++ crlf ++ bs "Host: " ++ host ++ crlf ++ crlf.
Definition sample_client_hello (name : bytes) : bytes := [TLS_HANDSHAKE] ++ name ++ [LF].
Definition sample_params (host : bytes) (port : N) : CandidateParams :=
  {| cn_dial_host := host; cn_port := port; cn_host := Some host; cn_raw_host := host; cn_initial := [] |}.
Definition sample_policy : ClientAuthPolicy := {| ca_offers := None; ca_demands := false |}.


Lemma opening_replayed_witness :
  let hello := sample_client_hello (bs "web.test") in
  ∃ read, [Data (take 4 hello); Data (drop 4 hello); Eof] = read ++ [Eof].
Proof.
  intros hello.
  destruct (opening_replayed sample_world sample_grants true ExTls (sample_params (bs "web.test") 443)
    [Data (take 4 hello); Data (drop 4 hello); Eof]
    (SvMitm (bs "web.test") (sample_entry Https (bs "web.test") 443) sample_policy (bs "web.test", 443%N)
       (bs "web.test", 443%N) hello) [Eof]) as (read & Hread & _); [vm_compute; reflexivity|].
  exists read. exact Hread.
Defined.

(** The [http://] arm of an explicit CONNECT pairs the machines by the head's
    own host: a stream connected to one granted host carries the credential of
    another granted host, named in the [Host] field, to the first. *)
Example connect_host_field_names_pair :
  let head := sample_request (bs "api.test") in
  serve_connect_stream sample_world sample_grants true (bs "logs.test") 80 [] [Data head] =
    (SvHttp (bs "logs.test", 80%N) (bs "api.test", 80%N) head, []) ∧
  map cp_replacement (eligible_pairs sample_grants ConnString.Http (bs "api.test") 80 Downstream) = [bs "real-api"].
Proof. split; vm_compute; reflexivity. Qed.

Definition sample_leg_of (host password : bytes) : PostgresLeg :=
  {| pg_host := host; pg_port := 5432; pg_user := Some (bs "app"); pg_password := password; pg_database := None |}.
Definition sample_db (fake_host real_host fake real : bytes) : Grant :=
  GPostgres {| cr_label := fake_host; cr_fake := fake; cr_value := real |}
    {| pg_downstream := sample_leg_of fake_host fake; pg_upstream := sample_leg_of real_host real; pg_ssl := Prefer;
       pg_negotiation := NegPostgres; pg_root_cert := None; pg_client_cert := None; pg_client_key := None;
       pg_guest_tls := Tls |}.
Definition sample_dbs : list Grant :=
  [sample_db (bs "one.test") (bs "one.internal") (bs "FAKE_ONE") (bs "real-one");
   sample_db (bs "two.test") (bs "two.internal") (bs "FAKE_TWO") (bs "real-two")].

(** On a transparent capture the port alone picks the scope that is dialed,
    and the hello's name picks the pair: with two databases on one port, the
    second's password is swapped on a connection to the first's server. *)
Example transparent_database_crossed :
  let hello := sample_client_hello (bs "two.test") in
  fst (serve_transparent_stream sample_world sample_dbs true (bs "10.0.0.9") 5432 (bs "10.0.0.9")
         [Data (be32 8 ++ be32 80877103); Data hello]) =
    match sample_dbs with
    | GPostgres _ one :: _ => SvPostgres one (Some (bs "two.test")) false (bs "one.internal", 5432%N) (bs "two.test", 5432%N) hello
    | _ => SvClosed
    end ∧
  map cp_replacement (eligible_pairs sample_dbs SPostgres (bs "two.test") 5432 Downstream) = [bs "real-two"].
Proof. split; vm_compute; reflexivity. Qed.
