(* ===== verification/PluginHost.v ===== *)
(** * The plugin host

    [crates/hodor-plugin/src/lib.rs]: compiling the configured plugins and probing
    their worlds, and [PluginInstance], the hook that runs one guest for one leg
    of one connection. [wasmtime] is the class [Wasmtime]: an engine, compiled
    components, and guests whose calls spend the fuel of their store. *)

From S2P Require Import Prelude ConnString Config Grants Mint Engine HttpHead Dispatch.

(** ** The sandbox *)

Definition FUEL_PER_CALL : N := 50000000.
Definition EPOCH_DEADLINE_TICKS : N := 3.
Definition EPOCH_TICK_MS : N := 100.
Definition GUEST_MEMORY_BYTES : N := 64 * 1024 * 1024.
Definition GUEST_TABLE_ELEMENTS : N := 10000.

Record StoreLimits := {
  sl_memory : N;
  sl_elements : N;
  sl_instances : N;
  sl_tables : N;
}.
(** A store: its limits, its fuel, and the ticks left to its deadline. *)
Record Store := {
  st_limits : StoreLimits;
  st_fuel : N;
  st_deadline : N;
}.

(** What a call into a guest leaves: the fuel, the guest, and a trap, the
    guest's own error, or its answer. *)
Record CallResult (G A : Type) := {
  cr_fuel : N;
  cr_guest : G;
  cr_out : result bytes (result bytes A);
}.
Arguments cr_fuel {G A}.
Arguments cr_guest {G A}.
Arguments cr_out {G A}.

(** A header as the generated bindings have it. *)
Definition BindingHeader : Type := bytes * bytes.

Class Wasmtime := {
  wt_engine : Type;
  wt_component : Type;
  wt_linker : Type;
  wt_guest : Type;
  engine_new : ∀ (epoch_interruption consume_fuel : bool), result bytes wt_engine;
  fuel_metered : wt_engine → bool;
  component_from_file : wt_engine → bytes → result bytes wt_component;
  (** The WASI linker, for blocking or for async stores. *)
  add_to_linker : wt_engine → bool → result bytes wt_linker;
  (** The fuel left and the guest. *)
  instantiate : HookDirection → wt_linker → wt_component → Store → result bytes (N * wt_guest);
  call_request_head : wt_guest → Store → bytes * bytes * list BindingHeader → CallResult wt_guest (bytes * bytes * list BindingHeader);
  call_response_head : wt_guest → Store → N * list BindingHeader → CallResult wt_guest (N * list BindingHeader);
  call_trailers : HookDirection → wt_guest → Store → list BindingHeader → CallResult wt_guest (list BindingHeader);
  call_chunk : HookDirection → wt_guest → Store → bytes * bool → CallResult wt_guest bytes;
}.

Inductive HostError :=
| WasiLinker (name origin : bytes)
| NeitherWorld (name request response : bytes)
| EngineFailed (origin : bytes)
| LoadComponent (name path origin : bytes)
| RequestInstantiate (name origin : bytes)
| ResponseInstantiate (name origin : bytes)
| FuelArm.

Section Host.
Context `{!Wasmtime}.

Definition sandbox_limits : StoreLimits :=
  {| sl_memory := GUEST_MEMORY_BYTES; sl_elements := GUEST_TABLE_ELEMENTS; sl_instances := 8; sl_tables := 8 |}.

Definition scratch_store (engine : wt_engine) : result HostError Store :=
  if fuel_metered engine
  then Ok {| st_limits := sandbox_limits; st_fuel := FUEL_PER_CALL; st_deadline := EPOCH_DEADLINE_TICKS |}
  else Err FuelArm.

(** ** Loading *)

Definition probe_world (engine : wt_engine) (component : wt_component) (name : bytes) : result HostError WorldSupport :=
  linker ← map_err (WasiLinker name) (add_to_linker engine false);
  store ← scratch_store engine;
  let request := instantiate HdRequest linker component store in
  store ← scratch_store engine;
  let response := instantiate HdResponse linker component store in
  match request, response with
  | Ok _, Ok _ => Ok WsBoth
  | Ok _, Err _ => Ok WsRequest
  | Err _, Ok _ => Ok WsResponse
  | Err request, Err response => Err (NeitherWorld name request response)
  end.

Record HostPlugin := {
  hp_name : bytes;
  hp_component : wt_component;
  hp_allow : list EndpointScope;
  hp_direction : PluginDirection;
  hp_support : WorldSupport;
}.
(** [rg_ticking]: whether the thread that bumps the epoch runs. *)
Record PluginRegistry := {
  rg_engine : wt_engine;
  rg_plugins : list HostPlugin;
  rg_ticking : bool;
}.

Definition load_plugin (engine : wt_engine) (loaded : list HostPlugin) (plugin : ResolvedPlugin) : result HostError (list HostPlugin) :=
  component ← map_err (LoadComponent (rp_name plugin) (rp_path plugin)) (component_from_file engine (rp_path plugin));
  support ← probe_world engine component (rp_name plugin);
  Ok (loaded ++ [{| hp_name := rp_name plugin; hp_component := component; hp_allow := rp_allow plugin;
                    hp_direction := rp_direction plugin; hp_support := support |}]).
(** [Registry::load]. *)
Definition load (plugins : list ResolvedPlugin) : result HostError PluginRegistry :=
  engine ← map_err EngineFailed (engine_new true true);
  loaded ← try_fold (load_plugin engine) [] plugins;
  Ok {| rg_engine := engine; rg_plugins := loaded; rg_ticking := negb (bool_decide (length loaded = 0)) |}.

(** ** A guest and its calls *)

Inductive Running :=
| RunningRequest (store : Store) (instance : wt_guest)
| RunningResponse (store : Store) (instance : wt_guest).

Record PluginInstance := {
  pi_name : bytes;
  pi_engine : wt_engine;
  pi_component : wt_component;
  pi_leg : HookDirection;
  pi_running : option Running;
}.
Definition PluginInstance_new (name : bytes) (engine : wt_engine) (component : wt_component) (leg : HookDirection) : PluginInstance :=
  {| pi_name := name; pi_engine := engine; pi_component := component; pi_leg := leg; pi_running := None |}.
Definition with_running (pi : PluginInstance) (running : Running) : PluginInstance :=
  {| pi_name := pi_name pi; pi_engine := pi_engine pi; pi_component := pi_component pi; pi_leg := pi_leg pi; pi_running := Some running |}.

(** What the host does with the guest: a start in a world under a store, or a
    call in a world under a store that is answered or not. *)
Inductive HostEvent :=
| Started (world : HookDirection) (store : Store) (ok : bool)
| Called (world : HookDirection) (store : Store) (answered : bool).

Definition ensure_running (pi : PluginInstance) : PluginInstance * list HostEvent * result HostError unit :=
  match pi_running pi with
  | Some _ => (pi, [], Ok tt)
  | None =>
      match scratch_store (pi_engine pi) with
      | Err e => (pi, [], Err e)
      | Ok store =>
          match add_to_linker (pi_engine pi) true with
          | Err e => (pi, [], Err (WasiLinker (pi_name pi) e))
          | Ok linker =>
              match pi_leg pi, instantiate (pi_leg pi) linker (pi_component pi) store with
              | HdRequest, Err e => (pi, [Started HdRequest store false], Err (RequestInstantiate (pi_name pi) e))
              | HdRequest, Ok (fuel, instance) =>
                  (with_running pi (RunningRequest {| st_limits := st_limits store; st_fuel := fuel; st_deadline := st_deadline store |} instance),
                   [Started HdRequest store true], Ok tt)
              | HdResponse, Err e => (pi, [Started HdResponse store false], Err (ResponseInstantiate (pi_name pi) e))
              | HdResponse, Ok (fuel, instance) =>
                  (with_running pi (RunningResponse {| st_limits := st_limits store; st_fuel := fuel; st_deadline := st_deadline store |} instance),
                   [Started HdResponse store true], Ok tt)
              end
          end
      end
  end.

(** [arm]: the store armed afresh; [None] when the engine does not meter fuel. *)
Definition arm (engine : wt_engine) (store : Store) : option Store :=
  if fuel_metered engine
  then Some {| st_limits := st_limits store; st_fuel := FUEL_PER_CALL; st_deadline := EPOCH_DEADLINE_TICKS |}
  else None.
(** The store after a call. *)
Definition spent {A} (store : Store) (r : CallResult wt_guest A) : Store :=
  {| st_limits := st_limits store; st_fuel := cr_fuel r; st_deadline := st_deadline store |}.

Definition header_from_request (header : BindingHeader) : PluginHeader := {| ph_name := header.1; ph_value := header.2 |}.
Definition header_into_request (header : PluginHeader) : BindingHeader := (ph_name header, ph_value header).
Definition header_from_response (header : BindingHeader) : PluginHeader := {| ph_name := header.1; ph_value := header.2 |}.
Definition header_into_response (header : PluginHeader) : BindingHeader := (ph_name header, ph_value header).

Definition host_rewrite_head (pi : PluginInstance) (head : PluginHead) : Verdict * PluginHead * PluginInstance * list HostEvent :=
  match ensure_running pi with
  | (pi, log, Err _) => (VClose, head, pi, log)
  | (pi, log, Ok _) =>
      match pi_running pi, head with
      | Some (RunningRequest store instance), PRequest method path_with_query headers =>
          match arm (pi_engine pi) store with
          | None => (VClose, head, pi, log)
          | Some store =>
              let r := call_request_head instance store (method, path_with_query, header_into_request <$> headers) in
              let pi := with_running pi (RunningRequest (spent store r) (cr_guest r)) in
              match cr_out r with
              | Ok (Ok (method, path_with_query, headers)) =>
                  (VContinue, PRequest method path_with_query (header_from_request <$> headers), pi, log ++ [Called HdRequest store true])
              | _ => (VClose, head, pi, log ++ [Called HdRequest store false])
              end
          end
      | Some (RunningResponse store instance), PResponse status headers =>
          match arm (pi_engine pi) store with
          | None => (VClose, head, pi, log)
          | Some store =>
              let r := call_response_head instance store (status, header_into_response <$> headers) in
              let pi := with_running pi (RunningResponse (spent store r) (cr_guest r)) in
              match cr_out r with
              | Ok (Ok (status, headers)) =>
                  (VContinue, PResponse status (header_from_response <$> headers), pi, log ++ [Called HdResponse store true])
              | _ => (VClose, head, pi, log ++ [Called HdResponse store false])
              end
          end
      | _, _ => (VClose, head, pi, log)
      end
  end.

Definition host_rewrite_trailers (pi : PluginInstance) (headers : list PluginHeader) : Verdict * list PluginHeader * PluginInstance * list HostEvent :=
  match ensure_running pi with
  | (pi, log, Err _) => (VClose, headers, pi, log)
  | (pi, log, Ok _) =>
      match pi_running pi with
      | None => (VClose, headers, pi, log)
      | Some (RunningRequest store instance) =>
          match arm (pi_engine pi) store with
          | None => (VClose, headers, pi, log)
          | Some store =>
              let r := call_trailers HdRequest instance store (header_into_request <$> headers) in
              let pi := with_running pi (RunningRequest (spent store r) (cr_guest r)) in
              match cr_out r with
              | Ok (Ok new) => (VContinue, header_from_request <$> new, pi, log ++ [Called HdRequest store true])
              | _ => (VClose, headers, pi, log ++ [Called HdRequest store false])
              end
          end
      | Some (RunningResponse store instance) =>
          match arm (pi_engine pi) store with
          | None => (VClose, headers, pi, log)
          | Some store =>
              let r := call_trailers HdResponse instance store (header_into_response <$> headers) in
              let pi := with_running pi (RunningResponse (spent store r) (cr_guest r)) in
              match cr_out r with
              | Ok (Ok new) => (VContinue, header_from_response <$> new, pi, log ++ [Called HdResponse store true])
              | _ => (VClose, headers, pi, log ++ [Called HdResponse store false])
              end
          end
      end
  end.

(** The region is taken before the guest is called, so a guest that fails leaves
    it empty. *)
Definition host_rewrite_chunk (pi : PluginInstance) (data : bytes) (eof : bool) : Verdict * bytes * PluginInstance * list HostEvent :=
  match ensure_running pi with
  | (pi, log, Err _) => (VClose, data, pi, log)
  | (pi, log, Ok _) =>
      match pi_running pi with
      | None => (VClose, data, pi, log)
      | Some (RunningRequest store instance) =>
          match arm (pi_engine pi) store with
          | None => (VClose, data, pi, log)
          | Some store =>
              let r := call_chunk HdRequest instance store (data, eof) in
              let pi := with_running pi (RunningRequest (spent store r) (cr_guest r)) in
              match cr_out r with
              | Ok (Ok new) => (VContinue, new, pi, log ++ [Called HdRequest store true])
              | _ => (VClose, [], pi, log ++ [Called HdRequest store false])
              end
          end
      | Some (RunningResponse store instance) =>
          match arm (pi_engine pi) store with
          | None => (VClose, data, pi, log)
          | Some store =>
              let r := call_chunk HdResponse instance store (data, eof) in
              let pi := with_running pi (RunningResponse (spent store r) (cr_guest r)) in
              match cr_out r with
              | Ok (Ok new) => (VContinue, new, pi, log ++ [Called HdResponse store true])
              | _ => (VClose, [], pi, log ++ [Called HdResponse store false])
              end
          end
      end
  end.

(** The host's hooks behind the trait object, and its registry as the dispatcher
    selects from it. *)
Definition host_hook : RewriteHook := {|
  hook_state := PluginInstance;
  rewrite_head pi head := (host_rewrite_head pi head).1;
  rewrite_trailers pi headers := (host_rewrite_trailers pi headers).1;
  rewrite_chunk pi data eof := (host_rewrite_chunk pi data eof).1;
|}.
Definition host_plugin (engine : wt_engine) (p : HostPlugin) : @LoadedPlugin host_hook :=
  @Build_LoadedPlugin host_hook (hp_allow p) (hp_direction p) (hp_support p)
    (PluginInstance_new (hp_name p) engine (hp_component p)).
Definition registry_plugins (r : PluginRegistry) : list (@LoadedPlugin host_hook) := host_plugin (rg_engine r) <$> rg_plugins r.

(** ** Every call is guarded *)

(** A store as the host arms it. *)
Definition armed (store : Store) : Prop :=
  store = {| st_limits := sandbox_limits; st_fuel := FUEL_PER_CALL; st_deadline := EPOCH_DEADLINE_TICKS |}.
(** What a host of a leg may do, from whether its guest runs: start it in the
    leg's world until it starts, and then call it there, each under an armed
    store. *)
Inductive guarded (leg : HookDirection) : bool → list HostEvent → bool → Prop :=
| guarded_none running : guarded leg running [] running
| guarded_start store ok log running :
    armed store → guarded leg ok log running → guarded leg false (Started leg store ok :: log) running
| guarded_call store answered log running :
    armed store → guarded leg true log running → guarded leg true (Called leg store answered :: log) running.

Lemma guarded_app leg r1 log1 r2 log2 r3 : guarded leg r1 log1 r2 → guarded leg r2 log2 r3 → guarded leg r1 (log1 ++ log2) r3.
Proof. induction 1; intros Hr; simpl; [done| |]; constructor; auto. Qed.

(** The guest, when it runs, runs in the leg's world within the sandbox. *)
Definition fits (pi : PluginInstance) : Prop :=
  match pi_running pi with
  | None => True
  | Some (RunningRequest store _) => pi_leg pi = HdRequest ∧ st_limits store = sandbox_limits
  | Some (RunningResponse store _) => pi_leg pi = HdResponse ∧ st_limits store = sandbox_limits
  end.
Definition running_now (pi : PluginInstance) : bool := match pi_running pi with Some _ => true | None => false end.
(** One hook call: what it leaves and what it did. *)
Definition guarded_step (pi : PluginInstance) (out : Verdict * PluginInstance * list HostEvent) : Prop :=
  let '(v, pi', log) := out in
  fits pi' ∧ pi_leg pi' = pi_leg pi ∧ guarded (pi_leg pi) (running_now pi) log (running_now pi') ∧
  (v = VContinue ↔ ∃ store before, log = before ++ [Called (pi_leg pi) store true]).

Lemma ensure_running_spec pi :
  fits pi →
  let '(pi', log, r) := ensure_running pi in
  fits pi' ∧ pi_leg pi' = pi_leg pi ∧ pi_engine pi' = pi_engine pi ∧ guarded (pi_leg pi) (running_now pi) log (running_now pi') ∧
  (∀ store before, log ≠ before ++ [Called (pi_leg pi) store true]).
Proof.
  intros Hfit. unfold ensure_running.
  assert (∀ w st ok leg store before, [Started w st ok] ≠ before ++ [Called leg store true]) as Hlast.
  { intros w st ok leg store before Heq. by apply (app_inj_tail []) in Heq as [_ [=]]. }
  assert (∀ store before, [] ≠ before ++ [Called (pi_leg pi) store true]) as Hnil by by intros ? [].
  destruct (pi_running pi) as [r|] eqn:Er; [by repeat (split; [done || constructor|])|].
  unfold scratch_store. destruct (fuel_metered (pi_engine pi)); [|by repeat (split; [done || constructor|])].
  destruct (add_to_linker _ _) as [linker|e]; [|by repeat (split; [done || constructor|])].
  set (store := {| st_limits := _; st_fuel := FUEL_PER_CALL; st_deadline := _ |}).
  assert (armed store) as Ha by done. unfold running_now. rewrite Er.
  destruct (pi_leg pi) eqn:El; destruct (instantiate _ _ _ _) as [[fuel g]|e]; unfold fits; simpl; rewrite ?Er, ?El;
    repeat (split; [done|]); (split; [apply guarded_start; [done|constructor]|apply Hlast]).
Qed.

Definition running_in (leg : HookDirection) (store : Store) (g : wt_guest) : Running :=
  match leg with HdRequest => RunningRequest store g | HdResponse => RunningResponse store g end.

Lemma closed_step pi pi1 log r : ensure_running pi = (pi1, log, r) → fits pi → guarded_step pi (VClose, pi1, log).
Proof.
  intros He Hfit. pose proof (ensure_running_spec pi Hfit) as Hs. rewrite He in Hs. destruct Hs as (Hf & Hl & _ & Hg & Hn).
  split; [done|]. split; [done|]. split; [done|]. split; [done|]. by intros (store & before & Hlog%Hn).
Qed.
Lemma called_step {A} pi pi1 log r leg store g store' (c : CallResult wt_guest A) answered :
  ensure_running pi = (pi1, log, r) → fits pi → pi_running pi1 = Some (running_in leg store g) → arm (pi_engine pi1) store = Some store' →
  guarded_step pi (if answered : bool then VContinue else VClose, with_running pi1 (running_in leg (spent store' c) (cr_guest c)),
                   log ++ [Called leg store' answered]).
Proof.
  intros He Hfit Hrun Harm. pose proof (ensure_running_spec pi Hfit) as Hs. rewrite He in Hs. destruct Hs as (Hf & Hl & _ & Hg & Hn).
  assert (pi_leg pi = leg ∧ st_limits store = sandbox_limits) as [<- Hlim].
  { unfold fits in Hf. rewrite Hrun in Hf. rewrite Hl in Hf. by destruct leg. }
  unfold arm in Harm. destruct (fuel_metered _); [|done]. injection Harm as Hstore.
  assert (armed store') as Ha by (unfold armed; by rewrite <- Hstore, Hlim).
  split. { unfold fits; simpl. destruct (pi_leg pi); simpl; (split; [done|]); by rewrite <- Hstore. }
  split; [done|]. split.
  - eapply guarded_app; [done|]. replace (running_now pi1) with true by (unfold running_now; by rewrite Hrun).
    unfold running_now at 1. simpl. apply guarded_call; [done|constructor].
  - destruct answered; split; try done; [by eexists _, _|]. by intros (? & ? & [_ [=]]%app_inj_tail).
Qed.

(** The steps of a case analysis of a hook call. *)
Ltac hook_case :=
  first [ eapply closed_step; eassumption
        | by eapply (called_step _ _ _ _ HdRequest _ _ _ _ true); first eassumption
        | by eapply (called_step _ _ _ _ HdRequest _ _ _ _ false); first eassumption
        | by eapply (called_step _ _ _ _ HdResponse _ _ _ _ true); first eassumption
        | by eapply (called_step _ _ _ _ HdResponse _ _ _ _ false); first eassumption ].

Lemma head_step pi head :
  fits pi → let '(v, head', pi', log) := host_rewrite_head pi head in guarded_step pi (v, pi', log) ∧ (v = VClose → head' = head).
Proof.
  intros Hfit. unfold host_rewrite_head. destruct (ensure_running pi) as [[pi1 log] [[]|e]] eqn:He; [|split; [hook_case|done]].
  destruct (pi_running pi1) as [[store g|store g]|] eqn:Hr; destruct head as [method path headers|status headers];
    try (split; [hook_case|done]); destruct (arm _ _) as [store'|] eqn:Ha; try (split; [hook_case|done]).
  - destruct (cr_out _) as [[[[m p] hs]|e]|t]; (split; [hook_case|done]).
  - destruct (cr_out _) as [[[s hs]|e]|t]; (split; [hook_case|done]).
Qed.
Lemma trailers_step pi headers :
  fits pi → let '(v, headers', pi', log) := host_rewrite_trailers pi headers in guarded_step pi (v, pi', log) ∧ (v = VClose → headers' = headers).
Proof.
  intros Hfit. unfold host_rewrite_trailers. destruct (ensure_running pi) as [[pi1 log] [[]|e]] eqn:He; [|split; [hook_case|done]].
  destruct (pi_running pi1) as [[store g|store g]|] eqn:Hr; try (split; [hook_case|done]);
    destruct (arm _ _) as [store'|] eqn:Ha; try (split; [hook_case|done]); destruct (cr_out _) as [[new|e]|t]; (split; [hook_case|done]).
Qed.
Lemma chunk_step pi data eof :
  fits pi → let '(v, data', pi', log) := host_rewrite_chunk pi data eof in guarded_step pi (v, pi', log) ∧ (v = VClose → data' = data ∨ data' = []).
Proof.
  intros Hfit. unfold host_rewrite_chunk. destruct (ensure_running pi) as [[pi1 log] [[]|e]] eqn:He; [|split; [hook_case|by left]].
  destruct (pi_running pi1) as [[store g|store g]|] eqn:Hr; try (split; [hook_case|by left]);
    destruct (arm _ _) as [store'|] eqn:Ha; try (split; [hook_case|by left]); destruct (cr_out _) as [[new|e]|t]; (split; [hook_case|by first [right|left]]).
Qed.

(** The relay's calls of a hook, in any order, and what each did. *)
Inductive HookCall :=
| HeadCall (head : PluginHead)
| TrailersCall (headers : list PluginHeader)
| ChunkCall (data : bytes) (eof : bool).
Definition hook_call (pi : PluginInstance) (call : HookCall) : Verdict * PluginInstance * list HostEvent :=
  match call with
  | HeadCall head => let '(v, _, pi, log) := host_rewrite_head pi head in (v, pi, log)
  | TrailersCall headers => let '(v, _, pi, log) := host_rewrite_trailers pi headers in (v, pi, log)
  | ChunkCall data eof => let '(v, _, pi, log) := host_rewrite_chunk pi data eof in (v, pi, log)
  end.
Fixpoint hook_calls (pi : PluginInstance) (calls : list HookCall) : list (Verdict * list HostEvent) :=
  match calls with
  | [] => []
  | call :: calls => let '(v, pi, log) := hook_call pi call in (v, log) :: hook_calls pi calls
  end.

Lemma hook_call_step pi call : fits pi → guarded_step pi (hook_call pi call).
Proof.
  intros Hfit. destruct call as [head|headers|data eof]; simpl.
  - pose proof (head_step pi head Hfit) as Hs. by destruct (host_rewrite_head pi head) as [[[v h] pi'] log], Hs.
  - pose proof (trailers_step pi headers Hfit) as Hs. by destruct (host_rewrite_trailers pi headers) as [[[v h] pi'] log], Hs.
  - pose proof (chunk_step pi data eof Hfit) as Hs. by destruct (host_rewrite_chunk pi data eof) as [[[v h] pi'] log], Hs.
Qed.

(** C20: Whatever the relay asks of a plugin's hook, in whatever order: the guest
    is started only in the world of the hook's leg and is never started again
    once it runs, it is called only when it runs and only in that world, and
    every start and every call is made under a full fuel budget, a full epoch
    deadline and the sandbox limits, whatever the calls before it consumed. A
    hook call lets the connection continue exactly when the last thing it did was
    a call that the guest answered; a trap, an exhausted budget, a guest error, a
    guest that does not start or a head of the other leg closes it. *)
Theorem hook_calls_guarded name engine component leg calls :
  let steps := hook_calls (PluginInstance_new name engine component leg) calls in
  length steps = length calls ∧
  (∃ running, guarded leg false (concat steps.*2) running) ∧
  ∀ v log, (v, log) ∈ steps → (v = VContinue ↔ ∃ store before, log = before ++ [Called leg store true]).
Proof.
  assert (∀ pi, fits pi → let steps := hook_calls pi calls in
    length steps = length calls ∧ (∃ running, guarded (pi_leg pi) (running_now pi) (concat steps.*2) running) ∧
    ∀ v log, (v, log) ∈ steps → (v = VContinue ↔ ∃ store before, log = before ++ [Called (pi_leg pi) store true])) as Hall;
    [|by apply (Hall (PluginInstance_new name engine component leg))].
  induction calls as [|call calls IH]; intros pi Hfit; simpl.
  { split; [done|]. split; [eexists; constructor|]. intros v log Hin. by apply not_elem_of_nil in Hin. }
  pose proof (hook_call_step pi call Hfit) as Hstep. destruct (hook_call pi call) as [[v pi'] log].
  destruct Hstep as (Hfit' & Hleg & Hg & Hv). destruct (IH pi' Hfit') as (Hlen & (running & Hg') & Hvs). rewrite Hleg in Hg', Hvs.
  split; [simpl; by f_equal|]. split; [exists running; simpl; by eapply guarded_app|].
  intros v0 log0 [[= -> ->]|Hin]%elem_of_cons; [done|by apply Hvs].
Qed.

(** ** Loading is all or nothing *)

(** A configured plugin and what it was loaded as. *)
Definition loads (engine : wt_engine) (p : ResolvedPlugin) (hp : HostPlugin) : Prop :=
  component_from_file engine (rp_path p) = Ok (hp_component hp) ∧ probe_world engine (hp_component hp) (rp_name p) = Ok (hp_support hp) ∧
  hp_name hp = rp_name p ∧ hp_allow hp = rp_allow p ∧ hp_direction hp = rp_direction p.

Lemma load_plugins_spec engine loaded plugins result :
  try_fold (load_plugin engine) loaded plugins = Ok result ↔ ∃ new, result = loaded ++ new ∧ Forall2 (loads engine) plugins new.
Proof.
  revert loaded. induction plugins as [|p plugins IH]; intros loaded; simpl.
  { split; [intros [= <-]; exists []; by rewrite app_nil_r|]. intros (new & -> & ->%Forall2_nil_inv_l). by rewrite app_nil_r. }
  assert (∀ result', load_plugin engine loaded p = Ok result' ↔ ∃ hp, result' = loaded ++ [hp] ∧ loads engine p hp) as Hone.
  { intros result'. unfold load_plugin. rewrite bind_ok. setoid_rewrite bind_ok. split.
    - intros (c & Hc & support & Hp & [= <-]). eexists. split; [done|]. destruct (component_from_file engine (rp_path p)) eqn:Ec; [|done].
      injection Hc as ->. by repeat split.
    - intros (hp & -> & Hc & Hp & Hn & Ha & Hd). exists (hp_component hp). rewrite Hc. split; [done|]. exists (hp_support hp). split; [done|].
      do 3 f_equal. destruct hp; simpl in *. congruence. }
  rewrite bind_ok. setoid_rewrite Hone. setoid_rewrite IH. split.
  - intros (? & (hp & -> & Hp) & new & -> & Hnew). exists (hp :: new). rewrite <- app_assoc. split; [done|]. by constructor.
  - intros (new & -> & (hp & rest & Hp & Hrest & ->)%Forall2_cons_inv_l). eexists. split; [by exists hp|]. exists rest. by rewrite <- app_assoc.
Qed.

(** The registry loads exactly when the engine builds and every configured
    plugin does, each in its place. *)
Theorem load_exact plugins r :
  load plugins = Ok r ↔
  ∃ engine, engine_new true true = Ok engine ∧ rg_engine r = engine ∧ Forall2 (loads engine) plugins (rg_plugins r) ∧
    (rg_ticking r = true ↔ plugins ≠ []).
Proof.
  unfold load. destruct (engine_new true true) as [engine|e]; simpl; [|split; [done|by intros (? & ? & _)]].
  assert (∀ new, Forall2 (loads engine) plugins new → negb (bool_decide (length new = 0)) = true ↔ plugins ≠ []) as Htick.
  { intros new Hnew. rewrite negb_true_iff, bool_decide_eq_false. apply Forall2_length in Hnew. rewrite <- Hnew. by destruct plugins. }
  split.
  - destruct (try_fold _ _ _) as [loaded|e] eqn:E; simpl; [|done]. intros [= <-]. apply load_plugins_spec in E as (new & -> & Hnew).
    exists engine. simpl. split; [done|]. split; [done|]. split; [done|by apply Htick].
  - intros (engine' & [= <-] & Hre & Hnew & Ht). rewrite (proj2 (load_plugins_spec engine [] plugins (rg_plugins r))) by by exists (rg_plugins r).
    simpl. f_equal. destruct r as [e ps t]; simpl in *. subst e. f_equal. apply Htick in Hnew. destruct t; [|].
    + by apply Hnew, Ht.
    + apply not_true_iff_false. by rewrite Hnew, <- Ht.
Qed.

(** The hook selected for a leg is a fresh instance of a configured plugin that
    is granted the endpoint, gates the leg in, and was compiled from its file and
    found to instantiate in the leg's world. *)
Theorem selected_loaded plugins r scheme host port leg pi :
  load plugins = Ok r → @select host_hook (registry_plugins r) scheme host port leg = Some pi →
  ∃ p component, p ∈ plugins ∧ uri_match (rp_allow p) scheme host port = true ∧ direction_allows (rp_direction p) leg = true ∧
    component_from_file (rg_engine r) (rp_path p) = Ok component ∧ pi = PluginInstance_new (rp_name p) (rg_engine r) component leg ∧
    ∃ linker store running, instantiate leg linker component store = Ok running.
Proof.
  intros (engine & _ & Hre & Hloads & _)%load_exact Hsel. unfold select in Hsel. apply fmap_Some in Hsel as (lp & Hfind & ->).
  apply find_some in Hfind as [Hin Hm]. apply list_elem_of_In in Hin. unfold registry_plugins in Hin. apply list_elem_of_fmap in Hin as (hp & -> & Hin).
  simpl in Hm. apply list_elem_of_lookup in Hin as (i & Hi).
  destruct (Forall2_lookup_r _ _ _ _ _ Hloads Hi) as (p & Hp & Hc & Hw & Hn & Ha & Hd). rewrite Ha, Hd in Hm.
  apply andb_true_iff in Hm as [[Hu Hdir]%andb_true_iff Hsup]. exists p, (hp_component hp). rewrite Hre. split; [by eapply list_elem_of_lookup_2|].
  split; [done|]. split; [done|]. split; [done|]. split; [simpl; by rewrite Hn|].
  unfold probe_world in Hw. destruct (add_to_linker engine false) as [linker|e]; simpl in Hw; [|done].
  destruct (scratch_store engine) as [store|e]; simpl in Hw; [|done].
  destruct (instantiate HdRequest linker _ store) as [q|] eqn:Eq; destruct (instantiate HdResponse linker _ store) as [s|] eqn:Es;
    injection Hw as Hsupport || discriminate Hw; rewrite <- Hsupport in Hsup; destruct leg; try done; eauto.
Qed.
End Host.

(** ** A sample *)

(** An engine with one component, of the request world: its guest counts its
    calls, spends all but ten of its fuel, renames nothing, and traps on the
    third call. *)
Definition sample_call {A} (g : nat) (store : Store) (a : A) : CallResult nat A :=
  {| cr_fuel := 10; cr_guest := S g;
     cr_out := if (st_fuel store <=? 10)%N then Err (bs "out of fuel") else if bool_decide (g = 2) then Err (bs "trap") else Ok (Ok a) |}.
Definition sample_wasmtime : Wasmtime := {|
  wt_engine := bool; wt_component := unit; wt_linker := unit; wt_guest := nat;
  engine_new _ consume_fuel := Ok consume_fuel;
  fuel_metered engine := engine;
  component_from_file _ path := if bool_decide (path = bs "/p.wasm") then Ok tt else Err (bs "no such file");
  add_to_linker _ _ := Ok tt;
  instantiate world _ _ store := match world with HdRequest => Ok (st_fuel store, 0) | HdResponse => Err (bs "no export") end;
  call_request_head := sample_call;
  call_response_head := sample_call;
  call_trailers _ := sample_call;
  call_chunk _ g store a := sample_call g store a.1;
|}.

Definition sample_plugin (path : bytes) : ResolvedPlugin :=
  {| rp_name := bs "p"; rp_path := path; rp_allow := []; rp_direction := PdBoth |}.
Definition fresh_store : Store := {| st_limits := sandbox_limits; st_fuel := FUEL_PER_CALL; st_deadline := EPOCH_DEADLINE_TICKS |}.

(** Three regions and the trailers of a request: the third call traps and the
    fourth still has a full budget. *)
Example sample_calls :
  @hook_calls sample_wasmtime (@PluginInstance_new sample_wasmtime (bs "p") true tt HdRequest)
    [ChunkCall (bs "a") false; ChunkCall (bs "b") false; ChunkCall (bs "c") true; TrailersCall []] =
  [(VContinue, [Started HdRequest fresh_store true; Called HdRequest fresh_store true]);
   (VContinue, [Called HdRequest fresh_store true]);
   (VClose, [Called HdRequest fresh_store false]);
   (VContinue, [Called HdRequest fresh_store true])].
Proof. reflexivity. Qed.
Example sample_other_leg :
  @hook_calls sample_wasmtime (@PluginInstance_new sample_wasmtime (bs "p") true tt HdResponse) [ChunkCall (bs "a") true] =
  [(VClose, [Started HdResponse fresh_store false])].
Proof. reflexivity. Qed.
Example sample_load :
  (λ r, hp_support <$> @rg_plugins sample_wasmtime r) <$> @load sample_wasmtime [sample_plugin (bs "/p.wasm")] = Ok [WsRequest].
Proof. reflexivity. Qed.
Example sample_load_fails :
  @load sample_wasmtime [sample_plugin (bs "/p.wasm"); sample_plugin (bs "/q.wasm")] =
  Err (LoadComponent (bs "p") (bs "/q.wasm") (bs "no such file")).
Proof. reflexivity. Qed.
